(* ===== verification/_CoqProject ===== *)
-Q . S2P
Prelude.v
Utils.v
Source.v
SourceAllocator.v
Slices.v
Las.v
Opening.v
Memory.v
Pointer.v
Vos.v
Allocators.v
Mapping.v
Versions.v
Objects.v
Paging.v
Tx.v
Transactions.v
Heap.v
Runs.v
Retries.v
Reopen.v
Blocks.v
Checks.v
Scenarios.v
Devices.v
Executions.v
Snapshot.v
Arena.v
Simulation.v
Calls.v
Isolation.v
Skew.v
Clients.v
Quiet.v
Values.v
Views.v
Showing.v
Founding.v
Blank.v
Basics.v
Example.v
Threads.v
Schedules.v
Counter.v
Stages.v
Moves.v
Races.v
Stepwise.v
Linear.v
Switcharoo.v
Testing.v
Interleavings.v
Collisions.v
