(* ===== verification/Prelude.v ===== *)
(** * librarius, modelled and verified

    librarius (src/README.md) is a storage engine: a heap of objects over
    several sources of storage, some byte addressable and volatile, some
    persistent blocks, with transactions that see a snapshot of the heap and
    write new versions of its objects.  This library models the whole crate as
    executable definitions and proves what its parts guarantee, and where they
    guarantee less than they mean to.

    ** The program and the files that model it

    - [Prelude]: errors (error.rs); computations with state, [Err], panic and
      undefined behaviour; the target (overflow checks, struct layout); [usize]
      and [u32] arithmetic; byte ranges.
    - [Utils] (utils.rs): alignment, casts, checksum, [OptionExt].
    - [Source] (source/mod.rs, memory_source.rs, file_source.rs): the trait
      [Source] as a class with its laws, and its two implementations.
    - [SourceAllocator] (source/mod.rs): a source with its header and its list
      of free pages.
    - [Slices], [Las] (las.rs): logical slices, the meta page, the logical
      address space with its page table, [flush], [fetch] and [new].
    - [Pointer], [Vos] (vos.rs): pointers and their cells, versions, the
      allocators, object headers, the reader, the versioned object store.
    - [Tx] (tx.rs): transactions.
    - [Heap] (librarius.rs, typed.rs): the builder, opening, the root object,
      [run_once], [run], typed access.
    - [Basics], [Counter], [Switcharoo] (the tests of las.rs and librarius.rs):
      their closures and threads as client programs.
    - [Example] (examples/basic.rs): the program, with its arguments and the
      answers of the system as parameters.

    A client calls [Librarius_run] with a closure over a transaction.  The
    transaction reads through [VersionedReader_read], allocates through its two
    [GenericAllocator]s, which take pages from the address space, and swings
    pointers by compare-and-swap; the address space finds the source of an
    address and reads and writes its memory, and moves pages between volatile
    and persistent sources.  The names are those of the code, with the type's
    name in front of a method's: [Transaction_commit] is [Transaction::commit].

    ** How the code is modelled

    A method on a shared or mutable object is a computation [M S A], a function
    from the state to an outcome and the state after it; the state is kept on
    every outcome.  A reference [&mut [u8]] into a source's memory is a
    [memref], the source and the range it covers, so that two references to
    the same bytes alias; a [&UntypedPointer] is a [cell], in memory or a local
    copy.  Integers are [Z] with the wrap-around or the overflow panic of the
    target written out.  Struct layout, padding and the overflow checks are the
    class [Target]; crc32fast's function, mmap and the outcome of each file
    operation are parameters.  A cast to a [&T] is defined only for enough
    bytes at a place that is aligned for a [T]; places are taken relative to
    the start of a source's memory, which mmap aligns to a page, and to the
    address the target gives a [Vec] of bytes ([vec_address]).  The code's
    own test has objects of one byte and so a misaligned header behind them:
    a target can also be told not to mind ([enforce_alignment]).

    Recursion is bounded by fuel where it is not structural: [flush] needs two
    levels ([flush_terminates]); the loop of [alloc] two rounds
    ([GenericAllocator_alloc_total]); an indirect version one level of four;
    [VersionedReader_read] one more than the versions of the object
    ([VersionedReader_read_refines]); [run] one more than the attempts that
    are aborted ([Librarius_run_retries]).

    ** What the theorems show

    - [Versions], [Objects], [Transactions]: the versions of an object form a
      chain ([version_chain]), and the reader is the lookup [snapshot_read] in
      it; a write puts a version in front, a commit publishes it at once and
      moves no running reader, an abort puts everything back.  The failures
      are there too: the first writer wins, a transaction does not see its own
      writes, reading for writing makes a commit fail.
    - [Snapshot], [Arena], [Simulation], [Calls], [Isolation]: any number of
      transactions, their calls interleaved in any order.  [Snapshot] is the
      specification, a multi-version store without memory or pointers;
      [Simulation] says when a heap represents one ([represents]) and that
      what a transaction does to the memory keeps it so, [Arena] that the
      transactions' allocators do not meet; [Calls] goes through the calls of
      tx.rs.  [Isolation] draws the conclusions: executions refine the store,
      reads are repeatable, commits are atomic, a transaction that is given up
      leaves no trace, the first writer wins, no call panics.  [Clients]
      carries this over to closures that [run] is given.  The pointers to the
      objects are a fixed set here, one for each object with its exact size.
      An object that is reached through two copies of a pointer has two
      chains of versions, and some of this no longer holds: [Executions] has
      runs where it does not.  [Skew]: what snapshot isolation allows, two
      transactions that read what the other writes and both commit.
    - [Stages], [Moves], [Races], [Stepwise], [Linear]: the same with [write] and
      [alloc] interrupted between any two of their stages, any number of them
      at a time.  [Moves] is what each kind of step leaves alone, [Races] what
      a call that is under way can rely on: its new version, which nobody
      else has, and the version it has read, which is committed.  A [write]
      takes place at its compare-and-swap or not at all
      ([race_loses_no_update]).
    - [Values], [Views], [Showing]: the same executions one level up, by the
      values of the objects: a transaction sees those of the moment it began
      and works on copies that are put in place at once
      ([executions_refine_values]).
    - [Threads], [Schedules]: threads that run closures, step by step, under
      any schedule: they are never stuck, and a thread that runs alone is
      [run].  [Schedules] is the executable form of their steps.
    - [Basics], [Counter], [Switcharoo]: what the tests assert holds for any
      number of threads and any schedule: no increment is lost, and the writes
      of a transaction are seen all or not at all.
    - [Mapping], [Founding], [Blank]: opening.  Fresh sources are mapped one
      behind the other ([LogicalAddressSpace_new_inv]); a new heap stands for a
      store with its root object ([Librarius_new_founds]), so that all of the
      above applies to it; and on memory of zeros [new] fails for lack of room
      only ([Librarius_new_outcome]).
    - [Allocators]: the address space's invariant [las_inv]; allocators hand
      out memory once and their loop ends.
    - [Memory], [Paging]: the address space is a memory, and what is flushed
      is what is fetched.
    - [Source], [SourceAllocator]: sources keep what is written; opening one
      frees the right pages; pages are handed out once.
    - [Opening], [Pointer], [Utils]: where a root is looked for, pointer
      encodings, alignment and its overflow.
    - [Runs]: what [run_once] and [run] do with a closure.  [Retries]: with
      a write that is aborted each time it leaks its pages, one for each
      attempt, until none is left.  [Blocks]: a write through a pointer to
      storage never succeeds.  [Reopen]: without a constructor [new] never
      succeeds.
    - [Checks], [Quiet]: boolean tests of the address space's invariant, and of
      what an idle heap stands for, read back from its memory.
    - [Scenarios], [Devices], [Interleavings], [Collisions], [Testing]: heaps,
      transactions that overlap or race and threads, to which all of the above apply.
      [Executions]: whole runs, among them an update that is lost through a
      copied pointer, a write that uses up all memory, and a root that is not
      found again.

    ** Not modelled

    Threads run one operation of the model at a time, a call of a transaction
    or an access to the bytes it has been given ([Threads]): the locks of
    parking_lot and the sequentially consistent atomics make each operation of
    the code that is modelled as one step atomic at the memory it touches.
    [write] and [alloc] are also modelled stage by stage ([Linear]), where a
    stage touches shared memory at one point; interleavings inside [commit]
    and [abort], between two loads of a reader's walk down a chain, and inside
    the copy of an object's bytes are not modelled, nor is it undefined
    behaviour here that two threads access the bytes of an object at the same
    time.  The set of pointers of the theorems about transactions side by side
    is fixed, with one pointer for each object.  The theorems about opening with a
    constructor are for volatile memory that no heap was on; a heap with a
    file is run on concrete devices ([Executions], [Testing]).  [println!] with
    its arguments, the addresses a [Vec] may have beyond one of them for each
    target, the messages of errors, lifetimes and [Drop] are left out, and so are the types and
    constants the code never uses ([LogSegmentHeader], [LogEntryHeader],
    [LOG_ENTRY_OVERHEAD], [CONTEXT_SIZE]). *)
From stdpp Require Export base gmap list strings.
From coqutil Require Export Byte LittleEndianList.
From Stdlib Require Export ZArith Lia.
From Stdlib Require Strings.Byte.

#[export] Set Default Goal Selector "!".
#[global] Open Scope Z_scope.

(** ** Errors (src/src/error.rs)

    The constructors of [enum Error].  The payloads that come from the
    operating system ([errno::Errno], [io::Error]) are their raw codes. *)
Inductive Error : Type :=
| SourceError
| MemoryAlloc (errno : Z)
| InvalidSource
| InvalidMemory
| WrongPagesize (is_ expected : Z)
| FileIO (err : Z)
| PartialIO
| NotByteAddressable
| NoAvailableMemory
| NoPersistentStorage
| InvalidLogicalAddress
| InvalidFlush
| RootExists
| OpenOnUninitialized
| AllocationTooLarge
| ContextTooLarge
| TxAborted.

#[export] Instance Error_eq_dec : EqDecision Error.
Proof. solve_decision. Defined.

(** ** Effects

    A Rust computation returns, returns an [Err], panics, or leaves the
    language's defined behaviour (an [unsafe] cast that reads past the memory
    it was given, or makes a reference that is not aligned); [Diverge] is what a fuelled loop of the model reports when
    its fuel runs out. *)
Inductive failure : Type :=
| Throw (e : Error)
| Panic
| Undef
| Diverge.

Inductive outcome (A : Type) : Type :=
| Ok (a : A)
| Fail (f : failure).
Arguments Ok {A} a.
Arguments Fail {A} f.
Abbreviation Err e := (Fail (Throw e)).

(** Stateful code: the state is kept on every outcome, an [Err] included,
    because the Rust code mutates shared memory before it returns one. *)
Definition M (S A : Type) : Type := S → outcome A * S.

#[export] Instance outcome_ret : MRet outcome := λ A a, Ok a.
#[export] Instance outcome_bind : MBind outcome := λ A B k m,
  match m with Ok a => k a | Fail f => Fail f end.
#[export] Instance M_ret S : MRet (M S) := λ A a s, (Ok a, s).
#[export] Instance M_bind S : MBind (M S) := λ A B k m s,
  match m s with
  | (Ok a, s') => k a s'
  | (Fail f, s') => (Fail f, s')
  end.

(** A computation without state, run in any state. *)
Definition lift {S A} (o : outcome A) : M S A := λ s, (o, s).
Definition fail {S A} (f : failure) : M S A := λ s, (Fail f, s).
Definition throw {S A} (e : Error) : M S A := fail (Throw e).
Definition get {S} : M S S := λ s, (Ok s, s).
Definition gets {S A} (f : S → A) : M S A := λ s, (Ok (f s), s).
Definition modify {S} (f : S → S) : M S unit := λ s, (Ok tt, f s).

(** [Result::is_err], [if let Err(e)], [match result]: the error as a value;
    a panic is not caught. *)
Definition attempt {S A} (m : M S A) : M S (A + Error) := λ s,
  match m s with
  | (Ok a, s') => (Ok (inl a), s')
  | (Err e, s') => (Ok (inr e), s')
  | (Fail f, s') => (Fail f, s')
  end.

(** Running a computation on a component of the state. *)
Definition zoom {S T A} (getter : S → T) (setter : T → S → S) (m : M T A) : M S A :=
  λ s, let '(o, t) := m (getter s) in (o, setter t s).

(** [Option::ok_or], [Option::unwrap] / [Result::unwrap], [assert!]. *)
Definition ok_or {S A} (o : option A) (e : Error) : M S A :=
  match o with Some a => mret a | None => throw e end.
Definition unwrap {S A} (o : option A) : M S A :=
  match o with Some a => mret a | None => fail Panic end.
Definition assert {S} (b : bool) : M S unit := if b then mret tt else fail Panic.
Definition panic_on {A} (o : outcome A) : outcome A :=
  match o with Err _ => Fail Panic | o => o end.

(** [for x in xs { f(x)?; }] *)
Fixpoint for_each {S A} (xs : list A) (f : A → M S unit) : M S unit :=
  match xs with
  | [] => mret tt
  | x :: xs => f x ;; for_each xs f
  end.

(** ** The target: build profile and layout

    What the language leaves to the compiler and the build: whether integer
    overflow panics ([cargo build]/[cargo test]) or wraps ([--release]), where
    [repr(Rust)] places the fields of the structs that are cast to and from
    bytes, and the content of their padding.  A reference that is not aligned
    is outside the language's defined behaviour ([enforce_alignment]); without
    that rule the model is of a machine that accesses memory at any address,
    as the one the crate is compiled for does. *)
Class Target : Type := {
  overflow_checks : bool;
  (** [ObjectHeader] *)
  off_pointers : Z; off_data : Z; off_version : Z; off_parent : Z; off_other : Z;
  (** [LogicalSlice] *)
  off_ls_offset : Z; off_ls_len : Z;
  (** [Meta] *)
  off_meta_data : Z; off_meta_crc : Z; off_meta_root : Z;
  (** [SourceHeaderData] and [SourceHeader] *)
  off_magic : Z; off_pagesize : Z; off_sh_data : Z; off_sh_crc : Z;
  (** the bytes a fresh struct value has before its fields are written *)
  padding : nat → list byte;
  (** whether references have to be aligned *)
  enforce_alignment : bool;
  (** where the global allocator puts a [Vec<u8>] *)
  vec_address : Z
}.

(** A place that a reference with alignment [n] may refer to.  Places in the
    memory of a source count from its start, which is page aligned ([mmap]). *)
Definition aligned `{T : Target} (n place : Z) : Prop := enforce_alignment = true → place mod n = 0.
#[export] Instance aligned_dec `{T : Target} n place : Decision (aligned n place).
Proof. unfold aligned. apply _. Defined.

(** Sizes in bytes on the 64-bit targets the pointer tags need. *)
Definition size_of_usize : Z := 8.
Definition size_of_LogicalSlice : Z := 16.
Definition size_of_ObjectHeader : Z := 32.
Definition size_of_Meta : Z := 88.
Definition size_of_SourceHeaderData : Z := 16.
Definition size_of_SourceHeader : Z := 24.

(** Two fields [(offset, size)] that do not share a byte. *)
Definition apart (f g : Z * Z) : Prop := f.1 + f.2 ≤ g.1 ∨ g.1 + g.2 ≤ f.1.
Definition within (size : Z) (f : Z * Z) : Prop := 0 ≤ f.1 ∧ f.1 + f.2 ≤ size.
(** Every field lies in the struct, and the fields are pairwise apart. *)
Fixpoint packed (size : Z) (fs : list (Z * Z)) : Prop :=
  match fs with
  | [] => True
  | f :: fs => within size f ∧ Forall (apart f) fs ∧ packed size fs
  end.

(** What the compiler and the allocator guarantee: fields in range, no two
    overlapping, atomics aligned in their struct, [malloc]'s memory aligned for
    every basic type.  [root_aligned] is what nothing guarantees: [Meta::root]
    is an array of bytes, and the code needs it at the place of an object. *)
Class TargetOk (T : Target) : Prop := {
  header_packed : packed size_of_ObjectHeader
    [(off_pointers, 4); (off_data, 4); (off_version, 8); (off_parent, 8); (off_other, 8)];
  slice_packed : packed size_of_LogicalSlice [(off_ls_offset, 8); (off_ls_len, 8)];
  meta_packed : packed size_of_Meta
    [(off_meta_data, 16); (off_meta_crc, 4); (off_meta_root, 64)];
  source_header_data_packed : packed size_of_SourceHeaderData
    [(off_magic, 8); (off_pagesize, 8)];
  source_header_packed : packed size_of_SourceHeader [(off_sh_data, 16); (off_sh_crc, 4)];
  padding_length : ∀ n, length (padding n) = n;
  header_aligned : aligned 8 off_version ∧ aligned 8 off_other;
  vec_aligned : aligned 8 vec_address;
  root_aligned : aligned 8 off_meta_root
}.

(** ** [usize] and [u32] arithmetic *)
Definition usize_bits : Z := 64.
Definition usize_modulus : Z := 2 ^ 64.
Definition u32_modulus : Z := 2 ^ 32.

Definition is_usize (z : Z) : Prop := 0 ≤ z < usize_modulus.
Definition is_u32 (z : Z) : Prop := 0 ≤ z < u32_modulus.

Section Arithmetic.
Context `{T : Target}.

(** The result of an arithmetic operation at width [m]: in range it is the
    mathematical one; out of range it panics or wraps with the profile. *)
Definition wrapping (m r : Z) : outcome Z :=
  if decide (0 ≤ r < m) then Ok r
  else if overflow_checks then Fail Panic else Ok (r mod m).

Definition usize_add (a b : Z) : outcome Z := wrapping usize_modulus (a + b).
Definition usize_sub (a b : Z) : outcome Z := wrapping usize_modulus (a - b).
Definition usize_mul (a b : Z) : outcome Z := wrapping usize_modulus (a * b).
Definition u32_add (a b : Z) : outcome Z := wrapping u32_modulus (a + b).
(** Division by zero panics in every profile. *)
Definition usize_div (a b : Z) : outcome Z :=
  if decide (b = 0) then Fail Panic else Ok (a / b).
Definition usize_not (a : Z) : Z := Z.lxor a (Z.ones usize_bits).
End Arithmetic.

Declare Scope rust_scope.
Delimit Scope rust_scope with rust.
Infix "+!" := usize_add (at level 50, left associativity) : rust_scope.
Infix "-!" := usize_sub (at level 50, left associativity) : rust_scope.
Infix "*!" := usize_mul (at level 40, left associativity) : rust_scope.
Infix "/!" := usize_div (at level 40, left associativity) : rust_scope.
#[global] Open Scope rust_scope.

(** ** Byte strings

    Memory is [list byte]; positions and lengths are the code's [usize]. *)
Definition blen (l : list byte) : Z := Z.of_nat (length l).

#[export] Instance byte_eq_decision : EqDecision byte := Stdlib.Strings.Byte.byte_eq_dec.

(** [&l[off .. off + len]], for a range that is in bounds. *)
Definition slice (off len : Z) (l : list byte) : list byte :=
  take (Z.to_nat len) (drop (Z.to_nat off) l).

(** [l[off ..].copy_from_slice(src)], for a range that is in bounds. *)
Definition splice (off : Z) (src l : list byte) : list byte :=
  take (Z.to_nat off) l ++ src ++ drop (Z.to_nat off + length src) l.

Definition in_range (off len total : Z) : Prop := 0 ≤ off ∧ 0 ≤ len ∧ off + len ≤ total.
#[export] Instance in_range_dec off len total : Decision (in_range off len total).
Proof. unfold in_range. apply _. Defined.

(** Slicing with Rust's check: the range must be ordered and in bounds. *)
Definition index_range (start finish total : Z) : outcome (Z * Z) :=
  if decide (start ≤ finish ≤ total) then Ok (start, finish - start) else Fail Panic.

(** Little-endian integers. *)
Definition u64_bytes (v : Z) : list byte := le_split 8 v.
Definition u32_bytes (v : Z) : list byte := le_split 4 v.
Definition int_at (off len : Z) (l : list byte) : Z := le_combine (slice off len l).
Definition zeros (n : Z) : list byte := replicate (Z.to_nat n) Byte.x00.

(** ** Reasoning about effects *)
Section Effects.
Context {S A B : Type}.

Lemma bind_ok (m : M S A) (k : A → M S B) s a s' :
  m s = (Ok a, s') → (m ≫= k) s = k a s'.
Proof. unfold mbind, M_bind. by intros ->. Qed.

Lemma bind_fail (m : M S A) (k : A → M S B) s f s' :
  m s = (Fail f, s') → (m ≫= k) s = (Fail f, s').
Proof. unfold mbind, M_bind. by intros ->. Qed.

Lemma bind_ok_inv (m : M S A) (k : A → M S B) s b s'' :
  (m ≫= k) s = (Ok b, s'') → ∃ a s', m s = (Ok a, s') ∧ k a s' = (Ok b, s'').
Proof. unfold mbind, M_bind. destruct (m s) as [[a|f] s'] eqn:E; naive_solver. Qed.

Lemma outcome_bind_ok_inv (m : outcome A) (k : A → outcome B) b :
  m ≫= k = Ok b → ∃ a, m = Ok a ∧ k a = Ok b.
Proof. destruct m; [eauto | discriminate]. Qed.

Lemma lift_ok (o : outcome A) (a : A) (s : S) : o = Ok a → lift o s = (Ok a, s).
Proof. by intros ->. Qed.

Lemma attempt_ok (m : M S A) s a s' : m s = (Ok a, s') → attempt m s = (Ok (inl a), s').
Proof. unfold attempt. by intros ->. Qed.

Lemma attempt_err (m : M S A) s e s' : m s = (Err e, s') → attempt m s = (Ok (inr e), s').
Proof. unfold attempt. by intros ->. Qed.

Lemma zoom_eq {T} (getter : S → T) setter (m : M T A) s o t :
  m (getter s) = (o, t) → zoom getter setter m s = (o, setter t s).
Proof. unfold zoom. by intros ->. Qed.
End Effects.

(** Runs the sequencing of a computation, and none of its calls. *)
Ltac run_M := cbv beta iota zeta delta
  [mbind M_bind outcome_bind mret M_ret outcome_ret get gets modify lift fail throw ok_or unwrap
   assert zoom fst snd].
Tactic Notation "run_M" "in" hyp(H) := cbv beta iota zeta delta
  [mbind M_bind outcome_bind mret M_ret outcome_ret get gets modify lift fail throw ok_or unwrap
   assert zoom fst snd] in H.

(** Runs the first call of a sequence with the equation [H] for it. *)
Ltac step H :=
  first [ rewrite (bind_ok _ _ _ _ _ H) | rewrite (bind_fail _ _ _ _ _ H) ]; cbv beta iota zeta.

(** *** Relations every call of a computation keeps

    [evolves R m]: whatever [m] returns, the state it leaves is related by
    [R] to the state it started in. *)
Definition evolves {S A} (R : relation S) (m : M S A) : Prop := ∀ s, R s (m s).2.

Section Evolves.
Context {S : Type} (R : relation S) `{!PreOrder R}.

Lemma evolves_ret {A} (a : A) : evolves R (mret a : M S A).
Proof. intros s. reflexivity. Qed.

Lemma evolves_lift {A} (o : outcome A) : evolves R (lift o : M S A).
Proof. intros s. reflexivity. Qed.

Lemma evolves_fail {A} f : evolves R (fail f : M S A).
Proof. intros s. reflexivity. Qed.

Lemma evolves_get : evolves R (get : M S S).
Proof. intros s. reflexivity. Qed.

Lemma evolves_gets {A} (f : S → A) : evolves R (gets f).
Proof. intros s. reflexivity. Qed.

Lemma evolves_ok_or {A} (o : option A) e : evolves R (ok_or o e : M S A).
Proof. intros s. by destruct o. Qed.

Lemma evolves_unwrap {A} (o : option A) : evolves R (unwrap o : M S A).
Proof. intros s. by destruct o. Qed.

Lemma evolves_assert b : evolves R (assert b : M S unit).
Proof. intros s. by destruct b. Qed.

Lemma evolves_modify (f : S → S) : (∀ s, R s (f s)) → evolves R (modify f).
Proof. intros H s. apply H. Qed.

Lemma evolves_bind {A B} (m : M S A) (k : A → M S B) :
  evolves R m → (∀ a, evolves R (k a)) → evolves R (m ≫= k).
Proof.
  intros Hm Hk s. specialize (Hm s). unfold mbind, M_bind.
  destruct (m s) as [[a|f] s']; [|done]. transitivity s'; [done|apply Hk].
Qed.

Lemma evolves_attempt {A} (m : M S A) : evolves R m → evolves R (attempt m).
Proof. intros Hm s. specialize (Hm s). unfold attempt. by destruct (m s) as [[a|[]] s']. Qed.

Lemma evolves_for_each {A} (xs : list A) (f : A → M S unit) :
  (∀ x, evolves R (f x)) → evolves R (for_each xs f).
Proof.
  intros Hf. induction xs as [|x xs IH]; simpl; [apply evolves_ret|].
  by apply evolves_bind.
Qed.
End Evolves.

Create HintDb evolves.
#[export] Hint Resolve evolves_ret evolves_lift evolves_fail evolves_get evolves_gets
  evolves_ok_or evolves_unwrap evolves_assert evolves_attempt evolves_for_each : evolves.

(** One structural step of an [evolves] goal. *)
Ltac evolves_step :=
  match goal with
  | |- evolves _ (_ ≫= _) => apply (evolves_bind _); [| intros ? ]
  | |- evolves _ (match ?x with _ => _ end) => destruct x
  | |- evolves _ (let '(_, _) := ?x in _) => destruct x
  | |- ∀ _, evolves _ _ => intros ?
  | |- evolves _ _ => solve [eauto with evolves typeclass_instances]
  end.
Ltac evolves_solve := repeat evolves_step.

(** ** Arithmetic lemmas *)

(** Linear arithmetic with the struct sizes and machine-integer ranges unfolded. *)
Ltac usize_unfold := unfold size_of_usize, size_of_LogicalSlice, size_of_ObjectHeader, size_of_Meta,
  size_of_SourceHeaderData, size_of_SourceHeader, is_usize, is_u32, usize_modulus, u32_modulus, in_range in *.
Ltac usize := usize_unfold; lia.

Section ArithmeticLemmas.
Context `{T : Target}.

Lemma wrapping_ok m r : 0 ≤ r < m → wrapping m r = Ok r.
Proof. intros H. unfold wrapping. by rewrite decide_True. Qed.

Lemma wrapping_out m r : ¬ 0 ≤ r < m →
  wrapping m r = if overflow_checks then Fail Panic else Ok (r mod m).
Proof. intros H. unfold wrapping. by rewrite decide_False. Qed.

Lemma usize_add_ok a b : is_usize (a + b) → a +! b = Ok (a + b).
Proof. apply wrapping_ok. Qed.
Lemma usize_sub_ok a b : is_usize (a - b) → a -! b = Ok (a - b).
Proof. apply wrapping_ok. Qed.
Lemma usize_mul_ok a b : is_usize (a * b) → a *! b = Ok (a * b).
Proof. apply wrapping_ok. Qed.
Lemma u32_add_ok a b : is_u32 (a + b) → u32_add a b = Ok (a + b).
Proof. apply wrapping_ok. Qed.
Lemma usize_div_ok a b : b ≠ 0 → a /! b = Ok (a / b).
Proof. intros. unfold usize_div. by rewrite decide_False. Qed.

Lemma wrapping_range m r x : 0 < m → wrapping m r = Ok x → 0 ≤ x < m.
Proof.
  unfold wrapping. intros Hm. case_decide; [by intros [= <-]|].
  destruct overflow_checks; [done|]. intros [= <-]. by apply Z.mod_pos_bound.
Qed.
End ArithmeticLemmas.

(** *** Alignment *)
Section Aligned.
Context `{T : Target}.
Implicit Types n a b : Z.

Lemma aligned_mul n k : aligned n (k * n).
Proof.
  intros _. destruct (decide (n = 0)) as [->|]; [by rewrite Z.mul_0_r|]. by apply Z.mod_mul.
Qed.

Lemma aligned_divide n a : (n | a) → aligned n a.
Proof. intros [k ->]. apply aligned_mul. Qed.

Lemma aligned_0 n : aligned n 0.
Proof. apply aligned_divide, Z.divide_0_r. Qed.

Lemma aligned_add n a b : 0 < n → aligned n a → aligned n b → aligned n (a + b).
Proof. intros Hn Ha Hb E. rewrite Z.add_mod, (Ha E), (Hb E) by lia. by apply Z.mod_0_l; lia. Qed.

Lemma aligned_opp n a : 0 < n → aligned n a → aligned n (- a).
Proof. intros Hn Ha E. apply Z.mod_opp_l_z; [lia|by apply Ha]. Qed.

Lemma aligned_sub n a b : 0 < n → aligned n a → aligned n b → aligned n (a - b).
Proof. intros Hn Ha Hb. unfold Z.sub. by apply aligned_add, aligned_opp. Qed.

Lemma aligned_1 a : aligned 1 a.
Proof. intros _. by rewrite Z.mod_1_r. Qed.

(** A multiple of a whole page is aligned, when a page holds the struct. *)
Lemma aligned_page ps a : (∃ k, 0 ≤ k < 63 ∧ ps = 2 ^ k) → 8 ≤ ps → (ps | a) → aligned 8 a.
Proof.
  intros (k & Hk & ->) H8 Ha. apply aligned_divide. transitivity (2 ^ k); [|done].
  destruct (decide (3 ≤ k)); [|].
  - exists (2 ^ (k - 3)). replace 8 with (2 ^ 3) by lia. rewrite <- Z.pow_add_r by lia. f_equal. lia.
  - assert (2 ^ k ≤ 2 ^ 2) by (apply Z.pow_le_mono_r; lia). lia.
Qed.

Lemma aligned_header : aligned 8 size_of_ObjectHeader.
Proof. exact (aligned_mul 8 4). Qed.

Lemma aligned_usize : aligned 8 size_of_usize.
Proof. exact (aligned_mul 8 1). Qed.
End Aligned.

Create HintDb alignment.
#[export] Hint Resolve aligned_0 aligned_1 aligned_mul aligned_header aligned_usize : alignment.
#[export] Hint Extern 2 (aligned _ (_ + _)) => apply aligned_add; [done| |] : alignment.
#[export] Hint Extern 2 (aligned _ (_ - _)) => apply aligned_sub; [done| |] : alignment.
(** A power of two that is a [usize] alignment. *)
Definition is_pow2 (z : Z) : Prop := ∃ k, 0 ≤ k < 63 ∧ z = 2 ^ k.

Lemma is_pow2_range z : is_pow2 z → 0 < z < 2 ^ 63.
Proof.
  intros (k & Hk & ->). split; [apply Z.pow_pos_nonneg; lia | apply Z.pow_lt_mono_r; lia].
Qed.

(** [v & !(2^k - 1)] clears the low bits. *)
Lemma land_not_mask v k : is_usize v → 0 ≤ k < 64 →
  Z.land v (usize_not (2 ^ k - 1)) = v - v mod 2 ^ k.
Proof.
  intros Hv Hk. unfold usize_not, usize_bits.
  rewrite (Z.sub_1_r (2 ^ k)), <- Z.ones_equiv, <- (Z.land_ones v k) by lia.
  rewrite Z.sub_nocarry_ldiff by
    (apply Z.bits_inj'; intros n Hn; rewrite Z.ldiff_spec, Z.land_spec, Z.bits_0;
     by destruct (Z.testbit v n), (Z.testbit (Z.ones k) n)).
  apply Z.bits_inj'. intros n Hn.
  rewrite Z.ldiff_spec, !Z.land_spec, Z.lxor_spec.
  destruct (decide (n < 64)) as [Hlt|Hge].
  - rewrite (Z.ones_spec_low 64) by lia.
    by destruct (Z.testbit v n), (Z.testbit (Z.ones k) n).
  - assert (Z.testbit v n = false) as ->; [|done].
    destruct (decide (v = 0)) as [->|Hne]; [apply Z.bits_0|].
    apply Z.bits_above_log2; [apply Hv|].
    apply Z.log2_lt_pow2; [destruct Hv; lia|].
    apply Z.lt_le_trans with (2 ^ 64); [apply Hv|]. apply Z.pow_le_mono_r; lia.
Qed.

(** *** Bit fields *)
Lemma land_shiftl w m n : 0 ≤ n → Z.land w (Z.shiftl m n) = Z.shiftl (Z.land (Z.shiftr w n) m) n.
Proof.
  intros Hn. apply Z.bits_inj'. intros i Hi.
  rewrite Z.land_spec, !Z.shiftl_spec, Z.land_spec by lia.
  destruct (decide (n ≤ i)).
  - rewrite Z.shiftr_spec by lia. by replace (i - n + n) with i by lia.
  - by rewrite !(Z.testbit_neg_r _ (i - n)), !andb_false_r by lia.
Qed.

Lemma lor_shiftl a m n : 0 ≤ n → 0 ≤ a < 2 ^ n → Z.lor a (Z.shiftl m n) = a + m * 2 ^ n.
Proof.
  intros Hn Ha. assert (Z.land a (Z.shiftl m n) = 0) as H0.
  { rewrite land_shiftl, Z.shiftr_div_pow2, Z.div_small by lia. by rewrite Z.shiftl_0_l. }
  rewrite <- Z.lxor_lor, <- Z.add_nocarry_lxor by done. by rewrite Z.shiftl_mul_pow2.
Qed.

(** ** Byte string lemmas *)
Lemma blen_nonneg l : 0 ≤ blen l.
Proof. unfold blen. lia. Qed.

Lemma blen_app l k : blen (l ++ k) = blen l + blen k.
Proof. unfold blen. rewrite length_app. lia. Qed.

Lemma blen_zeros n : 0 ≤ n → blen (zeros n) = n.
Proof. intros. unfold blen, zeros. rewrite length_replicate. lia. Qed.

Lemma slice_lookup off len l i :
  slice off len l !! i = if decide (i < Z.to_nat len)%nat then l !! (Z.to_nat off + i)%nat else None.
Proof. unfold slice. rewrite lookup_take, lookup_drop. done. Qed.

Lemma splice_lookup off src l i : in_range off (blen src) (blen l) →
  splice off src l !! i =
    if decide (Z.to_nat off ≤ i < Z.to_nat off + length src)%nat
    then src !! (i - Z.to_nat off)%nat else l !! i.
Proof.
  intros (Ho & _ & Hl). unfold splice, blen in *.
  destruct (decide (i < Z.to_nat off)%nat) as [Hlt|Hge].
  - rewrite lookup_app_l by (rewrite length_take; lia).
    rewrite lookup_take_lt by lia. by rewrite decide_False by lia.
  - rewrite lookup_app_r by (rewrite length_take; lia).
    rewrite length_take, Nat.min_l by lia.
    destruct (decide (i < Z.to_nat off + length src)%nat) as [Hlt|Hge'].
    + rewrite lookup_app_l by lia. by rewrite decide_True by lia.
    + rewrite lookup_app_r by lia. rewrite lookup_drop, decide_False by lia. f_equal. lia.
Qed.

Lemma blen_slice off len l : in_range off len (blen l) → blen (slice off len l) = len.
Proof. unfold in_range, blen, slice. intros. rewrite length_take, length_drop. lia. Qed.

(** A slice that came out complete was in range. *)
Lemma blen_slice_inv off len l : 0 ≤ off → 0 < len → blen (slice off len l) = len →
  in_range off len (blen l).
Proof. unfold in_range, blen, slice. rewrite length_take, length_drop. lia. Qed.

Lemma blen_splice off src l : in_range off (blen src) (blen l) → blen (splice off src l) = blen l.
Proof.
  unfold in_range, blen, splice. intros.
  rewrite !length_app, length_take, length_drop. lia.
Qed.

Lemma slice_full l : slice 0 (blen l) l = l.
Proof. unfold slice, blen. rewrite Nat2Z.id. apply firstn_all. Qed.

Lemma slice_slice o n off len l : 0 ≤ off → in_range o n len →
  slice o n (slice off len l) = slice (off + o) n l.
Proof.
  unfold in_range. intros. apply list_eq. intros i. rewrite !slice_lookup.
  case_decide; [|done]. rewrite decide_True by lia. f_equal. lia.
Qed.

Lemma slice_app_l off n l k : in_range off n (blen l) → slice off n (l ++ k) = slice off n l.
Proof.
  unfold in_range, blen. intros. apply list_eq. intros i. rewrite !slice_lookup.
  case_decide; [|done]. by rewrite lookup_app_l by lia.
Qed.

Lemma slice_splice_same off src l : in_range off (blen src) (blen l) →
  slice off (blen src) (splice off src l) = src.
Proof.
  intros H. apply list_eq. intros i. rewrite slice_lookup. unfold blen at 1. case_decide.
  - rewrite splice_lookup, decide_True by (done || lia). f_equal. lia.
  - symmetry. apply lookup_ge_None. lia.
Qed.

Lemma slice_splice_apart o n off src l :
  in_range off (blen src) (blen l) → 0 ≤ o → apart (o, n) (off, blen src) →
  slice o n (splice off src l) = slice o n l.
Proof.
  intros H Ho Ha. unfold apart in Ha; simpl in Ha. pose proof (proj1 H).
  unfold blen in *. apply list_eq. intros i. rewrite !slice_lookup.
  case_decide; [|done]. rewrite splice_lookup, decide_False by (done || lia). done.
Qed.

Lemma slice_splice_inside o n off src l :
  in_range off (blen src) (blen l) → in_range o n (blen src) →
  slice (off + o) n (splice off src l) = slice o n src.
Proof.
  intros H Hi. rewrite <- (slice_splice_same off src l) at 2 by done.
  rewrite slice_slice by (done || apply H). done.
Qed.

Lemma slice_splice_around off n o src l : in_range off n (blen l) → in_range o (blen src) n →
  slice off n (splice (off + o) src l) = splice o src (slice off n l).
Proof.
  intros Hr Hi. assert (in_range (off + o) (blen src) (blen l)) as Hr' by (unfold in_range in *; lia).
  apply list_eq. intros i. rewrite slice_lookup, (splice_lookup (off + o)) by done.
  rewrite splice_lookup, slice_lookup by (by rewrite blen_slice). unfold in_range, blen in *.
  destruct (decide (i < Z.to_nat n)%nat).
  - destruct (decide (Z.to_nat o ≤ i < Z.to_nat o + length src)%nat).
    + rewrite decide_True by lia. f_equal. lia.
    + by rewrite decide_False by lia.
  - by rewrite decide_False by lia.
Qed.

Lemma slice_splice_0 o n src l : blen src ≤ blen l → in_range o n (blen src) →
  slice o n (splice 0 src l) = slice o n src.
Proof.
  intros. rewrite <- (Z.add_0_l o) at 1. apply slice_splice_inside; [|done].
  pose proof (blen_nonneg src). unfold in_range. lia.
Qed.

Lemma slice_splice_len n off src l : blen src = n → in_range off n (blen l) →
  slice off n (splice off src l) = src.
Proof. intros <-. apply slice_splice_same. Qed.

Lemma splice_slice off len l : in_range off len (blen l) → splice off (slice off len l) l = l.
Proof.
  intros H. pose proof (blen_slice _ _ _ H) as Hb. apply list_eq. intros i.
  rewrite splice_lookup by (by rewrite Hb). case_decide; [|done].
  rewrite slice_lookup. unfold blen in Hb, H. destruct H as (? & ? & ?).
  rewrite decide_True by lia. f_equal. lia.
Qed.

Lemma splice_splice off a b l : in_range off (blen a) (blen l) → blen a = blen b →
  splice off b (splice off a l) = splice off b l.
Proof.
  intros H Hab. apply list_eq. intros i.
  assert (in_range off (blen b) (blen (splice off a l))) by (by rewrite blen_splice, <- Hab).
  rewrite !splice_lookup by (done || by rewrite <- Hab).
  case_decide as Hi; [done|]. rewrite decide_False; [done|]. unfold blen in Hab. lia.
Qed.

(** *** Integers in memory *)
Lemma blen_u64 v : blen (u64_bytes v) = 8.
Proof. unfold blen, u64_bytes. by rewrite length_le_split. Qed.

Lemma blen_u32 v : blen (u32_bytes v) = 4.
Proof. unfold blen, u32_bytes. by rewrite length_le_split. Qed.

Lemma u64_roundtrip v : is_usize v → le_combine (u64_bytes v) = v.
Proof. intros. unfold u64_bytes. rewrite le_combine_split. by apply Z.mod_small. Qed.

Lemma u32_roundtrip v : is_u32 v → le_combine (u32_bytes v) = v.
Proof. intros. unfold u32_bytes. rewrite le_combine_split. by apply Z.mod_small. Qed.

Lemma u64_bytes_combine l : blen l = 8 → u64_bytes (le_combine l) = l.
Proof. unfold blen, u64_bytes. intros. apply split_le_combine'. lia. Qed.

Lemma le_combine_usize l : blen l = 8 → is_usize (le_combine l).
Proof. unfold blen. intros H. pose proof (le_combine_bound l). rewrite H in *. done. Qed.

Lemma le_combine_u32 l : blen l = 4 → is_u32 (le_combine l).
Proof. unfold blen. intros H. pose proof (le_combine_bound l). rewrite H in *. done. Qed.


(** Lengths of byte strings, then linear arithmetic on the layout. *)
Ltac blens :=
  repeat first
    [ rewrite blen_app | rewrite blen_u64 | rewrite blen_u32
    | rewrite blen_zeros by usize | rewrite blen_slice by blens | rewrite blen_splice by blens ];
  unfold apart; cbn [fst snd]; usize.

(** The arithmetic content of a [packed] layout. *)
Ltac packed_facts H :=
  cbn [packed] in H; unfold within in H;
  repeat rewrite Forall_cons in H; unfold apart in H; cbn [fst snd] in H.

(** A struct image of [n] bytes: fields put into its padding. *)
Lemma blen_splice_to n k off src l : blen l = n → blen src = k → 0 ≤ off → off + k ≤ n → blen (splice off src l) = n.
Proof. intros <- <- Ho Hle. apply blen_splice. pose proof (blen_nonneg src). by split_and!. Qed.

Lemma slice_kept n o k off k' src l : blen l = n → blen src = k' → 0 ≤ off → off + k' ≤ n → 0 ≤ o → apart (o, k) (off, k') →
  slice o k (splice off src l) = slice o k l.
Proof. intros <- <- Ho Hle Ho' Ha. apply slice_splice_apart; [|done|done]. pose proof (blen_nonneg src). by split_and!. Qed.

Lemma slice_put n o k src l : blen l = n → blen src = k → 0 ≤ o → o + k ≤ n → slice o k (splice o src l) = src.
Proof. intros <- Hk Ho Hle. apply slice_splice_len; [done|]. pose proof (blen_nonneg src). split_and!; lia. Qed.

Lemma apart_sym f g : apart f g → apart g f.
Proof. unfold apart. intros [?|?]; [by right|by left]. Qed.

Lemma blen_padding `{T : Target} `{TOk : !TargetOk T} n : 0 ≤ n → blen (padding (Z.to_nat n)) = n.
Proof. intros. unfold blen. rewrite padding_length. lia. Qed.

(** The fields of a [packed] layout, each pair [apart]; and the facts about an
    image with such fields. *)
Ltac packed_fields H :=
  cbn [packed] in H; unfold within in H; repeat rewrite Forall_cons in H; cbn [fst snd] in H; destruct_and? H.
Ltac image :=
  first [ apply blen_u64 | apply blen_u32 | assumption | apply apart_sym; assumption
        | eapply blen_splice_to; [image|image|lia|lia] | rewrite blen_padding; (reflexivity || lia) | lia].

(** A field of a struct image: the bytes last written at its offset. *)
Lemma field_written off src l : in_range off (blen src) (blen l) →
  int_at off (blen src) (splice off src l) = le_combine src.
Proof. intros. unfold int_at. by rewrite slice_splice_same. Qed.

Lemma field_kept o n off src l :
  in_range off (blen src) (blen l) → 0 ≤ o → apart (o, n) (off, blen src) →
  int_at o n (splice off src l) = int_at o n l.
Proof. intros. unfold int_at. by rewrite slice_splice_apart. Qed.

Lemma u64_written off v l : in_range off 8 (blen l) → is_usize v →
  int_at off 8 (splice off (u64_bytes v) l) = v.
Proof.
  intros. rewrite <- (blen_u64 v) at 1. rewrite field_written by blens. by apply u64_roundtrip.
Qed.

Lemma u32_written off v l : in_range off 4 (blen l) → is_u32 v →
  int_at off 4 (splice off (u32_bytes v) l) = v.
Proof.
  intros. rewrite <- (blen_u32 v) at 1. rewrite field_written by blens. by apply u32_roundtrip.
Qed.

Lemma int_at_slice o n off len l : 0 ≤ off → in_range o n len →
  int_at o n (slice off len l) = int_at (off + o) n l.
Proof. intros. unfold int_at. by rewrite slice_slice. Qed.
