(* ===== verification/Utils.v ===== *)
(** * Helpers (src/src/utils.rs)

    Alignment ([utils::math]), the casts between values and bytes
    ([unsafe_utils]), [OptionExt] and the checksums. *)
From S2P Require Import Prelude.

(** ** [utils::math] *)
Section Math.
Context `{T : Target}.

Definition align_up (value alignment : Z) : outcome Z :=
  sum ← value +! alignment;
  sum ← sum -! 1;
  mask ← alignment -! 1;
  mret (Z.land sum (usize_not mask)).

Definition align_down (value alignment : Z) : outcome Z :=
  mask ← alignment -! 1;
  mret (Z.land value (usize_not mask)).
End Math.

(** ** [utils::OptionExt]

    The option after the call and the value the returned reference points at. *)
Definition get_or_insert_with_result {S A} (self : option A) (f : M S A) : M S (option A * A) :=
  match self with
  | None => v ← f; mret (Some v, v)
  | Some v => mret (Some v, v)
  end.

(** ** Checksums

    [crc32fast] is a dependency: its function is a parameter, of which only
    the result type ([u32]) is known. *)
Class Crc : Type := {
  crc32 : list byte → Z;
  crc32_u32 : ∀ buf, is_u32 (crc32 buf)
}.

Definition crc_slice `{Crc} (buf : list byte) : Z := crc32 buf.

(** [any_as_slice] of a struct is its byte image; one is given with each
    struct.  [crc] hashes that image. *)
Definition crc `{Crc} {A} (any_as_slice : A → list byte) (anyref : A) : Z :=
  crc32 (any_as_slice anyref).

(** [any_from_slice::<T>] checks nothing: a [&T] to fewer bytes than a [T] has,
    or to a place a [T] cannot be at, is outside the language's defined
    behaviour.  [address] is where [data] is, [align] what a [T] needs. *)
Definition any_from_slice `{T : Target} {A} (size align : Z) (decode : list byte → A) (address : Z) (data : list byte) : outcome A :=
  if decide (size ≤ blen data ∧ aligned align address) then Ok (decode data) else Fail Undef.

Lemma any_from_vec_ok `{T : Target} `{TOk : !TargetOk T} {A} size (decode : list byte → A) data : size ≤ blen data →
  any_from_slice size 8 decode vec_address data = Ok (decode data).
Proof. intros. unfold any_from_slice. rewrite decide_True; [done|]. split; [done|apply vec_aligned]. Qed.

(** ** Alignment *)
Section AlignmentLemmas.
Context `{T : Target}.

Lemma align_down_eq v a : is_usize v → is_pow2 a → align_down v a = Ok (v - v mod a).
Proof.
  intros Hv Ha. pose proof (is_pow2_range _ Ha). destruct Ha as (k & Hk & ->).
  unfold align_down. rewrite usize_sub_ok by usize.
  simpl. by rewrite land_not_mask by usize.
Qed.

Lemma align_up_eq v a : is_usize v → is_pow2 a → v + a < usize_modulus →
  align_up v a = Ok (v + a - 1 - (v + a - 1) mod a).
Proof.
  intros Hv Ha Hlt. pose proof (is_pow2_range _ Ha). destruct Ha as (k & Hk & ->).
  unfold align_up, is_usize, usize_modulus in *. rewrite usize_add_ok by usize.
  simpl. rewrite usize_sub_ok by usize. simpl.
  rewrite usize_sub_ok by usize. simpl.
  rewrite land_not_mask; [done | usize | lia].
Qed.

(** A length that fits a page takes exactly one. *)
Lemma align_up_page len a : is_pow2 a → 0 < len ≤ a → align_up len a = Ok a.
Proof.
  intros Ha Hl. pose proof (is_pow2_range _ Ha).
  rewrite align_up_eq by (done || usize). f_equal.
  replace (len + a - 1) with (len - 1 + 1 * a) by lia.
  rewrite Z_mod_plus_full, Z.mod_small by lia. lia.
Qed.

(** An aligned length keeps it. *)
Lemma align_up_zero a : is_pow2 a → align_up 0 a = Ok 0.
Proof.
  intros Ha. pose proof (is_pow2_range _ Ha).
  rewrite align_up_eq by (done || usize). f_equal.
  rewrite Z.mod_small by lia. lia.
Qed.

Lemma align_up_more len a : is_pow2 a → a < len → len + a < usize_modulus →
  ∃ r, align_up len a = Ok r ∧ a < r.
Proof.
  intros Ha Hl Hu. pose proof (is_pow2_range _ Ha).
  rewrite align_up_eq by (done || usize).
  eexists; split; [done|]. pose proof (Z.mod_pos_bound (len + a - 1) a). lia.
Qed.

(** C36: [align_up] returns the least multiple of the alignment that is not
    below the value, whenever the sum of the two is a [usize]. *)
Theorem align_up_least v a : is_usize v → is_pow2 a → v + a < usize_modulus →
  ∃ r, align_up v a = Ok r ∧ (a | r) ∧ v ≤ r ∧ ∀ m, (a | m) → v ≤ m → r ≤ m.
Proof.
  intros Hv Ha Hlt. pose proof (is_pow2_range _ Ha).
  exists (v + a - 1 - (v + a - 1) mod a). rewrite align_up_eq by done.
  pose proof (Z.mod_pos_bound (v + a - 1) a). pose proof (Z.div_mod (v + a - 1) a).
  assert (v + a - 1 - (v + a - 1) mod a = a * ((v + a - 1) / a)) as -> by lia.
  split_and!; [done | by exists ((v + a - 1) / a); lia | lia |].
  intros m [q ->] Hm. rewrite (Z.mul_comm q a). apply Z.mul_le_mono_nonneg_l; [lia|].
  apply Z.lt_succ_r, Z.div_lt_upper_bound; nia.
Qed.

(** Outside that range a debug build panics and a release build wraps:
    to the value itself when it is the last multiple, else to 0. *)
Lemma align_up_overflow v a : is_usize v → is_pow2 a → usize_modulus ≤ v + a →
  align_up v a =
    if overflow_checks then Fail Panic
    else Ok (if decide (v + a = usize_modulus) then v else 0).
Proof.
  intros Hv Ha Hge. pose proof (is_pow2_range _ Ha). destruct Ha as (k & Hk & ->).
  unfold align_up, usize_add. rewrite wrapping_out by usize.
  destruct overflow_checks eqn:E; [done|]. simpl.
  assert ((v + 2 ^ k) mod usize_modulus = v + 2 ^ k - usize_modulus) as ->.
  { unfold is_usize in Hv. symmetry. apply (Z.mod_unique _ _ 1); usize. }
  rewrite (usize_sub_ok (2 ^ k) 1) by usize. unfold usize_sub. case_decide as Heq.
  - rewrite wrapping_out by usize. rewrite E. simpl.
    rewrite Heq. rewrite land_not_mask; [| by vm_compute | lia].
    f_equal. replace ((usize_modulus - usize_modulus - 1) mod usize_modulus) with (v + 2 ^ k - 1)
      by (rewrite Heq; by vm_compute).
    assert ((2 ^ k | v)) as [q ->].
    { replace v with (usize_modulus - 2 ^ k) by lia. apply Z.divide_sub_r; [|done].
      exists (2 ^ (64 - k)). unfold usize_modulus. rewrite <- Z.pow_add_r by lia. f_equal. lia. }
    replace (q * 2 ^ k + 2 ^ k - 1) with (2 ^ k - 1 + q * 2 ^ k) by lia.
    rewrite Z_mod_plus_full, Z.mod_small by lia. lia.
  - unfold is_usize in Hv.
    rewrite wrapping_ok by usize. simpl.
    rewrite land_not_mask; [| usize | lia].
    rewrite Z.mod_small by lia. f_equal. lia.
Qed.
End AlignmentLemmas.
