(* ===== verification/Source.v ===== *)
(** * Storage sources (src/src/source/mod.rs, memory_source.rs, file_source.rs)

    The trait [Source] as a class, its two implementations, and the sum of
    the two that stands for [Box<dyn Source>]. *)
From S2P Require Import Prelude Utils.

(** ** [Page] *)
Record Page : Type := Page_new { page_offset : Z; page_len : Z }.

#[export] Instance Page_eq_dec : EqDecision Page.
Proof. solve_decision. Defined.

(** [Page::split]: the page after the call and the part cut off its front. *)
Definition Page_split `{T : Target} (self : Page) (len : Z) : outcome (Page * option Page) :=
  if decide (page_len self < len) then Ok (self, None) else
  let next := Page_new (page_offset self) len in
  offset ← page_offset self +! len;
  rest ← page_len self -! len;
  mret (Page_new offset rest, Some next).

(** ** The trait

    A [&[u8]] into a source's memory is the range [(offset, len)] it covers;
    [source_bytes] is the storage the ranges refer to and [source_store]
    writes through a [&mut [u8]].  [read] returns the bytes it filled the
    caller's buffer of the given length with. *)
Class Source (S : Type) : Type := {
  source_is_byte_addressable : S → bool;
  source_is_persistent : S → bool;
  source_perf_level : S → Z;
  source_close : M S unit;
  source_length : M S Z;
  source_read : Z → Z → M S (list byte);
  source_write : Z → list byte → M S unit;
  source_flush : M S unit;
  source_at : Z → Z → M S (Z * Z);
  source_at_mut : Z → Z → M S (Z * Z);
  source_offset : Z → M S Z;
  source_flush_slice : Z * Z → M S unit;
  source_bytes : S → list byte;
  source_store : Z → list byte → S → S
}.

(** ** Memory maps *)
Record MemoryMap : Type := MemoryMap_from_existing {
  mm_base : Z;             (** [data.as_ptr()] as an address *)
  mm_data : list byte
}.

Definition MemoryMap_len (self : MemoryMap) : Z := blen (mm_data self).

(** [libc::mmap] is the operating system's: from a length to the address of a
    mapping, or an error code.  The memory of an anonymous mapping is zero. *)
Definition MemoryMap_new (mmap : Z → Z + Z) (len : Z) : outcome MemoryMap :=
  match mmap len with
  | inl ptr => Ok (MemoryMap_from_existing ptr (zeros len))
  | inr errno => Err (MemoryAlloc errno)
  end.

Section MemoryMap.
Context `{T : Target}.

Definition MemoryMap_at (self : MemoryMap) (offset len : Z) : outcome (option (Z * Z)) :=
  total ← offset +! len;
  if decide (MemoryMap_len self < total) then Ok None else
  finish ← offset +! len;
  range ← index_range offset finish (MemoryMap_len self);
  mret (Some range).

(** [at_mut] has the body of [at] with a mutable borrow. *)
Definition MemoryMap_at_mut (self : MemoryMap) (offset len : Z) : outcome (option (Z * Z)) :=
  total ← offset +! len;
  if decide (MemoryMap_len self < total) then Ok None else
  finish ← offset +! len;
  range ← index_range offset finish (MemoryMap_len self);
  mret (Some range).

(** [isize] subtraction of two addresses. *)
Definition MemoryMap_offset (self : MemoryMap) (ptr : Z) : outcome Z :=
  let to_isize a := (a + 2 ^ 63) mod 2 ^ 64 - 2 ^ 63 in
  let d := to_isize ptr - to_isize (mm_base self) in
  if decide (- 2 ^ 63 ≤ d < 2 ^ 63) then Ok d
  else if overflow_checks then Fail Panic else Ok (to_isize d).
End MemoryMap.

(** ** [MemorySource] *)
Record MemorySource : Type := mk_MemorySource { ms_map : MemoryMap; ms_persistent : bool }.

Definition MemorySource_new (mmap : Z → Z + Z) (len : Z) : outcome MemorySource :=
  map ← MemoryMap_new mmap len;
  mret (mk_MemorySource map false).

Definition MemorySource_store (off : Z) (src : list byte) (self : MemorySource) : MemorySource :=
  let map := ms_map self in
  mk_MemorySource (MemoryMap_from_existing (mm_base map) (splice off src (mm_data map)))
    (ms_persistent self).

Section MemorySourceOps.
Context `{T : Target}.

Definition MemorySource_length : M MemorySource Z :=
  gets (λ self, MemoryMap_len (ms_map self)).

Definition MemorySource_read (offset len : Z) : M MemorySource (list byte) :=
  self ← get;
  src ← lift (MemoryMap_at (ms_map self) offset len);
  '(o, n) ← ok_or src InvalidMemory;
  mret (slice o n (mm_data (ms_map self))).

Definition MemorySource_write (offset : Z) (src : list byte) : M MemorySource unit :=
  self ← get;
  dst ← lift (MemoryMap_at_mut (ms_map self) offset (blen src));
  '(o, _) ← ok_or dst InvalidMemory;
  modify (MemorySource_store o src).

Definition MemorySource_at (offset len : Z) : M MemorySource (Z * Z) :=
  self ← get;
  range ← lift (MemoryMap_at (ms_map self) offset len);
  ok_or range InvalidMemory.

Definition MemorySource_at_mut (offset len : Z) : M MemorySource (Z * Z) :=
  self ← get;
  range ← lift (MemoryMap_at_mut (ms_map self) offset len);
  ok_or range InvalidMemory.

Definition MemorySource_offset (ptr : Z) : M MemorySource Z :=
  self ← get;
  off ← lift (MemoryMap_offset (ms_map self) ptr);
  if decide (0 < off) then mret off else throw InvalidMemory.

#[export] Instance MemorySource_Source : Source MemorySource := {
  source_is_byte_addressable _ := true;
  source_is_persistent self := ms_persistent self;
  source_perf_level _ := 100;
  source_close := mret tt;
  source_length := MemorySource_length;
  source_read := MemorySource_read;
  source_write := MemorySource_write;
  source_flush := mret tt;
  source_at := MemorySource_at;
  source_at_mut := MemorySource_at_mut;
  source_offset := MemorySource_offset;
  source_flush_slice _ := mret tt;
  source_bytes self := mm_data (ms_map self);
  source_store := MemorySource_store
}.
End MemorySourceOps.

(** ** Files

    [std::fs::File]: its bytes, its cursor, and what the operating system
    answers to the calls to come ([io_ok] when the list is used up): a call
    may succeed, fail with a code, or transfer fewer bytes than asked. *)
Inductive io_event : Type := io_ok | io_err (code : Z) | io_short (n : Z).

Record File : Type := mk_File {
  file_content : list byte;
  file_cursor : Z;
  file_events : list io_event
}.

(** The answer to the next call. *)
Definition file_event : M File io_event := λ f,
  (Ok (hd io_ok (file_events f)),
   mk_File (file_content f) (file_cursor f) (tl (file_events f))).

Definition file_error {A} (code : Z) : M File A := throw (FileIO code).

(** [File::seek(SeekFrom::Start(offset))]: [lseek] refuses an offset that is
    not a non-negative [i64] (EINVAL). *)
Definition file_seek (offset : Z) : M File unit :=
  e ← file_event;
  match e with
  | io_err code => file_error code
  | _ =>
      if decide (0 ≤ offset < 2 ^ 63)
      then modify (λ f, mk_File (file_content f) offset (file_events f))
      else file_error 22
  end.

(** How many of [wanted] bytes a call transfers. *)
Definition io_count (e : io_event) (wanted : Z) : Z :=
  match e with io_short n => Z.max 0 (Z.min n wanted) | _ => wanted end.

(** [File::read]: the bytes read, up to the end of the file. *)
Definition file_read (len : Z) : M File (list byte) :=
  e ← file_event;
  match e with
  | io_err code => file_error code
  | _ =>
      f ← get;
      let data := slice (file_cursor f) (io_count e len) (file_content f) in
      modify (λ f, mk_File (file_content f) (file_cursor f + blen data) (file_events f)) ;;
      mret data
  end.

(** Writing past the end fills the gap with zeros and grows the file. *)
Definition overwrite (off : Z) (src l : list byte) : list byte :=
  splice off src (l ++ zeros (off - blen l)).

(** [File::write]: how many bytes it wrote. *)
Definition file_write (src : list byte) : M File Z :=
  e ← file_event;
  match e with
  | io_err code => file_error code
  | _ =>
      let n := io_count e (blen src) in
      modify (λ f, mk_File
        (if decide (n = 0) then file_content f
         else overwrite (file_cursor f) (slice 0 n src) (file_content f))
        (file_cursor f + n) (file_events f)) ;;
      mret n
  end.

Definition file_flush : M File unit :=
  e ← file_event;
  match e with io_err code => file_error code | _ => mret tt end.

Definition file_metadata_len : M File Z :=
  e ← file_event;
  match e with io_err code => file_error code | _ => gets (λ f, blen (file_content f)) end.

Definition file_set_len (len : Z) : M File unit :=
  e ← file_event;
  match e with
  | io_err code => file_error code
  | _ => modify (λ f, mk_File (slice 0 len (file_content f ++ zeros (len - blen (file_content f))))
                        (file_cursor f) (file_events f))
  end.

(** ** [FileSource] *)
Record FileSource : Type := mk_FileSource { fs_file : File }.

Definition on_file {A} (m : M File A) : M FileSource A :=
  zoom fs_file (λ f _, mk_FileSource f) m.

(** [open] is the result of [OpenOptions::open(path)]. *)
Definition FileSource_new (open : File + Z) (len : Z) : outcome FileSource :=
  match open with
  | inr _ => Err SourceError
  | inl file => let '(o, file) := file_set_len len file in o ;; Ok (mk_FileSource file)
  end.

Definition FileSource_read (offset len : Z) : M FileSource (list byte) :=
  on_file (file_seek offset) ;;
  data ← on_file (file_read len);
  if decide (blen data = len) then mret data else throw PartialIO.

Definition FileSource_write (offset : Z) (data : list byte) : M FileSource unit :=
  on_file (file_seek offset) ;;
  n ← on_file (file_write data);
  if decide (n = blen data) then mret tt else throw PartialIO.

Definition FileSource_flush : M FileSource unit := on_file file_flush.
Definition FileSource_length : M FileSource Z := on_file file_metadata_len.

#[export] Instance FileSource_Source : Source FileSource := {
  source_is_byte_addressable _ := false;
  source_is_persistent _ := true;
  source_perf_level _ := 0;
  source_close := mret tt;
  source_length := FileSource_length;
  source_read := FileSource_read;
  source_write := FileSource_write;
  source_flush := FileSource_flush;
  source_at _ _ := throw NotByteAddressable;
  source_at_mut _ _ := throw NotByteAddressable;
  source_offset _ := throw NotByteAddressable;
  source_flush_slice _ := throw NotByteAddressable;
  source_bytes self := file_content (fs_file self);
  source_store _ _ self := self
}.

(** ** [Box<dyn Source>] *)
Inductive DynSource : Type := Memory (m : MemorySource) | OnFile (f : FileSource).

(** Dynamic dispatch of a method to the implementation in the box. *)
Definition dispatch {A} (on_m : M MemorySource A) (on_f : M FileSource A) : M DynSource A :=
  λ s, match s with
  | Memory m => let '(o, m) := on_m m in (o, Memory m)
  | OnFile f => let '(o, f) := on_f f in (o, OnFile f)
  end.

Definition dyn {A} (on_m : MemorySource → A) (on_f : FileSource → A) (s : DynSource) : A :=
  match s with Memory m => on_m m | OnFile f => on_f f end.

#[export] Instance DynSource_Source `{T : Target} : Source DynSource := {
  source_is_byte_addressable := dyn source_is_byte_addressable source_is_byte_addressable;
  source_is_persistent := dyn source_is_persistent source_is_persistent;
  source_perf_level := dyn source_perf_level source_perf_level;
  source_close := dispatch source_close source_close;
  source_length := dispatch source_length source_length;
  source_read offset len := dispatch (source_read offset len) (source_read offset len);
  source_write offset data := dispatch (source_write offset data) (source_write offset data);
  source_flush := dispatch source_flush source_flush;
  source_at offset len := dispatch (source_at offset len) (source_at offset len);
  source_at_mut offset len := dispatch (source_at_mut offset len) (source_at_mut offset len);
  source_offset ptr := dispatch (source_offset ptr) (source_offset ptr);
  source_flush_slice range := dispatch (source_flush_slice range) (source_flush_slice range);
  source_bytes := dyn source_bytes source_bytes;
  source_store off src s :=
    match s with
    | Memory m => Memory (source_store off src m)
    | OnFile f => OnFile (source_store off src f)
    end
}.

(** ** What a source promises

    The contract the rest of the development relies on, proved below of the
    two implementations and of the box. *)
Definition source_flags {S} `{Source S} (s : S) : bool * bool :=
  (source_is_byte_addressable s, source_is_persistent s).

(** Same kind of source, same bytes: what a call that only looks leaves. *)
Definition source_same {S} `{Source S} (s s' : S) : Prop :=
  source_flags s' = source_flags s ∧ source_bytes s' = source_bytes s.

Class SourceLaws (S : Type) `{Src : Source S} : Prop := {
  source_store_flags off data (s : S) :
    source_flags (source_store off data s) = source_flags s;
  source_store_bytes off data (s : S) :
    source_is_byte_addressable s = true →
    in_range off (blen data) (blen (source_bytes s)) →
    source_bytes (source_store off data s) = splice off data (source_bytes s);
  (** References: handed out for any range of the memory, without effect. *)
  source_at_ok off len (s : S) :
    source_is_byte_addressable s = true →
    in_range off len (blen (source_bytes s)) → is_usize (blen (source_bytes s)) →
    source_at off len s = (Ok (off, len), s);
  source_at_mut_ok off len (s : S) :
    source_is_byte_addressable s = true →
    in_range off len (blen (source_bytes s)) → is_usize (blen (source_bytes s)) →
    source_at_mut off len s = (Ok (off, len), s);
  source_at_same off len (s : S) : (source_at off len s).2 = s;
  source_at_mut_same off len (s : S) : (source_at_mut off len s).2 = s;
  (** Reading has no effect on the bytes, and returns those asked for. *)
  source_read_same off len (s : S) : source_same s (source_read off len s).2;
  source_read_ok off len (s s' : S) data :
    is_usize off → is_usize len → source_read off len s = (Ok data, s') →
    data = slice off len (source_bytes s) ∧ blen data = len;
  (** A write that fails has written a prefix of the data. *)
  source_write_flags off data (s : S) :
    source_flags (source_write off data s).2 = source_flags s;
  source_write_prefix off data (s : S) :
    in_range off (blen data) (blen (source_bytes s)) → is_usize (blen (source_bytes s)) →
    ∃ n, 0 ≤ n ≤ blen data ∧
      source_bytes (source_write off data s).2 = splice off (slice 0 n data) (source_bytes s);
  source_write_ok off data (s s' : S) :
    in_range off (blen data) (blen (source_bytes s)) → is_usize (blen (source_bytes s)) →
    source_write off data s = (Ok tt, s') →
    source_bytes s' = splice off data (source_bytes s);
  source_flush_same (s : S) : source_same s (source_flush s).2;
  source_flush_slice_same range (s : S) : source_same s (source_flush_slice range s).2;
  source_length_same (s : S) : source_same s (source_length s).2;
  source_length_ok (s s' : S) n : source_length s = (Ok n, s') → n = blen (source_bytes s);
  (** Memory does not fail. *)
  source_read_memory off len (s : S) :
    source_is_byte_addressable s = true →
    in_range off len (blen (source_bytes s)) → is_usize (blen (source_bytes s)) →
    source_read off len s = (Ok (slice off len (source_bytes s)), s);
  source_write_memory off data (s : S) :
    source_is_byte_addressable s = true →
    in_range off (blen data) (blen (source_bytes s)) → is_usize (blen (source_bytes s)) →
    source_write off data s = (Ok tt, source_store off data s);
  source_flush_memory (s : S) :
    source_is_byte_addressable s = true → source_flush s = (Ok tt, s);
  source_length_memory (s : S) :
    source_is_byte_addressable s = true → source_length s = (Ok (blen (source_bytes s)), s)
}.

Lemma source_same_refl {S} `{Source S} (s : S) : source_same s s.
Proof. done. Qed.

Lemma overwrite_in_range off src l : in_range off (blen src) (blen l) → overwrite off src l = splice off src l.
Proof.
  intros Hr. unfold overwrite, zeros. unfold in_range, blen in *.
  replace (Z.to_nat (off - Z.of_nat (length l))) with 0%nat by lia. simpl.
  by rewrite app_nil_r.
Qed.

(** *** Memory sources *)
Section MemorySourceLaws.
Context `{T : Target}.

Lemma index_range_ok start finish total : start ≤ finish ≤ total →
  index_range start finish total = Ok (start, finish - start).
Proof. intros. unfold index_range. by rewrite decide_True. Qed.

Lemma MemoryMap_at_in_range m off len :
  in_range off len (MemoryMap_len m) → is_usize (MemoryMap_len m) →
  MemoryMap_at m off len = Ok (Some (off, len)).
Proof.
  intros Hr Hu. unfold MemoryMap_at. rewrite usize_add_ok by usize. simpl.
  rewrite decide_False by usize. rewrite index_range_ok by usize. simpl.
  do 3 f_equal. lia.
Qed.

(** The reference returned has the bounds asked for, inside the map. *)
Lemma MemoryMap_at_Some m off len o n : is_usize off → is_usize len →
  MemoryMap_at m off len = Ok (Some (o, n)) → o = off ∧ n = len ∧ in_range off len (MemoryMap_len m).
Proof.
  intros Ho Hl. unfold MemoryMap_at, usize_add.
  destruct (decide (off + len < usize_modulus)).
  - rewrite wrapping_ok by usize. simpl. case_decide; [done|].
    unfold index_range. case_decide; [|done]. intros [= <- <-]. usize.
  - rewrite wrapping_out by usize. destruct overflow_checks; [done|]. simpl.
    assert ((off + len) mod usize_modulus = off + len - usize_modulus) as ->.
    { symmetry. apply (Z.mod_unique _ _ 1); usize. }
    case_decide; [done|]. unfold index_range. case_decide; [|done]. usize.
Qed.

Lemma MemoryMap_at_mut_eq m off len : MemoryMap_at_mut m off len = MemoryMap_at m off len.
Proof. done. Qed.

#[local] Arguments MemoryMap_at : simpl never.
#[local] Arguments MemoryMap_at_mut : simpl never.

#[export] Instance MemorySource_laws : SourceLaws MemorySource.
Proof.
  split; simpl; unfold MemorySource_at, MemorySource_at_mut, MemorySource_read,
    MemorySource_write, MemorySource_length.
  - done.
  - done.
  - intros off len s _ Hr Hu. run_M. by rewrite MemoryMap_at_in_range.
  - intros off len s _ Hr Hu. run_M. rewrite MemoryMap_at_mut_eq. by rewrite MemoryMap_at_in_range.
  - intros off len s. run_M. by destruct (MemoryMap_at _ _ _) as [[[]|]|].
  - intros off len s. run_M. by destruct (MemoryMap_at_mut _ _ _) as [[[]|]|].
  - intros off len s. run_M. by destruct (MemoryMap_at _ _ _) as [[[]|]|].
  - intros off len s s' data Ho Hl. run_M.
    destruct (MemoryMap_at _ _ _) as [[[o n]|]|] eqn:E; [|done..].
    apply MemoryMap_at_Some in E as (-> & -> & Hr); [|done..]. simpl.
    intros [= <- <-]. by rewrite blen_slice.
  - intros off data s. run_M. by destruct (MemoryMap_at_mut _ _ _) as [[[]|]|].
  - intros off data s Hr Hu. run_M. rewrite MemoryMap_at_mut_eq, MemoryMap_at_in_range by done.
    simpl. exists (blen data). rewrite slice_full. pose proof (blen_nonneg data). split; [lia|done].
  - intros off data s s' Hr Hu. run_M. rewrite MemoryMap_at_mut_eq, MemoryMap_at_in_range by done.
    simpl. by intros [= <-].
  - done.
  - done.
  - done.
  - by intros s s' n [= <- _].
  - intros off len s _ Hr Hu. run_M. by rewrite MemoryMap_at_in_range.
  - intros off data s _ Hr Hu. run_M. by rewrite MemoryMap_at_mut_eq, MemoryMap_at_in_range.
  - done.
  - done.
Qed.
End MemorySourceLaws.

(** *** Files

    Each system call first, then the methods made of them. *)
Section FileSourceLaws.
Lemma io_count_range e n : 0 ≤ n → 0 ≤ io_count e n ≤ n.
Proof. destruct e; simpl; lia. Qed.

Lemma slice_nil off l : slice off 0 l = [].
Proof. done. Qed.

Lemma splice_nil off l : in_range off 0 (blen l) → splice off [] l = l.
Proof. intros. by rewrite <- (slice_nil off l), splice_slice. Qed.

Lemma file_seek_spec off f r f' : file_seek off f = (r, f') →
  file_content f' = file_content f ∧ (r = Ok tt → file_cursor f' = off).
Proof.
  unfold file_seek, file_event, file_error. run_M.
  destruct (hd io_ok (file_events f)); [case_decide|..|case_decide]; by intros [= <- <-].
Qed.

Lemma file_read_spec len f r f' : file_read len f = (r, f') →
  file_content f' = file_content f ∧
  ∀ data, r = Ok data → 0 ≤ len → ∃ n, 0 ≤ n ≤ len ∧ data = slice (file_cursor f) n (file_content f).
Proof.
  unfold file_read, file_event, file_error. run_M.
  pose proof (io_count_range (hd io_ok (file_events f)) len) as Hn.
  destruct (hd io_ok (file_events f)); intros [= <- <-]; (split; [done|]);
    intros data [= <-]; eauto.
Qed.

Lemma file_write_spec src f r f' :
  in_range (file_cursor f) (blen src) (blen (file_content f)) → file_write src f = (r, f') →
  (∃ e, r = Fail e ∧ file_content f' = file_content f) ∨
  (∃ n, 0 ≤ n ≤ blen src ∧ r = Ok n ∧
     file_content f' = splice (file_cursor f) (slice 0 n src) (file_content f)).
Proof.
  intros Hr. pose proof (blen_nonneg src) as Hsrc.
  assert (∀ n, 0 ≤ n ≤ blen src →
    (if decide (n = 0) then file_content f
     else overwrite (file_cursor f) (slice 0 n src) (file_content f)) =
    splice (file_cursor f) (slice 0 n src) (file_content f)) as Hover.
  { intros n Hn. case_decide; [subst; by rewrite slice_nil, splice_nil by usize|].
    apply overwrite_in_range. rewrite blen_slice; usize. }
  unfold file_write, file_event, file_error. run_M.
  pose proof (io_count_range (hd io_ok (file_events f)) (blen src) Hsrc) as Hn.
  destruct (hd io_ok (file_events f)); intros [= <- <-]; [right|left|right]; [|by eauto|];
    (eexists; split; [exact Hn|]; split; [done|]; simpl; apply Hover; exact Hn).
Qed.

Lemma file_flush_spec f : file_content (file_flush f).2 = file_content f.
Proof. unfold file_flush, file_event, file_error. run_M. by destruct (hd io_ok (file_events f)). Qed.

Lemma file_metadata_len_spec f r f' : file_metadata_len f = (r, f') →
  file_content f' = file_content f ∧ (∀ n, r = Ok n → n = blen (file_content f)).
Proof.
  unfold file_metadata_len, file_event, file_error. run_M.
  destruct (hd io_ok (file_events f)); intros [= <- <-]; split; try done; by intros ? [= <-].
Qed.

Lemma FileSource_read_spec off len s r s' : FileSource_read off len s = (r, s') →
  file_content (fs_file s') = file_content (fs_file s) ∧
  ∀ data, r = Ok data → 0 ≤ len → data = slice off len (file_content (fs_file s)) ∧ blen data = len.
Proof.
  unfold FileSource_read, on_file. run_M.
  destruct (file_seek off (fs_file s)) as [[[]|] f1] eqn:E1; apply file_seek_spec in E1 as [Hc1 Hs];
    [|by intros [= <- <-]].
  simpl. destruct (file_read len f1) as [[data|] f2] eqn:E2;
    apply file_read_spec in E2 as [Hc2 Hd]; try done; [|by intros [= <- <-]; simpl; rewrite Hc2, Hc1].
  simpl. case_decide as Hlen'; intros [= <- <-]; simpl; rewrite Hc2, Hc1; [|done].
  split; [done|]. intros ? [= <-] Hlen. split; [|done].
  destruct (Hd data eq_refl Hlen) as (n & Hn & ->). rewrite Hs, Hc1 in * by done.
  revert Hlen'. unfold blen, slice. rewrite length_take. intros. f_equal; lia.
Qed.

Lemma FileSource_write_spec off data s r s' :
  in_range off (blen data) (blen (file_content (fs_file s))) → FileSource_write off data s = (r, s') →
  ∃ n, 0 ≤ n ≤ blen data ∧
    file_content (fs_file s') = splice off (slice 0 n data) (file_content (fs_file s)) ∧
    (r = Ok tt → n = blen data).
Proof.
  intros Hr. pose proof (blen_nonneg data) as Hd.
  assert (splice off (slice 0 0 data) (file_content (fs_file s)) = file_content (fs_file s)) as Hnone.
  { by rewrite slice_nil, splice_nil by usize. }
  unfold FileSource_write, on_file. run_M.
  destruct (file_seek off (fs_file s)) as [[[]|] f1] eqn:E1; apply file_seek_spec in E1 as [Hc1 Hs];
    [|intros [= <- <-]; exists 0; by rewrite Hnone].
  simpl. destruct (file_write data f1) as [o f2] eqn:E2.
  apply file_write_spec in E2; [|by rewrite Hs, Hc1].
  rewrite Hs, Hc1 in E2 by done. destruct E2 as [(e & -> & Hc2)|(n & Hn & -> & Hc2)]; simpl.
  - intros [= <- <-]. exists 0. rewrite Hnone. simpl. by rewrite Hc2.
  - case_decide; intros [= <- <-]; exists n; split_and!; done || lia.
Qed.

#[export] Instance FileSource_laws : SourceLaws FileSource.
Proof.
  split; simpl; try done.
  - intros off len s. split; [done|].
    destruct (FileSource_read off len s) as [r s'] eqn:E. by apply FileSource_read_spec in E as [? _].
  - intros off len s s' data Ho Hl E. apply FileSource_read_spec in E as [_ Hd]. apply Hd; [done|usize].
  - intros off data s Hr _. destruct (FileSource_write off data s) as [r s'] eqn:E.
    apply FileSource_write_spec in E as (n & ? & ? & _); eauto.
  - intros off data s s' Hr _ E. apply FileSource_write_spec in E as (n & ? & -> & Hn); [|done].
    rewrite Hn, slice_full by done. done.
  - intros s. split; [done|]. unfold FileSource_flush, on_file. run_M.
    pose proof (file_flush_spec (fs_file s)). by destruct (file_flush (fs_file s)).
  - intros s. split; [done|]. unfold FileSource_length, on_file. run_M.
    destruct (file_metadata_len (fs_file s)) as [r f] eqn:E. by apply file_metadata_len_spec in E as [? _].
  - intros s s' n. unfold FileSource_length, on_file. run_M.
    destruct (file_metadata_len (fs_file s)) as [r f] eqn:E.
    apply file_metadata_len_spec in E as [_ Hn]. intros [= -> <-]. by apply Hn.
Qed.
End FileSourceLaws.

(** *** The box: each law is the law of the source inside. *)
Section DynSourceLaws.
Context `{T : Target}.

Lemma dispatch_Memory {A} (on_m : M MemorySource A) (on_f : M FileSource A) m :
  dispatch on_m on_f (Memory m) = ((on_m m).1, Memory (on_m m).2).
Proof. unfold dispatch. by destruct (on_m m). Qed.

Lemma dispatch_OnFile {A} (on_m : M MemorySource A) (on_f : M FileSource A) f :
  dispatch on_m on_f (OnFile f) = ((on_f f).1, OnFile (on_f f).2).
Proof. unfold dispatch. by destruct (on_f f). Qed.

(** Opens the box on both sides of a law. *)
Ltac unbox :=
  intros; repeat match goal with s : DynSource |- _ => destruct s end;
  cbn [dyn source_is_byte_addressable source_is_persistent source_bytes source_store source_at
       source_at_mut source_read source_write source_flush source_flush_slice source_length
       DynSource_Source] in *;
  rewrite ?dispatch_Memory, ?dispatch_OnFile in *; simplify_eq; cbn [fst snd] in *.

Lemma outcome_of {A B} (p : A * B) a : p.1 = a → p = (a, p.2).
Proof. by destruct p; simpl; intros ->. Qed.

#[export] Instance DynSource_laws : SourceLaws DynSource.
Proof.
  split.
  - unbox; first [done | by split | apply (source_store_flags (S:=MemorySource)) | apply (source_store_flags (S:=FileSource))].
  - unbox; first [done | by split | by apply source_store_bytes].
  - unbox; first [done | by split | by rewrite source_at_ok].
  - unbox; first [done | by split | by rewrite source_at_mut_ok].
  - unbox; first [done | by split | by rewrite source_at_same].
  - unbox; first [done | by split | by rewrite source_at_mut_same].
  - unbox; first [done | by split | apply (source_read_same (S:=MemorySource)) | apply (source_read_same (S:=FileSource))].
  - intros off len [m|f] s' data Ho Hl; unbox; by eapply source_read_ok, outcome_of.
  - unbox; first [done | by split | apply (source_write_flags (S:=MemorySource)) | apply (source_write_flags (S:=FileSource))].
  - unbox; first [done | by split | by apply (source_write_prefix (S:=MemorySource)) | by apply (source_write_prefix (S:=FileSource))].
  - intros off data [m|f] s' Hr Hu; unbox;
      eapply (source_write_ok off data); done || by apply outcome_of.
  - unbox; first [done | by split | apply (source_flush_same (S:=MemorySource)) | apply (source_flush_same (S:=FileSource))].
  - unbox; first [done | by split | apply (source_flush_slice_same (S:=MemorySource)) | apply (source_flush_slice_same (S:=FileSource))].
  - unbox; first [done | by split | apply (source_length_same (S:=MemorySource)) | apply (source_length_same (S:=FileSource))].
  - intros [m|f] s' n; unbox; by eapply source_length_ok, outcome_of.
  - unbox; first [done | by split | by rewrite source_read_memory].
  - unbox; first [done | by split | by rewrite source_write_memory].
  - unbox; done.
  - unbox; done.
Qed.
End DynSourceLaws.

(** ** Theorems *)
Section SourceTheorems.
Context `{T : Target}.

(** The bounds check of [MemoryMap::at]: a range in the map is returned as it
    is, one that ends behind the map is [None], and an end that does not fit
    a [usize] panics, or in a build without overflow checks is never a range. *)
Lemma MemoryMap_at_bounds m off len : is_usize off → is_usize len →
  MemoryMap_at m off len =
    if decide (off + len < usize_modulus) then
      if decide (off + len ≤ MemoryMap_len m) then Ok (Some (off, len)) else Ok None
    else if overflow_checks then Fail Panic
    else if decide (off + len - usize_modulus ≤ MemoryMap_len m) then Fail Panic else Ok None.
Proof.
  intros Ho Hl. unfold MemoryMap_at, usize_add.
  destruct (decide (off + len < usize_modulus)) as [Hlt|Hge].
  - rewrite wrapping_ok by usize. simpl. destruct (decide (off + len ≤ MemoryMap_len m)).
    + rewrite decide_False, index_range_ok by usize. simpl. do 3 f_equal. lia.
    + by rewrite decide_True by lia.
  - rewrite wrapping_out by usize. destruct overflow_checks; [done|]. simpl.
    assert ((off + len) mod usize_modulus = off + len - usize_modulus) as ->.
    { symmetry. apply (Z.mod_unique _ _ 1); usize. }
    destruct (decide (off + len - usize_modulus ≤ MemoryMap_len m)).
    + rewrite decide_False by lia. unfold index_range. by rewrite decide_False by usize.
    + by rewrite decide_True by lia.
Qed.

(** C35: what [offset] answers: the distance from the map's base, for every
    address above it and not only those of the map; the base itself, whose
    offset is 0, is refused. *)
Theorem MemorySource_offset_check m persistent ptr : is_usize (mm_base m) → mm_base m < 2 ^ 63 →
  0 ≤ ptr < 2 ^ 63 →
  (MemorySource_offset ptr (mk_MemorySource m persistent)).1 =
    if decide (mm_base m < ptr) then Ok (ptr - mm_base m) else Err InvalidMemory.
Proof.
  intros Hb Hb' Hp. unfold MemorySource_offset. run_M. unfold MemoryMap_offset. cbn [ms_map].
  assert (∀ a, 0 ≤ a < 2 ^ 63 → (a + 2 ^ 63) mod 2 ^ 64 - 2 ^ 63 = a) as Hs.
  { intros a Ha. rewrite Z.mod_small by lia. lia. }
  rewrite !Hs by (done || usize). rewrite decide_True by usize.
  destruct (decide (mm_base m < ptr)); [by rewrite decide_True by lia|by rewrite decide_False by lia].
Qed.
(** What a range holds after a part of it was written. *)
Lemma splice_part off n data l : in_range off (blen data) (blen l) → 0 ≤ n ≤ blen data →
  let l' := splice off (slice 0 n data) l in
  slice off n l' = slice 0 n data ∧
  slice (off + n) (blen data - n) l' = slice (off + n) (blen data - n) l ∧
  ∀ o k, 0 ≤ o → apart (o, k) (off, blen data) → slice o k l' = slice o k l.
Proof.
  intros Hr Hn. assert (blen (slice 0 n data) = n) as Hlen by (rewrite blen_slice; usize). cbv zeta. split_and!.
  - rewrite <- Hlen at 1. apply slice_splice_same. rewrite Hlen. usize.
  - apply slice_splice_apart; rewrite ?Hlen; [usize|usize|]. unfold apart. simpl. lia.
  - intros o k Ho Hap. apply slice_splice_apart; rewrite ?Hlen; [usize|done|]. unfold apart in *. simpl in *. lia.
Qed.

(** A file whose calls the system does not fail. *)
Lemma FileSource_write_works off data s : 0 ≤ off < 2 ^ 63 → file_events (fs_file s) = [] →
  ∃ s1, FileSource_write off data s = (Ok tt, s1) ∧ file_events (fs_file s1) = [].
Proof.
  intros Ho He. unfold FileSource_write, on_file, file_seek, file_write, file_event. run_M. rewrite He. cbn.
  rewrite decide_True by lia. cbn. by rewrite decide_True by done; eexists.
Qed.

Lemma FileSource_read_works off len s : 0 ≤ off < 2 ^ 63 → file_events (fs_file s) = [] →
  in_range off len (blen (file_content (fs_file s))) →
  (FileSource_read off len s).1 = Ok (slice off len (file_content (fs_file s))).
Proof.
  intros Ho He Hr. unfold FileSource_read, on_file, file_seek, file_read, file_event. run_M. rewrite He. cbn.
  rewrite decide_True by lia. cbn. by rewrite decide_True by (by apply blen_slice).
Qed.

(** C32: both sources keep what is written to them.  Memory takes every write of a
    range of it and reads back the data.  A file, whatever the system does to
    its calls: after a successful [write] a successful [read] of the range
    returns the data; a [write] that fails has stored a prefix of them; the
    bytes outside the range are kept; and if no call fails, both succeed. *)
Theorem source_write_read off data : is_usize off →
  (∀ s, in_range off (blen data) (MemoryMap_len (ms_map s)) → is_usize (MemoryMap_len (ms_map s)) →
     ∃ s1, MemorySource_write off data s = (Ok tt, s1) ∧ MemorySource_read off (blen data) s1 = (Ok data, s1) ∧
       mm_data (ms_map s1) = splice off data (mm_data (ms_map s))) ∧
  (∀ s, in_range off (blen data) (blen (file_content (fs_file s))) → is_usize (blen (file_content (fs_file s))) →
     let '(written, s1) := FileSource_write off data s in
     let old := file_content (fs_file s) in
     let new := file_content (fs_file s1) in
     (written = Ok tt → ∀ read s2, FileSource_read off (blen data) s1 = (Ok read, s2) → read = data) ∧
     (∃ n, 0 ≤ n ≤ blen data ∧ slice off n new = slice 0 n data ∧
        slice (off + n) (blen data - n) new = slice (off + n) (blen data - n) old) ∧
     (∀ o n, 0 ≤ o → apart (o, n) (off, blen data) → slice o n new = slice o n old) ∧
     (file_events (fs_file s) = [] → off < 2 ^ 63 → written = Ok tt ∧ (FileSource_read off (blen data) s1).1 = Ok data)).
Proof.
  intros Ho. split.
  - intros s Hr Hu. pose proof (blen_nonneg data). exists (MemorySource_store off data s).
    assert (blen (splice off data (mm_data (ms_map s))) = MemoryMap_len (ms_map s)) as Hl by by apply blen_splice.
    unfold MemorySource_write, MemorySource_read. run_M. rewrite MemoryMap_at_mut_eq, !MemoryMap_at_in_range.
    + split_and!; [done| |done]. simpl. by rewrite slice_splice_same.
    + unfold MemoryMap_len. simpl. rewrite Hl. done.
    + unfold MemoryMap_len. simpl. rewrite Hl. done.
    + done.
    + done.
  - intros s Hr Hu. destruct (FileSource_write off data s) as [written s1] eqn:Ew.
    destruct (FileSource_write_spec off data s written s1 Hr Ew) as (n & Hn & Hc & Hall).
    destruct (splice_part off n data _ Hr Hn) as (P1 & P2 & P3). rewrite Hc.
    assert (written = Ok tt → slice off (blen data) (file_content (fs_file s1)) = data) as Hback.
    { intros Hw. rewrite Hc, (Hall Hw), slice_full. by apply slice_splice_same. }
    split_and!; [|by exists n|done|].
    + intros Hw read s2 Er. apply FileSource_read_spec in Er as [_ Hd].
      destruct (Hd read eq_refl (blen_nonneg data)) as [-> _]. by apply Hback.
    + intros He Hlt. destruct (FileSource_write_works off data s) as (s1' & Ew' & He'); [usize|done|].
      rewrite Ew in Ew'. injection Ew' as -> <-. split; [done|]. rewrite FileSource_read_works; [by rewrite Hback|usize|done|].
      rewrite Hc, (Hall eq_refl), slice_full. by rewrite blen_splice.
Qed.
End SourceTheorems.
