(* ===== verification/SourceAllocator.v ===== *)
(** * Page allocation on one source (src/src/source/mod.rs)

    [SourceHeader], the on-media header page, and [SourceAllocator], the list
    of free pages kept over a [Source]. *)
From S2P Require Import Prelude Utils Source.

(** ** The source header *)
Definition SOURCE_HEADER_MAGIC : Z := 0xDEADBEEF.

Record SourceHeaderData : Type := mk_SourceHeaderData { sh_magic : Z; sh_pagesize : Z }.
Record SourceHeader : Type := mk_SourceHeader { sh_data : SourceHeaderData; sh_crc32 : Z }.

Section Header.
Context `{T : Target} `{C : Crc}.

(** [any_as_slice] and [any_from_slice] of the two structs. *)
Definition SourceHeaderData_bytes (d : SourceHeaderData) : list byte :=
  splice off_pagesize (u64_bytes (sh_pagesize d))
    (splice off_magic (u64_bytes (sh_magic d)) (padding (Z.to_nat size_of_SourceHeaderData))).

Definition SourceHeader_bytes (h : SourceHeader) : list byte :=
  splice off_sh_crc (u32_bytes (sh_crc32 h))
    (splice off_sh_data (SourceHeaderData_bytes (sh_data h))
      (padding (Z.to_nat size_of_SourceHeader))).

Definition SourceHeaderData_decode (l : list byte) : SourceHeaderData :=
  mk_SourceHeaderData (int_at off_magic 8 l) (int_at off_pagesize 8 l).

Definition SourceHeader_decode (l : list byte) : SourceHeader :=
  mk_SourceHeader (SourceHeaderData_decode (slice off_sh_data size_of_SourceHeaderData l))
    (int_at off_sh_crc 4 l).

Definition SourceHeader_new (pagesize : Z) : SourceHeader :=
  let data := mk_SourceHeaderData SOURCE_HEADER_MAGIC pagesize in
  mk_SourceHeader data (crc SourceHeaderData_bytes data).

(** [self.data] hashed in place: the bytes of a decoded header are those it
    was decoded from, and [SourceHeaderData] has no padding. *)
Definition SourceHeader_is_valid (self : SourceHeader) : bool :=
  bool_decide (sh_magic (sh_data self) = SOURCE_HEADER_MAGIC)
  && bool_decide (sh_crc32 self = crc SourceHeaderData_bytes (sh_data self)).
End Header.

(** ** The allocator *)
Record SourceAllocator (S : Type) : Type := mk_SourceAllocator {
  sa_source : S;
  sa_freelist : list Page;     (** the [VecDeque], front first *)
  sa_pagesize : Z
}.
Arguments mk_SourceAllocator {S}.
Arguments sa_source {S}.
Arguments sa_freelist {S}.
Arguments sa_pagesize {S}.

Section Allocator.
Context `{T : Target} `{C : Crc} {D : Type} `{Src : !Source D}.

Definition with_freelist (freelist : list Page) (sa : SourceAllocator D) : SourceAllocator D :=
  mk_SourceAllocator (sa_source sa) freelist (sa_pagesize sa).

Definition with_device (source : D) (sa : SourceAllocator D) : SourceAllocator D :=
  mk_SourceAllocator source (sa_freelist sa) (sa_pagesize sa).

(** A method call on the source behind the lock. *)
Definition on_source {A} (m : M D A) : M (SourceAllocator D) A := zoom sa_source with_device m.

Definition SourceAllocator_create : M (SourceAllocator D) unit :=
  self ← get;
  let hdr := SourceHeader_new (sa_pagesize self) in
  on_source (source_write 0 (SourceHeader_bytes hdr)) ;;
  on_source source_flush.

Definition SourceAllocator_get_meta (self : SourceAllocator D) : Page :=
  Page_new (sa_pagesize self) (sa_pagesize self).

Definition SourceAllocator_free_page (page : Page) : M (SourceAllocator D) unit :=
  modify (λ self, with_freelist (sa_freelist self ++ [page]) self).

Definition SourceAllocator_is_byte_addressable (self : SourceAllocator D) : bool :=
  source_is_byte_addressable (sa_source self).

Definition SourceAllocator_is_persistent (self : SourceAllocator D) : bool :=
  source_is_persistent (sa_source self).

(** [self.source.read().length().unwrap()], aligned down. *)
Definition SourceAllocator_length : M (SourceAllocator D) Z :=
  self ← get;
  len ← on_source (λ s, let '(o, s) := source_length s in (panic_on o, s));
  lift (align_down len (sa_pagesize self)).

(** The scan of one page on start-up. *)
Definition SourceAllocator_scan_page (valid : list byte → outcome bool) (base_offset n : Z) :
    M (SourceAllocator D) unit :=
  self ← get;
  skip ← lift (n *! sa_pagesize self);
  offset ← lift (base_offset +! skip);
  data ← on_source (source_read offset (sa_pagesize self));
  keep ← lift (valid data);
  if (keep : bool) then mret tt
  else SourceAllocator_free_page (Page_new offset (sa_pagesize self)).

Definition SourceAllocator_initialize (valid : list byte → outcome bool) :
    M (SourceAllocator D) unit :=
  self ← get;
  let pagesize := sa_pagesize self in
  data ← on_source (source_read 0 pagesize);
  hdrp ← lift (any_from_slice size_of_SourceHeader 8 SourceHeader_decode vec_address data);
  (if SourceHeader_is_valid hdrp then
     if decide (sh_pagesize (sh_data hdrp) = pagesize) then mret tt
     else throw (WrongPagesize (sh_pagesize (sh_data hdrp)) pagesize)
   else SourceAllocator_create) ;;
  base_offset ← lift (align_up size_of_SourceHeader pagesize);
  base_offset ← lift (base_offset +! pagesize);
  length ← SourceAllocator_length;
  base_size ← lift (length -! base_offset);
  npages ← lift (base_size /! pagesize);
  for_each (seqZ 0 npages) (SourceAllocator_scan_page valid base_offset).

Definition SourceAllocator_new (source : D) (pagesize : Z) (valid : list byte → outcome bool) :
    outcome (SourceAllocator D) :=
  let '(result, allocator) :=
    SourceAllocator_initialize valid (mk_SourceAllocator source [] pagesize) in
  result ;; Ok allocator.

(** A page that [split] refuses has left the list all the same. *)
Definition SourceAllocator_allocate_page : M (SourceAllocator D) Page :=
  self ← get;
  match sa_freelist self with
  | [] => throw NoAvailableMemory
  | page :: freelist =>
      modify (with_freelist freelist) ;;
      '(page, cut) ← lift (Page_split page (sa_pagesize self));
      allocated ← ok_or cut NoAvailableMemory;
      (if decide (page_len page = 0) then mret tt
       else modify (with_freelist (page :: freelist))) ;;
      mret allocated
  end.

Definition SourceAllocator_get_bytes (page : Page) : M (SourceAllocator D) (option (Z * Z)) :=
  self ← get;
  if SourceAllocator_is_byte_addressable self then
    bytes ← on_source (source_at (page_offset page) (page_len page));
    mret (Some bytes)
  else mret None.

Definition SourceAllocator_get_bytes_mut (page : Page) : M (SourceAllocator D) (option (Z * Z)) :=
  self ← get;
  if SourceAllocator_is_byte_addressable self then
    bytes ← on_source (source_at_mut (page_offset page) (page_len page));
    mret (Some bytes)
  else mret None.

(** Both ignore their [offset] argument, as the code does. *)
Definition SourceAllocator_read_into (page : Page) (offset len : Z) :
    M (SourceAllocator D) (list byte) :=
  assert (bool_decide (len ≤ page_len page)) ;;
  on_source (source_read (page_offset page) len).

Definition SourceAllocator_write_from (page : Page) (offset : Z) (data : list byte) :
    M (SourceAllocator D) unit :=
  assert (bool_decide (blen data ≤ page_len page)) ;;
  on_source (source_write (page_offset page) data) ;;
  on_source source_flush.

Definition SourceAllocator_flush : M (SourceAllocator D) unit := on_source source_flush.

Definition SourceAllocator_flush_partial (range : Z * Z) : M (SourceAllocator D) unit :=
  on_source (source_flush_slice range).
End Allocator.

(** ** The header page *)
Section HeaderLemmas.
Context `{T : Target} `{TOk : !TargetOk T} `{C : Crc}.

Ltac sizes := unfold size_of_SourceHeaderData, size_of_SourceHeader in *.

Lemma blen_SourceHeaderData d : blen (SourceHeaderData_bytes d) = size_of_SourceHeaderData.
Proof.
  pose proof source_header_data_packed as P. packed_facts P. sizes.
  unfold SourceHeaderData_bytes.
  pose proof (blen_padding size_of_SourceHeaderData). sizes. blens.
Qed.

Lemma blen_SourceHeader h : blen (SourceHeader_bytes h) = size_of_SourceHeader.
Proof.
  pose proof source_header_packed as P. packed_facts P.
  pose proof (blen_padding size_of_SourceHeader).
  pose proof (blen_SourceHeaderData (sh_data h)). unfold SourceHeader_bytes. sizes. blens.
Qed.

Lemma SourceHeaderData_decode_bytes d : is_usize (sh_magic d) → is_usize (sh_pagesize d) →
  SourceHeaderData_decode (SourceHeaderData_bytes d) = d.
Proof.
  intros Hm Hp. pose proof source_header_data_packed as P. packed_facts P.
  pose proof (blen_padding size_of_SourceHeaderData).
  unfold SourceHeaderData_decode, SourceHeaderData_bytes. sizes.
  rewrite field_kept by blens. rewrite u64_written, u64_written by (done || blens).
  by destruct d.
Qed.

(** The header at the start of a page reads back as it was written. *)
Lemma SourceHeader_decode_bytes h l n :
  is_usize (sh_magic (sh_data h)) → is_usize (sh_pagesize (sh_data h)) → is_u32 (sh_crc32 h) →
  size_of_SourceHeader ≤ n ≤ blen l →
  SourceHeader_decode (slice 0 n (splice 0 (SourceHeader_bytes h) l)) = h.
Proof.
  intros Hm Hp Hc Hn. pose proof source_header_packed as P. packed_facts P.
  pose proof (blen_padding size_of_SourceHeader).
  pose proof (blen_SourceHeaderData (sh_data h)) as Hd. pose proof (blen_SourceHeader h) as Hh.
  unfold SourceHeader_decode. rewrite int_at_slice, slice_slice, !Z.add_0_l by (sizes; usize).
  unfold int_at. rewrite !slice_splice_0 by (rewrite ?Hh; sizes; usize).
  unfold SourceHeader_bytes. sizes. rewrite slice_splice_apart by (rewrite ?Hd; blens).
  rewrite !slice_splice_len by (rewrite ?Hd; blens).
  rewrite SourceHeaderData_decode_bytes, u32_roundtrip by done. by destruct h.
Qed.
End HeaderLemmas.

(** ** Free pages *)

(** The pages [initialize] finds free: those of a range of page numbers whose
    content is not that of a page in use. *)
Definition free_page_at (valid : list byte → outcome bool) (bytes : list byte) (pagesize base n : Z) :
    list Page :=
  match valid (slice (base + n * pagesize) pagesize bytes) with
  | Ok false => [Page_new (base + n * pagesize) pagesize]
  | _ => []
  end.

(** The allocator's invariant: free pages are whole, aligned, behind the
    header and meta pages, inside the source, and listed once. *)
Definition page_fits (pagesize size : Z) (p : Page) : Prop :=
  page_len p = pagesize ∧ (pagesize | page_offset p) ∧
  2 * pagesize ≤ page_offset p ∧ page_offset p + pagesize ≤ size.

Record allocator_wf {D} `{Source D} (sa : SourceAllocator D) : Prop := {
  wf_pagesize : is_pow2 (sa_pagesize sa);
  wf_size : is_usize (blen (source_bytes (sa_source sa)));
  wf_pages : Forall (page_fits (sa_pagesize sa) (blen (source_bytes (sa_source sa)))) (sa_freelist sa);
  wf_nodup : NoDup (sa_freelist sa)
}.

(** Calls on a source that leave its bytes keep everything but its state. *)
Definition allocator_same {D} `{Source D} (sa sa' : SourceAllocator D) : Prop :=
  source_same (sa_source sa) (sa_source sa') ∧ sa_pagesize sa' = sa_pagesize sa.

Section AllocatorLemmas.
Context `{T : Target} `{C : Crc} {D : Type} `{Src : !Source D} `{Laws : !SourceLaws D}.
Implicit Types (sa : SourceAllocator D).

Lemma on_source_eq {A} (m : M D A) sa o s : m (sa_source sa) = (o, s) →
  on_source m sa = (o, with_device s sa).
Proof. intros E. unfold on_source. by rewrite (zoom_eq _ _ _ _ _ _ E). Qed.

#[export] Instance allocator_same_preorder : PreOrder (allocator_same (D:=D)).
Proof.
  split; [done|]. intros x y z [[??]?] [[??]?]. unfold allocator_same, source_same. by split_and!; etrans.
Qed.

(** A reference to a range of a byte-addressable source. *)
Lemma SourceAllocator_get_bytes_ok sa o n :
  SourceAllocator_is_byte_addressable sa = true →
  in_range o n (blen (source_bytes (sa_source sa))) → is_usize (blen (source_bytes (sa_source sa))) →
  SourceAllocator_get_bytes (Page_new o n) sa = (Ok (Some (o, n)), sa).
Proof.
  intros Hb Hr Hu. unfold SourceAllocator_get_bytes. rewrite (bind_ok _ _ _ sa sa) by done. rewrite Hb.
  rewrite (bind_ok _ _ _ (o, n) sa); [done|].
  erewrite on_source_eq by (by apply (source_at_ok o n (sa_source sa))). by destruct sa.
Qed.

Lemma SourceAllocator_get_bytes_mut_ok sa o n :
  SourceAllocator_is_byte_addressable sa = true →
  in_range o n (blen (source_bytes (sa_source sa))) → is_usize (blen (source_bytes (sa_source sa))) →
  SourceAllocator_get_bytes_mut (Page_new o n) sa = (Ok (Some (o, n)), sa).
Proof.
  intros Hb Hr Hu. unfold SourceAllocator_get_bytes_mut. rewrite (bind_ok _ _ _ sa sa) by done. rewrite Hb.
  rewrite (bind_ok _ _ _ (o, n) sa); [done|].
  erewrite on_source_eq by (by apply (source_at_mut_ok o n (sa_source sa))). by destruct sa.
Qed.

Lemma SourceAllocator_create_ok `{!TargetOk T} sa sa' :
  size_of_SourceHeader ≤ blen (source_bytes (sa_source sa)) →
  is_usize (blen (source_bytes (sa_source sa))) →
  SourceAllocator_create sa = (Ok tt, sa') →
  source_flags (sa_source sa') = source_flags (sa_source sa) ∧
  source_bytes (sa_source sa') =
    splice 0 (SourceHeader_bytes (SourceHeader_new (sa_pagesize sa))) (source_bytes (sa_source sa)) ∧
  sa_freelist sa' = sa_freelist sa ∧ sa_pagesize sa' = sa_pagesize sa.
Proof.
  intros Hle Hu E. set (hdr := SourceHeader_bytes (SourceHeader_new (sa_pagesize sa))) in *.
  assert (in_range 0 (blen hdr) (blen (source_bytes (sa_source sa)))) as Hr.
  { subst hdr. rewrite blen_SourceHeader. usize. }
  unfold SourceAllocator_create in E. rewrite (bind_ok _ _ _ sa sa) in E by done. fold hdr in E.
  apply bind_ok_inv in E as ([] & sa1 & E1 & E2).
  destruct (source_write 0 hdr (sa_source sa)) as [o s1] eqn:Ew.
  pose proof (source_write_flags 0 hdr (sa_source sa)) as Hfl. rewrite Ew in Hfl.
  rewrite (on_source_eq _ _ _ _ Ew) in E1. injection E1 as -> <-.
  apply source_write_ok in Ew; [|done..].
  pose proof (source_flush_same s1) as [Hf1 Hf2]. destruct (source_flush s1) as [o2 s2] eqn:Ef.
  rewrite (on_source_eq _ _ _ s2) in E2 by done. injection E2 as -> <-. simpl in *.
  rewrite Hf1, Hf2, Ew. split_and!; done.
Qed.

Lemma SourceAllocator_length_ok sa sa' n :
  is_usize (blen (source_bytes (sa_source sa))) → is_pow2 (sa_pagesize sa) →
  SourceAllocator_length sa = (Ok n, sa') →
  allocator_same sa sa' ∧ sa_freelist sa' = sa_freelist sa ∧
  n = blen (source_bytes (sa_source sa)) - blen (source_bytes (sa_source sa)) mod sa_pagesize sa.
Proof.
  intros Hu Hp. unfold SourceAllocator_length. run_M.
  destruct (source_length (sa_source sa)) as [o s] eqn:E.
  pose proof (source_length_same (sa_source sa)) as Hs. rewrite E in Hs. simpl in Hs.
  rewrite (on_source_eq _ _ (panic_on o) s) by (by rewrite E).
  destruct o as [len|[]]; simpl; try done.
  apply source_length_ok in E as ->. rewrite align_down_eq by done. by intros [= <- <-].
Qed.

Lemma SourceAllocator_scan_page_ok valid base n sa sa' :
  let size := sa_pagesize sa in
  is_usize base → 0 ≤ n * size → base + n * size < usize_modulus → 0 < size < usize_modulus →
  SourceAllocator_scan_page valid base n sa = (Ok tt, sa') →
  allocator_same sa sa' ∧
  sa_freelist sa' = sa_freelist sa ++ free_page_at valid (source_bytes (sa_source sa)) size base n ∧
  base + n * size + size ≤ blen (source_bytes (sa_source sa)).
Proof.
  intros size Hb Hn Hu Hp. unfold SourceAllocator_scan_page. run_M. fold size.
  rewrite usize_mul_ok, usize_add_ok by usize.
  destruct (source_read (base + n * size) size (sa_source sa)) as [[data|] s'] eqn:E;
    rewrite (on_source_eq _ _ _ _ E); [|done].
  pose proof (source_read_same (base + n * size) size (sa_source sa)) as Hsame.
  rewrite E in Hsame. simpl in Hsame.
  apply source_read_ok in E as [-> Hlen]; [|usize..].
  apply blen_slice_inv in Hlen; [|usize..].
  unfold free_page_at. destruct (valid _) as [[]|]; intros [= <-]; simpl;
    rewrite ?app_nil_r; split_and!; try done; usize.
Qed.

(** The scan of a run of pages appends the free ones in order. *)
Lemma SourceAllocator_scan_ok valid base ns : ∀ sa sa',
  let size := sa_pagesize sa in
  is_usize base → 0 < size < usize_modulus →
  Forall (λ n, 0 ≤ n * size ∧ base + n * size < usize_modulus) ns →
  for_each ns (SourceAllocator_scan_page valid base) sa = (Ok tt, sa') →
  allocator_same sa sa' ∧
  sa_freelist sa' = sa_freelist sa ++
    (ns ≫= free_page_at valid (source_bytes (sa_source sa)) size base) ∧
  Forall (λ n, base + n * size + size ≤ blen (source_bytes (sa_source sa))) ns.
Proof.
  induction ns as [|n ns IH]; intros sa sa' size Hb Hp Hns E; simpl in E.
  { injection E as <-. simpl. rewrite app_nil_r. by split_and!. }
  apply Forall_cons in Hns as [[Hn Hu] Hns].
  apply bind_ok_inv in E as ([] & sa1 & E1 & E).
  apply SourceAllocator_scan_page_ok in E1 as (Hsame & Hfree & Hle); [|done..].
  assert (sa_pagesize sa1 = size) as Hsz by apply Hsame.
  assert (source_bytes (sa_source sa1) = source_bytes (sa_source sa)) as Hby by apply Hsame.
  apply IH in E as (Hsame' & Hfree' & Hle'); [|done|by rewrite Hsz..].
  split_and!; [by etrans| |rewrite Hsz, Hby in Hle'; by constructor].
  rewrite Hfree', Hfree, Hsz, Hby, <- app_assoc. done.
Qed.

(** Pages found by a scan from page 2 on fit the source, in order. *)
Lemma free_pages_fit valid bytes size ns : 0 < size → NoDup ns →
  Forall (λ n, 0 ≤ n ∧ 2 * size + n * size + size ≤ blen bytes) ns →
  let pages := ns ≫= free_page_at valid bytes size (2 * size) in
  Forall (page_fits size (blen bytes)) pages ∧ NoDup pages.
Proof.
  intros Hs Hnd Hns.
  assert (∀ n p, p ∈ free_page_at valid bytes size (2 * size) n →
            p = Page_new (2 * size + n * size) size) as Hin.
  { intros n p. unfold free_page_at.
    destruct (valid _) as [[]|]; rewrite ?list_elem_of_singleton, ?elem_of_nil; done. }
  induction Hnd as [|n ns Hn Hnd IH]; simpl; [by split; constructor|].
  apply Forall_cons in Hns as [[Hn0 Hle] Hns]. destruct (IH Hns) as [IH1 IH2]. split.
  - apply Forall_app. split; [|done]. apply Forall_forall. intros p ->%Hin.
    split_and!; simpl; try lia. exists (2 + n). lia.
  - apply NoDup_app. split_and!; [| |done].
    + unfold free_page_at. destruct (valid _) as [[]|]; auto using NoDup_nil_2, NoDup_singleton.
    + intros p ->%Hin (m & Hp%Hin & Hm)%list_elem_of_bind. injection Hp as Hp.
      assert (n = m) as -> by nia. done.
Qed.
End AllocatorLemmas.

Section OpenLemmas.
Context `{T : Target} `{TOk : !TargetOk T} `{C : Crc} {D : Type} `{Src : !Source D}
  `{Laws : !SourceLaws D}.

(** The header written by [create] is the one [initialize] accepts. *)
Lemma SourceHeader_new_valid pagesize : SourceHeader_is_valid (SourceHeader_new pagesize) = true.
Proof. unfold SourceHeader_is_valid. by rewrite !bool_decide_true. Qed.

(** The state after the header was checked or written. *)
Definition header_checked (bytes : list byte) (pagesize : Z) (sa : SourceAllocator D) : Prop :=
  let hdr := SourceHeader_decode (slice 0 pagesize bytes) in
  sa_pagesize sa = pagesize ∧ sa_freelist sa = [] ∧
  if SourceHeader_is_valid hdr
  then sh_pagesize (sh_data hdr) = pagesize ∧ source_bytes (sa_source sa) = bytes
  else source_bytes (sa_source sa) =
         splice 0 (SourceHeader_bytes (SourceHeader_new pagesize)) bytes.

Lemma header_checked_len bytes pagesize sa : size_of_SourceHeader ≤ blen bytes →
  header_checked bytes pagesize sa → blen (source_bytes (sa_source sa)) = blen bytes.
Proof.
  intros Hle (_ & _ & H). destruct (SourceHeader_is_valid _) in H; [by destruct H as [_ ->]|].
  rewrite H, blen_splice; [done|]. rewrite blen_SourceHeader. usize.
Qed.

Lemma SourceAllocator_initialize_ok valid source pagesize sa :
  let bytes := source_bytes source in
  is_pow2 pagesize → size_of_SourceHeader ≤ pagesize → 2 * pagesize ≤ blen bytes →
  is_usize (blen bytes) →
  SourceAllocator_initialize valid (mk_SourceAllocator source [] pagesize) = (Ok tt, sa) →
  ∃ sa1, header_checked bytes pagesize sa1 ∧ allocator_same sa1 sa ∧
    source_flags (sa_source sa1) = source_flags source ∧
    sa_freelist sa = seqZ 0 (blen bytes / pagesize - 2) ≫=
      free_page_at valid (source_bytes (sa_source sa1)) pagesize (2 * pagesize).
Proof.
  intros bytes Hp Hhdr Hsize Hu E. pose proof (is_pow2_range _ Hp) as Hpr.
  apply bind_ok_inv in E as (? & ? & [= <- <-] & E). simpl in E.
  apply bind_ok_inv in E as (data & sa0 & E0 & E).
  destruct (source_read 0 pagesize source) as [o s0] eqn:Er.
  pose proof (source_read_same 0 pagesize source) as [Hf0 Hb0]. rewrite Er in Hf0, Hb0. simpl in Hf0, Hb0.
  rewrite (on_source_eq _ _ o s0) in E0 by done. injection E0 as -> <-.
  apply source_read_ok in Er as [-> Hlen]; [|usize..]. fold bytes in E, Hlen, Hb0.
  apply bind_ok_inv in E as (hdr & ? & Ed & E). 
  rewrite any_from_vec_ok in Ed by (rewrite Hlen; usize). injection Ed as <- <-.
  set (hdr := SourceHeader_decode (slice 0 pagesize bytes)) in E.
  apply bind_ok_inv in E as ([] & sa1 & E1 & E).
  assert (header_checked bytes pagesize sa1 ∧ source_flags (sa_source sa1) = source_flags source)
    as [Hchk Hf1].
  { unfold header_checked. fold hdr. destruct (SourceHeader_is_valid hdr).
    - case_decide; [|done]. injection E1 as <-. by split_and!.
    - apply SourceAllocator_create_ok in E1; simpl in *; rewrite ?Hb0 in *; [|usize..].
      destruct E1 as (? & ? & ? & ?). split_and!; congruence. }
  clear E1. exists sa1. split; [done|]. pose proof (header_checked_len bytes pagesize sa1 ltac:(lia) Hchk) as Hlen1.
  destruct Hchk as (Hp1 & Hfree1 & _).
  rewrite align_up_page in E by (done || usize). simpl in E.
  rewrite (bind_ok _ _ _ pagesize sa1) in E by done.
  rewrite usize_add_ok in E by usize. rewrite (bind_ok _ _ _ (pagesize + pagesize) sa1) in E by done.
  apply bind_ok_inv in E as (len & sa2 & E2 & E).
  apply SourceAllocator_length_ok in E2 as (Hsame2 & Hfree2 & ->); [|by rewrite ?Hlen1, ?Hp1..].
  rewrite Hlen1, Hp1 in E.
  pose proof (Z.mod_pos_bound (blen bytes) pagesize ltac:(lia)).
  pose proof (Z.div_mod (blen bytes) pagesize ltac:(lia)).
  assert (2 ≤ blen bytes / pagesize) by (apply Z.div_le_lower_bound; lia).
  assert (pagesize * 2 ≤ pagesize * (blen bytes / pagesize)) by (apply Z.mul_le_mono_nonneg_l; lia).
  rewrite usize_sub_ok in E by usize.
  rewrite (bind_ok _ _ _ (blen bytes - blen bytes mod pagesize - (pagesize + pagesize)) sa2) in E by done.
  rewrite usize_div_ok in E by lia.
  replace ((blen bytes - blen bytes mod pagesize - (pagesize + pagesize)) / pagesize)
    with (blen bytes / pagesize - 2) in E by (apply Z.div_unique_exact; lia).
  rewrite (bind_ok _ _ _ (blen bytes / pagesize - 2) sa2) in E by done.
  pose proof Hsame2 as [[Hf2 Hb2] Hp2].
  apply SourceAllocator_scan_ok in E as (Hsame & Hfree & _).
  - rewrite Hfree2, Hfree1, Hb2, Hp2, Hp1 in Hfree. simpl in Hfree.
    replace (pagesize + pagesize) with (2 * pagesize) in Hfree by lia.
    split; [by transitivity sa2|by split].
  - usize.
  - rewrite Hp2, Hp1. usize.
  - rewrite Hp2, Hp1. apply Forall_forall. intros n Hn%elem_of_seqZ.
    assert (0 ≤ n * pagesize) by (apply Z.mul_nonneg_nonneg; lia).
    assert (n * pagesize ≤ (blen bytes / pagesize - 3) * pagesize)
      by (apply Z.mul_le_mono_nonneg_r; lia). usize.
Qed.
End OpenLemmas.

(** ** What the allocator guarantees *)
Section AllocatorTheorems.
Context `{T : Target} `{TOk : !TargetOk T} `{C : Crc} {D : Type} `{Src : !Source D}
  `{Laws : !SourceLaws D}.

Lemma SourceAllocator_new_inv (source : D) pagesize valid sa :
  SourceAllocator_new source pagesize valid = Ok sa →
  SourceAllocator_initialize valid (mk_SourceAllocator source [] pagesize) = (Ok tt, sa).
Proof.
  unfold SourceAllocator_new. destruct (SourceAllocator_initialize _ _) as [[[]|] ?]; [|done].
  by intros [= ->].
Qed.

(** Decoding looks at the header only. *)
Lemma SourceHeader_decode_prefix n l : size_of_SourceHeader ≤ n →
  SourceHeader_decode (slice 0 n l) = SourceHeader_decode l.
Proof.
  intros Hn. pose proof source_header_packed as P. packed_facts P.
  unfold SourceHeader_decode. by rewrite int_at_slice, slice_slice, !Z.add_0_l by usize.
Qed.

(** The header of an opened source is valid and states its page size. *)
Lemma header_checked_valid bytes pagesize (sa sa' : SourceAllocator D) :
  is_usize pagesize → size_of_SourceHeader ≤ pagesize ≤ blen bytes →
  header_checked bytes pagesize sa → allocator_same sa sa' →
  let hdr := SourceHeader_decode (source_bytes (sa_source sa')) in
  SourceHeader_is_valid hdr = true ∧ sh_pagesize (sh_data hdr) = pagesize.
Proof.
  intros Hu Hle (_ & _ & H) [[_ ->] _]. revert H.
  destruct (SourceHeader_is_valid (SourceHeader_decode (slice 0 pagesize bytes))) eqn:E.
  - rewrite SourceHeader_decode_prefix in * by lia. by intros [Hp ->].
  - intros ->. rewrite <- (SourceHeader_decode_prefix pagesize) by lia.
    rewrite SourceHeader_decode_bytes; simpl; [|done|done|apply crc32_u32|done].
    by rewrite SourceHeader_new_valid.
Qed.

(** Aligned pages of one size that are not the same do not overlap. *)
Lemma page_fits_apart size total p q : 0 < size → page_fits size total p → page_fits size total q →
  p ≠ q → apart (page_offset p, page_len p) (page_offset q, page_len q).
Proof.
  destruct p as [po pl], q as [qo ql]. unfold page_fits, apart. simpl.
  intros Hs (-> & [a ->] & _) (-> & [b ->] & _) Hne.
  assert (a ≠ b) by congruence. nia.
Qed.

Lemma initialized_wf valid bytes pagesize (sa1 sa : SourceAllocator D) : is_pow2 pagesize → 2 * pagesize ≤ blen bytes →
  is_usize (blen bytes) → size_of_SourceHeader ≤ pagesize → header_checked bytes pagesize sa1 → allocator_same sa1 sa →
  sa_freelist sa = seqZ 0 (blen bytes / pagesize - 2) ≫=
    free_page_at valid (source_bytes (sa_source sa1)) pagesize (2 * pagesize) →
  allocator_wf sa ∧ sa_pagesize sa = pagesize.
Proof.
  intros Hp Hsize Hu Hhdr Hchk Hsame Hfree. pose proof (is_pow2_range _ Hp) as Hpr. pose proof Hsame as [[_ Hb] Hps].
  pose proof (header_checked_len bytes pagesize sa1 ltac:(lia) Hchk) as Hlen.
  assert (sa_pagesize sa = pagesize) as Hps' by (rewrite Hps; apply Hchk). split; [|done].
  destruct (free_pages_fit valid (source_bytes (sa_source sa1)) pagesize
    (seqZ 0 (blen bytes / pagesize - 2))) as [Hfit Hnd]; [lia|apply NoDup_seqZ| |].
  { apply Forall_forall. intros n Hn%elem_of_seqZ. rewrite Hlen.
    pose proof (Z.div_mod (blen bytes) pagesize ltac:(lia)).
    pose proof (Z.mod_pos_bound (blen bytes) pagesize ltac:(lia)).
    assert ((n + 3) * pagesize ≤ (blen bytes / pagesize) * pagesize)
      by (apply Z.mul_le_mono_nonneg_r; lia). lia. }
  split; rewrite ?Hps', ?Hb, ?Hfree, ?Hlen; rewrite ?Hlen in Hfit; done.
Qed.

(** C30: opening a source frees exactly the pages behind the header and meta
    pages whose content [valid] rejects, in address order, and leaves the
    allocator well formed over a valid header. *)
Theorem SourceAllocator_new_free_pages (source : D) pagesize valid sa :
  let bytes := source_bytes source in
  is_pow2 pagesize → size_of_SourceHeader ≤ pagesize → 2 * pagesize ≤ blen bytes →
  is_usize (blen bytes) →
  SourceAllocator_new source pagesize valid = Ok sa →
  allocator_wf sa ∧ sa_pagesize sa = pagesize ∧
  sa_freelist sa = seqZ 0 (blen bytes / pagesize - 2) ≫=
    free_page_at valid (source_bytes (sa_source sa)) pagesize (2 * pagesize) ∧
  let hdr := SourceHeader_decode (source_bytes (sa_source sa)) in
  SourceHeader_is_valid hdr = true ∧ sh_pagesize (sh_data hdr) = pagesize.
Proof.
  intros bytes Hp Hhdr Hsize Hu E. pose proof (is_pow2_range _ Hp) as Hpr.
  apply SourceAllocator_new_inv, SourceAllocator_initialize_ok in E; [|done..].
  destruct E as (sa1 & Hchk & Hsame & Hf1 & Hfree).
  destruct (initialized_wf valid bytes pagesize sa1 sa) as [Hwf Hps]; [done..|].
  pose proof Hsame as [[_ Hb] _]. split_and!; [done|done|by rewrite Hb|].
  eapply (header_checked_valid bytes); eauto; usize.
Qed.

Lemma SourceAllocator_allocate_page_eq (sa : SourceAllocator D) page rest : allocator_wf sa →
  sa_freelist sa = page :: rest →
  SourceAllocator_allocate_page sa = (Ok page, with_freelist rest sa) ∧
  allocator_wf (with_freelist rest sa) ∧
  page_fits (sa_pagesize sa) (blen (source_bytes (sa_source sa))) page ∧
  Forall (λ q, apart (page_offset page, page_len page) (page_offset q, page_len q)) rest.
Proof.
  intros [Hp Hu Hfit Hnd] E. pose proof (is_pow2_range _ Hp) as Hpr.
  unfold SourceAllocator_allocate_page. rewrite (bind_ok _ _ _ sa sa) by done.
  rewrite E in Hfit, Hnd |- *. destruct page as [off len].
  apply Forall_cons in Hfit as [Hfp Hfit]. apply NoDup_cons in Hnd as [Hnotin Hnd].
  pose proof Hfp as (Hlen & [q Hq] & Hlo & Hhi). simpl in Hlen, Hq, Hlo, Hhi. subst len.
  assert (Page_split (Page_new off (sa_pagesize sa)) (sa_pagesize sa) =
    Ok (Page_new (off + sa_pagesize sa) 0, Some (Page_new off (sa_pagesize sa)))) as Hsplit.
  { unfold Page_split. simpl. rewrite decide_False by lia. rewrite usize_add_ok, usize_sub_ok by usize.
    simpl. do 3 f_equal. lia. }
  split_and!.
  - run_M. rewrite Hsplit. simpl. run_M. done.
  - by split.
  - done.
  - apply Forall_forall. intros p Hin. eapply page_fits_apart; [|exact Hfp| |].
    + lia.
    + by eapply Forall_forall in Hfit.
    + intros <-. done.
Qed.

(** [allocate_page] on a well-formed allocator takes the first free page
    off the list, apart from every page that stays on it, and keeps the
    allocator well formed; without a free page it fails and changes nothing. *)
Lemma SourceAllocator_allocate_page_ok (sa : SourceAllocator D) : allocator_wf sa →
  match sa_freelist sa with
  | [] => SourceAllocator_allocate_page sa = (Err NoAvailableMemory, sa)
  | page :: rest =>
      SourceAllocator_allocate_page sa = (Ok page, with_freelist rest sa) ∧
      allocator_wf (with_freelist rest sa) ∧
      page_fits (sa_pagesize sa) (blen (source_bytes (sa_source sa))) page ∧
      Forall (λ q, apart (page_offset page, page_len page) (page_offset q, page_len q)) rest
  end.
Proof.
  intros Hwf. destruct (sa_freelist sa) as [|page rest] eqn:E.
  - unfold SourceAllocator_allocate_page. rewrite (bind_ok _ _ _ sa sa) by done. by rewrite E.
  - by apply SourceAllocator_allocate_page_eq.
Qed.

(** C31: a source that was opened with one page size is refused with another,
    whatever kind of source it is, unless its header cannot be read: then it is
    refused with the error of that. *)
Theorem SourceAllocator_new_wrong_pagesize (source : D) pagesize pagesize' valid valid' sa :
  let bytes := source_bytes source in
  is_pow2 pagesize → size_of_SourceHeader ≤ pagesize → 2 * pagesize ≤ blen bytes →
  size_of_SourceHeader ≤ pagesize' ≤ blen bytes → is_usize (blen bytes) →
  SourceAllocator_new source pagesize valid = Ok sa →
  pagesize' ≠ pagesize →
  SourceAllocator_new (sa_source sa) pagesize' valid' =
    match (source_read 0 pagesize' (sa_source sa)).1 with
    | Ok _ => Err (WrongPagesize pagesize pagesize')
    | Fail f => Fail f
    end.
Proof.
  intros bytes Hp Hhdr Hsize Hsize' Hu E Hne. pose proof (is_pow2_range _ Hp) as Hpr.
  apply SourceAllocator_new_inv, SourceAllocator_initialize_ok in E; [|done..].
  destruct E as (sa1 & Hchk & Hsame & Hf1 & _).
  pose proof (header_checked_valid bytes pagesize sa1 sa ltac:(usize) ltac:(lia) Hchk Hsame)
    as [Hvalid Hstated].
  assert (blen (source_bytes (sa_source sa)) = blen bytes) as Hlen.
  { rewrite <- (header_checked_len bytes pagesize sa1 ltac:(lia) Hchk). by destruct Hsame as [[_ ->] _]. }
  unfold SourceAllocator_new, SourceAllocator_initialize.
  set (sa0 := mk_SourceAllocator (sa_source sa) [] pagesize').
  rewrite (bind_ok _ _ _ sa0 sa0) by done.
  destruct (source_read 0 pagesize' (sa_source sa)) as [[page|f] source'] eqn:Er; cbn [fst];
    pose proof (on_source_eq (source_read 0 pagesize') sa0 _ _ Er) as Eo; step Eo; [|done].
  apply source_read_ok in Er as [-> Hpage]; [|usize..]. set (sa2 := with_device source' sa0).
  rewrite (bind_ok _ _ _ (SourceHeader_decode (slice 0 pagesize' (source_bytes (sa_source sa)))) sa2)
    by (unfold lift; by rewrite any_from_vec_ok by lia).
  rewrite SourceHeader_decode_prefix, Hvalid, Hstated by lia. simpl sa_pagesize.
  rewrite (bind_fail _ _ _ (Throw (WrongPagesize pagesize pagesize')) sa2); [done|].
  by rewrite decide_False by done.
Qed.
End AllocatorTheorems.
