(* ===== verification/Slices.v ===== *)
(** * Logical slices (src/src/las.rs)

    Addresses of the logical address space, the slices of it, and how a slice
    is turned into a page of a source. *)
From S2P Require Import Prelude Utils Source.

(** [type LogicalAddress = usize] *)
Abbreviation LogicalAddress := Z (only parsing).

Record LogicalSlice : Type := LogicalSlice_new { ls_offset : LogicalAddress; ls_len : Z }.

#[export] Instance LogicalSlice_eq_dec : EqDecision LogicalSlice.
Proof. solve_decision. Defined.

Definition LogicalSlice_none : LogicalSlice := LogicalSlice_new 0 0.
Definition LogicalSlice_address (self : LogicalSlice) : LogicalAddress := ls_offset self.

Definition LogicalSlice_len (self : LogicalSlice) : Z := ls_len self.

(** [PageHeader] has no field: pages have no header. *)
Inductive PageHeader : Type := PageHeader_new.
Definition size_of_PageHeader : Z := 0.
Definition PageHeader_init (self : PageHeader) : PageHeader := PageHeader_new.

Section LogicalSlice.
Context `{T : Target}.

Definition LogicalSlice_split_at (self : LogicalSlice) (mid : Z) :
    outcome (LogicalSlice * LogicalSlice) :=
  let left := LogicalSlice_new (ls_offset self) mid in
  offset ← ls_offset self +! mid;
  len ← ls_len self -! mid;
  mret (left, LogicalSlice_new offset len).

Definition LogicalSlice_from_page (page : Page) (base_offset : LogicalAddress) :
    outcome LogicalSlice :=
  offset ← page_offset page +! base_offset;
  offset ← offset +! size_of_PageHeader;
  len ← page_len page -! size_of_PageHeader;
  mret (LogicalSlice_new offset len).

Definition LogicalSlice_from_page_raw (page : Page) (base_offset : LogicalAddress) :
    outcome LogicalSlice :=
  offset ← page_offset page +! base_offset;
  mret (LogicalSlice_new offset (page_len page)).

(** The offset of the slice in [page], a page of the source at [base_offset]. *)
Definition LogicalSlice_page_offset (self : LogicalSlice) (page : Page)
    (base_offset : LogicalAddress) : outcome LogicalAddress :=
  offset ← ls_offset self -! base_offset;
  offset -! page_offset page.

Definition LogicalSlice_to_page (self : LogicalSlice) (pagesize : Z)
    (base_offset : LogicalAddress) : outcome Page :=
  relative ← ls_offset self -! base_offset;
  offset ← align_down relative pagesize;
  len ← align_up (ls_len self) pagesize;
  if decide (len = pagesize) then mret (Page_new offset len) else Fail Panic.

Definition LogicalSlice_page_aligned (self : LogicalSlice) (pagesize : Z) :
    outcome LogicalSlice :=
  offset ← align_down (ls_offset self) pagesize;
  len ← align_up (ls_len self) pagesize;
  mret (LogicalSlice_new offset len).
End LogicalSlice.

(** ** Slices with the kind of storage they are on *)
Record ByteLogicalSlice : Type := mk_ByteLogicalSlice { byte_slice : LogicalSlice }.
Record BlockLogicalSlice : Type := mk_BlockLogicalSlice { block_slice : LogicalSlice }.

Inductive StoredLogicalSlice : Type :=
| Block (slice : BlockLogicalSlice)
| Byte (slice : ByteLogicalSlice).

#[export] Instance StoredLogicalSlice_eq_dec : EqDecision StoredLogicalSlice.
Proof. intros [[x]|[x]] [[y]|[y]]; (right; congruence) || destruct (decide (x = y)) as [->|];
  (by left) || (right; congruence). Defined.

Definition StoredLogicalSlice_new_byte (slice : LogicalSlice) : StoredLogicalSlice :=
  Byte (mk_ByteLogicalSlice slice).

Definition StoredLogicalSlice_new_block (slice : LogicalSlice) : StoredLogicalSlice :=
  Block (mk_BlockLogicalSlice slice).

Definition StoredLogicalSlice_new (slice : LogicalSlice) (byte_addressable : bool) :
    StoredLogicalSlice :=
  match byte_addressable with
  | true => StoredLogicalSlice_new_byte slice
  | false => StoredLogicalSlice_new_block slice
  end.

Definition StoredLogicalSlice_raw (self : StoredLogicalSlice) : LogicalSlice :=
  match self with Block slice => block_slice slice | Byte slice => byte_slice slice end.

Definition StoredLogicalSlice_unwrap_byte (self : StoredLogicalSlice) : outcome ByteLogicalSlice :=
  match self with Block _ => Fail Panic | Byte b => Ok b end.

Definition StoredLogicalSlice_unwrap_block (self : StoredLogicalSlice) : outcome BlockLogicalSlice :=
  match self with Block b => Ok b | Byte _ => Fail Panic end.
