(* ===== verification/Las.v ===== *)
(** * The logical address space (src/src/las.rs)

    Sources mapped at base offsets of one address space; translation of
    logical slices to memory; page allocation; the page table from volatile
    pages to their backing on persistent storage, and the flush and fetch
    between the two. *)
From S2P Require Import Prelude Utils Source SourceAllocator Slices.

(** ** [BTreeMap<LogicalAddress, _>]

    The entries in key order. *)
Section BTreeMap.
Context {V : Type}.

(** [BTreeMap::insert]: an entry with the key is replaced. *)
Fixpoint btree_insert (k : Z) (v : V) (m : list (Z * V)) : list (Z * V) :=
  match m with
  | [] => [(k, v)]
  | (k', v') :: m' =>
      if decide (k < k') then (k, v) :: m
      else if decide (k = k') then (k, v) :: m'
      else (k', v') :: btree_insert k v m'
  end.

(** The entries of [range(start..finish)]; an inverted range panics. *)
Definition btree_range (start finish : Z) (m : list (Z * V)) : outcome (list (Z * V)) :=
  if decide (finish < start) then Fail Panic
  else Ok (filter (λ e, start ≤ e.1 < finish) m).

(** [range(0..=k).next_back()] *)
Definition btree_last_le (k : Z) (m : list (Z * V)) : option (Z * V) :=
  last (filter (λ e, 0 ≤ e.1 ≤ k) m).

Fixpoint btree_get (k : Z) (m : list (Z * V)) : option V :=
  match m with
  | [] => None
  | (k', v') :: m' => if decide (k' = k) then Some v' else btree_get k m'
  end.

(** Replacing the value the entry shares ([Arc]) with its holders. *)
Fixpoint btree_set (k : Z) (v : V) (m : list (Z * V)) : list (Z * V) :=
  match m with
  | [] => []
  | (k', v') :: m' =>
      if decide (k' = k) then (k', v) :: m' else (k', v') :: btree_set k v m'
  end.
End BTreeMap.

(** ** The meta page *)
Definition ROOT_SIZE : Z := 64.

Record MetaData : Type := mk_MetaData { md_slice : LogicalSlice }.
Record Meta : Type := mk_Meta { meta_data : MetaData; meta_crc : Z; meta_root : list byte }.

Section Meta.
Context `{T : Target} `{C : Crc}.

Definition MetaData_bytes (d : MetaData) : list byte :=
  splice off_ls_len (u64_bytes (ls_len (md_slice d)))
    (splice off_ls_offset (u64_bytes (ls_offset (md_slice d)))
      (padding (Z.to_nat size_of_LogicalSlice))).

Definition Meta_bytes (m : Meta) : list byte :=
  splice off_meta_root (meta_root m)
    (splice off_meta_crc (u32_bytes (meta_crc m))
      (splice off_meta_data (MetaData_bytes (meta_data m)) (padding (Z.to_nat size_of_Meta)))).

Definition MetaData_decode (l : list byte) : MetaData :=
  mk_MetaData (LogicalSlice_new (int_at off_ls_offset 8 l) (int_at off_ls_len 8 l)).

Definition Meta_decode (l : list byte) : Meta :=
  mk_Meta (MetaData_decode (slice off_meta_data size_of_LogicalSlice l))
    (int_at off_meta_crc 4 l) (slice off_meta_root ROOT_SIZE l).

Definition Meta_new (slice : LogicalSlice) : Meta :=
  let data := mk_MetaData slice in
  mk_Meta data (crc MetaData_bytes data) (zeros ROOT_SIZE).

Definition Meta_slice (self : Meta) : LogicalSlice := md_slice (meta_data self).

Definition Meta_is_valid (self : Meta) : bool :=
  bool_decide (meta_crc self = crc MetaData_bytes (meta_data self)).
End Meta.

(** ** References into the address space

    A [&[u8]] or [&mut [u8]] handed out by the address space: a range of the
    memory of the source at base offset [mr_source]. *)
Record memref : Type := mk_memref { mr_source : LogicalAddress; mr_off : Z; mr_len : Z }.

#[export] Instance memref_eq_dec : EqDecision memref.
Proof. solve_decision. Defined.

(** [slice::split_at], [&data[start..end]] *)
Definition memref_split_at (r : memref) (mid : Z) : outcome (memref * memref) :=
  if decide (0 ≤ mid ≤ mr_len r)
  then Ok (mk_memref (mr_source r) (mr_off r) mid,
           mk_memref (mr_source r) (mr_off r + mid) (mr_len r - mid))
  else Fail Panic.

(** [any_from_slice_mut::<T>(r)], and [any_from_slice] of a reference into a
    source's memory: the same bytes as a [T]. *)
Definition any_from_slice_mut `{T : Target} (size align : Z) (r : memref) : outcome memref :=
  if decide (size ≤ mr_len r ∧ aligned align (mr_off r)) then Ok r else Fail Undef.

Lemma any_from_slice_mut_ok `{T : Target} size align r : size ≤ mr_len r → aligned align (mr_off r) →
  any_from_slice_mut size align r = Ok r.
Proof. intros. unfold any_from_slice_mut. by rewrite decide_True. Qed.

Definition memref_index (r : memref) (start finish : Z) : outcome memref :=
  '(o, n) ← index_range start finish (mr_len r);
  mret (mk_memref (mr_source r) (mr_off r + o) n).

Record LogicalMutRef : Type := LogicalMutRef_new { lm_data : memref; lm_slice : LogicalSlice }.

(** [try_consume_bytes]: the reference after the call, and what was consumed. *)
Definition LogicalMutRef_try_consume_bytes `{T : Target} (self : LogicalMutRef) (size min : Z) :
    outcome (LogicalMutRef * option (LogicalSlice * memref)) :=
  let len := Z.min (ls_len (lm_slice self)) size in
  if decide (len < min) then Ok (self, None) else
  let slice := LogicalSlice_new (ls_offset (lm_slice self)) len in
  offset ← ls_offset (lm_slice self) +! len;
  rest ← ls_len (lm_slice self) -! len;
  '(new, old) ← memref_split_at (lm_data self) len;
  mret (LogicalMutRef_new old (LogicalSlice_new offset rest), Some (slice, new)).

(** ** The address space *)
Record LogicalAddressSpace (S : Type) : Type := mk_LogicalAddressSpace {
  las_sources : list (LogicalAddress * SourceAllocator S);
  las_pagesize : Z;
  las_root : StoredLogicalSlice;
  las_root_bytes : ByteLogicalSlice;
  las_backing : gmap LogicalAddress StoredLogicalSlice
}.
Arguments mk_LogicalAddressSpace {S}.
Arguments las_sources {S}.
Arguments las_pagesize {S}.
Arguments las_root {S}.
Arguments las_root_bytes {S}.
Arguments las_backing {S}.

Section Las.
Context `{T : Target} `{C : Crc} {D : Type} `{Src : !Source D}.
Abbreviation LAS := (LogicalAddressSpace D).

Definition with_sources (sources : list (LogicalAddress * SourceAllocator D)) (las : LAS) : LAS :=
  mk_LogicalAddressSpace sources (las_pagesize las) (las_root las) (las_root_bytes las)
    (las_backing las).

Definition with_backing (backing : gmap LogicalAddress StoredLogicalSlice) (las : LAS) : LAS :=
  mk_LogicalAddressSpace (las_sources las) (las_pagesize las) (las_root las)
    (las_root_bytes las) backing.

Definition with_root (root : StoredLogicalSlice) (root_bytes : ByteLogicalSlice) (las : LAS) : LAS :=
  mk_LogicalAddressSpace (las_sources las) (las_pagesize las) root root_bytes (las_backing las).

(** A method call on the allocator mapped at [base_offset]. *)
Definition on_allocator {A} (base_offset : LogicalAddress) (m : M (SourceAllocator D) A) : M LAS A :=
  λ las, match btree_get base_offset (las_sources las) with
  | None => (Fail Undef, las)
  | Some sa =>
      let '(o, sa) := m sa in
      (o, with_sources (btree_set base_offset sa (las_sources las)) las)
  end.

(** Reading and writing through a reference: the bytes must be in the
    source's memory. *)
Definition las_load (base_offset off len : Z) : M LAS (list byte) :=
  on_allocator base_offset (λ sa,
    let bytes := source_bytes (sa_source sa) in
    (if decide (in_range off len (blen bytes)) then Ok (slice off len bytes) else Fail Undef, sa)).

Definition las_store (base_offset off : Z) (data : list byte) : M LAS unit :=
  on_allocator base_offset (λ sa,
    if decide (in_range off (blen data) (blen (source_bytes (sa_source sa))))
    then (Ok tt, mk_SourceAllocator (source_store off data (sa_source sa)) (sa_freelist sa)
                   (sa_pagesize sa))
    else (Fail Undef, sa)).

Definition load_memref (r : memref) : M LAS (list byte) :=
  las_load (mr_source r) (mr_off r) (mr_len r).

(** [dst.copy_from_slice(src)] *)
Definition store_memref (r : memref) (data : list byte) : M LAS unit :=
  assert (bool_decide (blen data = mr_len r)) ;;
  las_store (mr_source r) (mr_off r) data.

(** *** Choosing a source *)
Definition LogicalAddressSpace_get_best_source (f : SourceAllocator D → bool) (las : LAS) :
    option (LogicalAddress * SourceAllocator D) :=
  find (λ e, f e.2) (las_sources las).

Definition LogicalAddressSpace_get_best_persistent (las : LAS) :
    option (LogicalAddress * SourceAllocator D) :=
  LogicalAddressSpace_get_best_source SourceAllocator_is_persistent las.

Definition LogicalAddressSpace_get_best_byte_addressable (las : LAS) :
    option (LogicalAddress * SourceAllocator D) :=
  LogicalAddressSpace_get_best_source SourceAllocator_is_byte_addressable las.

Definition LogicalAddressSpace_root_location (las : LAS) : ByteLogicalSlice := las_root_bytes las.

(** The closure is given the base offset, by which the allocator is reached. *)
Definition LogicalAddressSpace_with_source {R} (slice : LogicalSlice)
    (f : LogicalAddress → SourceAllocator D → M LAS R) : M LAS R :=
  las ← get;
  '(base_offset, source) ← ok_or (btree_last_le (ls_offset slice) (las_sources las))
                             InvalidLogicalAddress;
  f base_offset source.

(** *** Memory *)
Definition LogicalAddressSpace_read (slice : ByteLogicalSlice) : M LAS memref :=
  let raw := byte_slice slice in
  pagesize ← gets las_pagesize;
  LogicalAddressSpace_with_source raw (λ base_offset source,
    assert (SourceAllocator_is_byte_addressable source) ;;
    page ← lift (LogicalSlice_to_page raw pagesize base_offset);
    data ← on_allocator base_offset (SourceAllocator_get_bytes page);
    '(o, n) ← unwrap data;
    start ← lift (LogicalSlice_page_offset raw page base_offset);
    finish ← lift (start +! ls_len raw);
    lift (memref_index (mk_memref base_offset o n) start finish)).

Definition LogicalAddressSpace_write (slice : ByteLogicalSlice) : M LAS memref :=
  let raw := byte_slice slice in
  pagesize ← gets las_pagesize;
  LogicalAddressSpace_with_source raw (λ base_offset source,
    assert (SourceAllocator_is_byte_addressable source) ;;
    page ← lift (LogicalSlice_to_page raw pagesize base_offset);
    data ← on_allocator base_offset (SourceAllocator_get_bytes_mut page);
    '(o, n) ← unwrap data;
    start ← lift (LogicalSlice_page_offset raw page base_offset);
    finish ← lift (start +! ls_len raw);
    lift (memref_index (mk_memref base_offset o n) start finish)).

Definition LogicalAddressSpace_alloc : M LAS LogicalMutRef :=
  las ← get;
  '(base_offset, source) ← ok_or (LogicalAddressSpace_get_best_byte_addressable las)
                             NoAvailableMemory;
  page ← on_allocator base_offset SourceAllocator_allocate_page;
  data ← on_allocator base_offset (SourceAllocator_get_bytes_mut page);
  '(o, n) ← unwrap data;
  slice ← lift (LogicalSlice_from_page page base_offset);
  page_data_offset ← lift (LogicalSlice_page_offset slice page base_offset);
  '(_, udata) ← lift (memref_split_at (mk_memref base_offset o n) page_data_offset);
  mret (LogicalMutRef_new udata slice).

(** [boxed_page_alloc]: the closure an allocator asks for its pages. *)
Definition LogicalAddressSpace_boxed_page_alloc : M LAS LogicalMutRef := LogicalAddressSpace_alloc.

(** Unused; what [new] is given is [VersionedObjectStore::valid_page]. *)
Definition LogicalAddressSpace_page_valid (bytes : list byte) : bool := false.

Definition LogicalAddressSpace_publish (mref : LogicalMutRef) : LogicalSlice := lm_slice mref.

(** *** The page table *)

(** [backing] translated by [offset] into the page, [len] bytes long. *)
Definition backing_slice (backing : StoredLogicalSlice) (offset len : Z) :
    outcome StoredLogicalSlice :=
  address ← LogicalSlice_address (StoredLogicalSlice_raw backing) +! offset;
  let slice := LogicalSlice_new address len in
  mret (match backing with
        | Block _ => StoredLogicalSlice_new_block slice
        | Byte _ => StoredLogicalSlice_new_byte slice
        end).

Definition LogicalAddressSpace_get_backing (slice : ByteLogicalSlice) :
    M LAS (option StoredLogicalSlice) :=
  pagesize ← gets las_pagesize;
  slice_aligned ← lift (LogicalSlice_page_aligned (byte_slice slice) pagesize);
  LogicalAddressSpace_with_source slice_aligned (λ base_offset source,
    page ← lift (LogicalSlice_to_page slice_aligned pagesize base_offset);
    offset ← lift (LogicalSlice_page_offset (byte_slice slice) page base_offset);
    if SourceAllocator_is_persistent source then mret (Some (Byte slice)) else
    backing ← gets (λ las, las_backing las !! LogicalSlice_address slice_aligned);
    match backing with
    | Some backing =>
        stored ← lift (backing_slice backing offset (ls_len (byte_slice slice)));
        mret (Some stored)
    | None => mret None
    end).

Definition LogicalAddressSpace_allocate_backing (key : LogicalAddress) : M LAS unit :=
  las ← get;
  match las_backing las !! key with
  | Some _ => mret tt
  | None =>
      '(base_offset, allocator) ← ok_or (LogicalAddressSpace_get_best_persistent las)
                                    NoAvailableMemory;
      page ← on_allocator base_offset SourceAllocator_allocate_page;
      slice_new ← lift (LogicalSlice_from_page page base_offset);
      modify (λ las, with_backing
        (<[key := StoredLogicalSlice_new slice_new (SourceAllocator_is_byte_addressable allocator)]>
           (las_backing las)) las)
  end.

(** Writing a volatile page out to its backing. *)
Definition flush_to_backing (pagesize : Z) (backing : StoredLogicalSlice) (data : memref) : M LAS unit :=
  LogicalAddressSpace_with_source (StoredLogicalSlice_raw backing) (λ dst_base_offset dst_source,
    assert (SourceAllocator_is_persistent dst_source) ;;
    dst_page ← lift (LogicalSlice_to_page (StoredLogicalSlice_raw backing) pagesize dst_base_offset);
    bytes ← load_memref data;
    on_allocator dst_base_offset (SourceAllocator_write_from dst_page 0 bytes)).

(** [flush] calls itself once its page has a backing: the recursion is
    bounded by [fuel], and two levels are all it takes. *)
Fixpoint flush_loop (fuel : nat) (slice : ByteLogicalSlice) : M LAS StoredLogicalSlice :=
  match fuel with
  | O => fail Diverge
  | S fuel =>
      pagesize ← gets las_pagesize;
      slice_aligned ← lift (LogicalSlice_page_aligned (byte_slice slice) pagesize);
      LogicalAddressSpace_with_source slice_aligned (λ base_offset source,
        assert (SourceAllocator_is_byte_addressable source) ;;
        page ← lift (LogicalSlice_to_page slice_aligned pagesize base_offset);
        data ← on_allocator base_offset (SourceAllocator_get_bytes page);
        '(o, n) ← unwrap data;
        offset ← lift (LogicalSlice_page_offset (byte_slice slice) page base_offset);
        if SourceAllocator_is_persistent source then
          on_allocator base_offset (SourceAllocator_flush_partial (o, n)) ;;
          mret (Byte slice)
        else
          backing ← gets (λ las, las_backing las !! LogicalSlice_address slice_aligned);
          match backing with
          | Some backing =>
              flush_to_backing pagesize backing (mk_memref base_offset o n) ;;
              lift (backing_slice backing offset (ls_len (byte_slice slice)))
          | None =>
              LogicalAddressSpace_allocate_backing (LogicalSlice_address slice_aligned) ;;
              flush_loop fuel slice
          end)
  end.

Definition LogicalAddressSpace_flush : ByteLogicalSlice → M LAS StoredLogicalSlice := flush_loop 2.

(** Bringing the page of a stored slice into fresh memory. *)
Definition LogicalAddressSpace_fetch (slice : StoredLogicalSlice) : M LAS ByteLogicalSlice :=
  let raw := StoredLogicalSlice_raw slice in
  pagesize ← gets las_pagesize;
  '(offset, src_data) ← LogicalAddressSpace_with_source raw (λ base_offset _,
    page ← lift (LogicalSlice_to_page raw pagesize base_offset);
    src_data ← on_allocator base_offset (SourceAllocator_read_into page 0 pagesize);
    offset ← lift (LogicalSlice_page_offset raw page base_offset);
    mret (offset, src_data));
  page ← LogicalAddressSpace_alloc;
  store_memref (lm_data page) src_data ;;
  address ← lift (LogicalSlice_address (lm_slice page) +! offset);
  mret (mk_ByteLogicalSlice (LogicalSlice_new address (ls_len raw))).

(** ** Opening the sources *)

(** What the first loop of [new] accumulates. *)
Record opening : Type := mk_opening {
  op_sources : list (LogicalAddress * SourceAllocator D);
  op_unallocated : list (SourceAllocator D);
  op_root : option StoredLogicalSlice
}.

(** A source whose meta page is valid is mapped where the page says. *)
Definition new_map_source (acc : opening) (metap : Meta) (allocator : SourceAllocator D) :
    outcome opening :=
  root ← (if forallb (λ v, bool_decide (v = Byte.x00)) (meta_root metap) then Ok (op_root acc)
          else match op_root acc with
               | Some _ => Err RootExists
               | None =>
                   address ← ls_offset (Meta_slice metap) +! off_meta_root;
                   mret (Some (StoredLogicalSlice_new (LogicalSlice_new address ROOT_SIZE)
                                 (SourceAllocator_is_byte_addressable allocator)))
               end);
  let start := ls_offset (Meta_slice metap) in
  finish ← start +! ls_len (Meta_slice metap);
  finish ← finish -! 1;
  mapped ← btree_range start finish (op_sources acc);
  if decide (length mapped = O)
  then mret (mk_opening (btree_insert start allocator (op_sources acc)) (op_unallocated acc) root)
  else Err InvalidLogicalAddress.

(** One iteration of the first loop. *)
Definition new_open_source (pagesize : Z) (valid : list byte → outcome bool) (create : bool)
    (acc : opening) (source : D) : outcome opening :=
  allocator ← SourceAllocator_new source pagesize valid;
  let metapage := SourceAllocator_get_meta allocator in
  let '(data, allocator) := SourceAllocator_read_into metapage 0 pagesize allocator in
  data ← data;
  metap ← any_from_slice size_of_Meta 8 Meta_decode vec_address data;
  if Meta_is_valid metap then new_map_source acc metap allocator
  else if negb create then Err OpenOnUninitialized
  else mret (mk_opening (op_sources acc) (op_unallocated acc ++ [allocator]) (op_root acc)).

(** One iteration of the second loop: a fresh source is mapped after the
    last one and its meta page is written. *)
Definition new_place_source (sources : list (LogicalAddress * SourceAllocator D))
    (source : SourceAllocator D) : outcome (list (LogicalAddress * SourceAllocator D)) :=
  '(offset, sources) ← (match last sources with
            | None => Ok (0, sources)
            | Some (offset, allocator) =>
                let '(length, allocator) := SourceAllocator_length allocator in
                length ← length;
                offset' ← offset +! length;
                mret (offset', btree_set offset allocator sources)
            end);
  let '(length, source) := SourceAllocator_length source in
  length ← length;
  let meta := Meta_new (LogicalSlice_new offset length) in
  let metapage := SourceAllocator_get_meta source in
  let '(written, source) := SourceAllocator_write_from metapage 0 (Meta_bytes meta) source in
  written ;;
  mret (btree_insert (ls_offset (Meta_slice meta)) source sources).

Fixpoint fold_outcome {A B} (f : A → B → outcome A) (acc : A) (xs : list B) : outcome A :=
  match xs with
  | [] => mret acc
  | x :: xs => acc ← f acc x; fold_outcome f acc xs
  end.

(** Where a new heap keeps its root: on the first persistent source, else
    the first byte-addressable one. *)
Definition new_choose_root (las : LAS) : outcome StoredLogicalSlice :=
  match (match LogicalAddressSpace_get_best_persistent las with
         | Some e => Some e
         | None => LogicalAddressSpace_get_best_byte_addressable las
         end) with
  | None => Err NoAvailableMemory
  | Some (base_offset, source) =>
      let metapage := SourceAllocator_get_meta source in
      address ← base_offset +! page_offset metapage;
      address ← address +! off_meta_root;
      mret (StoredLogicalSlice_new (LogicalSlice_new address ROOT_SIZE)
              (SourceAllocator_is_byte_addressable source))
  end.

(** The last part of [new]: the root is made byte addressable. *)
Definition new_load_root : M LAS unit :=
  las ← get;
  match las_root las with
  | Byte slice => modify (with_root (las_root las) slice)
  | Block block =>
      slice_aligned ← lift (LogicalSlice_page_aligned (block_slice block) (las_pagesize las));
      let slice := StoredLogicalSlice_new_block slice_aligned in
      root_bytes ← LogicalAddressSpace_fetch slice;
      data ← LogicalAddressSpace_read root_bytes;
      lift (any_from_slice_mut size_of_Meta 8 data) ;;
      let address := LogicalSlice_address (byte_slice root_bytes) in
      modify (λ las, with_backing (<[address := slice]> (las_backing las)) las) ;;
      address ← lift (address +! off_meta_root);
      modify (with_root (las_root las) (mk_ByteLogicalSlice
        (LogicalSlice_new address (ls_len (StoredLogicalSlice_raw (las_root las))))))
  end.

Definition LogicalAddressSpace_new (pagesize : Z) (raw_sources : list D)
    (valid : list byte → outcome bool) (create : bool) : outcome LAS :=
  acc ← fold_outcome (new_open_source pagesize valid create) (mk_opening [] [] None) raw_sources;
  sources ← fold_outcome new_place_source (op_sources acc) (op_unallocated acc);
  let none := StoredLogicalSlice_new_byte LogicalSlice_none in
  let las := mk_LogicalAddressSpace sources pagesize none (mk_ByteLogicalSlice LogicalSlice_none) ∅ in
  root ← (match op_root acc with
          | Some root => Ok root
          | None => if create then new_choose_root las else Fail Panic
          end);
  let '(loaded, las) := new_load_root (with_root root (las_root_bytes las) las) in
  loaded ;; Ok las.
End Las.
