(* ===== verification/Opening.v ===== *)
(** * Opening a heap

    How [LogicalAddressSpace::new] lays the sources out and where it looks for
    the root. *)
From S2P Require Import Prelude Utils Source SourceAllocator Slices Las.

Section Opening.
Context `{T : Target} `{C : Crc} {D : Type} `{Src : !Source D}.

(** C33: a heap that is opened again does not look for its root where it was
    created: the creation puts the root in the meta page of its source, one page
    behind the source's base, and reopening looks for it in the first page, as
    it leaves the page's offset out. *)
Theorem root_location_moves (las : LogicalAddressSpace D) b sa meta acc acc' :
  LogicalAddressSpace_get_best_persistent las = Some (b, sa) →
  0 ≤ b → 0 ≤ off_meta_root → 0 < sa_pagesize sa → b + sa_pagesize sa + off_meta_root < usize_modulus →
  ls_offset (Meta_slice meta) = b → Exists (λ v, v ≠ Byte.x00) (meta_root meta) → op_root acc = None →
  new_map_source acc meta sa = Ok acc' →
  ∃ created reopened, new_choose_root las = Ok created ∧ op_root acc' = Some reopened ∧
    ls_offset (StoredLogicalSlice_raw created) = b + sa_pagesize sa + off_meta_root ∧
    ls_offset (StoredLogicalSlice_raw reopened) = b + off_meta_root.
Proof.
  intros Hbest Hb Hoff Hps Hu Hmeta Hroot Hacc E.
  exists (StoredLogicalSlice_new (LogicalSlice_new (b + sa_pagesize sa + off_meta_root) ROOT_SIZE)
    (SourceAllocator_is_byte_addressable sa)).
  exists (StoredLogicalSlice_new (LogicalSlice_new (b + off_meta_root) ROOT_SIZE)
    (SourceAllocator_is_byte_addressable sa)).
  assert (∀ x k, ls_offset (StoredLogicalSlice_raw (StoredLogicalSlice_new (LogicalSlice_new x ROOT_SIZE) k)) = x) as Hraw
    by (intros x []; done).
  rewrite !Hraw. split_and!; try done.
  - unfold new_choose_root. rewrite Hbest. unfold SourceAllocator_get_meta. cbn [page_offset].
    rewrite usize_add_ok by usize. cbn [mbind outcome_bind]. by rewrite usize_add_ok by usize.
  - unfold new_map_source in E. assert (forallb (λ v, bool_decide (v = Byte.x00)) (meta_root meta) = false) as Hz.
    { apply not_true_is_false. rewrite forallb_forall. intros Hall. apply Exists_exists in Hroot as (v & Hv & Hne).
      apply list_elem_of_In in Hv. specialize (Hall v Hv). by apply bool_decide_eq_true in Hall. }
    rewrite Hz, Hacc, Hmeta in E. rewrite (usize_add_ok b off_meta_root) in E by usize. cbn [mbind outcome_bind mret outcome_ret] in E.
    destruct (b +! ls_len (Meta_slice meta)) as [x|]; [|done]. cbn [mbind outcome_bind] in E.
    destruct (x -! 1) as [y|]; [|done]. cbn [mbind outcome_bind] in E.
    destruct (btree_range b y (op_sources acc)) as [z|]; [|done]. cbn [mbind outcome_bind] in E.
    case_decide; [|done]. by injection E as <-.
Qed.
End Opening.
