(* ===== verification/Memory.v ===== *)
(** * The address space as memory

    The view the versioned store has of the address space: ranges of bytes of
    its sources that can be read and written, what a store changes, and the
    address translation of [read] and [write] on the ranges it is defined on. *)
From S2P Require Import Prelude Utils Source SourceAllocator Slices Las.

(** ** Sources by base offset *)
Section BTreeLemmas.
Context {V : Type}.
Implicit Types (m : list (Z * V)).

Lemma btree_get_set_eq k v m v' : btree_get k m = Some v' → btree_get k (btree_set k v m) = Some v.
Proof.
  induction m as [|[k' w] m IH]; simpl; [done|].
  case_decide; simpl; [by rewrite decide_True|]. rewrite decide_False by done. auto.
Qed.

Lemma btree_get_set_ne k k' v m : k ≠ k' → btree_get k (btree_set k' v m) = btree_get k m.
Proof.
  intros Hne. induction m as [|[k1 w] m IH]; simpl; [done|].
  case_decide; simpl; [|by rewrite IH]. by rewrite !decide_False by congruence.
Qed.

Lemma btree_set_get k v m : btree_get k m = Some v → btree_set k v m = m.
Proof.
  induction m as [|[k' w] m IH]; simpl; [done|]. case_decide; [by intros [= ->]|].
  intros Hg. by rewrite IH.
Qed.

Lemma btree_set_set k v w m : btree_set k w (btree_set k v m) = btree_set k w m.
Proof.
  induction m as [|[k' x] m IH]; simpl; [done|]. case_decide; simpl.
  - by rewrite decide_True.
  - rewrite decide_False by done. by rewrite IH.
Qed.

Lemma btree_set_keys k v m : (btree_set k v m).*1 = m.*1.
Proof. induction m as [|[k' w] m IH]; simpl; [done|]. case_decide; csimpl; [done|by rewrite IH]. Qed.

(** With each key once, what an ordered query finds is what lookup finds. *)
Lemma btree_get_elem k v m : NoDup m.*1 → (k, v) ∈ m → btree_get k m = Some v.
Proof.
  induction m as [|[k' w] m IH]; simpl; [by intros _ ?%elem_of_nil|].
  intros [Hn Hnd]%NoDup_cons [[= -> ->]|Hin]%elem_of_cons; [by rewrite decide_True|].
  rewrite decide_False; [by apply IH|].
  intros ->. apply Hn. apply list_elem_of_fmap. by exists (k, v).
Qed.

Lemma btree_get_elem_2 k v m : btree_get k m = Some v → (k, v) ∈ m.
Proof.
  induction m as [|[k' w] m IH]; simpl; [done|].
  case_decide; [intros [= ->]; subst; by left | intros; right; auto].
Qed.

(** The key an ordered query finds depends on the keys only. *)
Lemma btree_last_le_key k m :
  fst <$> btree_last_le k m = last (filter (λ k', 0 ≤ k' ≤ k) m.*1).
Proof.
  unfold btree_last_le. rewrite <- fmap_last. f_equal.
  induction m as [|[k' v] m IH]; [done|]. rewrite fmap_cons, !filter_cons.
  cbn [fst]. case_decide; [by rewrite fmap_cons, IH | done].
Qed.

Lemma btree_last_le_Some k b v m : btree_last_le k m = Some (b, v) → 0 ≤ b ≤ k ∧ (b, v) ∈ m.
Proof.
  unfold btree_last_le. intros H. apply last_Some in H as [l H].
  assert ((b, v) ∈ filter (λ e, 0 ≤ e.1 ≤ k) m) as Hin by (rewrite H; set_solver).
  apply list_elem_of_filter in Hin. done.
Qed.
End BTreeLemmas.

(** ** The view *)
Section View.
Context `{T : Target} `{C : Crc} {D : Type} `{Src : !Source D}.
Abbreviation LAS := (LogicalAddressSpace D).

Definition las_get (las : LAS) (b : LogicalAddress) : option (SourceAllocator D) :=
  btree_get b (las_sources las).

(** The base offset of the source an address belongs to. *)
Definition las_home (las : LAS) (a : LogicalAddress) : option LogicalAddress :=
  fst <$> btree_last_le a (las_sources las).

(** The bytes of a range of the source at [b], when they exist. *)
Definition mem (las : LAS) (b off len : Z) : option (list byte) :=
  sa ← las_get las b;
  let bytes := source_bytes (sa_source sa) in
  if decide (in_range off len (blen bytes)) then Some (slice off len bytes) else None.

Definition byte_source (las : LAS) (b : Z) : Prop :=
  ∃ sa, las_get las b = Some sa ∧ SourceAllocator_is_byte_addressable sa = true.

(** The address space after a store. *)
Definition put (b off : Z) (data : list byte) (las : LAS) : LAS :=
  match las_get las b with
  | Some sa => with_sources (btree_set b (with_device (source_store off data (sa_source sa)) sa)
                               (las_sources las)) las
  | None => las
  end.

(** What stores and page allocations leave alone: which sources are mapped
    where, of which kind and size. *)
Definition source_shape (e : LogicalAddress * SourceAllocator D) : Z * (bool * bool) * Z * Z :=
  (e.1, source_flags (sa_source e.2), blen (source_bytes (sa_source e.2)), sa_pagesize e.2).
Definition las_shape (las : LAS) : Z * list (Z * (bool * bool) * Z * Z) :=
  (las_pagesize las, source_shape <$> las_sources las).

(** A well-formed address space: page-sized translation is defined, each
    base offset is mapped once, and every address is a [usize]. *)
Record las_wf (las : LAS) : Prop := {
  las_wf_pagesize : is_pow2 (las_pagesize las);
  las_wf_keys : NoDup (las_sources las).*1;
  las_wf_size b sa : las_get las b = Some sa →
    0 ≤ b ∧ b + blen (source_bytes (sa_source sa)) < usize_modulus ∧
    sa_pagesize sa = las_pagesize las
}.

(** The ranges [read] is defined on: one page of a byte-addressable source. *)
Record byte_range (las : LAS) (a len b : Z) : Prop := {
  br_home : las_home las a = Some b;
  br_len : 0 < len;
  br_page : (a - b) mod las_pagesize las + len ≤ las_pagesize las;
  br_source : ∃ sa, las_get las b = Some sa ∧ SourceAllocator_is_byte_addressable sa = true ∧
    (a - b) - (a - b) mod las_pagesize las + las_pagesize las ≤ blen (source_bytes (sa_source sa))
}.
End View.

Section MemoryLemmas.
Context `{T : Target} `{C : Crc} {D : Type} `{Src : !Source D} `{Laws : !SourceLaws D}.
Abbreviation LAS := (LogicalAddressSpace D).
Implicit Types (las : LAS).

Lemma with_sources_id las : with_sources (las_sources las) las = las.
Proof. by destruct las. Qed.

Lemma on_allocator_eq {A} (m : M (SourceAllocator D) A) las b sa o sa' :
  las_get las b = Some sa → m sa = (o, sa') →
  on_allocator b m las = (o, with_sources (btree_set b sa' (las_sources las)) las).
Proof. intros Hg Hm. unfold on_allocator. unfold las_get in Hg. by rewrite Hg, Hm. Qed.

(** A call that leaves the allocator as it was leaves the address space. *)
Lemma on_allocator_same {A} (m : M (SourceAllocator D) A) las b sa o :
  las_get las b = Some sa → m sa = (o, sa) → on_allocator b m las = (o, las).
Proof.
  intros Hg Hm. rewrite (on_allocator_eq m las b sa o sa) by done.
  by rewrite btree_set_get, with_sources_id.
Qed.

Lemma mem_Some las b off len bs : mem las b off len = Some bs ↔
  ∃ sa, las_get las b = Some sa ∧ in_range off len (blen (source_bytes (sa_source sa))) ∧
        bs = slice off len (source_bytes (sa_source sa)).
Proof.
  unfold mem. destruct (las_get las b) as [sa|]; simpl; [|by split; [|intros (? & ? & _)]].
  case_decide as Hr; split.
  - intros [= <-]. eauto.
  - by intros (? & [= <-] & _ & ->).
  - done.
  - by intros (? & [= <-] & ? & _).
Qed.

Lemma mem_length las b off len bs : mem las b off len = Some bs → blen bs = len.
Proof. intros (sa & _ & Hr & ->)%mem_Some. by apply blen_slice. Qed.

Lemma las_load_ok las b off len bs : mem las b off len = Some bs →
  las_load b off len las = (Ok bs, las).
Proof.
  intros (sa & Hg & Hr & ->)%mem_Some. unfold las_load.
  apply (on_allocator_same _ _ _ sa); [done|]. by rewrite decide_True.
Qed.

Lemma las_store_ok las b off data : is_Some (mem las b off (blen data)) →
  las_store b off data las = (Ok tt, put b off data las).
Proof.
  intros [bs (sa & Hg & Hr & _)%mem_Some]. unfold las_store, put. rewrite Hg.
  apply (on_allocator_eq _ _ _ sa); [done|]. by rewrite decide_True.
Qed.

Lemma las_get_put las b off data b' : las_get (put b off data las) b' =
  if decide (b' = b) then
    (λ sa, with_device (source_store off data (sa_source sa)) sa) <$> las_get las b
  else las_get las b'.
Proof.
  unfold put. destruct (las_get las b) as [sa|] eqn:E; unfold las_get in *.
  - case_decide; [subst; by eapply btree_get_set_eq | by apply btree_get_set_ne].
  - case_decide; by subst.
Qed.

(** *** Reading back *)
Lemma mem_put_same las b off data :
  byte_source las b → is_Some (mem las b off (blen data)) →
  mem (put b off data las) b off (blen data) = Some data.
Proof.
  intros (sa & Hg & Hb) [bs (sa' & Hg' & Hr & _)%mem_Some]. simplify_eq.
  apply mem_Some. rewrite las_get_put, decide_True, Hg by done. eexists; split; [done|].
  simpl. rewrite source_store_bytes by done. rewrite blen_splice, slice_splice_same by done. done.
Qed.

Lemma mem_put_apart las b off data b' o n :
  byte_source las b → is_Some (mem las b off (blen data)) →
  b' ≠ b ∨ apart (o, n) (off, blen data) →
  mem (put b off data las) b' o n = mem las b' o n.
Proof.
  intros (sa & Hg & Hb) [bs (sa' & Hg' & Hr & _)%mem_Some] Hap. simplify_eq.
  unfold mem. rewrite las_get_put. case_decide as Heq; [subst b'|done].
  destruct Hap as [|Hap]; [done|]. rewrite Hg. simpl.
  rewrite source_store_bytes, blen_splice by done.
  case_decide as Hin; [|done]. rewrite slice_splice_apart; [done|done|apply Hin|done].
Qed.

(** What a store leaves of a range around it. *)
Lemma mem_put_inside las b off n bs o data : byte_source las b → mem las b off n = Some bs → 0 ≤ o → o + blen data ≤ n →
  mem (put b (off + o) data las) b off n = Some (splice o data bs).
Proof.
  intros (sa & Hg & Hb) (sa' & Hg' & Hr & ->)%mem_Some Ho Hle. simplify_eq. pose proof (blen_nonneg data) as Hn.
  assert (in_range (off + o) (blen data) (blen (source_bytes (sa_source sa)))) as Hr' by (unfold in_range in *; lia).
  apply mem_Some. rewrite las_get_put, decide_True, Hg by done. eexists; split; [done|].
  simpl. rewrite source_store_bytes by done. rewrite blen_splice by done. split; [done|].
  symmetry. apply slice_splice_around; [done|unfold in_range in *; lia].
Qed.

Lemma put_put_same las b off data data' : byte_source las b →
  is_Some (mem las b off (blen data)) → blen data' = blen data →
  mem (put b off data' (put b off data las)) b off (blen data) = Some data'.
Proof.
  intros Hb Hm Hl. rewrite <- Hl. apply mem_put_same.
  - destruct Hb as (sa & Hg & Hb). eexists. rewrite las_get_put, decide_True, Hg by done.
    split; [done|]. unfold SourceAllocator_is_byte_addressable in *.
    pose proof (source_store_flags off data (sa_source sa)) as Hf. unfold source_flags in Hf. simpl. congruence.
  - rewrite Hl. by rewrite mem_put_same.
Qed.

(** *** Shape *)
Lemma las_shape_set las b sa sa' : las_get las b = Some sa →
  source_flags (sa_source sa') = source_flags (sa_source sa) →
  blen (source_bytes (sa_source sa')) = blen (source_bytes (sa_source sa)) →
  sa_pagesize sa' = sa_pagesize sa →
  las_shape (with_sources (btree_set b sa' (las_sources las)) las) = las_shape las.
Proof.
  intros Hg Hf Hl Hp. unfold las_shape. simpl. f_equal. unfold las_get in Hg. revert Hg.
  induction (las_sources las) as [|[k w] m IH]; simpl; [done|]. intros Hg.
  destruct (decide (k = b)); csimpl; [|by rewrite IH].
  injection Hg as ->. unfold source_shape. simpl. by rewrite Hf, Hl, Hp.
Qed.

Lemma las_shape_put las b off data : is_Some (mem las b off (blen data)) → byte_source las b →
  las_shape (put b off data las) = las_shape las.
Proof.
  intros [bs (sa' & Hg' & Hr & _)%mem_Some] (sa & Hg & Hb). simplify_eq.
  unfold put. rewrite Hg'. apply las_shape_set with sa'; simpl; [done|apply source_store_flags| |done].
  by rewrite source_store_bytes, blen_splice.
Qed.

Lemma las_shape_get las las' b sa : las_shape las' = las_shape las → las_get las b = Some sa →
  ∃ sa', las_get las' b = Some sa' ∧
    source_flags (sa_source sa') = source_flags (sa_source sa) ∧
    blen (source_bytes (sa_source sa')) = blen (source_bytes (sa_source sa)) ∧
    sa_pagesize sa' = sa_pagesize sa.
Proof.
  unfold las_shape, las_get. intros [= _ Hs]. revert Hs. generalize (las_sources las').
  induction (las_sources las) as [|[k w] m IH]; intros [|[k' w'] m'] Hs; simpl in *; try done.
  injection Hs as Hk Hf1 Hf2 Hl Hp Hs. subst k'. case_decide; [|by apply IH].
  intros [= ->]. exists w'. unfold source_flags. by rewrite Hf1, Hf2.
Qed.

Lemma las_shape_keys las las' : las_shape las' = las_shape las →
  (las_sources las').*1 = (las_sources las).*1.
Proof.
  intros [= _ Hs]. apply (f_equal (fmap (λ x, x.1.1.1))) in Hs.
  rewrite <- !list_fmap_compose in Hs. done.
Qed.

Lemma las_shape_home las las' a : las_shape las' = las_shape las → las_home las' a = las_home las a.
Proof.
  intros Hs%las_shape_keys. unfold las_home. by rewrite !btree_last_le_key, Hs.
Qed.

Lemma las_wf_shape las las' : las_shape las' = las_shape las → las_wf las → las_wf las'.
Proof.
  intros Hs [H1 H2 H3]. pose proof Hs as [= Hp _]. split; [by rewrite Hp | by erewrite las_shape_keys|].
  intros b sa' Hg'. destruct (las_shape_get las' las b sa') as (sa & Hg & Hf & Hl & Hps); [done..|].
  rewrite <- Hl, <- Hps, Hp. eauto.
Qed.

Lemma byte_source_shape las las' b : las_shape las' = las_shape las → byte_source las b → byte_source las' b.
Proof.
  intros Hs (sa & Hg & Hb). destruct (las_shape_get las las' b sa) as (sa' & Hg' & Hf & _); [done..|].
  exists sa'. split; [done|]. unfold SourceAllocator_is_byte_addressable, source_flags in *. congruence.
Qed.

Lemma byte_range_shape las las' a len b :
  las_shape las' = las_shape las → byte_range las a len b → byte_range las' a len b.
Proof.
  intros Hs [H1 H2 H3 (sa & Hg & Hb & Hl)]. pose proof Hs as [= Hp _].
  destruct (las_shape_get las las' b sa) as (sa' & Hg' & Hf & Hlen & _); [done..|].
  split; rewrite ?Hp; [by erewrite las_shape_home|done|done|].
  exists sa'. split; [done|]. rewrite Hlen. split; [|done].
  unfold SourceAllocator_is_byte_addressable, source_flags in *. congruence.
Qed.

(** *** Translation *)
Lemma las_home_with_source las a b : las_wf las → las_home las a = Some b →
  ∃ sa, btree_last_le a (las_sources las) = Some (b, sa) ∧ las_get las b = Some sa ∧ 0 ≤ b ≤ a.
Proof.
  unfold las_home. intros Hwf. destruct (btree_last_le a (las_sources las)) as [[b' sa]|] eqn:E; [|done].
  intros [= ->]. exists sa. split; [done|]. apply btree_last_le_Some in E as [Hle Hin].
  split; [|done]. apply btree_get_elem; [apply Hwf|done].
Qed.

Lemma with_source_eq {R} las a len b sa (f : LogicalAddress → SourceAllocator D → M LAS R) :
  btree_last_le a (las_sources las) = Some (b, sa) →
  LogicalAddressSpace_with_source (LogicalSlice_new a len) f las = f b sa las.
Proof. intros E. unfold LogicalAddressSpace_with_source. run_M. simpl. by rewrite E. Qed.

(** The page of a slice that does not cross a page, and its place in it. *)
Lemma to_page_ok a len pagesize b :
  is_pow2 pagesize → 0 ≤ b ≤ a → is_usize a → 0 < len ≤ pagesize →
  LogicalSlice_to_page (LogicalSlice_new a len) pagesize b =
    Ok (Page_new ((a - b) - (a - b) mod pagesize) pagesize).
Proof.
  intros Hp Hb Ha Hl. unfold LogicalSlice_to_page. simpl.
  rewrite usize_sub_ok by usize. simpl. rewrite align_down_eq by (done || usize). simpl.
  rewrite align_up_page by done. simpl. by rewrite decide_True.
Qed.

Lemma page_offset_ok a len b o n : 0 ≤ b → is_usize a → 0 ≤ o → b + o ≤ a →
  LogicalSlice_page_offset (LogicalSlice_new a len) (Page_new o n) b = Ok (a - b - o).
Proof.
  intros. unfold LogicalSlice_page_offset. simpl. rewrite usize_sub_ok by usize. simpl.
  by rewrite usize_sub_ok by usize.
Qed.

Lemma byte_range_facts las a len b : las_wf las → byte_range las a len b →
  let ps := las_pagesize las in
  ∃ sa, btree_last_le a (las_sources las) = Some (b, sa) ∧ las_get las b = Some sa ∧
    SourceAllocator_is_byte_addressable sa = true ∧ 0 ≤ b ≤ a ∧ 0 < ps ∧ 0 < len ≤ ps ∧
    0 ≤ (a - b) mod ps < ps ∧ (a - b) mod ps + len ≤ ps ∧
    (a - b) - (a - b) mod ps + ps ≤ blen (source_bytes (sa_source sa)) ∧
    b + blen (source_bytes (sa_source sa)) < usize_modulus ∧ (a - b) mod ps ≤ a - b ∧ is_usize a.
Proof.
  intros Hwf [Hh Hlen Hpg (sa & Hg & Hb & Hsz)]. cbv zeta.
  set (ps := las_pagesize las) in *.
  destruct (las_home_with_source las a b Hwf Hh) as (sa' & E & Hg' & Hle). simplify_eq.
  pose proof (is_pow2_range _ (las_wf_pagesize _ Hwf)) as Hps.
  pose proof (Z.mod_pos_bound (a - b) ps ltac:(lia)) as Hm.
  pose proof (Z.mod_le (a - b) ps ltac:(lia) ltac:(lia)).
  destruct (las_wf_size _ Hwf _ _ Hg) as (? & ? & _).
  exists sa. split_and!; try done; usize.
Qed.

(** [read] and [write] of a range give the reference to it; they differ in
    the borrow [get] they take of the page. *)
Ltac translate get_ok Hwf Hr :=
  let ps := fresh "ps" in let o := fresh "o" in
  destruct (byte_range_facts _ _ _ _ Hwf Hr)
    as (sa & E & Hg & Hb & Hle & Hps & Hl & Hm & Hpg & Hsz & Hu & Hmle & Ha);
  match goal with |- context [mk_memref ?b (?a - _) ?len] =>
    match type of Hwf with las_wf ?las =>
      set (ps := las_pagesize las) in *; set (o := (a - b) - (a - b) mod ps) in *;
      assert (o = a - b - (a - b) mod ps) by done;
      rewrite (bind_ok _ _ _ ps las) by done; cbn [byte_slice];
      rewrite (with_source_eq _ _ _ _ _ _ E), Hb, (bind_ok _ _ _ tt las) by done;
      rewrite to_page_ok by (done || apply Hwf);
      rewrite (bind_ok _ _ _ (Page_new o ps) las) by done;
      rewrite (bind_ok _ _ _ (Some (o, ps)) las)
        by (apply (on_allocator_same _ _ _ sa); [done|apply get_ok; [done|usize|usize]]);
      rewrite (bind_ok _ _ _ (o, ps) las), page_offset_ok by (done || usize);
      rewrite (bind_ok _ _ _ (a - b - o) las) by done; cbn [ls_len];
      rewrite usize_add_ok, (bind_ok _ _ _ (a - b - o + len) las) by (done || usize);
      unfold memref_index; cbn [mr_len]; rewrite index_range_ok by lia;
      unfold lift; simpl; do 2 f_equal; f_equal; lia
    end
  end.

Lemma LogicalAddressSpace_read_ok las a len b : las_wf las → byte_range las a len b →
  LogicalAddressSpace_read (mk_ByteLogicalSlice (LogicalSlice_new a len)) las =
    (Ok (mk_memref b (a - b) len), las).
Proof.
  intros Hwf Hr. unfold LogicalAddressSpace_read. translate SourceAllocator_get_bytes_ok Hwf Hr.
Qed.

Lemma LogicalAddressSpace_write_ok las a len b : las_wf las → byte_range las a len b →
  LogicalAddressSpace_write (mk_ByteLogicalSlice (LogicalSlice_new a len)) las =
    (Ok (mk_memref b (a - b) len), las).
Proof.
  intros Hwf Hr. unfold LogicalAddressSpace_write. translate SourceAllocator_get_bytes_mut_ok Hwf Hr.
Qed.

(** The bytes of a range exist. *)
Lemma byte_range_mem las a len b : las_wf las → byte_range las a len b →
  byte_source las b ∧ ∀ o n, 0 ≤ o → 0 ≤ n → o + n ≤ len → is_Some (mem las b (a - b + o) n).
Proof.
  intros Hwf Hr. destruct (byte_range_facts _ _ _ _ Hwf Hr)
    as (sa & E & Hg & Hb & Hle & Hps & Hl & Hm & Hpg & Hsz & Hu & Hmle & Ha).
  split; [by exists sa|]. intros o n Ho Hn Hon. eexists. apply mem_Some. exists sa.
  split_and!; [done| |done]. usize.
Qed.
End MemoryLemmas.

Section MemoryTheorems.
Context `{T : Target} `{C : Crc} {D : Type} `{Src : !Source D} `{Laws : !SourceLaws D}.
Implicit Types (las : LogicalAddressSpace D).

(** The address space is a memory: what is stored through the reference that
    [write] returns is what a [read] of the same slice then gives, and a [read]
    of any slice apart from it gives what it gave before. *)
Lemma LogicalAddressSpace_write_read las a len b data : las_wf las → byte_range las a len b →
  blen data = len →
  let slice := mk_ByteLogicalSlice (LogicalSlice_new a len) in
  ∃ r las', LogicalAddressSpace_write slice las = (Ok r, las) ∧ store_memref r data las = (Ok tt, las') ∧
    LogicalAddressSpace_read slice las' = (Ok r, las') ∧ load_memref r las' = (Ok data, las') ∧
    ∀ a' len' b', byte_range las a' len' b' → apart (a', len') (a, len) →
      ∃ r' bytes, LogicalAddressSpace_read (mk_ByteLogicalSlice (LogicalSlice_new a' len')) las' = (Ok r', las') ∧
        load_memref r' las = (Ok bytes, las) ∧ load_memref r' las' = (Ok bytes, las').
Proof.
  cbv zeta. intros Hwf Hr Hlen. destruct (byte_range_mem las a len b Hwf Hr) as [Hb Hmem].
  assert (is_Some (mem las b (a - b) (blen data))) as Hm.
  { rewrite Hlen, <- (Z.add_0_r (a - b)). pose proof (br_len _ _ _ _ Hr). apply Hmem; lia. }
  set (las' := put b (a - b) data las).
  assert (las_shape las' = las_shape las) as Hs by by apply las_shape_put.
  assert (las_wf las') as Hwf' by by apply (las_wf_shape las).
  exists (mk_memref b (a - b) len), las'. split_and!.
  - by apply LogicalAddressSpace_write_ok.
  - unfold store_memref. cbn [mr_len mr_source mr_off]. rewrite bool_decide_true, (bind_ok _ _ _ tt las) by done.
    by apply las_store_ok.
  - apply LogicalAddressSpace_read_ok; [done|]. by apply (byte_range_shape las).
  - apply las_load_ok. cbn [mr_len mr_source mr_off]. rewrite <- Hlen. by apply mem_put_same.
  - intros a' len' b' Hr' Hap. destruct (byte_range_mem las a' len' b' Hwf Hr') as [_ Hmem'].
    destruct (Hmem' 0 len') as [bytes Hbytes]; [lia|pose proof (br_len _ _ _ _ Hr'); lia|lia|].
    rewrite Z.add_0_r in Hbytes.
    exists (mk_memref b' (a' - b') len'), bytes. split_and!.
    + apply LogicalAddressSpace_read_ok; [done|]. by apply (byte_range_shape las).
    + by apply las_load_ok.
    + apply las_load_ok. cbn [mr_len mr_source mr_off]. unfold las'. rewrite mem_put_apart; [done|done|done|].
      destruct (decide (b' = b)) as [->|]; [right|by left]. unfold apart in *. simpl in *. lia.
Qed.
End MemoryTheorems.
