(* ===== verification/Pointer.v ===== *)
(** * Tagged pointers (src/src/vos.rs, [UntypedPointer])

    A pointer is one [usize]: a logical address in the low 54 bits, two bits
    of type and eight bits of reference count.  Pointers live in atomics: a
    cell of the address space's memory, or a local variable. *)
From S2P Require Import Prelude Utils Source SourceAllocator Slices Las Memory.

(** ** The encoding *)
Definition POINTER_TYPE_MASK : Z := Z.shiftl 3 54.
Definition POINTER_REFCOUNT_MASK : Z := Z.shiftl 255 56.
Definition POINTER_BYTE_ADDRESSABLE : Z := Z.shiftl 0 54.
Definition POINTER_BLOCK : Z := Z.shiftl 1 54.
Definition POINTER_LOG : Z := Z.shiftl 2 54.
Definition POINTER_ADDRESS_MASK : Z := usize_not (Z.lor POINTER_TYPE_MASK POINTER_REFCOUNT_MASK).

(** The value of the atomic. *)
Abbreviation UntypedPointer := Z (only parsing).

Definition UntypedPointer_from_raw (data : Z) : UntypedPointer := data.
Definition UntypedPointer_type_bytes (self : UntypedPointer) : Z := Z.land self POINTER_TYPE_MASK.
Definition UntypedPointer_address (self : UntypedPointer) : LogicalAddress :=
  Z.land self POINTER_ADDRESS_MASK.

Definition UntypedPointer_new_byte (address : LogicalAddress) : UntypedPointer :=
  Z.lor address POINTER_BYTE_ADDRESSABLE.
Definition UntypedPointer_new_block (address : LogicalAddress) : UntypedPointer :=
  Z.lor address POINTER_BLOCK.
Definition UntypedPointer_new_log (address : LogicalAddress) : UntypedPointer :=
  Z.lor address POINTER_LOG.
Definition UntypedPointer_new_none : UntypedPointer := 0.

Definition UntypedPointer_new_from_block (slice : BlockLogicalSlice) : UntypedPointer :=
  UntypedPointer_new_block (LogicalSlice_address (block_slice slice)).
Definition UntypedPointer_new_from_byte (slice : ByteLogicalSlice) : UntypedPointer :=
  UntypedPointer_new_byte (LogicalSlice_address (byte_slice slice)).
Definition UntypedPointer_new_from_stored (slice : StoredLogicalSlice) : UntypedPointer :=
  match slice with
  | Block slice => UntypedPointer_new_from_block slice
  | Byte slice => UntypedPointer_new_from_byte slice
  end.

Definition UntypedPointer_is_some (self : UntypedPointer) : bool :=
  bool_decide (UntypedPointer_address self ≠ 0).
Definition UntypedPointer_is_none (self : UntypedPointer) : bool :=
  bool_decide (UntypedPointer_address self = 0).
Definition UntypedPointer_is_byte_addressable (self : UntypedPointer) : bool :=
  bool_decide (UntypedPointer_type_bytes self = POINTER_BYTE_ADDRESSABLE).
Definition UntypedPointer_is_block (self : UntypedPointer) : bool :=
  bool_decide (UntypedPointer_type_bytes self = POINTER_BLOCK).

(** [&bytes[0]] of the little-endian atomic, the byte [refcount] returns. *)
Definition UntypedPointer_refcount (self : UntypedPointer) : byte :=
  default Byte.x00 (head (u64_bytes self)).

Section Pointer.
Context `{T : Target}.

Definition UntypedPointer_into_stored_slice (self : UntypedPointer) (len : Z) : StoredLogicalSlice :=
  StoredLogicalSlice_new (LogicalSlice_new (UntypedPointer_address self) len)
    (UntypedPointer_is_byte_addressable self).

Definition UntypedPointer_into_stored_slice_offset (self : UntypedPointer) (len offset : Z) :
    outcome StoredLogicalSlice :=
  address ← UntypedPointer_address self -! offset;
  len ← len +! offset;
  mret (StoredLogicalSlice_new (LogicalSlice_new address len)
          (UntypedPointer_is_byte_addressable self)).
End Pointer.

(** ** Atomics

    [&AtomicUsize]: eight bytes of the memory of the source at [base], or a
    local variable, whose value then travels with the reference. *)
Inductive cell : Type :=
| InMemory (base : LogicalAddress) (off : Z)
| OnStack (value : Z).

#[export] Instance cell_eq_dec : EqDecision cell.
Proof. solve_decision. Defined.

#[export] Instance cell_countable : Countable cell.
Proof.
  refine (inj_countable'
    (λ c, match c with InMemory b off => inl (b, off) | OnStack v => inr v end)
    (λ x, match x with inl (b, off) => InMemory b off | inr v => OnStack v end) _).
  by intros [].
Defined.

Definition memref_cell (r : memref) (off : Z) : cell := InMemory (mr_source r) (mr_off r + off).

Section Atomics.
Context `{T : Target} {D : Type} `{Src : !Source D}.
Abbreviation LAS := (LogicalAddressSpace D).

(** A [&AtomicUsize] is aligned; a local variable always is. *)
Definition atomic_at (off : Z) : M LAS unit := if decide (aligned 8 off) then mret tt else fail Undef.

Definition cell_load (c : cell) : M LAS Z :=
  match c with
  | InMemory base off => atomic_at off ;; bytes ← las_load base off size_of_usize; mret (le_combine bytes)
  | OnStack value => mret value
  end.

Definition cell_store (c : cell) (value : Z) : M LAS cell :=
  match c with
  | InMemory base off => atomic_at off ;; las_store base off (u64_bytes value) ;; mret c
  | OnStack _ => mret (OnStack value)
  end.

(** [clone] and [internal_clone]: a local copy of the value. *)
Definition UntypedPointer_internal_clone (self : cell) : M LAS UntypedPointer := cell_load self.
Definition UntypedPointer_clone (self : cell) : M LAS UntypedPointer := cell_load self.

(** Whether the swap took place, and the reference after it. *)
Definition UntypedPointer_compare_and_swap (self : cell) (current new : UntypedPointer) :
    M LAS (bool * cell) :=
  old ← cell_load self;
  if decide (old = current) then self ← cell_store self new; mret (true, self)
  else mret (false, self).
End Atomics.

(** ** The encoding, in arithmetic *)
Lemma UntypedPointer_address_mod p : UntypedPointer_address p = p mod 2 ^ 54.
Proof.
  unfold UntypedPointer_address. assert (POINTER_ADDRESS_MASK = Z.ones 54) as -> by by vm_compute.
  by rewrite Z.land_ones.
Qed.

Lemma UntypedPointer_type_bytes_div p :
  UntypedPointer_type_bytes p = Z.shiftl ((p / 2 ^ 54) mod 4) 54.
Proof.
  unfold UntypedPointer_type_bytes, POINTER_TYPE_MASK. rewrite land_shiftl by lia.
  rewrite Z.shiftr_div_pow2 by lia. change 3 with (Z.ones 2). by rewrite Z.land_ones.
Qed.

Lemma UntypedPointer_address_range p : 0 ≤ UntypedPointer_address p < 2 ^ 54.
Proof. rewrite UntypedPointer_address_mod. by apply Z.mod_pos_bound. Qed.

Lemma UntypedPointer_new_byte_eq a : UntypedPointer_new_byte a = a.
Proof. apply Z.lor_0_r. Qed.

(** The pointer with address [a] and type [tag]. *)
Lemma UntypedPointer_tagged a tag : 0 ≤ a < 2 ^ 54 → 0 ≤ tag < 4 →
  let p := Z.lor a (Z.shiftl tag 54) in
  UntypedPointer_address p = a ∧ UntypedPointer_type_bytes p = Z.shiftl tag 54.
Proof.
  intros Ha Ht p. subst p. rewrite lor_shiftl by lia.
  rewrite UntypedPointer_address_mod, UntypedPointer_type_bytes_div.
  rewrite Z_mod_plus_full, Z.mod_small by done. split; [done|].
  by rewrite Z.div_add, (Z.div_small a), Z.add_0_l, Z.mod_small by lia.
Qed.

Lemma UntypedPointer_new_byte_address a : 0 ≤ a < 2 ^ 54 →
  UntypedPointer_address (UntypedPointer_new_byte a) = a.
Proof. intros. by apply (UntypedPointer_tagged a 0). Qed.

Lemma UntypedPointer_new_byte_is_byte a : 0 ≤ a < 2 ^ 54 →
  UntypedPointer_is_byte_addressable (UntypedPointer_new_byte a) = true.
Proof. intros. apply bool_decide_true. by apply (UntypedPointer_tagged a 0). Qed.

(** A small number is the byte pointer to that address. *)
Lemma byte_pointer a : 0 ≤ a < 2 ^ 54 →
  UntypedPointer_address a = a ∧ UntypedPointer_is_byte_addressable a = true.
Proof.
  intros Ha. pose proof (UntypedPointer_new_byte_address a Ha) as H1.
  pose proof (UntypedPointer_new_byte_is_byte a Ha) as H2. by rewrite UntypedPointer_new_byte_eq in H1, H2.
Qed.

(** C34: a logical address below 2^54 survives each encoding, and the encoding
    says which kind of storage it is on; at 2^54 and above it survives none of
    the three, and below 2^56, where the design has the tags begin, what is
    encoded as a byte pointer is not even one. *)
Theorem UntypedPointer_encoding a :
  (0 ≤ a < 2 ^ 54 →
     let byte := UntypedPointer_new_byte a in
     let block := UntypedPointer_new_block a in
     let log := UntypedPointer_new_log a in
     (UntypedPointer_address byte = a ∧ UntypedPointer_is_byte_addressable byte = true ∧
        UntypedPointer_is_block byte = false) ∧
     (UntypedPointer_address block = a ∧ UntypedPointer_is_byte_addressable block = false ∧
        UntypedPointer_is_block block = true) ∧
     (UntypedPointer_address log = a ∧ UntypedPointer_is_byte_addressable log = false ∧
        UntypedPointer_is_block log = false)) ∧
  (2 ^ 54 ≤ a → UntypedPointer_address (UntypedPointer_new_byte a) ≠ a ∧
     UntypedPointer_address (UntypedPointer_new_block a) ≠ a ∧ UntypedPointer_address (UntypedPointer_new_log a) ≠ a) ∧
  (2 ^ 54 ≤ a < 2 ^ 56 → UntypedPointer_is_byte_addressable (UntypedPointer_new_byte a) = false).
Proof.
  split_and!.
  - intros Ha. cbv zeta.
    destruct (UntypedPointer_tagged a 0 Ha ltac:(lia)) as [Ha0 Ht0].
    destruct (UntypedPointer_tagged a 1 Ha ltac:(lia)) as [Ha1 Ht1].
    destruct (UntypedPointer_tagged a 2 Ha ltac:(lia)) as [Ha2 Ht2].
    unfold UntypedPointer_is_byte_addressable, UntypedPointer_is_block, UntypedPointer_new_byte,
      UntypedPointer_new_block, UntypedPointer_new_log, POINTER_BYTE_ADDRESSABLE, POINTER_BLOCK,
      POINTER_LOG in *.
    rewrite Ht0, Ht1, Ht2. by split_and!.
  - intros Ha. assert (∀ p, UntypedPointer_address p ≠ a) as Hne; [|by split_and!].
    intros p He. pose proof (UntypedPointer_address_range p). lia.
  - intros Ha. unfold UntypedPointer_is_byte_addressable. rewrite UntypedPointer_new_byte_eq, UntypedPointer_type_bytes_div.
    apply bool_decide_false. unfold POINTER_BYTE_ADDRESSABLE. rewrite !Z.shiftl_mul_pow2 by lia.
    pose proof (Z.div_mod a (2 ^ 54) ltac:(lia)). pose proof (Z.mod_pos_bound a (2 ^ 54) ltac:(lia)).
    rewrite Z.mod_small; lia.
Qed.

(** The byte [refcount] hands out is the low byte of the address: the
    reference-count bits of the pointer have no part in it. *)
Lemma UntypedPointer_refcount_is_address p count : 0 ≤ p < 2 ^ 56 → 0 ≤ count < 256 →
  let counted := Z.lor p (Z.shiftl count 56) in
  UntypedPointer_refcount counted = UntypedPointer_refcount p ∧
  byte.unsigned (UntypedPointer_refcount counted) = UntypedPointer_address counted mod 256.
Proof.
  intros Hp Hc counted. subst counted. rewrite lor_shiftl by lia.
  assert (∀ q, byte.unsigned (UntypedPointer_refcount q) = q mod 256) as Hq.
  { intros q. unfold UntypedPointer_refcount, u64_bytes. cbn [le_split head default from_option].
    apply byte.unsigned_of_Z. }
  assert ((p + count * 2 ^ 56) mod 256 = p mod 256) as Hm.
  { replace (count * 2 ^ 56) with ((count * 2 ^ 48) * 256) by lia. by rewrite Z_mod_plus_full. }
  split.
  - apply byte.unsigned_inj. by rewrite !Hq.
  - rewrite Hq, UntypedPointer_address_mod, Hm. rewrite <- Hm.
    symmetry. apply Z.mod_mod_divide. by exists (2 ^ 46).
Qed.

(** ** Atomics as memory *)
Section AtomicLemmas.
Context `{T : Target} `{C : Crc} {D : Type} `{Src : !Source D} `{Laws : !SourceLaws D}.
Abbreviation LAS := (LogicalAddressSpace D).
Implicit Types (las : LAS) (c : cell).

(** What an atomic holds. *)
Definition cell_holds las c (v : Z) : Prop :=
  match c with
  | InMemory b off => mem las b off size_of_usize = Some (u64_bytes v) ∧ is_usize v ∧ aligned 8 off
  | OnStack v' => v' = v
  end.

(** An atomic of byte-addressable memory, or of the stack. *)
Definition cell_writable las c : Prop :=
  match c with InMemory b off => byte_source las b | OnStack _ => True end.

(** The state and the reference after [c] is set to [v]. *)
Definition cell_put c v las : LAS :=
  match c with InMemory b off => put b off (u64_bytes v) las | OnStack _ => las end.
Definition cell_after c (v : Z) : cell :=
  match c with InMemory b off => c | OnStack _ => OnStack v end.

Lemma atomic_at_ok las off : aligned 8 off → atomic_at off las = (Ok tt, las).
Proof. intros Ha. unfold atomic_at. by rewrite decide_True. Qed.

Lemma cell_load_ok las c v : cell_holds las c v → cell_load c las = (Ok v, las).
Proof.
  destruct c as [b off|v']; simpl; [|by intros ->]. intros (Hm & Hv & Ha). step (atomic_at_ok las off Ha).
  rewrite (bind_ok _ _ _ _ _ (las_load_ok _ _ _ _ _ Hm)). by rewrite u64_roundtrip.
Qed.

Lemma cell_store_ok las c v v' : cell_holds las c v →
  cell_store c v' las = (Ok (cell_after c v'), cell_put c v' las).
Proof.
  destruct c as [b off|]; simpl; [|done]. intros (Hm & Hv & Ha). step (atomic_at_ok las off Ha).
  assert (is_Some (mem las b off (blen (u64_bytes v')))) as Hs by (rewrite blen_u64; eauto).
  by rewrite (bind_ok _ _ _ _ _ (las_store_ok _ _ _ _ Hs)).
Qed.

Lemma compare_and_swap_ok las c v current new : cell_holds las c v →
  UntypedPointer_compare_and_swap c current new las =
    if decide (v = current) then (Ok (true, cell_after c new), cell_put c new las)
    else (Ok (false, c), las).
Proof.
  intros Hc. unfold UntypedPointer_compare_and_swap.
  rewrite (bind_ok _ _ _ _ _ (cell_load_ok _ _ _ Hc)). case_decide; [|done].
  by rewrite (bind_ok _ _ _ _ _ (cell_store_ok _ _ _ new Hc)).
Qed.

Lemma cell_holds_aligned las b off v : cell_holds las (InMemory b off) v → aligned 8 off.
Proof. by intros (_ & _ & ?). Qed.

Lemma cell_holds_writable_memory las b off v : cell_holds las (InMemory b off) v →
  is_Some (mem las b off 8).
Proof. intros [Hm _]. eauto. Qed.

(** Two atomics that do not share a byte. *)
Definition cells_apart c c' : Prop :=
  match c, c' with
  | InMemory b off, InMemory b' off' =>
      b ≠ b' ∨ apart (off, size_of_usize) (off', size_of_usize)
  | _, _ => True
  end.

Lemma cell_put_holds las c v v' : cell_holds las c v → cell_writable las c → is_usize v' →
  cell_holds (cell_put c v' las) (cell_after c v') v'.
Proof.
  destruct c as [b off|]; simpl; [|done]. intros (Hm & Hv & Ha) Hb Hv'. split; [|done].
  change size_of_usize with 8 in *. rewrite <- (blen_u64 v').
  apply mem_put_same; [done|]. rewrite blen_u64. eauto.
Qed.

Lemma cell_put_apart las c v v' c' w : cell_holds las c v → cell_writable las c →
  cells_apart c' c → cell_holds las c' w → cell_holds (cell_put c v' las) c' w.
Proof.
  destruct c as [b off|], c' as [b' off'|]; simpl; try done.
  intros (Hm & Hv & Ha) Hb Hap (Hm' & Hw). split; [|done].
  rewrite mem_put_apart; [done|done| |].
  - rewrite blen_u64. eauto.
  - rewrite blen_u64. destruct Hap; [by left|by right].
Qed.

Lemma las_shape_cell_put las c v v' : cell_holds las c v → cell_writable las c →
  las_shape (cell_put c v' las) = las_shape las.
Proof.
  destruct c as [b off|]; simpl; [|done]. intros (Hm & Hv & _) Hb.
  apply las_shape_put; [|done]. rewrite blen_u64. eauto.
Qed.

Lemma cell_writable_shape las las' c : las_shape las' = las_shape las →
  cell_writable las c → cell_writable las' c.
Proof. destruct c; [|done]. apply byte_source_shape. Qed.
End AtomicLemmas.
