(* ===== verification/Vos.v ===== *)
(** * The versioned object store (src/src/vos.rs)

    Versions (direct, or indirect through the version cell of a transaction),
    object headers, the per-transaction allocators, the reader that walks an
    object's version chain, and the commit of a version. *)
From S2P Require Import Prelude Utils Source SourceAllocator Slices Las Pointer.

(** ** [Version] *)
Definition VERSION_TYPE_MASK : Z := Z.shiftl 1 63.
Definition VERSION_DATA_MASK : Z := usize_not VERSION_TYPE_MASK.
Definition VERSION_TYPE_DIRECT : Z := Z.shiftl 0 63.
Definition VERSION_TYPE_INDIRECT : Z := Z.shiftl 1 63.
Definition size_of_Version : Z := 8.

(** The value of the atomic. *)
Abbreviation Version := Z (only parsing).

Definition Version_new : Version := 0.
Definition Version_new_base : Version := 1.
Definition Version_clone (self : Version) : Version := self.
Definition Version_type_bytes (self : Version) : Z := Z.land self VERSION_TYPE_MASK.
Definition Version_data_bytes (self : Version) : Z := Z.land self VERSION_DATA_MASK.

Definition Version_new_indirect (real_version : UntypedPointer) : outcome Version :=
  if decide (Z.land real_version VERSION_TYPE_MASK = 0)
  then Ok (Z.lor real_version VERSION_TYPE_INDIRECT) else Fail Panic.

(** How many indirections the recursions of [Version] are followed for.  The
    log allocator makes cells that hold direct versions, one indirection. *)
Definition version_depth : nat := 4.

Section Version.
Context `{T : Target} {D : Type} `{Src : !Source D}.
Abbreviation LAS := (LogicalAddressSpace D).

(** The cell an indirect version refers to. *)
Definition Version_real (data : Z) : M LAS cell :=
  let ptr := UntypedPointer_from_raw data in
  slice ← lift (StoredLogicalSlice_unwrap_byte
                  (UntypedPointer_into_stored_slice ptr size_of_Version));
  data ← LogicalAddressSpace_read slice;
  real_version ← lift (any_from_slice_mut size_of_Version 8 data);
  mret (memref_cell real_version 0).

Fixpoint Version_read_loop (fuel : nat) (self : cell) : M LAS Z :=
  match fuel with
  | O => fail Diverge
  | S fuel =>
      version ← cell_load self;
      let data := Version_data_bytes version in
      if decide (Version_type_bytes version = VERSION_TYPE_DIRECT) then mret data
      else real_version ← Version_real data; Version_read_loop fuel real_version
  end.

Definition Version_read : cell → M LAS Z := Version_read_loop version_depth.

(** The reference to [self] after the call. *)
Fixpoint Version_commit_loop (fuel : nat) (self : cell) (new_version : Z) : M LAS cell :=
  match fuel with
  | O => fail Diverge
  | S fuel =>
      version ← cell_load self;
      if decide (Version_type_bytes version = VERSION_TYPE_DIRECT)
      then cell_store self (Z.lor new_version VERSION_TYPE_DIRECT)
      else
        real_version ← Version_real (Version_data_bytes version);
        Version_commit_loop fuel real_version new_version ;;
        mret self
  end.

Definition Version_commit : cell → Z → M LAS cell := Version_commit_loop version_depth.

Definition Version_newer (self other : cell) : M LAS bool :=
  s ← Version_read self;
  o ← Version_read other;
  mret (bool_decide (o < s)).
End Version.

(** ** [GenericAllocator] *)
Record GenericAllocator : Type := mk_GenericAllocator { ga_active : option LogicalMutRef }.

Definition GenericAllocator_new : GenericAllocator := mk_GenericAllocator None.

(** The two kinds of allocator are wrappers of it. *)
Definition TransactionalObjectAllocator_new : GenericAllocator := GenericAllocator_new.
Definition TransactionalLogAllocator_new : GenericAllocator := GenericAllocator_new.

(** ** Objects *)
Record ObjectSize : Type := ObjectSize_new { os_pointers : Z; os_data : Z }.

#[export] Instance ObjectSize_eq_dec : EqDecision ObjectSize.
Proof. solve_decision. Defined.

(** [as u32] truncates. *)
Definition ObjectSize_new_with_usize (pointers data : Z) : ObjectSize :=
  ObjectSize_new (pointers mod u32_modulus) (data mod u32_modulus).

Definition ObjectSize_total `{T : Target} (self : ObjectSize) : outcome Z :=
  u32_add (os_pointers self) (os_data self).

Record ObjectHeader : Type := mk_ObjectHeader {
  oh_size : ObjectSize;
  oh_version : Version;
  oh_parent : UntypedPointer;
  oh_other : UntypedPointer
}.

Definition ObjectHeader_new (size : ObjectSize) (version : Version) (other : UntypedPointer) :
    ObjectHeader :=
  mk_ObjectHeader size version UntypedPointer_new_none other.

Section Header.
Context `{T : Target}.

Definition ObjectHeader_bytes (h : ObjectHeader) : list byte :=
  splice off_other (u64_bytes (oh_other h))
    (splice off_parent (u64_bytes (oh_parent h))
      (splice off_version (u64_bytes (oh_version h))
        (splice off_data (u32_bytes (os_data (oh_size h)))
          (splice off_pointers (u32_bytes (os_pointers (oh_size h)))
            (padding (Z.to_nat size_of_ObjectHeader)))))).

Definition ObjectHeader_decode (l : list byte) : ObjectHeader :=
  mk_ObjectHeader (ObjectSize_new (int_at off_pointers 4 l) (int_at off_data 4 l))
    (int_at off_version 8 l) (int_at off_parent 8 l) (int_at off_other 8 l).
End Header.

(** ** Allocation *)
Section Allocation.
Context `{T : Target} `{C : Crc} {D : Type} `{Src : !Source D}.
Abbreviation LAS := (LogicalAddressSpace D).

(** An allocator and the address space its page allocator is borrowed from. *)
Definition on_las {A} (m : M LAS A) : M (GenericAllocator * LAS) A :=
  zoom snd (λ las s, (s.1, las)) m.

Definition set_active (active : option LogicalMutRef) : M (GenericAllocator * LAS) unit :=
  modify (λ s, (mk_GenericAllocator active, s.2)).

(** The loop takes a fresh page at most once: two rounds are enough. *)
Fixpoint GenericAllocator_alloc_loop (fuel : nat) (page_full : bool) (size : Z) :
    M (GenericAllocator * LAS) (LogicalSlice * memref) :=
  match fuel with
  | O => fail Diverge
  | S fuel =>
      self ← gets fst;
      '(mref, page_full) ← (match ga_active self with
        | Some mref => mret (mref, page_full)
        | None =>
            page ← on_las LogicalAddressSpace_boxed_page_alloc;
            set_active (Some page) ;;
            mret (page, true)
        end);
      '(mref, consumed) ← lift (LogicalMutRef_try_consume_bytes mref size size);
      set_active (Some mref) ;;
      match consumed with
      | Some it => mret it
      | None =>
          if (page_full : bool) then throw AllocationTooLarge
          else set_active None ;; GenericAllocator_alloc_loop fuel page_full size
      end
  end.

Definition GenericAllocator_alloc (size : Z) : M (GenericAllocator * LAS) (LogicalSlice * memref) :=
  GenericAllocator_alloc_loop 2 false size.

(** [split_at_mut], then the header is written and the rest returned. *)
Definition TransactionalObjectAllocator_init_object (data : memref) (size : ObjectSize)
    (version : Version) (other : UntypedPointer) : M LAS memref :=
  '(hdr, userdata) ← lift (memref_split_at data size_of_ObjectHeader);
  hdrp ← lift (any_from_slice_mut size_of_ObjectHeader 8 hdr);
  store_memref hdrp (ObjectHeader_bytes (ObjectHeader_new size version other)) ;;
  mret userdata.

Definition TransactionalObjectAllocator_alloc (size : ObjectSize) (version : Version)
    (other : UntypedPointer) : M (GenericAllocator * LAS) (UntypedPointer * memref) :=
  total ← lift (ObjectSize_total size);
  total ← lift (total +! size_of_ObjectHeader);
  '(slice, data) ← GenericAllocator_alloc total;
  userdata ← on_las (TransactionalObjectAllocator_init_object data size version other);
  '(_, userslice) ← lift (LogicalSlice_split_at slice size_of_ObjectHeader);
  mret (UntypedPointer_new_byte (LogicalSlice_address userslice), userdata).

Definition TransactionalObjectAllocator_alloc_new (size : ObjectSize) (version : Version) :
    M (GenericAllocator * LAS) (UntypedPointer * memref) :=
  TransactionalObjectAllocator_alloc size version UntypedPointer_new_none.

Definition TransactionalLogAllocator_new_indirect_version : M (GenericAllocator * LAS) Version :=
  '(slice, data) ← GenericAllocator_alloc size_of_Version;
  versionp ← lift (any_from_slice_mut size_of_Version 8 data);
  on_las (cell_store (memref_cell versionp 0) Version_new) ;;
  lift (Version_new_indirect (UntypedPointer_new_byte (LogicalSlice_address slice))).
End Allocation.

(** ** [VersionedReader] *)
Record VersionedReader : Type := VersionedReader_new { vr_version : Z }.

Section Reader.
Context `{T : Target} {D : Type} `{Src : !Source D}.
Abbreviation LAS := (LogicalAddressSpace D).

(** The fields of the header [data] starts with. *)
Definition header_version (data : memref) : cell := memref_cell data off_version.
Definition header_other (data : memref) : cell := memref_cell data off_other.
Definition header_size (data : memref) : M LAS ObjectSize :=
  bytes ← las_load (mr_source data) (mr_off data) size_of_ObjectHeader;
  mret (oh_size (ObjectHeader_decode bytes)).

Definition VersionedReader_read_version (ptr : cell) : M LAS cell :=
  raw ← cell_load ptr;
  slice ← lift (UntypedPointer_into_stored_slice_offset raw 0 size_of_ObjectHeader);
  match slice with
  | Block _ => fail Panic
  | Byte slice =>
      hdr ← LogicalAddressSpace_read slice;
      hdrp ← lift (any_from_slice_mut size_of_ObjectHeader 8 hdr);
      mret (header_version hdrp)
  end.

(** One pointer of a flushed object: replaced by the location of its backing. *)
Definition VersionedReader_flush_pointer (p : cell) : M LAS unit :=
  oldptr ← UntypedPointer_internal_clone p;
  if UntypedPointer_is_some oldptr && UntypedPointer_is_byte_addressable oldptr then
    stored_slice ← lift (StoredLogicalSlice_unwrap_byte (UntypedPointer_into_stored_slice oldptr 1));
    backing ← LogicalAddressSpace_get_backing stored_slice;
    '(_, backing) ← get_or_insert_with_result backing (
      LogicalAddressSpace_flush stored_slice ;;
      backing ← LogicalAddressSpace_get_backing stored_slice;
      unwrap backing);
    UntypedPointer_compare_and_swap p oldptr (UntypedPointer_new_from_stored backing) ;;
    mret tt
  else mret tt.

Definition VersionedReader_flush (ptr : cell) : M LAS unit :=
  raw ← cell_load ptr;
  slice ← lift (UntypedPointer_into_stored_slice_offset raw 0 size_of_ObjectHeader);
  match slice with
  | Block _ => mret tt
  | Byte slice =>
      hdr ← LogicalAddressSpace_read slice;
      hdrp ← lift (any_from_slice_mut size_of_ObjectHeader 8 hdr);
      size ← header_size hdrp;
      let npointers := os_pointers size / size_of_usize in
      slice ← lift (StoredLogicalSlice_unwrap_byte
                      (UntypedPointer_into_stored_slice raw (os_pointers size)));
      data ← LogicalAddressSpace_read slice;
      pointers ← lift (any_from_slice_mut (size_of_usize * npointers) 8 data);
      for_each (seqZ 0 npointers) (λ i,
        VersionedReader_flush_pointer (memref_cell pointers (size_of_usize * i))) ;;
      LogicalAddressSpace_flush slice ;;
      mret tt
  end.

(** The user's bytes, the header, and the reference to the pointer after
    the call, which may have been swizzled.  Every step goes to an older
    version or brings one object into memory: [fuel] bounds them. *)
Fixpoint VersionedReader_read (fuel : nat) (self : VersionedReader) (ptr : cell)
    (size : ObjectSize) (abort_on_conflict : bool) : M LAS (memref * memref * cell) :=
  match fuel with
  | O => fail Diverge
  | S fuel =>
      raw ← cell_load ptr;
      if negb (UntypedPointer_is_some raw) then throw InvalidLogicalAddress else
      oldptr ← cell_load ptr;
      total ← lift (ObjectSize_total size);
      slice ← lift (UntypedPointer_into_stored_slice_offset oldptr total size_of_ObjectHeader);
      match slice with
      | Block _ =>
          total ← lift (ObjectSize_total size);
          bytes ← LogicalAddressSpace_fetch (UntypedPointer_into_stored_slice oldptr total);
          '(_, ptr) ← UntypedPointer_compare_and_swap ptr oldptr
                        (UntypedPointer_new_from_byte bytes);
          VersionedReader_read fuel self ptr size abort_on_conflict
      | Byte slice =>
          data ← LogicalAddressSpace_read slice;
          '(hdr, userdata) ← lift (memref_split_at data size_of_ObjectHeader);
          hdr ← lift (any_from_slice_mut size_of_ObjectHeader 8 hdr);
          version ← Version_read (header_version hdr);
          if bool_decide (version = 0) || bool_decide (vr_version self < version) then
            if (abort_on_conflict : bool) then throw TxAborted
            else
              '(userdata, hdr, _) ← VersionedReader_read fuel self (header_other hdr) size
                                      abort_on_conflict;
              mret (userdata, hdr, ptr)
          else mret (userdata, hdr, ptr)
      end
  end.
End Reader.

(** ** [VersionedObjectStore]

    Its state is the version counter behind the lock; with the address space
    it is the state the transactions of a heap share. *)
Record World (D : Type) : Type := mk_World { w_las : LogicalAddressSpace D; w_version : Z }.
Arguments mk_World {D}.
Arguments w_las {D}.
Arguments w_version {D}.

Definition VersionedObjectStore_new : Z := 1.

(** An allocator's pages come from the address space it is used with
    ([boxed_page_alloc]). *)
Definition VersionedObjectStore_new_object_allocator : GenericAllocator := TransactionalObjectAllocator_new.
Definition VersionedObjectStore_new_log_allocator : GenericAllocator := TransactionalLogAllocator_new.

(** [new] asks it of pages that it has read into a [Vec]. *)
Definition VersionedObjectStore_valid_page `{T : Target} (data : list byte) : outcome bool :=
  header ← any_from_slice size_of_ObjectHeader 8 ObjectHeader_decode vec_address data;
  total ← ObjectSize_total (oh_size header);
  mret (bool_decide (total ≠ 0)).

Section Store.
Context `{T : Target} {D : Type} `{Src : !Source D}.

Definition on_world_las {A} (m : M (LogicalAddressSpace D) A) : M (World D) A :=
  zoom w_las (λ las w, mk_World las (w_version w)) m.

Definition VersionedObjectStore_new_versioned_reader : M (World D) VersionedReader :=
  gets (λ w, VersionedReader_new (w_version w)).

(** The version is written under the lock, after the validation. *)
Definition VersionedObjectStore_commit_version (version : cell) (validate : M (World D) unit) :
    M (World D) cell :=
  self ← get;
  new_version ← lift (w_version self +! 1);
  modify (λ w, mk_World (w_las w) new_version) ;;
  validate ;;
  on_world_las (Version_commit version new_version).
End Store.
