(* ===== verification/Allocators.v ===== *)
(** * Allocation

    What a transaction's allocators hand out: memory of their own, never given
    twice, carved from whole pages of one source. *)
From Stdlib Require Import Sorting.Sorted.
From S2P Require Import Prelude Utils Source SourceAllocator Slices Las Memory Pointer Vos.

Lemma sorted_nodup ks : StronglySorted Z.lt ks → NoDup ks.
Proof.
  induction 1 as [|k ks Hs IH Hk]; constructor; [|done]. intros Hin. rewrite Forall_forall in Hk.
  specialize (Hk k Hin). lia.
Qed.

(** ** Free memory of the address space *)
Section FreeMemory.
Context `{T : Target} `{C : Crc} {D : Type} `{Src : !Source D} `{Laws : !SourceLaws D}.
Abbreviation LAS := (LogicalAddressSpace D).
Implicit Types (las : LAS) (m : LogicalMutRef).

(** The address space with its allocators: each is well formed, and the
    sources are mapped one behind the other. *)
Record las_inv las : Prop := {
  inv_wf : las_wf las;
  inv_allocators b sa : las_get las b = Some sa → allocator_wf sa;
  inv_sorted b sa b' : las_get las b = Some sa → b' ∈ (las_sources las).*1 → b < b' →
    b + blen (source_bytes (sa_source sa)) / las_pagesize las * las_pagesize las ≤ b';
  inv_order : StronglySorted Z.lt (las_sources las).*1;
  (** every address fits the address bits of a pointer *)
  inv_pointers b sa : las_get las b = Some sa → b + blen (source_bytes (sa_source sa)) < 2 ^ 54;
  inv_aligned b : b ∈ (las_sources las).*1 → (las_pagesize las | b)
}.

(** A page, or what is left of one, that can be handed out. *)
Record mutref_wf las m : Prop := {
  mw_offset : ls_offset (lm_slice m) = mr_source (lm_data m) + mr_off (lm_data m);
  mw_len : ls_len (lm_slice m) = mr_len (lm_data m);
  mw_range : 0 ≤ mr_len (lm_data m);
  mw_bytes n : 0 < n ≤ mr_len (lm_data m) →
    byte_range las (ls_offset (lm_slice m)) n (mr_source (lm_data m));
  mw_fits : 0 ≤ mr_source (lm_data m) ∧ 0 ≤ mr_off (lm_data m) ∧
    ls_offset (lm_slice m) + ls_len (lm_slice m) < usize_modulus
}.

Definition page_mutref (b ps : Z) (p : Page) : LogicalMutRef :=
  LogicalMutRef_new (mk_memref b (page_offset p) ps) (LogicalSlice_new (page_offset p + b) ps).

(** The last key at most [a] of an ordered list of keys. *)
Lemma last_filter_sorted (ks : list Z) a b : StronglySorted Z.lt ks → b ∈ ks → 0 ≤ b ≤ a →
  (∀ b', b' ∈ ks → b < b' → a < b') → last (filter (λ k, 0 ≤ k ≤ a) ks) = Some b.
Proof.
  intros Hs Hin Hb Hnext. induction Hs as [|k ks Hs IH Hk]; [by apply elem_of_nil in Hin|].
  apply elem_of_cons in Hin as [->|Hin].
  - rewrite filter_cons_True by done.
    assert (filter (λ k, 0 ≤ k ≤ a) ks = []) as ->; [|done].
    destruct (filter _ ks) as [|x l] eqn:E; [done|].
    assert (x ∈ filter (λ k, 0 ≤ k ≤ a) ks) as [Hx Hin]%list_elem_of_filter by (rewrite E; left).
    rewrite Forall_forall in Hk. specialize (Hnext x ltac:(by right) (Hk _ Hin)). lia.
  - assert (last (filter (λ k, 0 ≤ k ≤ a) ks) = Some b) as Hl.
    { apply IH; [done|]. intros b' ?. apply Hnext. by right. }
    rewrite filter_cons. case_decide; [|done]. by rewrite last_cons, Hl.
Qed.

Lemma las_home_inv las b sa a : las_inv las → las_get las b = Some sa →
  b ≤ a < b + blen (source_bytes (sa_source sa)) / las_pagesize las * las_pagesize las →
  las_home las a = Some b.
Proof.
  intros [Hwf Hal Hlay Hord _ _] Hg Ha. unfold las_home. rewrite btree_last_le_key.
  destruct (las_wf_size _ Hwf _ _ Hg) as (? & _).
  apply last_filter_sorted; [done| |lia|].
  - apply list_elem_of_fmap. exists (b, sa). split; [done|]. by apply btree_get_elem_2.
  - intros b' Hb' Hlt. specialize (Hlay b sa b' Hg Hb' Hlt). lia.
Qed.

(** A whole page of a byte-addressable source can be handed out. *)
Lemma page_mutref_wf las b sa p : las_inv las → las_get las b = Some sa →
  SourceAllocator_is_byte_addressable sa = true →
  page_fits (las_pagesize las) (blen (source_bytes (sa_source sa))) p →
  mutref_wf las (page_mutref b (las_pagesize las) p).
Proof.
  intros Hinv Hg Hb (Hlen & [q Hq] & Hlo & Hhi). pose proof (inv_wf _ Hinv) as Hwf.
  pose proof (is_pow2_range _ (las_wf_pagesize _ Hwf)) as Hps.
  destruct (las_wf_size _ Hwf _ _ Hg) as (Hb0 & Hu & _).
  set (ps := las_pagesize las) in *. set (size := blen (source_bytes (sa_source sa))) in *.
  assert (page_offset p + ps ≤ size / ps * ps) as Hwhole.
  { rewrite Hq in Hhi |- *. pose proof (Z.div_le_mono (q * ps + ps) size ps ltac:(lia) Hhi) as Hd.
    replace (q * ps + ps) with ((q + 1) * ps) in Hd by lia. rewrite Z.div_mul in Hd by lia. nia. }
  assert (page_offset p mod ps = 0) as Hmod by (by rewrite Hq, Z.mod_mul by lia).
  split; simpl; try lia.
  intros n Hn.
  split.
  - apply (las_home_inv las b sa); [done..|]. fold ps size. lia.
  - lia.
  - fold ps. replace (page_offset p + b - b) with (page_offset p) by lia. lia.
  - exists sa. split_and!; [done..|]. fold ps size. replace (page_offset p + b - b) with (page_offset p) by lia. lia.
Qed.

(** *** Taking a page *)
Definition take_page (b : Z) (rest : list Page) las : LAS :=
  match las_get las b with
  | Some sa => with_sources (btree_set b (with_freelist rest sa) (las_sources las)) las
  | None => las
  end.

Lemma take_page_shape las b rest : las_shape (take_page b rest las) = las_shape las.
Proof.
  unfold take_page. destruct (las_get las b) as [sa|] eqn:Hg; [|done].
  by apply las_shape_set with sa.
Qed.

Lemma take_page_get las b rest b' : las_get (take_page b rest las) b' =
  if decide (b' = b) then with_freelist rest <$> las_get las b else las_get las b'.
Proof.
  unfold take_page. destruct (las_get las b) as [sa|] eqn:E; unfold las_get in *; case_decide; subst; simpl.
  - by eapply btree_get_set_eq.
  - by apply btree_get_set_ne.
  - done.
  - done.
Qed.

Lemma take_page_mem las b rest b' o n : mem (take_page b rest las) b' o n = mem las b' o n.
Proof.
  unfold mem. rewrite take_page_get. case_decide; [subst|done]. by destruct (las_get las b).
Qed.

Lemma las_inv_shape las las' : las_shape las' = las_shape las →
  (∀ b sa', las_get las' b = Some sa' → allocator_wf sa') → las_inv las → las_inv las'.
Proof.
  intros Hs Hal [H1 H2 H3 H4 H5 H6]. pose proof Hs as [= Hps _].
  split; [by apply (las_wf_shape las)|done| | | |].
  - intros b sa' b' Hg Hb Hlt. destruct (las_shape_get las' las b sa' (eq_sym Hs) Hg) as (sa & Hg' & _ & Hl & _).
    rewrite (las_shape_keys las las' Hs) in Hb. rewrite Hps, <- Hl. eauto.
  - by rewrite (las_shape_keys las las' Hs).
  - intros b sa' Hg. destruct (las_shape_get las' las b sa' (eq_sym Hs) Hg) as (sa & Hg' & _ & Hl & _).
    rewrite <- Hl. eauto.
  - rewrite (las_shape_keys las las' Hs), Hps. auto.
Qed.

Lemma take_page_inv las b sa page rest : las_inv las → las_get las b = Some sa →
  sa_freelist sa = page :: rest → las_inv (take_page b rest las).
Proof.
  intros Hinv Hg Hf. apply (las_inv_shape las); [apply take_page_shape| |done].
  intros b' sa' Hg'. rewrite take_page_get in Hg'. case_decide; [|by apply (inv_allocators _ Hinv b')].
  subst. rewrite Hg in Hg'. injection Hg' as <-.
  by destruct (SourceAllocator_allocate_page_eq sa page rest (inv_allocators _ Hinv _ _ Hg) Hf) as (_ & ? & _).
Qed.

(** [alloc] hands out the first free page of the first byte-addressable source. *)
Lemma LogicalAddressSpace_alloc_ok las b sa page rest : las_inv las →
  LogicalAddressSpace_get_best_byte_addressable las = Some (b, sa) →
  sa_freelist sa = page :: rest →
  LogicalAddressSpace_alloc las =
    (Ok (page_mutref b (las_pagesize las) page), take_page b rest las) ∧
  las_get las b = Some sa ∧ SourceAllocator_is_byte_addressable sa = true.
Proof.
  intros Hinv Hbest Hfree. pose proof (inv_wf _ Hinv) as Hwf.
  pose proof (is_pow2_range _ (las_wf_pagesize _ Hwf)) as Hps.
  assert (las_get las b = Some sa ∧ SourceAllocator_is_byte_addressable sa = true) as [Hg Hb].
  { unfold LogicalAddressSpace_get_best_byte_addressable, LogicalAddressSpace_get_best_source in Hbest.
    apply find_some in Hbest as [Hin Hb]. split; [|done].
    apply btree_get_elem; [apply Hwf|by apply list_elem_of_In]. }
  destruct (SourceAllocator_allocate_page_eq sa page rest (inv_allocators _ Hinv _ _ Hg) Hfree)
    as (Halloc & Hwf' & Hfit & _).
  destruct (las_wf_size _ Hwf _ _ Hg) as (Hb0 & Hu & Hpsz). rewrite Hpsz in Hfit.
  destruct Hfit as (Hlen & _ & Hlo & Hhi). destruct page as [o n]. cbn [page_len page_offset] in *. subst n.
  set (ps := las_pagesize las) in *.
  split; [|done]. unfold LogicalAddressSpace_alloc. rewrite (bind_ok _ _ _ las las) by done.
  rewrite Hbest, (bind_ok _ _ _ (b, sa) las) by done. cbv beta iota.
  assert (take_page b rest las = with_sources (btree_set b (with_freelist rest sa) (las_sources las)) las) as Htp
    by (unfold take_page; by rewrite Hg).
  rewrite (bind_ok _ _ _ (Page_new o ps) (take_page b rest las))
    by (rewrite Htp; by apply on_allocator_eq with sa).
  rewrite (bind_ok _ _ _ (Some (o, ps)) (take_page b rest las)).
  2:{ apply (on_allocator_same _ _ _ (with_freelist rest sa)).
      - rewrite take_page_get, decide_True, Hg by done. done.
      - apply SourceAllocator_get_bytes_mut_ok; simpl; [done|usize|usize]. }
  rewrite (bind_ok _ _ _ (o, ps) (take_page b rest las)) by done. cbv beta iota.
  unfold LogicalSlice_from_page, size_of_PageHeader. cbn [page_offset page_len].
  rewrite (usize_add_ok o b) by usize. cbn [mbind outcome_bind]. rewrite (usize_add_ok (o + b) 0) by usize.
  cbn [mbind outcome_bind]. rewrite usize_sub_ok by usize.
  rewrite (bind_ok _ _ _ (LogicalSlice_new (o + b) ps) (take_page b rest las)) by (unfold lift; simpl; do 3 f_equal; lia).
  rewrite page_offset_ok by usize.
  rewrite (bind_ok _ _ _ 0 (take_page b rest las)) by (unfold lift; do 2 f_equal; lia).
  unfold memref_split_at. cbn [mr_source mr_off mr_len]. rewrite decide_True by lia.
  unfold page_mutref, mbind, M_bind, lift. by rewrite Z.add_0_r, Z.sub_0_r.
Qed.

Lemma LogicalAddressSpace_alloc_none las :
  match LogicalAddressSpace_get_best_byte_addressable las with
  | Some (b, sa) => sa_freelist sa = [] ∧ las_get las b = Some sa
  | None => True
  end → LogicalAddressSpace_alloc las = (Err NoAvailableMemory, las).
Proof.
  intros Hn. unfold LogicalAddressSpace_alloc. rewrite (bind_ok _ _ _ las las) by done.
  destruct (LogicalAddressSpace_get_best_byte_addressable las) as [[b sa]|]; [|done].
  destruct Hn as [Hf Hg]. rewrite (bind_ok _ _ _ (b, sa) las) by done. cbv beta iota.
  rewrite (bind_fail _ _ _ (Throw NoAvailableMemory) las); [done|].
  apply (on_allocator_same _ _ _ sa); [done|]. unfold SourceAllocator_allocate_page.
  rewrite (bind_ok _ _ _ sa sa) by done. by rewrite Hf.
Qed.
End FreeMemory.

(** ** [GenericAllocator] *)
Section GenericAllocatorLemmas.
Context `{T : Target} `{C : Crc} {D : Type} `{Src : !Source D} `{Laws : !SourceLaws D}.
Abbreviation LAS := (LogicalAddressSpace D).
Implicit Types (las : LAS) (m : LogicalMutRef) (ga : GenericAllocator).

(** Parts of a range. *)
Lemma byte_range_sub las a len b k n : las_inv las → byte_range las a len b →
  0 ≤ k → 0 < n → k + n ≤ len → byte_range las (a + k) n b.
Proof.
  intros Hinv Hr Hk Hn Hkn. pose proof (inv_wf _ Hinv) as Hwf.
  destruct (byte_range_facts _ _ _ _ Hwf Hr)
    as (sa & _ & Hg & Hb & Hle & Hps & Hl & Hm & Hpg & Hsz & Hu & Hmle & Ha).
  set (ps := las_pagesize las) in *. set (size := blen (source_bytes (sa_source sa))) in *.
  pose proof (Z.div_mod (a - b) ps ltac:(lia)) as Hdm.
  assert ((a - b) / ps * ps + ps ≤ size / ps * ps) as Hwhole.
  { pose proof (Z.div_le_mono ((a - b) / ps * ps + ps) size ps ltac:(lia) ltac:(lia)) as Hd.
    replace ((a - b) / ps * ps + ps) with (((a - b) / ps + 1) * ps) in Hd by lia.
    rewrite Z.div_mul in Hd by lia. nia. }
  assert ((a + k - b) mod ps = (a - b) mod ps + k) as Hmod.
  { symmetry. apply Z.mod_unique_pos with ((a - b) / ps); lia. }
  split.
  - apply (las_home_inv las b sa); [done..|]. fold ps size. lia.
  - done.
  - fold ps. rewrite Hmod. lia.
  - exists sa. split_and!; [done..|]. fold ps size. rewrite Hmod. lia.
Qed.

(** What is left of [m] after [n] bytes. *)
Definition mutref_rest (n : Z) m : LogicalMutRef :=
  LogicalMutRef_new
    (mk_memref (mr_source (lm_data m)) (mr_off (lm_data m) + n) (mr_len (lm_data m) - n))
    (LogicalSlice_new (ls_offset (lm_slice m) + n) (ls_len (lm_slice m) - n)).
Definition mutref_first (n : Z) m : LogicalSlice * memref :=
  (LogicalSlice_new (ls_offset (lm_slice m)) n,
   mk_memref (mr_source (lm_data m)) (mr_off (lm_data m)) n).

Lemma try_consume_bytes_ok las m size : mutref_wf las m → 0 < size →
  LogicalMutRef_try_consume_bytes m size size =
    if decide (size ≤ mr_len (lm_data m))
    then Ok (mutref_rest size m, Some (mutref_first size m)) else Ok (m, None).
Proof.
  intros [Ho Hl Hr Hb Hf] Hs. unfold LogicalMutRef_try_consume_bytes. rewrite Hl.
  destruct (decide (size ≤ mr_len (lm_data m))) as [Hle|Hgt].
  - rewrite Z.min_r, decide_False by lia. rewrite usize_add_ok by usize.
    cbn [mbind outcome_bind]. rewrite usize_sub_ok by usize. cbn [mbind outcome_bind].
    unfold memref_split_at. rewrite decide_True by lia. unfold mutref_rest. by rewrite Hl.
  - by rewrite Z.min_l, decide_True by lia.
Qed.

Lemma mutref_rest_wf las m n : las_inv las → mutref_wf las m → 0 < n ≤ mr_len (lm_data m) →
  mutref_wf las (mutref_rest n m).
Proof.
  intros Hinv [Ho Hl Hr Hb Hf] Hn. split; simpl; try lia.
  intros k Hk. apply (byte_range_sub las _ (n + k)); [done|apply Hb; lia|lia..].
Qed.

(** Memory that can still be handed out: free pages, and what is left of the
    page the allocator is at. *)
Definition free_mem las (b o : Z) : Prop :=
  ∃ sa p, las_get las b = Some sa ∧ p ∈ sa_freelist sa ∧
    page_offset p ≤ o < page_offset p + page_len p.
Definition active_mem ga (b o : Z) : Prop :=
  ∃ m, ga_active ga = Some m ∧ mr_source (lm_data m) = b ∧
    mr_off (lm_data m) ≤ o < mr_off (lm_data m) + mr_len (lm_data m).
Definition owned las ga (b o : Z) : Prop := active_mem ga b o ∨ free_mem las b o.

Record ga_wf las ga : Prop := {
  ga_mutref m : ga_active ga = Some m → mutref_wf las m;
  ga_taken b o : active_mem ga b o → ¬ free_mem las b o
}.

Lemma take_page_free las b sa page rest : las_inv las → las_get las b = Some sa →
  sa_freelist sa = page :: rest →
  (∀ b' o, free_mem (take_page b rest las) b' o → free_mem las b' o) ∧
  (∀ o, page_offset page ≤ o < page_offset page + page_len page →
     free_mem las b o ∧ ¬ free_mem (take_page b rest las) b o).
Proof.
  intros Hinv Hg Hf. destruct (SourceAllocator_allocate_page_eq sa page rest) as (_ & _ & _ & Hap);
    [by apply (inv_allocators _ Hinv b)|done|]; split.
  - intros b' o (sa' & p & Hg' & Hp & Ho). rewrite take_page_get in Hg'.
    destruct (decide (b' = b)) as [->|]; [|by exists sa', p].
    rewrite Hg in Hg'. injection Hg' as <-. exists sa, p.
    split; [done|]. split; [|done]. rewrite Hf. by right.
  - intros o Ho. split; [exists sa, page; split; [done|]; split; [rewrite Hf; by left|done]|].
    intros (sa' & p & Hg' & Hp & Ho'). rewrite take_page_get, decide_True, Hg in Hg' by done.
    injection Hg' as <-. rewrite Forall_forall in Hap. specialize (Hap p Hp).
    unfold apart in Hap. simpl in Hap. lia.
Qed.

(** *** One round of the loop *)
Lemma GenericAllocator_alloc_active las ga m size : ga_active ga = Some m → mutref_wf las m →
  0 < size ≤ mr_len (lm_data m) → ∀ fuel page_full,
  GenericAllocator_alloc_loop (S fuel) page_full size (ga, las) =
    (Ok (mutref_first size m), (mk_GenericAllocator (Some (mutref_rest size m)), las)).
Proof.
  intros Hact Hm Hs fuel page_full. cbn [GenericAllocator_alloc_loop].
  rewrite (bind_ok _ _ _ ga (ga, las)) by done. rewrite Hact.
  rewrite (bind_ok _ _ _ (m, page_full) (ga, las)) by done. cbv beta iota.
  rewrite (try_consume_bytes_ok las) by (done || lia). rewrite decide_True by lia.
  by rewrite (bind_ok _ _ _ (mutref_rest size m, Some (mutref_first size m)) (ga, las)) by done.
Qed.

(** A page that is too small is given up for a fresh one. *)
Lemma GenericAllocator_alloc_retry las ga m size : ga_active ga = Some m → mutref_wf las m →
  mr_len (lm_data m) < size → 0 < size → ∀ fuel,
  GenericAllocator_alloc_loop (S fuel) false size (ga, las) =
  GenericAllocator_alloc_loop fuel false size (GenericAllocator_new, las).
Proof.
  intros Hact Hm Hs H0 fuel. cbn [GenericAllocator_alloc_loop].
  rewrite (bind_ok _ _ _ ga (ga, las)) by done. rewrite Hact.
  rewrite (bind_ok _ _ _ (m, false) (ga, las)) by done. cbv beta iota.
  rewrite (try_consume_bytes_ok las) by (done || lia). rewrite decide_False by lia.
  by rewrite (bind_ok _ _ _ (m, None) (ga, las)) by done.
Qed.

Lemma GenericAllocator_alloc_empty las fuel page_full size b sa page rest : las_inv las →
  LogicalAddressSpace_get_best_byte_addressable las = Some (b, sa) → sa_freelist sa = page :: rest →
  0 < size → let m := page_mutref b (las_pagesize las) page in let las' := take_page b rest las in
  GenericAllocator_alloc_loop (S fuel) page_full size (GenericAllocator_new, las) =
    if decide (size ≤ las_pagesize las)
    then (Ok (mutref_first size m), (mk_GenericAllocator (Some (mutref_rest size m)), las'))
    else (Err AllocationTooLarge, (mk_GenericAllocator (Some m), las')).
Proof.
  cbv zeta. intros Hinv Hbest Hfree Hs.
  destruct (LogicalAddressSpace_alloc_ok las b sa page rest Hinv Hbest Hfree) as (Halloc & Hg & Hb).
  assert (mutref_wf las (page_mutref b (las_pagesize las) page)) as Hm.
  { apply page_mutref_wf with sa; try done.
    destruct (las_wf_size _ (inv_wf _ Hinv) _ _ Hg) as (_ & _ & <-).
    apply (SourceAllocator_allocate_page_eq sa page rest); [by apply (inv_allocators _ Hinv b)|done]. }
  cbn [GenericAllocator_alloc_loop].
  rewrite (bind_ok _ _ _ GenericAllocator_new (GenericAllocator_new, las)) by done. cbn [GenericAllocator_new ga_active].
  set (m := page_mutref b (las_pagesize las) page) in *.
  rewrite (bind_ok _ _ _ (m, true) (mk_GenericAllocator (Some m), take_page b rest las)).
  2:{ unfold mbind, M_bind, on_las, zoom, LogicalAddressSpace_boxed_page_alloc. cbn [snd]. by rewrite Halloc. }
  cbv beta iota. rewrite (try_consume_bytes_ok las) by (done || lia). cbn [lm_data page_mutref mr_len] in m |- *.
  destruct (decide (size ≤ las_pagesize las)) as [Hle|Hgt].
  - by rewrite (bind_ok _ _ _ (mutref_rest size m, Some (mutref_first size m))
      (mk_GenericAllocator (Some m), take_page b rest las)) by (unfold lift; subst m; cbn; by rewrite decide_True by lia).
  - by rewrite (bind_ok _ _ _ (m, None)
      (mk_GenericAllocator (Some m), take_page b rest las)) by (unfold lift; subst m; cbn; by rewrite decide_False by lia).
Qed.

Lemma GenericAllocator_alloc_fails las fuel page_full size :
  LogicalAddressSpace_alloc las = (Err NoAvailableMemory, las) →
  GenericAllocator_alloc_loop (S fuel) page_full size (GenericAllocator_new, las) =
    (Err NoAvailableMemory, (GenericAllocator_new, las)).
Proof.
  intros Halloc. cbn [GenericAllocator_alloc_loop].
  rewrite (bind_ok _ _ _ GenericAllocator_new (GenericAllocator_new, las)) by done. cbn [GenericAllocator_new ga_active].
  rewrite (bind_fail _ _ _ (Throw NoAvailableMemory) (GenericAllocator_new, las)); [done|].
  unfold mbind, M_bind, on_las, zoom, LogicalAddressSpace_boxed_page_alloc. cbn [snd]. by rewrite Halloc.
Qed.

(** The next page [alloc] would hand out. *)
Definition next_page las : option (Z * Page * list Page) :=
  '(b, sa) ← LogicalAddressSpace_get_best_byte_addressable las;
  match sa_freelist sa with [] => None | page :: rest => Some (b, page, rest) end.

(** What [alloc] does, as a function of what the allocator has left. *)
Definition alloc_spec las ga (size : Z) :
    outcome (LogicalSlice * memref) * (GenericAllocator * LAS) :=
  let fresh :=
    match next_page las with
    | None => (Err NoAvailableMemory, (GenericAllocator_new, las))
    | Some (b, page, rest) =>
        let m := page_mutref b (las_pagesize las) page in
        if decide (size ≤ las_pagesize las)
        then (Ok (mutref_first size m), (mk_GenericAllocator (Some (mutref_rest size m)), take_page b rest las))
        else (Err AllocationTooLarge, (mk_GenericAllocator (Some m), take_page b rest las))
    end in
  match ga_active ga with
  | Some m =>
      if decide (size ≤ mr_len (lm_data m))
      then (Ok (mutref_first size m), (mk_GenericAllocator (Some (mutref_rest size m)), las))
      else fresh
  | None => fresh
  end.

Lemma best_byte_get las b sa : las_inv las →
  LogicalAddressSpace_get_best_byte_addressable las = Some (b, sa) →
  las_get las b = Some sa ∧ SourceAllocator_is_byte_addressable sa = true.
Proof.
  unfold LogicalAddressSpace_get_best_byte_addressable, LogicalAddressSpace_get_best_source.
  intros Hinv [Hin Hb]%find_some. split; [|done].
  apply btree_get_elem; [apply Hinv|by apply list_elem_of_In].
Qed.

Lemma GenericAllocator_alloc_loop_eq las ga size fuel : las_inv las → ga_wf las ga → 0 < size →
  GenericAllocator_alloc_loop (S (S fuel)) false size (ga, las) = alloc_spec las ga size.
Proof.
  intros Hinv Hga Hs.
  assert (∀ fuel, GenericAllocator_alloc_loop (S fuel) false size (GenericAllocator_new, las) =
    alloc_spec las GenericAllocator_new size) as Hfresh.
  { clear fuel. intros fuel. unfold alloc_spec, next_page. cbn [GenericAllocator_new ga_active].
    destruct (LogicalAddressSpace_get_best_byte_addressable las) as [[b sa]|] eqn:Hbest; simpl.
    - destruct (sa_freelist sa) as [|page rest] eqn:Hf.
      + apply (GenericAllocator_alloc_fails las fuel false), LogicalAddressSpace_alloc_none. rewrite Hbest.
        split; [done|by apply best_byte_get].
      + by apply (GenericAllocator_alloc_empty las fuel false size b sa page rest).
    - apply (GenericAllocator_alloc_fails las fuel false), LogicalAddressSpace_alloc_none. by rewrite Hbest. }
  destruct (ga_active ga) as [m|] eqn:Hact.
  - pose proof (ga_mutref _ _ Hga m Hact) as Hm.
    destruct (decide (size ≤ mr_len (lm_data m))) as [Hle|Hgt].
    + rewrite (GenericAllocator_alloc_active las ga m) by (done || lia).
      unfold alloc_spec. by rewrite Hact, decide_True.
    + rewrite (GenericAllocator_alloc_retry las ga m) by (done || lia). rewrite Hfresh.
      unfold alloc_spec. rewrite Hact. by rewrite decide_False.
  - destruct ga as [active]. simpl in Hact. subst. apply Hfresh.
Qed.

Lemma GenericAllocator_alloc_eq las ga size : las_inv las → ga_wf las ga → 0 < size →
  GenericAllocator_alloc size (ga, las) = alloc_spec las ga size.
Proof. apply GenericAllocator_alloc_loop_eq. Qed.
End GenericAllocatorLemmas.

(** ** What an allocation guarantees *)
Section AllocationFacts.
Context `{T : Target} `{C : Crc} {D : Type} `{Src : !Source D} `{Laws : !SourceLaws D}.
Abbreviation LAS := (LogicalAddressSpace D).
Implicit Types (las : LAS) (m : LogicalMutRef) (ga : GenericAllocator).

Lemma mutref_wf_shape las las' m : las_shape las' = las_shape las → mutref_wf las m → mutref_wf las' m.
Proof.
  intros Hs [Ho Hl Hr Hb Hf]. split; try done. intros n Hn. by apply (byte_range_shape las), Hb.
Qed.

Lemma ga_wf_new las : ga_wf las GenericAllocator_new.
Proof. split; [done|]. by intros b o (m & ? & _). Qed.

(** Taking the first [n] bytes of the page the allocator is at. *)
Lemma active_rest_mem m n b o : 0 < n →
  active_mem (mk_GenericAllocator (Some (mutref_rest n m))) b o →
  active_mem (mk_GenericAllocator (Some m)) b o ∧
  ¬ (b = mr_source (lm_data m) ∧ mr_off (lm_data m) ≤ o < mr_off (lm_data m) + n).
Proof.
  intros Hn (m' & [= <-] & Hb & Ho). cbn [mutref_rest lm_data mr_source mr_off mr_len] in *.
  split; [exists m; split; [done|]; split; [done|lia]|lia].
Qed.

(** What [alloc] leaves behind, whatever it returned. *)
Record alloc_frame las ga las' ga' : Prop := {
  af_inv : las_inv las';
  af_wf : ga_wf las' ga';
  af_shape : las_shape las' = las_shape las;
  af_mem b o n : mem las' b o n = mem las b o n;
  af_free b o : free_mem las' b o → free_mem las b o;
  af_owned b o : owned las' ga' b o → owned las ga b o
}.

(** A block of memory handed out: a range of the right size that was free
    and no longer is. *)
Record alloc_block las ga las' ga' (size : Z) (s : LogicalSlice) (r : memref) : Prop := {
  ab_len : ls_len s = size ∧ mr_len r = size;
  ab_offset : ls_offset s = mr_source r + mr_off r;
  ab_range : byte_range las (ls_offset s) size (mr_source r);
  ab_owned o : mr_off r ≤ o < mr_off r + size → owned las ga (mr_source r) o;
  ab_taken o : mr_off r ≤ o < mr_off r + size → ¬ owned las' ga' (mr_source r) o
}.

(** Carving from a page that is the allocator's own. *)
Lemma carve_frame las m n : las_inv las → ga_wf las (mk_GenericAllocator (Some m)) →
  0 < n ≤ mr_len (lm_data m) →
  alloc_frame las (mk_GenericAllocator (Some m)) las (mk_GenericAllocator (Some (mutref_rest n m))) ∧
  alloc_block las (mk_GenericAllocator (Some m)) las (mk_GenericAllocator (Some (mutref_rest n m))) n
    (mutref_first n m).1 (mutref_first n m).2.
Proof.
  intros Hinv [Hm Ht] Hn. specialize (Hm m eq_refl).
  assert (∀ b o, active_mem (mk_GenericAllocator (Some (mutref_rest n m))) b o →
    active_mem (mk_GenericAllocator (Some m)) b o) as Hsub by (intros b o Ha; by apply (active_rest_mem m n b o ltac:(lia))).
  split; split; try done.
  - split; [intros m' [= <-]; by apply mutref_rest_wf|]. intros b o Ha. apply Ht, Hsub, Ha.
  - intros b o [Ha|Hf]; [left; by apply Hsub|by right].
  - apply Hm.
  - by apply (mw_bytes _ _ Hm).
  - intros o Ho. left. exists m. split; [done|]. split; [done|]. cbn in Ho. lia.
  - intros o Ho [Ha|Hf].
    + apply active_rest_mem in Ha as [_ Ha]; [|lia]. by apply Ha.
    + apply (Ht (mr_source (lm_data m)) o); [|done]. exists m. split; [done|]. split; [done|]. cbn in Ho. lia.
Qed.

(** A fresh page becomes the allocator's own. *)
Lemma fresh_page_frame las ga b page rest : las_inv las → next_page las = Some (b, page, rest) →
  let m := page_mutref b (las_pagesize las) page in
  alloc_frame las ga (take_page b rest las) (mk_GenericAllocator (Some m)) ∧ 0 < las_pagesize las ∧
  (∀ o, active_mem (mk_GenericAllocator (Some m)) b o → free_mem las b o).
Proof.
  unfold next_page. cbv zeta. intros Hinv Hn.
  destruct (LogicalAddressSpace_get_best_byte_addressable las) as [[b' sa]|] eqn:Hbest; [|done]. simpl in Hn.
  destruct (sa_freelist sa) as [|page' rest'] eqn:Hfree; [done|]. injection Hn as -> -> ->.
  destruct (best_byte_get las b sa Hinv Hbest) as [Hg Hb].
  destruct (SourceAllocator_allocate_page_eq sa page rest (inv_allocators _ Hinv _ _ Hg) Hfree) as (_ & _ & Hfit & _).
  destruct (las_wf_size _ (inv_wf _ Hinv) _ _ Hg) as (_ & _ & Hps). rewrite Hps in Hfit.
  destruct (take_page_free las b sa page rest Hinv Hg Hfree) as [Hsub Htaken].
  pose proof (is_pow2_range _ (las_wf_pagesize _ (inv_wf _ Hinv))) as Hpr.
  assert (∀ b' o, active_mem (mk_GenericAllocator (Some (page_mutref b (las_pagesize las) page))) b' o →
    b' = b ∧ page_offset page ≤ o < page_offset page + page_len page) as Hact.
  { intros b' o (m & [= <-] & Hbb & Ho). simpl in *. split; [done|]. destruct Hfit as [-> _]. lia. }
  split; [split|split; [lia|]].
  - by apply take_page_inv with sa page.
  - split.
    + intros m [= <-]. apply (mutref_wf_shape las); [apply take_page_shape|]. by apply page_mutref_wf with sa.
    + intros b' o Ha. apply Hact in Ha as [-> Ho]. by apply Htaken.
  - apply take_page_shape.
  - intros. apply take_page_mem.
  - done.
  - intros b' o [Ha|Hf]; right; [|by apply Hsub]. apply Hact in Ha as [-> Ho]. by apply Htaken.
  - intros o Ha. apply Hact in Ha as [_ Ho]. by apply Htaken.
Qed.

Lemma alloc_frame_trans las ga las1 ga1 las2 ga2 :
  alloc_frame las ga las1 ga1 → alloc_frame las1 ga1 las2 ga2 → alloc_frame las ga las2 ga2.
Proof.
  intros [H1 H2 H3 H4 H5 H6] [K1 K2 K3 K4 K5 K6]. split; [done|done|by etrans| | |]; intros.
  - by rewrite K4.
  - by apply H5, K5.
  - by apply H6, K6.
Qed.

Definition alloc_result las ga (size : Z) (res : outcome (LogicalSlice * memref) * (GenericAllocator * LAS)) : Prop :=
  let '(o, (ga', las')) := res in
  alloc_frame las ga las' ga' ∧
  match o with
  | Ok (s, r) => alloc_block las ga las' ga' size s r
  | Fail f => f = Throw AllocationTooLarge ∧ las_pagesize las < size ∨
      f = Throw NoAvailableMemory ∧ next_page las = None
  end.

Lemma alloc_frame_refl las ga : las_inv las → ga_wf las ga → alloc_frame las ga las ga.
Proof. by split. Qed.

Lemma fresh_alloc_sound las ga size : las_inv las → ga_wf las ga → 0 < size →
  alloc_result las ga size (alloc_spec las GenericAllocator_new size).
Proof.
  intros Hinv Hga Hs. unfold alloc_spec. cbn [GenericAllocator_new ga_active].
  destruct (next_page las) as [[[b page] rest]|] eqn:Hn; cbn.
  - destruct (fresh_page_frame las ga b page rest Hinv Hn) as (Hf & Hps & Hfree).
    set (m := page_mutref b (las_pagesize las) page) in *.
    destruct (decide (size ≤ las_pagesize las)) as [Hle|Hgt]; cbn.
    + destruct (carve_frame (take_page b rest las) m size) as [Hc Hb]; [apply Hf|apply Hf|by split|].
      split; [by eapply alloc_frame_trans|]. destruct Hb as [B1 B2 B3 B4 B5]. split; try done.
      * apply (byte_range_shape (take_page b rest las)); [by rewrite take_page_shape|done].
      * intros o Ho. apply (af_owned _ _ _ _ Hf). by apply B4.
    + split; [done|]. left. split; [done|lia].
  - split; [|by right]. split; try done; [apply ga_wf_new|]. intros b o [(m & ? & _)|Hf]; [done|by right].
Qed.

Lemma GenericAllocator_alloc_sound las ga size : las_inv las → ga_wf las ga → 0 < size →
  alloc_result las ga size (GenericAllocator_alloc size (ga, las)).
Proof.
  intros Hinv Hga Hs. rewrite GenericAllocator_alloc_eq by done.
  destruct ga as [[m|]] eqn:Hact; [|by apply fresh_alloc_sound].
  destruct (decide (size ≤ mr_len (lm_data m))) as [Hle|Hgt].
  - unfold alloc_spec. cbn [ga_active]. rewrite decide_True by done.
    destruct (carve_frame las m size) as [Hf Hb]; [done..|by split|]. by split.
  - pose proof (fresh_alloc_sound las (mk_GenericAllocator (Some m)) size Hinv Hga Hs) as Hfresh.
    unfold alloc_spec in *. cbn [ga_active GenericAllocator_new] in *. by rewrite decide_False.
Qed.

(** *** Alignment

    What an allocator has left starts where an atomic can be, if it holds one. *)
Definition ga_aligned ga : Prop :=
  ∀ m, ga_active ga = Some m → 8 ≤ mr_len (lm_data m) → aligned 8 (mr_off (lm_data m)).

Lemma ga_aligned_new : ga_aligned GenericAllocator_new.
Proof. done. Qed.

Lemma mutref_rest_aligned m n : aligned 8 n → 0 ≤ n → (8 ≤ mr_len (lm_data m) → aligned 8 (mr_off (lm_data m))) →
  ga_aligned (mk_GenericAllocator (Some (mutref_rest n m))).
Proof.
  intros Hn Hpos Hm m' [= <-] Hlen. cbn [mutref_rest lm_data mr_len mr_off] in *. apply aligned_add; [done| |done].
  apply Hm. lia.
Qed.

Lemma next_page_aligned las b page rest : las_inv las → next_page las = Some (b, page, rest) → 8 ≤ las_pagesize las →
  aligned 8 (page_offset page).
Proof.
  unfold next_page. intros Hinv Hn H8.
  destruct (LogicalAddressSpace_get_best_byte_addressable las) as [[b' sa]|] eqn:Hbest; [|done]. simpl in Hn.
  destruct (sa_freelist sa) as [|page' rest'] eqn:Hfree; [done|]. injection Hn as -> -> ->.
  destruct (best_byte_get las b sa Hinv Hbest) as [Hg _].
  destruct (SourceAllocator_allocate_page_eq sa page rest (inv_allocators _ Hinv _ _ Hg) Hfree) as (_ & _ & Hfit & _).
  destruct (las_wf_size _ (inv_wf _ Hinv) _ _ Hg) as (_ & _ & Hps). rewrite Hps in Hfit.
  apply (aligned_page (las_pagesize las)); [apply (las_wf_pagesize _ (inv_wf _ Hinv))|done|apply Hfit].
Qed.

(** A block starts where an atomic can be; so does what is left behind it. *)
Lemma GenericAllocator_alloc_aligned las ga size : las_inv las → ga_wf las ga → ga_aligned ga → 8 ≤ size →
  let '(o, (ga', las')) := GenericAllocator_alloc size (ga, las) in
  (aligned 8 size → ga_aligned ga') ∧ ∀ s r, o = Ok (s, r) → aligned 8 (mr_off r).
Proof.
  intros Hinv Hga Hal Hs. rewrite GenericAllocator_alloc_eq by (done || lia). unfold alloc_spec.
  set (fresh := match next_page las with Some _ => _ | None => _ end).
  assert (let '(o, (ga', las')) := fresh in
    (aligned 8 size → ga_aligned ga') ∧ ∀ s r, o = Ok (s, r) → aligned 8 (mr_off r)) as Hfresh.
  { subst fresh. destruct (next_page las) as [[[b page] rest]|] eqn:Hn; [|done].
    pose proof (next_page_aligned las b page rest Hinv Hn) as Hpg. case_decide as Hle; (split; [|intros s r]); try done.
    - intros. apply mutref_rest_aligned; [done|lia|done].
    - intros [= <- <-]. apply Hpg. lia.
    - intros _ m [= <-]. exact Hpg. }
  destruct (ga_active ga) as [m|] eqn:Hact; [|done]. destruct (decide (size ≤ mr_len (lm_data m))) as [Hle|]; [|done].
  pose proof (Hal m Hact) as Hm. split; [intros; apply mutref_rest_aligned; [done|lia|done]|].
  intros s r [= <- <-]. apply Hm. lia.
Qed.

(** C26: an allocator hands out memory once: a block has the size asked for, lies
    in one page of one source, was free (a free page, or what was left of the
    allocator's page) before the call and is not free after it; no memory
    becomes free and no byte changes; and the call fails only for a block
    larger than a page or with no free page left. *)
Theorem GenericAllocator_alloc_fresh las ga size : las_inv las → ga_wf las ga → 0 < size →
  ∃ result ga' las', GenericAllocator_alloc size (ga, las) = (result, (ga', las')) ∧
    las_inv las' ∧ ga_wf las' ga' ∧
    (∀ b o n, mem las' b o n = mem las b o n) ∧
    (∀ b o, owned las' ga' b o → owned las ga b o) ∧
    match result with
    | Ok (s, r) =>
        ls_len s = size ∧ mr_len r = size ∧ ls_offset s = mr_source r + mr_off r ∧
        byte_range las (ls_offset s) size (mr_source r) ∧
        ∀ o, mr_off r ≤ o < mr_off r + size →
          owned las ga (mr_source r) o ∧ ¬ owned las' ga' (mr_source r) o
    | Fail f => f = Throw AllocationTooLarge ∧ las_pagesize las < size ∨
        f = Throw NoAvailableMemory ∧ next_page las = None
    end.
Proof.
  intros Hinv Hga Hs. pose proof (GenericAllocator_alloc_sound las ga size Hinv Hga Hs) as Hr.
  destruct (GenericAllocator_alloc size (ga, las)) as [o [ga' las']].
  destruct Hr as [[H1 H2 H3 H4 H5 H6] Ho]. exists o, ga', las'. do 5 (split; [done|]).
  destruct o as [[s r]|f]; [|done]. destruct Ho as [[B0 B1] B2 B3 B4 B5]. split_and!; auto.
Qed.

(** C27: the loop of [alloc] always comes back within two rounds: it never runs
    for ever, panics or leaves defined behaviour, and a block that fits a page
    is refused only when the first byte-addressable source has no page left;
    pages of the sources behind it are not looked at. *)
Theorem GenericAllocator_alloc_total las ga size fuel : las_inv las → ga_wf las ga → 0 < size →
  (2 ≤ fuel)%nat →
  GenericAllocator_alloc_loop fuel false size (ga, las) = alloc_spec las ga size ∧
  match (alloc_spec las ga size).1 with
  | Ok _ => True
  | Fail f => f = Throw AllocationTooLarge ∧ las_pagesize las < size ∨
      f = Throw NoAvailableMemory ∧ next_page las = None
  end.
Proof.
  intros Hinv Hga Hs Hfuel. split.
  - destruct fuel as [|[|fuel]]; [lia..|]. by apply GenericAllocator_alloc_loop_eq.
  - pose proof (GenericAllocator_alloc_sound las ga size Hinv Hga Hs) as Hr.
    rewrite GenericAllocator_alloc_eq in Hr by done.
    destruct (alloc_spec las ga size) as [[[]|f] [ga' las']]; [done|]. apply Hr.
Qed.
End AllocationFacts.
