(* ===== verification/Mapping.v ===== *)
(** * Mapping fresh sources

    [LogicalAddressSpace::new] on sources that no heap was on: it maps them one
    behind the other, and the address space has the invariant that all that is
    proved about it rests on. *)
From Stdlib Require Import Sorting.Sorted.
From stdpp Require Import sorting.
From S2P Require Import Prelude Utils Source SourceAllocator Slices Las Memory Allocators.

Section Mapping.
Context `{T : Target} `{TOk : !TargetOk T} `{C : Crc} {D : Type} `{Src : !Source D} `{Laws : !SourceLaws D}.
Context (ps : Z) (ps_pow2 : is_pow2 ps) (ps_header : size_of_SourceHeader ≤ ps) (ps_meta : size_of_Meta ≤ ps).
Implicit Types (sa : SourceAllocator D) (source : D) (l : list (LogicalAddress * SourceAllocator D)) (us : list (SourceAllocator D)).

Definition size_of sa : Z := blen (source_bytes (sa_source sa)).
(** Whole pages. *)
Definition whole_size sa : Z := size_of sa / ps * ps.

(** ** A source that no heap was on *)
Record fresh source : Prop := {
  fr_size : 2 * ps ≤ blen (source_bytes source);
  fr_usize : is_usize (blen (source_bytes source));
  fr_meta : Meta_is_valid (Meta_decode (slice ps ps (source_bytes source))) = false
}.

(** Once its allocator is made: everything but the header page is as it was. *)
Record ready_source source sa : Prop := {
  rs_wf : allocator_wf sa;
  rs_pagesize : sa_pagesize sa = ps;
  rs_flags : source_flags (sa_source sa) = source_flags source;
  rs_size : size_of sa = blen (source_bytes source);
  rs_meta : slice ps ps (source_bytes (sa_source sa)) = slice ps ps (source_bytes source)
}.

Lemma new_ready valid source sa : fresh source → SourceAllocator_new source ps valid = Ok sa → ready_source source sa.
Proof.
  intros [F1 F2 F3] Hnew. pose proof (is_pow2_range _ ps_pow2) as Hps.
  pose proof (SourceAllocator_new_inv _ _ _ _ Hnew) as Hinit.
  apply SourceAllocator_initialize_ok in Hinit as (sa1 & Hchk & Hsame & Hf1 & Hfree); [|done..].
  destruct (initialized_wf valid (source_bytes source) ps sa1 sa) as [Hwf Hsp]; [done..|]. destruct Hsame as [[Hfl Hb] Hp].
  assert (size_of_SourceHeader ≤ blen (source_bytes source)) as Hle by lia.
  pose proof (header_checked_len _ _ _ Hle Hchk) as Hlen. split; try done.
  - congruence.
  - unfold size_of. by rewrite Hb, Hlen.
  - rewrite Hb. destruct Hchk as (_ & _ & H). destruct (SourceHeader_is_valid _) in H; [by destruct H as [_ ->]|].
    rewrite H. apply slice_splice_apart; rewrite ?blen_SourceHeader; unfold apart; cbn [fst snd]; usize.
Qed.

(** One iteration of the first loop: the source is put aside, in a heap that
    is to be created. *)
Lemma open_fresh_created valid create source acc acc' : fresh source → new_open_source ps valid create acc source = Ok acc' →
  create = true ∧ ∃ sa, ready_source source sa ∧ acc' = mk_opening (op_sources acc) (op_unallocated acc ++ [sa]) (op_root acc).
Proof.
  intros Hf Ho. unfold new_open_source in Ho. pose proof (is_pow2_range _ ps_pow2) as Hps.
  destruct (SourceAllocator_new source ps valid) as [sa|] eqn:Hnew; [|done]. cbn [mbind outcome_bind] in Ho.
  pose proof (new_ready valid source sa Hf Hnew) as [R1 R2 R3 R4 R5].
  unfold SourceAllocator_read_into in Ho. cbn [page_len page_offset SourceAllocator_get_meta] in Ho. rewrite R2 in Ho.
  rewrite bool_decide_true, (bind_ok _ _ _ tt sa) in Ho by (done || lia).
  destruct (source_read ps ps (sa_source sa)) as [o s'] eqn:Er.
  rewrite (on_source_eq _ _ _ _ Er) in Ho. destruct o as [data|]; [|done].
  pose proof (source_read_same ps ps (sa_source sa)) as [Hfl Hb]. rewrite Er in Hfl, Hb. cbn [snd] in Hfl, Hb.
  apply source_read_ok in Er as [-> Hlen]; [|usize|usize]. cbn [mbind outcome_bind] in Ho.
  rewrite any_from_vec_ok in Ho by (rewrite Hlen; done). cbn [mbind outcome_bind] in Ho. rewrite R5, (fr_meta _ Hf) in Ho.
  destruct create; [|done]. split; [done|].
  injection Ho as <-. exists (with_device s' sa). split; [|done].
  destruct R1 as [W1 W2 W3 W4]. split; [split|..]; cbn [with_device sa_source sa_pagesize sa_freelist]; unfold size_of in *; cbn [with_device sa_source]; rewrite ?Hb; try done.
  congruence.
Qed.

Lemma open_fresh valid source acc acc' : fresh source → new_open_source ps valid true acc source = Ok acc' →
  ∃ sa, ready_source source sa ∧ acc' = mk_opening (op_sources acc) (op_unallocated acc ++ [sa]) (op_root acc).
Proof. intros Hf Ho. by apply (open_fresh_created valid true). Qed.

Lemma open_all valid sources acc acc' : Forall fresh sources →
  fold_outcome (new_open_source ps valid true) acc sources = Ok acc' →
  ∃ us, Forall2 ready_source sources us ∧ acc' = mk_opening (op_sources acc) (op_unallocated acc ++ us) (op_root acc).
Proof.
  intros Hf. revert acc. induction Hf as [|source sources Hs _ IH]; intros acc Ho.
  - injection Ho as <-. exists []. split; [constructor|]. rewrite app_nil_r. by destruct acc.
  - cbn [fold_outcome] in Ho. destruct (new_open_source ps valid true acc source) as [acc1|] eqn:E; [|done].
    destruct (open_fresh valid source acc acc1 Hs E) as (sa & Hr & ->). destruct (IH _ Ho) as (us & Hus & ->).
    exists (sa :: us). split; [by constructor|]. cbn [op_sources op_unallocated op_root]. by rewrite <- app_assoc.
Qed.

(** ** The layout *)

(** What is mapped, and where the next source comes: each behind the whole
    pages of the one before.  Its root is unused. *)
Record mapped_source sa : Prop := {
  ms_wf : allocator_wf sa;
  ms_pagesize : sa_pagesize sa = ps;
  ms_size : 2 * ps ≤ size_of sa;
  ms_root : slice (ps + off_meta_root) ROOT_SIZE (source_bytes (sa_source sa)) = zeros ROOT_SIZE
}.

Inductive mapped : list (LogicalAddress * SourceAllocator D) → Z → Z → Prop :=
| mapped_none : mapped [] 0 0
| mapped_one l b fin sa : mapped l b fin → mapped_source sa →
    mapped (l ++ [(b, sa)]) (b + whole_size sa) (fin + size_of sa).

Lemma whole_size_bounds sa : 2 * ps ≤ size_of sa → 0 < whole_size sa ≤ size_of sa ∧ (ps | whole_size sa) ∧
  whole_size sa = size_of sa - size_of sa mod ps.
Proof.
  intros Hs. pose proof (is_pow2_range _ ps_pow2) as Hps. unfold whole_size.
  pose proof (Z.div_mod (size_of sa) ps ltac:(lia)). pose proof (Z.mod_pos_bound (size_of sa) ps ltac:(lia)).
  split_and!; try lia. by apply Z.divide_factor_r.
Qed.

Lemma mapped_next l b fin : mapped l b fin → 0 ≤ b ≤ fin ∧ (ps | b).
Proof.
  induction 1 as [|l b fin sa _ [IH1 IH2] Hs]; [by split; [|apply Z.divide_0_r]|].
  destruct (whole_size_bounds sa (ms_size _ Hs)) as (? & ? & _). split; [lia|by apply Z.divide_add_r].
Qed.

Lemma mapped_each l b fin e : mapped l b fin → e ∈ l →
  mapped_source e.2 ∧ 0 ≤ e.1 ∧ (ps | e.1) ∧ e.1 + size_of e.2 ≤ fin ∧ e.1 + whole_size e.2 ≤ b ∧
  ∀ b', b' ∈ l.*1 → e.1 < b' → e.1 + whole_size e.2 ≤ b'.
Proof.
  intros Hm. revert e. induction Hm as [|l b fin sa Hm IH Hs]; intros e He; [by apply elem_of_nil in He|].
  destruct (mapped_next l b fin Hm) as [Hb Hd]. destruct (whole_size_bounds sa (ms_size _ Hs)) as (? & _).
  apply elem_of_app in He as [He|He%list_elem_of_singleton].
  - destruct (IH e He) as (I1 & I2 & I3 & I4 & I5 & I6). split_and!; try done; try lia.
    intros b' Hb'. rewrite fmap_app in Hb'. apply elem_of_app in Hb' as [Hb'|Hb'%list_elem_of_singleton]; [by apply I6|]. simpl in Hb'. lia.
  - subst e. cbn [fst snd]. split_and!; try done; try lia. intros b' Hb' Hlt. rewrite fmap_app in Hb'.
    apply elem_of_app in Hb' as [Hb'|Hb'%list_elem_of_singleton]; [|simpl in Hb'; lia].
    apply list_elem_of_fmap in Hb' as (e' & -> & He'). destruct (IH e' He') as (Hs' & ? & _ & _ & ? & _).
    destruct (whole_size_bounds e'.2 (ms_size _ Hs')) as (? & _). lia.
Qed.

Lemma mapped_sorted l b fin : mapped l b fin → StronglySorted Z.lt l.*1.
Proof.
  induction 1 as [|l b fin sa Hm IH _]; [constructor|]. rewrite fmap_app. apply StronglySorted_app_2; [|done|repeat constructor].
  intros x y Hx Hy%list_elem_of_singleton. simpl in Hy. subst y. apply list_elem_of_fmap in Hx as (e & -> & He).
  destruct (mapped_each l b fin e Hm He) as (Hs & _ & _ & _ & ? & _).
  destruct (whole_size_bounds e.2 (ms_size _ Hs)) as (? & _). lia.
Qed.

(** One iteration of the second loop: the source is mapped behind the others,
    and its meta page says so. *)
Lemma btree_set_last {V} (l : list (Z * V)) b v v' : b ∉ l.*1 → btree_set b v' (l ++ [(b, v)]) = l ++ [(b, v')].
Proof.
  induction l as [|[k w] l IH]; intros Hn; cbn [app btree_set]; [by rewrite decide_True|].
  apply not_elem_of_cons in Hn as [Hk Hn]. simpl in Hk. by rewrite decide_False, IH.
Qed.

Lemma btree_insert_last {V} (l : list (Z * V)) b v : Forall (λ k, k < b) l.*1 → btree_insert b v l = l ++ [(b, v)].
Proof.
  induction l as [|[k w] l IH]; intros Hl; cbn [app btree_insert]; [done|]. csimpl in Hl. apply Forall_cons in Hl as [Hk Hl].
  rewrite !decide_False by lia. by rewrite IH.
Qed.

Lemma length_ready sa n sa' : allocator_wf sa → sa_pagesize sa = ps → 2 * ps ≤ size_of sa → SourceAllocator_length sa = (Ok n, sa') →
  n = whole_size sa ∧ allocator_same sa sa' ∧ sa_freelist sa' = sa_freelist sa.
Proof.
  intros [W1 W2 W3 W4] Hp Hs Hl. apply SourceAllocator_length_ok in Hl as (? & ? & ->); [|done|done].
  destruct (whole_size_bounds sa Hs) as (_ & _ & ->). by rewrite Hp.
Qed.

Lemma allocator_wf_same sa sa' : allocator_same sa sa' → sa_freelist sa' = sa_freelist sa → allocator_wf sa → allocator_wf sa'.
Proof. intros [[_ Hb] Hp] Hf [W1 W2 W3 W4]. split; by rewrite ?Hb, ?Hp, ?Hf. Qed.

Lemma mapped_source_same sa sa' : allocator_same sa sa' → sa_freelist sa' = sa_freelist sa → mapped_source sa → mapped_source sa'.
Proof.
  intros Hs Hf [M1 M2 M3 M4]. pose proof Hs as [[_ Hb] Hp]. split; unfold size_of in *; rewrite ?Hb, ?Hp; try done.
  by apply (allocator_wf_same sa).
Qed.

Lemma mapped_head l b fin : mapped l b fin → l = [] ∨ ∃ sa l', l = (0, sa) :: l'.
Proof.
  induction 1 as [|l b fin sa Hm [->|(sa1 & l1 & ->)] Hs]; [by left| |right; by exists sa1, (l1 ++ [(b, sa)])].
  right. inversion Hm as [|l0 b0 fin0 sa0 Hm0 Hs0 E]; [by exists sa, []|]. by destruct l0.
Qed.

Lemma mapped_keys l b fin : mapped l b fin → Forall (λ k, k < b) l.*1.
Proof.
  intros Hm. apply Forall_forall. intros k Hk. apply list_elem_of_fmap in Hk as (e & -> & He).
  destruct (mapped_each l b fin e Hm He) as (Hs & _ & _ & _ & ? & _).
  destruct (whole_size_bounds e.2 (ms_size _ Hs)) as (? & _). lia.
Qed.

Lemma blen_MetaData d : blen (MetaData_bytes d) = size_of_LogicalSlice.
Proof.
  pose proof slice_packed as P. packed_facts P. pose proof (blen_padding size_of_LogicalSlice).
  unfold MetaData_bytes. usize_unfold. blens.
Qed.

Lemma Meta_layout m : blen (meta_root m) = ROOT_SIZE →
  blen (Meta_bytes m) = size_of_Meta ∧ slice off_meta_root ROOT_SIZE (Meta_bytes m) = meta_root m.
Proof.
  intros Hr. pose proof meta_packed as P. packed_facts P. pose proof (blen_padding size_of_Meta).
  pose proof (blen_MetaData (meta_data m)). unfold Meta_bytes, ROOT_SIZE in *. usize_unfold. split; [blens|].
  apply slice_splice_len; [done|blens].
Qed.

(** Writing the meta page. *)
Lemma write_meta_ok sa slice0 sa' : allocator_wf sa → sa_pagesize sa = ps → 2 * ps ≤ size_of sa →
  SourceAllocator_write_from (SourceAllocator_get_meta sa) 0 (Meta_bytes (Meta_new slice0)) sa = (Ok tt, sa') →
  mapped_source sa' ∧ size_of sa' = size_of sa ∧ source_flags (sa_source sa') = source_flags (sa_source sa).
Proof.
  intros [W1 W2 W3 W4] Hp Hs Hw. pose proof (is_pow2_range _ ps_pow2) as Hps. unfold size_of in *.
  set (bytes := Meta_bytes (Meta_new slice0)) in *.
  assert (blen bytes = size_of_Meta) as Hlen by by apply Meta_layout.
  unfold SourceAllocator_write_from in Hw. cbn [page_len page_offset SourceAllocator_get_meta] in Hw. rewrite Hp in Hw.
  rewrite bool_decide_true, (bind_ok _ _ _ tt sa) in Hw by (done || lia).
  assert (in_range ps (blen bytes) (blen (source_bytes (sa_source sa)))) as Hr by (rewrite Hlen; usize).
  apply bind_ok_inv in Hw as ([] & sa1 & E1 & E2).
  destruct (source_write ps bytes (sa_source sa)) as [o s1] eqn:Ew.
  pose proof (source_write_flags ps bytes (sa_source sa)) as Hfl. rewrite Ew in Hfl. cbn [snd] in Hfl.
  rewrite (on_source_eq _ _ _ _ Ew) in E1. injection E1 as -> <-.
  apply source_write_ok in Ew; [|done..].
  pose proof (source_flush_same s1) as [Hf1 Hf2]. destruct (source_flush s1) as [o2 s2] eqn:Ef.
  cbn [snd] in Hf1, Hf2. rewrite (on_source_eq _ _ _ s2) in E2 by done. injection E2 as -> <-.
  cbn [with_device sa_source sa_pagesize sa_freelist].
  split; [|split; [by rewrite Hf2, Ew, blen_splice|congruence]].
  split; cbn [with_device sa_source sa_pagesize sa_freelist]; unfold size_of; cbn [sa_source with_device];
    rewrite ?Hf2, ?Ew, ?blen_splice by done; try done.
  - split; cbn [with_device sa_source sa_pagesize sa_freelist]; by rewrite ?Hf2, ?Ew, ?blen_splice by done.
  - pose proof meta_packed as P. packed_facts P. rewrite slice_splice_inside; [|done|rewrite Hlen; unfold ROOT_SIZE; usize].
    by apply Meta_layout.
Qed.

Definition flags_of l : list (bool * bool) := (λ e, source_flags (sa_source e.2)) <$> l.

Lemma place_one l b fin sa l' : mapped l b fin → fin < 2 ^ 54 → allocator_wf sa → sa_pagesize sa = ps → 2 * ps ≤ size_of sa →
  new_place_source l sa = Ok l' →
  mapped l' (b + whole_size sa) (fin + size_of sa) ∧ flags_of l' = flags_of l ++ [source_flags (sa_source sa)].
Proof.
  intros Hm Hfin Hwf Hp Hs Hl. pose proof (is_pow2_range _ ps_pow2) as Hps. unfold new_place_source in Hl.
  assert (∃ l0, mapped l0 b fin ∧ flags_of l0 = flags_of l ∧
    match last l with
    | None => Ok (0, l)
    | Some (offset, allocator) =>
        let '(length, allocator) := SourceAllocator_length allocator in
        length ← length; offset' ← offset +! length; mret (offset', btree_set offset allocator l)
    end = Ok (b, l0)) as (l0 & Hm0 & Hf0 & E).
  { pose proof Hm as Hm'. inversion Hm' as [|l1 b1 fin1 sa1 Hm1 Hs1]; subst; [by exists []|].
    rewrite last_snoc in Hl |- *. destruct (SourceAllocator_length sa1) as [[n|] sa2] eqn:Hlen; [|done].
    destruct (length_ready sa1 n sa2) as (-> & Hsame & Hfree); [apply Hs1..|done|].
    exists (l1 ++ [(b1, sa2)]). split; [|split].
    - assert (whole_size sa1 = whole_size sa2 ∧ size_of sa1 = size_of sa2) as [-> ->].
      { destruct Hsame as [[_ Hb] _]. unfold whole_size, size_of. by rewrite Hb. }
      constructor; [done|by apply (mapped_source_same sa1)].
    - unfold flags_of. rewrite !fmap_app. csimpl. destruct Hsame as [[Hf _] _]. by rewrite Hf.
    - destruct (mapped_next l1 b1 fin1 Hm1) as [Hb _]. destruct (whole_size_bounds sa1 (ms_size _ Hs1)) as (? & _).
      cbn [mbind outcome_bind]. rewrite usize_add_ok by usize. cbn [mbind outcome_bind].
      rewrite btree_set_last; [done|]. intros Hin. pose proof (mapped_keys l1 b1 fin1 Hm1) as Hk. rewrite Forall_forall in Hk.
      specialize (Hk b1 Hin). lia. }
  rewrite E in Hl. cbn [mbind outcome_bind] in Hl. clear E.
  destruct (SourceAllocator_length sa) as [[n|] sa1] eqn:Hlen; [|done].
  destruct (length_ready sa n sa1) as (-> & Hsame & Hfree); [done..|]. cbn [mbind outcome_bind] in Hl.
  destruct (SourceAllocator_write_from _ _ _ sa1) as [[[]|] sa2] eqn:Hw; [|done]. cbn [mbind outcome_bind] in Hl. injection Hl as <-.
  pose proof Hsame as [[Hf1 Hb1] Hp1]. apply write_meta_ok in Hw as (Hs2 & Hsz & Hfl);
    [|by apply (allocator_wf_same sa)|by rewrite Hp1|unfold size_of in *; by rewrite Hb1].
  assert (whole_size sa = whole_size sa2 ∧ size_of sa = size_of sa2) as [-> ->].
  { unfold whole_size. rewrite Hsz. unfold size_of. by rewrite Hb1. }
  unfold Meta_slice, Meta_new. cbn [meta_data md_slice ls_offset].
  rewrite btree_insert_last by by apply (mapped_keys l0 b fin). split; [by constructor|].
  unfold flags_of. rewrite fmap_app. csimpl. rewrite Hfl, Hf1. by f_equal.
Qed.

Lemma mapped_inv las b fin : las_pagesize las = ps → mapped (las_sources las) b fin → fin < 2 ^ 54 → las_inv las.
Proof.
  intros Hps Hm Hfin. pose proof (mapped_sorted _ _ _ Hm) as Hsort.
  pose proof (sorted_nodup _ Hsort) as Hnd.
  assert (∀ k sa, las_get las k = Some sa → mapped_source sa ∧ 0 ≤ k ∧ (ps | k) ∧ k + size_of sa ≤ fin ∧
    ∀ b', b' ∈ (las_sources las).*1 → k < b' → k + whole_size sa ≤ b') as Hget.
  { intros k sa Hg. destruct (mapped_each _ _ _ (k, sa) Hm) as (? & ? & ? & ? & _ & ?); [by apply btree_get_elem_2|]. by split_and!. }
  split; rewrite ?Hps.
  - split; rewrite ?Hps; [done|done|]. intros k sa Hg. destruct (Hget k sa Hg) as (Hs & ? & _ & ? & _).
    unfold size_of in *. split_and!; [done|usize|apply Hs].
  - intros k sa Hg. apply Hget in Hg as [Hs _]. apply Hs.
  - intros k sa b' Hg. apply Hget in Hg as (_ & _ & _ & _ & Hn). apply Hn.
  - done.
  - intros k sa Hg. destruct (Hget k sa Hg) as (_ & _ & _ & ? & _). unfold size_of in *. lia.
  - intros k Hk. apply list_elem_of_fmap in Hk as ([k' sa] & -> & Hin). by destruct (mapped_each _ _ _ _ Hm Hin) as (_ & _ & ? & _).
Qed.

Definition total_size (sources : list D) : Z := foldr (λ s, Z.add (blen (source_bytes s))) 0 sources.

Lemma total_size_nonneg sources : 0 ≤ total_size sources.
Proof. induction sources as [|s sources IH]; [done|]. cbn. pose proof (blen_nonneg (source_bytes s)). unfold total_size in IH. lia. Qed.

Lemma place_all sources us l b fin l' : Forall fresh sources → Forall2 ready_source sources us → mapped l b fin → fin + total_size sources < 2 ^ 54 →
  fold_outcome new_place_source l us = Ok l' →
  ∃ b', mapped l' b' (fin + total_size sources) ∧ flags_of l' = flags_of l ++ (source_flags <$> sources).
Proof.
  intros Hfr Hr. revert l b fin Hfr. induction Hr as [|source sa sources us [R1 R2 R3 R4 R5] _ IH]; intros l b fin Hfr Hm Hfin Hp.
  - injection Hp as <-. exists b. rewrite Z.add_0_r, app_nil_r. done.
  - apply Forall_cons in Hfr as [[F1 F2 _] Hfr]. cbn [fold_outcome] in Hp. destruct (new_place_source l sa) as [l1|] eqn:E; [|done].
    cbn [total_size foldr] in *. fold (total_size sources) in *. pose proof (total_size_nonneg sources).
    pose proof (blen_nonneg (source_bytes source)).
    destruct (place_one l b fin sa l1) as [Hm1 Hf1]; [done|lia|done|done|by rewrite R4|done|].
    destruct (IH l1 _ _ Hfr Hm1) as (b' & Hm' & Hf'); [rewrite R4; lia|done|].
    exists b'. rewrite R4 in Hm'. split; [by rewrite Z.add_assoc|]. rewrite Hf', Hf1, R3, <- app_assoc. done.
Qed.

(** The root of volatile memory is in the meta page of the first source. *)
Lemma flags_volatile l sources : flags_of l = source_flags <$> sources →
  Forall (λ s, source_is_byte_addressable s = true ∧ source_is_persistent s = false) sources →
  Forall (λ e, SourceAllocator_is_byte_addressable e.2 = true ∧ SourceAllocator_is_persistent e.2 = false) l.
Proof.
  intros Hf Hmem. apply Forall_forall. intros e He. assert (source_flags (sa_source e.2) ∈ flags_of l) as Hin.
  { apply list_elem_of_fmap. by exists e. }
  rewrite Hf in Hin. apply list_elem_of_fmap in Hin as (s & E & Hs). rewrite Forall_forall in Hmem. destruct (Hmem s Hs).
  unfold source_flags in E. injection E as E1 E2. unfold SourceAllocator_is_byte_addressable, SourceAllocator_is_persistent. split; congruence.
Qed.

Lemma choose_root_volatile las b fin : las_sources las ≠ [] → mapped (las_sources las) b fin →
  Forall (λ e, SourceAllocator_is_byte_addressable e.2 = true ∧ SourceAllocator_is_persistent e.2 = false) (las_sources las) →
  new_choose_root las = Ok (StoredLogicalSlice_new_byte (LogicalSlice_new (ps + off_meta_root) ROOT_SIZE)).
Proof.
  intros Hne Hm Hkind. pose proof (is_pow2_range _ ps_pow2) as Hps. unfold new_choose_root.
  assert (LogicalAddressSpace_get_best_persistent las = None) as ->.
  { unfold LogicalAddressSpace_get_best_persistent, LogicalAddressSpace_get_best_source.
    destruct (find _ _) as [e|] eqn:E; [|done]. apply find_some in E as [Hin%list_elem_of_In Hpe].
    rewrite Forall_forall in Hkind. destruct (Hkind e Hin). congruence. }
  destruct (mapped_head _ b _ Hm) as [?|(sa & l & Hl)]; [done|]. rewrite Hl in Hkind, Hm.
  apply Forall_cons in Hkind as [[Hb _] _]. cbn [snd] in Hb.
  unfold LogicalAddressSpace_get_best_byte_addressable, LogicalAddressSpace_get_best_source. rewrite Hl.
  cbn [find snd]. rewrite Hb. cbn [SourceAllocator_get_meta page_offset].
  destruct (mapped_each _ _ _ (0, sa) Hm) as ([_ Hp _ _] & _); [by left|]. cbn [snd] in Hp. rewrite Hp.
  pose proof meta_packed as P. packed_facts P.
  rewrite usize_add_ok by usize. cbn [mbind outcome_bind]. rewrite usize_add_ok by usize. by rewrite Hb.
Qed.

(** ** Opening *)

Lemma new_las_ok sources valid las : Forall fresh sources → total_size sources < 2 ^ 54 →
  Forall (λ s, source_is_byte_addressable s = true ∧ source_is_persistent s = false) sources →
  LogicalAddressSpace_new ps sources valid true = Ok las →
  las_inv las ∧ las_pagesize las = ps ∧ las_backing las = ∅ ∧ (∃ b, mapped (las_sources las) b (total_size sources)) ∧
  flags_of (las_sources las) = source_flags <$> sources ∧
  las_root_bytes las = mk_ByteLogicalSlice (LogicalSlice_new (ps + off_meta_root) ROOT_SIZE).
Proof.
  intros Hfr Hfin Hmem Hnew. pose proof (is_pow2_range _ ps_pow2) as Hps. unfold LogicalAddressSpace_new in Hnew.
  destruct (fold_outcome (new_open_source ps valid true) (mk_opening [] [] None) sources) as [acc|] eqn:Ho; [|done].
  destruct (open_all valid sources _ _ Hfr Ho) as (us & Hus & ->). cbn [mbind outcome_bind op_sources op_unallocated op_root app] in Hnew.
  destruct (fold_outcome new_place_source [] us) as [l|] eqn:Hp; [|done]. cbn [mbind outcome_bind] in Hnew.
  destruct (place_all sources us [] 0 0 l Hfr Hus mapped_none) as (b & Hm & Hf); [by rewrite Z.add_0_l|done|].
  rewrite Z.add_0_l in Hm. cbn [flags_of fmap list_fmap app] in Hf.
  set (las0 := mk_LogicalAddressSpace l ps _ _ _) in Hnew.
  pose proof (flags_volatile l sources Hf Hmem) as Hkind.
  assert (new_choose_root las0 = Err NoAvailableMemory ∨ new_choose_root las0 = Ok (StoredLogicalSlice_new_byte (LogicalSlice_new (ps + off_meta_root) ROOT_SIZE))) as [Hr|Hr];
    [|by rewrite Hr in Hnew|rewrite Hr in Hnew].
  { destruct l as [|e l'] eqn:El; [by left|right]. by apply (choose_root_volatile las0 b (total_size sources)). }
  cbn in Hnew. injection Hnew as <-. cbn [las_pagesize las_backing las_sources las_root_bytes with_root]. split_and!; try done.
  - by apply (mapped_inv _ b (total_size sources)).
  - by exists b.
Qed.

(** C19: opening fresh volatile byte-addressable sources establishes the invariant
    of the address space that all its operations keep: each source behind the
    one before, its free pages behind its header and meta pages, all addresses
    within the bits of a pointer, the root in the meta page of the first
    source.  (With a persistent source the root is in that one's meta page.) *)
Theorem LogicalAddressSpace_new_inv sources valid las : Forall fresh sources → total_size sources < 2 ^ 54 →
  Forall (λ s, source_is_byte_addressable s = true ∧ source_is_persistent s = false) sources →
  LogicalAddressSpace_new ps sources valid true = Ok las →
  las_inv las ∧ las_pagesize las = ps ∧ las_backing las = ∅ ∧ (∃ b, mapped (las_sources las) b (total_size sources)) ∧
  flags_of (las_sources las) = source_flags <$> sources ∧
  las_root_bytes las = mk_ByteLogicalSlice (LogicalSlice_new (ps + off_meta_root) ROOT_SIZE).
Proof. exact (new_las_ok sources valid las). Qed.
End Mapping.
