(* ===== verification/Versions.v ===== *)
(** * Versions and snapshots

    What an object's version word stands for, the version chain of a pointer,
    and the reader as a lookup of the newest version its snapshot allows: the
    multi-version specification that [VersionedReader_read] implements. *)
From S2P Require Import Prelude Utils Source SourceAllocator Slices Las Memory Pointer Vos.

(** ** The encoding of versions *)
Lemma VERSION_DATA_MASK_ones : VERSION_DATA_MASK = Z.ones 63.
Proof. by vm_compute. Qed.

Lemma Version_data_bytes_mod v : Version_data_bytes v = v mod 2 ^ 63.
Proof. unfold Version_data_bytes. by rewrite VERSION_DATA_MASK_ones, Z.land_ones. Qed.

Lemma Version_type_bytes_div v : Version_type_bytes v = ((v / 2 ^ 63) mod 2) * 2 ^ 63.
Proof.
  unfold Version_type_bytes, VERSION_TYPE_MASK. rewrite land_shiftl by lia.
  rewrite Z.shiftr_div_pow2, Z.shiftl_mul_pow2 by lia. by rewrite (Z.land_ones _ 1).
Qed.

(** A direct version: the number itself. *)
Lemma Version_direct v : 0 ≤ v < 2 ^ 63 →
  Version_type_bytes v = VERSION_TYPE_DIRECT ∧ Version_data_bytes v = v.
Proof.
  intros Hv. rewrite Version_type_bytes_div, Version_data_bytes_mod.
  rewrite Z.div_small by done. by rewrite (Z.mod_small v).
Qed.

(** An indirect version: the address of the cell with the number. *)
Lemma Version_indirect p : 0 ≤ p < 2 ^ 63 →
  let v := Z.lor p VERSION_TYPE_INDIRECT in
  v = p + 2 ^ 63 ∧ Version_type_bytes v ≠ VERSION_TYPE_DIRECT ∧ Version_data_bytes v = p.
Proof.
  intros Hp v. assert (v = p + 1 * 2 ^ 63) as Hv by (by apply lor_shiftl).
  split; [lia|]. rewrite Version_type_bytes_div, Version_data_bytes_mod, Hv.
  rewrite Z.div_add, (Z.div_small p), Z_mod_plus_full, (Z.mod_small p) by done. done.
Qed.

Lemma Version_new_indirect_ok p : 0 ≤ p < 2 ^ 63 →
  Version_new_indirect p = Ok (Z.lor p VERSION_TYPE_INDIRECT).
Proof.
  intros Hp. unfold Version_new_indirect. rewrite decide_True; [done|].
  change (Z.land p VERSION_TYPE_MASK) with (Version_type_bytes p).
  by destruct (Version_direct p Hp) as [-> _].
Qed.

(** ** What a version word stands for *)
Section VersionAt.
Context `{T : Target} `{TOk : !TargetOk T} `{C : Crc} {D : Type} `{Src : !Source D} `{Laws : !SourceLaws D}.
Abbreviation LAS := (LogicalAddressSpace D).
Implicit Types (las : LAS).

(** The cell at address [p]. *)
Definition cell_at (b p : Z) : cell := InMemory b (p - b).

(** [version_at las c home v]: the version word in [c] stands for the number
    [v], which is in the cell [home]: [c] itself, or the version cell of the
    transaction the word refers to. *)
Inductive version_at las (c : cell) : cell → Z → Prop :=
| version_direct v :
    cell_holds las c v → 0 ≤ v < 2 ^ 63 → version_at las c c v
| version_indirect p b v :
    cell_holds las c (Z.lor p VERSION_TYPE_INDIRECT) →
    0 ≤ p < 2 ^ 54 → byte_range las p size_of_Version b →
    cell_holds las (cell_at b p) v → 0 ≤ v < 2 ^ 63 →
    version_at las c (cell_at b p) v.

Lemma version_at_holds las c home v : version_at las c home v → cell_holds las home v.
Proof. by destruct 1. Qed.

Lemma version_at_range las c home v : version_at las c home v → 0 ≤ v < 2 ^ 63.
Proof. by destruct 1. Qed.

(** The word behind an indirect version. *)
Lemma Version_real_ok las p b : las_wf las → 0 ≤ p < 2 ^ 54 → byte_range las p size_of_Version b → aligned 8 (p - b) →
  Version_real p las = (Ok (cell_at b p), las).
Proof.
  intros Hwf Hp Hr Hal. unfold Version_real, UntypedPointer_into_stored_slice.
  unfold UntypedPointer_from_raw, StoredLogicalSlice_new. destruct (byte_pointer p Hp) as [-> ->].
  rewrite (bind_ok _ _ _ (mk_ByteLogicalSlice (LogicalSlice_new p size_of_Version)) las) by done.
  step (LogicalAddressSpace_read_ok las p _ b Hwf Hr).
  rewrite any_from_slice_mut_ok, (bind_ok _ _ _ (mk_memref b (p - b) size_of_Version) las) by done.
  unfold memref_cell, cell_at. cbn [mr_source mr_off]. by rewrite Z.add_0_r.
Qed.

Lemma Version_read_direct las c v fuel : cell_holds las c v → 0 ≤ v < 2 ^ 63 →
  Version_read_loop (S fuel) c las = (Ok v, las).
Proof.
  intros Hc Hv. cbn [Version_read_loop]. step (cell_load_ok las c v Hc).
  destruct (Version_direct v Hv) as [-> ->]. by rewrite decide_True.
Qed.

Lemma Version_read_ok las c home v : las_wf las → version_at las c home v →
  Version_read c las = (Ok v, las).
Proof.
  intros Hwf [v' Hc Hv|p b v' Hc Hp Hr Hh Hv].
  - by apply Version_read_direct.
  - unfold Version_read, version_depth. remember 3%nat as n eqn:Hn. cbn [Version_read_loop].
    step (cell_load_ok las c _ Hc). destruct (Version_indirect p) as (_ & Ht & ->); [lia|].
    rewrite decide_False by done. step (Version_real_ok las p b Hwf Hp Hr (cell_holds_aligned _ _ _ _ Hh)).
    subst n. by apply Version_read_direct.
Qed.

(** [commit] writes the number's cell, wherever the word is. *)
Lemma Version_commit_ok las c home v v' : las_wf las → version_at las c home v →
  ∃ c', Version_commit c v' las = (Ok c', cell_put home v' las).
Proof.
  intros Hwf [w Hc Hv|p b w Hc Hp Hr Hh Hv].
  - exists (cell_after c v'). unfold Version_commit, version_depth. cbn [Version_commit_loop].
    step (cell_load_ok las c w Hc). destruct (Version_direct w Hv) as [-> _].
    rewrite decide_True by done. rewrite (Z.lor_0_r v' : Z.lor v' VERSION_TYPE_DIRECT = v'). by apply cell_store_ok with w.
  - exists c. unfold Version_commit, version_depth. remember 3%nat as n eqn:Hn.
    cbn [Version_commit_loop]. step (cell_load_ok las c _ Hc).
    destruct (Version_indirect p) as (_ & Ht & ->); [lia|].
    rewrite decide_False by done. step (Version_real_ok las p b Hwf Hp Hr (cell_holds_aligned _ _ _ _ Hh)).
    subst n. cbn [Version_commit_loop]. rewrite (bind_ok _ _ _ (cell_at b p) (cell_put (cell_at b p) v' las)); [done|].
    step (cell_load_ok las _ _ Hh). destruct (Version_direct w Hv) as [-> _].
    rewrite decide_True by done. rewrite (Z.lor_0_r v' : Z.lor v' VERSION_TYPE_DIRECT = v'). apply (cell_store_ok las (cell_at b p) w v' Hh).
Qed.

(** A store to a cell leaves the versions kept elsewhere alone. *)
Lemma version_at_apart las x w w' c home v : cell_holds las x w → cell_writable las x →
  cells_apart c x → cells_apart home x → version_at las c home v →
  version_at (cell_put x w' las) c home v.
Proof.
  intros Hx Hwr Hc Hh Hver. destruct Hver as [v' Hv Hr|p b v' Hv Hp Hr Hv' Hrange].
  - apply version_direct; [by apply cell_put_apart with w|done].
  - apply version_indirect; [by apply cell_put_apart with w|done| |by apply cell_put_apart with w|done].
    apply (byte_range_shape las); [by apply las_shape_cell_put with w|done].
Qed.

(** The word of an indirect version is not the number it stands for. *)
Lemma version_word_unique las c v w : cell_holds las c v → cell_holds las c w → v = w.
Proof.
  destruct c as [b off|]; simpl; [|congruence]. intros (Hv & ? & _) (Hw & ? & _). rewrite Hv in Hw.
  apply (inj Some), (f_equal le_combine) in Hw. by rewrite !u64_roundtrip in Hw.
Qed.

(** A store to the cell of a number changes every version that refers to it. *)
Lemma version_at_home las home w w' c v : cell_holds las home w →
  cell_writable las home → 0 ≤ w' < 2 ^ 63 →
  (∃ b off, home = InMemory b off) → c = home ∨ cells_apart c home →
  version_at las c home v → version_at (cell_put home w' las) c home w'.
Proof.
  intros Hx Hwr Hw' (bh & oh & Hmem) Hc Hv.
  pose proof (cell_put_holds las _ w w' Hx Hwr ltac:(usize)) as Hput.
  assert (cell_after home w' = home) as Haf by by rewrite Hmem. rewrite Haf in Hput.
  destruct Hv as [v' Hv Hr|p b v' Hv Hp Hr Hv' Hrange]; [by apply version_direct|].
  destruct Hc as [->|Hc].
  - exfalso. pose proof (version_word_unique _ _ _ _ Hv Hv') as He.
    destruct (Version_indirect p) as (He' & _); [lia|]. lia.
  - apply version_indirect; [by apply cell_put_apart with w|done| |done|done].
    apply (byte_range_shape las); [by apply las_shape_cell_put with w|done].
Qed.
End VersionAt.

(** ** Version chains *)

(** One version of an object: where its bytes are, the cell its version number
    is in, and the number; 0 is a version that is not committed. *)
Record entry : Type := mk_entry {
  en_base : LogicalAddress;
  en_address : LogicalAddress;
  en_home : cell;
  en_version : Z
}.

Definition en_header (e : entry) : memref :=
  mk_memref (en_base e) (en_address e - size_of_ObjectHeader - en_base e) size_of_ObjectHeader.
Definition en_data (total : Z) (e : entry) : memref :=
  mk_memref (en_base e) (en_address e - size_of_ObjectHeader - en_base e + size_of_ObjectHeader) total.

Definition visible (snapshot : Z) (e : entry) : bool :=
  bool_decide (en_version e ≠ 0) && bool_decide (en_version e ≤ snapshot).

(** The multi-version specification of a read: the first version, newest
    first, that is committed and not newer than the snapshot; a read for
    writing accepts the newest version or none. *)
Fixpoint snapshot_read (snapshot : Z) (abort_on_conflict : bool) (entries : list entry) :
    outcome entry :=
  match entries with
  | [] => Err InvalidLogicalAddress
  | e :: entries =>
      if visible snapshot e then Ok e
      else if abort_on_conflict then Err TxAborted
      else snapshot_read snapshot abort_on_conflict entries
  end.

(** The chain once the versions kept in [home] are given the number [v]. *)
Definition commit_entry (home : cell) (v : Z) (e : entry) : entry :=
  if decide (en_home e = home) then mk_entry (en_base e) (en_address e) (en_home e) v else e.

Section Chain.
Context `{T : Target} `{TOk : !TargetOk T} `{C : Crc} {D : Type} `{Src : !Source D} `{Laws : !SourceLaws D}.
Abbreviation LAS := (LogicalAddressSpace D).
Implicit Types (las : LAS) (e : entry).

Definition en_version_cell e : cell := header_version (en_header e).
Definition en_other_cell e : cell := header_other (en_header e).

(** [version_chain las total raw entries]: [raw] is the newest version of an
    object of [total] bytes, and [entries] are its versions, newest first. *)
Inductive version_chain las (total : Z) : UntypedPointer → list entry → Prop :=
| chain_none raw : UntypedPointer_is_some raw = false → version_chain las total raw []
| chain_object raw e other entries :
    UntypedPointer_is_some raw = true → UntypedPointer_is_byte_addressable raw = true →
    en_address e = UntypedPointer_address raw → size_of_ObjectHeader ≤ en_address e →
    byte_range las (en_address e - size_of_ObjectHeader) (total + size_of_ObjectHeader) (en_base e) →
    version_at las (en_version_cell e) (en_home e) (en_version e) →
    cell_holds las (en_other_cell e) other →
    version_chain las total other entries →
    version_chain las total raw (e :: entries).

(** The version [raw] refers to is [e], whatever comes after it. *)
Record head_at las (total : Z) raw e : Prop := {
  ha_some : UntypedPointer_is_some raw = true;
  ha_byte : UntypedPointer_is_byte_addressable raw = true;
  ha_address : en_address e = UntypedPointer_address raw;
  ha_header : size_of_ObjectHeader ≤ en_address e;
  ha_range : byte_range las (en_address e - size_of_ObjectHeader) (total + size_of_ObjectHeader) (en_base e);
  ha_version : version_at las (en_version_cell e) (en_home e) (en_version e)
}.

Definition read_result (total : Z) (ptr : cell) (o : outcome entry) :
    outcome (memref * memref * cell) :=
  e ← o; mret (en_data total e, en_header e, ptr).

(** A header is where its atomics can be. *)
Lemma header_at_aligned las e c v : version_at las (en_version_cell e) c v → aligned 8 (mr_off (en_header e)).
Proof.
  intros Hv. assert (∃ w, cell_holds las (en_version_cell e) w) as [w Hw] by (destruct Hv; eauto).
  apply cell_holds_aligned in Hw. replace (mr_off (en_header e)) with (mr_off (en_header e) + off_version - off_version) by lia.
  apply aligned_sub; [done|done|apply header_aligned].
Qed.

(** The reader at a version: it returns it, refuses, or goes on to the next. *)
Lemma VersionedReader_read_head las size total snapshot abort raw e ptr fuel : las_wf las →
  ObjectSize_total size = Ok total → head_at las total raw e → cell_holds las ptr raw →
  VersionedReader_read (S fuel) (VersionedReader_new snapshot) ptr size abort las =
    if visible snapshot e then (Ok (en_data total e, en_header e, ptr), las)
    else if abort then (Err TxAborted, las)
    else ('(userdata, hdr, _) ← VersionedReader_read fuel (VersionedReader_new snapshot) (en_other_cell e) size abort;
          mret (userdata, hdr, ptr)) las.
Proof.
  intros Hwf Hsize [Hs Hb Ha Hle Hr Hv] Hptr.
  assert (is_u32 total) as Ht by (by apply (wrapping_range u32_modulus) in Hsize).
  cbn [VersionedReader_read]. step (cell_load_ok las ptr _ Hptr).
  rewrite Hs. cbn [negb]. step (cell_load_ok las ptr _ Hptr).
  rewrite Hsize, (bind_ok _ _ _ total las) by done.
  unfold UntypedPointer_into_stored_slice_offset. rewrite <- Ha, Hb.
  pose proof (UntypedPointer_address_range raw) as Hrange.
  rewrite usize_sub_ok by usize. rewrite usize_add_ok by usize.
  rewrite (bind_ok _ _ _ (StoredLogicalSlice_new_byte (LogicalSlice_new
    (en_address e - size_of_ObjectHeader) (total + size_of_ObjectHeader))) las) by done.
  cbn [StoredLogicalSlice_new_byte]. step (LogicalAddressSpace_read_ok las _ _ _ Hwf Hr).
  unfold memref_split_at. cbn [mr_len mr_off mr_source]. rewrite decide_True by usize.
  replace (total + size_of_ObjectHeader - size_of_ObjectHeader) with total by lia.
  rewrite (bind_ok _ _ _ (en_header e, en_data total e) las) by done. cbv beta iota.
  rewrite any_from_slice_mut_ok, (bind_ok _ _ _ (en_header e) las) by (done || by eapply header_at_aligned).
  step (Version_read_ok las _ _ _ Hwf Hv).
  cbn [vr_version]. pose proof (version_at_range _ _ _ _ Hv).
  assert (bool_decide (en_version e = 0) || bool_decide (snapshot < en_version e) =
          negb (visible snapshot e)) as ->.
  { unfold visible. repeat case_bool_decide; simpl; done || lia. }
  destruct (visible snapshot e); [done|]. cbn [negb]. by destruct abort.
Qed.

(** So are the bytes behind it. *)
Lemma chain_data_aligned las total raw entries : version_chain las total raw entries →
  Forall (λ e, aligned 8 (mr_off (en_data total e))) entries.
Proof.
  induction 1 as [|e p entries raw ? ? ? ? Hv]; constructor; [|done]. simpl.
  apply aligned_add; [done|by eapply header_at_aligned|apply aligned_header].
Qed.

Lemma chain_head las total raw e entries : version_chain las total raw (e :: entries) → head_at las total raw e.
Proof. intros Hch. by inversion Hch. Qed.

(** The reader is the lookup in the chain. *)
Lemma VersionedReader_read_chain las size total snapshot abort entries : las_wf las →
  ObjectSize_total size = Ok total → ∀ raw ptr fuel,
  version_chain las total raw entries → cell_holds las ptr raw → (length entries < fuel)%nat →
  VersionedReader_read fuel (VersionedReader_new snapshot) ptr size abort las =
    (read_result total ptr (snapshot_read snapshot abort entries), las).
Proof.
  intros Hwf Hsize. induction entries as [|e entries IH]; intros raw ptr fuel Hch Hptr Hfuel;
    (destruct fuel as [|fuel]; [simpl in Hfuel; lia|]).
  - inversion Hch as [? Hn|]; subst. cbn [VersionedReader_read snapshot_read]. step (cell_load_ok las ptr _ Hptr). by rewrite Hn.
  - rewrite (VersionedReader_read_head las size total snapshot abort raw e) by (done || by apply chain_head with entries).
    cbn [snapshot_read]. destruct (visible snapshot e); [done|]. destruct abort; [done|].
    inversion Hch as [|? ? other ? _ _ _ _ _ _ Ho Hrest]; subst.
    unfold mbind, M_bind. rewrite (IH other (en_other_cell e) fuel) by (done || simpl in *; lia).
    by destruct (snapshot_read snapshot false entries).
Qed.

(** *** What a commit does to chains *)

(** The words of a version are elsewhere than [home], or are it. *)
Definition entry_apart (home : cell) e : Prop :=
  ((en_version_cell e = home ∧ en_home e = home) ∨ cells_apart (en_version_cell e) home) ∧
  cells_apart (en_other_cell e) home ∧ (en_home e = home ∨ cells_apart (en_home e) home).

Lemma commit_entry_data home v e :
  en_base (commit_entry home v e) = en_base e ∧ en_address (commit_entry home v e) = en_address e ∧
  en_home (commit_entry home v e) = en_home e.
Proof. unfold commit_entry. by case_decide. Qed.

Lemma version_chain_commit las total home w v raw entries :
  cell_holds las home w → cell_writable las home → (∃ b off, home = InMemory b off) →
  0 ≤ v < 2 ^ 63 → Forall (entry_apart home) entries →
  version_chain las total raw entries →
  version_chain (cell_put home v las) total raw (commit_entry home v <$> entries).
Proof.
  intros Hh Hw Hmem Hv Hap Hch. induction Hch as [raw Hn|raw e other entries Hs Hb Ha Hle Hr Hve Ho Hch IH];
    csimpl; [by apply chain_none|].
  apply Forall_cons in Hap as [(Hvc & Hoc & Hhc) Hap].
  assert (las_shape (cell_put home v las) = las_shape las) as Hsh by by apply las_shape_cell_put with w.
  destruct (commit_entry_data home v e) as (Hbase & Haddr & Hhome).
  unfold en_version_cell, en_other_cell, en_header in *.
  apply (chain_object _ _ _ _ other); rewrite ?Hbase, ?Haddr, ?Hhome; try done.
  - by apply (byte_range_shape las).
  - unfold en_version_cell, en_header. rewrite Hbase, Haddr. unfold commit_entry.
    destruct (decide (en_home e = home)) as [He|He]; simpl.
    + rewrite He in *. apply version_at_home with w (en_version e); try done.
      destruct Hvc as [[Hvc _]|]; [by left|by right].
    + destruct Hhc as [|Hhc]; [done|]. destruct Hvc as [[_ Hvc]|Hvc]; [done|].
      by apply version_at_apart with w.
  - unfold en_other_cell, en_header. rewrite Hbase, Haddr. by apply cell_put_apart with w.
  - by apply IH.
Qed.

(** A reader whose snapshot is older than the commit looks up the same. *)
Lemma snapshot_read_commit snapshot abort total ptr home v entries :
  snapshot < v → Forall (λ e, en_home e = home → visible snapshot e = false) entries →
  read_result total ptr (snapshot_read snapshot abort (commit_entry home v <$> entries)) =
  read_result total ptr (snapshot_read snapshot abort entries).
Proof.
  intros Hlt Hun. induction Hun as [|e entries He Hun IH]; csimpl; [done|].
  assert (commit_entry home v e = if decide (en_home e = home)
    then mk_entry (en_base e) (en_address e) (en_home e) v else e) as -> by done.
  destruct (decide (en_home e = home)) as [Hh|Hh].
  - rewrite He by done. unfold visible at 1. cbn [en_version].
    rewrite (bool_decide_false (v ≤ snapshot)), andb_false_r by lia. by destruct abort.
  - destruct (visible snapshot e); [done|]. by destruct abort.
Qed.

(** [commit_version] whose validation passes: the counter is advanced and the
    new number goes to the version's cell. *)
Lemma commit_version_ok (w : World D) version home v0 validate :
  las_wf (w_las w) → version_at (w_las w) version home v0 → is_usize (w_version w + 1) →
  validate (mk_World (w_las w) (w_version w + 1)) = (Ok tt, mk_World (w_las w) (w_version w + 1)) →
  ∃ c, VersionedObjectStore_commit_version version validate w =
    (Ok c, mk_World (cell_put home (w_version w + 1) (w_las w)) (w_version w + 1)).
Proof.
  intros Hwf Hv Hu Hval.
  destruct (Version_commit_ok (w_las w) version home v0 (w_version w + 1) Hwf Hv) as [c Hc].
  exists c. unfold VersionedObjectStore_commit_version.
  rewrite (bind_ok _ _ _ w w) by done. rewrite usize_add_ok by done.
  rewrite (bind_ok _ _ _ (w_version w + 1) w) by done.
  rewrite (bind_ok _ _ _ tt (mk_World (w_las w) (w_version w + 1))) by done.
  step Hval. unfold on_world_las.
  by rewrite (zoom_eq _ _ _ _ (Ok c) (cell_put home (w_version w + 1) (w_las w))) by done.
Qed.
End Chain.

Section ReaderTheorems.
Context `{T : Target} `{TOk : !TargetOk T} `{C : Crc} {D : Type} `{Src : !Source D} `{Laws : !SourceLaws D}.
Implicit Types (las : LogicalAddressSpace D) (e : entry).

(** C22: refinement: on a chain of versions, [VersionedReader_read] is the
    multi-version lookup [snapshot_read]: it returns the bytes and header of
    the newest committed version its snapshot allows, [InvalidLogicalAddress]
    where there is none, and, when it must not read an older version,
    [TxAborted]; it changes nothing, and a fuel above the length of the
    chain is enough. *)
Theorem VersionedReader_read_refines las size total snapshot abort raw entries ptr fuel :
  las_wf las → ObjectSize_total size = Ok total → version_chain las total raw entries →
  cell_holds las ptr raw → (length entries < fuel)%nat →
  VersionedReader_read fuel (VersionedReader_new snapshot) ptr size abort las =
    (e ← snapshot_read snapshot abort entries; mret (en_data total e, en_header e, ptr), las).
Proof. intros. by apply VersionedReader_read_chain with raw. Qed.

(** A commit does not move a running reader: with a snapshot not newer
    than the counter before the commit, a read returns what it returned. *)
Theorem commit_keeps_snapshots (w : World D) validate version home v0 size total snapshot abort raw entries ptr fuel :
  let las := w_las w in
  let advanced := mk_World las (w_version w + 1) in
  validate advanced = (Ok tt, advanced) →
  las_wf las → version_at las version home v0 → w_version w + 1 < 2 ^ 63 →
  (∃ b off, home = InMemory b off) → cell_writable las home →
  ObjectSize_total size = Ok total → version_chain las total raw entries →
  Forall (entry_apart home) entries → cell_holds las ptr raw → cells_apart ptr home →
  0 ≤ snapshot ≤ w_version w →
  Forall (λ e, en_home e = home → visible snapshot e = false) entries →
  (length entries < fuel)%nat →
  let las' := w_las (VersionedObjectStore_commit_version version validate w).2 in
  (VersionedReader_read fuel (VersionedReader_new snapshot) ptr size abort las').1 =
  (VersionedReader_read fuel (VersionedReader_new snapshot) ptr size abort las).1.
Proof.
  cbv zeta. intros Hval Hwf Hv Hn Hmem Hwr Hsize Hch Hap Hptr Hpap Hs Hun Hfuel.
  destruct (commit_version_ok w version home v0 validate) as [c ->]; try done; [usize|]. cbn [w_las snd].
  pose proof (version_at_holds _ _ _ _ Hv) as Hh.
  assert (las_wf (cell_put home (w_version w + 1) (w_las w))) as Hwf'.
  { apply (las_wf_shape (w_las w)); [by apply las_shape_cell_put with v0|done]. }
  rewrite (VersionedReader_read_chain (w_las w) size total snapshot abort entries) with (raw := raw) by done.
  rewrite (VersionedReader_read_chain _ size total snapshot abort
    (commit_entry home (w_version w + 1) <$> entries)) with (raw := raw); try done.
  - cbn [fst]. apply snapshot_read_commit; [lia|done].
  - apply version_chain_commit with v0; try done. lia.
  - by apply cell_put_apart with v0.
  - by rewrite length_fmap.
Qed.

(** A commit publishes its writes at once: before it, no reader sees a
    version kept in the transaction's cell; after it, every reader with the
    new counter for snapshot reads it, wherever it heads a chain. *)
Theorem commit_publishes (w : World D) validate version home size total abort raw e entries ptr fuel :
  let las := w_las w in
  let advanced := mk_World las (w_version w + 1) in
  validate advanced = (Ok tt, advanced) →
  las_wf las → version_at las version home 0 → 0 ≤ w_version w → w_version w + 1 < 2 ^ 63 →
  (∃ b off, home = InMemory b off) → cell_writable las home →
  ObjectSize_total size = Ok total → version_chain las total raw (e :: entries) →
  en_home e = home → Forall (entry_apart home) (e :: entries) → cell_holds las ptr raw →
  cells_apart ptr home → (S (length entries) < fuel)%nat →
  let las' := w_las (VersionedObjectStore_commit_version version validate w).2 in
  let reader := VersionedReader_new (w_version (VersionedObjectStore_commit_version version validate w).2) in
  (∀ snapshot, VersionedReader_read fuel (VersionedReader_new snapshot) ptr size true las = (Err TxAborted, las)) ∧
  VersionedReader_read fuel reader ptr size abort las' = (Ok (en_data total e, en_header e, ptr), las').
Proof.
  cbv zeta. intros Hval Hwf Hv Hn0 Hn Hmem Hwr Hsize Hch He Hap Hptr Hpap Hfuel.
  destruct (commit_version_ok w version home 0 validate) as [c ->]; try done; [usize|]. cbn [w_las w_version snd].
  pose proof (version_at_holds _ _ _ _ Hv) as Hh.
  assert (en_version e = 0) as He0.
  { inversion Hch as [|? ? ? ? ? ? ? ? ? Hve]; subst. apply version_at_holds in Hve.
    by apply (version_word_unique _ _ _ _ Hve). }
  split.
  - intros snapshot. rewrite (VersionedReader_read_chain (w_las w) size total snapshot true (e :: entries)) with (raw := raw) by done.
    cbn [snapshot_read]. unfold visible. by rewrite (bool_decide_false (en_version e ≠ 0)) by auto.
  - assert (las_wf (cell_put home (w_version w + 1) (w_las w))) as Hwf'.
    { apply (las_wf_shape (w_las w)); [by apply las_shape_cell_put with 0|done]. }
    rewrite (VersionedReader_read_chain _ size total (w_version w + 1) abort
      (commit_entry home (w_version w + 1) <$> (e :: entries))) with (raw := raw); try done.
    + csimpl. unfold commit_entry at 1. rewrite decide_True by done. unfold visible. cbn [en_version].
      rewrite !bool_decide_true by lia. cbn [andb]. unfold commit_entry. by rewrite decide_True.
    + apply version_chain_commit with 0; try done. lia.
    + by apply cell_put_apart with 0.
    + by rewrite length_fmap.
Qed.
End ReaderTheorems.
