(* ===== verification/Objects.v ===== *)
(** * Objects in memory

    The bytes of an object header, and what allocating an object does to the
    memory and to the version chains in it. *)
From S2P Require Import Prelude Utils Source SourceAllocator Slices Las Memory Pointer Vos.
From S2P Require Import Allocators Versions.

(** ** The header's bytes *)
Section HeaderBytes.
Context `{T : Target} `{TOk : !TargetOk T}.
Lemma blen_ObjectHeader h : blen (ObjectHeader_bytes h) = size_of_ObjectHeader.
Proof. pose proof header_packed as P. packed_fields P. unfold ObjectHeader_bytes, size_of_ObjectHeader in *. image. Qed.

Lemma ObjectHeader_version_bytes h :
  slice off_version 8 (ObjectHeader_bytes h) = u64_bytes (oh_version h).
Proof.
  pose proof header_packed as P. packed_fields P. unfold ObjectHeader_bytes, size_of_ObjectHeader in *.
  rewrite !(slice_kept 32 _ _ _ 8) by image. by rewrite (slice_put 32) by image.
Qed.

Lemma ObjectHeader_other_bytes h :
  slice off_other 8 (ObjectHeader_bytes h) = u64_bytes (oh_other h).
Proof.
  pose proof header_packed as P. packed_fields P. unfold ObjectHeader_bytes, size_of_ObjectHeader in *.
  by rewrite (slice_put 32) by image.
Qed.
Lemma ObjectHeader_pointers_decode h : is_u32 (os_pointers (oh_size h)) →
  os_pointers (oh_size (ObjectHeader_decode (ObjectHeader_bytes h))) = os_pointers (oh_size h).
Proof.
  intros Hp. pose proof header_packed as P. packed_fields P. unfold ObjectHeader_decode, ObjectHeader_bytes, size_of_ObjectHeader in *.
  cbn [oh_size os_pointers]. unfold int_at. rewrite !(slice_kept 32 _ _ _ 8) by image. rewrite (slice_kept 32 _ _ _ 4) by image.
  rewrite (slice_put 32) by image. by apply u32_roundtrip.
Qed.
End HeaderBytes.

(** ** Stores and free memory *)
Section Stores.
Context `{T : Target} `{C : Crc} {D : Type} `{Src : !Source D} `{Laws : !SourceLaws D}.
Abbreviation LAS := (LogicalAddressSpace D).
Implicit Types (las : LAS).

Lemma put_free_mem b off data las b' o : free_mem (put b off data las) b' o ↔ free_mem las b' o.
Proof.
  unfold free_mem. split; intros (sa & p & Hg & Hp & Ho).
  - rewrite las_get_put in Hg. destruct (decide (b' = b)) as [->|]; [|by exists sa, p].
    destruct (las_get las b) as [sa'|]; [|done]. injection Hg as <-. by exists sa', p.
  - destruct (decide (b' = b)) as [->|].
    + exists (with_device (source_store off data (sa_source sa)) sa), p.
      by rewrite las_get_put, decide_True, Hg.
    + exists sa, p. by rewrite las_get_put, decide_False.
Qed.

Lemma put_inv b off data las : byte_source las b → is_Some (mem las b off (blen data)) →
  las_inv las → las_inv (put b off data las).
Proof.
  intros Hb Hm Hinv. apply (las_inv_shape las); [by apply las_shape_put| |done].
  intros b' sa Hg. rewrite las_get_put in Hg. destruct (decide (b' = b)) as [->|]; [|by apply (inv_allocators _ Hinv b')].
  destruct Hb as (sa' & Hg' & Hb). destruct Hm as [bs (sa'' & Hg'' & Hr & _)%mem_Some]. simplify_eq.
  rewrite Hg' in Hg. injection Hg as <-. destruct (inv_allocators _ Hinv _ _ Hg') as [W1 W2 W3 W4].
  split; simpl; rewrite ?source_store_bytes, ?blen_splice by done; done.
Qed.

Lemma ga_wf_put b off data las ga : byte_source las b → is_Some (mem las b off (blen data)) →
  ga_wf las ga → ga_wf (put b off data las) ga.
Proof.
  intros Hb Hm [H1 H2]. split.
  - intros m Ha. apply (mutref_wf_shape las); [by apply las_shape_put|auto].
  - intros b' o Ha Hf. apply put_free_mem in Hf. by apply (H2 b' o).
Qed.

Lemma owned_put b off data las ga b' o : owned (put b off data las) ga b' o ↔ owned las ga b' o.
Proof. unfold owned. by rewrite put_free_mem. Qed.
End Stores.

(** ** Allocating an object *)
Section ObjectAllocation.
Context `{T : Target} `{TOk : !TargetOk T} `{C : Crc} {D : Type} `{Src : !Source D} `{Laws : !SourceLaws D}.
Abbreviation LAS := (LogicalAddressSpace D).
Implicit Types (las : LAS) (ga : GenericAllocator).

(** [len] bytes at [lo] of the source at [b] were the allocator's, and no
    longer are; nothing else was written. *)
Record block_taken las ga las' ga' (b lo len : Z) : Prop := {
  bt_inv : las_inv las';
  bt_wf : ga_wf las' ga';
  bt_shape : las_shape las' = las_shape las;
  bt_free b' o : free_mem las' b' o → free_mem las b' o;
  bt_owned b' o : owned las' ga' b' o → owned las ga b' o;
  bt_mem b' o n : b' ≠ b ∨ apart (o, n) (lo, len) → mem las' b' o n = mem las b' o n;
  bt_block o : lo ≤ o < lo + len → owned las ga b o ∧ ¬ owned las' ga' b o
}.

(** A new object with header [version], [other] at [ptr]. *)
Record object_alloc las ga las' ga' (total version other : Z) (ptr : UntypedPointer) (userdata : memref) : Prop := {
  oa_taken : block_taken las ga las' ga' (mr_source userdata)
    (ptr - size_of_ObjectHeader - mr_source userdata) (total + size_of_ObjectHeader);
  oa_ptr : size_of_ObjectHeader ≤ ptr < 2 ^ 54;
  oa_range : byte_range las' (ptr - size_of_ObjectHeader) (total + size_of_ObjectHeader) (mr_source userdata);
  oa_data : userdata = mk_memref (mr_source userdata)
    (ptr - size_of_ObjectHeader - mr_source userdata + size_of_ObjectHeader) total;
  oa_version : cell_holds las'
    (InMemory (mr_source userdata) (ptr - size_of_ObjectHeader - mr_source userdata + off_version)) version;
  oa_other : cell_holds las'
    (InMemory (mr_source userdata) (ptr - size_of_ObjectHeader - mr_source userdata + off_other)) other
}.

(** What is handed out is where words can be. *)
Lemma object_alloc_aligned las ga las' ga' total version other ptr userdata :
  object_alloc las ga las' ga' total version other ptr userdata → aligned 8 (mr_off userdata).
Proof.
  intros [_ _ _ Hd Hv _]. rewrite Hd. cbn [mr_off]. apply cell_holds_aligned in Hv.
  apply aligned_add; [done| |apply aligned_header].
  replace (ptr - size_of_ObjectHeader - mr_source userdata) with
    (ptr - size_of_ObjectHeader - mr_source userdata + off_version - off_version) by lia.
  apply aligned_sub; [done|done|apply header_aligned].
Qed.

(** The block of a successful allocation, once bytes of it are written. *)
Lemma block_taken_put las ga las' ga' len s r off data : alloc_frame las ga las' ga' →
  alloc_block las ga las' ga' len s r → byte_source las' (mr_source r) →
  is_Some (mem las' (mr_source r) off (blen data)) →
  mr_off r ≤ off → off + blen data ≤ mr_off r + len →
  block_taken las ga (put (mr_source r) off data las') ga' (mr_source r) (mr_off r) len.
Proof.
  intros [F1 F2 F3 F4 F5 F6] [_ B2 B3 B4 B5] Hb Hm Hlo Hhi. split.
  - by apply put_inv.
  - by apply ga_wf_put.
  - by rewrite las_shape_put.
  - intros b' o. rewrite put_free_mem. apply F5.
  - intros b' o. rewrite owned_put. apply F6.
  - intros b' o n Hap. rewrite mem_put_apart; [apply F4|done|done|].
    destruct Hap as [|Hap]; [by left|right]. unfold apart in *. cbn [fst snd] in *. lia.
  - intros o Hrange. rewrite owned_put. split; [by apply B4|by apply B5].
Qed.

Lemma slice_of_put las b off data o n : byte_source las b → is_Some (mem las b off (blen data)) →
  in_range o n (blen data) → mem (put b off data las) b (off + o) n = Some (slice o n data).
Proof.
  intros (sa & Hg & Hb) [bs (sa' & Hg' & Hr & _)%mem_Some] Hi. simplify_eq.
  apply mem_Some. rewrite las_get_put, decide_True, Hg by done. eexists; split; [done|]. simpl.
  rewrite source_store_bytes, blen_splice by done. rewrite slice_splice_inside by done.
  split; [usize|done].
Qed.

(** [init_object] on a block that is as long as header and data. *)
Lemma init_object_ok las a total b size version other : las_wf las →
  byte_range las a (total + size_of_ObjectHeader) b → 0 ≤ total → is_usize version → is_usize other → aligned 8 (a - b) →
  let hdr := ObjectHeader_bytes (ObjectHeader_new size version other) in
  TransactionalObjectAllocator_init_object (mk_memref b (a - b) (total + size_of_ObjectHeader)) size version other las =
    (Ok (mk_memref b (a - b + size_of_ObjectHeader) total), put b (a - b) hdr las) ∧
  byte_source las b ∧ is_Some (mem las b (a - b) (blen hdr)) ∧
  cell_holds (put b (a - b) hdr las) (InMemory b (a - b + off_version)) version ∧
  cell_holds (put b (a - b) hdr las) (InMemory b (a - b + off_other)) other.
Proof.
  cbv zeta. intros Hwf Hr Ht Hv Ho Hal. set (hdr := ObjectHeader_bytes _).
  destruct (byte_range_mem las a _ b Hwf Hr) as [Hb Hmem].
  assert (blen hdr = size_of_ObjectHeader) as Hlen by apply blen_ObjectHeader.
  assert (is_Some (mem las b (a - b) (blen hdr))) as Hm.
  { rewrite Hlen, <- (Z.add_0_r (a - b)). apply Hmem; usize. }
  pose proof header_packed as P. packed_facts P.
  split_and!; try done.
  - unfold TransactionalObjectAllocator_init_object, memref_split_at. cbn [mr_source mr_off mr_len].
    rewrite decide_True by usize. replace (total + size_of_ObjectHeader - size_of_ObjectHeader) with total by lia.
    rewrite (bind_ok _ _ _ (mk_memref b (a - b) size_of_ObjectHeader,
      mk_memref b (a - b + size_of_ObjectHeader) total) las) by done. cbv beta iota.
    rewrite any_from_slice_mut_ok, (bind_ok _ _ _ (mk_memref b (a - b) size_of_ObjectHeader) las) by done.
    rewrite (bind_ok _ _ _ tt (put b (a - b) hdr las)); [done|].
    unfold store_memref. fold hdr. cbn [mr_source mr_off mr_len]. rewrite bool_decide_true by done.
    by rewrite (bind_ok _ _ _ tt las), las_store_ok.
  - cbn [cell_holds]. unfold size_of_usize. rewrite slice_of_put by (done || rewrite Hlen; usize).
    split; [unfold hdr; by rewrite ObjectHeader_version_bytes|]. split; [done|]. apply aligned_add; [done..|apply header_aligned].
  - cbn [cell_holds]. unfold size_of_usize. rewrite slice_of_put by (done || rewrite Hlen; usize).
    split; [unfold hdr; by rewrite ObjectHeader_other_bytes|]. split; [done|]. apply aligned_add; [done..|apply header_aligned].
Qed.

Definition alloc_failure las (len : Z) (f : failure) : Prop :=
  f = Throw AllocationTooLarge ∧ las_pagesize las < len ∨
  f = Throw NoAvailableMemory ∧ next_page las = None.

Lemma byte_range_base las a len b : las_inv las → byte_range las a len b → 0 ≤ b ≤ a ∧ a + len < 2 ^ 54.
Proof.
  intros Hinv Hr. destruct (byte_range_facts _ _ _ _ (inv_wf _ Hinv) Hr)
    as (sa & _ & Hg & _ & Hle & Hps & Hl & Hm & Hpg & Hsz & Hu & Hmle & Ha).
  pose proof (inv_pointers _ Hinv _ _ Hg). lia.
Qed.

Lemma LogicalSlice_split_at_ok (s : LogicalSlice) (mid : Z) : is_usize (ls_offset s + mid) →
  0 ≤ mid ≤ ls_len s → is_usize (ls_len s) →
  LogicalSlice_split_at s mid = Ok (LogicalSlice_new (ls_offset s) mid,
    LogicalSlice_new (ls_offset s + mid) (ls_len s - mid)).
Proof.
  intros. unfold LogicalSlice_split_at. rewrite usize_add_ok by done. cbn [mbind outcome_bind].
  by rewrite usize_sub_ok by usize.
Qed.

Lemma object_alloc_ok las ga size total version other : las_inv las → ga_wf las ga → ga_aligned ga →
  ObjectSize_total size = Ok total → is_usize version → is_usize other →
  ∃ result ga' las',
    TransactionalObjectAllocator_alloc size version other (ga, las) = (result, (ga', las')) ∧
    (aligned 8 total → ga_aligned ga') ∧
    match result with
    | Ok (ptr, userdata) => object_alloc las ga las' ga' total version other ptr userdata
    | Fail f => alloc_frame las ga las' ga' ∧ alloc_failure las (total + size_of_ObjectHeader) f
    end.
Proof.
  intros Hinv Hga Hal Hsize Hv Ho.
  assert (is_u32 total) as Ht by (by apply (wrapping_range u32_modulus) in Hsize).
  set (len := total + size_of_ObjectHeader).
  pose proof (GenericAllocator_alloc_sound las ga len Hinv Hga ltac:(unfold len; usize)) as Hr.
  pose proof (GenericAllocator_alloc_aligned las ga len Hinv Hga Hal ltac:(unfold len; usize)) as Hal'.
  unfold TransactionalObjectAllocator_alloc. rewrite Hsize, (bind_ok _ _ _ total (ga, las)) by done.
  rewrite usize_add_ok, (bind_ok _ _ _ len (ga, las)) by (done || usize).
  destruct (GenericAllocator_alloc len (ga, las)) as [[[s r]|f] [ga' las']] eqn:Ha.
  all: destruct Hal' as [Hga' Hblock];
    assert (aligned 8 total → ga_aligned ga') as Hga'' by (intros; apply Hga'; unfold len; auto with alignment).
  2:{ exists (Fail f), ga', las'. by rewrite (bind_fail _ _ _ _ _ Ha). }
  destruct Hr as [[F1 F2 F3 F4 F5 F6] [[B0 B1] B2 B3 B4 B5]]. step Ha. specialize (Hblock s r eq_refl).
  destruct s as [a n], r as [b o n']. cbn [ls_offset ls_len mr_source mr_off mr_len] in *. subst n n'.
  assert (o = a - b) as -> by lia.
  destruct (byte_range_base las a len b Hinv B3) as [Hb Haddr].
  pose proof (byte_range_shape las las' a len b F3 B3) as B3'.
  destruct (init_object_ok las' a total b size version other (inv_wf _ F1) B3') as (Hi & Hbs & Hm & Hver & Hoth);
    [usize|done|done|done|]. set (hdr := ObjectHeader_bytes _) in *.
  assert (blen hdr = size_of_ObjectHeader) as Hlen by apply blen_ObjectHeader.
  eexists (Ok (a + size_of_ObjectHeader, mk_memref b (a - b + size_of_ObjectHeader) total)), ga', (put b (a - b) hdr las').
  split.
  - rewrite (bind_ok _ _ _ (mk_memref b (a - b + size_of_ObjectHeader) total) (ga', put b (a - b) hdr las')).
    2:{ unfold on_las, zoom. cbn [snd]. change len with (total + size_of_ObjectHeader). by rewrite Hi. }
    rewrite LogicalSlice_split_at_ok by (cbn [ls_offset ls_len]; unfold len in *; usize).
    rewrite (bind_ok _ _ _ (LogicalSlice_new a size_of_ObjectHeader,
      LogicalSlice_new (a + size_of_ObjectHeader) (len - size_of_ObjectHeader)) (ga', put b (a - b) hdr las')) by done.
    cbv beta iota. by rewrite UntypedPointer_new_byte_eq.
  - split; [done|]. assert (a + size_of_ObjectHeader - size_of_ObjectHeader = a) as Ha' by lia.
    split; cbn [mr_source]; rewrite ?Ha'; try done.
    + apply (block_taken_put las ga las' ga' len (LogicalSlice_new a len) (mk_memref b (a - b) len)); try done;
        cbn [mr_off]; rewrite ?Hlen; unfold len; usize.
    + unfold len in *. usize.
    + apply (byte_range_shape las'); [by apply las_shape_put|done].
Qed.

Lemma new_indirect_version_ok las ga : las_inv las → ga_wf las ga → ga_aligned ga →
  ∃ result ga' las',
    TransactionalLogAllocator_new_indirect_version (ga, las) = (result, (ga', las')) ∧ ga_aligned ga' ∧
    match result with
    | Ok version => ∃ b p, version_at las' (OnStack version) (cell_at b p) 0 ∧
        version = Z.lor p VERSION_TYPE_INDIRECT ∧ is_usize version ∧ byte_source las' b ∧
        block_taken las ga las' ga' b (p - b) size_of_Version
    | Fail f => alloc_frame las ga las' ga' ∧ alloc_failure las size_of_Version f
    end.
Proof.
  intros Hinv Hga Hal. set (len := size_of_Version). assert (len = 8) as Hl8 by done.
  pose proof (GenericAllocator_alloc_sound las ga len Hinv Hga ltac:(done)) as Hr.
  pose proof (GenericAllocator_alloc_aligned las ga len Hinv Hga Hal ltac:(done)) as Hal'.
  unfold TransactionalLogAllocator_new_indirect_version. fold len.
  destruct (GenericAllocator_alloc len (ga, las)) as [[[s r]|f] [ga' las']] eqn:Ha.
  all: destruct Hal' as [Hga' Hblock]; specialize (Hga' (aligned_mul 8 1)).
  2:{ exists (Fail f), ga', las'. by rewrite (bind_fail _ _ _ _ _ Ha). }
  specialize (Hblock s r eq_refl). destruct Hr as [HF HB]. pose proof HF as [F1 F2 F3 F4 F5 F6]. pose proof HB as [[B0 B1] B2 B3 B4 B5]. step Ha.
  destruct s as [a n], r as [b o n']. cbn [ls_offset ls_len mr_source mr_off mr_len] in *. subst n n'.
  assert (o = a - b) as -> by lia.
  rewrite any_from_slice_mut_ok, (bind_ok _ _ _ (mk_memref b (a - b) len) (ga', las')) by done.
  unfold memref_cell. cbn [mr_source mr_off]. rewrite Z.add_0_r.
  destruct (byte_range_base las a len b Hinv B3) as [Hb Haddr].
  pose proof (byte_range_shape las las' a len b F3 B3) as B3'.
  destruct (byte_range_mem las' a _ b (inv_wf _ F1) B3') as [Hbs Hmem].
  assert (is_Some (mem las' b (a - b) 8)) as Hm.
  { rewrite <- (Z.add_0_r (a - b)). apply Hmem; unfold len, size_of_Version; lia. }
  destruct (Version_indirect a) as (Hv & _); [lia|].
  eexists (Ok _), ga', (put b (a - b) (u64_bytes 0) las'). split.
  - rewrite (bind_ok _ _ _ (InMemory b (a - b)) (ga', put b (a - b) (u64_bytes 0) las')).
    2:{ unfold on_las, zoom. cbn [snd]. unfold cell_store. step (atomic_at_ok las' (a - b) Hblock).
        by rewrite (bind_ok _ _ _ _ _ (las_store_ok las' b (a - b) (u64_bytes 0) Hm)). }
    cbn [LogicalSlice_address ls_offset]. rewrite UntypedPointer_new_byte_eq, Version_new_indirect_ok by lia. done.
  - split; [done|]. exists b, a. split_and!; try done.
    + apply version_indirect; try done; [lia| |].
      * apply (byte_range_shape las'); [by apply las_shape_put|done].
      * split; [|done]. unfold size_of_usize. by apply (mem_put_same las' b (a - b) (u64_bytes 0)).
    + usize.
    + apply (byte_source_shape las'); [by apply las_shape_put|done].
    + apply (block_taken_put las ga las' ga' len (LogicalSlice_new a len) (mk_memref b (a - b) len)); try done;
        cbn [mr_off]; rewrite ?blen_u64; unfold len, size_of_Version; lia.
Qed.
End ObjectAllocation.

(** ** What an allocation leaves alone *)
Section Frames.
Context `{T : Target} `{TOk : !TargetOk T} `{C : Crc} {D : Type} `{Src : !Source D} `{Laws : !SourceLaws D}.
Abbreviation LAS := (LogicalAddressSpace D).
Implicit Types (las : LAS) (ga : GenericAllocator) (e : entry).

(** A cell that keeps what it holds. *)
Definition cell_kept las las' (c : cell) : Prop := ∀ v, cell_holds las c v → cell_holds las' c v.

(** Memory that is in use: not the allocator's to hand out. *)
Definition range_unowned las ga (b off len : Z) : Prop :=
  ∀ o, off ≤ o < off + len → ¬ owned las ga b o.
Definition cell_unowned las ga (c : cell) : Prop :=
  match c with InMemory b off => range_unowned las ga b off size_of_usize | OnStack _ => True end.

(** Two ranges without a common position. *)
Lemma apart_disjoint (f g : Z * Z) : 0 < f.2 → 0 < g.2 →
  (∀ o, f.1 ≤ o < f.1 + f.2 → g.1 ≤ o < g.1 + g.2 → False) → apart f g.
Proof.
  destruct f as [f n], g as [g m]. unfold apart. simpl. intros Hn Hm Hd.
  destruct (decide (f + n ≤ g)); [by left|]. destruct (decide (g + m ≤ f)); [by right|].
  exfalso. apply (Hd (Z.max f g)); lia.
Qed.

Lemma range_unowned_apart las ga b off n lo len : range_unowned las ga b off n → 0 < n → 0 < len →
  (∀ o, lo ≤ o < lo + len → owned las ga b o) → apart (off, n) (lo, len).
Proof. intros Hc Hn Hl Ho. apply apart_disjoint; [done..|]. intros o H1 H2. by apply (Hc o H1), Ho. Qed.

Lemma block_taken_range las ga las' ga' b lo len b' off n : block_taken las ga las' ga' b lo len → 0 < len →
  0 < n → range_unowned las ga b' off n → mem las' b' off n = mem las b' off n.
Proof.
  intros Hbt Hl Hn Hc. rewrite (bt_mem _ _ _ _ _ _ _ Hbt); [done|].
  destruct (decide (b' = b)) as [->|]; [right|by left].
  eapply range_unowned_apart; [done|done|done|]. intros o Ho. by apply (bt_block _ _ _ _ _ _ _ Hbt).
Qed.

Lemma block_taken_kept las ga las' ga' b lo len c : block_taken las ga las' ga' b lo len → 0 < len →
  cell_unowned las ga c → cell_kept las las' c.
Proof.
  intros Hbt Hl Hc v. destruct c as [b' off|]; [|done]. intros (Hm & Hv & ?). split; [|done].
  by rewrite (block_taken_range las ga las' ga' b lo len).
Qed.

Lemma range_unowned_mono las ga las' ga' b off n : (∀ b o, owned las' ga' b o → owned las ga b o) →
  range_unowned las ga b off n → range_unowned las' ga' b off n.
Proof. intros Hs Hc o Ho Hw. by apply (Hc o Ho), Hs. Qed.

Lemma cell_unowned_mono las ga las' ga' c : (∀ b o, owned las' ga' b o → owned las ga b o) →
  cell_unowned las ga c → cell_unowned las' ga' c.
Proof. destruct c; [|done]. apply range_unowned_mono. Qed.

(** A cell of the block is in use from now on. *)
Lemma block_taken_unowned las ga las' ga' b lo len off : block_taken las ga las' ga' b lo len →
  lo ≤ off → off + size_of_usize ≤ lo + len → cell_unowned las' ga' (InMemory b off).
Proof. intros Hbt Hlo Hhi o Ho. apply (bt_block _ _ _ _ _ _ _ Hbt). lia. Qed.

Lemma version_at_kept las las' c home v : las_shape las' = las_shape las →
  cell_kept las las' c → cell_kept las las' home → version_at las c home v → version_at las' c home v.
Proof.
  intros Hs Hc Hh Hv. destruct Hv as [v Hv Hr|p b v Hv Hp Hr Hv' Hrange].
  - apply version_direct; auto.
  - apply version_indirect; auto. by apply (byte_range_shape las).
Qed.

Definition chain_cells (entries : list entry) : list cell :=
  entries ≫= λ e, [en_version_cell e; en_other_cell e; en_home e].

Lemma Forall_chain_cells (P : cell → Prop) e entries : Forall P (chain_cells (e :: entries)) ↔
  P (en_version_cell e) ∧ P (en_other_cell e) ∧ P (en_home e) ∧ Forall P (chain_cells entries).
Proof. unfold chain_cells. csimpl. by rewrite !Forall_cons. Qed.

Lemma Forall_chain_apart (home : cell) entries :
  Forall (λ c, cells_apart c home) (chain_cells entries) → Forall (entry_apart home) entries.
Proof.
  induction entries as [|e entries IH]; [done|]. intros (Hv & Ho & Hh & Hs)%Forall_chain_cells.
  constructor; [split_and!; [by right|done|by right]|auto].
Qed.

Lemma Forall_chain_homes (home : cell) entries :
  Forall (λ c, cells_apart c home) (chain_cells entries) → Forall (λ e, cells_apart (en_home e) home) entries.
Proof.
  induction entries as [|e entries IH]; [done|]. intros (Hv & Ho & Hh & Hs)%Forall_chain_cells.
  constructor; auto.
Qed.

(** A commit does not change the versions that are kept elsewhere. *)
Lemma commit_entry_apart (home : cell) (v : Z) entries : (∃ b off, home = InMemory b off) →
  Forall (λ e, cells_apart (en_home e) home) entries → commit_entry home v <$> entries = entries.
Proof.
  intros (b & off & ->) Hap. induction Hap as [|e entries He Hap IH]; csimpl; [done|]. rewrite IH. f_equal.
  unfold commit_entry. rewrite decide_False; [done|]. intros Heq. rewrite Heq in He. simpl in He.
  unfold apart, size_of_usize in He. simpl in He. destruct He as [|[|]]; [done|lia|lia].
Qed.

Lemma version_chain_kept las las' total raw entries : las_shape las' = las_shape las →
  Forall (cell_kept las las') (chain_cells entries) →
  version_chain las total raw entries → version_chain las' total raw entries.
Proof.
  intros Hs Hk Hch. induction Hch as [raw Hn|raw e other entries Hsome Hb Ha Hle Hr Hve Ho Hch IH];
    [by apply chain_none|].
  apply Forall_chain_cells in Hk as (Hv & Hot & Hh & Hk).
  apply (chain_object _ _ _ _ other); try done.
  - by apply (byte_range_shape las).
  - by apply (version_at_kept las).
  - by apply Hot.
  - by apply IH.
Qed.

(** Another allocator is not disturbed. *)
Lemma ga_wf_kept las ga las' : las_shape las' = las_shape las →
  (∀ b o, free_mem las' b o → free_mem las b o) → ga_wf las ga → ga_wf las' ga.
Proof.
  intros Hs Hf [H1 H2]. split.
  - intros m Hm. apply (mutref_wf_shape las); auto.
  - intros b o Ha Hfr. by apply (H2 b o Ha), Hf.
Qed.

Lemma owned_kept las ga las' : (∀ b o, free_mem las' b o → free_mem las b o) →
  ∀ b o, owned las' ga b o → owned las ga b o.
Proof. intros Hf b o [Ha|Hfr]; [by left|right; by apply Hf]. Qed.

(** The new object heads a chain that goes on as the one it replaces. *)
Lemma version_chain_extend las total ptr userdata home v version other entries :
  size_of_ObjectHeader ≤ ptr < 2 ^ 54 →
  userdata = mk_memref (mr_source userdata)
    (ptr - size_of_ObjectHeader - mr_source userdata + size_of_ObjectHeader) total →
  byte_range las (ptr - size_of_ObjectHeader) (total + size_of_ObjectHeader) (mr_source userdata) →
  let e := mk_entry (mr_source userdata) ptr home v in
  cell_holds las (en_other_cell e) other → cell_holds las (en_version_cell e) version →
  version_at las (en_version_cell e) home v →
  version_chain las total other entries →
  version_chain las total ptr (e :: entries) ∧ userdata = en_data total e.
Proof.
  cbv zeta. intros Hp Hu Hr Ho Hve Hv Hch. split; [|done].
  destruct (byte_pointer ptr) as [Ha Hb]; [usize|].
  apply (chain_object _ _ _ _ other); try done.
  - unfold UntypedPointer_is_some. rewrite Ha. apply bool_decide_true. usize.
  - apply Hp.
Qed.
End Frames.

(** ** Two allocators over one address space

    A transaction has one allocator for objects and one for its log. *)
Section TwoAllocators.
Context `{T : Target} `{TOk : !TargetOk T} `{C : Crc} {D : Type} `{Src : !Source D} `{Laws : !SourceLaws D}.
Abbreviation LAS := (LogicalAddressSpace D).
Implicit Types (las : LAS) (ga : GenericAllocator).

Record allocators_inv las ga1 ga2 : Prop := {
  ai_las : las_inv las;
  ai_first : ga_wf las ga1;
  ai_second : ga_wf las ga2;
  ai_apart b o : active_mem ga1 b o → ¬ active_mem ga2 b o;
  ai_aligned : ga_aligned ga1 ∧ ga_aligned ga2
}.

Lemma allocators_inv_sym las ga1 ga2 : allocators_inv las ga1 ga2 → allocators_inv las ga2 ga1.
Proof. intros [H1 H2 H3 H4 [H5 H6]]. split; try done. intros b o Ha Hb. by apply (H4 b o). Qed.

(** Not to be handed out by either. *)
Definition range_in_use las ga1 ga2 (b off len : Z) : Prop :=
  range_unowned las ga1 b off len ∧ range_unowned las ga2 b off len.
Definition in_use las ga1 ga2 (c : cell) : Prop := cell_unowned las ga1 c ∧ cell_unowned las ga2 c.

Lemma in_use_sym las ga1 ga2 c : in_use las ga1 ga2 c → in_use las ga2 ga1 c.
Proof. by intros [??]. Qed.

(** The first allocator is called: the second, and what is in use, do not notice. *)
Record allocators_step las ga1 las' ga1' ga2 : Prop := {
  as_inv : allocators_inv las' ga1' ga2;
  as_shape : las_shape las' = las_shape las;
  as_kept c : in_use las ga1 ga2 c → cell_kept las las' c ∧ in_use las' ga1' ga2 c;
  as_range b off n : 0 < n → range_in_use las ga1 ga2 b off n →
    mem las' b off n = mem las b off n ∧ range_in_use las' ga1' ga2 b off n
}.

Lemma block_taken_step las ga1 las' ga1' ga2 b lo len : allocators_inv las ga1 ga2 →
  block_taken las ga1 las' ga1' b lo len → ga_aligned ga1' → 0 < len →
  allocators_step las ga1 las' ga1' ga2 ∧
  (∀ o, lo ≤ o < lo + len → ¬ owned las' ga1' b o ∧ ¬ owned las' ga2 b o).
Proof.
  intros [I1 I2 I3 I4 I5] Hbt Hal Hlen. pose proof Hbt as [B1 B2 B3 B4 B5 B6 B7].
  split; [split; [split|done| |]|]; try done.
  - by apply (ga_wf_kept las).
  - intros b' o Ha Hb. destruct (B5 b' o (or_introl Ha)) as [Ha'|Hf]; [by apply (I4 b' o)|].
    by apply (ga_taken _ _ I3 b' o).
  - by destruct I5.
  - intros c [H1 H2]. split; [by apply (block_taken_kept las ga1 las' ga1' b lo len)|]. split.
    + by apply (cell_unowned_mono las ga1).
    + apply (cell_unowned_mono las ga2); [|done]. by apply owned_kept.
  - intros b' off n Hn [H1 H2]. split; [by apply (block_taken_range las ga1 las' ga1' b lo len)|]. split.
    + by apply (range_unowned_mono las ga1).
    + apply (range_unowned_mono las ga2); [|done]. by apply owned_kept.
  - intros o Ho. destruct (B7 o Ho) as [Hown Hno]. split; [done|]. intros [Ha|Hf].
    + destruct Hown as [Ha'|Hf]; [by apply (I4 b o)|]. by apply (ga_taken _ _ I3 b o).
    + apply Hno. by right.
Qed.

Lemma alloc_frame_step las ga1 las' ga1' ga2 : allocators_inv las ga1 ga2 →
  alloc_frame las ga1 las' ga1' → ga_aligned ga1' → allocators_step las ga1 las' ga1' ga2.
Proof.
  intros [I1 I2 I3 I4 I5] [F1 F2 F3 F4 F5 F6] Hal. split; [split|done| |]; try done.
  - by apply (ga_wf_kept las).
  - intros b' o Ha Hb. destruct (F6 b' o (or_introl Ha)) as [Ha'|Hf]; [by apply (I4 b' o)|].
    by apply (ga_taken _ _ I3 b' o).
  - by destruct I5.
  - intros c [H1 H2]. split; [|split].
    + intros v. destruct c; [|done]. simpl. by rewrite F4.
    + by apply (cell_unowned_mono las ga1).
    + apply (cell_unowned_mono las ga2); [|done]. by apply owned_kept.
  - intros b' off n Hn [H1 H2]. split; [by apply F4|]. split.
    + by apply (range_unowned_mono las ga1).
    + apply (range_unowned_mono las ga2); [|done]. by apply owned_kept.
Qed.

(** Bytes written outside free memory. *)
Lemma put_allocators_inv b off data las ga1 ga2 : byte_source las b → is_Some (mem las b off (blen data)) →
  allocators_inv las ga1 ga2 → allocators_inv (put b off data las) ga1 ga2.
Proof. intros Hb Hm [I1 I2 I3 I4 I5]. split; [by apply put_inv|by apply ga_wf_put|by apply ga_wf_put|done|done]. Qed.

Lemma range_unowned_put b off data las ga b' off' n :
  range_unowned (put b off data las) ga b' off' n ↔ range_unowned las ga b' off' n.
Proof. unfold range_unowned. by setoid_rewrite owned_put. Qed.

Lemma range_in_use_put b off data las ga1 ga2 b' off' n :
  range_in_use (put b off data las) ga1 ga2 b' off' n ↔ range_in_use las ga1 ga2 b' off' n.
Proof. unfold range_in_use. by rewrite !range_unowned_put. Qed.

Lemma in_use_put b off data las ga1 ga2 c : in_use (put b off data las) ga1 ga2 c ↔ in_use las ga1 ga2 c.
Proof. destruct c; [apply range_in_use_put|done]. Qed.
End TwoAllocators.
