(* ===== verification/Paging.v ===== *)
(** * Flushing and fetching pages

    The traffic between volatile pages and their backing: what [flush] writes
    where, and that [fetch] brings it back. *)
From S2P Require Import Prelude Utils Source SourceAllocator Slices Las Memory Pointer Vos.
From S2P Require Import Allocators Objects.

Section Paging.
Context `{T : Target} `{C : Crc} {D : Type} `{Src : !Source D} `{Laws : !SourceLaws D}.
Abbreviation LAS := (LogicalAddressSpace D).
Implicit Types (las : LAS).

Lemma page_aligned_ok a len ps : is_pow2 ps → is_usize a → 0 < len ≤ ps →
  LogicalSlice_page_aligned (LogicalSlice_new a len) ps = Ok (LogicalSlice_new (a - a mod ps) ps).
Proof.
  intros Hp Ha Hl. unfold LogicalSlice_page_aligned. simpl. rewrite align_down_eq by done. simpl.
  by rewrite align_up_page.
Qed.

(** The page a range is in: its key in the page table, its offset in the
    source, and the place of the range in it. *)
Definition page_key las (a : Z) : Z := a - a mod las_pagesize las.
Definition page_place las (a : Z) : Z := a mod las_pagesize las.

Lemma page_of_range las a len b : las_inv las → byte_range las a len b →
  byte_range las (page_key las a) (las_pagesize las) b ∧
  (a - b) mod las_pagesize las = page_place las a ∧ 0 ≤ b ≤ page_key las a ∧
  (page_key las a - b) mod las_pagesize las = 0 ∧
  0 ≤ page_place las a ∧ page_place las a + len ≤ las_pagesize las ∧ 0 < len ∧ is_usize a ∧
  page_key las a < 2 ^ 54 ∧ a = page_key las a + page_place las a.
Proof.
  intros Hinv Hr. pose proof (inv_wf _ Hinv) as Hwf. unfold page_key, page_place.
  destruct (byte_range_facts _ _ _ _ Hwf Hr)
    as (sa & _ & Hg & Hb & Hle & Hps & Hl & Hm & Hpg & Hsz & Hu & Hmle & Ha).
  pose proof (inv_pointers _ Hinv _ _ Hg) as Hptr.
  set (ps := las_pagesize las) in *.
  destruct (inv_aligned _ Hinv b) as [k Hk].
  { apply list_elem_of_fmap. exists (b, sa). split; [done|]. by apply btree_get_elem_2. }
  fold ps in Hk.
  assert (a mod ps = (a - b) mod ps) as Hmod.
  { rewrite Hk. replace (a - k * ps) with (a + (- k) * ps) by lia. by rewrite Z_mod_plus_full. }
  assert (a - a mod ps - b = (a - b) / ps * ps) as Hkey.
  { pose proof (Z.div_mod (a - b) ps ltac:(lia)). lia. }
  assert ((a - a mod ps - b) mod ps = 0) as Hzero by (rewrite Hkey; apply Z.mod_mul; lia).
  split_and!; try lia; try done. split.
  - pose proof (Z.div_mod (a - b) ps ltac:(lia)) as Hdm. clear Hkey Hzero.
    rewrite Hmod. set (q := (a - b) / ps) in *. set (r := (a - b) mod ps) in *. clearbody q r.
    assert (q * ps + ps ≤ blen (source_bytes (sa_source sa)) / ps * ps) as Hwhole.
    { assert (q * ps + ps ≤ blen (source_bytes (sa_source sa))) as Hd by lia.
      apply (Z.div_le_mono _ _ ps) in Hd; [|lia].
      replace (q * ps + ps) with ((q + 1) * ps) in Hd by lia.
      rewrite Z.div_mul in Hd by lia. nia. }
    apply (las_home_inv las b sa); [done..|]. fold ps. lia.
  - lia.
  - fold ps. lia.
  - exists sa. split_and!; [done..|]. fold ps. lia.
Qed.

(** [flush], as far as the page table. *)
Lemma flush_unfold las a len b sa fuel : las_inv las → byte_range las a len b → las_get las b = Some sa →
  let slice := mk_ByteLogicalSlice (LogicalSlice_new a len) in
  let o := page_key las a - b in
  flush_loop (S fuel) slice las =
    if SourceAllocator_is_persistent sa then
      (on_allocator b (SourceAllocator_flush_partial (o, las_pagesize las)) ;; mret (Byte slice)) las
    else match las_backing las !! page_key las a with
    | Some backing =>
        (flush_to_backing (las_pagesize las) backing (mk_memref b o (las_pagesize las)) ;;
         lift (backing_slice backing (page_place las a) len)) las
    | None => (LogicalAddressSpace_allocate_backing (page_key las a) ;; flush_loop fuel slice) las
    end.
Proof.
  cbv zeta. intros Hinv Hr Hg. pose proof (inv_wf _ Hinv) as Hwf.
  destruct (page_of_range las a len b Hinv Hr) as (Hpr & Hpl & Hb & Hz & Hp0 & Hplen & Hl & Ha & Hk & Hsplit).
  destruct (byte_range_facts _ _ _ _ Hwf Hpr)
    as (sa' & E & Hg' & Hbyte & _ & Hps & _ & _ & _ & Hsz & Hu & _ & Hka). simplify_eq.
  rewrite Hz, Z.sub_0_r in Hsz.
  set (ps := las_pagesize las) in *. set (key := page_key las a) in *. set (place := page_place las a) in *.
  cbn [flush_loop byte_slice]. rewrite (bind_ok _ _ _ ps las) by done.
  rewrite page_aligned_ok by (done || apply Hwf || lia). fold ps. change (a - a mod ps) with key.
  rewrite (bind_ok _ _ _ (LogicalSlice_new key ps) las) by done.
  rewrite (with_source_eq _ _ _ _ _ _ E). rewrite Hbyte, (bind_ok _ _ _ tt las) by done.
  rewrite to_page_ok by (done || apply Hwf || lia). rewrite Hz, Z.sub_0_r.
  rewrite (bind_ok _ _ _ (Page_new (key - b) ps) las) by done.
  rewrite (bind_ok _ _ _ (Some (key - b, ps)) las)
    by (apply (on_allocator_same _ _ _ sa); [done|apply SourceAllocator_get_bytes_ok; [done|usize|usize]]).
  rewrite (bind_ok _ _ _ (key - b, ps) las) by done. cbv beta iota.
  rewrite page_offset_ok by (done || lia).
  rewrite (bind_ok _ _ _ place las) by (unfold lift; do 2 f_equal; lia).
  destruct (SourceAllocator_is_persistent sa); [done|].
  rewrite (bind_ok _ _ _ (las_backing las !! key) las) by done. by destruct (las_backing las !! key).
Qed.

(** [get_backing], as far as the page table. *)
Lemma get_backing_unfold las a len b sa : las_inv las → byte_range las a len b → las_get las b = Some sa →
  LogicalAddressSpace_get_backing (mk_ByteLogicalSlice (LogicalSlice_new a len)) las =
    if SourceAllocator_is_persistent sa then (Ok (Some (Byte (mk_ByteLogicalSlice (LogicalSlice_new a len)))), las)
    else match las_backing las !! page_key las a with
    | Some backing => (stored ← lift (backing_slice backing (page_place las a) len); mret (Some stored)) las
    | None => (Ok None, las)
    end.
Proof.
  intros Hinv Hr Hg. pose proof (inv_wf _ Hinv) as Hwf.
  destruct (page_of_range las a len b Hinv Hr) as (Hpr & Hpl & Hb & Hz & Hp0 & Hplen & Hl & Ha & Hk & Hsplit).
  destruct (byte_range_facts _ _ _ _ Hwf Hpr)
    as (sa' & E & Hg' & Hbyte & _ & Hps & _ & _ & _ & Hsz & Hu & _ & Hka). simplify_eq.
  unfold LogicalAddressSpace_get_backing. cbn [byte_slice ls_len].
  rewrite (bind_ok _ _ _ (las_pagesize las) las) by done.
  rewrite page_aligned_ok by (done || apply Hwf || lia). fold (page_key las a).
  rewrite (bind_ok _ _ _ (LogicalSlice_new (page_key las a) (las_pagesize las)) las) by done.
  rewrite (with_source_eq _ _ _ _ _ _ E). rewrite to_page_ok by (apply Hwf || lia || done).
  rewrite Hz, Z.sub_0_r. rewrite (bind_ok _ _ _ (Page_new (page_key las a - b) (las_pagesize las)) las) by done.
  rewrite page_offset_ok by (done || lia).
  rewrite (bind_ok _ _ _ (page_place las a) las) by (unfold lift; do 2 f_equal; lia).
  destruct (SourceAllocator_is_persistent sa); [done|]. cbn [LogicalSlice_address ls_offset].
  rewrite (bind_ok _ _ _ (las_backing las !! page_key las a) las) by done. by destruct (las_backing las !! page_key las a).
Qed.

(** *** The backing of a page *)
Lemma with_backing_shape las m : las_shape (with_backing m las) = las_shape las.
Proof. done. Qed.

Lemma with_backing_mem las m b o n : mem (with_backing m las) b o n = mem las b o n.
Proof. done. Qed.

Lemma with_backing_inv las m : las_inv las → las_inv (with_backing m las).
Proof. intros Hinv. apply (las_inv_shape las); [done| |done]. apply (inv_allocators _ Hinv). Qed.

(** The source a page is backed on, and the page it gets. *)
Definition backing_page las : option (Z * SourceAllocator D * Page * list Page) :=
  '(d, sd) ← LogicalAddressSpace_get_best_persistent las;
  match sa_freelist sd with [] => None | page :: rest => Some (d, sd, page, rest) end.

Definition backing_of las (d : Z) (sd : SourceAllocator D) (page : Page) : StoredLogicalSlice :=
  StoredLogicalSlice_new (LogicalSlice_new (page_offset page + d) (las_pagesize las))
    (SourceAllocator_is_byte_addressable sd).

Lemma backing_page_get las d sd page rest : las_inv las → backing_page las = Some (d, sd, page, rest) →
  las_get las d = Some sd ∧ SourceAllocator_is_persistent sd = true ∧ sa_freelist sd = page :: rest ∧
  page_fits (las_pagesize las) (blen (source_bytes (sa_source sd))) page ∧
  0 ≤ d ∧ d + blen (source_bytes (sa_source sd)) < 2 ^ 54.
Proof.
  unfold backing_page, LogicalAddressSpace_get_best_persistent, LogicalAddressSpace_get_best_source.
  intros Hinv Hb. destruct (find _ _) as [[d' sd']|] eqn:Hf; [|done]. simpl in Hb.
  apply find_some in Hf as [Hin Hp]. destruct (sa_freelist sd') as [|page' rest'] eqn:Hfree; [done|].
  injection Hb as -> -> -> ->.
  assert (las_get las d = Some sd) as Hg by (apply btree_get_elem; [apply Hinv|by apply list_elem_of_In]).
  destruct (SourceAllocator_allocate_page_eq sd page rest (inv_allocators _ Hinv _ _ Hg) Hfree) as (_ & _ & Hfit & _).
  destruct (las_wf_size _ (inv_wf _ Hinv) _ _ Hg) as (Hd & _ & Hps). rewrite Hps in Hfit.
  split_and!; try done. by apply (inv_pointers _ Hinv).
Qed.

Lemma allocate_backing_eq las key : las_inv las → las_backing las !! key = None →
  LogicalAddressSpace_allocate_backing key las =
    match backing_page las with
    | None => (Err NoAvailableMemory, las)
    | Some (d, sd, page, rest) =>
        (Ok tt, with_backing (<[key := backing_of las d sd page]> (las_backing las)) (take_page d rest las))
    end.
Proof.
  intros Hinv Hnone. unfold LogicalAddressSpace_allocate_backing.
  rewrite (bind_ok _ _ _ las las), Hnone by done.
  destruct (backing_page las) as [[[[d sd] page] rest]|] eqn:Hb.
  - destruct (backing_page_get _ _ _ _ _ Hinv Hb) as (Hg & _ & Hfree & (Hlen & _ & Hlo & Hhi) & Hd & Hd54).
    pose proof (is_pow2_range _ (las_wf_pagesize _ (inv_wf _ Hinv))) as Hpr.
    unfold backing_page in Hb. destruct (LogicalAddressSpace_get_best_persistent las) as [[d' sd']|]; [|done].
    simpl in Hb. assert (d' = d ∧ sd' = sd) as [-> ->] by (destruct (sa_freelist sd'); [done|by injection Hb]).
    rewrite (bind_ok _ _ _ (d, sd) las) by done. cbv beta iota.
    destruct (SourceAllocator_allocate_page_eq sd page rest (inv_allocators _ Hinv _ _ Hg) Hfree) as (Ha & _).
    rewrite (bind_ok _ _ _ page (take_page d rest las)).
    2:{ rewrite (on_allocator_eq _ _ _ sd _ _ Hg Ha). unfold take_page. by rewrite Hg. }
    unfold LogicalSlice_from_page, size_of_PageHeader. rewrite usize_add_ok by usize. cbn [mbind outcome_bind].
    rewrite usize_add_ok by usize. cbn [mbind outcome_bind]. rewrite usize_sub_ok by usize.
    rewrite (bind_ok _ _ _ (LogicalSlice_new (page_offset page + d) (las_pagesize las)) (take_page d rest las)).
    2:{ unfold lift. simpl. do 3 f_equal; lia. }
    unfold modify, backing_of. do 3 f_equal. unfold take_page. by rewrite Hg.
  - unfold backing_page in Hb. destruct (LogicalAddressSpace_get_best_persistent las) as [[d sd]|] eqn:Hbest; [|done].
    simpl in Hb. destruct (sa_freelist sd) as [|page rest] eqn:Hfree; [|done].
    rewrite (bind_ok _ _ _ (d, sd) las) by done. cbv beta iota.
    rewrite (bind_fail _ _ _ (Throw NoAvailableMemory) las); [done|].
    apply (on_allocator_same _ _ _ sd).
    + unfold LogicalAddressSpace_get_best_persistent, LogicalAddressSpace_get_best_source in Hbest.
      apply find_some in Hbest as [Hin _]. apply btree_get_elem; [apply Hinv|by apply list_elem_of_In].
    + unfold SourceAllocator_allocate_page. by rewrite (bind_ok _ _ _ sd sd), Hfree by done.
Qed.

Lemma flush_loop_fuel las a len b fuel : las_inv las → byte_range las a len b →
  flush_loop (S (S fuel)) (mk_ByteLogicalSlice (LogicalSlice_new a len)) las =
  LogicalAddressSpace_flush (mk_ByteLogicalSlice (LogicalSlice_new a len)) las.
Proof.
  intros Hinv Hr. destruct (br_source _ _ _ _ Hr) as (sa & Hg & _). unfold LogicalAddressSpace_flush.
  rewrite !(flush_unfold las a len b sa) by done.
  destruct (SourceAllocator_is_persistent sa) eqn:Hp; [done|].
  destruct (las_backing las !! page_key las a) as [backing|] eqn:Hb; [done|].
  pose proof (allocate_backing_eq las (page_key las a) Hinv Hb) as Halloc.
  destruct (backing_page las) as [[[[d sd] page] rest]|] eqn:Hpage; [|by do 2 step Halloc].
  do 2 step Halloc.
  destruct (backing_page_get _ _ _ _ _ Hinv Hpage) as (Hgd & Hpd & Hfree & _).
  set (las1 := with_backing _ _).
  assert (las_shape las1 = las_shape las) as Hs by (unfold las1; rewrite with_backing_shape; apply take_page_shape).
  assert (las_inv las1) as Hinv1 by (apply with_backing_inv; by apply take_page_inv with sd page).
  pose proof (byte_range_shape las las1 a len b Hs Hr) as Hr1.
  destruct (las_shape_get las las1 b sa Hs Hg) as (sa1 & Hg1 & Hf1 & _).
  rewrite !(flush_unfold las1 a len b sa1) by done.
  assert (page_key las1 a = page_key las a) as ->.
  { unfold page_key. pose proof (f_equal fst Hs) as Hpg. simpl in Hpg. simpl. by rewrite Hpg. }
  destruct (SourceAllocator_is_persistent sa1); [done|].
  assert (las_backing las1 !! page_key las a = Some (backing_of las d sd page)) as -> by apply lookup_insert_eq.
  done.
Qed.

(** A whole page of a source, which may be its meta page. *)
Definition page_in (ps size : Z) (p : Page) : Prop :=
  page_len p = ps ∧ (ps | page_offset p) ∧ 0 ≤ page_offset p ∧ page_offset p + ps ≤ size.

Lemma page_fits_in ps size p : 0 ≤ ps → page_fits ps size p → page_in ps size p.
Proof. intros Hps (H1 & H2 & H3 & H4). split_and!; done || lia. Qed.

(** A page of a source, as an address: its home is the source. *)
Lemma page_address las d sd page : las_inv las → las_get las d = Some sd →
  page_in (las_pagesize las) (blen (source_bytes (sa_source sd))) page →
  btree_last_le (page_offset page + d) (las_sources las) = Some (d, sd) ∧
  LogicalSlice_to_page (LogicalSlice_new (page_offset page + d) (las_pagesize las)) (las_pagesize las) d =
    Ok (Page_new (page_offset page) (las_pagesize las)) ∧
  ∀ place len, 0 ≤ place → 0 < len → place + len ≤ las_pagesize las →
    btree_last_le (page_offset page + d + place) (las_sources las) = Some (d, sd) ∧
    LogicalSlice_to_page (LogicalSlice_new (page_offset page + d + place) len) (las_pagesize las) d =
      Ok (Page_new (page_offset page) (las_pagesize las)).
Proof.
  intros Hinv Hg (Hlen & [q Hq] & Hlo & Hhi). pose proof (inv_wf _ Hinv) as Hwf.
  pose proof (is_pow2_range _ (las_wf_pagesize _ Hwf)) as Hpr. destruct (las_wf_size _ Hwf _ _ Hg) as (Hd & Hu & _).
  set (ps := las_pagesize las) in *.
  assert (∀ place len, 0 ≤ place → 0 < len → place + len ≤ ps →
    btree_last_le (page_offset page + d + place) (las_sources las) = Some (d, sd) ∧
    LogicalSlice_to_page (LogicalSlice_new (page_offset page + d + place) len) ps d =
      Ok (Page_new (page_offset page) ps)) as Hall.
  { intros place len H0 H1 Hpl. split.
    - assert (las_home las (page_offset page + d + place) = Some d) as Hhome.
      { apply (las_home_inv las d sd); [done..|]. fold ps.
        assert (page_offset page + ps ≤ blen (source_bytes (sa_source sd)) / ps * ps) as Hwhole; [|lia].
        pose proof Hhi as Hd'. rewrite Hq in Hd' |- *. apply (Z.div_le_mono _ _ ps) in Hd'; [|lia].
        replace (q * ps + ps) with ((q + 1) * ps) in Hd' by lia. rewrite Z.div_mul in Hd' by lia. nia. }
      destruct (las_home_with_source las _ d Hwf Hhome) as (sd' & E & Hg' & _). rewrite Hg in Hg'.
      by injection Hg' as <-.
    - assert ((page_offset page + d + place - d) mod ps = place) as Hm.
      { replace (page_offset page + d + place - d) with (place + q * ps) by lia.
        rewrite Z_mod_plus_full. apply Z.mod_small. lia. }
      rewrite to_page_ok by (apply Hwf || usize). rewrite Hm. do 2 f_equal. lia. }
  destruct (Hall 0 ps) as [H1 H2]; [lia..|]. rewrite Z.add_0_r in H1, H2. by split_and!.
Qed.

(** [write_from], when it succeeds. *)
Lemma write_from_ok (sd sd' : SourceAllocator D) off ps bytes : blen bytes = ps → 0 ≤ off →
  off + ps ≤ blen (source_bytes (sa_source sd)) → is_usize (blen (source_bytes (sa_source sd))) →
  SourceAllocator_write_from (Page_new off ps) 0 bytes sd = (Ok tt, sd') →
  source_bytes (sa_source sd') = splice off bytes (source_bytes (sa_source sd)) ∧
  source_flags (sa_source sd') = source_flags (sa_source sd) ∧
  sa_freelist sd' = sa_freelist sd ∧ sa_pagesize sd' = sa_pagesize sd.
Proof.
  intros Hlen Hoff Hin Hu E. unfold SourceAllocator_write_from in E. cbn [page_len page_offset] in E.
  rewrite bool_decide_true in E by lia. rewrite (bind_ok _ _ _ tt sd) in E by done.
  apply bind_ok_inv in E as ([] & sd1 & E1 & E2).
  destruct (source_write off bytes (sa_source sd)) as [o s1] eqn:Ew.
  rewrite (on_source_eq _ _ _ _ Ew) in E1. injection E1 as -> <-.
  pose proof (source_write_flags off bytes (sa_source sd)) as Hf1. rewrite Ew in Hf1. cbn [snd] in Hf1.
  pose proof (blen_nonneg bytes).
  apply source_write_ok in Ew; [|usize|done].
  destruct (source_flush s1) as [o2 s2] eqn:Ef. pose proof (source_flush_same s1) as [Hf2 Hb2]. rewrite Ef in Hf2, Hb2.
  cbn [snd] in Hf2, Hb2.
  rewrite (on_source_eq source_flush (with_device s1 sd) o2 s2 Ef) in E2. injection E2 as _ <-. simpl. split_and!; try done; congruence.
Qed.

(** The address space after one allocator has changed, its size and kind as before. *)
Lemma set_allocator las d sd sd' : las_inv las → las_get las d = Some sd →
  source_flags (sa_source sd') = source_flags (sa_source sd) →
  blen (source_bytes (sa_source sd')) = blen (source_bytes (sa_source sd)) →
  sa_freelist sd' = sa_freelist sd → sa_pagesize sd' = sa_pagesize sd →
  let las' := with_sources (btree_set d sd' (las_sources las)) las in
  las_inv las' ∧ las_shape las' = las_shape las ∧ las_get las' d = Some sd' ∧
  ∀ b, b ≠ d → las_get las' b = las_get las b.
Proof.
  cbv zeta. intros Hinv Hg Hf Hl Hfree Hp.
  assert (las_get (with_sources (btree_set d sd' (las_sources las)) las) d = Some sd') as Hd
    by (unfold las_get in *; by eapply btree_get_set_eq).
  assert (∀ b, b ≠ d → las_get (with_sources (btree_set d sd' (las_sources las)) las) b = las_get las b) as Hne
    by (intros b Hb; unfold las_get; by apply btree_get_set_ne).
  pose proof (las_shape_set las d sd sd' Hg Hf Hl Hp) as Hs. split_and!; try done.
  apply (las_inv_shape las); [done| |done]. intros b sa Hb. destruct (decide (b = d)) as [->|Hbd].
  - rewrite Hd in Hb. injection Hb as <-. destruct (inv_allocators _ Hinv _ _ Hg) as [W1 W2 W3 W4].
    split; rewrite ?Hl, ?Hfree, ?Hp; done.
  - rewrite Hne in Hb by done. by apply (inv_allocators _ Hinv b).
Qed.

(** Writing a page out. *)
Lemma flush_to_backing_ok las d sd page kind r bytes las' : las_inv las → las_get las d = Some sd →
  SourceAllocator_is_persistent sd = true →
  page_in (las_pagesize las) (blen (source_bytes (sa_source sd))) page →
  mem las (mr_source r) (mr_off r) (mr_len r) = Some bytes → mr_len r = las_pagesize las →
  flush_to_backing (las_pagesize las)
    (StoredLogicalSlice_new (LogicalSlice_new (page_offset page + d) (las_pagesize las)) kind) r las = (Ok tt, las') →
  las_inv las' ∧ las_shape las' = las_shape las ∧ las_backing las' = las_backing las ∧
  mem las' d (page_offset page) (las_pagesize las) = Some bytes ∧
  ∀ b o n, b ≠ d → mem las' b o n = mem las b o n.
Proof.
  intros Hinv Hg Hp Hfit Hmem Hlen E. destruct (page_address las d sd page Hinv Hg Hfit) as (Hlast & Hpage & _).
  assert (StoredLogicalSlice_raw (StoredLogicalSlice_new (LogicalSlice_new (page_offset page + d) (las_pagesize las)) kind) =
    LogicalSlice_new (page_offset page + d) (las_pagesize las)) as Hraw by by destruct kind.
  unfold flush_to_backing in E. rewrite Hraw, (with_source_eq _ _ _ _ _ _ Hlast), Hp, (bind_ok _ _ _ tt las), Hpage in E by done.
  rewrite (bind_ok _ _ _ (Page_new (page_offset page) (las_pagesize las)) las) in E by done.
  rewrite (bind_ok _ _ _ bytes las) in E by by apply las_load_ok.
  destruct (SourceAllocator_write_from (Page_new (page_offset page) (las_pagesize las)) 0 bytes sd) as [o sd'] eqn:Ew.
  rewrite (on_allocator_eq _ _ _ _ _ _ Hg Ew) in E. injection E as -> <-.
  destruct Hfit as (_ & _ & Hlo & Hhi). pose proof (is_pow2_range _ (las_wf_pagesize _ (inv_wf _ Hinv))) as Hpr.
  apply mem_length in Hmem as Hbl. rewrite Hlen in Hbl. destruct (las_wf_size _ (inv_wf _ Hinv) _ _ Hg) as (Hd0 & Hu & _).
  pose proof (blen_nonneg (source_bytes (sa_source sd))).
  destruct (write_from_ok sd sd' (page_offset page) (las_pagesize las) bytes Hbl ltac:(lia) Hhi ltac:(usize) Ew) as (Hb & Hf & Hfree & Hps).
  assert (blen (source_bytes (sa_source sd')) = blen (source_bytes (sa_source sd))) as Hl.
  { rewrite Hb, blen_splice; [done|]. rewrite Hbl. usize. }
  destruct (set_allocator las d sd sd' Hinv Hg Hf Hl Hfree Hps) as (H1 & H2 & H3 & H4).
  split_and!; try done.
  - apply mem_Some. exists sd'. split; [done|]. rewrite Hl. split; [usize|]. rewrite Hb.
    rewrite <- Hbl. rewrite slice_splice_same; [done|]. rewrite Hbl. usize.
  - intros b o n Hne. unfold mem. by rewrite H4.
Qed.

(** The page table maps volatile pages to whole pages of persistent sources. *)
Definition backed las (backing : StoredLogicalSlice) (d : Z) (sd : SourceAllocator D) (page : Page) : Prop :=
  las_get las d = Some sd ∧ SourceAllocator_is_persistent sd = true ∧
  page_in (las_pagesize las) (blen (source_bytes (sa_source sd))) page ∧
  backing = backing_of las d sd page.
Definition backing_wf las : Prop := ∀ key backing, las_backing las !! key = Some backing →
  ∃ d sd page, backed las backing d sd page.

Lemma las_shape_flags las las' b sa sa' : las_shape las' = las_shape las → las_get las b = Some sa →
  las_get las' b = Some sa' →
  SourceAllocator_is_persistent sa' = SourceAllocator_is_persistent sa ∧
  SourceAllocator_is_byte_addressable sa' = SourceAllocator_is_byte_addressable sa ∧
  blen (source_bytes (sa_source sa')) = blen (source_bytes (sa_source sa)).
Proof.
  intros Hs Hg Hg'. destruct (las_shape_get las las' b sa Hs Hg) as (sa1 & Hg1 & Hf & Hl & _).
  rewrite Hg' in Hg1. injection Hg1 as <-. unfold source_flags in Hf. by injection Hf.
Qed.

Lemma backed_shape las las' backing d sd page : las_shape las' = las_shape las →
  backed las backing d sd page → ∃ sd', backed las' backing d sd' page.
Proof.
  intros Hs (Hg & Hp & Hfit & ->). destruct (las_shape_get las las' d sd Hs Hg) as (sd' & Hg' & _).
  destruct (las_shape_flags las las' d sd sd' Hs Hg Hg') as (Hp' & Hb' & Hl').
  pose proof (f_equal fst Hs) as Hps. simpl in Hps.
  exists sd'. unfold backed, backing_of. by rewrite Hp', Hb', Hl', Hps.
Qed.

Lemma backing_wf_shape las las' : las_shape las' = las_shape las → las_backing las' = las_backing las →
  backing_wf las → backing_wf las'.
Proof.
  intros Hs Hb Hwf key backing Hk. rewrite Hb in Hk. destruct (Hwf key backing Hk) as (d & sd & page & H).
  destruct (backed_shape las las' _ _ _ _ Hs H) as [sd' H']. by exists d, sd', page.
Qed.

Lemma backing_of_slice las d sd page place len : las_inv las → las_get las d = Some sd →
  page_in (las_pagesize las) (blen (source_bytes (sa_source sd))) page →
  0 ≤ place → place ≤ las_pagesize las →
  backing_slice (backing_of las d sd page) place len =
    Ok (StoredLogicalSlice_new (LogicalSlice_new (page_offset page + d + place) len)
          (SourceAllocator_is_byte_addressable sd)).
Proof.
  intros Hinv Hg (_ & _ & Hlo & Hhi) H0 H1. destruct (las_wf_size _ (inv_wf _ Hinv) _ _ Hg) as (Hd0 & Hu & _).
  pose proof (is_pow2_range _ (las_wf_pagesize _ (inv_wf _ Hinv))) as Hpr.
  unfold backing_slice, backing_of. destruct (SourceAllocator_is_byte_addressable sd);
    cbn [StoredLogicalSlice_new StoredLogicalSlice_new_byte StoredLogicalSlice_new_block StoredLogicalSlice_raw
         byte_slice block_slice LogicalSlice_address ls_offset]; rewrite usize_add_ok by usize; done.
Qed.

(** What a successful [flush] of a volatile range has done. *)
Record flushed las las' (a len b : Z) (stored : StoredLogicalSlice) : Prop := {
  fl_inv : las_inv las';
  fl_shape : las_shape las' = las_shape las;
  fl_backing_wf : backing_wf las';
  fl_stored : ∃ d sd page, las_backing las' !! page_key las a = Some (backing_of las' d sd page) ∧
    backed las' (backing_of las' d sd page) d sd page ∧
    stored = StoredLogicalSlice_new (LogicalSlice_new (page_offset page + d + page_place las a) len)
               (SourceAllocator_is_byte_addressable sd) ∧
    mem las' d (page_offset page) (las_pagesize las) = mem las b (page_key las a - b) (las_pagesize las);
  fl_volatile sa b' o n : las_get las b' = Some sa → SourceAllocator_is_persistent sa = false →
    mem las' b' o n = mem las b' o n
}.

Lemma flush_backed las a len b sa key_backing stored las' d sd page : las_inv las → backing_wf las →
  byte_range las a len b → las_get las b = Some sa → SourceAllocator_is_persistent sa = false →
  las_backing las !! page_key las a = Some key_backing → backed las key_backing d sd page →
  LogicalAddressSpace_flush (mk_ByteLogicalSlice (LogicalSlice_new a len)) las = (Ok stored, las') →
  flushed las las' a len b stored.
Proof.
  intros Hinv Hbwf Hr Hg Hp Hkey (Hgd & Hpd & Hfit & ->) E.
  destruct (page_of_range las a len b Hinv Hr) as (Hpr & Hpl & Hb & Hz & Hp0 & Hplen & Hl & Ha & Hk & Hsplit).
  unfold LogicalAddressSpace_flush in E. rewrite (flush_unfold las a len b sa), Hp, Hkey in E by done.
  apply bind_ok_inv in E as ([] & las1 & E1 & E2).
  destruct (byte_range_mem las _ _ b (inv_wf _ Hinv) Hpr) as [_ Hmem].
  destruct (Hmem 0 (las_pagesize las)) as [bytes Hbytes]; [lia..|]. rewrite Z.add_0_r in Hbytes.
  destruct (flush_to_backing_ok las d sd page (SourceAllocator_is_byte_addressable sd)
    (mk_memref b (page_key las a - b) (las_pagesize las)) bytes las1) as (Hinv1 & Hs1 & Hb1 & Hm1 & Hne1); try done.
  pose proof (f_equal fst Hs1) as Hps. simpl in Hps.
  destruct (backed_shape las las1 (backing_of las d sd page) d sd page Hs1) as [sd1 Hbk1]; [done|].
  pose proof Hbk1 as (Hgd1 & Hpd1 & Hfit1 & Heq1).
  rewrite (backing_of_slice las d sd page) in E2 by (done || lia). injection E2 as <- <-.
  destruct (las_shape_flags las las1 d sd sd1 Hs1 Hgd Hgd1) as (_ & Hbyte & _).
  split; try done.
  - by apply (backing_wf_shape las).
  - exists d, sd1, page. rewrite Hb1, <- Heq1, Hbyte. split_and!; try done. by rewrite Hm1.
  - intros sa' b' o n Hg' Hp'. apply Hne1. intros ->. congruence.
Qed.

Lemma flush_ok las a len b sa stored las' : las_inv las → backing_wf las →
  byte_range las a len b → las_get las b = Some sa → SourceAllocator_is_persistent sa = false →
  LogicalAddressSpace_flush (mk_ByteLogicalSlice (LogicalSlice_new a len)) las = (Ok stored, las') →
  flushed las las' a len b stored.
Proof.
  intros Hinv Hbwf Hr Hg Hp E.
  destruct (las_backing las !! page_key las a) as [backing|] eqn:Hkey.
  { destruct (Hbwf _ _ Hkey) as (d & sd & page & Hbk). by apply (flush_backed las a len b sa backing _ _ d sd page). }
  pose proof (allocate_backing_eq las (page_key las a) Hinv Hkey) as Halloc.
  unfold LogicalAddressSpace_flush in E. rewrite (flush_unfold las a len b sa), Hp, Hkey in E by done.
  destruct (backing_page las) as [[[[d sd] page] rest]|] eqn:Hpage.
  2:{ by rewrite (bind_fail _ _ _ _ _ Halloc) in E. }
  rewrite (bind_ok _ _ _ _ _ Halloc) in E.
  destruct (backing_page_get _ _ _ _ _ Hinv Hpage) as (Hgd & Hpd & Hfree & Hfit & _).
  set (las1 := with_backing _ _) in *.
  assert (las_shape las1 = las_shape las) as Hs by (unfold las1; rewrite with_backing_shape; apply take_page_shape).
  assert (las_inv las1) as Hinv1 by (apply with_backing_inv; by apply take_page_inv with sd page).
  pose proof (byte_range_shape las las1 a len b Hs Hr) as Hr1.
  destruct (las_shape_get las las1 b sa Hs Hg) as (sa1 & Hg1 & _).
  destruct (las_shape_flags las las1 b sa sa1 Hs Hg Hg1) as (Hp1 & _). rewrite Hp in Hp1.
  pose proof (is_pow2_range _ (las_wf_pagesize _ (inv_wf _ Hinv))).
  assert (backed las (backing_of las d sd page) d sd page) as Hbk
    by (split_and!; [done|done|apply page_fits_in; [lia|done]|done]).
  destruct (backed_shape las las1 _ _ _ _ Hs Hbk) as [sd1 Hbk1].
  pose proof (f_equal fst Hs) as Hps. simpl in Hps.
  assert (page_key las1 a = page_key las a ∧ page_place las1 a = page_place las a) as [Hk1 Hpl1].
  { unfold page_key, page_place. simpl in Hps. simpl. by rewrite Hps. }
  assert (las_backing las1 !! page_key las1 a = Some (backing_of las d sd page)) as Hkey1.
  { rewrite Hk1. apply lookup_insert_eq. }
  assert (backing_wf las1) as Hbwf1.
  { intros key backing Hb. destruct (decide (key = page_key las a)) as [->|Hne].
    - rewrite Hk1 in Hkey1. rewrite Hkey1 in Hb. injection Hb as <-. by exists d, sd1, page.
    - assert (las_backing las !! key = Some backing) as Hb0 by (rewrite <- Hb; symmetry; by apply lookup_insert_ne).
      destruct (Hbwf key backing Hb0) as (d' & sd' & page' & Hbk').
      destruct (backed_shape las las1 _ _ _ _ Hs Hbk') as [sd2 ?]. by exists d', sd2, page'. }
  assert (LogicalAddressSpace_flush (mk_ByteLogicalSlice (LogicalSlice_new a len)) las1 = (Ok stored, las')) as E1.
  { rewrite <- E. unfold LogicalAddressSpace_flush. rewrite !(flush_unfold las1 a len b sa1), Hp1, Hkey1 by done. done. }
  destruct (flush_backed las1 a len b sa1 _ stored las' d sd1 page Hinv1 Hbwf1 Hr1 Hg1 Hp1 Hkey1 Hbk1 E1)
    as [F1 F2 F3 (d' & sd' & page' & G1 & G2 & G3 & G4) F5].
  rewrite Hk1 in G1, G4. rewrite Hpl1 in G3. change (las_pagesize las1) with (las_pagesize (take_page d rest las)) in G4.
  rewrite Hps in G4. split; try done.
  - by rewrite F2.
  - exists d', sd', page'. split_and!; try done. rewrite G4. unfold las1. by rewrite with_backing_mem, take_page_mem.
  - intros sa' b' o n Hg' Hp'. destruct (las_shape_get las las1 b' sa' Hs Hg') as (sa2 & Hg2 & _).
    destruct (las_shape_flags las las1 b' sa' sa2 Hs Hg' Hg2) as (Hp2 & _).
    rewrite (F5 sa2) by congruence. unfold las1. by rewrite with_backing_mem, take_page_mem.
Qed.

(** *** [fetch] *)
Lemma read_into_ok (sd sd' : SourceAllocator D) off ps data : 0 < ps → 0 ≤ off →
  off + ps ≤ blen (source_bytes (sa_source sd)) → is_usize (blen (source_bytes (sa_source sd))) →
  SourceAllocator_read_into (Page_new off ps) 0 ps sd = (Ok data, sd') →
  data = slice off ps (source_bytes (sa_source sd)) ∧ blen data = ps ∧
  source_same (sa_source sd) (sa_source sd') ∧ sa_freelist sd' = sa_freelist sd ∧ sa_pagesize sd' = sa_pagesize sd.
Proof.
  intros Hps Hoff Hin Hu E. unfold SourceAllocator_read_into in E. cbn [page_len page_offset] in E.
  rewrite bool_decide_true, (bind_ok _ _ _ tt sd) in E by done || lia.
  destruct (source_read off ps (sa_source sd)) as [o s1] eqn:Er.
  rewrite (on_source_eq _ _ _ _ Er) in E. injection E as -> <-.
  pose proof (source_read_same off ps (sa_source sd)) as Hsame. rewrite Er in Hsame.
  apply source_read_ok in Er as [Hd Hl]; [by split_and!|usize|usize].
Qed.

(** A whole page is stored into a page just taken. *)
Lemma store_page las b ps page data : las_inv las → mutref_wf las (page_mutref b ps page) →
  byte_source las b → blen data = ps → 0 < ps →
  let las' := put b (page_offset page) data las in
  store_memref (lm_data (page_mutref b ps page)) data las = (Ok tt, las') ∧ las_shape las' = las_shape las ∧
  mem las' b (page_offset page) ps = Some data.
Proof.
  cbv zeta. intros Hinv Hm Hbs Hlen Hps. unfold store_memref, page_mutref. cbn [lm_data mr_source mr_off mr_len].
  pose proof (mw_bytes _ _ Hm ps) as Hr. cbn [page_mutref lm_data lm_slice mr_len ls_offset mr_source] in Hr.
  specialize (Hr ltac:(lia)).
  destruct (byte_range_mem las _ _ _ (inv_wf _ Hinv) Hr) as [_ Hmem].
  assert (is_Some (mem las b (page_offset page) (blen data))) as Hs.
  { rewrite Hlen. replace (page_offset page) with (page_offset page + b - b + 0) by lia. apply Hmem; lia. }
  rewrite bool_decide_true, (bind_ok _ _ _ tt las), las_store_ok by done. split_and!; try done.
  - by apply las_shape_put.
  - rewrite <- Hlen. by apply mem_put_same.
Qed.

Lemma LogicalAddressSpace_alloc_inv las m las' : las_inv las → LogicalAddressSpace_alloc las = (Ok m, las') →
  ∃ b page, m = page_mutref b (las_pagesize las) page ∧ las_inv las' ∧ las_shape las' = las_shape las ∧
    byte_source las' b ∧ mutref_wf las' m ∧ (∀ b' o n, mem las' b' o n = mem las b' o n) ∧
    0 ≤ b ∧ 0 ≤ page_offset page ∧ page_offset page + b + las_pagesize las < 2 ^ 54.
Proof.
  intros Hinv E. destruct (next_page las) as [[[b page] rest]|] eqn:Hn.
  - destruct (fresh_page_frame las GenericAllocator_new b page rest Hinv Hn) as ([F1 [F2 _] F3 F4 _ _] & Hps & _).
    unfold next_page in Hn. destruct (LogicalAddressSpace_get_best_byte_addressable las) as [[b' sa]|] eqn:Hbest; [|done].
    simpl in Hn. destruct (sa_freelist sa) as [|page' rest'] eqn:Hfree; [done|]. injection Hn as -> -> ->.
    destruct (LogicalAddressSpace_alloc_ok las b sa page rest Hinv Hbest Hfree) as (Halloc & Hg & Hb).
    rewrite Halloc in E. injection E as <- <-. exists b, page. split_and!; try done.
    + exists (with_freelist rest sa). by rewrite take_page_get, decide_True, Hg.
    + by apply F2.
    + apply (las_wf_size _ (inv_wf _ Hinv) _ _ Hg).
    + destruct (SourceAllocator_allocate_page_eq sa page rest (inv_allocators _ Hinv _ _ Hg) Hfree) as (_ & _ & (_ & _ & Hlo & _) & _).
      destruct (las_wf_size _ (inv_wf _ Hinv) _ _ Hg) as (_ & _ & Hpz). lia.
    + destruct (SourceAllocator_allocate_page_eq sa page rest (inv_allocators _ Hinv _ _ Hg) Hfree) as (_ & _ & (_ & _ & _ & Hhi) & _).
      destruct (las_wf_size _ (inv_wf _ Hinv) _ _ Hg) as (_ & _ & Hpz). pose proof (inv_pointers _ Hinv _ _ Hg). lia.
  - rewrite LogicalAddressSpace_alloc_none in E; [done|].
    unfold next_page in Hn. destruct (LogicalAddressSpace_get_best_byte_addressable las) as [[b' sa]|] eqn:Hbest; [|done].
    simpl in Hn. destruct (sa_freelist sa) eqn:Hfree; [|done]. split; [done|by apply best_byte_get].
Qed.

Lemma fetch_ok las d sd page place len kind bytes las' : las_inv las → las_get las d = Some sd →
  page_in (las_pagesize las) (blen (source_bytes (sa_source sd))) page →
  0 ≤ place → 0 < len → place + len ≤ las_pagesize las →
  LogicalAddressSpace_fetch (StoredLogicalSlice_new (LogicalSlice_new (page_offset page + d + place) len) kind) las =
    (Ok bytes, las') →
  ∃ a b, bytes = mk_ByteLogicalSlice (LogicalSlice_new a len) ∧ las_inv las' ∧ las_shape las' = las_shape las ∧
    byte_range las' a len b ∧
    mem las' b (a - b) len = mem las d (page_offset page + place) len.
Proof.
  intros Hinv Hg Hfit H0 H1 H2 E. destruct (page_address las d sd page Hinv Hg Hfit) as (_ & _ & Hpage).
  destruct (Hpage place len H0 H1 H2) as [Hlast Hto]. pose proof Hfit as (_ & _ & Hlo & Hhi).
  pose proof (is_pow2_range _ (las_wf_pagesize _ (inv_wf _ Hinv))) as Hpr.
  destruct (las_wf_size _ (inv_wf _ Hinv) _ _ Hg) as (Hd0 & Hu & _).
  set (ps := las_pagesize las) in *. set (raw := LogicalSlice_new (page_offset page + d + place) len) in *.
  assert (StoredLogicalSlice_raw (StoredLogicalSlice_new raw kind) = raw) as Hraw by by destruct kind.
  unfold LogicalAddressSpace_fetch in E. rewrite Hraw, (bind_ok _ _ _ ps las) in E by done.
  destruct (SourceAllocator_read_into (Page_new (page_offset page) ps) 0 ps sd) as [o sd1] eqn:Er.
  apply bind_ok_inv in E as ([off data] & las1 & E1 & E).
  unfold raw in E1, Hto. rewrite (with_source_eq _ _ _ _ _ _ Hlast), Hto in E1.
  rewrite (bind_ok _ _ _ (Page_new (page_offset page) ps) las) in E1 by done.
  pose proof (on_allocator_eq _ las d sd _ _ Hg Er) as Hon. destruct o as [data'|f].
  2:{ by rewrite (bind_fail _ _ _ _ _ Hon) in E1. }
  rewrite (bind_ok _ _ _ _ _ Hon) in E1. rewrite page_offset_ok in E1 by usize.
  injection E1 as Hoff -> <-.
  pose proof (blen_nonneg (source_bytes (sa_source sd))).
  destruct (read_into_ok sd sd1 (page_offset page) ps data) as (Hdata & Hdl & [Hf Hb] & Hfree & Hps1); [lia|lia|done|usize|done|].
  destruct (set_allocator las d sd sd1 Hinv Hg Hf ltac:(by rewrite Hb) Hfree Hps1) as (Hinv1 & Hs1 & Hgd1 & Hne1).
  set (las1 := with_sources _ las) in *.
  cbv beta iota in E. apply bind_ok_inv in E as (m & las2 & E2 & E).
  destruct (LogicalAddressSpace_alloc_inv las1 m las2 Hinv1 E2) as (b & p & -> & Hinv2 & Hs2 & Hbs2 & Hm2 & Hmem2 & Hb0 & Hp0 & Hp54).
  change (las_pagesize las1) with ps in *.
  destruct (store_page las2 b ps p data Hinv2 Hm2 Hbs2 Hdl ltac:(lia)) as (Hst & Hs3 & Hmem3).
  rewrite (bind_ok _ _ _ _ _ Hst) in E. set (las3 := put _ _ _ _) in *.
  cbn [page_mutref lm_slice LogicalSlice_address ls_offset] in E. subst off.
  replace (page_offset page + d + place - d - page_offset page) with place in E by lia.
  rewrite usize_add_ok in E by usize. injection E as <- <-.
  exists (page_offset p + b + place), b.
  assert (las_shape las3 = las_shape las) as Hs by (by rewrite Hs3, Hs2, Hs1).
  assert (las_inv las3) as Hinv3.
  { apply put_inv; [done| |done]. rewrite Hdl.
    destruct (byte_range_mem las2 _ _ _ (inv_wf _ Hinv2) (mw_bytes _ _ Hm2 ps ltac:(simpl; lia))) as [_ Hmm].
    simpl in Hmm. replace (page_offset p) with (page_offset p + b - b + 0) by lia. apply Hmm; lia. }
  split_and!; try done.
  - apply (byte_range_shape las2); [done|]. apply (byte_range_sub las2 _ ps); [done| |lia..].
    apply (mw_bytes _ _ Hm2 ps). simpl. lia.
  - replace (page_offset p + b + place - b) with (page_offset p + place) by lia.
    apply mem_Some in Hmem3 as (sv & Hgv & Hrv & Hdv).
    transitivity (Some (slice place len data)).
    + apply mem_Some. exists sv. split; [done|]. split; [usize|]. rewrite Hdv. rewrite slice_slice by usize. done.
    + symmetry. apply mem_Some. exists sd. split; [done|]. split; [usize|]. rewrite Hdata.
      rewrite slice_slice by usize. done.
Qed.

(** Parts of equal memory are equal. *)
Lemma mem_part las las' b b' off off' n o k : mem las b off n = mem las' b' off' n → is_Some (mem las b off n) →
  0 ≤ off → 0 ≤ off' → in_range o k n → mem las b (off + o) k = mem las' b' (off' + o) k.
Proof.
  intros Heq [bs Hbs] Hoff Hoff' Hr. rewrite Hbs in Heq. symmetry in Heq.
  apply mem_Some in Hbs as (sa & Hg & Hin & Hb). apply mem_Some in Heq as (sa' & Hg' & Hin' & Hb').
  transitivity (Some (slice o k bs)); [|symmetry]; apply mem_Some.
  - exists sa. split; [done|]. split; [usize|]. rewrite Hb, slice_slice by usize. done.
  - exists sa'. split; [done|]. split; [usize|]. rewrite Hb', slice_slice by usize. done.
Qed.
End Paging.

Section PagingTheorems.
Context `{T : Target} `{C : Crc} {D : Type} `{Src : !Source D} `{Laws : !SourceLaws D}.
Implicit Types (las : LogicalAddressSpace D).

(** The recursion of [flush] is over after two levels: on a range of memory,
    any more fuel gives the same result. *)
Theorem flush_terminates las a len b fuel : las_inv las → byte_range las a len b → (2 ≤ fuel)%nat →
  flush_loop fuel (mk_ByteLogicalSlice (LogicalSlice_new a len)) las =
  LogicalAddressSpace_flush (mk_ByteLogicalSlice (LogicalSlice_new a len)) las.
Proof.
  intros Hinv Hr Hf. destruct fuel as [|[|fuel]]; [lia..|]. by apply flush_loop_fuel with b.
Qed.

(** C29: after a [flush] of volatile memory that succeeded, the page the range is
    in has a whole page of a persistent source for backing, that page holds the
    volatile page's bytes, the volatile memory is as it was, the result is the
    range's place in the backing, and [get_backing] returns the same. *)
Theorem flush_durable las a len b sa stored las' : las_inv las → backing_wf las →
  byte_range las a len b → las_get las b = Some sa → SourceAllocator_is_persistent sa = false →
  LogicalAddressSpace_flush (mk_ByteLogicalSlice (LogicalSlice_new a len)) las = (Ok stored, las') →
  (∃ d sd page, las_get las' d = Some sd ∧ SourceAllocator_is_persistent sd = true ∧
    stored = StoredLogicalSlice_new (LogicalSlice_new (page_offset page + d + page_place las a) len)
               (SourceAllocator_is_byte_addressable sd) ∧
    mem las' d (page_offset page) (las_pagesize las) = mem las b (page_key las a - b) (las_pagesize las)) ∧
  mem las' b (a - b) len = mem las b (a - b) len ∧ las_inv las' ∧ backing_wf las' ∧
  LogicalAddressSpace_get_backing (mk_ByteLogicalSlice (LogicalSlice_new a len)) las' = (Ok (Some stored), las').
Proof.
  intros Hinv Hbwf Hr Hg Hp E.
  destruct (flush_ok las a len b sa stored las' Hinv Hbwf Hr Hg Hp E)
    as [F1 F2 F3 (d & sd & page & G1 & (Hgd & Hpd & Hfit & _) & G3 & G4) F5].
  split_and!; try done; [by exists d, sd, page|by apply (F5 sa)|].
  pose proof (byte_range_shape las las' a len b F2 Hr) as Hr'.
  destruct (page_of_range las' a len b F1 Hr') as (Hpr & Hpl & Hb & Hz & Hp0 & Hplen & Hl & Ha & Hk & Hsplit).
  destruct (byte_range_facts _ _ _ _ (inv_wf _ F1) Hpr)
    as (sa' & Elast & Hg' & Hbyte & _ & Hps & _ & _ & _ & Hsz & Hu & _ & Hka).
  destruct (las_shape_flags las las' b sa sa' F2 Hg Hg') as (Hp' & _). rewrite Hp in Hp'.
  pose proof (f_equal fst F2) as Hpage. simpl in Hpage.
  assert (page_key las a = page_key las' a ∧ page_place las a = page_place las' a) as [Hk1 Hpl1]
    by (unfold page_key, page_place; by rewrite Hpage).
  rewrite (get_backing_unfold las' a len b sa') by done. rewrite Hp', <- Hk1, G1.
  rewrite (backing_of_slice las' d sd page) by (done || lia). rewrite G3, Hpl1. done.
Qed.

(** C28: round trip: the range [fetch] brings back from where [flush] put a
    volatile range has the length and the bytes of that range, though it is in
    another page. *)
Theorem flush_fetch_roundtrip las a len b sa stored las1 bytes las2 : las_inv las → backing_wf las →
  byte_range las a len b → las_get las b = Some sa → SourceAllocator_is_persistent sa = false →
  LogicalAddressSpace_flush (mk_ByteLogicalSlice (LogicalSlice_new a len)) las = (Ok stored, las1) →
  LogicalAddressSpace_fetch stored las1 = (Ok bytes, las2) →
  ∃ a' b', bytes = mk_ByteLogicalSlice (LogicalSlice_new a' len) ∧
    LogicalAddressSpace_read bytes las2 = (Ok (mk_memref b' (a' - b') len), las2) ∧
    mem las2 b' (a' - b') len = mem las b (a - b) len.
Proof.
  intros Hinv Hbwf Hr Hg Hp E1 E2.
  destruct (flush_ok las a len b sa stored las1 Hinv Hbwf Hr Hg Hp E1)
    as [F1 F2 F3 (d & sd & page & G1 & (Hgd & Hpd & Hfit & _) & -> & G4) F5].
  destruct (page_of_range las a len b Hinv Hr) as (Hpr & Hpl & Hb & Hz & Hp0 & Hplen & Hl & Ha & Hk & Hsplit).
  pose proof (f_equal fst F2) as Hpage. simpl in Hpage.
  destruct (fetch_ok las1 d sd page (page_place las a) len (SourceAllocator_is_byte_addressable sd) bytes las2 F1 Hgd Hfit) as (a' & b' & -> & Hinv2 & Hs2 & Hr2 & Hm2);
    [lia|lia|by rewrite Hpage|done|].
  exists a', b'. split; [done|]. split; [apply LogicalAddressSpace_read_ok; [apply Hinv2|done]|].
  rewrite Hm2. destruct (byte_range_mem las _ _ b (inv_wf _ Hinv) Hpr) as [_ Hmem].
  replace (a - b) with (page_key las a - b + page_place las a) by lia.
  pose proof Hfit as (_ & _ & Hlo & _). pose proof (is_pow2_range _ (las_wf_pagesize _ (inv_wf _ F1))) as Hpr1.
  apply mem_part with (las_pagesize las); [done| |lia|lia|usize].
  rewrite G4. rewrite <- (Z.add_0_r (page_key las a - b)). apply Hmem; lia.
Qed.
End PagingTheorems.
