(* ===== verification/Tx.v ===== *)
(** * Transactions (src/src/tx.rs) *)
From S2P Require Import Prelude Utils Source SourceAllocator Slices Las Pointer Vos.

(** A pointer swung by a transaction: where it is, what it held, what it holds. *)
Record TransactionWrite : Type := TransactionWrite_new {
  tw_dst : cell;
  tw_current : LogicalAddress;
  tw_new : UntypedPointer
}.

Record TransactionRead : Type := TransactionRead_new { tr_pointer : cell }.

Record Transaction : Type := mk_Transaction {
  tx_root : cell;
  tx_object_allocator : GenericAllocator;
  tx_log_allocator : GenericAllocator;
  tx_reader : VersionedReader;
  tx_version : option Version;
  tx_writeset : list TransactionWrite;
  tx_readset : list TransactionRead
}.

Section Tx.
Context `{T : Target} `{C : Crc} {D : Type} `{Src : !Source D}.
(** The longest version chain a read follows. *)
Context (fuel : nat).

Definition TransactionWrite_perform (self : TransactionWrite) : M (World D) bool :=
  '(swapped, _) ← on_world_las (UntypedPointer_compare_and_swap (tw_dst self)
                    (UntypedPointer_new_byte (tw_current self)) (tw_new self));
  mret swapped.

Definition TransactionWrite_rollback (self : TransactionWrite) : M (World D) unit :=
  '(success, _) ← on_world_las (UntypedPointer_compare_and_swap (tw_dst self) (tw_new self)
                    (UntypedPointer_new_byte (tw_current self)));
  assert success.

Definition Transaction_new (root : cell) : M (World D) Transaction :=
  let object_allocator := VersionedObjectStore_new_object_allocator in
  let log_allocator := VersionedObjectStore_new_log_allocator in
  reader ← VersionedObjectStore_new_versioned_reader;
  mret (mk_Transaction root object_allocator log_allocator reader None [] []).

(** A running transaction over the shared heap. *)
Abbreviation TX := (M (Transaction * World D)).

Definition on_world {A} (m : M (World D) A) : TX A := zoom snd (λ w s, (s.1, w)) m.
Definition on_tx_las {A} (m : M (LogicalAddressSpace D) A) : TX A := on_world (on_world_las m).

Definition set_version (version : option Version) (tx : Transaction) : Transaction :=
  mk_Transaction (tx_root tx) (tx_object_allocator tx) (tx_log_allocator tx) (tx_reader tx)
    version (tx_writeset tx) (tx_readset tx).
Definition set_writeset (writeset : list TransactionWrite) (tx : Transaction) : Transaction :=
  mk_Transaction (tx_root tx) (tx_object_allocator tx) (tx_log_allocator tx) (tx_reader tx)
    (tx_version tx) writeset (tx_readset tx).
Definition set_readset (readset : list TransactionRead) (tx : Transaction) : Transaction :=
  mk_Transaction (tx_root tx) (tx_object_allocator tx) (tx_log_allocator tx) (tx_reader tx)
    (tx_version tx) (tx_writeset tx) readset.
Definition set_object_allocator (ga : GenericAllocator) (tx : Transaction) : Transaction :=
  mk_Transaction (tx_root tx) ga (tx_log_allocator tx) (tx_reader tx) (tx_version tx)
    (tx_writeset tx) (tx_readset tx).
Definition set_log_allocator (ga : GenericAllocator) (tx : Transaction) : Transaction :=
  mk_Transaction (tx_root tx) (tx_object_allocator tx) ga (tx_reader tx) (tx_version tx)
    (tx_writeset tx) (tx_readset tx).

Definition with_las (las : LogicalAddressSpace D) (w : World D) : World D :=
  mk_World las (w_version w).

(** Method calls on the two allocators of the transaction. *)
Definition on_object_allocator {A} (m : M (GenericAllocator * LogicalAddressSpace D) A) : TX A :=
  zoom (λ s, (tx_object_allocator s.1, w_las s.2))
    (λ p s, (set_object_allocator p.1 s.1, with_las p.2 s.2)) m.
Definition on_log_allocator {A} (m : M (GenericAllocator * LogicalAddressSpace D) A) : TX A :=
  zoom (λ s, (tx_log_allocator s.1, w_las s.2))
    (λ p s, (set_log_allocator p.1 s.1, with_las p.2 s.2)) m.

Definition modify_tx (f : Transaction → Transaction) : TX unit := modify (λ s, (f s.1, s.2)).

Definition Transaction_read (pointer : cell) (size : ObjectSize) : TX memref :=
  self ← gets fst;
  '(userdata, _, _) ← on_tx_las (VersionedReader_read fuel (tx_reader self) pointer size false);
  mret userdata.

Definition Transaction_read_for_write (pointer : cell) (size : ObjectSize) : TX memref :=
  modify_tx (λ tx, set_readset (tx_readset tx ++ [TransactionRead_new pointer]) tx) ;;
  self ← gets fst;
  '(userdata, _, _) ← on_tx_las (VersionedReader_read fuel (tx_reader self) pointer size true);
  mret userdata.

Definition Transaction_root : TX cell := gets (λ s, tx_root s.1).

(** The recursive call after the version is set returns it. *)
Definition Transaction_write_version : TX Version :=
  self ← gets fst;
  match tx_version self with
  | Some version => mret (Version_clone version)
  | None =>
      version ← on_log_allocator TransactionalLogAllocator_new_indirect_version;
      modify_tx (set_version (Some version)) ;;
      mret version
  end.

Definition Transaction_write (pointer : cell) (size : ObjectSize) : TX memref :=
  read_pointer ← on_tx_las (UntypedPointer_clone pointer);
  let address := UntypedPointer_address read_pointer in
  version ← Transaction_write_version;
  self ← gets fst;
  '(src, _, read_pointer) ← on_tx_las (VersionedReader_read fuel (tx_reader self)
                              (OnStack read_pointer) size true);
  read_pointer ← on_tx_las (cell_load read_pointer);
  '(dstptr, dst) ← on_object_allocator
                     (TransactionalObjectAllocator_alloc size version read_pointer);
  bytes ← on_tx_las (load_memref src);
  on_tx_las (store_memref dst bytes) ;;
  let write := TransactionWrite_new pointer address dstptr in
  performed ← on_world (TransactionWrite_perform write);
  if negb performed then throw TxAborted
  else
    modify_tx (λ tx, set_writeset (tx_writeset tx ++ [write]) tx) ;;
    mret dst.

Definition Transaction_alloc (size : ObjectSize) : TX (UntypedPointer * memref) :=
  version ← Transaction_write_version;
  on_object_allocator (TransactionalObjectAllocator_alloc_new size version).

(** [todo!()] *)
Definition Transaction_set (owner : cell) (offset : Z) (src : memref) : TX unit := fail Panic.

Definition Transaction_abort : TX unit :=
  self ← gets fst;
  for_each (tx_writeset self) (λ w, on_world (TransactionWrite_rollback w)).

(** The closure [commit] gives [commit_version]: no object read for write
    may be newer than the transaction. *)
Definition commit_validate (version : cell) (readset : list TransactionRead) : M (World D) unit :=
  for_each readset (λ read,
    other ← on_world_las (VersionedReader_read_version (tr_pointer read));
    newer ← on_world_las (Version_newer other version);
    if (newer : bool) then throw TxAborted else mret tt).

Definition Transaction_commit : TX unit :=
  self ← gets fst;
  match tx_version self with
  | None => mret tt
  | Some version =>
      result ← on_world (attempt (VersionedObjectStore_commit_version (OnStack version)
                           (commit_validate (OnStack version) (tx_readset self))));
      match result with
      | inr _ => Transaction_abort ;; throw TxAborted
      | inl _ => mret tt
      end
  end.
End Tx.
