(* ===== verification/Transactions.v ===== *)
(** * What transactions guarantee

    Writing through a pointer, rolling back, committing: the effect of each on
    the pointers, the version chains and the memory of the heap. *)
From S2P Require Import Prelude Utils Source SourceAllocator Slices Las Memory Pointer Vos.
From S2P Require Import Allocators Versions Objects Tx.

Section TxSteps.
Context `{T : Target} `{TOk : !TargetOk T} `{C : Crc} {D : Type} `{Src : !Source D} `{Laws : !SourceLaws D}.
Abbreviation LAS := (LogicalAddressSpace D).
Implicit Types (las : LAS) (w : World D) (tx : Transaction).

Lemma on_world_las_eq {A} (m : M LAS A) w o las : m (w_las w) = (o, las) →
  on_world_las m w = (o, with_las las w).
Proof. intros Hm. unfold on_world_las, zoom. by rewrite Hm. Qed.

Lemma on_tx_las_eq {A} (m : M LAS A) tx w o las : m (w_las w) = (o, las) →
  on_tx_las m (tx, w) = (o, (tx, with_las las w)).
Proof. intros Hm. unfold on_tx_las, on_world, zoom. cbn [snd]. by rewrite (on_world_las_eq _ _ _ _ Hm). Qed.

Lemma on_world_eq {A} (m : M (World D) A) tx w o w' : m w = (o, w') →
  on_world m (tx, w) = (o, (tx, w')).
Proof. intros Hm. unfold on_world, zoom. cbn [snd]. by rewrite Hm. Qed.

Lemma with_las_id w : with_las (w_las w) w = w.
Proof. by destruct w. Qed.

(** A read that changes nothing. *)
Lemma on_tx_las_same {A} (m : M LAS A) tx w o : m (w_las w) = (o, w_las w) →
  on_tx_las m (tx, w) = (o, (tx, w)).
Proof. intros Hm. by rewrite (on_tx_las_eq _ _ _ _ _ Hm), with_las_id. Qed.

(** *** Rollback *)

(** A cell of memory that can be swapped. *)
Definition memory_cell las (c : cell) : Prop := (∃ b off, c = InMemory b off) ∧ cell_writable las c.

Lemma memory_cell_after las c v : memory_cell las c → cell_after c v = c.
Proof. by intros [(b & off & ->) _]. Qed.

Lemma memory_cell_shape las las' c : las_shape las' = las_shape las → memory_cell las c → memory_cell las' c.
Proof. intros Hs [Hc Hw]. split; [done|]. by apply (cell_writable_shape las). Qed.

(** A write that has taken place and not been overtaken. *)
Record swung las (x : TransactionWrite) : Prop := {
  sw_cell : memory_cell las (tw_dst x);
  sw_new : cell_holds las (tw_dst x) (tw_new x);
  sw_current : is_usize (tw_current x)
}.

Definition undo (xs : list TransactionWrite) las : LAS :=
  foldl (λ las x, cell_put (tw_dst x) (tw_current x) las) las xs.

Lemma TransactionWrite_rollback_eq x w : memory_cell (w_las w) (tw_dst x) → ∀ v,
  cell_holds (w_las w) (tw_dst x) v →
  TransactionWrite_rollback x w =
    if decide (v = tw_new x) then (Ok tt, with_las (cell_put (tw_dst x) (tw_current x) (w_las w)) w)
    else (Fail Panic, w).
Proof.
  intros Hc v Hv. unfold TransactionWrite_rollback. rewrite UntypedPointer_new_byte_eq.
  pose proof (compare_and_swap_ok (w_las w) (tw_dst x) v (tw_new x) (tw_current x) Hv) as Hcas.
  destruct (decide (v = tw_new x)) as [->|Hne].
  - unfold mbind, M_bind. by rewrite (on_world_las_eq _ _ _ _ Hcas).
  - unfold mbind, M_bind. by rewrite (on_world_las_eq _ _ _ _ Hcas), with_las_id.
Qed.

Lemma swung_put las x ys : swung las x → Forall (λ y, cells_apart (tw_dst y) (tw_dst x)) ys →
  Forall (swung las) ys → Forall (swung (cell_put (tw_dst x) (tw_current x) las)) ys.
Proof.
  intros [Hcell Hnew Hcur] Hap Hsw. rewrite Forall_forall in Hsw, Hap |- *. intros y Hy.
  destruct (Hsw y Hy) as [Yc Yn Yu]. split; [| |done].
  - apply (memory_cell_shape las); [|done]. by apply las_shape_cell_put with (tw_new x); [|apply Hcell].
  - apply cell_put_apart with (tw_new x); [done|apply Hcell|by apply Hap|done].
Qed.

(** Pointers that do not share a byte, in any order. *)
Definition writes_apart : list TransactionWrite → Prop :=
  ForallOrdPairs (λ x y, cells_apart (tw_dst x) (tw_dst y) ∧ cells_apart (tw_dst y) (tw_dst x)).

Lemma writes_apart_cons x xs : writes_apart (x :: xs) →
  Forall (λ y, cells_apart (tw_dst y) (tw_dst x)) xs ∧ Forall (λ y, cells_apart (tw_dst x) (tw_dst y)) xs ∧
  writes_apart xs.
Proof.
  inversion 1 as [|? ? Hx Hxs]; subst. split_and!; [..|done]; apply (Forall_impl _ _ _ Hx); by intros ? [??].
Qed.

Lemma undo_kept xs : ∀ las, Forall (swung las) xs → writes_apart xs →
  las_shape (undo xs las) = las_shape las ∧
  ∀ c, Forall (λ x, cells_apart c (tw_dst x)) xs → cell_kept las (undo xs las) c.
Proof.
  induction xs as [|x xs IH]; intros las Hsw Hord; [split; [done|]; by intros c _ v Hv|]. simpl.
  apply Forall_cons in Hsw as [Hx Hsw]. apply writes_apart_cons in Hord as (Hyx & Hxy & Hord).
  destruct (IH _ (swung_put las x xs Hx Hyx Hsw) Hord) as [Hs Hk]. destruct Hx as [[? Hcell] Hnew Hcur]. split.
  - rewrite Hs. by apply las_shape_cell_put with (tw_new x).
  - intros c [Hc Hcs]%Forall_cons v Hv. apply (Hk c Hcs). by apply cell_put_apart with (tw_new x).
Qed.

Lemma undo_restores xs : ∀ las, Forall (swung las) xs → writes_apart xs →
  Forall (λ x, cell_holds (undo xs las) (tw_dst x) (tw_current x)) xs.
Proof.
  induction xs as [|x xs IH]; intros las Hsw Hord; [done|]. simpl.
  apply Forall_cons in Hsw as [Hx Hsw]. apply writes_apart_cons in Hord as (Hyx & Hxy & Hord).
  pose proof (swung_put las x xs Hx Hyx Hsw) as Hsw'. constructor; [|by apply IH].
  destruct (undo_kept xs _ Hsw' Hord) as [_ Hk]. apply Hk; [done|].
  destruct Hx as [Hcell Hnew Hcur]. rewrite <- (memory_cell_after las (tw_dst x) (tw_current x) Hcell) at 2.
  by apply cell_put_holds with (tw_new x); [|apply Hcell|].
Qed.

Lemma rollback_all xs tx : ∀ w, Forall (swung (w_las w)) xs → writes_apart xs →
  for_each xs (λ x, on_world (TransactionWrite_rollback x)) (tx, w) =
    (Ok tt, (tx, with_las (undo xs (w_las w)) w)).
Proof.
  induction xs as [|x xs IH]; intros w Hsw Hord; simpl; [by rewrite with_las_id|].
  apply Forall_cons in Hsw as [Hx Hsw]. apply writes_apart_cons in Hord as (Hyx & Hxy & Hord).
  pose proof (swung_put (w_las w) x xs Hx Hyx Hsw) as Hsw'. destruct Hx as [Hcell Hnew Hcur].
  rewrite (bind_ok _ _ _ tt (tx, with_las (cell_put (tw_dst x) (tw_current x) (w_las w)) w)).
  - by rewrite IH.
  - apply on_world_eq. rewrite (TransactionWrite_rollback_eq x w Hcell _ Hnew). by rewrite decide_True.
Qed.

Lemma Transaction_abort_eq tx w : Forall (swung (w_las w)) (tx_writeset tx) → writes_apart (tx_writeset tx) →
  Transaction_abort (tx, w) = (Ok tt, (tx, with_las (undo (tx_writeset tx) (w_las w)) w)).
Proof. intros. unfold Transaction_abort. rewrite (bind_ok _ _ _ tx (tx, w)) by done. by apply rollback_all. Qed.
End TxSteps.

(** ** Writing *)
Section Write.
Context `{T : Target} `{TOk : !TargetOk T} `{C : Crc} {D : Type} `{Src : !Source D} `{Laws : !SourceLaws D}.
Abbreviation LAS := (LogicalAddressSpace D).
Implicit Types (las : LAS) (w : World D) (tx : Transaction).

Lemma cells_apart_sym c c' : cells_apart c c' → cells_apart c' c.
Proof.
  destruct c as [b o|], c' as [b' o'|]; simpl; try done. unfold apart. simpl.
  intros [|[|]]; [left; congruence|right; by right|right; by left].
Qed.

Definition tx_in_use tx w (c : cell) : Prop :=
  in_use (w_las w) (tx_object_allocator tx) (tx_log_allocator tx) c.
Definition tx_range_in_use tx w (b off n : Z) : Prop :=
  range_in_use (w_las w) (tx_object_allocator tx) (tx_log_allocator tx) b off n.

(** The version [v] of a running transaction, kept in [home]. *)
Record own_version tx w (v : Version) (home : cell) : Prop := {
  ov_at : version_at (w_las w) (OnStack v) home 0;
  ov_word : is_usize v;
  ov_form : ∃ b p, home = cell_at b p ∧ v = Z.lor p VERSION_TYPE_INDIRECT;
  ov_memory : memory_cell (w_las w) home;
  ov_in_use : tx_in_use tx w home
}.

(** The invariant of a running transaction. *)
Record tx_inv tx w : Prop := {
  ti_allocators : allocators_inv (w_las w) (tx_object_allocator tx) (tx_log_allocator tx);
  ti_version v : tx_version tx = Some v → ∃ home, own_version tx w v home
}.

(** One call of a transaction: the memory in use is as it was. *)
Record tx_step tx w tx' w' : Prop := {
  ts_counter : w_version w' = w_version w;
  ts_reader : tx_reader tx' = tx_reader tx;
  ts_writeset : tx_writeset tx' = tx_writeset tx;
  ts_readset : tx_readset tx' = tx_readset tx;
  ts_shape : las_shape (w_las w') = las_shape (w_las w);
  ts_kept c : tx_in_use tx w c → cell_kept (w_las w) (w_las w') c ∧ tx_in_use tx' w' c;
  ts_range b off n : 0 < n → tx_range_in_use tx w b off n →
    mem (w_las w') b off n = mem (w_las w) b off n ∧ tx_range_in_use tx' w' b off n
}.

Lemma tx_step_refl tx w : tx_step tx w tx w.
Proof. split; try done. intros c Hc. split; [|done]. by intros v. Qed.

Lemma tx_step_trans tx w tx1 w1 tx2 w2 : tx_step tx w tx1 w1 → tx_step tx1 w1 tx2 w2 → tx_step tx w tx2 w2.
Proof.
  intros [A1 A2 A3 A4 A5 A6 A7] [B1 B2 B3 B4 B5 B6 B7]. split; try congruence.
  - intros c Hc. destruct (A6 c Hc) as [Hk Hc1]. destruct (B6 c Hc1) as [Hk1 Hc2]. split; [|done].
    intros v Hv. by apply Hk1, Hk.
  - intros b off n Hn Hr. destruct (A7 b off n Hn Hr) as [Hm Hr1]. destruct (B7 b off n Hn Hr1) as [Hm1 Hr2].
    by rewrite Hm1.
Qed.

Lemma on_log_allocator_eq {A} (m : M (GenericAllocator * LAS) A) tx w o ga las :
  m (tx_log_allocator tx, w_las w) = (o, (ga, las)) →
  on_log_allocator m (tx, w) = (o, (set_log_allocator ga tx, with_las las w)).
Proof. intros Hm. unfold on_log_allocator, zoom. cbn [fst snd]. by rewrite Hm. Qed.

Lemma on_object_allocator_eq {A} (m : M (GenericAllocator * LAS) A) tx w o ga las :
  m (tx_object_allocator tx, w_las w) = (o, (ga, las)) →
  on_object_allocator m (tx, w) = (o, (set_object_allocator ga tx, with_las las w)).
Proof. intros Hm. unfold on_object_allocator, zoom. cbn [fst snd]. by rewrite Hm. Qed.

(** A call of either allocator is a step. *)
Lemma log_step tx w ga las : allocators_step (w_las w) (tx_log_allocator tx) las ga (tx_object_allocator tx) →
  tx_step tx w (set_log_allocator ga tx) (with_las las w).
Proof.
  intros [A1 A2 A3 A4]. split; try done.
  - intros c [H1 H2]. destruct (A3 c (conj H2 H1)) as [? [??]]. by split.
  - intros b off n Hn [H1 H2]. destruct (A4 b off n Hn (conj H2 H1)) as [? [??]]. by split.
Qed.

Lemma object_step tx w ga las : allocators_step (w_las w) (tx_object_allocator tx) las ga (tx_log_allocator tx) →
  tx_step tx w (set_object_allocator ga tx) (with_las las w).
Proof. by intros [A1 A2 A3 A4]. Qed.

Lemma own_version_step tx w tx' w' v home : tx_step tx w tx' w' → own_version tx w v home →
  own_version tx' w' v home.
Proof.
  intros Hs [O1 O2 O3 O4 O5]. destruct (ts_kept _ _ _ _ Hs home O5) as [Hk Hu]. split; try done.
  - by apply (version_at_kept (w_las w)); [apply Hs|intros ?|..].
  - apply (memory_cell_shape (w_las w)); [apply Hs|done].
Qed.

(** An allocator has been called: the transaction goes on. *)
Lemma tx_inv_step tx w tx' w' : tx_inv tx w → tx_step tx w tx' w' → tx_version tx' = tx_version tx →
  allocators_inv (w_las w') (tx_object_allocator tx') (tx_log_allocator tx') → tx_inv tx' w'.
Proof.
  intros Hinv Hs Hv Hal. split; [done|]. intros v. rewrite Hv. intros Hv'.
  destruct (ti_version _ _ Hinv v Hv') as [h Ho]. exists h. by apply (own_version_step tx w).
Qed.

(** A range of memory without a byte of the cell. *)
Definition range_apart (b off n : Z) (c : cell) : Prop :=
  match c with InMemory b' o => b ≠ b' ∨ apart (off, n) (o, size_of_usize) | OnStack _ => True end.

(** A transaction without a version gets one, in a cell of its own. *)
Lemma write_version_fresh tx w : tx_inv tx w → tx_version tx = None → ∃ result tx0 w',
  tx_inv tx0 w' ∧ tx_step tx w tx0 w' ∧ tx_version tx0 = None ∧
  Transaction_write_version (tx, w) =
    (result, (match result with Ok v => set_version (Some v) tx0 | Fail _ => tx0 end, w')) ∧
  match result with
  | Ok v => ∃ home, own_version (set_version (Some v) tx0) w' v home ∧
      ∀ b off n, 0 < n → tx_range_in_use tx w b off n → range_apart b off n home
  | Fail f => alloc_failure (w_las w) size_of_Version f
  end.
Proof.
  intros [Hal Hver] Hv. unfold Transaction_write_version. rewrite (bind_ok _ _ _ tx (tx, w)), Hv by done.
  destruct (new_indirect_version_ok (w_las w) (tx_log_allocator tx)) as (r & ga & las & Hr & Hga & Hres); [apply Hal..|].
  pose proof (allocators_inv_sym _ _ _ Hal) as Hal'.
  apply (on_log_allocator_eq _ tx w) in Hr. exists r, (set_log_allocator ga tx), (with_las las w).
  destruct r as [v|f]; step Hr.
  - destruct Hres as (b & p & Hat & Hword & Husize & Hbs & Hbt).
    destruct (block_taken_step _ _ _ _ _ _ _ _ Hal' Hbt Hga) as [Hstep Hblock]; [done|].
    set (tx1 := set_version (Some v) (set_log_allocator ga tx)).
    rewrite (bind_ok _ _ _ tt (tx1, with_las las w)) by done.
    split_and!; try done; [|by apply log_step|].
    + split; [apply allocators_inv_sym, Hstep|]. intros v' Hv'. simpl in Hv'. by rewrite Hv in Hv'.
    + exists (cell_at b p). split.
      * split; try done; [by exists b, p|split; [by exists b, (p - b)|done]|].
        split; intros o Ho; apply Hblock; unfold size_of_usize, size_of_Version in *; lia.
      * intros b' off n Hn [_ Hc]. unfold cell_at. simpl. destruct (decide (b' = b)) as [->|]; [right|by left].
        apply (range_unowned_apart (w_las w) (tx_log_allocator tx) b); [done..|].
        intros o Ho. by apply (bt_block _ _ _ _ _ _ _ Hbt).
  - destruct Hres as [Hf Hfail]. pose proof (alloc_frame_step _ _ _ _ _ Hal' Hf Hga) as Hstep.
    split_and!; try done; [|by apply log_step].
    split; [apply allocators_inv_sym, Hstep|]. intros v' Hv'. simpl in Hv'. by rewrite Hv in Hv'.
Qed.

(** The version of the transaction, made by its first write. *)
Lemma write_version_ok tx w : tx_inv tx w → ∃ result tx' w',
  Transaction_write_version (tx, w) = (result, (tx', w')) ∧ tx_inv tx' w' ∧ tx_step tx w tx' w' ∧
  match result with
  | Ok v => tx_version tx' = Some v ∧ ∃ home, own_version tx' w' v home ∧
      ∀ c, tx_in_use tx w c →
        (∀ v' home', tx_version tx = Some v' → own_version tx w v' home' → cells_apart c home') →
        cells_apart c home
  | Fail f => alloc_failure (w_las w) size_of_Version f ∧ tx_version tx = None
  end.
Proof.
  intros Hinv. destruct (tx_version tx) as [v|] eqn:Hv.
  - destruct (ti_version _ _ Hinv v Hv) as [home Ho]. exists (Ok v), tx, w. split_and!; try done.
    + unfold Transaction_write_version. by rewrite (bind_ok _ _ _ tx (tx, w)), Hv by done.
    + apply tx_step_refl.
    + exists home. split; [done|]. intros c Hc Hap. by apply (Hap v home).
  - destruct (write_version_fresh tx w Hinv Hv) as (r & tx0 & w' & Hinv0 & Hs & Hv0 & -> & Hres).
    exists r. eexists _, w'. split; [done|]. destruct r as [v|f]; [|done].
    destruct Hres as (home & Hown & Hfresh). split; [|split].
    + split; [apply Hinv0|]. intros v' [= <-]. by exists home.
    + destruct Hs. by split.
    + split; [done|]. exists home. split; [done|]. intros c Hc _. destruct c as [b off|]; [|by destruct home].
      pose proof (ov_form _ _ _ _ Hown) as (hb & hp & -> & _). by apply (Hfresh b off size_of_usize).
Qed.

Lemma version_chain_step tx w tx' w' total raw entries : tx_step tx w tx' w' →
  Forall (tx_in_use tx w) (chain_cells entries) → version_chain (w_las w) total raw entries →
  version_chain (w_las w') total raw entries ∧ Forall (tx_in_use tx' w') (chain_cells entries).
Proof.
  intros Hs Hc Hch. split.
  - apply (version_chain_kept (w_las w)); [apply Hs| |done].
    apply (Forall_impl _ _ _ Hc). intros c Hu v. by apply (ts_kept _ _ _ _ Hs c Hu).
  - apply (Forall_impl _ _ _ Hc). intros c Hu. by apply (ts_kept _ _ _ _ Hs c Hu).
Qed.

Lemma put_kept las b off data c : byte_source las b → is_Some (mem las b off (blen data)) →
  match c with InMemory b' o => b' ≠ b ∨ apart (o, size_of_usize) (off, blen data) | OnStack _ => True end →
  cell_kept las (put b off data las) c.
Proof. intros Hb Hm Hc v. destruct c as [b' o|]; [|done]. intros [Hv ?]. split; [|done]. by rewrite mem_put_apart. Qed.

(** A block that was not in use is filled: a step, as its allocation was. *)
Lemma tx_step_fill tx w tx1 w1 b off bytes lo n : tx_step tx w tx1 w1 → byte_source (w_las w1) b →
  is_Some (mem (w_las w1) b off (blen bytes)) → lo ≤ off → off + blen bytes ≤ lo + n →
  (∀ b' o n', 0 < n' → tx_range_in_use tx w b' o n' → b' ≠ b ∨ apart (o, n') (lo, n)) →
  tx_step tx w tx1 (with_las (put b off bytes (w_las w1)) w1).
Proof.
  intros [S1 S2 S3 S4 S5 S6 S7] Hbs Hm Hlo Hhi Hap. split; try done; cbn [w_las with_las].
  - by rewrite las_shape_put.
  - intros c Hc. destruct (S6 c Hc) as [Hk Hu]. split; [|by apply in_use_put].
    intros x Hx. apply put_kept; [done|done| |by apply Hk]. destruct c as [b' o|]; [|done].
    destruct (Hap b' o size_of_usize) as [|Hap']; [done|done|by left|right]. unfold apart in *. simpl in *. lia.
  - intros b' o n' Hn Hc. destruct (S7 b' o n' Hn Hc) as [Hk Hu]. split; [|by apply range_in_use_put].
    rewrite mem_put_apart; [done|done|done|].
    destruct (Hap b' o n') as [|Hap']; [done|done|by left|right]. unfold apart in *. simpl in *. lia.
Qed.

(** Every word that is the transaction's version stands for its number. *)
Lemma own_version_word tx w v home las c : own_version tx w v home → las_shape las = las_shape (w_las w) →
  cell_kept (w_las w) las home → cell_holds las c v → version_at las c home 0.
Proof.
  intros [O1 _ (b & p & -> & _) _ _] Hs Hk Hc.
  inversion O1 as [|p1 b1 ? Hw Hp Hr Hh ? E]; subst. simpl in Hw. subst v.
  assert (p1 = p) as -> by lia. apply version_indirect; try done; [by apply (byte_range_shape (w_las w))|by apply Hk].
Qed.

Lemma own_version_unique tx w v home home' : own_version tx w v home → own_version tx w v home' →
  home' = home.
Proof.
  intros [O1 O2 (b & p & -> & ->) _ _] [O1' _ (b' & p' & -> & He) _ _].
  inversion O1 as [|p1 b1 ? Hc1 Hp1 Hr1 ? ? E1]. inversion O1' as [|p2 b2 ? Hc2 Hp2 Hr2 ? ? E1'].
  simpl in Hc1, Hc2. assert (p1 = p2) as <-.
  { destruct (Version_indirect p1) as (A & _); [lia|]. destruct (Version_indirect p2) as (A' & _); [lia|]. lia. }
  pose proof (br_home _ _ _ _ Hr1) as E. rewrite (br_home _ _ _ _ Hr2) in E. injection E as ->. unfold cell_at in *. congruence.
Qed.

(** A new object of the transaction, in front of the chain of [raw], with
    its data filled in. *)
Record new_object tx w tx' w' (total : Z) (raw : UntypedPointer) (home : cell) (entries : list entry)
    (dst : memref) (bytes : list byte) (e : entry) : Prop := {
  no_inv : tx_inv tx' w';
  no_step : tx_step tx w tx' w';
  no_address : size_of_ObjectHeader ≤ en_address e < 2 ^ 54;
  no_home : en_home e = home;
  no_version : en_version e = 0;
  no_data : dst = en_data total e;
  no_chain : version_chain (w_las w') total (en_address e) (e :: entries);
  no_bytes : mem (w_las w') (mr_source dst) (mr_off dst) total = Some bytes;
  no_in_use : tx_in_use tx' w' (en_version_cell e) ∧ tx_in_use tx' w' (en_other_cell e) ∧
    tx_range_in_use tx' w' (mr_source dst) (mr_off dst) total;
  no_apart b off : tx_in_use tx w (InMemory b off) →
    cells_apart (en_version_cell e) (InMemory b off) ∧ cells_apart (en_other_cell e) (InMemory b off) ∧
    (mr_source dst ≠ b ∨ apart (mr_off dst, total) (off, size_of_usize));
  no_block b off n : 0 < n → tx_range_in_use tx w b off n →
    b ≠ en_base e ∨ apart (off, n) (en_address e - size_of_ObjectHeader - en_base e, total + size_of_ObjectHeader)
}.

Lemma new_object_ok tx w v home size total raw entries bytes :
  tx_inv tx w → tx_version tx = Some v → own_version tx w v home →
  ObjectSize_total size = Ok total → 0 < total → aligned 8 total → is_usize raw →
  version_chain (w_las w) total raw entries → Forall (tx_in_use tx w) (chain_cells entries) →
  blen bytes = total →
  ∃ result tx' w',
    on_object_allocator (TransactionalObjectAllocator_alloc size v raw) (tx, w) = (result, (tx', w')) ∧
    match result with
    | Ok (ptr, dst) => ∃ e,
        ptr = en_address e ∧ tx_step tx w tx' w' ∧ tx_inv tx' w' ∧
        version_chain (w_las w') total ptr (e :: entries) ∧
        store_memref dst bytes (w_las w') = (Ok tt, put (mr_source dst) (mr_off dst) bytes (w_las w')) ∧
        new_object tx w tx' (with_las (put (mr_source dst) (mr_off dst) bytes (w_las w')) w')
          total raw home entries dst bytes e
    | Fail f => tx_inv tx' w' ∧ tx_step tx w tx' w' ∧
        alloc_failure (w_las w) (total + size_of_ObjectHeader) f
    end.
Proof.
  intros Hinv Hv Hown Hsize Ht Halt Hraw Hch Hcells Hlen. pose proof (ti_allocators _ _ Hinv) as Hal.
  destruct (object_alloc_ok (w_las w) (tx_object_allocator tx) size total v raw) as (r & ga & las & Hr & Hga & Hres);
    [apply Hal|apply Hal|apply Hal|done|apply Hown|done|]. specialize (Hga Halt).
  apply (on_object_allocator_eq _ tx w) in Hr. exists r, (set_object_allocator ga tx), (with_las las w).
  split; [done|]. set (tx1 := set_object_allocator ga tx) in *. set (w1 := with_las las w) in *.
  destruct r as [[ptr dst]|f].
  2:{ destruct Hres as [Hf Hfail]. pose proof (alloc_frame_step _ _ _ _ _ Hal Hf Hga) as Hstep.
      pose proof (object_step tx w ga las Hstep) as Htx. split_and!; try done. apply (tx_inv_step tx w); [done..|apply Hstep]. }
  destruct Hres as [Hbt Hp Hrange Hdst Hvc Hoc]. set (b := mr_source dst) in *.
  set (lo := ptr - size_of_ObjectHeader - b) in *.
  destruct (block_taken_step _ _ _ _ _ _ _ _ Hal Hbt Hga) as [Hstep Hblock]; [usize|].
  pose proof (object_step tx w ga las Hstep) as Htx.
  pose proof (own_version_step tx w tx1 w1 v home Htx Hown) as Hown1.
  assert (tx_inv tx1 w1) as Hinv1 by (apply (tx_inv_step tx w); [done..|apply Hstep]).
  destruct (version_chain_step tx w tx1 w1 total raw entries Htx Hcells Hch) as [Hch1 Hcells1].
  set (e := mk_entry b ptr home 0). exists e. split; [done|]. split; [done|]. split; [done|].
  assert (version_chain las total ptr (e :: entries)) as Hchain.
  { apply (version_chain_extend las total ptr dst home 0 v raw entries); try done.
    apply (own_version_word tx w v home); [done|apply Htx| |done].
    intros x. apply (ts_kept _ _ _ _ Htx), Hown. }
  split; [done|].
  assert (mr_off dst = lo + size_of_ObjectHeader ∧ mr_len dst = total) as [Hoff Hmlen] by by rewrite Hdst.
  destruct (byte_range_mem las _ _ _ (inv_wf _ (ai_las _ _ _ (as_inv _ _ _ _ _ Hstep))) Hrange) as [Hbs Hmem].
  assert (is_Some (mem las b (mr_off dst) (blen bytes))) as Hm.
  { rewrite Hoff, Hlen. apply Hmem; usize. }
  pose proof header_packed as P. packed_facts P.
  split.
  { unfold store_memref. rewrite Hlen, Hmlen, bool_decide_true by done.
    rewrite (bind_ok _ _ _ tt las) by done. by apply las_store_ok. }
  change (w_las w1) with las in *. set (las2 := put b (mr_off dst) bytes las). set (w2 := with_las las2 w1).
  assert (∀ b' o n, 0 < n → tx_range_in_use tx w b' o n → b' ≠ b ∨ apart (o, n) (lo, total + size_of_ObjectHeader)) as Hap.
  { intros b' o n Hn [Hu _]. destruct (decide (b' = b)) as [->|]; [right|by left].
    apply (range_unowned_apart (w_las w) (tx_object_allocator tx) b); [done|done|usize|].
    intros x Hx. by apply (bt_block _ _ _ _ _ _ _ Hbt). }
  assert (∀ o n, lo ≤ o → o + n ≤ lo + size_of_ObjectHeader → apart (o, n) (mr_off dst, blen bytes)) as Hhdr.
  { intros o n Ho Hn. unfold apart. simpl. lia. }
  assert (tx_step tx w tx1 w2) as Htx2 by (apply (tx_step_fill tx w tx1 w1 b _ bytes lo (total + size_of_ObjectHeader)); done || lia).
  assert (is_usize v) as Huv by apply Hown.
  assert (en_version_cell e = InMemory b (lo + off_version)) as Ev by done.
  assert (en_other_cell e = InMemory b (lo + off_other)) as Eo by done.
  assert (cell_holds las2 (en_version_cell e) v ∧ cell_holds las2 (en_other_cell e) raw) as [Hvc2 Hoc2].
  { rewrite Ev, Eo. split; (apply put_kept; [done|done| |done]); right; apply Hhdr; usize. }
  destruct (version_chain_step tx w tx1 w2 total raw entries Htx2 Hcells Hch) as [Hch2 _].
  assert (version_at las2 (en_version_cell e) home 0) as Hat.
  { apply (own_version_word tx w v home); [done|apply Htx2| |done].
    intros x. apply (ts_kept _ _ _ _ Htx2), Hown. }
  split; try done.
  - apply (tx_inv_step tx w); [done..|]. apply put_allocators_inv; [done|done|apply Hinv1].
  - apply (version_chain_extend las2 total ptr dst home 0 v raw entries); try done.
    by apply (byte_range_shape las); [apply las_shape_put|].
  - unfold w2. cbn [w_las with_las]. unfold las2. rewrite <- Hlen. by apply mem_put_same.
  - unfold tx_in_use, tx_range_in_use, w2. cbn [w_las with_las]. unfold las2. rewrite !in_use_put, range_in_use_put.
    rewrite Ev, Eo. split_and!; split; intros o Ho; apply Hblock; usize.
  - intros b' o Hu. rewrite Ev, Eo. fold b. unfold cells_apart.
    destruct (Hap b' o size_of_usize) as [Hne|Hap']; [done|done|split_and!; left; congruence|].
    unfold apart in *. cbn [fst snd] in *. split_and!; right; usize.
Qed.

(** *** Swinging the pointer *)
Lemma own_version_writeset tx w v home ws : own_version tx w v home → own_version (set_writeset ws tx) w v home.
Proof. by intros []. Qed.

Lemma tx_inv_writeset tx w ws : tx_inv tx w → tx_inv (set_writeset ws tx) w.
Proof.
  intros [Hal Hver]. split; [done|]. intros v Hv. destruct (Hver v Hv) as [home Ho].
  exists home. by apply own_version_writeset.
Qed.

Lemma on_perform_eq tx w pointer current new v : cell_holds (w_las w) pointer v →
  on_world (TransactionWrite_perform (TransactionWrite_new pointer current new)) (tx, w) =
    if decide (v = current) then (Ok true, (tx, with_las (cell_put pointer new (w_las w)) w))
    else (Ok false, (tx, w)).
Proof.
  intros Hv. unfold TransactionWrite_perform. cbn [tw_dst tw_current tw_new].
  rewrite UntypedPointer_new_byte_eq. pose proof (compare_and_swap_ok _ _ _ current new Hv) as Hcas.
  destruct (decide (v = current)); unfold on_world, zoom, mbind, M_bind; cbn [snd];
    rewrite (on_world_las_eq _ _ _ _ Hcas); [done|by rewrite with_las_id].
Qed.

(** A store to a pointer in use, which the transaction's version is apart from. *)
Lemma swing_inv tx w pointer raw new v home : tx_inv tx w → tx_version tx = Some v →
  own_version tx w v home → memory_cell (w_las w) pointer → cell_holds (w_las w) pointer raw →
  cells_apart home pointer →
  let w' := with_las (cell_put pointer new (w_las w)) w in
  tx_inv tx w' ∧ own_version tx w' v home ∧ las_shape (w_las w') = las_shape (w_las w) ∧
  (∀ c, cells_apart c pointer → cell_kept (w_las w) (w_las w') c).
Proof.
  cbv zeta. intros [Hal Hver] Hv Hown [(pb & po & ->) Hw] Hp Hap.
  assert (is_Some (mem (w_las w) pb po (blen (u64_bytes new)))) as Hm.
  { rewrite blen_u64. destruct Hp as [Hm _]. eauto. }
  assert (las_shape (cell_put (InMemory pb po) new (w_las w)) = las_shape (w_las w)) as Hs
    by by apply las_shape_cell_put with raw.
  assert (∀ c, cells_apart c (InMemory pb po) →
    cell_kept (w_las w) (cell_put (InMemory pb po) new (w_las w)) c) as Hk.
  { intros c Hc x. by apply cell_put_apart with raw. }
  assert (own_version tx (with_las (cell_put (InMemory pb po) new (w_las w)) w) v home) as Hown'.
  { destruct Hown as [O1 O2 O3 O4 O5]. split; try done.
    - by apply (version_at_kept (w_las w)); [|intros x|apply Hk|].
    - by apply (memory_cell_shape (w_las w)).
    - by apply in_use_put. }
  split_and!; try done. split; [by apply put_allocators_inv|].
  intros v' Hv'. rewrite Hv in Hv'. injection Hv' as <-. by exists home.
Qed.

(** What a [write] through [pointer] has done when it succeeds. *)
Record written tx w tx' w' (pointer : cell) (raw : UntypedPointer) (total : Z) (e : entry)
    (entries : list entry) (dst : memref) (e' : entry) : Prop := {
  wr_made : is_Some (tx_version tx');
  wr_version v : tx_version tx' = Some v → own_version tx' w' v (en_home e');
  wr_inv : tx_inv tx' w';
  wr_shape : las_shape (w_las w') = las_shape (w_las w);
  wr_counter : w_version w' = w_version w;
  wr_reader : tx_reader tx' = tx_reader tx;
  wr_readset : tx_readset tx' = tx_readset tx;
  wr_memory : memory_cell (w_las w') pointer;
  wr_home_apart : cells_apart (en_version_cell e') (en_home e') ∧ cells_apart (en_other_cell e') (en_home e') ∧
    cells_apart pointer (en_home e');
  wr_pointer : cell_holds (w_las w') pointer (en_address e');
  wr_chain : version_chain (w_las w') total (en_address e') (e' :: e :: entries);
  wr_uncommitted : en_version e' = 0;
  wr_data : dst = en_data total e';
  wr_copied : mem (w_las w') (mr_source dst) (mr_off dst) total =
    mem (w_las w) (en_base e) (mr_off (en_data total e)) total;
  wr_writeset : tx_writeset tx' = tx_writeset tx ++ [TransactionWrite_new pointer raw (en_address e')];
  wr_kept c : tx_in_use tx w c → cells_apart c pointer → cell_kept (w_las w) (w_las w') c
}.

(** [write] from the allocation of the new version on. *)
Definition write_tail (pointer : cell) (size : ObjectSize) (version : Version) (raw : UntypedPointer)
    (src : memref) : M (Transaction * World D) memref :=
  '(dstptr, dst) ← on_object_allocator (TransactionalObjectAllocator_alloc size version raw);
  bytes ← on_tx_las (load_memref src);
  on_tx_las (store_memref dst bytes) ;;
  let write := TransactionWrite_new pointer (UntypedPointer_address raw) dstptr in
  performed ← on_world (TransactionWrite_perform write);
  if negb performed then throw TxAborted
  else
    modify_tx (λ tx, set_writeset (tx_writeset tx ++ [write]) tx) ;;
    mret dst.

(** The new version is made, filled and swung in. *)
Definition swing tx (x : TransactionWrite) : Transaction := set_writeset (tx_writeset tx ++ [x]) tx.

Lemma write_tail_cases tx w v home pointer raw size total e entries :
  tx_inv tx w → tx_version tx = Some v → own_version tx w v home →
  ObjectSize_total size = Ok total → 0 < total → aligned 8 total →
  cell_holds (w_las w) pointer raw → UntypedPointer_address raw = raw →
  version_chain (w_las w) total raw (e :: entries) →
  tx_in_use tx w pointer → Forall (tx_in_use tx w) (chain_cells (e :: entries)) →
  tx_range_in_use tx w (en_base e) (mr_off (en_data total e)) total →
  (∃ f tx1 w1, write_tail pointer size v raw (en_data total e) (tx, w) = (Fail f, (tx1, w1)) ∧
     tx_inv tx1 w1 ∧ tx_step tx w tx1 w1 ∧ tx_version tx1 = Some v ∧
     alloc_failure (w_las w) (total + size_of_ObjectHeader) f) ∨
  (∃ dst bytes e' tx1 w1,
     mem (w_las w) (en_base e) (mr_off (en_data total e)) total = Some bytes ∧
     new_object tx w tx1 w1 total raw home (e :: entries) dst bytes e' ∧ tx_version tx1 = Some v ∧
     write_tail pointer size v raw (en_data total e) (tx, w) =
       (Ok dst, (swing tx1 (TransactionWrite_new pointer raw (en_address e')),
                 with_las (cell_put pointer (en_address e') (w_las w1)) w1))).
Proof.
  intros Hinv Hv Hown Hsize Ht Halt Hp Haddr Hch Hpu Hcells Hsrc.
  assert (is_usize raw) as Hraw.
  { pose proof (UntypedPointer_address_range raw). rewrite Haddr in *. usize. }
  destruct (byte_range_mem (w_las w) (en_address e - size_of_ObjectHeader) (total + size_of_ObjectHeader) (en_base e))
    as [_ Hmem]; [apply (ai_las _ _ _ (ti_allocators _ _ Hinv))|by inversion Hch|].
  destruct (Hmem size_of_ObjectHeader total) as [bytes Hbytes]; [usize..|].
  change (mem (w_las w) (en_base e) (mr_off (en_data total e)) total = Some bytes) in Hbytes.
  destruct (new_object_ok tx w v home size total raw (e :: entries) bytes) as (r & tx1 & w1 & Hr & Hres);
    try done; [by apply mem_length in Hbytes|].
  assert (tx_version tx1 = Some v) as Hv1.
  { unfold on_object_allocator, zoom in Hr. destruct (TransactionalObjectAllocator_alloc _ _ _ _) as [? []].
    by injection Hr as _ <- _. }
  unfold write_tail. destruct r as [[ptr dst]|f]; [right|left]; step Hr.
  2:{ destruct Hres as (Hi & Hs & Hf). by exists f, tx1, w1. }
  destruct Hres as (e' & -> & Hstep & _ & _ & Hstore & Hnew).
  set (w2 := with_las (put (mr_source dst) (mr_off dst) bytes (w_las w1)) w1) in *.
  exists dst, bytes, e', tx1, w2. do 3 (split; [done|]).
  rewrite (bind_ok _ _ _ bytes (tx1, w1)).
  2:{ apply on_tx_las_same. unfold load_memref. apply las_load_ok. rewrite <- Hbytes.
      by apply (ts_range _ _ _ _ Hstep). }
  rewrite (bind_ok _ _ _ tt (tx1, w2)) by (by apply on_tx_las_eq). cbv beta iota zeta.
  assert (cell_holds (w_las w2) pointer raw) as Hp2
    by by apply (ts_kept _ _ _ _ (no_step _ _ _ _ _ _ _ _ _ _ _ Hnew) pointer Hpu).
  rewrite (bind_ok _ _ _ true (tx1, with_las (cell_put pointer (en_address e') (w_las w2)) w2)).
  2:{ rewrite (on_perform_eq tx1 w2 pointer _ _ raw Hp2). by rewrite Haddr, decide_True. }
  by rewrite Haddr.
Qed.

Lemma write_tail_ok tx w v home pointer raw size total e entries :
  tx_inv tx w → tx_version tx = Some v → own_version tx w v home →
  ObjectSize_total size = Ok total → 0 < total → aligned 8 total →
  memory_cell (w_las w) pointer → cell_holds (w_las w) pointer raw → UntypedPointer_address raw = raw →
  version_chain (w_las w) total raw (e :: entries) →
  tx_in_use tx w pointer → Forall (tx_in_use tx w) (chain_cells (e :: entries)) →
  tx_range_in_use tx w (en_base e) (mr_off (en_data total e)) total →
  Forall (λ c, cells_apart c pointer) (chain_cells (e :: entries)) → cells_apart home pointer →
  ∃ result tx' w',
    write_tail pointer size v raw (en_data total e) (tx, w) = (result, (tx', w')) ∧ tx_inv tx' w' ∧
    tx_version tx' = Some v ∧
    match result with
    | Ok dst => ∃ e', en_home e' = home ∧ written tx w tx' w' pointer raw total e entries dst e'
    | Fail f => tx_step tx w tx' w' ∧ alloc_failure (w_las w) (total + size_of_ObjectHeader) f
    end.
Proof.
  intros Hinv Hv Hown Hsize Ht Halt Hpm Hp Haddr Hch Hpu Hcells Hsrc Hcap Hhap.
  destruct (write_tail_cases tx w v home pointer raw size total e entries) as
    [(f & tx1 & w1 & Hr & Hi & Hs & Hv1 & Hf)|(dst & bytes & e' & tx1 & w2 & Hbytes & Hnew & Hv1 & Hr)]; [done..| |].
  { by exists (Fail f), tx1, w1. }
  destruct Hnew as [N1 N2 N3 N4 N5 N6 N7 N8 N9 N10 _].
  assert (cell_holds (w_las w2) pointer raw) as Hp2 by by apply (ts_kept _ _ _ _ N2 pointer Hpu).
  pose proof (own_version_step tx w tx1 w2 v home N2 Hown) as Hown2.
  assert (memory_cell (w_las w2) pointer) as Hpm2 by (by apply (memory_cell_shape (w_las w)); [apply N2|]).
  destruct (swing_inv tx1 w2 pointer raw (en_address e') v home N1 Hv1 Hown2 Hpm2 Hp2 Hhap)
    as (Hinv3 & Hown3 & Hs3 & Hk3).
  set (w3 := with_las (cell_put pointer (en_address e') (w_las w2)) w2) in *.
  set (tx2 := swing tx1 (TransactionWrite_new pointer raw (en_address e'))) in *.
  exists (Ok dst), tx2, w3. split; [done|]. split; [by apply tx_inv_writeset|]. split; [done|].
  exists e'. split; [done|]. pose proof Hpm as [(pb & po & Heq) Hpw].
  destruct (N10 pb po) as (Ha1 & Ha2 & Ha3); [by rewrite <- Heq|]. rewrite <- Heq in Ha1, Ha2.
  pose proof (ov_form _ _ _ _ Hown) as (hb & hp & Hform & _).
  assert (cells_apart (en_version_cell e') home ∧ cells_apart (en_other_cell e') home) as [Hh1 Hh2].
  { pose proof (ov_in_use _ _ _ _ Hown) as Hhu. rewrite Hform in Hhu |- *.
    by destruct (N10 hb (hp - hb) Hhu) as (? & ? & _). }
  split; try done.
  - intros v' Hv'. change (tx_version tx2) with (tx_version tx1) in Hv'. rewrite Hv1 in Hv'.
    injection Hv' as <-. rewrite N4. by apply own_version_writeset.
  - by apply tx_inv_writeset.
  - rewrite Hs3. apply N2.
  - apply N2.
  - apply N2.
  - apply N2.
  - by apply (memory_cell_shape (w_las w2)).
  - rewrite N4. split_and!; try done. by apply cells_apart_sym.
  - unfold w3. cbn [w_las with_las]. rewrite <- (memory_cell_after (w_las w2) pointer (en_address e') Hpm2) at 2.
    apply cell_put_holds with raw; [done|apply Hpm2|usize].
  - apply (version_chain_kept (w_las w2)); [done| |done].
    apply Forall_chain_cells. rewrite N4. split_and!; try (by apply Hk3).
    apply (Forall_impl _ _ _ Hcap). intros c Hc. by apply Hk3.
  - unfold w3. cbn [w_las with_las]. rewrite Hbytes, Heq. cbn [cell_put].
    rewrite mem_put_apart; [done| | |].
    + rewrite Heq in Hpm2. apply Hpm2.
    + rewrite blen_u64, Heq in *. destruct Hp2 as [Hm2 _]. eauto.
    + rewrite blen_u64. done.
  - cbn [tx_writeset tx2 swing set_writeset]. by rewrite (ts_writeset _ _ _ _ N2).
  - intros c Hc Hcp x Hx. apply Hk3; [done|]. by apply (ts_kept _ _ _ _ N2 c Hc).
Qed.

(** *** [write] *)

(** [write] up to the allocation: the version is made, the newest version of
    the object is read, and only that. *)
Lemma Transaction_write_eq tx w tx1 w1 pointer size total raw entries fuel v :
  cell_holds (w_las w) pointer raw → Transaction_write_version (tx, w) = (Ok v, (tx1, w1)) →
  las_wf (w_las w1) → ObjectSize_total size = Ok total →
  version_chain (w_las w1) total raw entries → (length entries < fuel)%nat →
  Transaction_write fuel pointer size (tx, w) =
    match snapshot_read (vr_version (tx_reader tx1)) true entries with
    | Ok e => write_tail pointer size v raw (en_data total e) (tx1, w1)
    | Fail f => (Fail f, (tx1, w1))
    end.
Proof.
  intros Hp Hver Hwf Hsize Hch Hfuel. unfold Transaction_write, UntypedPointer_clone.
  rewrite (bind_ok _ _ _ raw (tx, w)) by (apply on_tx_las_same; by apply cell_load_ok).
  step Hver. rewrite (bind_ok _ _ _ tx1 (tx1, w1)) by done.
  destruct (tx_reader tx1) as [snapshot] eqn:Hreader.
  pose proof (VersionedReader_read_chain (w_las w1) size total snapshot true entries Hwf Hsize raw
    (OnStack raw) fuel Hch eq_refl Hfuel) as Hread.
  apply on_tx_las_same with (tx := tx1) in Hread. cbn [vr_version].
  destruct (snapshot_read snapshot true entries) as [e|f]; step Hread; [|done].
  by rewrite (bind_ok _ _ _ raw (tx1, w1)) by (by apply on_tx_las_same).
Qed.

(** [home], the transaction's version cell, is apart from all that was in use
    apart from the version cell there may have been. *)
Definition apart_from_version tx w (home : cell) : Prop := ∀ c, tx_in_use tx w c →
  (∀ v' home', tx_version tx = Some v' → own_version tx w v' home' → cells_apart c home') →
  cells_apart c home.

(** The version is there, or it could not be made. *)
Lemma write_version_cases tx w pointer size fuel raw : tx_inv tx w → cell_holds (w_las w) pointer raw →
  (∃ v home tx1 w1, Transaction_write_version (tx, w) = (Ok v, (tx1, w1)) ∧ tx_inv tx1 w1 ∧
     tx_step tx w tx1 w1 ∧ tx_version tx1 = Some v ∧ own_version tx1 w1 v home ∧
     apart_from_version tx w home) ∨
  (∃ f tx1 w1, Transaction_write fuel pointer size (tx, w) = (Fail f, (tx1, w1)) ∧ tx_inv tx1 w1 ∧
     tx_step tx w tx1 w1 ∧ alloc_failure (w_las w) size_of_Version f ∧ tx_version tx = None).
Proof.
  intros Hinv Hp. destruct (write_version_ok tx w Hinv) as (r & tx1 & w1 & Hr & Hinv1 & Hs & Hres).
  destruct r as [v|f]; [left|right].
  - destruct Hres as (Hv & home & Hown & Hc). by exists v, home, tx1, w1.
  - exists f, tx1, w1. split; [|done]. unfold Transaction_write, UntypedPointer_clone.
    rewrite (bind_ok _ _ _ raw (tx, w)) by (apply on_tx_las_same; by apply cell_load_ok). by step Hr.
Qed.

Lemma alloc_failure_le las len len' f : len ≤ len' → alloc_failure las len f →
  f = Throw AllocationTooLarge ∧ las_pagesize las < len' ∨ f = Throw NoAvailableMemory.
Proof. intros Hle [[-> ?]|[-> _]]; [left; split; [done|lia]|by right]. Qed.
End Write.

(** ** Committing *)
Section Commit.
Context `{T : Target} `{TOk : !TargetOk T} `{C : Crc} {D : Type} `{Src : !Source D} `{Laws : !SourceLaws D}.
Abbreviation LAS := (LogicalAddressSpace D).
Implicit Types (las : LAS) (w : World D) (tx : Transaction).

(** The heap after a commit whose version is kept in [home]. *)
Definition committed w (home : cell) : World D :=
  mk_World (cell_put home (w_version w + 1) (w_las w)) (w_version w + 1).

Definition advanced w : World D := mk_World (w_las w) (w_version w + 1).

Lemma Transaction_commit_valid tx w v home : tx_version tx = Some v → own_version tx w v home →
  las_wf (w_las w) → is_usize (w_version w + 1) →
  commit_validate (OnStack v) (tx_readset tx) (advanced w) = (Ok tt, advanced w) →
  Transaction_commit (tx, w) = (Ok tt, (tx, committed w home)).
Proof.
  intros Hv Hown Hwf Hu Hval. unfold Transaction_commit. rewrite (bind_ok _ _ _ tx (tx, w)), Hv by done.
  destruct (commit_version_ok w (OnStack v) home 0 (commit_validate (OnStack v) (tx_readset tx)) Hwf) as [c Hc];
    [apply Hown|done|done|].
  by rewrite (bind_ok _ _ _ (inl c) (tx, committed w home)) by (by apply on_world_eq, attempt_ok).
Qed.

(** A commit refused by the validation: the counter moves on all the same. *)
Lemma Transaction_commit_invalid tx w v e : tx_version tx = Some v → is_usize (w_version w + 1) →
  commit_validate (OnStack v) (tx_readset tx) (advanced w) = (Err e, advanced w) →
  Forall (swung (w_las w)) (tx_writeset tx) → writes_apart (tx_writeset tx) →
  Transaction_commit (tx, w) =
    (Err TxAborted, (tx, with_las (undo (tx_writeset tx) (w_las w)) (advanced w))).
Proof.
  intros Hv Hu Hval Hsw Hord. unfold Transaction_commit. rewrite (bind_ok _ _ _ tx (tx, w)), Hv by done.
  assert (VersionedObjectStore_commit_version (OnStack v) (commit_validate (OnStack v) (tx_readset tx)) w =
    (Err e, advanced w)) as Hc.
  { unfold VersionedObjectStore_commit_version. rewrite (bind_ok _ _ _ w w), usize_add_ok by done.
    rewrite (bind_ok _ _ _ (w_version w + 1) w) by done.
    rewrite (bind_ok _ _ _ tt (advanced w)) by done. by rewrite (bind_fail _ _ _ _ _ Hval). }
  rewrite (bind_ok _ _ _ (inr e) (tx, advanced w)) by (apply on_world_eq; by apply attempt_err).
  by rewrite (bind_ok _ _ _ _ _ (Transaction_abort_eq tx (advanced w) Hsw Hord)).
Qed.

(** *** Validation *)

(** The number of the newest version of what a pointer points to. *)
Definition newest las (x : TransactionRead) (n : Z) : Prop :=
  ∃ raw total e entries, cell_holds las (tr_pointer x) raw ∧ 0 ≤ total ∧
    version_chain las total raw (e :: entries) ∧ en_version e = n.

Lemma read_version_ok las ptr raw total e entries : las_inv las → cell_holds las ptr raw → 0 ≤ total →
  version_chain las total raw (e :: entries) →
  VersionedReader_read_version ptr las = (Ok (en_version_cell e), las) ∧
  Version_read (en_version_cell e) las = (Ok (en_version e), las).
Proof.
  intros Hinv Hp Ht Hch.
  inversion Hch as [|? ? other ? Hs Hb Ha Hle Hr Hv Ho Hrest]; subst. split.
  2:{ apply Version_read_ok with (en_home e); [apply Hinv|done]. }
  unfold VersionedReader_read_version. step (cell_load_ok las ptr raw Hp).
  unfold UntypedPointer_into_stored_slice_offset. rewrite <- Ha, Hb.
  pose proof (UntypedPointer_address_range raw) as Hrange. rewrite <- Ha in Hrange.
  rewrite usize_sub_ok by usize. rewrite usize_add_ok by usize.
  assert (byte_range las (en_address e - size_of_ObjectHeader + 0) size_of_ObjectHeader (en_base e)) as Hr0.
  { apply (byte_range_sub las _ (total + size_of_ObjectHeader)); [done|done|usize..]. }
  rewrite Z.add_0_r in Hr0.
  rewrite (bind_ok _ _ _ (StoredLogicalSlice_new_byte (LogicalSlice_new
      (en_address e - size_of_ObjectHeader) size_of_ObjectHeader)) las) by done.
  cbn [StoredLogicalSlice_new_byte].
  step (LogicalAddressSpace_read_ok las _ _ _ (inv_wf _ Hinv) Hr0).
  by rewrite any_from_slice_mut_ok, (bind_ok _ _ _ (en_header e) las) by (done || by eapply header_at_aligned).
Qed.

(** Each object read for writing is compared with the transaction's own
    version, which is still 0: it is found newer as soon as it is committed. *)
Lemma commit_validate_cons w v home x xs n : las_inv (w_las w) →
  version_at (w_las w) (OnStack v) home 0 → newest (w_las w) x n →
  commit_validate (OnStack v) (x :: xs) w =
    if decide (0 < n) then (Err TxAborted, w) else commit_validate (OnStack v) xs w.
Proof.
  intros Hinv Hv (raw & total & e & entries & Hp & Ht & Hch & <-).
  destruct (read_version_ok _ _ _ _ _ _ Hinv Hp Ht Hch) as [Hrv Hread].
  pose proof (Version_read_ok _ _ _ _ (inv_wf _ Hinv) Hv) as Hown.
  unfold commit_validate. cbn [for_each]. unfold mbind at 1, M_bind at 1.
  rewrite (bind_ok _ _ _ (en_version_cell e) w) by (rewrite (on_world_las_eq _ _ _ _ Hrv); by rewrite with_las_id).
  rewrite (bind_ok _ _ _ (bool_decide (0 < en_version e)) w).
  - by destruct (decide (0 < en_version e)); [rewrite bool_decide_true|rewrite bool_decide_false].
  - unfold Version_newer. erewrite on_world_las_eq; [by rewrite with_las_id|].
    step Hread. by step Hown.
Qed.

Lemma commit_validate_eq w v home xs ns : las_inv (w_las w) →
  version_at (w_las w) (OnStack v) home 0 → Forall2 (newest (w_las w)) xs ns →
  commit_validate (OnStack v) xs w =
    (if decide (Exists (λ n, 0 < n) ns) then Err TxAborted else Ok tt, w).
Proof.
  intros Hinv Hv Hxs. induction Hxs as [|x n xs ns Hx Hxs IH].
  - rewrite decide_False; [done|]. by inversion 1.
  - rewrite (commit_validate_cons w v home x xs n) by done. destruct (decide (0 < n)) as [Hn|Hn].
    + rewrite decide_True; [done|by left].
    + rewrite IH. destruct (decide (Exists _ ns)) as [He|He].
      * rewrite decide_True; [done|by right].
      * rewrite decide_False; [done|]. by inversion 1.
Qed.
End Commit.

Section TxTheorems.
Context `{T : Target} `{TOk : !TargetOk T} `{C : Crc} {D : Type} `{Src : !Source D} `{Laws : !SourceLaws D}.
Implicit Types (las : LogicalAddressSpace D) (w : World D) (tx : Transaction).

(** An abort puts back every pointer the transaction swung, and changes no
    other cell, no mapping and no counter; it does not panic as long as no
    pointer was moved since. *)
Lemma Transaction_abort_restores tx w :
  Forall (swung (w_las w)) (tx_writeset tx) → writes_apart (tx_writeset tx) →
  ∃ las', Transaction_abort (tx, w) = (Ok tt, (tx, with_las las' w)) ∧
    las_shape las' = las_shape (w_las w) ∧
    Forall (λ x, cell_holds las' (tw_dst x) (tw_current x)) (tx_writeset tx) ∧
    ∀ c v, Forall (λ x, cells_apart c (tw_dst x)) (tx_writeset tx) →
      cell_holds (w_las w) c v → cell_holds las' c v.
Proof.
  intros Hsw Hord. exists (undo (tx_writeset tx) (w_las w)). destruct (undo_kept _ _ Hsw Hord) as [Hs Hk].
  split_and!; [by apply Transaction_abort_eq|done|by apply undo_restores|].
  intros c v Hc. by apply Hk.
Qed.

(** A rollback that finds the pointer moved panics: the [assert!] holds
    exactly as long as the pointer is the one the transaction wrote. *)
Lemma Transaction_rollback_moved tx w x v :
  tx_writeset tx = [x] → memory_cell (w_las w) (tw_dst x) → cell_holds (w_las w) (tw_dst x) v →
  v ≠ tw_new x → Transaction_abort (tx, w) = (Fail Panic, (tx, w)).
Proof.
  intros Hws Hc Hv Hne. unfold Transaction_abort. rewrite (bind_ok _ _ _ tx (tx, w)), Hws by done. simpl.
  rewrite (bind_fail _ _ _ Panic (tx, w)); [done|]. apply on_world_eq.
  by rewrite (TransactionWrite_rollback_eq x w Hc v Hv), decide_False.
Qed.

(** The hypotheses of a [write]: a pointer in memory to an object with the
    versions [entries], of a size that leaves the next object aligned, all of it in use and none of it sharing bytes with
    the pointer. *)
Record writable tx w (pointer : cell) (size : ObjectSize) (total : Z) (raw : UntypedPointer) (entries : list entry) : Prop := {
  wb_inv : tx_inv tx w;
  wb_size : ObjectSize_total size = Ok total;
  wb_total : 0 < total;
  wb_aligned : aligned 8 total;
  wb_memory : memory_cell (w_las w) pointer;
  wb_holds : cell_holds (w_las w) pointer raw;
  wb_untagged : UntypedPointer_address raw = raw;
  wb_chain : version_chain (w_las w) total raw entries;
  wb_pointer_in_use : tx_in_use tx w pointer;
  wb_chain_in_use : Forall (tx_in_use tx w) (chain_cells entries);
  wb_data_in_use : Forall (λ e, tx_range_in_use tx w (en_base e) (mr_off (en_data total e)) total) entries;
  wb_apart : Forall (λ c, cells_apart c pointer) (chain_cells entries);
  wb_version_apart v home : tx_version tx = Some v → own_version tx w v home →
    cells_apart pointer home ∧ Forall (λ c, cells_apart c home) (chain_cells entries)
}.

Lemma Transaction_write_cases tx w pointer size total raw entries fuel :
  writable tx w pointer size total raw entries → (length entries < fuel)%nat →
  (∃ v home tx1 w1, tx_inv tx1 w1 ∧ tx_step tx w tx1 w1 ∧ tx_version tx1 = Some v ∧
     own_version tx1 w1 v home ∧ cells_apart pointer home ∧
     Forall (λ c, cells_apart c home) (chain_cells entries) ∧
     Transaction_write fuel pointer size (tx, w) =
       match snapshot_read (vr_version (tx_reader tx)) true entries with
       | Ok e => write_tail pointer size v raw (en_data total e) (tx1, w1)
       | Fail f => (Fail f, (tx1, w1))
       end) ∨
  (∃ f tx1 w1, Transaction_write fuel pointer size (tx, w) = (Fail f, (tx1, w1)) ∧ tx_inv tx1 w1 ∧
     tx_step tx w tx1 w1 ∧ alloc_failure (w_las w) size_of_Version f ∧ tx_version tx = None).
Proof.
  intros [] Hfuel.
  destruct (write_version_cases tx w pointer size fuel raw) as [(v & home & tx1 & w1 & Hv & Hinv1 & Hs & Hv1 & Hown & Hap)|];
    [done..| |by right].
  left. exists v, home, tx1, w1. split_and!; try done.
  { apply Hap; [done|]. intros v' h' Hv' Ho'. by apply (wb_version_apart0 v'). }
  { rewrite Forall_forall in wb_chain_in_use0 |- *. intros c Hc. apply Hap; [auto|]. intros v' h' Hv' Ho'.
    destruct (wb_version_apart0 v' h' Hv' Ho') as [_ Hall]. rewrite Forall_forall in Hall. auto. }
  rewrite <- (ts_reader _ _ _ _ Hs). apply Transaction_write_eq; try done; [apply (ai_las _ _ _ (ti_allocators _ _ Hinv1))|].
  by apply (version_chain_step tx w tx1 w1).
Qed.

Lemma write_result tx w pointer size total raw e entries fuel :
  writable tx w pointer size total raw (e :: entries) →
  visible (vr_version (tx_reader tx)) e = true → (S (length entries) < fuel)%nat →
  ∃ result tx' w', Transaction_write fuel pointer size (tx, w) = (result, (tx', w')) ∧ tx_inv tx' w' ∧
    match result with
    | Ok dst => ∃ e', written tx w tx' w' pointer raw total e entries dst e' ∧
        Forall (λ c, cells_apart c (en_home e')) (chain_cells (e :: entries))
    | Fail f => tx_step tx w tx' w' ∧
        (f = Throw AllocationTooLarge ∧ las_pagesize (w_las w) < total + size_of_ObjectHeader ∨
         f = Throw NoAvailableMemory)
    end.
Proof.
  intros Hwb Hvis Hfuel. pose proof Hwb as [].
  destruct (Transaction_write_cases tx w pointer size total raw (e :: entries) fuel Hwb) as
    [(v & home & tx1 & w1 & Hinv1 & Hs & Hv1 & Hown & Hap & Hcap & ->)|(f & tx1 & w1 & -> & Hinv1 & Hs & Hf & _)]; [simpl; lia| |].
  2:{ exists (Fail f), tx1, w1. split_and!; try done. apply (alloc_failure_le _ size_of_Version); [|done].
      unfold size_of_Version. usize. }
  cbn [snapshot_read]. rewrite Hvis.
  destruct (version_chain_step tx w tx1 w1 total raw (e :: entries) Hs) as [Hch1 Hcells1]; [done..|].
  apply Forall_cons in wb_data_in_use0 as [Hdata _].
  destruct (ts_range _ _ _ _ Hs _ _ _ wb_total0 Hdata) as [Hsame Hdata1].
  destruct (ts_kept _ _ _ _ Hs _ wb_pointer_in_use0) as [Hpk Hpu1].
  destruct (write_tail_ok tx1 w1 v home pointer raw size total e entries) as (r & tx2 & w2 & Hr & Hinv2 & Hv2 & Hres);
    try done; [by apply (memory_cell_shape (w_las w)); [apply Hs|]|by apply Hpk|by apply cells_apart_sym|].
  exists r, tx2, w2. split; [done|]. split; [done|]. destruct r as [dst|f].
  - destruct Hres as (e' & He' & Hwr). exists e'. rewrite He'. split; [|done].
    destruct Hwr as []. destruct Hs as []. split; try done; try congruence.
    intros c Hc Hcp x Hx. destruct (ts_kept0 c Hc) as [Hk Hu]. by apply wr_kept0, Hk.
  - destruct Hres as [Hs2 Hf]. split; [by eapply tx_step_trans|].
    destruct (alloc_failure_le _ _ _ f (Z.le_refl _) Hf) as [[? Hps]|]; [left|by right].
    split; [done|]. pose proof (f_equal fst (ts_shape _ _ _ _ Hs)) as Hpage. simpl in Hpage. lia.
Qed.

(** C20: a [write] of an object whose newest version the transaction may see puts
    a new, uncommitted version in front of it: the pointer holds the new
    version's address, the old chain goes on behind it, the new bytes are a
    copy of the old ones, the swing is recorded for the rollback, and every
    other cell in use is as it was.  It can only fail for want of memory, and
    then nothing in use has changed. *)
Theorem Transaction_write_ok tx w pointer size total raw e entries fuel :
  writable tx w pointer size total raw (e :: entries) →
  visible (vr_version (tx_reader tx)) e = true → (S (length entries) < fuel)%nat →
  ∃ result tx' w', Transaction_write fuel pointer size (tx, w) = (result, (tx', w')) ∧ tx_inv tx' w' ∧
    match result with
    | Ok dst => ∃ e', written tx w tx' w' pointer raw total e entries dst e'
    | Fail f => tx_step tx w tx' w' ∧
        (f = Throw AllocationTooLarge ∧ las_pagesize (w_las w) < total + size_of_ObjectHeader ∨
         f = Throw NoAvailableMemory)
    end.
Proof.
  intros Hwb Hvis Hfuel.
  destruct (write_result tx w pointer size total raw e entries fuel Hwb Hvis Hfuel) as (r & tx' & w' & Hr & Hi & Hres).
  exists r, tx', w'. split_and!; try done. destruct r; [|done]. by destruct Hres as (e' & He' & _); exists e'.
Qed.

(** The first writer wins: a [write] of an object whose newest version is
    not committed, or newer than the transaction, fails with [TxAborted] (or,
    when it is the transaction's first, for want of memory for its version),
    and changes nothing in use: no pointer is swung. *)
Theorem Transaction_write_conflict tx w pointer size total raw e entries fuel :
  writable tx w pointer size total raw (e :: entries) →
  visible (vr_version (tx_reader tx)) e = false → (S (length entries) < fuel)%nat →
  ∃ f tx' w', Transaction_write fuel pointer size (tx, w) = (Fail f, (tx', w')) ∧ tx_inv tx' w' ∧
    tx_step tx w tx' w' ∧
    (f = Throw TxAborted ∨ tx_version tx = None ∧ alloc_failure (w_las w) size_of_Version f).
Proof.
  intros Hwb Hvis Hfuel.
  destruct (Transaction_write_cases tx w pointer size total raw (e :: entries) fuel Hwb) as
    [(v & home & tx1 & w1 & Hinv1 & Hs & Hv1 & Hown & Hap & Hcap & ->)|(f & tx1 & w1 & Hw & Hinv1 & Hs & Hf & Hnone)]; [simpl; lia| |].
  - cbn [snapshot_read]. rewrite Hvis. exists (Throw TxAborted), tx1, w1. split_and!; try done. by left.
  - exists f, tx1, w1. split_and!; try done. by right.
Qed.

(** C24: a transaction does not see its own writes: after a successful [write],
    reading the same pointer still returns the bytes of the old version, and
    writing it a second time always fails with [TxAborted], though no other
    transaction is involved. *)
Theorem Transaction_write_twice tx w pointer size total raw e entries fuel dst tx' w' :
  writable tx w pointer size total raw (e :: entries) →
  visible (vr_version (tx_reader tx)) e = true → (S (S (length entries)) < fuel)%nat →
  Transaction_write fuel pointer size (tx, w) = (Ok dst, (tx', w')) →
  Transaction_read fuel pointer size (tx', w') = (Ok (en_data total e), (tx', w')) ∧
  Transaction_write fuel pointer size (tx', w') = (Err TxAborted, (tx', w')).
Proof.
  intros Hwb Hvis Hfuel Hw.
  destruct (write_result tx w pointer size total raw e entries fuel Hwb Hvis ltac:(lia)) as (r & tx1 & w1 & Hr & Hi & Hres).
  rewrite Hw in Hr. injection Hr as <- <- <-. destruct Hres as (e' & Hwr & _).
  pose proof (ai_las _ _ _ (ti_allocators _ _ Hi)) as Hinv. pose proof (wb_size _ _ _ _ _ _ _ Hwb) as Hsize.
  assert (visible (vr_version (tx_reader tx')) e' = false) as Hnew.
  { unfold visible. by rewrite (wr_uncommitted _ _ _ _ _ _ _ _ _ _ _ Hwr). }
  rewrite <- (wr_reader _ _ _ _ _ _ _ _ _ _ _ Hwr) in Hvis.
  pose proof (wr_chain _ _ _ _ _ _ _ _ _ _ _ Hwr) as Hch. pose proof (wr_pointer _ _ _ _ _ _ _ _ _ _ _ Hwr) as Hp.
  split.
  - unfold Transaction_read. rewrite (bind_ok _ _ _ tx' (tx', w')) by done.
    destruct (tx_reader tx') as [snapshot]. cbn [vr_version] in *.
    pose proof (VersionedReader_read_chain (w_las w') size total snapshot false _ (inv_wf _ Hinv) Hsize _ _ fuel Hch Hp
      ltac:(simpl; lia)) as Hread.
    cbn [snapshot_read] in Hread. rewrite Hnew, Hvis in Hread.
    by rewrite (bind_ok _ _ _ (en_data total e, en_header e, pointer) (tx', w')) by (by apply on_tx_las_same).
  - destruct (wr_made _ _ _ _ _ _ _ _ _ _ _ Hwr) as [v Hv].
    rewrite (Transaction_write_eq tx' w' tx' w' pointer size total (en_address e') (e' :: e :: entries) fuel v); try done.
    + cbn [snapshot_read]. by rewrite Hnew.
    + unfold Transaction_write_version. by rewrite (bind_ok _ _ _ tx' (tx', w')), Hv by done.
    + apply Hinv.
Qed.

(** C23: what decides a commit: it is refused exactly if the newest version of
    some object that was read for writing is a committed one, even where no
    other transaction has run: the validation compares it with the
    transaction's own version, which is 0 until the commit.  A newest version
    that another transaction has not committed yet does not stop it.  When it
    is refused the swung pointers are put back; the version counter has moved
    on in either case. *)
Theorem Transaction_commit_read_for_write tx w v home ns : tx_version tx = Some v →
  tx_inv tx w → own_version tx w v home → is_usize (w_version w + 1) →
  Forall2 (newest (w_las w)) (tx_readset tx) ns →
  Forall (swung (w_las w)) (tx_writeset tx) → writes_apart (tx_writeset tx) →
  if decide (Exists (λ n, 0 < n) ns) then
    ∃ las', Transaction_commit (tx, w) = (Err TxAborted, (tx, mk_World las' (w_version w + 1))) ∧
      Forall (λ x, cell_holds las' (tw_dst x) (tw_current x)) (tx_writeset tx) ∧
      ∀ c x, Forall (λ x, cells_apart c (tw_dst x)) (tx_writeset tx) →
        cell_holds (w_las w) c x → cell_holds las' c x
  else Transaction_commit (tx, w) =
    (Ok tt, (tx, mk_World (cell_put home (w_version w + 1) (w_las w)) (w_version w + 1))).
Proof.
  intros Hv Hinv Hown Hu Hns Hsw Hord. pose proof (ai_las _ _ _ (ti_allocators _ _ Hinv)) as Hlas.
  pose proof (commit_validate_eq (advanced w) v home _ ns Hlas (ov_at _ _ _ _ Hown) Hns) as Hval. case_decide as Hex.
  - exists (undo (tx_writeset tx) (w_las w)). split_and!.
    + by apply (Transaction_commit_invalid tx w v TxAborted).
    + by apply undo_restores.
    + intros c x Hc. by apply (undo_kept (tx_writeset tx)).
  - apply (Transaction_commit_valid tx w v home Hv Hown); [apply Hlas|done|exact Hval].
Qed.

(** C21: a write and its commit, as the other transactions see them: with a
    snapshot from before the commit a read of the pointer still returns the
    version it returned before the write; with the new counter for snapshot
    it returns the new version, which the transaction filled in. *)
Theorem write_commit_visible tx w pointer size total raw e entries fuel dst tx' w' w'' :
  writable tx w pointer size total raw (e :: entries) →
  visible (vr_version (tx_reader tx)) e = true → (S (S (length entries)) < fuel)%nat →
  tx_readset tx = [] → 0 ≤ w_version w → w_version w + 1 < 2 ^ 63 →
  Transaction_write fuel pointer size (tx, w) = (Ok dst, (tx', w')) →
  Transaction_commit (tx', w') = (Ok tt, (tx', w'')) →
  (∀ snapshot, snapshot ≤ w_version w →
     (VersionedReader_read fuel (VersionedReader_new snapshot) pointer size false (w_las w'')).1 =
     (VersionedReader_read fuel (VersionedReader_new snapshot) pointer size false (w_las w)).1) ∧
  ∀ abort, ∃ hdr, VersionedReader_read fuel (VersionedReader_new (w_version w'')) pointer size abort (w_las w'') =
    (Ok (dst, hdr, pointer), w_las w'').
Proof.
  intros Hwb Hvis Hfuel Hrs Hn0 Hn Hw Hcommit. pose proof Hwb as [].
  destruct (write_result tx w pointer size total raw e entries fuel Hwb Hvis ltac:(lia)) as (r & tx1 & w1 & Hr & Hi & Hres).
  rewrite Hw in Hr. injection Hr as <- <- <-. destruct Hres as (e' & Hwr & Hcap).
  destruct Hwr as [[v Hv] Hver _ Hshape Hcount Hreader Hreads Hmem (Hh1 & Hh2 & Hh3) Hptr Hch Hun Hdata _ _ _].
  specialize (Hver v Hv). set (home := en_home e') in *.
  pose proof (ai_las _ _ _ (ti_allocators _ _ Hi)) as Hinv. pose proof (ai_las _ _ _ (ti_allocators _ _ wb_inv0)) as Hinv0.
  rewrite (Transaction_commit_valid tx' w' v home) in Hcommit; try done;
    [|apply Hinv|rewrite Hcount; usize|by rewrite Hreads, Hrs].
  injection Hcommit as <-. unfold committed. rewrite Hcount. cbn [w_las w_version].
  pose proof (version_at_holds _ _ _ _ (ov_at _ _ _ _ Hver)) as Hhome.
  destruct (ov_memory _ _ _ _ Hver) as [Hhm Hhw].
  set (las := cell_put home (w_version w + 1) (w_las w')).
  assert (las_wf las) as Hwf. { apply (las_wf_shape (w_las w')); [by apply las_shape_cell_put with 0|apply Hinv]. }
  assert (commit_entry home (w_version w + 1) <$> e :: entries = e :: entries) as Hsame.
  { apply commit_entry_apart; [done|]. by apply Forall_chain_homes. }
  assert (version_chain las total (en_address e') (commit_entry home (w_version w + 1) e' :: e :: entries)) as Hch2.
  { rewrite <- Hsame. rewrite <- fmap_cons. apply version_chain_commit with 0; try done; [lia|].
    constructor; [split_and!; [by right|done|by left]|]. by apply Forall_chain_apart. }
  assert (cell_holds las pointer (en_address e')) as Hptr2 by by apply cell_put_apart with 0.
  assert (en_version (commit_entry home (w_version w + 1) e') = w_version w + 1) as Hnew
    by (unfold commit_entry; by rewrite decide_True).
  destruct (commit_entry_data home (w_version w + 1) e') as (Hbase & Haddr & _).
  assert (en_data total (commit_entry home (w_version w + 1) e') = dst) as Hdst
    by (unfold en_data; rewrite Hbase, Haddr; by symmetry).
  split.
  - intros snapshot Hs.
    rewrite (VersionedReader_read_chain las size total snapshot false _ Hwf wb_size0 _ _ fuel Hch2 Hptr2) by (simpl; lia).
    rewrite (VersionedReader_read_chain (w_las w) size total snapshot false _ (inv_wf _ Hinv0) wb_size0 _ _ fuel
      wb_chain0 wb_holds0) by (simpl; lia).
    cbn [fst]. cbn [snapshot_read]. unfold visible at 1. rewrite Hnew.
    by rewrite (bool_decide_false (w_version w + 1 ≤ snapshot)), andb_false_r by lia.
  - intros abort.
    rewrite (VersionedReader_read_chain las size total (w_version w + 1) abort _ Hwf wb_size0 _ _ fuel Hch2 Hptr2) by (simpl; lia).
    cbn [snapshot_read]. unfold visible at 1. rewrite Hnew, !bool_decide_true by lia. cbn [andb].
    eexists. unfold read_result. cbn. by rewrite Hdst.
Qed.

(** [alloc] makes an object of the transaction's own, uncommitted and with no
    version before it; it swings no pointer and changes nothing in use.  Until the commit nobody can read the object, the
    transaction itself included: [InvalidLogicalAddress].  It can only fail for
    want of memory. *)
Lemma Transaction_alloc_ok tx w size total : tx_inv tx w → ObjectSize_total size = Ok total → 0 < total → aligned 8 total →
  ∃ result tx' w', Transaction_alloc size (tx, w) = (result, (tx', w')) ∧ tx_inv tx' w' ∧ tx_step tx w tx' w' ∧
    match result with
    | Ok (ptr, data) => ∃ e v,
        tx_version tx' = Some v ∧ own_version tx' w' v (en_home e) ∧ data = en_data total e ∧
        version_chain (w_las w') total ptr [e] ∧ en_version e = 0 ∧
        ∀ snapshot p fuel, cell_holds (w_las w') p ptr → (1 < fuel)%nat →
          VersionedReader_read fuel (VersionedReader_new snapshot) p size false (w_las w') =
            (Err InvalidLogicalAddress, w_las w')
    | Fail f => f = Throw AllocationTooLarge ∧ las_pagesize (w_las w) < total + size_of_ObjectHeader ∨
        f = Throw NoAvailableMemory
    end.
Proof.
  intros Hinv Hsize Ht Halt. destruct (write_version_ok tx w Hinv) as (r & tx1 & w1 & Hr & Hinv1 & Hs1 & Hres).
  unfold Transaction_alloc. destruct r as [v|f]; step Hr.
  2:{ exists (Fail f), tx1, w1. split_and!; try done. destruct Hres as [Hf _].
      apply (alloc_failure_le _ size_of_Version) with (2 := Hf). unfold size_of_Version. usize. }
  destruct Hres as (Hv & home & Hown & _).
  destruct (new_object_ok tx1 w1 v home size total 0 [] (zeros total)) as (r & tx2 & w2 & Hr2 & Hres); try done;
    [by apply chain_none|apply blen_zeros; lia|].
  assert (tx_version tx2 = Some v) as Hv2.
  { unfold on_object_allocator, zoom in Hr2. destruct (TransactionalObjectAllocator_alloc _ _ _ _) as [? []].
    by injection Hr2 as _ <- _. }
  unfold TransactionalObjectAllocator_alloc_new, UntypedPointer_new_none. rewrite Hr2.
  destruct r as [[ptr data]|f].
  - destruct Hres as (e & -> & Hs2 & Hinv2 & Hch & _ & [N1 N2 N3 N4 N5 N6 _ _ _ _ _]).
    exists (Ok (en_address e, data)), tx2, w2. split; [done|]. split; [done|]. split; [by eapply tx_step_trans|].
    exists e, v. rewrite N4. split_and!; try done; [by apply (own_version_step tx1 w1)|].
    intros snapshot p fuel Hp Hfuel.
    rewrite (VersionedReader_read_chain (w_las w2) size total snapshot false [e]
      (inv_wf _ (ai_las _ _ _ (ti_allocators _ _ Hinv2))) Hsize _ p fuel Hch Hp) by (simpl; lia).
    cbn [snapshot_read]. unfold visible. by rewrite N5.
  - destruct Hres as (Hinv2 & Hs2 & Hf). exists (Fail f), tx2, w2. split; [done|]. split; [done|].
    split; [by eapply tx_step_trans|].
    destruct (alloc_failure_le _ _ _ f (Z.le_refl _) Hf) as [[? Hps]|]; [left|by right].
    split; [done|]. pose proof (f_equal fst (ts_shape _ _ _ _ Hs1)) as Hpage. simpl in Hpage. lia.
Qed.
End TxTheorems.
