(* ===== verification/Heap.v ===== *)
(** * Opening a heap and running transactions (src/src/librarius.rs, typed.rs) *)
From S2P Require Import Prelude Utils Source SourceAllocator Slices Las Pointer Vos Tx.

(** ** [LibrariusBuilder] *)

(** The constructor of the root object gets the object's bytes to fill. *)
Definition root_constructor (D : Type) : Type := memref → M (World D) unit.

Record LibrariusBuilder (D : Type) : Type := mk_LibrariusBuilder {
  lb_sources : list D;
  lb_pagesize : Z;
  lb_root : option (ObjectSize * root_constructor D)
}.
Arguments mk_LibrariusBuilder {D}.
Arguments lb_sources {D}.
Arguments lb_pagesize {D}.
Arguments lb_root {D}.

Definition LibrariusBuilder_new {D} : LibrariusBuilder D := mk_LibrariusBuilder [] 4096 None.

Definition LibrariusBuilder_create_with {D} (root_size : ObjectSize) (f : root_constructor D)
    (self : LibrariusBuilder D) : LibrariusBuilder D :=
  mk_LibrariusBuilder (lb_sources self) (lb_pagesize self) (Some (root_size, f)).

Definition LibrariusBuilder_source {D} (source : D) (self : LibrariusBuilder D) : LibrariusBuilder D :=
  mk_LibrariusBuilder (lb_sources self ++ [source]) (lb_pagesize self) (lb_root self).

Definition LibrariusBuilder_pagesize {D} (pagesize : Z) (self : LibrariusBuilder D) :
    LibrariusBuilder D :=
  mk_LibrariusBuilder (lb_sources self) pagesize (lb_root self).

(** ** [Librarius] *)
Record Librarius (D : Type) : Type := mk_Librarius { lr_world : World D; lr_root : cell }.
Arguments mk_Librarius {D}.
Arguments lr_world {D}.
Arguments lr_root {D}.

Section Librarius.
Context `{T : Target} `{C : Crc} {D : Type} `{Src : !Source D}.

(** The pointer behind the header at the root location. *)
Definition Librarius_root_read : M (World D) cell :=
  root_location ← gets (λ w, LogicalAddressSpace_root_location (w_las w));
  data ← on_world_las (LogicalAddressSpace_read root_location);
  '(_, data) ← lift (memref_split_at data size_of_ObjectHeader);
  ptr_root ← lift (any_from_slice_mut size_of_usize 8 data);
  mret (memref_cell ptr_root 0).

Definition Librarius_root_alloc (size : ObjectSize) (f : root_constructor D) : M (World D) cell :=
  root_location ← gets (λ w, LogicalAddressSpace_root_location (w_las w));
  root ← Librarius_root_read;
  root_value ← on_world_las (cell_load root);
  if UntypedPointer_is_some root_value then mret root else
  owning ← lift (LogicalSlice_address (byte_slice root_location) +! size_of_ObjectHeader);
  let ptr_owning := UntypedPointer_new_byte owning in
  let internal_size := ObjectSize_new 8 0 in
  data ← on_world_las (LogicalAddressSpace_write root_location);
  userdata ← on_world_las (TransactionalObjectAllocator_init_object data internal_size
               Version_new_base UntypedPointer_new_none);
  userdata ← lift (any_from_slice_mut size_of_usize 8 userdata);
  let ptr_root := memref_cell userdata 0 in
  '(root, data) ← on_world_las (λ las,
    let '(o, (_, las)) :=
      TransactionalObjectAllocator_alloc_new size Version_new_base (VersionedObjectStore_new_object_allocator, las) in
    (o, las));
  f data ;;
  '(result, _) ← on_world_las (UntypedPointer_compare_and_swap ptr_root UntypedPointer_new_none root);
  assert result ;;
  attempt (on_world_las (VersionedReader_flush (OnStack ptr_owning))) ;;
  Librarius_root_read.

Definition Librarius_new (pagesize : Z) (sources : list D)
    (root : option (ObjectSize * root_constructor D)) : outcome (Librarius D) :=
  las ← LogicalAddressSpace_new pagesize sources VersionedObjectStore_valid_page
          (bool_decide (is_Some root));
  let w := mk_World las VersionedObjectStore_new in
  let '(root, w) := match root with
    | Some (root_size, root_constr) => Librarius_root_alloc root_size root_constr w
    | None => Librarius_root_read w
    end in
  root ← root;
  mret (mk_Librarius w root).

Definition LibrariusBuilder_open (self : LibrariusBuilder D) : outcome (Librarius D) :=
  Librarius_new (lb_pagesize self) (lb_sources self) (lb_root self).

(** ** Running a closure as a transaction

    The closure is any computation on the transaction and the heap. *)
Abbreviation TX := (M (Transaction * World D)).

(** The heap after [f] ran on a new transaction; the transaction is dropped. *)
Definition in_transaction {A} (root : cell) (f : TX A) : M (World D) A := λ w,
  match Transaction_new root w with
  | (Ok tx, w) => let '(o, (_, w)) := f (tx, w) in (o, w)
  | (Fail e, w) => (Fail e, w)
  end.

Definition Librarius_run_once {R} (root : cell) (func : TX R) : M (World D) R :=
  in_transaction root (
    result ← attempt func;
    match result with
    | inl r => Transaction_commit ;; mret r
    | inr e => Transaction_abort ;; throw e
    end).

(** The retry loop; [retries] bounds the rounds. *)
Fixpoint Librarius_run {R} (retries : nat) (root : cell) (transaction : TX R) : M (World D) R :=
  match retries with
  | O => fail Diverge
  | S retries =>
      result ← attempt (Librarius_run_once root transaction);
      match result with
      | inl result => mret result
      | inr TxAborted => Librarius_run retries root transaction
      | inr error => throw error
      end
  end.
End Librarius.

(** ** Typed access (src/src/typed.rs)

    [Persistent]: the object size a type declares, with its byte image, which
    the casts of [unsafe_utils] give every type. *)
Class Persistent (A : Type) : Type := {
  persistent_size : ObjectSize;
  persistent_bytes : A → list byte;
  persistent_decode : list byte → A;
  persistent_size_of : Z;
  persistent_align_of : Z
}.

Record PersistentPointer (A : Type) : Type := PersistentPointer_from_raw { pp_raw : UntypedPointer }.
Arguments PersistentPointer_from_raw {A}.
Arguments pp_raw {A}.

Definition PersistentPointer_new_none {A} : PersistentPointer A :=
  PersistentPointer_from_raw UntypedPointer_new_none.

#[export] Instance UntypedPointer_Persistent : Persistent UntypedPointer := {
  persistent_size := ObjectSize_new_with_usize size_of_usize 0;
  persistent_bytes := u64_bytes;
  persistent_decode := le_combine;
  persistent_size_of := size_of_usize;
  persistent_align_of := 8
}.

Section Typed.
Context `{T : Target} `{C : Crc} {D : Type} `{Src : !Source D} {A : Type} `{P : !Persistent A}.
Context (fuel : nat).
Abbreviation TX := (M (Transaction * World D)).

Definition store_typed (data : memref) (v : A) : M (LogicalAddressSpace D) unit :=
  typed ← lift (any_from_slice_mut persistent_size_of persistent_align_of data);
  las_store (mr_source typed) (mr_off typed) (persistent_bytes v).

(** The cast of the object's bytes to [A], read or written in place. *)
Definition load_typed (data : memref) : M (LogicalAddressSpace D) A :=
  typed ← lift (any_from_slice_mut persistent_size_of persistent_align_of data);
  bytes ← las_load (mr_source typed) (mr_off typed) persistent_size_of;
  mret (persistent_decode bytes).

Definition create_with_typed (tc : A) (self : LibrariusBuilder D) : LibrariusBuilder D :=
  LibrariusBuilder_create_with persistent_size (λ data, on_world_las (store_typed data tc)) self.

(** A reference to the one type is a reference to the other. *)
Definition PersistentPointer_from_raw_ref (raw : cell) : cell := raw.
Definition PersistentPointer_as_raw (self : cell) : cell := self.

Definition write_typed (pointer : cell) : TX memref := Transaction_write fuel (PersistentPointer_as_raw pointer) persistent_size.
Definition read_typed (pointer : cell) : TX memref := Transaction_read fuel (PersistentPointer_as_raw pointer) persistent_size.
Definition root_typed : TX cell := raw ← Transaction_root; mret (PersistentPointer_from_raw_ref raw).

Definition alloc_typed (f : A) : TX (PersistentPointer A) :=
  '(raw, data) ← Transaction_alloc persistent_size;
  on_tx_las (store_typed data f) ;;
  mret (PersistentPointer_from_raw raw).
End Typed.
