(* ===== verification/Runs.v ===== *)
(** * Running closures

    [run_once] rolls back what a failing closure wrote; [run] retries aborted
    attempts and nothing else. *)
From S2P Require Import Prelude Utils Source SourceAllocator Slices Las Memory Pointer Vos.
From S2P Require Import Allocators Versions Objects Tx Transactions Heap.

Section Runs.
Context `{T : Target} `{TOk : !TargetOk T} `{C : Crc} {D : Type} `{Src : !Source D} `{Laws : !SourceLaws D}.
Abbreviation TX := (M (Transaction * World D)).
Implicit Types (w : World D) (tx : Transaction).

Definition fresh_transaction (root : cell) w : Transaction :=
  mk_Transaction root GenericAllocator_new GenericAllocator_new (VersionedReader_new (w_version w)) None [] [].

Lemma in_transaction_eq {A} root (f : TX A) w :
  in_transaction root f w = let '(o, (_, w')) := f (fresh_transaction root w, w) in (o, w').
Proof. done. Qed.

(** A new transaction over a well-formed heap. *)
Lemma fresh_tx_inv root w : las_inv (w_las w) → tx_inv (fresh_transaction root w) w.
Proof.
  intros Hinv. split; [|done]. split; try apply ga_wf_new; [done| |done]. by intros b o (m & ? & _).
Qed.

(** [n] attempts in a row that were aborted. *)
Inductive aborted {R} (root : cell) (f : TX R) : nat → World D → World D → Prop :=
| aborted_none w : aborted root f 0 w w
| aborted_more n w w1 w2 : Librarius_run_once root f w = (Err TxAborted, w1) →
    aborted root f n w1 w2 → aborted root f (S n) w w2.

Lemma is_aborted {R} (o : outcome R) : o = Err TxAborted ∨ o ≠ Err TxAborted.
Proof. destruct o as [r|[[]| | |]]; by (left; congruence) || (right; congruence). Qed.

Lemma run_step {R} root (f : TX R) k w o w' : Librarius_run_once root f w = (o, w') →
  o ≠ Err TxAborted → Librarius_run (S k) root f w = (o, w').
Proof.
  intros Ho Hne. cbn [Librarius_run]. unfold mbind, M_bind, attempt. rewrite Ho.
  destruct o as [r|[e| | |]]; try done. by destruct e.
Qed.

Lemma run_aborted {R} root (f : TX R) k w w' : Librarius_run_once root f w = (Err TxAborted, w') →
  Librarius_run (S k) root f w = Librarius_run k root f w'.
Proof. intros Ho. cbn [Librarius_run]. unfold mbind at 1, M_bind at 1, attempt. by rewrite Ho. Qed.

(** A closure that returns an error has its writes undone and the error
    returned: every pointer it swung holds what it held, and what it did not
    swing is as the closure left it. *)
Theorem Librarius_run_once_error {R} root (f : TX R) w tx' w' e :
  f (fresh_transaction root w, w) = (Err e, (tx', w')) →
  Forall (swung (w_las w')) (tx_writeset tx') → writes_apart (tx_writeset tx') →
  ∃ las, Librarius_run_once root f w = (Err e, with_las las w') ∧
    Forall (λ x, cell_holds las (tw_dst x) (tw_current x)) (tx_writeset tx') ∧
    ∀ c v, Forall (λ x, cells_apart c (tw_dst x)) (tx_writeset tx') →
      cell_holds (w_las w') c v → cell_holds las c v.
Proof.
  intros Hf Hsw Hord. exists (undo (tx_writeset tx') (w_las w')). split_and!.
  - unfold Librarius_run_once. rewrite in_transaction_eq.
    rewrite (bind_ok _ _ _ (inr e) (tx', w')) by (by apply attempt_err).
    by rewrite (bind_ok _ _ _ _ _ (Transaction_abort_eq tx' w' Hsw Hord)).
  - by apply undo_restores.
  - intros c v Hc. by apply undo_kept.
Qed.

(** C25: [run] retries exactly the aborted attempts: after [n] of them the first
    attempt that ends otherwise, in success, error or panic, is the result,
    with any bound on the retries above [n]; and [run] itself never returns
    [TxAborted]. *)
Theorem Librarius_run_retries {R} root (f : TX R) n w w1 w2 o k :
  aborted root f n w w1 → Librarius_run_once root f w1 = (o, w2) → o ≠ Err TxAborted → (n < k)%nat →
  Librarius_run k root f w = (o, w2) ∧
  ∀ k', (Librarius_run k' root f w).1 ≠ Err TxAborted.
Proof.
  intros Hab Ho Hne Hk. split.
  - revert k Hk. induction Hab as [w|n w wa wb Ha Hab IH]; intros [|k] Hk; [lia| |lia|].
    + by apply run_step.
    + rewrite (run_aborted root f k w wa Ha). apply IH; [done|lia].
  - intros k'. clear. revert w. induction k' as [|k' IH]; intros w; [done|].
    destruct (Librarius_run_once root f w) as [o w'] eqn:Ho.
    destruct (is_aborted o) as [->|Hne].
    + rewrite (run_aborted root f k' w w' Ho). apply IH.
    + by rewrite (run_step root f k' w o w' Ho Hne).
Qed.
End Runs.
