(* ===== verification/Retries.v ===== *)
(** * Attempts that cannot succeed

    What [run] does with a write that is aborted each time it is tried: every
    attempt leaks the page of its version, until none is left. *)
From S2P Require Import Prelude Utils Source SourceAllocator Slices Las Memory Pointer Vos.
From S2P Require Import Allocators Versions Objects Tx Transactions Heap Runs.

(** ** The pages that are left *)
Section PagesLeft.
Context `{T : Target} `{TOk : !TargetOk T} `{C : Crc} {D : Type} `{Src : !Source D} `{Laws : !SourceLaws D}.
Implicit Types (las : LogicalAddressSpace D) (w : World D) (tx : Transaction).

(** The free pages of the source that allocations are served from. *)
Definition pages_left las : nat :=
  match LogicalAddressSpace_get_best_byte_addressable las with
  | Some (_, sa) => length (sa_freelist sa)
  | None => 0
  end.

Lemma pages_left_none las : next_page las = None ↔ pages_left las = 0%nat.
Proof.
  unfold next_page, pages_left. destruct (LogicalAddressSpace_get_best_byte_addressable las) as [[b sa]|]; [|done].
  simpl. by destruct (sa_freelist sa).
Qed.

(** Replacing an allocator by one of the same kind. *)
Lemma find_btree_set (f : SourceAllocator D → bool) b sa sa' (l : list (LogicalAddress * SourceAllocator D)) :
  NoDup l.*1 → btree_get b l = Some sa → f sa' = f sa →
  find (λ e, f e.2) (btree_set b sa' l) =
    (λ e, if decide (e.1 = b) then (b, sa') else e) <$> find (λ e, f e.2) l.
Proof.
  intros Hnd Hg Hf. induction l as [|[k s] l IH]; [done|]. cbn [btree_set btree_get find fst snd fmap list_fmap] in *.
  apply NoDup_cons in Hnd as [Hk Hnd]. destruct (decide (k = b)) as [->|Hne]; cbn [find snd].
  - injection Hg as ->. rewrite Hf. destruct (f sa); simpl; [by rewrite decide_True|].
    destruct (find _ l) as [[b' s']|] eqn:Hfind; [|done]. simpl. rewrite decide_False; [done|]. intros ->.
    apply Hk. apply find_some in Hfind as [Hin _]. apply list_elem_of_fmap. exists (b, s'). split; [done|by apply list_elem_of_In].
  - rewrite IH by done. destruct (f s); simpl; [by rewrite decide_False|done].
Qed.

Lemma pages_left_set las b sa sa' : las_inv las → las_get las b = Some sa →
  SourceAllocator_is_byte_addressable sa' = SourceAllocator_is_byte_addressable sa →
  pages_left (with_sources (btree_set b sa' (las_sources las)) las) =
    match LogicalAddressSpace_get_best_byte_addressable las with
    | Some (b', s) => length (sa_freelist (if decide (b' = b) then sa' else s))
    | None => 0%nat
    end.
Proof.
  intros Hinv Hg Hf. unfold pages_left, LogicalAddressSpace_get_best_byte_addressable, LogicalAddressSpace_get_best_source.
  cbn [with_sources las_sources]. rewrite (find_btree_set _ b sa) by (done || apply sorted_nodup, Hinv).
  destruct (find _ _) as [[b' s]|]; [|done]. simpl. by case_decide.
Qed.

Lemma pages_left_put las b off data : las_inv las → pages_left (put b off data las) = pages_left las.
Proof.
  intros Hinv. unfold put. destruct (las_get las b) as [sa|] eqn:Hg; [|done].
  pose proof (source_store_flags off data (sa_source sa)) as [= Hb _].
  rewrite (pages_left_set las b sa) by done. unfold pages_left.
  destruct (LogicalAddressSpace_get_best_byte_addressable las) as [[b' s]|] eqn:Hbest; [|done].
  case_decide; [|done]. subst b'. destruct (best_byte_get las b s Hinv Hbest) as [Hg' _].
  rewrite Hg in Hg'. by injection Hg' as ->.
Qed.

Lemma pages_left_take las b page rest : las_inv las → next_page las = Some (b, page, rest) →
  S (pages_left (take_page b rest las)) = pages_left las.
Proof.
  intros Hinv. unfold next_page. destruct (LogicalAddressSpace_get_best_byte_addressable las) as [[b' sa]|] eqn:Hbest; [|done].
  simpl. destruct (sa_freelist sa) as [|p r] eqn:Hfree; [done|]. intros [= -> -> ->].
  destruct (best_byte_get las b sa Hinv Hbest) as [Hg _]. unfold take_page. rewrite Hg.
  rewrite (pages_left_set las b sa) by done. unfold pages_left. rewrite Hbest, decide_True by done. simpl. by rewrite Hfree.
Qed.

Lemma las_store_put las b off data las' : las_store b off data las = (Ok tt, las') → las' = put b off data las.
Proof.
  unfold las_store, on_allocator, put, las_get. destruct (btree_get b (las_sources las)) as [sa|]; [|done].
  by case_decide; [intros [= <-]|].
Qed.

Lemma pages_left_store las c v c' las' : las_inv las → cell_store c v las = (Ok c', las') → pages_left las' = pages_left las.
Proof.
  intros Hinv. destruct c as [b off|]; cbn [cell_store]; [|by intros [= _ <-]].
  intros ([] & las1 & Hat & ([] & las2 & Hst & [= _ <-])%bind_ok_inv)%bind_ok_inv.
  assert (las1 = las) as -> by (unfold atomic_at in Hat; case_decide; [by injection Hat|done]).
  apply las_store_put in Hst as ->. by apply pages_left_put.
Qed.

(** A new allocator takes a page for its first block. *)
Lemma pages_left_alloc las ga size s r ga' las' : las_inv las → ga_wf las ga → ga_active ga = None → 0 < size →
  GenericAllocator_alloc size (ga, las) = (Ok (s, r), (ga', las')) → S (pages_left las') = pages_left las ∧ las_inv las'.
Proof.
  intros Hinv Hga Hact Hs E. pose proof (GenericAllocator_alloc_sound las ga size Hinv Hga Hs) as Hsound.
  rewrite E in Hsound. split; [|apply Hsound]. rewrite GenericAllocator_alloc_eq in E by done.
  unfold alloc_spec in E. rewrite Hact in E. destruct (next_page las) as [[[b page] rest]|] eqn:Hn; [|done].
  case_decide; [|done]. injection E as _ _ _ <-. by apply (pages_left_take las b page).
Qed.

(** A transaction takes a page for its version. *)
Lemma write_version_pages tx w v tx1 w1 : tx_inv tx w → tx_version tx = None → ga_active (tx_log_allocator tx) = None →
  Transaction_write_version (tx, w) = (Ok v, (tx1, w1)) → S (pages_left (w_las w1)) = pages_left (w_las w).
Proof.
  intros [Hal _] Hv Hact. pose proof (ai_las _ _ _ Hal) as Hinv. pose proof (ai_second _ _ _ Hal) as Hga.
  unfold Transaction_write_version. rewrite (bind_ok _ _ _ tx (tx, w)), Hv by done.
  intros (v' & s2 & E & Hret)%bind_ok_inv. injection Hret as _ <- <-.
  unfold on_log_allocator, zoom in E. cbn [fst snd] in E.
  destruct (TransactionalLogAllocator_new_indirect_version _) as [o [ga' las']] eqn:Hm. injection E as -> <-. cbn [fst snd w_las with_las].
  unfold TransactionalLogAllocator_new_indirect_version in Hm.
  apply bind_ok_inv in Hm as ([s r] & [ga1 las1] & Ha & Hm). apply (pages_left_alloc _ _ size_of_Version) in Ha as [<- Hinv1]; [|done..].
  apply bind_ok_inv in Hm as (p & s3 & Hcast & Hm). injection Hcast as Hcast <-.
  apply bind_ok_inv in Hm as (c & [ga3 las3] & Hst & Hm). injection Hm as _ <- <-.
  unfold on_las, zoom in Hst. cbn [fst snd] in Hst. destruct (cell_store _ _ las1) as [o4 las4] eqn:Hcs. injection Hst as -> _ <-.
  f_equal. by apply (pages_left_store las1) in Hcs.
Qed.

(** Without one it fails, and nothing has changed. *)
Lemma write_version_no_page tx w : tx_inv tx w → tx_version tx = None → ga_active (tx_log_allocator tx) = None →
  pages_left (w_las w) = 0%nat →
  Transaction_write_version (tx, w) = (Err NoAvailableMemory, (set_log_allocator GenericAllocator_new tx, w)).
Proof.
  intros [Hal _] Hv Hact Hnone%pages_left_none.
  pose proof (GenericAllocator_alloc_eq (w_las w) (tx_log_allocator tx) size_of_Version (ai_las _ _ _ Hal) (ai_second _ _ _ Hal) eq_refl) as Ha.
  unfold alloc_spec in Ha. rewrite Hact, Hnone in Ha.
  unfold Transaction_write_version. rewrite (bind_ok _ _ _ tx (tx, w)), Hv by done. apply bind_fail.
  rewrite (on_log_allocator_eq _ tx w (Err NoAvailableMemory) GenericAllocator_new (w_las w)); [by rewrite with_las_id|].
  unfold TransactionalLogAllocator_new_indirect_version. by step Ha.
Qed.
End PagesLeft.

(** ** An object with an uncommitted version in front *)
Section Blocked.
Context `{T : Target} `{TOk : !TargetOk T} `{C : Crc} {D : Type} `{Src : !Source D} `{Laws : !SourceLaws D}.
Abbreviation TX := (M (Transaction * World D)).
Implicit Types (w : World D) (tx : Transaction).

(** What is in use stays in use for the next transaction. *)
Lemma range_unowned_new (las : LogicalAddressSpace D) ga b off n : range_unowned las ga b off n → range_unowned las GenericAllocator_new b off n.
Proof. intros Hu o Ho [(m & ? & _)|Hf]; [done|]. apply (Hu o Ho). by right. Qed.

Lemma fresh_range_in_use root tx w b off n : tx_range_in_use tx w b off n → tx_range_in_use (fresh_transaction root w) w b off n.
Proof. intros [H1 _]. by split; apply (range_unowned_new _ (tx_object_allocator tx)). Qed.

Lemma fresh_in_use root tx w c : tx_in_use tx w c → tx_in_use (fresh_transaction root w) w c.
Proof. destruct c as [b off|]; [|done]. apply fresh_range_in_use. Qed.

Lemma writable_again root w tx1 w1 pointer size total raw entries :
  writable (fresh_transaction root w) w pointer size total raw entries →
  tx_step (fresh_transaction root w) w tx1 w1 → tx_inv tx1 w1 →
  writable (fresh_transaction root w1) w1 pointer size total raw entries.
Proof.
  intros [] Hs Hinv1. destruct (version_chain_step _ _ _ _ _ _ _ Hs wb_chain_in_use wb_chain) as [Hch Hcells].
  destruct (ts_kept _ _ _ _ Hs _ wb_pointer_in_use) as [Hkept Hused]. split; try done.
  - apply fresh_tx_inv, (ai_las _ _ _ (ti_allocators _ _ Hinv1)).
  - by apply (memory_cell_shape (w_las w)); [apply Hs|].
  - by apply Hkept.
  - by apply (fresh_in_use root tx1).
  - apply (Forall_impl _ _ _ Hcells). intros c. by apply (fresh_in_use root tx1).
  - apply (Forall_impl _ _ _ wb_data_in_use). intros e He. by apply (fresh_range_in_use root tx1), (ts_range _ _ _ _ Hs).
Qed.

(** An attempt that fails before it has written anything. *)
Lemma run_once_fails {R} root (f : TX R) w e tx1 w1 : f (fresh_transaction root w, w) = (Err e, (tx1, w1)) →
  tx_writeset tx1 = [] → Librarius_run_once root f w = (Err e, w1).
Proof.
  intros Hf Hws. unfold Librarius_run_once. rewrite in_transaction_eq.
  rewrite (bind_ok _ _ _ (inr e) (tx1, w1)) by (by apply attempt_err).
  unfold Transaction_abort. rewrite (bind_ok _ _ _ tt (tx1, w1)); [done|].
  by rewrite (bind_ok _ _ _ tx1 (tx1, w1)), Hws by done.
Qed.

(** A closure that writes the object first. *)
Definition writes_first {R} (fuel : nat) (pointer : cell) (size : ObjectSize) (rest : memref → TX R) : TX R :=
  Transaction_write fuel pointer size ≫= rest.

Lemma blocked_attempt {R} root w pointer size total raw e entries fuel (rest : memref → TX R) :
  writable (fresh_transaction root w) w pointer size total raw (e :: entries) →
  en_version e = 0 → (S (length entries) < fuel)%nat → size_of_Version ≤ las_pagesize (w_las w) →
  ∃ w1, Librarius_run_once root (writes_first fuel pointer size rest) w =
      (if decide (pages_left (w_las w) = 0%nat) then Err NoAvailableMemory else Err TxAborted, w1) ∧
    (pages_left (w_las w) = 0%nat → w1 = w) ∧
    pages_left (w_las w1) = pred (pages_left (w_las w)) ∧ las_pagesize (w_las w1) = las_pagesize (w_las w) ∧
    writable (fresh_transaction root w1) w1 pointer size total raw (e :: entries).
Proof.
  intros Hwb He Hfuel Hps. set (tx := fresh_transaction root w) in *. pose proof Hwb as [].
  assert (snapshot_read (vr_version (tx_reader tx)) true (e :: entries) = Err TxAborted) as Hread.
  { cbn [snapshot_read]. unfold visible. by rewrite He. }
  destruct (decide (pages_left (w_las w) = 0%nat)) as [H0|H0].
  { exists w. rewrite H0. split; [|done].
    apply (run_once_fails root _ w NoAvailableMemory (set_log_allocator GenericAllocator_new tx)); [|done].
    apply bind_fail. unfold Transaction_write, UntypedPointer_clone.
    rewrite (bind_ok _ _ _ raw (tx, w)) by (apply on_tx_las_same; by apply cell_load_ok).
    by step (write_version_no_page tx w wb_inv eq_refl eq_refl H0). }
  destruct (write_version_ok tx w wb_inv) as (r & tx1 & w1 & Hv & Hinv1 & Hs & Hres).
  destruct r as [v|f]; [|destruct Hres as [[[_ Hbig]|[_ Hnone%pages_left_none]] _]; lia || done].
  pose proof (write_version_pages tx w v tx1 w1 wb_inv eq_refl eq_refl Hv) as Hpages.
  exists w1. split_and!; [|done|lia|by pose proof (f_equal fst (ts_shape _ _ _ _ Hs))|by apply (writable_again root w tx1)].
  apply (run_once_fails root _ w TxAborted tx1); [|by rewrite (ts_writeset _ _ _ _ Hs)].
  apply bind_fail. rewrite (Transaction_write_eq tx w tx1 w1 pointer size total raw (e :: entries) fuel v); try done.
  - by rewrite (ts_reader _ _ _ _ Hs), Hread.
  - apply (ai_las _ _ _ (ti_allocators _ _ Hinv1)).
  - by apply (version_chain_step tx w tx1 w1).
Qed.

(** C38: as long as an object has a version in front that no commit numbers,
    nobody can write it, and trying to uses up the memory: [run] of a closure
    that writes the object first is aborted on each attempt, and each attempt
    leaks the page of its version, so that after as many attempts as the
    first byte-addressable source has free pages the next one returns
    [NoAvailableMemory].  Nothing is freed and the object is as it was. *)
Theorem uncommitted_version_exhausts_memory {R} root w pointer size total raw e entries fuel (rest : memref → TX R) k :
  writable (fresh_transaction root w) w pointer size total raw (e :: entries) →
  en_version e = 0 → (S (length entries) < fuel)%nat → size_of_Version ≤ las_pagesize (w_las w) →
  let f := writes_first fuel pointer size rest in
  let pages := pages_left (w_las w) in
  ∃ w', aborted root f (k `min` pages) w w' ∧ pages_left (w_las w') = (pages - k)%nat ∧
    Librarius_run k root f w = (if decide (k ≤ pages)%nat then Fail Diverge else Err NoAvailableMemory, w') ∧
    writable (fresh_transaction root w') w' pointer size total raw (e :: entries).
Proof.
  cbv zeta. intros Hwb He Hfuel Hps. revert w Hwb Hps. induction k as [|k IH]; intros w Hwb Hps.
  { exists w. rewrite decide_True by lia. split_and!; [constructor|lia|done..]. }
  destruct (blocked_attempt root w pointer size total raw e entries fuel rest Hwb He Hfuel Hps) as (w1 & Hrun & Hsame & Hpages & Hps1 & Hwb1).
  destruct (decide (pages_left (w_las w) = 0%nat)) as [H0|H0].
  - exists w1. rewrite decide_False by lia. rewrite H0, Nat.min_0_r. split_and!; [..|done].
    + rewrite (Hsame H0). constructor.
    + lia.
    + by apply run_step.
  - destruct (IH w1 Hwb1) as (w' & Hab & Hleft & Hres & Hwb'); [lia|]. exists w'.
    rewrite (run_aborted root _ k w w1 Hrun), Hres. split_and!; [|lia| |done].
    + replace (S k `min` pages_left (w_las w))%nat with (S (k `min` pages_left (w_las w1)))%nat by lia.
      by apply (aborted_more root _ _ w w1).
    + f_equal. by do 2 case_decide; (lia || done).
Qed.
End Blocked.
