(* ===== verification/Reopen.v ===== *)
(** * Opening without a constructor

    [Librarius::new] with no constructor for the root object is meant for
    sources that a heap is on already.  On the sources the crate has it never
    succeeds: memory is always fresh, which is refused, and without memory
    there is no page to fetch the root into. *)
From S2P Require Import Prelude Utils Source SourceAllocator Slices Las Memory Allocators Mapping Vos Tx Heap.

Section Reopen.
Context `{T : Target} `{TOk : !TargetOk T} `{C : Crc} {D : Type} `{Src : !Source D} `{Laws : !SourceLaws D}.
Abbreviation LAS := (LogicalAddressSpace D).
Implicit Types (sa : SourceAllocator D) (las : LAS).

(** ** What is not byte addressable stays so *)
Definition same_kind sa sa' : Prop := SourceAllocator_is_byte_addressable sa' = SourceAllocator_is_byte_addressable sa.

#[local] Instance same_kind_preorder : PreOrder same_kind.
Proof. split; [done|]. intros x y z H1 H2. unfold same_kind in *. congruence. Qed.

Lemma same_kind_on_source {A} (m : M D A) : (∀ s, source_flags (m s).2 = source_flags s) → evolves same_kind (on_source m).
Proof.
  intros Hm sa. specialize (Hm (sa_source sa)). unfold on_source, zoom. destruct (m (sa_source sa)) as [o s].
  by injection Hm.
Qed.

Lemma same_kind_read off n : evolves same_kind (on_source (source_read off n)).
Proof. apply same_kind_on_source. intros s. apply source_read_same. Qed.
Lemma same_kind_write off data : evolves same_kind (on_source (source_write off data)).
Proof. apply same_kind_on_source. intros s. apply source_write_flags. Qed.
Lemma same_kind_flush : evolves same_kind (on_source source_flush).
Proof. apply same_kind_on_source. intros s. apply source_flush_same. Qed.
Lemma same_kind_length : evolves same_kind SourceAllocator_length.
Proof.
  unfold SourceAllocator_length. evolves_step; [evolves_solve|]. evolves_step; [|evolves_solve].
  apply same_kind_on_source. intros s. pose proof (source_length_same s) as [H _]. by destruct (source_length s).
Qed.
#[local] Hint Resolve same_kind_read same_kind_write same_kind_flush same_kind_length : evolves.

Lemma same_kind_initialize valid : evolves same_kind (SourceAllocator_initialize (D := D) valid).
Proof.
  assert (∀ page, evolves same_kind (SourceAllocator_free_page (D := D) page)) as Hfree by done.
  assert (∀ base n, evolves same_kind (SourceAllocator_scan_page (D := D) valid base n)) as Hscan.
  { intros base n. unfold SourceAllocator_scan_page. evolves_solve. }
  unfold SourceAllocator_initialize, SourceAllocator_create. evolves_solve.
Qed.

Lemma new_same_kind source ps valid sa : SourceAllocator_new source ps valid = Ok sa →
  SourceAllocator_is_byte_addressable sa = source_is_byte_addressable source.
Proof.
  intros Hnew%SourceAllocator_new_inv. pose proof (same_kind_initialize valid (mk_SourceAllocator source [] ps)) as H.
  by rewrite Hnew in H.
Qed.

Lemma same_kind_read_into page off len : evolves same_kind (SourceAllocator_read_into (D := D) page off len).
Proof. unfold SourceAllocator_read_into. evolves_solve. Qed.

(** ** Without memory *)
Definition storage (e : LogicalAddress * SourceAllocator D) : Prop := SourceAllocator_is_byte_addressable e.2 = false.
Definition no_memory las : Prop := Forall storage (las_sources las).

Lemma storage_insert b sa (l : list (LogicalAddress * SourceAllocator D)) : storage (b, sa) → Forall storage l →
  Forall storage (btree_insert b sa l).
Proof.
  intros Hsa Hl. induction Hl as [|[k v] l Hk Hl IH]; cbn [btree_insert]; [by constructor|].
  do 2 (case_decide; [by repeat constructor|]). by constructor.
Qed.

Lemma no_memory_alloc las : no_memory las → LogicalAddressSpace_alloc las = (Err NoAvailableMemory, las).
Proof.
  intros Hl. apply LogicalAddressSpace_alloc_none.
  destruct (LogicalAddressSpace_get_best_byte_addressable las) as [[b sa]|] eqn:Hbest; [|done].
  apply find_some in Hbest as [Hin%list_elem_of_In Hb]. unfold no_memory in Hl. rewrite Forall_forall in Hl.
  specialize (Hl _ Hin). unfold storage in Hl. congruence.
Qed.

Lemma no_memory_on_allocator {A} b (m : M (SourceAllocator D) A) : evolves same_kind m →
  evolves (λ las las', no_memory las → no_memory las') (on_allocator b m).
Proof.
  intros Hm las Hl. unfold on_allocator. destruct (btree_get b (las_sources las)) as [sa|] eqn:Hg; [|done].
  specialize (Hm sa). destruct (m sa) as [o sa']. cbn [snd] in *. unfold no_memory in *. cbn [with_sources las_sources].
  induction (las_sources las) as [|[k v] l IH]; [done|]. cbn [btree_set btree_get] in *.
  apply Forall_cons in Hl as [Hv Hl]. case_decide; constructor; try done.
  - injection Hg as ->. unfold storage, same_kind in *. cbn [snd] in *. congruence.
  - by apply IH.
Qed.

(** The page is fetched into memory. *)
Lemma no_memory_fetch slice las bytes las' : no_memory las → LogicalAddressSpace_fetch slice las ≠ (Ok bytes, las').
Proof.
  intros Hl E. unfold LogicalAddressSpace_fetch in E. apply bind_ok_inv in E as (ps & las1 & [= _ <-] & E).
  apply bind_ok_inv in E as ([offset data] & las2 & Hread & E). apply bind_ok_inv in E as (m & las3 & Halloc & _).
  assert (no_memory las2) as Hl2; [|by rewrite (no_memory_alloc las2 Hl2) in Halloc].
  assert (PreOrder (λ las las' : LAS, no_memory las → no_memory las')) as Hpre by (split; unfold Reflexive, Transitive; naive_solver).
  change las2 with ((Ok (offset, data), las2).2 : LAS). rewrite <- Hread. revert Hl.
  match goal with |- no_memory _ → no_memory (?m las).2 => assert (evolves (λ las las', no_memory las → no_memory las') m) as Hev; [|apply Hev] end.
  pose proof (λ b page off len, no_memory_on_allocator b _ (same_kind_read_into page off len)).
  unfold LogicalAddressSpace_with_source. evolves_solve.
Qed.

Lemma no_memory_load_root block las las' : no_memory las → las_root las = Block block → new_load_root las ≠ (Ok tt, las').
Proof.
  intros Hl Hroot E. unfold new_load_root in E. apply bind_ok_inv in E as (las0 & ? & [= <- <-] & E). rewrite Hroot in E.
  apply bind_ok_inv in E as (aligned & las1 & Halign & E). injection Halign as _ <-.
  apply bind_ok_inv in E as (bytes & las2 & Hfetch & _). by apply no_memory_fetch in Hfetch.
Qed.

(** The first loop of [new]. *)
Record storage_opening (acc : opening (D := D)) : Prop := {
  so_sources : Forall storage (op_sources acc);
  so_unallocated : op_unallocated acc = [];
  so_root root : op_root acc = Some root → ∃ block, root = Block block
}.

Lemma open_storage ps valid source acc acc' : source_is_byte_addressable source = false → storage_opening acc →
  new_open_source ps valid false acc source = Ok acc' → storage_opening acc'.
Proof.
  intros Hsource [Hs Hu Hr] Ho. unfold new_open_source in Ho.
  apply outcome_bind_ok_inv in Ho as (sa & Hnew & Ho). apply new_same_kind in Hnew. rewrite Hsource in Hnew.
  pose proof (same_kind_read_into (SourceAllocator_get_meta sa) 0 ps sa) as Hkind.
  destruct (SourceAllocator_read_into _ _ _ sa) as [data sa']. unfold same_kind in Hkind. cbn [snd] in Hkind. rewrite Hnew in Hkind.
  apply outcome_bind_ok_inv in Ho as (bytes & _ & Ho). apply outcome_bind_ok_inv in Ho as (meta & _ & Ho).
  destruct (Meta_is_valid meta); [|done]. unfold new_map_source in Ho.
  apply outcome_bind_ok_inv in Ho as (root & Hroot & Ho).
  assert (∀ r, root = Some r → ∃ block, r = Block block) as Hblock.
  { destruct (forallb _ _); [injection Hroot as <-; exact Hr|]. destruct (op_root acc); [done|].
    apply outcome_bind_ok_inv in Hroot as (address & _ & [= <-]). rewrite Hkind. intros r [= <-]. by eexists. }
  apply outcome_bind_ok_inv in Ho as (finish & _ & Ho). apply outcome_bind_ok_inv in Ho as (last & _ & Ho).
  apply outcome_bind_ok_inv in Ho as (mapped & _ & Ho). case_decide; [|done]. injection Ho as <-.
  split; [by apply storage_insert|done..].
Qed.

Lemma open_all_storage ps valid sources acc acc' : Forall (λ s, source_is_byte_addressable s = false) sources →
  storage_opening acc → fold_outcome (new_open_source ps valid false) acc sources = Ok acc' → storage_opening acc'.
Proof.
  intros Hs. revert acc. induction Hs as [|s sources Hb _ IH]; intros acc Hacc Ho; cbn [fold_outcome] in Ho.
  - by injection Ho as <-.
  - apply outcome_bind_ok_inv in Ho as (acc1 & H1 & Ho). apply (IH acc1); [|done]. by apply (open_storage ps valid s acc).
Qed.

(** ** With fresh memory *)
Lemma open_fresh_refused ps valid source sources acc acc' : is_pow2 ps → size_of_SourceHeader ≤ ps → size_of_Meta ≤ ps →
  fresh ps source → source ∈ sources → fold_outcome (new_open_source ps valid false) acc sources ≠ Ok acc'.
Proof.
  intros Hps Hh Hm Hf Hin. revert acc. induction sources as [|s sources IH]; intros acc Ho; [by apply not_elem_of_nil in Hin|].
  cbn [fold_outcome] in Ho. apply outcome_bind_ok_inv in Ho as (acc1 & H1 & Ho).
  apply elem_of_cons in Hin as [<-|Hin]; [|by apply (IH Hin acc1)].
  by destruct (open_fresh_created ps Hps Hh Hm valid false source acc acc1 Hf H1).
Qed.

(** C40: a heap cannot be opened again without a constructor for a new root
    object: whatever the files hold, with fresh memory next to them the
    memory is refused as uninitialized, and without memory the root cannot be
    fetched into a page.  [new] never succeeds. *)
Theorem Librarius_new_needs_constructor ps sources h : is_pow2 ps → size_of_SourceHeader ≤ ps → size_of_Meta ≤ ps →
  Forall (λ s, source_is_byte_addressable s = true → fresh ps s) sources →
  Librarius_new ps sources None ≠ Ok h.
Proof.
  intros Hps Hh Hm Hs E. unfold Librarius_new in E. apply outcome_bind_ok_inv in E as (las & E & _).
  cbn in E. unfold LogicalAddressSpace_new in E. apply outcome_bind_ok_inv in E as (acc & Hopen & E).
  destruct (decide (Exists (λ s, source_is_byte_addressable s = true) sources)) as [(s & Hin & Hb)%Exists_exists|Hnone].
  { rewrite Forall_forall in Hs. by apply (open_fresh_refused ps _ s sources _ acc Hps Hh Hm (Hs s Hin Hb) Hin) in Hopen. }
  apply open_all_storage in Hopen as [Hl Hu Hr]; [|..].
  - rewrite Hu in E. cbn [fold_outcome] in E. apply outcome_bind_ok_inv in E as (l & [= <-] & E).
    apply outcome_bind_ok_inv in E as (root & Hroot & E). destruct (op_root acc) as [r|]; [|done]. injection Hroot as <-.
    destruct (Hr r eq_refl) as [block ->].
    set (las0 := with_root _ _ _) in E. destruct (new_load_root las0) as [[[]|] las1] eqn:Hload; [|done].
    by apply (no_memory_load_root block las0 las1) in Hload.
  - apply Forall_Exists_neg in Hnone. apply (Forall_impl _ _ _ Hnone). intros s. apply not_true_is_false.
  - by split.
Qed.
End Reopen.
