(* ===== verification/Blocks.v ===== *)
(** * Writing through a pointer to storage

    [Transaction::write] reads the object into memory through a copy of the
    pointer, and then compares the pointer with the copy's address, from which
    the tag is gone: a pointer with the tag of storage is never swung. *)
From S2P Require Import Prelude Utils Source SourceAllocator Slices Las Memory Pointer Vos.
From S2P Require Import Allocators Versions Objects Paging Tx Transactions Heap Runs Retries.

(** ** What reading leaves alone *)
Section Unchanged.
Context `{T : Target} `{TOk : !TargetOk T} `{C : Crc} {D : Type} `{Src : !Source D} `{Laws : !SourceLaws D}.
Abbreviation LAS := (LogicalAddressSpace D).
Implicit Types (las : LAS) (sa : SourceAllocator D).

Lemma on_allocator_unchanged {A} b (m : M (SourceAllocator D) A) : evolves eq m → evolves eq (on_allocator b m).
Proof.
  intros Hm las. unfold on_allocator. destruct (btree_get b (las_sources las)) as [sa|] eqn:Hg; [|done].
  specialize (Hm sa). destruct (m sa) as [o sa']. cbn [snd] in *. subst sa'. by rewrite btree_set_get, with_sources_id.
Qed.

Lemma las_load_unchanged b off n : evolves eq (las_load (D := D) b off n).
Proof. by apply on_allocator_unchanged. Qed.
#[local] Hint Resolve las_load_unchanged : evolves.

Lemma on_source_unchanged {A} (m : M D A) : evolves eq m → evolves eq (on_source m).
Proof.
  intros Hm sa. specialize (Hm (sa_source sa)). unfold on_source, zoom. destruct (m (sa_source sa)) as [o s].
  cbn [snd] in *. subst s. by destruct sa.
Qed.

Lemma get_bytes_unchanged page : evolves eq (SourceAllocator_get_bytes (D := D) page).
Proof.
  assert (evolves eq (on_source (D := D) (source_at (page_offset page) (page_len page)))) as Hat.
  { apply on_source_unchanged. intros s. by rewrite source_at_same. }
  unfold SourceAllocator_get_bytes. evolves_solve.
Qed.

Lemma cell_load_unchanged c : evolves eq (cell_load (D := D) c).
Proof. unfold cell_load, atomic_at. evolves_solve. Qed.
#[local] Hint Resolve cell_load_unchanged : evolves.

Lemma read_unchanged slice : evolves eq (LogicalAddressSpace_read (D := D) slice).
Proof.
  pose proof (λ b page, on_allocator_unchanged b _ (get_bytes_unchanged page)).
  unfold LogicalAddressSpace_read, LogicalAddressSpace_with_source. evolves_solve.
Qed.
#[local] Hint Resolve read_unchanged : evolves.

Lemma Version_read_unchanged c : evolves eq (Version_read (D := D) c).
Proof.
  unfold Version_read. generalize version_depth. intros fuel. revert c.
  induction fuel as [|fuel IH]; intros c; cbn [Version_read_loop]; [evolves_solve|]. unfold Version_real. evolves_solve.
Qed.
End Unchanged.

(** ** What fetching leaves alone *)
Section Fetch.
Context `{T : Target} `{TOk : !TargetOk T} `{C : Crc} {D : Type} `{Src : !Source D} `{Laws : !SourceLaws D}.
Abbreviation LAS := (LogicalAddressSpace D).
Implicit Types (las : LAS) (sa : SourceAllocator D).
Context (ga1 ga2 : GenericAllocator).

(** The two allocators of a transaction, and what is in use, do not notice. *)
Definition unnoticed las las' : Prop := allocators_inv las ga1 ga2 → allocators_step las ga1 las' ga1 ga2.

Lemma unnoticed_refl las : unnoticed las las.
Proof. intros Hal. split; try done. intros c Hc. split; [|done]. by intros v. Qed.

#[local] Instance unnoticed_preorder : PreOrder unnoticed.
Proof.
  split; [exact unnoticed_refl|].
  intros x y z Hxy Hyz Hal. destruct (Hxy Hal) as [A1 A2 A3 A4]. destruct (Hyz A1) as [B1 B2 B3 B4].
  split; [done|congruence|..].
  - intros c Hc. destruct (A3 c Hc) as [Hk Hc1]. destruct (B3 c Hc1) as [Hk1 Hc2]. split; [|done]. intros v Hv. by apply Hk1, Hk.
  - intros b off n Hn Hr. destruct (A4 b off n Hn Hr) as [Hm Hr1]. destruct (B4 b off n Hn Hr1) as [Hm1 Hr2]. by rewrite Hm1.
Qed.

Lemma unchanged_unnoticed {A} (m : M LAS A) : evolves eq m → evolves unnoticed m.
Proof. intros Hm las. by rewrite <- (Hm las). Qed.

(** Reading a page of a source. *)
Lemma read_into_unnoticed b page off n : evolves unnoticed (on_allocator (D := D) b (SourceAllocator_read_into page off n)).
Proof.
  intros las Hal. pose proof (ai_las _ _ _ Hal) as Hinv. unfold on_allocator.
  destruct (btree_get b (las_sources las)) as [sa|] eqn:Hg; [|by apply unnoticed_refl].
  assert (source_same (sa_source sa) (sa_source (SourceAllocator_read_into page off n sa).2) ∧
    sa_freelist (SourceAllocator_read_into page off n sa).2 = sa_freelist sa ∧
    sa_pagesize (SourceAllocator_read_into page off n sa).2 = sa_pagesize sa) as ([Hf Hb] & Hfree & Hps).
  { unfold SourceAllocator_read_into, mbind, M_bind, assert. case_bool_decide; [|done]. cbn [mret M_ret].
    unfold on_source, zoom. pose proof (source_read_same (page_offset page) n (sa_source sa)) as Hsame.
    by destruct (source_read _ n (sa_source sa)). }
  destruct (SourceAllocator_read_into page off n sa) as [o sa']. cbn [snd] in *.
  destruct (set_allocator las b sa sa' Hinv Hg Hf ltac:(by rewrite Hb) Hfree Hps) as (Hinv' & Hs & Hgb & Hne).
  set (las' := with_sources _ las) in *.
  assert (∀ b' o' n', mem las' b' o' n' = mem las b' o' n') as Hmem.
  { intros b' o' n'. unfold mem. destruct (decide (b' = b)) as [->|Hb']; [|by rewrite Hne].
    rewrite Hgb. unfold las_get. by rewrite Hg; simpl; rewrite Hb. }
  assert (∀ b' o', free_mem las' b' o' → free_mem las b' o') as Hfr.
  { intros b' o' (s & p & Hgs & Hp & Ho). destruct (decide (b' = b)) as [->|Hb'].
    - rewrite Hgb in Hgs. injection Hgs as <-. exists sa, p. rewrite <- Hfree. by split; [exact Hg|].
    - exists s, p. by rewrite <- Hne. }
  destruct Hal as [I1 I2 I3 I4 I5]. apply (alloc_frame_step las ga1 las' ga1 ga2); [done| |apply I5].
  split; try done.
  - by apply (ga_wf_kept las).
  - intros b' o' [Ha|Hf']; [by left|right; by apply Hfr].
Qed.

(** A block that nobody has is filled. *)
Lemma block_taken_fill las ga las' ga' b lo len off data : block_taken las ga las' ga' b lo len →
  byte_source las' b → is_Some (mem las' b off (blen data)) → lo ≤ off → off + blen data ≤ lo + len →
  block_taken las ga (put b off data las') ga' b lo len.
Proof.
  intros [B1 B2 B3 B4 B5 B6 B7] Hbs Hm Hlo Hhi. split.
  - by apply put_inv.
  - by apply ga_wf_put.
  - by rewrite las_shape_put.
  - intros b' o Hf. apply put_free_mem in Hf. by apply B4.
  - intros b' o Ho. rewrite owned_put in Ho. by apply B5.
  - intros b' o n Hap. rewrite mem_put_apart; [by apply B6|done|done|]. destruct Hap as [|Hap]; [by left|right].
    unfold apart in *. cbn [fst snd] in *. lia.
  - intros o Ho. rewrite owned_put. by apply B7.
Qed.

Lemma alloc_next las b page rest : las_inv las → next_page las = Some (b, page, rest) →
  LogicalAddressSpace_alloc las = (Ok (page_mutref b (las_pagesize las) page), take_page b rest las) ∧
  mutref_wf (take_page b rest las) (page_mutref b (las_pagesize las) page) ∧ byte_source (take_page b rest las) b.
Proof.
  intros Hinv Hn. destruct (fresh_page_frame las GenericAllocator_new b page rest Hinv Hn) as ([_ [F2 _] _ _ _ _] & _ & _).
  unfold next_page in Hn. destruct (LogicalAddressSpace_get_best_byte_addressable las) as [[b' sa]|] eqn:Hbest; [|done].
  simpl in Hn. destruct (sa_freelist sa) as [|page' rest'] eqn:Hfree; [done|]. injection Hn as -> -> ->.
  destruct (LogicalAddressSpace_alloc_ok las b sa page rest Hinv Hbest Hfree) as (Halloc & Hg & Hb).
  split; [done|]. split; [by apply F2|]. exists (with_freelist rest sa). by rewrite take_page_get, decide_True, Hg.
Qed.

Lemma alloc_no_page las : las_inv las → next_page las = None → LogicalAddressSpace_alloc las = (Err NoAvailableMemory, las).
Proof.
  intros Hinv Hn. apply LogicalAddressSpace_alloc_none. unfold next_page in Hn.
  destruct (LogicalAddressSpace_get_best_byte_addressable las) as [[b sa]|] eqn:Hbest; [|done].
  simpl in Hn. destruct (sa_freelist sa) eqn:Hfree; [|done]. split; [done|by apply best_byte_get].
Qed.

(** A page taken by somebody else. *)
Lemma taken_page las b page rest : allocators_inv las ga1 ga2 → next_page las = Some (b, page, rest) →
  block_taken las ga1 (take_page b rest las) ga1 b (page_offset page) (las_pagesize las) ∧ 0 < las_pagesize las.
Proof.
  intros [I1 I2 I3 I4 I5] Hn.
  destruct (fresh_page_frame las ga1 b page rest I1 Hn) as ([F1 [_ F2] F3 F4 F5 F6] & Hps & Hfree).
  assert (∀ o, page_offset page ≤ o < page_offset page + las_pagesize las →
    active_mem (mk_GenericAllocator (Some (page_mutref b (las_pagesize las) page))) b o) as Hact.
  { intros o Ho. eexists. split; [done|]. by split. }
  split; [|done]. split; try done.
  - by apply (ga_wf_kept las).
  - intros b' o [Ha|Hf]; [by left|right; by apply F5].
  - intros o Ho. specialize (Hact o Ho). split; [right; by apply Hfree|]. intros [Ha|Hf].
    + apply (ga_taken _ _ I2 b o Ha). by apply Hfree.
    + by apply (F2 b o).
Qed.

(** A page is taken and filled, by somebody else. *)
Lemma alloc_store_unnoticed data : evolves unnoticed (page ← LogicalAddressSpace_alloc (D := D); store_memref (lm_data page) data ;; mret page).
Proof.
  intros las Hal. pose proof (ai_las _ _ _ Hal) as Hinv.
  destruct (next_page las) as [[[b page] rest]|] eqn:Hn.
  - destruct (taken_page las b page rest Hal Hn) as [Hbt Hps].
    destruct (alloc_next las b page rest Hinv Hn) as (Ha & Hm & Hbs).
    rewrite (bind_ok _ _ _ _ _ Ha). set (las1 := take_page b rest las) in *.
    assert (allocators_step las ga1 las1 ga1 ga2) as Hstep1.
    { by destruct (block_taken_step las ga1 las1 ga1 ga2 b (page_offset page) (las_pagesize las) Hal Hbt (proj1 (ai_aligned _ _ _ Hal)) Hps). }
    unfold store_memref. cbn [page_mutref lm_data mr_len mr_source mr_off].
    destruct (decide (blen data = las_pagesize las)) as [Hlen|Hlen].
    + destruct (store_page las1 b (las_pagesize las) page data (bt_inv _ _ _ _ _ _ _ Hbt) Hm Hbs Hlen Hps) as (Hst & _ & Hmem).
      unfold store_memref in Hst. cbn [page_mutref lm_data mr_len mr_source mr_off] in Hst.
      rewrite (bind_ok _ _ _ _ _ Hst). cbn [mret M_ret snd].
      assert (is_Some (mem las1 b (page_offset page) (blen data))) as Hsome.
      { pose proof (mw_bytes _ _ Hm (las_pagesize las)) as Hr. cbn [page_mutref lm_data lm_slice mr_len ls_offset mr_source] in Hr.
        destruct (byte_range_mem las1 _ _ _ (inv_wf _ (bt_inv _ _ _ _ _ _ _ Hbt)) (Hr ltac:(lia))) as [_ Hsome].
        rewrite Hlen. replace (page_offset page) with (page_offset page + b - b + 0) by lia. apply Hsome; lia. }
      apply (block_taken_step las ga1 _ ga1 ga2 b (page_offset page) (las_pagesize las)); [done| |apply Hal|done].
      apply block_taken_fill; [done|done|done|lia..].
    + rewrite bool_decide_false by done. by rewrite (bind_fail _ _ _ Panic las1).
  - rewrite (bind_fail _ _ _ _ _ (alloc_no_page las Hinv Hn)). by apply unnoticed_refl.
Qed.

Lemma fetch_unnoticed slice : evolves unnoticed (LogicalAddressSpace_fetch (D := D) slice).
Proof.
  unfold LogicalAddressSpace_fetch. evolves_step; [evolves_solve|]. evolves_step.
  { pose proof read_into_unnoticed. unfold LogicalAddressSpace_with_source. evolves_solve. }
  evolves_step. intros las.
  match goal with |- context [store_memref _ ?data] => pose proof (alloc_store_unnoticed data las) as H; revert H end.
  unfold mbind, M_bind. destruct (LogicalAddressSpace_alloc las) as [[m|f] las1]; [|done].
  destruct (store_memref (lm_data m) _ las1) as [[u|f] las2]; [|done]. cbn [mret M_ret snd lift].
  by destruct (_ +! _).
Qed.

Lemma evolves_known {A B} (R : relation LAS) (m : M LAS A) (k : A → M LAS B) a : (∀ las, m las = (Ok a, las)) →
  evolves R (k a) → evolves R (m ≫= k).
Proof. intros Hm Hk las. rewrite (bind_ok _ _ _ a las) by done. apply Hk. Qed.

Lemma swap_local v current new las :
  UntypedPointer_compare_and_swap (OnStack v) current new las =
    (Ok (if decide (v = current) then (true, OnStack new) else (false, OnStack v)), las).
Proof. rewrite (compare_and_swap_ok las (OnStack v) v) by done. by case_decide. Qed.

(** A read through a local copy of a pointer, for a write. *)
Lemma reader_unnoticed fuel self v size : evolves unnoticed (VersionedReader_read (D := D) fuel self (OnStack v) size true).
Proof.
  pose proof (λ c, unchanged_unnoticed _ (Version_read_unchanged (D := D) c)).
  pose proof (λ slice, unchanged_unnoticed _ (read_unchanged (D := D) slice)). pose proof fetch_unnoticed.
  revert v. induction fuel as [|fuel IH]; intros v; cbn [VersionedReader_read]; [apply evolves_fail; apply _|].
  apply (evolves_known _ _ _ v); [done|]. destruct (negb _); [evolves_solve|]. apply (evolves_known _ _ _ v); [done|].
  evolves_step; [evolves_solve|]. evolves_step; [evolves_solve|]. evolves_step; [|evolves_solve].
  do 2 (evolves_step; [evolves_solve|]). intros las.
  rewrite (bind_ok _ _ _ _ _ (swap_local v v _ las)). by case_decide; apply IH.
Qed.

Lemma fetch_address slice las bytes las' : LogicalAddressSpace_fetch slice las = (Ok bytes, las') →
  is_usize (LogicalSlice_address (byte_slice bytes)).
Proof.
  unfold LogicalAddressSpace_fetch. intros E.
  apply bind_ok_inv in E as (ps & ? & _ & E). apply bind_ok_inv in E as ([off data] & ? & _ & E).
  apply bind_ok_inv in E as (page & ? & _ & E). apply bind_ok_inv in E as (? & ? & _ & E).
  apply bind_ok_inv in E as (address & ? & Ha & E). injection Ha as Ha _. injection E as <- _.
  by apply (wrapping_range usize_modulus) in Ha.
Qed.

(** The copy holds a word all along. *)
Lemma reader_pointer fuel self v size las u h p las' : is_usize v →
  VersionedReader_read fuel self (OnStack v) size true las = (Ok (u, h, p), las') → ∃ v', p = OnStack v' ∧ is_usize v'.
Proof.
  revert v las. induction fuel as [|fuel IH]; intros v las Hv E; cbn [VersionedReader_read] in E; [done|].
  rewrite (bind_ok _ _ _ v las) in E by done. destruct (negb _); [done|]. rewrite (bind_ok _ _ _ v las) in E by done.
  apply bind_ok_inv in E as (total & las0 & [_ <-]%pair_equal_spec & E).
  apply bind_ok_inv in E as (slice & las1 & [_ <-]%pair_equal_spec & E). destruct slice as [s|s].
  - apply bind_ok_inv in E as (total' & las2 & [_ <-]%pair_equal_spec & E).
    apply bind_ok_inv in E as (bytes & las3 & Hf & E). apply fetch_address in Hf.
    rewrite (bind_ok _ _ _ _ _ (swap_local v v _ las3)) in E. unfold UntypedPointer_new_from_byte in E.
    rewrite UntypedPointer_new_byte_eq in E. case_decide; by apply IH in E.
  - apply bind_ok_inv in E as (data & las2 & _ & E). apply bind_ok_inv in E as ([h1 u1] & las3 & _ & E).
    apply bind_ok_inv in E as (h2 & las4 & _ & E). apply bind_ok_inv in E as (version & las5 & _ & E).
    destruct (_ || _); [done|]. injection E as _ _ <- _. by exists v.
Qed.
End Fetch.

(** ** The write *)
Section BlockWrite.
Context `{T : Target} `{TOk : !TargetOk T} `{C : Crc} {D : Type} `{Src : !Source D} `{Laws : !SourceLaws D}.
Abbreviation TX := (M (Transaction * World D)).
Implicit Types (w : World D) (tx : Transaction).

(** A pointer in memory to an object in storage. *)
Record storage_pointer root w (pointer : cell) (raw : UntypedPointer) : Prop := {
  sp_inv : las_inv (w_las w);
  sp_memory : memory_cell (w_las w) pointer;
  sp_holds : cell_holds (w_las w) pointer raw;
  sp_block : UntypedPointer_is_byte_addressable raw = false;
  sp_in_use : tx_in_use (fresh_transaction root w) w pointer
}.

(** The state of a transaction that has gone on without success. *)
Definition gone_on tx w (s : Transaction * World D) : Prop := tx_step tx w s.1 s.2 ∧ tx_inv s.1 s.2.

Lemma gone_on_las tx w tx1 w1 las2 : gone_on tx w (tx1, w1) →
  unnoticed (tx_object_allocator tx1) (tx_log_allocator tx1) (w_las w1) las2 → gone_on tx w (tx1, with_las las2 w1).
Proof.
  intros [Hs Hi] Hu. cbn [fst snd] in *. specialize (Hu (ti_allocators _ _ Hi)).
  assert (tx_step tx1 w1 tx1 (with_las las2 w1)) as Hs2 by (destruct Hu; by split).
  split; [by eapply tx_step_trans|]. apply (tx_inv_step tx1 w1); [done..|apply Hu].
Qed.

(** The tag is not part of the address. *)
Lemma storage_word raw : UntypedPointer_is_byte_addressable raw = false → raw ≠ UntypedPointer_address raw.
Proof.
  unfold UntypedPointer_is_byte_addressable, UntypedPointer_type_bytes, UntypedPointer_address.
  intros Ht%bool_decide_eq_false Heq. apply Ht. rewrite Heq, <- Z.land_assoc. apply Z.land_0_r.
Qed.

(** A new object, filled with any bytes of its length. *)
Lemma gone_on_object tx w tx1 w1 size total v home other : gone_on tx w (tx1, w1) → own_version tx1 w1 v home →
  ObjectSize_total size = Ok total → 0 < total → aligned 8 total → is_usize other →
  ∃ result tx2 w2, on_object_allocator (TransactionalObjectAllocator_alloc size v other) (tx1, w1) = (result, (tx2, w2)) ∧
    gone_on tx w (tx2, w2) ∧
    ∀ ptr dst, result = Ok (ptr, dst) → ∀ bytes, gone_on tx w (tx2, with_las (store_memref dst bytes (w_las w2)).2 w2).
Proof.
  intros [Hs Hinv] Hown Hsize Ht Halt Ho. cbn [fst snd] in *. pose proof (ti_allocators _ _ Hinv) as Hal.
  destruct (object_alloc_ok (w_las w1) (tx_object_allocator tx1) size total v other) as (r & ga & las & Hr & Hga & Hres);
    [apply Hal|apply Hal|apply Hal|done|apply Hown|done|]. specialize (Hga Halt).
  assert (∀ las', allocators_step (w_las w1) (tx_object_allocator tx1) las' ga (tx_log_allocator tx1) →
    gone_on tx w (set_object_allocator ga tx1, with_las las' w1)) as Hgo.
  { intros las' Hstep. pose proof (object_step tx1 w1 ga las' Hstep) as Htx. split; [by eapply tx_step_trans|].
    apply (tx_inv_step tx1 w1); [done..|apply Hstep]. }
  apply (on_object_allocator_eq _ tx1 w1) in Hr. exists r, (set_object_allocator ga tx1), (with_las las w1).
  split; [done|]. destruct r as [[ptr dst]|f].
  2:{ destruct Hres as [Hf _]. split; [|done]. by apply Hgo, alloc_frame_step. }
  destruct Hres as [Hbt _ Hrange Hdst _ _]. set (b := mr_source dst) in *. set (lo := ptr - size_of_ObjectHeader - b) in *.
  assert (0 < total + size_of_ObjectHeader) as Hlen0 by usize.
  assert (∀ las', block_taken (w_las w1) (tx_object_allocator tx1) las' ga b lo (total + size_of_ObjectHeader) →
    gone_on tx w (set_object_allocator ga tx1, with_las las' w1)) as Hgo'.
  { intros las' Hbt'. apply Hgo. by destruct (block_taken_step _ _ _ _ _ _ _ _ Hal Hbt' Hga Hlen0). }
  split; [by apply Hgo'|]. intros ptr' dst' [= <- <-] bytes. unfold store_memref.
  destruct (decide (blen bytes = mr_len dst)) as [Hlen|Hlen]; [rewrite bool_decide_true by done|rewrite bool_decide_false by done].
  2:{ rewrite (bind_fail _ _ _ Panic las) by done. by apply Hgo'. }
  rewrite (bind_ok _ _ _ tt las) by done. assert (mr_off dst = lo + size_of_ObjectHeader ∧ mr_len dst = total) as [Hoff Hmlen] by by rewrite Hdst.
  destruct (byte_range_mem las _ _ _ (inv_wf _ (bt_inv _ _ _ _ _ _ _ Hbt)) Hrange) as [Hbs Hmem].
  assert (is_Some (mem las b (mr_off dst) (blen bytes))) as Hm by (rewrite Hoff, Hlen, Hmlen; apply Hmem; usize).
  rewrite las_store_ok by done. apply Hgo'. apply block_taken_fill; (done || usize).
Qed.

(** The compare-and-swap expects the address, without the tag. *)
Lemma perform_misses w pointer raw new : cell_holds (w_las w) pointer raw → UntypedPointer_is_byte_addressable raw = false →
  TransactionWrite_perform (TransactionWrite_new pointer (UntypedPointer_address raw) new) w = (Ok false, w).
Proof.
  intros Hholds Htag. unfold TransactionWrite_perform. cbn [tw_dst tw_current tw_new]. rewrite UntypedPointer_new_byte_eq.
  pose proof (compare_and_swap_ok (w_las w) pointer raw (UntypedPointer_address raw) new Hholds) as Hcas.
  rewrite decide_False in Hcas by by apply storage_word.
  rewrite (bind_ok _ _ _ (false, pointer) w); [done|]. by rewrite (on_world_las_eq _ _ _ _ Hcas), with_las_id.
Qed.

Definition no_success {A} tx w (o : outcome A) (s : Transaction * World D) : Prop :=
  (∀ a, o ≠ Ok a) ∧ gone_on tx w s.

Lemma block_write_fails root w pointer raw size total fuel : storage_pointer root w pointer raw →
  ObjectSize_total size = Ok total → 0 < total → aligned 8 total →
  let tx := fresh_transaction root w in
  let result := Transaction_write fuel pointer size (tx, w) in no_success tx w result.1 result.2.
Proof.
  intros [Hinv Hmem Hholds Htag Huse] Hsize Hpos Hal. cbv zeta. set (tx := fresh_transaction root w) in *.
  pose proof (fresh_tx_inv root w Hinv) as Htx. unfold Transaction_write, UntypedPointer_clone.
  rewrite (bind_ok _ _ _ raw (tx, w)) by (apply on_tx_las_same; by apply cell_load_ok).
  assert (is_usize raw) as Hraw by (destruct Hmem as [(b & off & ->) _]; apply Hholds).
  destruct (write_version_ok tx w Htx) as (r & tx1 & w1 & Hr & Hinv1 & Hs1 & Hres).
  destruct r as [v|f]; step Hr; [|by split]. destruct Hres as (Hv & home & Hown & _).
  rewrite (bind_ok _ _ _ tx1 (tx1, w1)) by done. assert (gone_on tx w (tx1, w1)) as Hgo1 by done.
  destruct (VersionedReader_read fuel (tx_reader tx1) (OnStack raw) size true (w_las w1)) as [o las2] eqn:Hread.
  pose proof (reader_unnoticed (tx_object_allocator tx1) (tx_log_allocator tx1) fuel (tx_reader tx1) raw size (w_las w1)) as Hun.
  rewrite Hread in Hun. pose proof (gone_on_las tx w tx1 w1 las2 Hgo1 Hun) as Hgo2.
  pose proof (on_tx_las_eq _ tx1 w1 _ _ Hread) as Hstep. destruct o as [[[u h] p]|f]; step Hstep; [|by split].
  apply reader_pointer in Hread as (v' & -> & Hv'); [|done]. set (w2 := with_las las2 w1) in *.
  rewrite (bind_ok _ _ _ v' (tx1, w2)) by by apply on_tx_las_same.
  assert (own_version tx1 w2 v home) as Hown2.
  { apply (own_version_step tx1 w1); [|done]. destruct (Hun (ti_allocators _ _ Hinv1)). by split. }
  destruct (gone_on_object tx w tx1 w2 size total v home v' Hgo2 Hown2 Hsize Hpos Hal Hv') as (r & tx3 & w3 & Hobj & Hgo3 & Hstore).
  destruct r as [[ptr dst]|f]; step Hobj; [|by split].
  destruct (load_memref u (w_las w3)) as [o las4] eqn:Hload.
  assert (las4 = w_las w3) as -> by (pose proof (las_load_unchanged (mr_source u) (mr_off u) (mr_len u) (w_las w3)) as H; unfold load_memref in Hload; by rewrite Hload in H).
  apply (on_tx_las_same _ tx3) in Hload. destruct o as [bytes|f]; step Hload; [|by split].
  specialize (Hstore ptr dst eq_refl bytes). destruct (store_memref dst bytes (w_las w3)) as [o las5] eqn:Hst.
  apply (on_tx_las_eq _ tx3 w3) in Hst. cbn [snd] in Hstore. set (w5 := with_las las5 w3) in *. destruct o as [[]|f]; step Hst; [|by split].
  assert (cell_holds (w_las w5) pointer raw) as Hholds5 by by apply (ts_kept _ _ _ _ (proj1 Hstore)).
  pose proof (on_world_eq _ tx3 _ _ _ (perform_misses w5 pointer raw ptr Hholds5 Htag)) as Hperf. step Hperf. by split.
Qed.

(** The pointer is as it was, for the next attempt. *)
Lemma storage_pointer_again root w pointer raw s : storage_pointer root w pointer raw →
  gone_on (fresh_transaction root w) w s → storage_pointer root s.2 pointer raw.
Proof.
  intros [Hinv Hmem Hholds Htag Huse] [Hs Hi]. destruct (ts_kept _ _ _ _ Hs _ Huse) as [Hkept Hused]. split; [| | |done|].
  - apply (ai_las _ _ _ (ti_allocators _ _ Hi)).
  - by apply (memory_cell_shape (w_las w)); [apply Hs|].
  - by apply Hkept.
  - by apply (fresh_in_use root s.1).
Qed.

(** An attempt to write it. *)
Lemma block_attempt {R} root w pointer raw size total fuel (rest : memref → TX R) : storage_pointer root w pointer raw →
  ObjectSize_total size = Ok total → 0 < total → aligned 8 total →
  let '(o, w') := Librarius_run_once root (writes_first fuel pointer size rest) w in
  (∀ r, o ≠ Ok r) ∧ storage_pointer root w' pointer raw.
Proof.
  intros Hsp Hsize Hpos Hal. pose proof (block_write_fails root w pointer raw size total fuel Hsp Hsize Hpos Hal) as Hw.
  cbv zeta in Hw. set (tx := fresh_transaction root w) in *.
  destruct (Transaction_write fuel pointer size (tx, w)) as [[dst|f] [tx' w']] eqn:Hwrite; [by destruct Hw as [Hw _]; destruct (Hw dst)|].
  destruct Hw as [_ Hgo]. cbn [snd] in Hgo. pose proof (storage_pointer_again root w pointer raw _ Hsp Hgo) as Hsp'. cbn [snd] in Hsp'.
  assert (writes_first fuel pointer size rest (tx, w) = (Fail f, (tx', w'))) as Hf by by apply bind_fail.
  assert (tx_writeset tx' = []) as Hws by apply (ts_writeset _ _ _ _ (proj1 Hgo)).
  destruct f as [e| | |]; [by rewrite (run_once_fails root _ w e tx' w')|..];
    unfold Librarius_run_once; rewrite in_transaction_eq; fold tx; unfold mbind, M_bind, attempt; by rewrite Hf.
Qed.

(** C39: an object in storage cannot be written through its pointer: [run] of a
    closure that writes it first never succeeds, however often it is retried,
    whatever the sources answer, and leaves the pointer as it was.  The object
    is read into memory through a copy of the pointer, so that the swap
    expects the copy's address while the pointer still has the tag of
    storage. *)
Theorem block_write_never_succeeds {R} root w pointer raw size total fuel (rest : memref → TX R) k :
  storage_pointer root w pointer raw → ObjectSize_total size = Ok total → 0 < total → aligned 8 total →
  let '(o, w') := Librarius_run k root (writes_first fuel pointer size rest) w in
  (∀ r, o ≠ Ok r) ∧ storage_pointer root w' pointer raw.
Proof.
  intros Hsp Hsize Hpos Hal. revert w Hsp. induction k as [|k IH]; intros w Hsp; [by split|].
  pose proof (block_attempt root w pointer raw size total fuel rest Hsp Hsize Hpos Hal) as Ha.
  destruct (Librarius_run_once root (writes_first fuel pointer size rest) w) as [o w1] eqn:Hrun. destruct Ha as [Hno Hsp1].
  destruct (is_aborted o) as [->|Hne].
  - rewrite (run_aborted root _ k w w1 Hrun). by apply IH.
  - by rewrite (run_step root _ k w o w1 Hrun Hne).
Qed.
End BlockWrite.
