(* ===== verification/Checks.v ===== *)
(** * Checks

    The conditions of the theorems about address spaces as boolean functions,
    to be evaluated on a concrete heap. *)
From Stdlib Require Import Sorting.Sorted.
From S2P Require Import Prelude Utils Source SourceAllocator Slices Las Memory Pointer Vos.
From S2P Require Import Allocators Versions Objects Tx Transactions.

Section Checks.
Context {D : Type} `{Src : !Source D} `{Laws : !SourceLaws D}.
Implicit Types (las : LogicalAddressSpace D).

Definition page_fitsb (ps size : Z) (p : Page) : bool :=
  bool_decide (page_len p = ps ∧ page_offset p mod ps = 0 ∧ 2 * ps ≤ page_offset p ∧
    page_offset p + ps ≤ size).

Fixpoint increasing (ks : list Z) : bool :=
  match ks with
  | [] => true
  | k :: ks => forallb (λ k', bool_decide (k < k')) ks && increasing ks
  end.

Definition source_fitsb las (e : Z * SourceAllocator D) : bool :=
  let ps := las_pagesize las in let size := blen (source_bytes (sa_source e.2)) in
  bool_decide (0 ≤ e.1 ∧ e.1 mod ps = 0 ∧ e.1 + size < 2 ^ 54 ∧ sa_pagesize e.2 = ps) &&
  forallb (page_fitsb ps size) (sa_freelist e.2) && increasing (page_offset <$> sa_freelist e.2) &&
  forallb (λ k, bool_decide (e.1 < k → e.1 + size / ps * ps ≤ k)) (las_sources las).*1.

(** The invariant of an address space, as a test. *)
Definition las_invb (k : Z) las : bool :=
  bool_decide (0 ≤ k < 63 ∧ las_pagesize las = 2 ^ k) && increasing (las_sources las).*1 &&
  forallb (source_fitsb las) (las_sources las).

Lemma increasing_sorted ks : increasing ks = true → StronglySorted Z.lt ks.
Proof.
  induction ks as [|k ks IH]; simpl; [constructor|]. rewrite andb_true_iff, forallb_forall. intros [Hk Hks].
  constructor; [auto|]. apply Forall_forall. intros x Hx. apply list_elem_of_In in Hx.
  specialize (Hk x Hx). by apply bool_decide_eq_true in Hk.
Qed.

Lemma las_invb_ok k las : las_invb k las = true → las_inv las.
Proof.
  unfold las_invb. rewrite !andb_true_iff, bool_decide_eq_true, forallb_forall.
  intros [[[Hk Hps] Hkeys] Hall]. apply increasing_sorted in Hkeys.
  pose proof (sorted_nodup _ Hkeys) as Hnd.
  assert (∀ b sa, las_get las b = Some sa → source_fitsb las (b, sa) = true) as Hget.
  { intros b sa Hg. apply Hall, list_elem_of_In. by apply btree_get_elem_2. }
  assert (is_pow2 (las_pagesize las)) as Hpow by by exists k.
  pose proof (is_pow2_range _ Hpow) as Hrange.
  assert (∀ b sa, las_get las b = Some sa → 0 ≤ b ∧ b mod las_pagesize las = 0 ∧
    b + blen (source_bytes (sa_source sa)) < 2 ^ 54 ∧ sa_pagesize sa = las_pagesize las ∧ allocator_wf sa ∧
    ∀ b', b' ∈ (las_sources las).*1 → b < b' →
      b + blen (source_bytes (sa_source sa)) / las_pagesize las * las_pagesize las ≤ b') as Hfacts.
  { intros b sa Hg. specialize (Hget b sa Hg). unfold source_fitsb in Hget. cbn [fst snd] in Hget.
    rewrite !andb_true_iff, bool_decide_eq_true, !forallb_forall in Hget.
    destruct Hget as [[[(H0 & Hm & Hlt & Hp) Hpages] Hinc] Hlay]. split_and!; try done.
    - pose proof (blen_nonneg (source_bytes (sa_source sa))).
      split; rewrite ?Hp; [done|usize| |].
      + apply Forall_forall. intros p Hin. apply list_elem_of_In in Hin. specialize (Hpages p Hin).
        apply bool_decide_eq_true in Hpages as (H1 & H2 & H3 & H4). split_and!; try done.
        apply Z.mod_divide; [lia|done].
      + apply (NoDup_fmap_1 page_offset). by apply sorted_nodup, increasing_sorted.
    - intros b' Hin Hb. apply list_elem_of_In in Hin. specialize (Hlay b' Hin).
      apply bool_decide_eq_true in Hlay. by apply Hlay. }
  split.
  - split; [done|done|]. intros b sa Hg. destruct (Hfacts b sa Hg) as (? & _ & ? & ? & _). split_and!; [done|usize|done].
  - intros b sa Hg. by apply (Hfacts b sa Hg).
  - intros b sa b' Hg. by apply (Hfacts b sa Hg).
  - done.
  - intros b sa Hg. by apply (Hfacts b sa Hg).
  - intros b Hb. apply list_elem_of_fmap in Hb as ([b' sa] & -> & Hin).
    destruct (Hfacts b' sa) as (_ & Hm & _); [by apply btree_get_elem|]. apply Z.mod_divide; [lia|done].
Qed.

(** A range of bytes, as a test. *)
Definition byte_rangeb las (a len b : Z) : bool :=
  bool_decide (las_home las a = Some b ∧ 0 < len ∧ (a - b) mod las_pagesize las + len ≤ las_pagesize las) &&
  match las_get las b with
  | Some sa => SourceAllocator_is_byte_addressable sa &&
      bool_decide ((a - b) - (a - b) mod las_pagesize las + las_pagesize las ≤ blen (source_bytes (sa_source sa)))
  | None => false
  end.

Lemma byte_rangeb_ok las a len b : byte_rangeb las a len b = true → byte_range las a len b.
Proof.
  unfold byte_rangeb. rewrite andb_true_iff, bool_decide_eq_true. intros [(H1 & H2 & H3) H4].
  destruct (las_get las b) as [sa|] eqn:Hg; [|done]. apply andb_true_iff in H4 as [H4 H5].
  apply bool_decide_eq_true in H5. split; try done. by exists sa.
Qed.

(** Memory no new allocator can hand out, as a test. *)
Definition range_usedb las (b off n : Z) : bool :=
  match las_get las b with
  | Some sa => forallb (λ p, bool_decide (page_offset p + page_len p ≤ off ∨ off + n ≤ page_offset p)) (sa_freelist sa)
  | None => true
  end.

Lemma range_usedb_ok las b off n : range_usedb las b off n = true →
  range_in_use las GenericAllocator_new GenericAllocator_new b off n.
Proof.
  unfold range_usedb. intros Hu. assert (range_unowned las GenericAllocator_new b off n); [|by split].
  intros o Ho [(m & ? & _)|(sa & p & Hg & Hp & Hrange)]; [done|]. rewrite Hg in Hu.
  rewrite forallb_forall in Hu. apply list_elem_of_In in Hp. specialize (Hu p Hp).
  apply bool_decide_eq_true in Hu. lia.
Qed.
End Checks.

