(* ===== verification/Scenarios.v ===== *)
(** * Concrete heaps

    A target, a checksum and small heaps on which the development's theorems
    apply, and executions of the model that show what the code does on them. *)
From S2P Require Import Prelude Utils Source SourceAllocator Slices Las Memory Opening Pointer.
From S2P Require Import Vos Allocators Versions Objects Paging Tx Transactions Heap Runs Checks.

(** ** A target *)

(** Overflow checks on, references aligned, fields in declaration order, zero
    padding. *)
#[export] Instance debug_target : Target := {
  overflow_checks := true;
  off_pointers := 0; off_data := 4; off_version := 8; off_parent := 16; off_other := 24;
  off_ls_offset := 0; off_ls_len := 8;
  off_meta_data := 0; off_meta_crc := 16; off_meta_root := 24;
  off_magic := 0; off_pagesize := 8; off_sh_data := 0; off_sh_crc := 16;
  padding n := replicate n Byte.x00;
  enforce_alignment := true; vec_address := 4096
}.

#[export] Instance debug_target_ok : TargetOk debug_target.
Proof.
  split; try (cbn; unfold within, apart; cbn; unfold size_of_ObjectHeader, size_of_LogicalSlice,
    size_of_Meta, size_of_SourceHeaderData, size_of_SourceHeader; repeat (split || constructor); cbn; lia).
  intros n. apply length_replicate.
Qed.

(** The same where references need not be aligned, as far as the processor is
    concerned: objects may have any size. *)
Definition relaxed_target : Target := {|
  overflow_checks := true;
  off_pointers := 0; off_data := 4; off_version := 8; off_parent := 16; off_other := 24;
  off_ls_offset := 0; off_ls_len := 8;
  off_meta_data := 0; off_meta_crc := 16; off_meta_root := 24;
  off_magic := 0; off_pagesize := 8; off_sh_data := 0; off_sh_crc := 16;
  padding n := replicate n Byte.x00;
  enforce_alignment := false; vec_address := 4096
|}.

Lemma relaxed_target_ok : TargetOk relaxed_target.
Proof.
  split; try (cbn; unfold within, apart; cbn; unfold size_of_ObjectHeader, size_of_LogicalSlice,
    size_of_Meta, size_of_SourceHeaderData, size_of_SourceHeader; repeat (split || constructor); cbn; lia).
  intros n. apply length_replicate.
Qed.

(** A checksum: the bytes as the digits of a number, modulo 2^32. *)
#[export] Instance sum_crc : Crc.
Proof.
  refine {| crc32 := λ l, foldr (λ b acc, (byte.unsigned b + 31 * acc) mod 2 ^ 32) 7 l |}.
  intros [|b l]; simpl; [by unfold is_u32, u32_modulus|]. by apply Z.mod_pos_bound.
Defined.

(** ** A heap in memory *)
Definition memory (n : Z) : DynSource :=
  Memory (mk_MemorySource (MemoryMap_from_existing 65536 (zeros n)) false).
Definition file (n : Z) : DynSource := OnFile (mk_FileSource (mk_File (zeros n) 0 [])).

(** An object of one word, without pointers. *)
Definition word_size : ObjectSize := ObjectSize_new 0 8.
Definition word_constructor (v : Z) : root_constructor DynSource :=
  λ data, on_world_las (store_memref data (u64_bytes v)).

Definition no_heap : Librarius DynSource :=
  mk_Librarius (mk_World (mk_LogicalAddressSpace [] 0 (Byte (mk_ByteLogicalSlice LogicalSlice_none))
    (mk_ByteLogicalSlice LogicalSlice_none) ∅) 0) (OnStack 0).
Definition opened (o : outcome (Librarius DynSource)) : Librarius DynSource :=
  match o with Ok h => h | Fail _ => no_heap end.

Definition memory_heap : Librarius DynSource :=
  opened (Librarius_new 128 [memory 1280] (Some (word_size, word_constructor 5))).

Definition memory_world : World DynSource := lr_world memory_heap.
Abbreviation memory_las := (w_las memory_world).
Definition memory_root : cell := lr_root memory_heap.

(** Heaps are only ever evaluated as a whole. *)
#[local] Opaque memory_heap memory_world memory_root.

(** Evaluation of a closed fact. *)
Ltac computed := vm_compute; reflexivity.
Ltac computed_range := vm_compute; split; [discriminate | reflexivity].

(** Two ranges of one source, at concrete offsets. *)
Ltac ranges := right; unfold apart; cbn; unfold size_of_usize, size_of_ObjectHeader; lia.

Lemma memory_las_inv : las_inv memory_las.
Proof. apply (las_invb_ok 7). computed. Qed.

(** The root pointer, at 184 of the meta page, and the root object at 288. *)
Lemma memory_root_eq : memory_root = InMemory 0 184.
Proof. computed. Qed.

Lemma memory_byte_source : byte_source memory_las 0.
Proof.
  assert (byte_range memory_las 0 128 0) as [_ _ _ (sa & Hg & Hb & _)] by (apply byte_rangeb_ok; computed).
  exists sa. exact (conj Hg Hb).
Qed.

Lemma memory_root_cell : memory_cell memory_las memory_root.
Proof. rewrite memory_root_eq. split; [by exists 0, 184|]. apply memory_byte_source. Qed.

Lemma memory_root_holds : cell_holds memory_las memory_root 288.
Proof. rewrite memory_root_eq. split; [computed|by vm_compute]. Qed.

Definition root_entry : entry := mk_entry 0 288 (InMemory 0 264) 1.

Lemma memory_chain : version_chain memory_las 8 288 [root_entry].
Proof.
  apply (chain_object _ _ _ _ 0).
  - computed.
  - computed.
  - computed.
  - by vm_compute.
  - apply byte_rangeb_ok. computed.
  - apply version_direct; [|done]. split; [computed|by vm_compute].
  - split; [computed|by vm_compute].
  - apply chain_none. computed.
Qed.

Definition memory_tx : Transaction := fresh_transaction memory_root memory_world.

Lemma memory_tx_inv : tx_inv memory_tx memory_world.
Proof. apply fresh_tx_inv, memory_las_inv. Qed.

Lemma memory_in_use b off n : range_usedb memory_las b off n = true →
  tx_range_in_use memory_tx memory_world b off n.
Proof. apply range_usedb_ok. Qed.

Lemma memory_writable : writable memory_tx memory_world memory_root word_size 8 288 [root_entry].
Proof.
  split.
  - apply memory_tx_inv.
  - computed.
  - done.
  - by intros _.
  - apply memory_root_cell.
  - apply memory_root_holds.
  - computed.
  - apply memory_chain.
  - rewrite memory_root_eq. apply memory_in_use. computed.
  - apply Forall_chain_cells. split_and!; [..|by constructor]; apply memory_in_use; computed.
  - constructor; [|by constructor]. apply memory_in_use. computed.
  - rewrite memory_root_eq. apply Forall_chain_cells.
    split_and!; [..|by constructor]; ranges.
  - by intros v home ?.
Qed.

(** *** After a write *)
Definition written_state : outcome memref * (Transaction * World DynSource) :=
  Transaction_write 5 memory_root word_size (memory_tx, memory_world).
Definition written_tx : Transaction := written_state.2.1.
Definition written_world : World DynSource := written_state.2.2.
#[local] Opaque memory_tx written_state written_tx written_world.

(** A state as the pair of its named parts. *)
Lemma state_eq {A B C} (p : A * (B * C)) a b c : p.1 = a → p.2.1 = b → p.2.2 = c → p = (a, (b, c)).
Proof. destruct p as [? [??]]. simpl. congruence. Qed.

Lemma state_inj {A B C} (a a' : A) (b b' : B) (c c' : C) :
  (a, (b, c)) = (a', (b', c')) → a' = a ∧ b' = b ∧ c' = c.
Proof. by intros [= -> -> ->]. Qed.

Lemma written_eq :
  Transaction_write 5 memory_root word_size (memory_tx, memory_world) =
    (Ok (mk_memref 0 544 8), (written_tx, written_world)).
Proof. apply state_eq; [computed|exact eq_refl|exact eq_refl]. Qed.

Lemma root_visible : visible (vr_version (tx_reader memory_tx)) root_entry = true.
Proof. computed. Qed.

(** The new version, its number in the transaction's version cell at 384. *)
Definition new_entry : entry := mk_entry 0 544 (InMemory 0 384) 0.
Definition written_version : Version := 384 + 2 ^ 63.

Lemma written_las_inv : las_inv (w_las written_world).
Proof. apply (las_invb_ok 7). computed. Qed.

Lemma written_byte_source : byte_source (w_las written_world) 0.
Proof.
  assert (byte_range (w_las written_world) 0 128 0) as [_ _ _ (sa & Hg & Hb & _)] by (apply byte_rangeb_ok; computed).
  exists sa. exact (conj Hg Hb).
Qed.

Lemma written_cell c : (∃ off, c = InMemory 0 off) → memory_cell (w_las written_world) c.
Proof. intros [off ->]. split; [by exists 0, off|]. apply written_byte_source. Qed.

Lemma written_version_at c : cell_holds (w_las written_world) c written_version →
  version_at (w_las written_world) c (InMemory 0 384) 0.
Proof.
  intros Hc. apply (version_indirect _ c 384 0 0).
  - exact Hc.
  - lia.
  - apply byte_rangeb_ok. computed.
  - split; [computed|by vm_compute].
  - lia.
Qed.

Lemma written_chain : version_chain (w_las written_world) 8 544 [new_entry; root_entry].
Proof.
  apply (chain_object _ _ _ _ 288).
  - computed.
  - computed.
  - computed.
  - by vm_compute.
  - apply byte_rangeb_ok. computed.
  - apply written_version_at. split; [computed|by vm_compute].
  - split; [computed|by vm_compute].
  - apply (chain_object _ _ _ _ 0).
    + computed.
    + computed.
    + computed.
    + by vm_compute.
    + apply byte_rangeb_ok. computed.
    + apply version_direct; [|by vm_compute]. split; [computed|by vm_compute].
    + split; [computed|by vm_compute].
    + apply chain_none. computed.
Qed.

Lemma written_root_holds : cell_holds (w_las written_world) memory_root 544.
Proof. rewrite memory_root_eq. split; [computed|by vm_compute]. Qed.

Lemma written_apart : Forall (entry_apart (InMemory 0 384)) [new_entry; root_entry].
Proof.
  constructor; [|constructor; [|by constructor]].
  - split_and!; [right; ranges|ranges|by left].
  - split_and!; [right; ranges|ranges|right; ranges].
Qed.

Lemma written_root_apart : cells_apart memory_root (InMemory 0 384).
Proof. rewrite memory_root_eq. ranges. Qed.

(** Another transaction, over the uncommitted write. *)
Definition second_tx : Transaction := fresh_transaction memory_root written_world.

Lemma second_writable : writable second_tx written_world memory_root word_size 8 544 [new_entry; root_entry].
Proof.
  split.
  - apply fresh_tx_inv, written_las_inv.
  - computed.
  - lia.
  - by intros _.
  - apply written_cell. rewrite memory_root_eq. by exists 184.
  - apply written_root_holds.
  - computed.
  - apply written_chain.
  - rewrite memory_root_eq. apply range_usedb_ok. computed.
  - apply Forall_chain_cells. split_and!; [..|apply Forall_chain_cells; split_and!; [..|by constructor]];
      apply range_usedb_ok; computed.
  - constructor; [apply range_usedb_ok; computed|]. constructor; [apply range_usedb_ok; computed|by constructor].
  - rewrite memory_root_eq. apply Forall_chain_cells.
    split_and!; [..|apply Forall_chain_cells; split_and!; [..|by constructor]];
      ranges.
  - by intros v home ?.
Qed.

(** ** The theorems at work: readers and commits *)
Definition passes : M (World DynSource) unit := mret tt.

Lemma VersionedReader_read_refines_witness :
  VersionedReader_read 5 (VersionedReader_new 1) memory_root word_size false (w_las written_world) =
    (Ok (mk_memref 0 288 8, mk_memref 0 256 32, memory_root), w_las written_world).
Proof.
  refine (eq_trans (VersionedReader_read_refines (w_las written_world) word_size 8 1 false 544
    [new_entry; root_entry] memory_root 5 _ _ _ _ _) _).
  - apply written_las_inv.
  - computed.
  - apply written_chain.
  - apply written_root_holds.
  - cbn. lia.
  - reflexivity.
Defined.

Lemma commit_keeps_snapshots_witness :
  (VersionedReader_read 5 (VersionedReader_new 1) memory_root word_size false
     (w_las (VersionedObjectStore_commit_version (OnStack written_version) passes written_world).2)).1 =
  (VersionedReader_read 5 (VersionedReader_new 1) memory_root word_size false (w_las written_world)).1.
Proof.
  apply (commit_keeps_snapshots written_world passes (OnStack written_version) (InMemory 0 384) 0 word_size 8 1 false
    544 [new_entry; root_entry] memory_root 5).
  - reflexivity.
  - apply written_las_inv.
  - apply written_version_at. reflexivity.
  - by vm_compute.
  - by exists 0, 384.
  - apply written_byte_source.
  - computed.
  - apply written_chain.
  - apply written_apart.
  - apply written_root_holds.
  - apply written_root_apart.
  - by vm_compute.
  - constructor; [done|]. by constructor; [|constructor].
  - cbn. lia.
Defined.

Lemma commit_publishes_witness :
  (∀ snapshot, VersionedReader_read 5 (VersionedReader_new snapshot) memory_root word_size true (w_las written_world) =
     (Err TxAborted, w_las written_world)) ∧
  let w' := (VersionedObjectStore_commit_version (OnStack written_version) passes written_world).2 in
  VersionedReader_read 5 (VersionedReader_new (w_version w')) memory_root word_size true (w_las w') =
    (Ok (en_data 8 new_entry, en_header new_entry, memory_root), w_las w').
Proof.
  apply (commit_publishes written_world passes (OnStack written_version) (InMemory 0 384) word_size 8 true
    544 new_entry [root_entry] memory_root 5).
  - reflexivity.
  - apply written_las_inv.
  - apply written_version_at. reflexivity.
  - by vm_compute.
  - by vm_compute.
  - by exists 0, 384.
  - apply written_byte_source.
  - computed.
  - apply written_chain.
  - reflexivity.
  - apply written_apart.
  - apply written_root_holds.
  - apply written_root_apart.
  - cbn. lia.
Defined.

(** ** The theorems at work: transactions *)
Lemma Transaction_write_ok_witness :
  ∃ result tx' w', Transaction_write 5 memory_root word_size (memory_tx, memory_world) = (result, (tx', w')) ∧
    tx_inv tx' w' ∧
    match result with
    | Ok dst => ∃ e', written memory_tx memory_world tx' w' memory_root 288 8 root_entry [] dst e'
    | Fail f => tx_step memory_tx memory_world tx' w' ∧
        (f = Throw AllocationTooLarge ∧ las_pagesize memory_las < 8 + size_of_ObjectHeader ∨
         f = Throw NoAvailableMemory)
    end.
Proof.
  apply (Transaction_write_ok memory_tx memory_world memory_root word_size 8 288 root_entry [] 5).
  - exact memory_writable.
  - exact root_visible.
  - cbn. lia.
Defined.

Lemma Transaction_write_twice_witness :
  Transaction_read 5 memory_root word_size (written_tx, written_world) =
    (Ok (en_data 8 root_entry), (written_tx, written_world)) ∧
  Transaction_write 5 memory_root word_size (written_tx, written_world) =
    (Err TxAborted, (written_tx, written_world)).
Proof.
  apply (Transaction_write_twice memory_tx memory_world memory_root word_size 8 288 root_entry [] 5 (mk_memref 0 544 8)).
  - exact memory_writable.
  - exact root_visible.
  - cbn. lia.
  - exact written_eq.
Defined.

Lemma Transaction_write_conflict_witness :
  ∃ f tx' w', Transaction_write 5 memory_root word_size (second_tx, written_world) = (Fail f, (tx', w')) ∧
    tx_inv tx' w' ∧ tx_step second_tx written_world tx' w' ∧
    (f = Throw TxAborted ∨ tx_version second_tx = None ∧ alloc_failure (w_las written_world) size_of_Version f).
Proof.
  apply (Transaction_write_conflict second_tx written_world memory_root word_size 8 544 new_entry [root_entry] 5).
  - exact second_writable.
  - reflexivity.
  - cbn. lia.
Defined.

Lemma Transaction_alloc_ok_witness :
  ∃ result tx' w', Transaction_alloc word_size (memory_tx, memory_world) = (result, (tx', w')) ∧ tx_inv tx' w' ∧
    tx_step memory_tx memory_world tx' w' ∧
    match result with
    | Ok (ptr, data) => ∃ e v,
        tx_version tx' = Some v ∧ own_version tx' w' v (en_home e) ∧ data = en_data 8 e ∧
        version_chain (w_las w') 8 ptr [e] ∧ en_version e = 0 ∧
        ∀ snapshot p fuel, cell_holds (w_las w') p ptr → (1 < fuel)%nat →
          VersionedReader_read fuel (VersionedReader_new snapshot) p word_size false (w_las w') =
            (Err InvalidLogicalAddress, w_las w')
    | Fail f => f = Throw AllocationTooLarge ∧ las_pagesize memory_las < 8 + size_of_ObjectHeader ∨
        f = Throw NoAvailableMemory
    end.
Proof.
  apply (Transaction_alloc_ok memory_tx memory_world word_size 8).
  - exact memory_tx_inv.
  - computed.
  - lia.
  - by intros _.
Defined.

(** The pointer the write swung. *)
Lemma written_writeset : tx_writeset written_tx = [TransactionWrite_new memory_root 288 544].
Proof. computed. Qed.

Lemma written_swung : Forall (swung (w_las written_world)) (tx_writeset written_tx).
Proof.
  rewrite written_writeset. constructor; [|by constructor]. split.
  - apply written_cell. rewrite memory_root_eq. by exists 184.
  - apply written_root_holds.
  - by vm_compute.
Qed.

Lemma written_writes_apart : writes_apart (tx_writeset written_tx).
Proof. rewrite written_writeset. constructor; constructor. Qed.

Lemma Transaction_abort_restores_witness :
  ∃ las', Transaction_abort (written_tx, written_world) = (Ok tt, (written_tx, with_las las' written_world)) ∧
    las_shape las' = las_shape (w_las written_world) ∧
    Forall (λ x, cell_holds las' (tw_dst x) (tw_current x)) (tx_writeset written_tx) ∧
    ∀ c v, Forall (λ x, cells_apart c (tw_dst x)) (tx_writeset written_tx) →
      cell_holds (w_las written_world) c v → cell_holds las' c v.
Proof. exact (Transaction_abort_restores written_tx written_world written_swung written_writes_apart). Defined.

Lemma Transaction_rollback_moved_witness :
  Transaction_abort (written_tx, memory_world) = (Fail Panic, (written_tx, memory_world)).
Proof.
  apply (Transaction_rollback_moved written_tx memory_world (TransactionWrite_new memory_root 288 544) 288).
  - exact written_writeset.
  - exact memory_root_cell.
  - exact memory_root_holds.
  - done.
Defined.

(** *** Committing the write *)
Definition committed_world : World DynSource := (Transaction_commit (written_tx, written_world)).2.2.
#[local] Opaque committed_world.

Lemma committed_eq : Transaction_commit (written_tx, written_world) = (Ok tt, (written_tx, committed_world)).
Proof. apply state_eq; [computed|computed|exact eq_refl]. Qed.

Lemma write_commit_visible_witness :
  (∀ snapshot, snapshot ≤ w_version memory_world →
     (VersionedReader_read 5 (VersionedReader_new snapshot) memory_root word_size false (w_las committed_world)).1 =
     (VersionedReader_read 5 (VersionedReader_new snapshot) memory_root word_size false memory_las).1) ∧
  ∀ abort, ∃ hdr,
    VersionedReader_read 5 (VersionedReader_new (w_version committed_world)) memory_root word_size abort (w_las committed_world) =
      (Ok (mk_memref 0 544 8, hdr, memory_root), w_las committed_world).
Proof.
  apply (write_commit_visible memory_tx memory_world memory_root word_size 8 288 root_entry [] 5 (mk_memref 0 544 8)
    written_tx written_world committed_world).
  - exact memory_writable.
  - exact root_visible.
  - cbn. lia.
  - computed.
  - by vm_compute.
  - by vm_compute.
  - exact written_eq.
  - exact committed_eq.
Defined.

(** The state of the transaction that wrote. *)
Lemma written_inv : tx_inv written_tx written_world ∧
  ∃ v home, tx_version written_tx = Some v ∧ own_version written_tx written_world v home.
Proof.
  destruct (write_result memory_tx memory_world memory_root word_size 8 288 root_entry [] 5 memory_writable root_visible
    ltac:(cbn; lia)) as (r & tx' & w' & Hr & Hi & Hres).
  apply (eq_trans (eq_sym written_eq)), state_inj in Hr as (-> & -> & ->). destruct Hres as (e' & Hwr & _). split; [exact Hi|].
  destruct (wr_made _ _ _ _ _ _ _ _ _ _ _ Hwr) as [v Hv]. exists v, (en_home e'). split; [exact Hv|].
  exact (wr_version _ _ _ _ _ _ _ _ _ _ _ Hwr v Hv).
Qed.

(** A transaction that has read the root for writing, and has a version. *)
Definition reading_tx : Transaction := set_readset [TransactionRead_new memory_root] memory_tx.

Lemma reading_tx_inv : tx_inv reading_tx memory_world.
Proof. destruct memory_tx_inv as [Hal _]. split; [exact Hal|]. intros v Hv. vm_compute in Hv. discriminate. Qed.

Lemma reading_in_use b off : range_usedb memory_las b off size_of_usize = true →
  tx_in_use reading_tx memory_world (InMemory b off).
Proof. intros Hu. destruct (memory_in_use b off _ Hu) as [H1 H2]. split; [exact H1|exact H2]. Qed.

Lemma Transaction_commit_read_for_write_witness :
  ∃ tx (w : World DynSource) las', tx_readset tx = [TransactionRead_new memory_root] ∧ is_Some (tx_version tx) ∧
    Transaction_commit (tx, w) = (Err TxAborted, (tx, mk_World las' (w_version w + 1))).
Proof.
  destruct (write_version_ok reading_tx memory_world reading_tx_inv) as (r & tx & w & Hr & Hinv & Hs & Hres).
  assert ((Transaction_write_version (reading_tx, memory_world)).1 = Ok written_version) as Hok by computed.
  rewrite Hr in Hok. cbn [fst] in Hok. subst r. destruct Hres as (Hv & home & Hown & _).
  assert (tx_readset tx = [TransactionRead_new memory_root]) as Hrs by (rewrite (ts_readset _ _ _ _ Hs); reflexivity).
  assert (tx_writeset tx = []) as Hws by (rewrite (ts_writeset _ _ _ _ Hs); computed).
  assert (Forall2 (newest (w_las w)) (tx_readset tx) [1]) as Hns.
  { rewrite Hrs. constructor; [|constructor]. exists 288, 8, root_entry, [].
    assert (tx_in_use reading_tx memory_world memory_root) as Huse
      by (rewrite memory_root_eq; apply reading_in_use; computed).
    split; [exact (proj1 (ts_kept reading_tx memory_world tx w Hs memory_root Huse) 288 memory_root_holds)|].
    split; [lia|]. split; [|reflexivity].
    apply (version_chain_step reading_tx memory_world tx w 8 288 [root_entry] Hs); [|exact memory_chain].
    apply Forall_chain_cells. split_and!; [..|by constructor]; apply reading_in_use; computed. }
  assert (is_usize (w_version w + 1)) as Hu by (rewrite (ts_counter _ _ _ _ Hs); clear; computed_range).
  assert (Forall (swung (w_las w)) (tx_writeset tx) ∧ writes_apart (tx_writeset tx)) as [Hsw Hord].
  { rewrite Hws. split; constructor. }
  pose proof (Transaction_commit_read_for_write tx w written_version home [1] Hv Hinv Hown Hu Hns Hsw Hord) as Hcommit.
  rewrite decide_True in Hcommit by (constructor; lia). destruct Hcommit as (las' & Hc & _).
  - exists tx, w, las'. split; [exact Hrs|]. split; [by exists written_version|exact Hc].
Defined.

(** *** Running closures *)
Abbreviation TX := (M (Transaction * World DynSource)).

Definition failing_write : TX unit :=
  Transaction_write 5 memory_root word_size ;; throw InvalidFlush.

Lemma failing_write_eq : failing_write (memory_tx, memory_world) = (Err InvalidFlush, (written_tx, written_world)).
Proof. unfold failing_write, mbind, M_bind. rewrite written_eq. exact eq_refl. Qed.

Lemma memory_tx_eq : memory_tx = fresh_transaction memory_root memory_world.
Proof. exact eq_refl. Qed.

Lemma Librarius_run_once_error_witness :
  ∃ las, Librarius_run_once memory_root failing_write memory_world = (Err InvalidFlush, with_las las written_world) ∧
    Forall (λ x, cell_holds las (tw_dst x) (tw_current x)) (tx_writeset written_tx) ∧
    ∀ c v, Forall (λ x, cells_apart c (tw_dst x)) (tx_writeset written_tx) →
      cell_holds (w_las written_world) c v → cell_holds las c v.
Proof.
  apply (Librarius_run_once_error memory_root failing_write memory_world written_tx written_world InvalidFlush).
  - rewrite <- memory_tx_eq. exact failing_write_eq.
  - exact written_swung.
  - exact written_writes_apart.
Defined.

Definition read_root : TX Z :=
  root ← Transaction_root;
  data ← Transaction_read 5 root word_size;
  bytes ← on_tx_las (load_memref data);
  mret (le_combine bytes).

Definition write_root (v : Z) : TX unit :=
  root ← Transaction_root;
  data ← Transaction_write 5 root word_size;
  on_tx_las (store_memref data (u64_bytes v)).

(** A closure whose first attempt reads for writing and allocates, which is
    aborted, and whose second attempt reads. *)
Definition second_time_lucky : TX Z :=
  self ← gets fst;
  if decide (vr_version (tx_reader self) = 1) then
    root ← Transaction_root;
    Transaction_read_for_write 5 root word_size ;;
    Transaction_alloc word_size ;;
    mret 0
  else read_root.

Definition first_attempt : World DynSource := (Librarius_run_once memory_root second_time_lucky memory_world).2.
Definition second_attempt : World DynSource := (Librarius_run_once memory_root second_time_lucky first_attempt).2.
#[local] Opaque first_attempt second_attempt.

Lemma pair_eq {A B} (p : A * B) a b : p.1 = a → p.2 = b → p = (a, b).
Proof. destruct p. simpl. congruence. Qed.

Lemma Librarius_run_retries_witness :
  Librarius_run 2 memory_root second_time_lucky memory_world = (Ok 5, second_attempt) ∧
  ∀ k, (Librarius_run k memory_root second_time_lucky memory_world).1 ≠ Err TxAborted.
Proof.
  apply (Librarius_run_retries memory_root second_time_lucky 1 memory_world first_attempt second_attempt (Ok 5) 2).
  - apply (aborted_more _ _ _ _ first_attempt); [|constructor].
    apply pair_eq; [computed|exact eq_refl].
  - apply pair_eq; [computed|exact eq_refl].
  - discriminate.
  - lia.
Defined.
