(* ===== verification/Devices.v ===== *)
(** * Concrete devices

    The theorems about sources, allocators and paging at concrete devices: a
    memory and a file of ten pages of 128 bytes each. *)
From S2P Require Import Prelude Utils Source SourceAllocator Slices Las Memory Opening Pointer.
From S2P Require Import Vos Allocators Versions Objects Paging Tx Transactions Heap Runs.
From S2P Require Import Checks Scenarios.

#[local] Opaque memory_heap memory_world memory_root.

(** ** Numbers and pointers *)
Lemma pow2_128 : is_pow2 128.
Proof. by exists 7. Qed.

Lemma align_up_least_witness :
  ∃ r, align_up 130 128 = Ok r ∧ (128 | r) ∧ 130 ≤ r ∧ ∀ m, (128 | m) → 130 ≤ m → r ≤ m.
Proof. apply (align_up_least 130 128); [computed_range|exact pow2_128|by vm_compute]. Defined.

Lemma align_up_overflow_witness : align_up (2 ^ 64 - 1) 128 = Fail Panic.
Proof.
  refine (eq_trans (align_up_overflow (2 ^ 64 - 1) 128 _ _ _) _); [computed_range|exact pow2_128|by vm_compute|done].
Defined.

Lemma UntypedPointer_refcount_is_address_witness :
  let counted := Z.lor (288 + 2 ^ 54) (Z.shiftl 7 56) in
  UntypedPointer_refcount counted = UntypedPointer_refcount (288 + 2 ^ 54) ∧
  byte.unsigned (UntypedPointer_refcount counted) = UntypedPointer_address counted mod 256.
Proof. apply (UntypedPointer_refcount_is_address (288 + 2 ^ 54) 7); computed_range. Defined.

(** ** Sources *)
Definition small_map : MemoryMap := MemoryMap_from_existing 65536 (zeros 8).

Lemma MemoryMap_at_bounds_witness : MemoryMap_at small_map 2 6 = Ok (Some (2, 6)) ∧
  MemoryMap_at small_map 2 7 = Ok None ∧ MemoryMap_at small_map (2 ^ 64 - 1) 1 = Fail Panic.
Proof.
  split_and!.
  - refine (eq_trans (MemoryMap_at_bounds small_map 2 6 _ _) _); [computed_range|computed_range|computed].
  - refine (eq_trans (MemoryMap_at_bounds small_map 2 7 _ _) _); [computed_range|computed_range|computed].
  - refine (eq_trans (MemoryMap_at_bounds small_map (2 ^ 64 - 1) 1 _ _) _); [computed_range|computed_range|computed].
Defined.

(** The base has offset 0 but is refused; one page behind the map is accepted. *)
Lemma MemorySource_offset_check_witness :
  (MemorySource_offset 65536 (mk_MemorySource small_map false)).1 = Err InvalidMemory ∧
  (MemorySource_offset 65700 (mk_MemorySource small_map false)).1 = Ok 164.
Proof.
  split.
  - refine (eq_trans (MemorySource_offset_check small_map false 65536 _ _ _) _);
      [computed_range|by vm_compute|computed_range|computed].
  - refine (eq_trans (MemorySource_offset_check small_map false 65700 _ _ _) _);
      [computed_range|by vm_compute|computed_range|computed].
Defined.

Definition memory_source : MemorySource := mk_MemorySource (MemoryMap_from_existing 65536 (zeros 1280)) false.
Definition file_source : FileSource := mk_FileSource (mk_File (zeros 1280) 0 []).

Lemma source_write_read_witness :
  (∃ s1, MemorySource_write 16 (u64_bytes 9) memory_source = (Ok tt, s1) ∧
     MemorySource_read 16 8 s1 = (Ok (u64_bytes 9), s1)) ∧
  (let '(written, s1) := FileSource_write 16 (u64_bytes 9) file_source in
   written = Ok tt ∧ (FileSource_read 16 8 s1).1 = Ok (u64_bytes 9)).
Proof.
  destruct (source_write_read 16 (u64_bytes 9)) as [Hmem Hfile]; [computed_range|]. split.
  - destruct (Hmem memory_source) as (s1 & H1 & H2 & _);
      [vm_compute; split_and!; discriminate|computed_range|]. exists s1. exact (conj H1 H2).
  - specialize (Hfile file_source ltac:(vm_compute; split_and!; discriminate) ltac:(computed_range)).
    destruct (FileSource_write 16 (u64_bytes 9) file_source) as [written s1].
    destruct Hfile as (_ & _ & _ & Hworks). apply Hworks; reflexivity.
Defined.

(** ** Allocators *)
Definition never_valid : list byte → outcome bool := λ _, Ok false.
Definition new_allocator : SourceAllocator DynSource :=
  match SourceAllocator_new (memory 1280) 128 never_valid with
  | Ok sa => sa
  | Fail _ => mk_SourceAllocator (memory 0) [] 0
  end.
#[local] Opaque new_allocator.

Lemma new_allocator_eq : SourceAllocator_new (memory 1280) 128 never_valid = Ok new_allocator.
Proof. computed. Qed.

Lemma SourceAllocator_new_free_pages_witness :
  sa_freelist new_allocator =
    seqZ 0 8 ≫= free_page_at never_valid (source_bytes (sa_source new_allocator)) 128 256.
Proof.
  destruct (SourceAllocator_new_free_pages (memory 1280) 128 never_valid new_allocator) as (_ & _ & Hfree & _).
  - exact pow2_128.
  - vm_compute. discriminate.
  - vm_compute. discriminate.
  - computed_range.
  - exact new_allocator_eq.
  - exact Hfree.
Defined.

(** A file is the source that can be opened twice. *)
Definition filed_allocator : SourceAllocator DynSource :=
  match SourceAllocator_new (file 1280) 128 never_valid with
  | Ok sa => sa
  | Fail _ => mk_SourceAllocator (file 0) [] 0
  end.
#[local] Opaque filed_allocator.

Lemma filed_allocator_eq : SourceAllocator_new (file 1280) 128 never_valid = Ok filed_allocator.
Proof. computed. Qed.

Lemma SourceAllocator_new_wrong_pagesize_witness :
  SourceAllocator_new (sa_source filed_allocator) 256 never_valid = Err (WrongPagesize 128 256).
Proof.
  refine (eq_trans (SourceAllocator_new_wrong_pagesize (file 1280) 128 256 never_valid never_valid filed_allocator
    _ _ _ _ _ _ _) _).
  - exact pow2_128.
  - vm_compute. discriminate.
  - vm_compute. discriminate.
  - split; vm_compute; discriminate.
  - computed_range.
  - exact filed_allocator_eq.
  - discriminate.
  - computed.
Defined.

Lemma memory_allocator : ∃ sa, las_get memory_las 0 = Some sa.
Proof.
  assert (is_Some (las_get memory_las 0)) as [sa Hsa]; [|by exists sa].
  assert (bool_decide (is_Some (las_get memory_las 0)) = true) as Hb by computed.
  by apply bool_decide_eq_true in Hb.
Qed.

Lemma SourceAllocator_allocate_page_ok_witness :
  ∃ sa : SourceAllocator DynSource, allocator_wf sa ∧
    match sa_freelist sa with
    | [] => SourceAllocator_allocate_page sa = (Err NoAvailableMemory, sa)
    | page :: rest =>
        SourceAllocator_allocate_page sa = (Ok page, with_freelist rest sa) ∧
        allocator_wf (with_freelist rest sa) ∧
        page_fits (sa_pagesize sa) (blen (source_bytes (sa_source sa))) page ∧
        Forall (λ q, apart (page_offset page, page_len page) (page_offset q, page_len q)) rest
    end.
Proof.
  destruct memory_allocator as [sa Hsa]. exists sa.
  pose proof (inv_allocators _ memory_las_inv 0 sa Hsa) as Hwf. split; [exact Hwf|].
  exact (SourceAllocator_allocate_page_ok sa Hwf).
Defined.

Lemma GenericAllocator_alloc_fresh_witness :
  ∃ result ga' las', GenericAllocator_alloc 40 (GenericAllocator_new, memory_las) = (result, (ga', las')) ∧
    las_inv las' ∧ ∀ b o n, mem las' b o n = mem memory_las b o n.
Proof.
  destruct (GenericAllocator_alloc_fresh memory_las GenericAllocator_new 40) as (r & ga & las & H1 & H2 & _ & H3 & _).
  - exact memory_las_inv.
  - apply ga_wf_new.
  - reflexivity.
  - exists r, ga, las. exact (conj H1 (conj H2 H3)).
Defined.

Lemma GenericAllocator_alloc_total_witness :
  GenericAllocator_alloc_loop 7 false 40 (GenericAllocator_new, memory_las) =
    alloc_spec memory_las GenericAllocator_new 40.
Proof.
  destruct (GenericAllocator_alloc_total memory_las GenericAllocator_new 40 7) as [Hloop _].
  - exact memory_las_inv.
  - apply ga_wf_new.
  - reflexivity.
  - lia.
  - exact Hloop.
Defined.

(** ** Memory *)
Lemma LogicalAddressSpace_write_read_witness :
  let slice := mk_ByteLogicalSlice (LogicalSlice_new 288 8) in
  ∃ r las', LogicalAddressSpace_write slice memory_las = (Ok r, memory_las) ∧
    store_memref r (u64_bytes 9) memory_las = (Ok tt, las') ∧
    LogicalAddressSpace_read slice las' = (Ok r, las') ∧ load_memref r las' = (Ok (u64_bytes 9), las').
Proof.
  destruct (LogicalAddressSpace_write_read memory_las 288 8 0 (u64_bytes 9)) as (r & las & H1 & H2 & H3 & H4 & _).
  - exact (inv_wf _ memory_las_inv).
  - apply byte_rangeb_ok. computed.
  - reflexivity.
  - exists r, las. exact (conj H1 (conj H2 (conj H3 H4))).
Defined.

(** ** A heap backed by a file *)
Section BackingCheck.
Context {D : Type} `{Src : !Source D} `{Laws : !SourceLaws D}.
Implicit Types (las : LogicalAddressSpace D).

Definition backedb las (backing : StoredLogicalSlice) (e : Z * SourceAllocator D) : bool :=
  let page := Page_new (LogicalSlice_address (StoredLogicalSlice_raw backing) - e.1) (las_pagesize las) in
  SourceAllocator_is_persistent e.2 &&
  bool_decide (page_len page = las_pagesize las ∧ page_offset page mod las_pagesize las = 0 ∧
    0 ≤ page_offset page ∧ page_offset page + las_pagesize las ≤ blen (source_bytes (sa_source e.2))) &&
  bool_decide (backing = backing_of las e.1 e.2 page).

(** The page table, as a test. *)
Definition backing_wfb las : bool :=
  forallb (λ entry, existsb (backedb las entry.2) (las_sources las)) (map_to_list (las_backing las)).

Lemma backing_wfb_ok las : las_inv las → backing_wfb las = true → backing_wf las.
Proof.
  intros Hinv Hb key backing Hk. pose proof (is_pow2_range _ (las_wf_pagesize _ (inv_wf _ Hinv))).
  unfold backing_wfb in Hb. rewrite forallb_forall in Hb.
  apply elem_of_map_to_list, list_elem_of_In, Hb, existsb_exists in Hk as ([d sd] & Hin & He).
  unfold backedb in He. cbn [fst snd] in He. rewrite !andb_true_iff, !bool_decide_eq_true in He.
  destruct He as [[Hp (H1 & H2 & H3 & H4)] Heq].
  exists d, sd, (Page_new (LogicalSlice_address (StoredLogicalSlice_raw backing) - d) (las_pagesize las)).
  split_and!; try done.
  - apply btree_get_elem; [apply Hinv|by apply list_elem_of_In].
  - split_and!; try done. apply Z.mod_divide; [lia|done].
Qed.
End BackingCheck.

Definition backed_heap : Librarius DynSource :=
  opened (Librarius_new 128 [memory 1280; file 1280] (Some (word_size, word_constructor 5))).
Definition backed_las : LogicalAddressSpace DynSource := w_las (lr_world backed_heap).

#[local] Opaque backed_heap backed_las.

Lemma backed_las_inv : las_inv backed_las.
Proof. apply (las_invb_ok 7). computed. Qed.

Lemma backed_backing_wf : backing_wf backed_las.
Proof. apply backing_wfb_ok; [exact backed_las_inv|computed]. Qed.

Lemma backed_range a len : byte_rangeb backed_las a len 0 = true → byte_range backed_las a len 0.
Proof. apply byte_rangeb_ok. Qed.

Lemma volatile_allocator : ∃ sa, las_get backed_las 0 = Some sa ∧ SourceAllocator_is_persistent sa = false.
Proof.
  assert ((SourceAllocator_is_persistent <$> las_get backed_las 0) = Some false) as Hp by computed.
  apply fmap_Some in Hp as (sa & Hg & Hp). exists sa. exact (conj Hg (eq_sym Hp)).
Qed.

(** Eight bytes of the volatile page at 512, which has no backing, written out
    and brought back. *)
Definition volatile_slice : ByteLogicalSlice := mk_ByteLogicalSlice (LogicalSlice_new 520 8).
Definition flushed_las : LogicalAddressSpace DynSource := (LogicalAddressSpace_flush volatile_slice backed_las).2.
Definition stored_slice : StoredLogicalSlice := StoredLogicalSlice_new (LogicalSlice_new 1672 8) false.
Definition fetched_las : LogicalAddressSpace DynSource := (LogicalAddressSpace_fetch stored_slice flushed_las).2.
#[local] Opaque flushed_las fetched_las.

Lemma flushed_eq : LogicalAddressSpace_flush volatile_slice backed_las = (Ok stored_slice, flushed_las).
Proof. apply pair_eq; [computed|exact eq_refl]. Qed.

Lemma flush_terminates_witness :
  flush_loop 9 volatile_slice backed_las = LogicalAddressSpace_flush volatile_slice backed_las.
Proof.
  apply (flush_terminates backed_las 520 8 0 9).
  - exact backed_las_inv.
  - apply backed_range. computed.
  - lia.
Defined.

Lemma flush_durable_witness :
  mem flushed_las 0 520 8 = mem backed_las 0 520 8 ∧ las_inv flushed_las ∧ backing_wf flushed_las ∧
  LogicalAddressSpace_get_backing volatile_slice flushed_las = (Ok (Some stored_slice), flushed_las).
Proof.
  destruct volatile_allocator as (sa & Hg & Hp).
  destruct (flush_durable backed_las 520 8 0 sa stored_slice flushed_las) as (_ & H).
  - exact backed_las_inv.
  - exact backed_backing_wf.
  - apply backed_range. computed.
  - exact Hg.
  - exact Hp.
  - exact flushed_eq.
  - exact H.
Defined.

Lemma fetched_eq : LogicalAddressSpace_fetch stored_slice flushed_las =
  (Ok (mk_ByteLogicalSlice (LogicalSlice_new 520 8)), fetched_las).
Proof. apply pair_eq; [computed|exact eq_refl]. Qed.

Lemma flush_fetch_roundtrip_witness :
  ∃ a' b', mk_ByteLogicalSlice (LogicalSlice_new 520 8) = mk_ByteLogicalSlice (LogicalSlice_new a' 8) ∧
    mem fetched_las b' (a' - b') 8 = mem backed_las 0 520 8.
Proof.
  destruct volatile_allocator as (sa & Hg & Hp).
  destruct (flush_fetch_roundtrip backed_las 520 8 0 sa stored_slice flushed_las
    (mk_ByteLogicalSlice (LogicalSlice_new 520 8)) fetched_las) as (a' & b' & H1 & _ & H3).
  - exact backed_las_inv.
  - exact backed_backing_wf.
  - apply backed_range. computed.
  - exact Hg.
  - exact Hp.
  - exact flushed_eq.
  - exact fetched_eq.
  - exists a', b'. exact (conj H1 H3).
Defined.

(** *** Its root when it is opened again *)
Definition file_allocator : SourceAllocator DynSource := default new_allocator (las_get backed_las 1280).
Definition stored_meta : Meta := Meta_decode (slice 128 128 (source_bytes (sa_source file_allocator))).
Definition nothing_opened : opening (D := DynSource) := mk_opening [] [] None.
Definition file_mapped : opening (D := DynSource) :=
  match new_map_source nothing_opened stored_meta file_allocator with Ok acc => acc | Fail _ => nothing_opened end.
#[local] Opaque file_allocator stored_meta file_mapped.

Lemma root_location_moves_witness :
  ∃ created reopened, new_choose_root backed_las = Ok created ∧ op_root file_mapped = Some reopened ∧
    ls_offset (StoredLogicalSlice_raw created) = 1432 ∧ ls_offset (StoredLogicalSlice_raw reopened) = 1304.
Proof.
  destruct (root_location_moves backed_las 1280 file_allocator stored_meta nothing_opened file_mapped)
    as (created & reopened & H1 & H2 & H3 & H4).
  - computed.
  - lia.
  - by vm_compute.
  - by vm_compute.
  - by vm_compute.
  - computed.
  - apply Exists_exists. exists Byte.x08. split; [|discriminate].
    assert (bool_decide (Byte.x08 ∈ meta_root stored_meta) = true) as Hb by computed.
    apply bool_decide_eq_true in Hb. exact Hb.
  - exact eq_refl.
  - computed.
  - exists created, reopened.
    assert (1280 + sa_pagesize file_allocator + off_meta_root = 1432) as Hc by computed.
    assert (1280 + off_meta_root = 1304) as Hr by computed.
    exact (conj H1 (conj H2 (conj (eq_trans H3 Hc) (eq_trans H4 Hr)))).
Defined.
