(* ===== verification/Executions.v ===== *)
(** * Executions

    What whole transactions do on concrete heaps: two that overlap over copied
    pointers, one on a heap with a file, and a heap that is opened again; the
    theorems of [Retries], [Blocks] and [Reopen] at work on these heaps. *)
From S2P Require Import Prelude Utils Source SourceAllocator Slices Las Memory Opening Pointer.
From S2P Require Import Vos Allocators Versions Objects Paging Tx Transactions Heap Runs.
From S2P Require Import Retries Reopen Blocks Mapping Checks Scenarios.

(** A closure run to its end on a heap. *)
Definition after {A} (h : Librarius DynSource) (m : TX A) : outcome A * Librarius DynSource :=
  let '(o, w) := Librarius_run 20 (lr_root h) m (lr_world h) in (o, mk_Librarius w (lr_root h)).

(** ** Two transactions at once *)

(** A root object of one pointer, to a child object of one word. *)
Definition node_size : ObjectSize := ObjectSize_new 8 0.
Definition node_constructor : root_constructor DynSource :=
  λ data, on_world_las (store_memref data (u64_bytes 0)).
Definition node_heap : Librarius DynSource :=
  opened (Librarius_new 128 [memory 2560] (Some (node_size, node_constructor))).

Definition add_child (v : Z) : TX unit :=
  root ← Transaction_root;
  node ← Transaction_write 5 root node_size;
  '(child, data) ← Transaction_alloc word_size;
  on_tx_las (store_memref data (u64_bytes v)) ;;
  on_tx_las (store_memref node (u64_bytes child)).

Definition read_child : TX Z :=
  root ← Transaction_root;
  node ← Transaction_read 5 root node_size;
  data ← Transaction_read 5 (memref_cell node 0) word_size;
  bytes ← on_tx_las (load_memref data);
  mret (le_combine bytes).

(** A new version of the root with the contents of the old one. *)
Definition rewrite_root : TX unit :=
  root ← Transaction_root;
  Transaction_write 5 root node_size ;;
  mret tt.

(** A new version of the child, found through the root. *)
Definition update_child (v : Z) : TX unit :=
  root ← Transaction_root;
  node ← Transaction_read 5 root node_size;
  data ← Transaction_write 5 (memref_cell node 0) word_size;
  on_tx_las (store_memref data (u64_bytes v)).

Definition parent_heap : Librarius DynSource := (after node_heap (add_child 1)).2.

(** [rewrite_root] and [update_child] from the same heap, the second committed
    before the first, and a [read_child] after both. *)
Definition overlapping_from (root : cell) (w : World DynSource) : list (outcome unit) * outcome Z :=
  let '(o1, (t1, w)) := rewrite_root (fresh_transaction root w, w) in
  let '(o2, (t2, w)) := update_child 2 (fresh_transaction root w, w) in
  let '(o3, (t2, w)) := Transaction_commit (t2, w) in
  let '(o4, (t1, w)) := Transaction_commit (t1, w) in
  let '(o5, w) := Librarius_run_once root read_child w in
  ([o1; o2; o3; o4], o5).
Definition overlapping : list (outcome unit) * outcome Z := overlapping_from (lr_root parent_heap) (lr_world parent_heap).

Definition one_after_the_other (first second : TX unit) : outcome Z :=
  let h := (after parent_heap first).2 in
  let h := (after h second).2 in
  (after h read_child).1.

(** Of two transactions that overlap, both succeed and the update of the one
    that committed first is gone, as it went to the copy of the pointer that
    the other has replaced; in either order one after the other it is there. *)
Example overlapping_update_lost :
  overlapping = ([Ok tt; Ok tt; Ok tt; Ok tt], Ok 1) ∧
  one_after_the_other rewrite_root (update_child 2) = Ok 2 ∧
  one_after_the_other (update_child 2) rewrite_root = Ok 2.
Proof. split_and!; vm_compute; reflexivity. Qed.

(** [update_child], and before it is aborted a [rewrite_root] that copies the
    pointer to its new version; then [read_child] and [update_child] on the
    heap the two have left. *)
Definition copied_then_aborted_from (root : cell) (w : World DynSource) : list (outcome unit) * outcome Z * World DynSource :=
  let '(o1, (t1, w)) := update_child 2 (fresh_transaction root w, w) in
  let '(o2, w) := Librarius_run 20 root rewrite_root w in
  let '(o3, (_, w)) := Transaction_abort (t1, w) in
  let '(o4, w) := Librarius_run_once root read_child w in
  ([o1; o2; o3], o4, w).
Definition copied_then_aborted : list (outcome unit) * outcome Z * World DynSource :=
  copied_then_aborted_from (lr_root parent_heap) (lr_world parent_heap).

(** An abort does not undo what others have copied: the new version of the
    root keeps a pointer to the version that was given up, which no commit will
    ever number.  Readers pass over it, but no transaction can write the
    object any more, though nobody else is running. *)
Example aborted_version_stays :
  copied_then_aborted.1 = ([Ok tt; Ok tt; Ok tt], Ok 1) ∧
  let w := copied_then_aborted.2 in
  (Librarius_run_once (lr_root parent_heap) (update_child 3) w).1 = Err TxAborted ∧
  (Librarius_run 100 (lr_root parent_heap) (update_child 3) w).1 = Err NoAvailableMemory.
Proof. cbv zeta. split_and!; vm_compute; reflexivity. Qed.

(** A write of the root object while another transaction has written it. *)
Lemma uncommitted_version_exhausts_memory_witness :
  pages_left (w_las written_world) = 5%nat ∧
  let attempt := writes_first 5 memory_root word_size (λ d, on_tx_las (store_memref d (u64_bytes 7))) in
  (∃ w', Librarius_run 3 memory_root attempt written_world = (Fail Diverge, w') ∧ pages_left (w_las w') = 2%nat) ∧
  (∃ w', Librarius_run 9 memory_root attempt written_world = (Err NoAvailableMemory, w') ∧ pages_left (w_las w') = 0%nat).
Proof.
  assert (pages_left (w_las written_world) = 5%nat) as Hpages by computed.
  assert (size_of_Version ≤ las_pagesize (w_las written_world)) as Hps by (by vm_compute).
  split; [exact Hpages|]. split.
  - destruct (uncommitted_version_exhausts_memory memory_root written_world memory_root word_size 8 544 new_entry [root_entry] 5
      (λ d, on_tx_las (store_memref d (u64_bytes 7))) 3) as (w' & _ & Hleft & Hrun & _).
    + exact second_writable.
    + reflexivity.
    + cbn. lia.
    + exact Hps.
    + rewrite Hpages in Hleft, Hrun. exists w'. exact (conj Hrun Hleft).
  - destruct (uncommitted_version_exhausts_memory memory_root written_world memory_root word_size 8 544 new_entry [root_entry] 5
      (λ d, on_tx_las (store_memref d (u64_bytes 7))) 9) as (w' & _ & Hleft & Hrun & _).
    + exact second_writable.
    + reflexivity.
    + cbn. lia.
    + exact Hps.
    + rewrite Hpages in Hleft, Hrun. exists w'. exact (conj Hrun Hleft).
Defined.

(** ** A heap with its root on a file *)
Definition file_heap : Librarius DynSource :=
  opened (Librarius_new 128 [memory 1280; file 1280] (Some (word_size, word_constructor 5))).

(** The free pages of each source. *)
Definition free_pages (h : Librarius DynSource) : list nat :=
  (λ e, length (sa_freelist e.2)) <$> las_sources (w_las (lr_world h)).

(** The write of the root object through its block pointer is aborted each time
    it is tried, until the volatile pages have run out: each attempt reads the
    object back into a page that nobody frees.  A transaction that reads the
    object first leaves a byte pointer behind, and then it can be written. *)
Example block_write_exhausts_memory :
  (after file_heap (write_root 6)).1 = Err NoAvailableMemory ∧
  free_pages file_heap = [6%nat; 7%nat] ∧
  free_pages (after file_heap (write_root 6)).2 = [0%nat; 7%nat] ∧
  (after file_heap read_root).1 = Ok 5 ∧
  let h := (after file_heap read_root).2 in
  (after h (write_root 6)).1 = Ok tt ∧ (after (after h (write_root 6)).2 read_root).1 = Ok 6.
Proof. cbv zeta. split_and!; vm_compute; reflexivity. Qed.

(** *** Opened again *)

(** The file of the heap, next to fresh memory. *)
Definition devices_again : list DynSource :=
  memory 1280 :: filter (λ s, source_is_persistent s = true)
    ((λ e, sa_source e.2) <$> las_sources (w_las (lr_world file_heap))).

(** What was stored is not found again: a heap on the file of an earlier one
    constructs a new root object, and without a constructor for one it is
    refused as uninitialized. *)
Example reopen_loses_root :
  (after file_heap read_root).1 = Ok 5 ∧
  (after (opened (Librarius_new 128 devices_again (Some (word_size, word_constructor 99)))) read_root).1 = Ok 99 ∧
  Librarius_new 128 devices_again None = Err OpenOnUninitialized.
Proof. split_and!; vm_compute; reflexivity. Qed.

(** The memory among the devices is fresh. *)
Lemma devices_fresh : Forall (λ s, source_is_byte_addressable s = true → fresh 128 s) devices_again.
Proof.
  assert (forallb (λ s, implb (source_is_byte_addressable s) (bool_decide (2 * 128 ≤ blen (source_bytes s) ∧ blen (source_bytes s) < usize_modulus ∧
    Meta_is_valid (Meta_decode (slice 128 128 (source_bytes s))) = false))) devices_again = true) as Hall by computed.
  rewrite forallb_forall in Hall. apply Forall_forall. intros s Hs Hb. specialize (Hall s). rewrite Hb in Hall.
  apply list_elem_of_In, Hall in Hs. cbn in Hs. apply bool_decide_eq_true in Hs as (H1 & H2 & H3).
  split; [exact H1|split; [apply blen_nonneg|exact H2]|exact H3].
Qed.

Lemma Librarius_new_needs_constructor_witness : Librarius_new 128 devices_again None ≠ Ok file_heap.
Proof.
  apply (Librarius_new_needs_constructor 128 devices_again file_heap).
  - by exists 7.
  - by vm_compute.
  - by vm_compute.
  - exact devices_fresh.
Defined.

(** *** Its root object, in storage *)
Definition file_world : World DynSource := lr_world file_heap.
Definition file_root : cell := lr_root file_heap.
#[local] Opaque file_heap file_world file_root.

Lemma file_root_eq : file_root = InMemory 0 312.
Proof. computed. Qed.

Lemma file_root_storage : storage_pointer file_root file_world file_root 18014398509483552.
Proof.
  assert (SourceAllocator_is_byte_addressable <$> las_get (w_las file_world) 0 = Some true) as Hb by computed.
  apply fmap_Some in Hb as (sa & Hg & Hb). split.
  - apply (las_invb_ok 7). computed.
  - rewrite file_root_eq. split; [by exists 0, 312|]. exists sa. exact (conj Hg (eq_sym Hb)).
  - rewrite file_root_eq. split; [computed|split; [usize|by intros _]].
  - reflexivity.
  - rewrite file_root_eq. apply range_usedb_ok. computed.
Qed.

Lemma block_write_never_succeeds_witness :
  let '(o, w) := Librarius_run 4 file_root (writes_first 5 file_root word_size (λ d, on_tx_las (store_memref d (u64_bytes 6)))) file_world in
  (∀ r, o ≠ Ok r) ∧ storage_pointer file_root w file_root 18014398509483552.
Proof.
  apply (block_write_never_succeeds file_root file_world file_root 18014398509483552 word_size 8 5).
  - exact file_root_storage.
  - computed.
  - lia.
  - by intros _.
Defined.
