(* ===== verification/Snapshot.v ===== *)
(** * Snapshot isolation, abstractly

    What the versioned object store promises to transactions that run side by
    side, without memory, pointers or allocation: a map from objects to their
    versions, the running transactions with the snapshots they read, and the
    steps a transaction takes.  [Isolation] shows that the program's
    transactions take these steps. *)
From Stdlib Require Import Sorting.Sorted.
From S2P Require Import Prelude Pointer Versions.

(** A running transaction: its snapshot, the cell of its version once it has
    one, and the objects it has written, in order. *)
Record running (K : Type) : Type := mk_running {
  ru_snapshot : Z;
  ru_home : option cell;
  ru_writes : list K
}.
Arguments mk_running {K}.
Arguments ru_snapshot {K}.
Arguments ru_home {K}.
Arguments ru_writes {K}.

(** The store: the number of the last commit, the versions of each object,
    newest first, and the running transactions. *)
Record mvstore (K : Type) `{Countable K} : Type := mk_mvstore {
  mv_counter : Z;
  mv_objects : gmap K (list entry);
  mv_running : gmap nat (running K)
}.
Arguments mk_mvstore {K _ _}.
Arguments mv_counter {K _ _}.
Arguments mv_objects {K _ _}.
Arguments mv_running {K _ _}.

Section MultiVersion.
Context {K : Type} `{Countable K}.
Implicit Types (m : mvstore K) (r : running K) (es : list entry).

(** The versions in [home] are given the number [n]. *)
Definition commit_objects (home : cell) (n : Z) (objects : gmap K (list entry)) : gmap K (list entry) :=
  (fmap (commit_entry home n) : list entry → list entry) <$> objects.

(** The newest version of each of the objects [ks] is taken back. *)
Definition undo_objects (ks : list K) (objects : gmap K (list entry)) : gmap K (list entry) :=
  map_imap (λ k es, Some (if decide (k ∈ ks) then tail es else es)) objects.

(** A transaction: it begins with the newest numbers for its snapshot, gets a
    version of its own, puts uncommitted versions in front of objects whose
    newest version it may see, and ends with a commit, or is given up; a
    commit that is refused uses up a number all the same. *)
Inductive mv_step : mvstore K → mvstore K → Prop :=
| mv_begin m i :
    mv_running m !! i = None →
    mv_step m (mk_mvstore (mv_counter m) (mv_objects m)
                 (<[i := mk_running (mv_counter m) None []]> (mv_running m)))
| mv_version m i r home :
    mv_running m !! i = Some r → ru_home r = None →
    (∀ k es e, mv_objects m !! k = Some es → e ∈ es → en_home e ≠ home) →
    (∀ j r', mv_running m !! j = Some r' → ru_home r' ≠ Some home) →
    mv_step m (mk_mvstore (mv_counter m) (mv_objects m)
                 (<[i := mk_running (ru_snapshot r) (Some home) (ru_writes r)]> (mv_running m)))
| mv_write m i r k e' e es :
    mv_running m !! i = Some r → ru_home r = Some (en_home e') → en_version e' = 0 →
    mv_objects m !! k = Some (e :: es) → visible (ru_snapshot r) e = true →
    mv_step m (mk_mvstore (mv_counter m) (<[k := e' :: e :: es]> (mv_objects m))
                 (<[i := mk_running (ru_snapshot r) (ru_home r) (ru_writes r ++ [k])]> (mv_running m)))
| mv_commit m i r home :
    mv_running m !! i = Some r → ru_home r = Some home →
    mv_step m (mk_mvstore (mv_counter m + 1) (commit_objects home (mv_counter m + 1) (mv_objects m))
                 (delete i (mv_running m)))
| mv_refuse m i r :
    mv_running m !! i = Some r →
    mv_step m (mk_mvstore (mv_counter m + 1) (undo_objects (ru_writes r) (mv_objects m))
                 (delete i (mv_running m)))
| mv_abort m i r :
    mv_running m !! i = Some r →
    mv_step m (mk_mvstore (mv_counter m) (undo_objects (ru_writes r) (mv_objects m))
                 (delete i (mv_running m))).

(** Committed versions: numbered up to the counter, newer in front of older. *)
Definition committed_versions (n : Z) es : Prop :=
  Forall (λ e, 0 < en_version e ≤ n) es ∧ StronglySorted (λ e e', en_version e' < en_version e) es.

(** An object's versions are committed, but for one in front at most. *)
Definition versions_ok (n : Z) es : Prop :=
  committed_versions n es ∨ ∃ e es', es = e :: es' ∧ en_version e = 0 ∧ committed_versions n es'.

Record mv_inv m : Prop := {
  mi_versions k es : mv_objects m !! k = Some es → versions_ok (mv_counter m) es;
  mi_counter : 0 ≤ mv_counter m;
  mi_snapshot i r : mv_running m !! i = Some r → ru_snapshot r ≤ mv_counter m;
  (** a running transaction's versions are not committed *)
  mi_own i r home k es e : mv_running m !! i = Some r → ru_home r = Some home →
    mv_objects m !! k = Some es → e ∈ es → en_home e = home → en_version e = 0;
  mi_homes i j r r' home : mv_running m !! i = Some r → mv_running m !! j = Some r' →
    ru_home r = Some home → ru_home r' = Some home → i = j;
  mi_distinct i r : mv_running m !! i = Some r → NoDup (ru_writes r);
  (** what it has written: its version in front of the one it could see *)
  mi_writes i r k : mv_running m !! i = Some r → k ∈ ru_writes r →
    ∃ e e0 es, mv_objects m !! k = Some (e :: e0 :: es) ∧ ru_home r = Some (en_home e) ∧
      visible (ru_snapshot r) e0 = true;
  (** an uncommitted version is a running transaction's *)
  mi_front k e es : mv_objects m !! k = Some (e :: es) → en_version e = 0 →
    ∃ i r, mv_running m !! i = Some r ∧ ru_home r = Some (en_home e) ∧ k ∈ ru_writes r
}.

Lemma visible_true s e : visible s e = true ↔ en_version e ≠ 0 ∧ en_version e ≤ s.
Proof. unfold visible. by rewrite andb_true_iff, !bool_decide_eq_true. Qed.

Lemma committed_versions_mono n n' es : n ≤ n' → committed_versions n es → committed_versions n' es.
Proof. intros Hn [Hc Hs]. split; [|done]. apply (Forall_impl _ _ _ Hc). lia. Qed.

Lemma versions_ok_mono n n' es : n ≤ n' → versions_ok n es → versions_ok n' es.
Proof.
  intros Hn [Hc|(e & es' & -> & He & Hc)]; [left|right; exists e, es'; split_and!; try done];
    by apply (committed_versions_mono n).
Qed.

Lemma versions_ok_tail n e es : versions_ok n (e :: es) → committed_versions n es.
Proof.
  intros [[Hc Hs]|(e' & es' & [= -> ->] & _ & ?)]; [|done].
  apply Forall_cons in Hc as [_ Hc]. by apply StronglySorted_inv in Hs as [Hs _].
Qed.

Lemma versions_ok_visible n e es s : versions_ok n (e :: es) → visible s e = true → committed_versions n (e :: es).
Proof.
  intros [?|(e' & es' & [= -> ->] & He & _)] Hv; [done|]. apply visible_true in Hv. lia.
Qed.

Lemma committed_nonzero n es e : committed_versions n es → e ∈ es → en_version e ≠ 0.
Proof. intros [Hc _] He. rewrite Forall_forall in Hc. specialize (Hc e He). lia. Qed.

(** A commit renumbers at most the version in front. *)
Lemma commit_entries_committed home n es v : committed_versions n es →
  (∀ e, e ∈ es → en_home e = home → en_version e = 0) → commit_entry home v <$> es = es.
Proof.
  intros Hc Hown. assert (Forall (λ e, en_home e ≠ home) es) as Hne.
  { apply Forall_forall. intros e He Heq. by apply (committed_nonzero n es e Hc He), Hown. }
  clear Hc Hown. induction Hne as [|e es He Hne IH]; csimpl; [done|]. rewrite IH. unfold commit_entry. by rewrite decide_False.
Qed.

Lemma commit_entries_ok home n es : 0 ≤ n → versions_ok n es →
  (∀ e, e ∈ es → en_home e = home → en_version e = 0) → versions_ok (n + 1) (commit_entry home (n + 1) <$> es).
Proof.
  intros Hn [Hc|(e & es' & -> & He & Hc)] Hown.
  - left. rewrite (commit_entries_committed home n) by done. by apply (committed_versions_mono n); [lia|].
  - csimpl. rewrite (commit_entries_committed home n es'); [|done|intros x Hx; apply Hown; by right].
    unfold commit_entry. case_decide.
    + left. destruct Hc as [Hc Hs]. split.
      * constructor; [simpl; lia|]. apply (Forall_impl _ _ _ Hc). lia.
      * constructor; [done|]. apply (Forall_impl _ _ _ Hc). simpl. lia.
    + right. exists e, es'. split_and!; try done. by apply (committed_versions_mono n); [lia|].
Qed.

Lemma undo_lookup ks objects k : undo_objects ks objects !! k =
  (λ es, if decide (k ∈ ks) then tail es else es) <$> objects !! k.
Proof. unfold undo_objects. rewrite map_lookup_imap. by destruct (objects !! k). Qed.

Lemma commit_lookup home n objects k : commit_objects home n objects !! k =
  (fmap (commit_entry home n) : list entry → list entry) <$> objects !! k.
Proof. unfold commit_objects. by rewrite lookup_fmap. Qed.

(** ** The invariant *)
Lemma begin_inv m i : mv_inv m → mv_running m !! i = None →
  mv_inv (mk_mvstore (mv_counter m) (mv_objects m) (<[i := mk_running (mv_counter m) None []]> (mv_running m))).
Proof.
  intros [I1 I2 I3 I4 I5 I6 I7 I8] Hi. split; cbn [mv_counter mv_objects mv_running]; try done.
  - intros j r Hj. apply lookup_insert_Some in Hj as [[<- <-]|[_ Hj]]; [done|eauto].
  - intros j r home k es e Hj. apply lookup_insert_Some in Hj as [[<- <-]|[_ Hj]]; [done|eauto].
  - intros j j' r r' home Hj Hj' Hh Hh'.
    apply lookup_insert_Some in Hj as [[<- <-]|[_ Hj]]; [done|].
    apply lookup_insert_Some in Hj' as [[<- <-]|[_ Hj']]; [done|eauto].
  - intros j r Hj. apply lookup_insert_Some in Hj as [[<- <-]|[_ Hj]]; [constructor|eauto].
  - intros j r k Hj. apply lookup_insert_Some in Hj as [[<- <-]|[_ Hj]]; [by intros ?%elem_of_nil|eauto].
  - intros k e es Hk He. destruct (I8 k e es Hk He) as (j & r & Hj & ?). exists j, r. by rewrite lookup_insert_ne by congruence.
Qed.

Lemma version_inv m i r home : mv_inv m → mv_running m !! i = Some r → ru_home r = None →
  (∀ k es e, mv_objects m !! k = Some es → e ∈ es → en_home e ≠ home) →
  (∀ j r', mv_running m !! j = Some r' → ru_home r' ≠ Some home) →
  mv_inv (mk_mvstore (mv_counter m) (mv_objects m)
    (<[i := mk_running (ru_snapshot r) (Some home) (ru_writes r)]> (mv_running m))).
Proof.
  intros [I1 I2 I3 I4 I5 I6 I7 I8] Hi Hn Hf Hf'. split; cbn [mv_counter mv_objects mv_running]; try done.
  - intros j r' Hj. apply lookup_insert_Some in Hj as [[<- <-]|[_ Hj]]; [by apply (I3 i r)|eauto].
  - intros j r' h k es e Hj. apply lookup_insert_Some in Hj as [[<- <-]|[_ Hj]]; [|eauto].
    intros [= <-] Hk He Heq. by destruct (Hf k es e Hk He).
  - intros j j' r1 r2 h Hj Hj' Hh Hh'.
    apply lookup_insert_Some in Hj as [[<- <-]|[? Hj]]; apply lookup_insert_Some in Hj' as [[<- <-]|[? Hj']];
      simpl in Hh, Hh'; [done|injection Hh as <-; by destruct (Hf' j' r2)|injection Hh' as <-; by destruct (Hf' j r1)|eauto].
  - intros j r' Hj. apply lookup_insert_Some in Hj as [[<- <-]|[_ Hj]]; [by apply (I6 i r)|eauto].
  - intros j r' k Hj. apply lookup_insert_Some in Hj as [[<- <-]|[_ Hj]]; [|eauto].
    intros Hk. destruct (I7 i r k Hi Hk) as (? & ? & ? & _ & Hc & _). congruence.
  - intros k e es Hk He. destruct (I8 k e es Hk He) as (j & r' & Hj & Hh & ?). exists j, r'.
    by rewrite lookup_insert_ne by congruence.
Qed.

(** An object whose newest version a transaction may see is written by no one. *)
Lemma visible_unwritten m j r k e es s : mv_inv m → mv_running m !! j = Some r → k ∈ ru_writes r →
  mv_objects m !! k = Some (e :: es) → visible s e = true → False.
Proof.
  intros Hinv Hj Hk Ho Hv. destruct (mi_writes _ Hinv j r k Hj Hk) as (e1 & e0 & es1 & Ho1 & Hh & _).
  rewrite Ho in Ho1. injection Ho1 as -> ->. apply visible_true in Hv as [Hv _].
  apply Hv, (mi_own _ Hinv j r (en_home e1) k _ e1 Hj Hh Ho); [by left|done].
Qed.

Lemma write_inv m i r k e' e es : mv_inv m → mv_running m !! i = Some r →
  ru_home r = Some (en_home e') → en_version e' = 0 →
  mv_objects m !! k = Some (e :: es) → visible (ru_snapshot r) e = true →
  mv_inv (mk_mvstore (mv_counter m) (<[k := e' :: e :: es]> (mv_objects m))
    (<[i := mk_running (ru_snapshot r) (ru_home r) (ru_writes r ++ [k])]> (mv_running m))).
Proof.
  intros Hinv Hi Hh He' Ho Hv. pose proof Hinv as [I1 I2 I3 I4 I5 I6 I7 I8].
  pose proof (versions_ok_visible _ _ _ _ (I1 k _ Ho) Hv) as Hc.
  assert (∀ j r', mv_running m !! j = Some r' → k ∉ ru_writes r') as Hun.
  { intros j r' Hj Hk. by apply (visible_unwritten m j r' k e es (ru_snapshot r)). }
  split; cbn [mv_counter mv_objects mv_running]; try done.
  - intros k' es' Hk'. apply lookup_insert_Some in Hk' as [[<- <-]|[_ Hk']]; [|eauto].
    right. by exists e', (e :: es).
  - intros j r' Hj. apply lookup_insert_Some in Hj as [[<- <-]|[_ Hj]]; [by apply (I3 i r)|eauto].
  - intros j r' home k' es' x Hj Hh' Hk' Hx Hhx.
    assert (∃ r1, mv_running m !! j = Some r1 ∧ ru_home r1 = Some home) as (r1 & Hj1 & Hh1).
    { apply lookup_insert_Some in Hj as [[<- <-]|[_ Hj]]; eauto. }
    apply lookup_insert_Some in Hk' as [[<- <-]|[_ Hk']]; [|by apply (I4 j r1 home k' es')].
    apply elem_of_cons in Hx as [->|Hx]; [done|]. by apply (I4 j r1 home k (e :: es)).
  - intros j j' r1 r2 h Hj Hj' Hh1 Hh2.
    apply lookup_insert_Some in Hj as [[<- <-]|[? Hj]]; apply lookup_insert_Some in Hj' as [[<- <-]|[? Hj']]; eauto.
  - intros j r' Hj. apply lookup_insert_Some in Hj as [[<- <-]|[_ Hj]]; [|eauto]. simpl.
    apply NoDup_app. split_and!; [by apply (I6 i r)| |by apply NoDup_singleton].
    intros x Hx ->%list_elem_of_singleton. by apply (Hun i r).
  - intros j r' k' Hj Hk'.
    assert (k' = k ∧ j = i ∧ r' = mk_running (ru_snapshot r) (ru_home r) (ru_writes r ++ [k]) ∨
      ∃ r1, mv_running m !! j = Some r1 ∧ k' ∈ ru_writes r1 ∧ ru_home r1 = ru_home r' ∧ ru_snapshot r1 = ru_snapshot r')
      as [(-> & -> & ->)|(r1 & Hj1 & Hk1 & Hh1 & Hs1)].
    { apply lookup_insert_Some in Hj as [[<- <-]|[_ Hj]]; [|right; by exists r'].
      simpl in Hk'. apply elem_of_app in Hk' as [Hk'|Hk'%list_elem_of_singleton]; [right; by exists r|by left]. }
    + exists e', e, es. rewrite lookup_insert_eq. by split_and!.
    + destruct (I7 j r1 k' Hj1 Hk1) as (x & x0 & xs & Hx & Hhx & Hvx).
      exists x, x0, xs. rewrite lookup_insert_ne; [by rewrite <- Hh1, <- Hs1|].
      intros ->. by apply (Hun j r1).
  - intros k' x xs Hk' Hx. apply lookup_insert_Some in Hk' as [[<- [= <- <-]]|[Hne Hk']].
    + exists i. eexists. rewrite lookup_insert_eq. split_and!; [done|done|]. apply elem_of_app. right. by left.
    + destruct (I8 k' x xs Hk' Hx) as (j & r' & Hj & Hh' & Hin). destruct (decide (j = i)) as [->|].
      * exists i. eexists. rewrite lookup_insert_eq. rewrite Hi in Hj. injection Hj as <-.
        split_and!; [done|done|]. apply elem_of_app. by left.
      * exists j, r'. by rewrite lookup_insert_ne.
Qed.

Lemma commit_inv m i r home : mv_inv m → mv_running m !! i = Some r → ru_home r = Some home →
  mv_inv (mk_mvstore (mv_counter m + 1) (commit_objects home (mv_counter m + 1) (mv_objects m))
    (delete i (mv_running m))).
Proof.
  intros [I1 I2 I3 I4 I5 I6 I7 I8] Hi Hh.
  split; cbn [mv_counter mv_objects mv_running]; [..|].
  - intros k es Hk. rewrite commit_lookup in Hk. apply fmap_Some in Hk as (es0 & Hk & ->).
    apply commit_entries_ok; [done|by apply (I1 k)|]. intros e He. by apply (I4 i r home k es0).
  - lia.
  - intros j r' [_ Hj]%lookup_delete_Some. specialize (I3 j r' Hj). lia.
  - intros j r' h k es e [Hne Hj]%lookup_delete_Some Hh' Hk He Hhe.
    rewrite commit_lookup in Hk. apply fmap_Some in Hk as (es0 & Hk & ->).
    apply list_elem_of_fmap in He as (e0 & -> & He). destruct (commit_entry_data home (mv_counter m + 1) e0) as (_ & _ & Hc).
    rewrite Hc in Hhe. unfold commit_entry. rewrite decide_False; [by apply (I4 j r' h k es0)|].
    intros Heq. apply Hne. apply (I5 i j r r' home); congruence.
  - intros j j' r1 r2 h [_ Hj]%lookup_delete_Some [_ Hj']%lookup_delete_Some. eauto.
  - intros j r' [_ Hj]%lookup_delete_Some. eauto.
  - intros j r' k [Hne Hj]%lookup_delete_Some Hk. destruct (I7 j r' k Hj Hk) as (e & e0 & es & Ho & Hhe & Hv).
    assert (en_home e ≠ home) as Hne1. { intros Heq. apply Hne. apply (I5 i j r r' home); congruence. }
    assert (en_home e0 ≠ home) as Hne0.
    { intros Heq. apply visible_true in Hv as [Hv _]. apply Hv.
      apply (I4 i r home k (e :: e0 :: es)); try done. right. by left. }
    exists e, e0, (commit_entry home (mv_counter m + 1) <$> es). rewrite commit_lookup, Ho. csimpl.
    unfold commit_entry at 1 2. by rewrite !decide_False.
  - intros k e es Hk He. rewrite commit_lookup in Hk. apply fmap_Some in Hk as ([|e0 es0] & Hk & Heq); [done|].
    csimpl in Heq. injection Heq as -> ->. unfold commit_entry in *. case_decide as Hhe; [simpl in He; lia|].
    destruct (I8 k e0 es0 Hk He) as (j & r' & Hj & Hh' & ?). exists j, r'. rewrite lookup_delete_ne; [done|congruence].
Qed.

Lemma undo_inv m i r n : mv_inv m → mv_running m !! i = Some r → mv_counter m ≤ n →
  mv_inv (mk_mvstore n (undo_objects (ru_writes r) (mv_objects m)) (delete i (mv_running m))).
Proof.
  intros Hinv Hi Hn. pose proof Hinv as [I1 I2 I3 I4 I5 I6 I7 I8].
  assert (∀ k es, undo_objects (ru_writes r) (mv_objects m) !! k = Some es →
    ∃ es0, mv_objects m !! k = Some es0 ∧ (∀ e, e ∈ es → e ∈ es0) ∧ versions_ok (mv_counter m) es) as Hsub.
  { intros k es Hk. rewrite undo_lookup in Hk. apply fmap_Some in Hk as (es0 & Hk & ->). exists es0. split; [done|].
    destruct (decide (k ∈ ru_writes r)) as [Hin|]; [|by split; [|apply (I1 k)]].
    destruct (I7 i r k Hi Hin) as (e & e0 & es1 & Ho & _). rewrite Hk in Ho. injection Ho as ->. simpl. split.
    - intros x Hx. by right.
    - left. by apply (versions_ok_tail _ e), (I1 k). }
  split; cbn [mv_counter mv_objects mv_running]; [..|].
  - intros k es Hk. destruct (Hsub k es Hk) as (_ & _ & _ & Hok). by apply (versions_ok_mono (mv_counter m)).
  - lia.
  - intros j r' [_ Hj]%lookup_delete_Some. specialize (I3 j r' Hj). lia.
  - intros j r' h k es e [_ Hj]%lookup_delete_Some Hh' Hk He. destruct (Hsub k es Hk) as (es0 & Hk0 & Hall & _).
    apply (I4 j r' h k es0); auto.
  - intros j j' r1 r2 h [_ Hj]%lookup_delete_Some [_ Hj']%lookup_delete_Some. eauto.
  - intros j r' [_ Hj]%lookup_delete_Some. eauto.
  - intros j r' k [Hne Hj]%lookup_delete_Some Hk. destruct (I7 j r' k Hj Hk) as (e & e0 & es & Ho & Hhe & Hv).
    exists e, e0, es. rewrite undo_lookup, Ho. simpl. rewrite decide_False; [done|].
    intros Hin. destruct (I7 i r k Hi Hin) as (x & x0 & xs & Hx & Hhx & _).
    apply Hne. apply (I5 i j r r' (en_home e)); try done. congruence.
  - intros k e es Hk He. rewrite undo_lookup in Hk. apply fmap_Some in Hk as (es0 & Hk & Heq).
    destruct (decide (k ∈ ru_writes r)) as [Hin|Hnin].
    + destruct (I7 i r k Hi Hin) as (x & x0 & xs & Ho & _). rewrite Hk in Ho. injection Ho as ->. injection Heq as -> ->.
      pose proof (versions_ok_tail _ _ _ (I1 k _ Hk)) as Hc. destruct (committed_nonzero _ _ x0 Hc); [by left|done].
    + subst es0. destruct (I8 k e es Hk He) as (j & r' & Hj & Hh' & ?). exists j, r'.
      rewrite lookup_delete_ne; [done|]. congruence.
Qed.

Lemma mv_step_inv m m' : mv_inv m → mv_step m m' → mv_inv m'.
Proof.
  intros Hinv Hs. destruct Hs.
  - by apply begin_inv.
  - by apply version_inv.
  - by apply write_inv.
  - by apply commit_inv with r.
  - apply undo_inv; [done..|lia].
  - by apply undo_inv.
Qed.

(** A step that ends no transaction. *)
Definition mv_call m m' : Prop := mv_step m m' ∧ ∀ j, is_Some (mv_running m !! j) → is_Some (mv_running m' !! j).

Lemma mv_call_insert m m' i r : mv_step m m' → mv_running m' = <[i := r]> (mv_running m) → mv_call m m'.
Proof.
  intros Hs Hr. split; [done|]. intros j Hj. rewrite Hr.
  destruct (decide (i = j)) as [->|]; [rewrite lookup_insert_eq; by eexists|by rewrite lookup_insert_ne].
Qed.

Lemma mv_calls_inv m m' : rtc mv_call m m' → mv_inv m → mv_inv m'.
Proof. induction 1 as [|m m1 m2 [Hs _] _ IH]; [done|]. intros Hinv. by apply IH, (mv_step_inv m). Qed.

Lemma mv_calls_counter m m' : rtc mv_call m m' → mv_counter m' = mv_counter m.
Proof.
  induction 1 as [|m m1 m2 [Hs Hd] _ IH]; [done|]. rewrite IH. destruct Hs as [| | |m i r home Hi|m i r Hi|m i r Hi]; try done;
    (destruct (Hd i ltac:(by eexists)) as [x Hx]; simpl in Hx; by apply lookup_delete_Some in Hx as [? _]).
Qed.

(** ** What a snapshot sees *)
Lemma snapshot_read_commit_entries s home n es : s < n →
  (∀ e, e ∈ es → en_home e = home → en_version e = 0) →
  snapshot_read s false (commit_entry home n <$> es) = snapshot_read s false es.
Proof.
  intros Hs Hown. induction es as [|e es IH]; csimpl; [done|]. cbn [snapshot_read].
  rewrite IH by (intros x Hx; apply Hown; by right).
  unfold commit_entry. destruct (decide (en_home e = home)) as [Hh|]; [|done].
  specialize (Hown e ltac:(by left) Hh). unfold visible. cbn [en_version].
  rewrite (bool_decide_false (n ≤ s)), andb_false_r, Hown by lia. by rewrite (bool_decide_false (0 ≠ 0)) by auto.
Qed.

Lemma snapshot_read_uncommitted s e es : en_version e = 0 → snapshot_read s false (e :: es) = snapshot_read s false es.
Proof. intros He. cbn [snapshot_read]. unfold visible. by rewrite He. Qed.

(** What a running transaction reads does not depend on the others. *)
Lemma mv_step_read m m' i r r' k es : mv_inv m → mv_step m m' →
  mv_running m !! i = Some r → mv_running m' !! i = Some r' → mv_objects m !! k = Some es →
  ru_snapshot r' = ru_snapshot r ∧ ∃ es', mv_objects m' !! k = Some es' ∧
    snapshot_read (ru_snapshot r) false es' = snapshot_read (ru_snapshot r) false es.
Proof.
  intros Hinv Hs Hi Hi' Hk.
  assert (∀ j rj, mv_running m !! j = Some rj →
    ∃ es', undo_objects (ru_writes rj) (mv_objects m) !! k = Some es' ∧
      snapshot_read (ru_snapshot r) false es' = snapshot_read (ru_snapshot r) false es) as Hundo.
  { intros j rj Hj. rewrite undo_lookup, Hk. eexists; split; [done|].
    destruct (decide (k ∈ ru_writes rj)) as [Hin|]; [|done].
    destruct (mi_writes _ Hinv j rj k Hj Hin) as (e & e0 & es0 & Ho & Hh & _). rewrite Hk in Ho. injection Ho as ->.
    symmetry. apply snapshot_read_uncommitted, (mi_own _ Hinv j rj (en_home e) k (e :: e0 :: es0)); try done. by left. }
  destruct Hs as [m j Hj|m j rj home Hj _ _ _|m j rj k' e' e es0 Hj Hh He' Ho Hv|m j rj home Hj Hh|m j rj Hj|m j rj Hj];
    cbn [mv_running mv_objects] in *.
  - split; [|by exists es]. rewrite lookup_insert_ne in Hi' by congruence. congruence.
  - split; [|by exists es]. apply lookup_insert_Some in Hi' as [[<- <-]|[_ Hi']]; simpl; congruence.
  - split.
    { apply lookup_insert_Some in Hi' as [[<- <-]|[_ Hi']]; simpl; congruence. }
    destruct (decide (k' = k)) as [->|Hne]; [|exists es; by rewrite lookup_insert_ne].
    rewrite Hk in Ho. injection Ho as ->. exists (e' :: e :: es0). rewrite lookup_insert_eq. split; [done|].
    by apply snapshot_read_uncommitted.
  - apply lookup_delete_Some in Hi' as [Hne Hi']. split; [congruence|].
    exists (commit_entry home (mv_counter m + 1) <$> es). rewrite commit_lookup, Hk. split; [done|].
    apply snapshot_read_commit_entries; [pose proof (mi_snapshot _ Hinv i r Hi); lia|].
    intros e He. by apply (mi_own _ Hinv j rj home k es).
  - apply lookup_delete_Some in Hi' as [_ Hi']. split; [congruence|]. by apply (Hundo j).
  - apply lookup_delete_Some in Hi' as [_ Hi']. split; [congruence|]. by apply (Hundo j).
Qed.

Lemma mv_calls_read m m' i r k es : rtc mv_call m m' → mv_inv m → mv_running m !! i = Some r →
  mv_objects m !! k = Some es → ∃ r' es', mv_running m' !! i = Some r' ∧ ru_snapshot r' = ru_snapshot r ∧
    mv_objects m' !! k = Some es' ∧ snapshot_read (ru_snapshot r) false es' = snapshot_read (ru_snapshot r) false es.
Proof.
  intros Hms. revert r es. induction Hms as [m|m m1 m2 [Hs Hd] _ IH]; intros r es Hinv Hr Hk; [by exists r, es|].
  destruct (Hd i ltac:(by eexists)) as [r1 Hr1].
  destruct (mv_step_read m m1 i r r1 k es Hinv Hs Hr Hr1 Hk) as (Hsn & es1 & Hk1 & E1).
  destruct (IH r1 es1 (mv_step_inv m m1 Hinv Hs) Hr1 Hk1) as (r2 & es2 & Hr2 & Hsn2 & Hk2 & E2).
  exists r2, es2. rewrite Hsn in *. split_and!; [done|done|done|congruence].
Qed.

(** What a transaction has written goes right in front of what it has read. *)
Lemma written_over_read m i r k : mv_inv m → mv_running m !! i = Some r → k ∈ ru_writes r →
  ∃ e e0 es, mv_objects m !! k = Some (e :: e0 :: es) ∧ ru_home r = Some (en_home e) ∧ en_version e = 0 ∧
    snapshot_read (ru_snapshot r) false (e :: e0 :: es) = Ok e0.
Proof.
  intros Hinv Hi Hk. destruct (mi_writes _ Hinv i r k Hi Hk) as (e & e0 & es & Ho & Hh & Hv).
  assert (en_version e = 0) as He. { apply (mi_own _ Hinv i r (en_home e) k (e :: e0 :: es)); try done. by left. }
  exists e, e0, es. split_and!; try done. rewrite snapshot_read_uncommitted by done. cbn [snapshot_read]. by rewrite Hv.
Qed.

(** *** What a new snapshot sees of a transaction that has ended *)
Lemma committed_visible n es : committed_versions n es → ∀ s, n ≤ s →
  snapshot_read s false es = match es with [] => Err InvalidLogicalAddress | e :: _ => Ok e end.
Proof.
  intros [Hc _] s Hs. destruct es as [|e es]; [done|]. cbn [snapshot_read]. apply Forall_cons in Hc as [Hc _].
  assert (visible s e = true) as -> by (apply visible_true; lia). done.
Qed.

(** The counter may move on without a version for the number. *)
Lemma snapshot_read_newer n es s : versions_ok n es → n ≤ s → snapshot_read s false es = snapshot_read n false es.
Proof.
  intros [Hc|(e & es' & -> & He & Hc)] Hs; rewrite ?(snapshot_read_uncommitted _ e) by done;
    by rewrite !(committed_visible n _ Hc).
Qed.

Lemma undo_read m i r k es : mv_inv m → mv_running m !! i = Some r → mv_objects m !! k = Some es → ∀ s,
  snapshot_read s false (if decide (k ∈ ru_writes r) then tail es else es) = snapshot_read s false es.
Proof.
  intros Hinv Hi Hk s. case_decide as Hin; [|done].
  destruct (mi_writes _ Hinv i r k Hi Hin) as (e & e0 & es0 & Ho & Hh & _). rewrite Hk in Ho. injection Ho as ->.
  symmetry. apply snapshot_read_uncommitted, (mi_own _ Hinv i r (en_home e) k (e :: e0 :: es0)); try done. by left.
Qed.

(** A commit is atomic: all that the transaction has written is seen, and
    nothing else is new. *)
Lemma commit_read_written m i r home k : mv_inv m → mv_running m !! i = Some r → ru_home r = Some home →
  k ∈ ru_writes r → ∃ e es, mv_objects m !! k = Some (e :: es) ∧
    let n := mv_counter m + 1 in
    snapshot_read n false (commit_entry home n <$> e :: es) = Ok (commit_entry home n e).
Proof.
  intros Hinv Hi Hh Hk. destruct (mi_writes _ Hinv i r k Hi Hk) as (e & e0 & es & Ho & Hhe & _).
  exists e, (e0 :: es). split; [done|]. pose proof (mi_counter _ Hinv) as Hn. csimpl. cbn [snapshot_read].
  assert (en_version (commit_entry home (mv_counter m + 1) e) = mv_counter m + 1) as Hv.
  { unfold commit_entry. rewrite decide_True; [done|congruence]. }
  assert (visible (mv_counter m + 1) (commit_entry home (mv_counter m + 1) e) = true) as -> by (apply visible_true; lia). done.
Qed.

Lemma commit_read_other m i r home k es : mv_inv m → mv_running m !! i = Some r → ru_home r = Some home →
  k ∉ ru_writes r → mv_objects m !! k = Some es → let n := mv_counter m + 1 in
  snapshot_read n false (commit_entry home n <$> es) = snapshot_read (mv_counter m) false es.
Proof.
  intros Hinv Hi Hh Hk Ho n. pose proof (mi_versions _ Hinv k es Ho) as Hok.
  assert (∀ e, e ∈ es → en_home e = home → False) as Hnone.
  { intros e He Heq. pose proof (mi_own _ Hinv i r home k es e Hi Hh Ho He Heq) as Hv.
    destruct Hok as [Hc|(e' & es' & -> & He' & Hc)]; [by apply (committed_nonzero _ _ e Hc)|].
    apply elem_of_cons in He as [->|He]; [|by apply (committed_nonzero _ _ e Hc)].
    destruct (mi_front _ Hinv k e' es' Ho Hv) as (j & r' & Hj & Hh' & Hin).
    assert (i = j) as <- by (apply (mi_homes _ Hinv i j r r' home); congruence). congruence. }
  assert (commit_entry home n <$> es = es) as ->.
  { clear -Hnone. induction es as [|e es IH]; csimpl; [done|].
    rewrite IH by (intros x Hx; apply Hnone; by right). unfold commit_entry. rewrite decide_False; [done|].
    intros Heq. apply (Hnone e); [by left|done]. }
  apply snapshot_read_newer; [done|lia].
Qed.

(** A version, once committed, stays. *)
Lemma mv_step_committed m m' k es e : mv_inv m → mv_step m m' → mv_objects m !! k = Some es → e ∈ es →
  en_version e ≠ 0 → ∃ es', mv_objects m' !! k = Some es' ∧ e ∈ es'.
Proof.
  intros Hinv Hs Hk He Hv.
  assert (∀ j rj, mv_running m !! j = Some rj →
    ∃ es', undo_objects (ru_writes rj) (mv_objects m) !! k = Some es' ∧ e ∈ es') as Hundo.
  { intros j rj Hj. rewrite undo_lookup, Hk. eexists; split; [done|].
    destruct (decide (k ∈ ru_writes rj)) as [Hin|]; [|done].
    destruct (mi_writes _ Hinv j rj k Hj Hin) as (e1 & e0 & es0 & Ho & Hh & _). rewrite Hk in Ho. injection Ho as ->.
    apply elem_of_cons in He as [->|He]; [|done]. exfalso. apply Hv.
    apply (mi_own _ Hinv j rj (en_home e1) k (e1 :: e0 :: es0)); try done. by left. }
  destruct Hs as [m j Hj|m j rj home Hj _ _ _|m j rj k' e' e1 es0 Hj Hh He' Ho Hv'|m j rj home Hj Hh|m j rj Hj|m j rj Hj];
    cbn [mv_running mv_objects] in *.
  - by exists es.
  - by exists es.
  - destruct (decide (k' = k)) as [->|Hne]; [|exists es; by rewrite lookup_insert_ne].
    rewrite Hk in Ho. injection Ho as ->. exists (e' :: e1 :: es0). rewrite lookup_insert_eq. split; [done|by right].
  - exists (commit_entry home (mv_counter m + 1) <$> es). rewrite commit_lookup, Hk. split; [done|].
    apply list_elem_of_fmap. exists e. split; [|done]. unfold commit_entry. rewrite decide_False; [done|].
    intros Heq. by apply Hv, (mi_own _ Hinv j rj home k es).
  - by apply (Hundo j).
  - by apply (Hundo j).
Qed.

Lemma mv_calls_committed m m' k es e : rtc mv_call m m' → mv_inv m → mv_objects m !! k = Some es → e ∈ es →
  en_version e ≠ 0 → ∃ es', mv_objects m' !! k = Some es' ∧ e ∈ es'.
Proof.
  intros Hms. revert es. induction Hms as [m|m m1 m2 [Hs _] _ IH]; intros es Hinv Hk He Hv; [by exists es|].
  destruct (mv_step_committed m m1 k es e Hinv Hs Hk He Hv) as (es1 & Hk1 & He1).
  by apply (IH es1); [apply (mv_step_inv m)|..].
Qed.

Lemma snapshot_read_elem s b es e : snapshot_read s b es = Ok e → e ∈ es ∧ visible s e = true.
Proof.
  induction es as [|e0 es IH]; cbn [snapshot_read]; [done|]. destruct (visible s e0) eqn:Hv.
  - intros [= ->]. split; [by left|done].
  - destruct b; [done|]. intros Hr. destruct (IH Hr). split; [by right|done].
Qed.

(** What the transaction [i] reads, and all that is committed, stays. *)
Record undisturbed (i : nat) m m' : Prop := {
  ud_inv : mv_inv m';
  ud_read r k es : mv_running m !! i = Some r → mv_objects m !! k = Some es →
    ∃ r' es', mv_running m' !! i = Some r' ∧ ru_snapshot r' = ru_snapshot r ∧ mv_objects m' !! k = Some es' ∧
      snapshot_read (ru_snapshot r) false es' = snapshot_read (ru_snapshot r) false es;
  ud_committed k es e : mv_objects m !! k = Some es → e ∈ es → en_version e ≠ 0 →
    ∃ es', mv_objects m' !! k = Some es' ∧ e ∈ es'
}.

Lemma undisturbed_refl i m : mv_inv m → undisturbed i m m.
Proof. intros Hinv. split; [done|intros r k es; by exists r, es|intros k es e; by exists es]. Qed.

Lemma undisturbed_trans i m m1 m2 : undisturbed i m m1 → undisturbed i m1 m2 → undisturbed i m m2.
Proof.
  intros [_ A2 A3] [B1 B2 B3]. split; [done|..].
  - intros r k es Hr Hk. destruct (A2 r k es Hr Hk) as (r1 & es1 & Hr1 & E1 & Hk1 & F1).
    destruct (B2 r1 k es1 Hr1 Hk1) as (r2 & es2 & Hr2 & E2 & Hk2 & F2). rewrite E1 in *.
    exists r2, es2. split_and!; congruence.
  - intros k es e Hk He Hv. destruct (A3 k es e Hk He Hv) as (es1 & Hk1 & He1). by apply (B3 k es1).
Qed.

Lemma steps_undisturbed i m m' : mv_inv m → rtc mv_call m m' ∨ mv_step m m' → is_Some (mv_running m' !! i) →
  undisturbed i m m'.
Proof.
  intros Hinv [Hs|Hs] [r' Hr'].
  - split; [by apply (mv_calls_inv m)|intros r k es; by apply mv_calls_read|by intros k es e; apply mv_calls_committed].
  - split; [by apply (mv_step_inv m)| |by intros k es e; apply mv_step_committed].
    intros r k es Hr Hk. destruct (mv_step_read m m' i r r' k es) as (E & es' & Hk' & F); [done..|]. by exists r', es'.
Qed.
End MultiVersion.
