(* ===== verification/Arena.v ===== *)
(** * Transactions side by side: memory

    The allocators of several transactions over one address space: what none
    of them can hand out, and that a call of one transaction does not disturb
    the others. *)
From S2P Require Import Prelude Utils Source SourceAllocator Slices Las Memory Pointer Vos.
From S2P Require Import Allocators Versions Objects Tx Transactions.

(** The heap and the running transactions, each with the references into the
    heap's memory that its calls have returned. *)
Record system (D : Type) : Type := mk_system {
  sy_world : World D;
  sy_txs : gmap nat (Transaction * list memref)
}.
Arguments mk_system {D}.
Arguments sy_world {D}.
Arguments sy_txs {D}.

Section Arena.
Context `{T : Target} `{TOk : !TargetOk T} `{C : Crc} {D : Type} `{Src : !Source D} `{Laws : !SourceLaws D}.
Abbreviation LAS := (LogicalAddressSpace D).
Implicit Types (las : LAS) (w : World D) (tx : Transaction) (s : system D) (refs : list memref).

Definition sy_las s : LAS := w_las (sy_world s).

(** What a transaction's allocators have taken and not handed out. *)
Definition active tx (b o : Z) : Prop :=
  active_mem (tx_object_allocator tx) b o ∨ active_mem (tx_log_allocator tx) b o.

(** Memory that nobody can hand out. *)
Definition unclaimed s (b o : Z) : Prop :=
  ¬ free_mem (sy_las s) b o ∧ ∀ i tx refs, sy_txs s !! i = Some (tx, refs) → ¬ active tx b o.
Definition taken s (b off n : Z) : Prop := ∀ o, off ≤ o < off + n → unclaimed s b o.
Definition cell_taken s (c : cell) : Prop :=
  match c with InMemory b off => taken s b off size_of_usize | OnStack _ => True end.

Record arena s : Prop := {
  ar_las : las_inv (sy_las s);
  ar_alloc i tx refs : sy_txs s !! i = Some (tx, refs) →
    allocators_inv (sy_las s) (tx_object_allocator tx) (tx_log_allocator tx);
  ar_disjoint i j tx tx' refs refs' b o : i ≠ j → sy_txs s !! i = Some (tx, refs) →
    sy_txs s !! j = Some (tx', refs') → active tx b o → ¬ active tx' b o
}.

Lemma not_owned_unclaimed tx w (b o : Z) : tx_range_in_use tx w b o 1 ↔ ¬ free_mem (w_las w) b o ∧ ¬ active tx b o.
Proof.
  unfold tx_range_in_use, range_in_use, range_unowned, owned, active. split.
  - intros [H1 H2]. specialize (H1 o ltac:(lia)). specialize (H2 o ltac:(lia)). tauto.
  - intros [Hf Ha]. split; intros o' Ho; (assert (o' = o) as -> by lia); tauto.
Qed.

Lemma taken_in_use s i tx refs b off n : sy_txs s !! i = Some (tx, refs) → taken s b off n →
  tx_range_in_use tx (sy_world s) b off n.
Proof.
  intros Hi Ht. split; intros o Ho; destruct (Ht o Ho) as [Hf Ha]; specialize (Ha i tx refs Hi);
    unfold owned, active in *; tauto.
Qed.

Lemma cell_taken_in_use s i tx refs c : sy_txs s !! i = Some (tx, refs) → cell_taken s c →
  tx_in_use tx (sy_world s) c.
Proof. destruct c as [b off|]; [|done]. intros Hi Ht. by apply (taken_in_use s i tx refs b off). Qed.

(** *** A call of one transaction *)
Definition step_to s (i : nat) tx' refs' w' : system D := mk_system w' (<[i := (tx', refs')]> (sy_txs s)).

Lemma step_to_lookup s i tx' refs' w' j txj refsj : sy_txs (step_to s i tx' refs' w') !! j = Some (txj, refsj) →
  i = j ∧ tx' = txj ∧ refs' = refsj ∨ i ≠ j ∧ sy_txs s !! j = Some (txj, refsj).
Proof. unfold step_to. simpl. intros [[<- [= <- <-]]|[? ?]]%lookup_insert_Some; [by left|by right]. Qed.

Lemma arena_step s i tx refs tx' refs' w' : arena s → sy_txs s !! i = Some (tx, refs) →
  allocators_inv (w_las w') (tx_object_allocator tx') (tx_log_allocator tx') →
  las_shape (w_las w') = las_shape (sy_las s) →
  (∀ b off n, 0 < n → tx_range_in_use tx (sy_world s) b off n → tx_range_in_use tx' w' b off n) →
  arena (step_to s i tx' refs' w') ∧ ∀ b off n, taken s b off n → taken (step_to s i tx' refs' w') b off n.
Proof.
  intros [A1 A2 A3] Hi Hal Hs Hr.
  assert (∀ b o, ¬ free_mem (sy_las s) b o → ¬ active tx b o → ¬ free_mem (w_las w') b o ∧ ¬ active tx' b o) as Hpt.
  { intros b o Hf Ha. apply not_owned_unclaimed, Hr; [done|]. by apply not_owned_unclaimed. }
  assert (∀ j txj refsj b o, j ≠ i → sy_txs s !! j = Some (txj, refsj) → active txj b o →
    ¬ free_mem (w_las w') b o ∧ ¬ active tx' b o) as Hother.
  { intros j txj refsj b o Hne Hj Ha. apply Hpt.
    - intros Hf. destruct (A2 j txj refsj Hj) as [_ [_ H1] [_ H2] _ _]. destruct Ha as [Ha|Ha]; [by apply (H1 b o)|by apply (H2 b o)].
    - by apply (A3 j i txj tx refsj refs). }
  split; [split|].
  - apply Hal.
  - intros j txj refsj Hj. apply step_to_lookup in Hj as [(<- & <- & <-)|[Hne Hj]]; [done|].
    destruct (A2 j txj refsj Hj) as [B1 B2 B3 B4 B5]. split; [apply Hal|..|done|done].
    + destruct B2 as [M1 _]. split; [intros m Hm; apply (mutref_wf_shape (sy_las s)); auto|].
      intros b o Ha. apply (Hother j txj refsj); [done..|by left].
    + destruct B3 as [M1 _]. split; [intros m Hm; apply (mutref_wf_shape (sy_las s)); auto|].
      intros b o Ha. apply (Hother j txj refsj); [done..|by right].
  - intros j k txj txk refsj refsk b o Hne Hj Hk.
    apply step_to_lookup in Hj as [(<- & <- & <-)|[? Hj]]; apply step_to_lookup in Hk as [(<- & <- & <-)|[? Hk]].
    + done.
    + intros Ha Ha'. by apply (Hother k txk refsk b o).
    + intros Ha. by apply (Hother j txj refsj b o).
    + by apply (A3 j k txj txk refsj refsk).
  - intros b off n Ht o Ho. destruct (Ht o Ho) as [Hf Ha].
    destruct (Hpt b o Hf (Ha i tx refs Hi)) as [Hf' Ha']. split; [done|].
    intros j txj refsj Hj. apply step_to_lookup in Hj as [(<- & <- & <-)|[? Hj]]; [done|by apply (Ha j txj refsj)].
Qed.

(** *** Memory written, nothing allocated *)
Record poked las las' : Prop := {
  pk_shape : las_shape las' = las_shape las;
  pk_free b o : free_mem las' b o ↔ free_mem las b o;
  pk_las : las_inv las → las_inv las';
  pk_alloc ga1 ga2 : allocators_inv las ga1 ga2 → allocators_inv las' ga1 ga2
}.

Lemma poked_refl las : poked las las.
Proof. by split. Qed.

Lemma poked_trans las1 las2 las3 : poked las1 las2 → poked las2 las3 → poked las1 las3.
Proof. intros [A1 A2 A3 A4] [B1 B2 B3 B4]. split; [congruence|intros; by rewrite B2|auto|auto]. Qed.

Lemma poked_put las b off data : byte_source las b → is_Some (mem las b off (blen data)) →
  poked las (put b off data las).
Proof.
  intros Hb Hm. split; [by apply las_shape_put|intros; apply put_free_mem|by apply put_inv|].
  intros ga1 ga2. by apply put_allocators_inv.
Qed.

Lemma poked_cell_put las c v v' : cell_holds las c v → cell_writable las c → poked las (cell_put c v' las).
Proof.
  destruct c as [b off|]; [|intros; apply poked_refl]. intros [Hm _] Hw. apply poked_put; [done|].
  rewrite blen_u64. eauto.
Qed.

Lemma poked_undo xs las : Forall (swung las) xs → writes_apart xs → poked las (undo xs las).
Proof.
  revert las. induction xs as [|x xs IH]; intros las Hsw Hord; [apply poked_refl|]. simpl.
  apply Forall_cons in Hsw as [Hx Hsw]. apply writes_apart_cons in Hord as (Hyx & Hxy & Hord).
  apply poked_trans with (cell_put (tw_dst x) (tw_current x) las).
  - destruct Hx as [[_ Hw] Hn _]. by apply poked_cell_put with (tw_new x).
  - apply IH; [by apply swung_put|done].
Qed.

Definition poke_to s w' : system D := mk_system w' (sy_txs s).

Lemma arena_poke s w' : arena s → poked (sy_las s) (w_las w') →
  arena (poke_to s w') ∧ ∀ b off n, taken s b off n → taken (poke_to s w') b off n.
Proof.
  intros [A1 A2 A3] [P1 P2 P3 P4]. split; [split|].
  - by apply P3.
  - intros i tx refs Hi. by apply P4, (A2 i tx refs).
  - done.
  - intros b off n Ht o Ho. destruct (Ht o Ho) as [Hf Ha]. split; [|done]. intros Hf'. by apply P2 in Hf'.
Qed.

(** *** Transactions that come and go *)
Lemma arena_begin s i tx refs : arena s → sy_txs s !! i = None →
  tx_object_allocator tx = GenericAllocator_new → tx_log_allocator tx = GenericAllocator_new →
  arena (step_to s i tx refs (sy_world s)) ∧
  ∀ b off n, taken s b off n → taken (step_to s i tx refs (sy_world s)) b off n.
Proof.
  intros [A1 A2 A3] Hi Ho Hl.
  assert (∀ b o, ¬ active tx b o) as Hnone.
  { intros b o. unfold active. rewrite Ho, Hl. by intros [(m & ? & _)|(m & ? & _)]. }
  split; [split|].
  - done.
  - intros j txj refsj Hj. apply step_to_lookup in Hj as [(<- & <- & <-)|[Hne Hj]]; [|by apply (A2 j txj refsj)].
    rewrite Ho, Hl. split; try apply ga_wf_new; [done|by intros b o (m & ? & _)|by split; apply ga_aligned_new].
  - intros j k txj txk refsj refsk b o Hne Hj Hk.
    apply step_to_lookup in Hj as [(<- & <- & <-)|[? Hj]]; apply step_to_lookup in Hk as [(<- & <- & <-)|[? Hk]];
      try (by intros ? []%Hnone); try (by intros []%Hnone).
    by apply (A3 j k txj txk refsj refsk).
  - intros b off n Ht o Hr. destruct (Ht o Hr) as [Hf Ha]. split; [done|].
    intros j txj refsj Hj. apply step_to_lookup in Hj as [(<- & <- & <-)|[? Hj]]; [done|by apply (Ha j txj refsj)].
Qed.

Definition ended s (i : nat) : system D := mk_system (sy_world s) (delete i (sy_txs s)).

Lemma ended_lookup s i j (x : Transaction * list memref) : sy_txs (ended s i) !! j = Some x → i ≠ j ∧ sy_txs s !! j = Some x.
Proof. unfold ended. simpl. by intros ?%lookup_delete_Some. Qed.

Lemma arena_end s i : arena s → arena (ended s i) ∧
  ∀ b off n, taken s b off n → taken (ended s i) b off n.
Proof.
  intros [A1 A2 A3]. split; [split|].
  - done.
  - intros j txj refsj [_ Hj]%ended_lookup. by apply (A2 j txj refsj).
  - intros j k txj txk refsj refsk b o Hne [_ Hj]%ended_lookup [_ Hk]%ended_lookup.
    by apply (A3 j k txj txk refsj refsk).
  - intros b off n Ht o Hr. destruct (Ht o Hr) as [Hf Ha]. split; [done|].
    intros j txj refsj [_ Hj]%ended_lookup. by apply (Ha j txj refsj).
Qed.

(** More references do not matter. *)
Lemma step_refs_taken s i tx refs refs' b off n : sy_txs s !! i = Some (tx, refs) →
  taken s b off n → taken (step_to s i tx refs' (sy_world s)) b off n.
Proof.
  intros Hi Ht o Ho. destruct (Ht o Ho) as [Hf Ha]. split; [done|].
  intros j txj refsj Hj. apply step_to_lookup in Hj as [(<- & <- & <-)|[? Hj]]; [by apply (Ha i tx refs)|by apply (Ha j txj refsj)].
Qed.

Lemma arena_refs s i tx refs refs' : arena s → sy_txs s !! i = Some (tx, refs) →
  arena (step_to s i tx refs' (sy_world s)).
Proof.
  intros [A1 A2 A3] Hi. split.
  - done.
  - intros j txj refsj Hj. apply step_to_lookup in Hj as [(<- & <- & <-)|[? Hj]]; [by apply (A2 i tx refs)|by apply (A2 j txj refsj)].
  - intros j k txj txk refsj refsk b o Hne Hj Hk.
    apply step_to_lookup in Hj as [(<- & <- & <-)|[? Hj]]; apply step_to_lookup in Hk as [(<- & <- & <-)|[? Hk]].
    + done.
    + by apply (A3 i k tx txk refs refsk).
    + by apply (A3 j i txj tx refsj refs).
    + by apply (A3 j k txj txk refsj refsk).
Qed.
End Arena.
