(* ===== verification/Simulation.v ===== *)
(** * Transactions side by side: what the heap stands for

    The relation between the heap with its running transactions and the
    multi-version store of [Snapshot], and that each change a transaction makes
    to the memory keeps it. *)
From S2P Require Import Prelude Utils Source SourceAllocator Slices Las Memory Pointer Vos.
From S2P Require Import Allocators Versions Objects Tx Transactions Heap Runs Snapshot Arena.

(** ** The places of a heap *)
Record span : Type := mk_span { sp_base : Z; sp_off : Z; sp_len : Z }.

Definition cell_span (c : cell) : span :=
  match c with InMemory b off => mk_span b off size_of_usize | OnStack _ => mk_span 0 0 0 end.
Definition ref_span (r : memref) : span := mk_span (mr_source r) (mr_off r) (mr_len r).

Definition spans_apart (x y : span) : Prop :=
  sp_len x ≤ 0 ∨ sp_len y ≤ 0 ∨ sp_base x ≠ sp_base y ∨ apart (sp_off x, sp_len x) (sp_off y, sp_len y).

(** What a place is used for: an object's pointer, a word of a header, the
    number of a version, the version cell of a running transaction, the bytes
    of the object [k] with the version in a cell, the bytes a running transaction
    with such a version may fill in. *)
Inductive purpose : Type :=
| ForPointer (c : cell)
| ForHeader
| ForNumber (c : cell)
| ForRunning (c : cell)
| ForData (home : cell) (k : cell)
| ForFilling (home : cell).

(** Which places may overlap: pointers are in the data of objects; what a
    transaction fills in may be the data of one of its own versions. *)
Definition separate (p q : purpose) (x y : span) : Prop :=
  match p, q with
  | ForPointer c, ForPointer c' => c = c' ∨ spans_apart x y
  | ForPointer _, ForData _ _ | ForData _ _, ForPointer _ => True
  | ForHeader, ForHeader | ForHeader, ForNumber _ | ForNumber _, ForHeader | ForNumber _, ForNumber _ => True
  | ForData _ k, ForData _ k' => k = k' ∧ x = y ∨ spans_apart x y
  | ForFilling _, ForFilling _ => True
  | ForRunning c, ForRunning c' | ForNumber c, ForRunning c' | ForRunning c, ForNumber c' => c = c' ∨ spans_apart x y
  | ForData c _, ForFilling c' | ForFilling c, ForData c' _ => c = c' ∧ x = y ∨ spans_apart x y
  | _, _ => spans_apart x y
  end.

Lemma spans_apart_sym x y : spans_apart x y → spans_apart y x.
Proof.
  unfold spans_apart, apart. simpl. intros [?|[?|[?|[?|?]]]];
    [right; by left|by left|right; right; left; congruence|right; right; right; by right|right; right; right; by left].
Qed.

Lemma separate_sym p q x y : separate p q x y → separate q p y x.
Proof. destruct p, q; simpl; intuition auto using spans_apart_sym. Qed.

Lemma separate_apart p q x y : spans_apart x y → separate p q x y.
Proof. destruct p, q; simpl; auto. Qed.

(** The number of a version is apart from what the running transaction's cell is. *)
Lemma separate_number c q x y : separate (ForRunning c) q x y → separate (ForNumber c) q x y.
Proof. by destruct q. Qed.

Lemma cells_apart_spans c c' : cells_apart c c' ↔ spans_apart (cell_span c) (cell_span c').
Proof.
  unfold spans_apart. destruct c as [b o|], c' as [b' o'|]; cbn; unfold size_of_usize;
    [|split; [by right; left|done]|split; [by left|done]..].
  split; [by right; right|]. intros [H|[H|H]]; [lia|lia|done].
Qed.

(** ** The heap and the store *)
Section Represents.
Context `{T : Target} `{TOk : !TargetOk T} `{C : Crc} {D : Type} `{Src : !Source D} `{Laws : !SourceLaws D}.
Abbreviation LAS := (LogicalAddressSpace D).
Implicit Types (las : LAS) (w : World D) (tx : Transaction) (s : system D) (refs : list memref).
Implicit Types (m : mvstore cell) (r : running cell) (e : entry) (es : list entry) (p : purpose) (x y : span).

(** The pointers to the objects, and the sizes of those. *)
Context (sizes : gmap cell ObjectSize).

Definition total_at (k : cell) : Z :=
  match ObjectSize_total <$> sizes !! k with Some (Ok total) => total | _ => 0 end.

Definition has_entry m (k : cell) e : Prop := ∃ es, mv_objects m !! k = Some es ∧ e ∈ es.

(** The places in use. *)
Inductive owns s m : purpose → span → Prop :=
| owns_pointer k : is_Some (sizes !! k) → owns s m (ForPointer k) (cell_span k)
| owns_version k e : has_entry m k e → owns s m ForHeader (cell_span (en_version_cell e))
| owns_other k e : has_entry m k e → owns s m ForHeader (cell_span (en_other_cell e))
| owns_number k e : has_entry m k e → owns s m (ForNumber (en_home e)) (cell_span (en_home e))
| owns_running i r home : mv_running m !! i = Some r → ru_home r = Some home →
    owns s m (ForRunning home) (cell_span home)
| owns_data k e : has_entry m k e → owns s m (ForData (en_home e) k) (ref_span (en_data (total_at k) e))
| owns_filling i tx refs r home d : sy_txs s !! i = Some (tx, refs) → mv_running m !! i = Some r →
    ru_home r = Some home → d ∈ refs → owns s m (ForFilling home) (ref_span d).

Definition span_taken s x : Prop := taken s (sp_base x) (sp_off x) (sp_len x).

Definition layout (O : purpose → span → Prop) : Prop := ∀ p q x y, O p x → O q y → separate p q x y.

(** A pointer to an object with the versions [es]. *)
Record object_at las (k : cell) (total : Z) es : Prop := {
  ob_memory : memory_cell las k;
  ob_total : 0 < total;
  ob_some : es ≠ [];
  ob_chain : ∃ raw, cell_holds las k raw ∧ UntypedPointer_address raw = raw ∧ version_chain las total raw es
}.

(** The version of a running transaction. *)
Record version_of las (v : Version) (home : cell) : Prop := {
  vo_at : version_at las (OnStack v) home 0;
  vo_word : is_usize v;
  vo_form : ∃ b a, home = cell_at b a ∧ v = Z.lor a VERSION_TYPE_INDIRECT;
  vo_memory : memory_cell las home
}.

(** What a rollback puts back. *)
Record write_at las (objects : gmap cell (list entry)) (u : TransactionWrite) : Prop := {
  wa_pointer : is_Some (sizes !! tw_dst u);
  wa_current : is_usize (tw_current u) ∧ UntypedPointer_address (tw_current u) = tw_current u;
  wa_chain : ∃ e es, objects !! tw_dst u = Some (e :: es) ∧ tw_new u = en_address e ∧
    version_chain las (total_at (tw_dst u)) (tw_current u) es
}.

Record ref_at las (d : memref) : Prop := {
  ra_len : 0 < mr_len d;
  ra_source : byte_source las (mr_source d);
  ra_bytes : is_Some (mem las (mr_source d) (mr_off d) (mr_len d))
}.

Definition version_matches las tx refs r : Prop :=
  match tx_version tx, ru_home r with
  | None, None => refs = []
  | Some v, Some home => version_of las v home
  | _, _ => False
  end.

Record transaction_at las (objects : gmap cell (list entry)) tx refs r : Prop := {
  ta_snapshot : ru_snapshot r = vr_version (tx_reader tx);
  ta_version : version_matches las tx refs r;
  ta_writes : ru_writes r = tw_dst <$> tx_writeset tx;
  ta_write : Forall (write_at las objects) (tx_writeset tx);
  ta_reads : Forall (λ t, is_Some (sizes !! tr_pointer t)) (tx_readset tx);
  ta_refs : Forall (ref_at las) refs
}.

Record represents s m : Prop := {
  rp_inv : mv_inv m;
  rp_arena : arena s;
  rp_counter : mv_counter m = w_version (sy_world s);
  rp_sizes k size : sizes !! k = Some size → ∃ total, ObjectSize_total size = Ok total ∧ aligned 8 total;
  rp_pointers k : is_Some (sizes !! k) ↔ is_Some (mv_objects m !! k);
  rp_objects k es : mv_objects m !! k = Some es → object_at (sy_las s) k (total_at k) es;
  rp_running i : is_Some (mv_running m !! i) ↔ is_Some (sy_txs s !! i);
  rp_transactions i tx refs r : sy_txs s !! i = Some (tx, refs) → mv_running m !! i = Some r →
    transaction_at (sy_las s) (mv_objects m) tx refs r;
  rp_layout : layout (owns s m);
  rp_taken p x : owns s m p x → span_taken s x
}.

(** *** What does not depend on the rest of memory *)
Lemma object_at_kept las las' k total es : las_shape las' = las_shape las → cell_kept las las' k →
  Forall (cell_kept las las') (chain_cells es) → object_at las k total es → object_at las' k total es.
Proof.
  intros Hs Hk Hc [O1 O2 O3 (raw & Hp & Ha & Hch)]. split; [by apply (memory_cell_shape las)|done|done|].
  exists raw. split_and!; [by apply Hk|done|by apply (version_chain_kept las)].
Qed.

Lemma version_of_kept las las' v home : las_shape las' = las_shape las → cell_kept las las' home →
  version_of las v home → version_of las' v home.
Proof.
  intros Hs Hk [V1 V2 V3 V4]. split; [|done|done|by apply (memory_cell_shape las)].
  apply (version_at_kept las); [done|by intros ?|done|done].
Qed.

Lemma write_at_kept las las' m u : las_shape las' = las_shape las →
  (∀ k e, has_entry m k e → Forall (cell_kept las las') (chain_cells [e])) → write_at las (mv_objects m) u → write_at las' (mv_objects m) u.
Proof.
  intros Hs Hk [W1 W2 (e & es & Ho & Hn & Hch)]. split; [done|done|]. exists e, es. split_and!; [done|done|].
  apply (version_chain_kept las); [done| |done]. apply Forall_forall. intros c Hc.
  apply list_elem_of_bind in Hc as (e' & Hc & He'). assert (has_entry m (tw_dst u) e') as Hh by (exists (e :: es); split; [done|by right]).
  specialize (Hk _ _ Hh). rewrite Forall_forall in Hk. apply Hk. apply list_elem_of_bind. exists e'. split; [done|by left].
Qed.

Lemma ref_at_shape las las' d : las_shape las' = las_shape las → ref_at las d → ref_at las' d.
Proof.
  intros Hs [R1 R2 R3]. split; [done|by apply (byte_source_shape las)|]. destruct R3 as [bs Hbs].
  apply mem_Some in Hbs as (sa & Hg & Hr & _).
  destruct (las_shape_get las las' _ sa Hs Hg) as (sa' & Hg' & _ & Hl & _).
  eexists. apply mem_Some. exists sa'. rewrite Hl. by split_and!.
Qed.

(** The cells the store stands on. *)
Definition inner m (c : cell) : Prop :=
  (∃ k e, has_entry m k e ∧ c ∈ chain_cells [e]) ∨ (∃ i r, mv_running m !! i = Some r ∧ ru_home r = Some c).
Definition guarded m (c : cell) : Prop := is_Some (sizes !! c) ∨ inner m c.

Lemma entry_cells m k e c : has_entry m k e → c ∈ chain_cells [e] → ∀ s,
  owns s m ForHeader (cell_span c) ∨ c = en_home e ∧ owns s m (ForNumber c) (cell_span c).
Proof.
  intros He Hc s. unfold chain_cells in Hc. simpl in Hc. rewrite !elem_of_cons, elem_of_nil in Hc.
  destruct Hc as [->|[->|[->|[]]]]; [left; by apply owns_version with k|left; by apply owns_other with k|right].
  split; [done|]. by apply owns_number with k.
Qed.

Lemma guarded_owned s m c : guarded m c →
  ∃ p, owns s m p (cell_span c) ∧ match p with ForData _ _ | ForFilling _ => False | _ => True end.
Proof.
  intros [Hc|[(k & e & He & Hc)|(i & r & Hi & Hh)]].
  - exists (ForPointer c). split; [by apply owns_pointer|done].
  - destruct (entry_cells m k e c He Hc s) as [?|[_ ?]]; by eexists.
  - exists (ForRunning c). split; [by apply owns_running with i r|done].
Qed.

Lemma entry_inner m k es : mv_objects m !! k = Some es → ∀ P : cell → Prop, (∀ c, inner m c → P c) →
  Forall P (chain_cells es).
Proof.
  intros Hk P HP. apply Forall_forall. intros c Hc. apply list_elem_of_bind in Hc as (e & Hc & He).
  apply HP. left. exists k, e. split; [by exists es|]. apply list_elem_of_bind. exists e. split; [done|by left].
Qed.

Lemma span_taken_cell s c : span_taken s (cell_span c) ↔ cell_taken s c.
Proof. destruct c; simpl; [done|]. split; [done|]. intros _ o Ho. simpl in Ho. lia. Qed.

Lemma guarded_taken s m c : represents s m → guarded m c → cell_taken s c.
Proof.
  intros Hrp Hc. destruct (guarded_owned s m c Hc) as (p & Hp & _). apply span_taken_cell. by apply (rp_taken _ _ Hrp p).
Qed.

(** The cells of versions are apart from the pointers, and these from each other. *)
Lemma inner_pointer_apart s m k c : represents s m → is_Some (sizes !! k) → inner m c → cells_apart c k.
Proof.
  intros Hrp Hk Hc. pose proof (rp_layout _ _ Hrp) as Hl. apply cells_apart_spans, spans_apart_sym.
  pose proof (owns_pointer s m k Hk) as Hp. destruct Hc as [(k' & e & He & Hc)|(i & r & Hr & Hh)].
  - destruct (entry_cells m k' e c He Hc s) as [Ho|[_ Ho]]; apply (Hl _ _ _ _ Hp Ho).
  - apply (Hl _ _ _ _ Hp (owns_running s m i r c Hr Hh)).
Qed.

Lemma pointers_apart s m k k' : represents s m → is_Some (sizes !! k) → is_Some (sizes !! k') → k ≠ k' →
  cells_apart k k'.
Proof.
  intros Hrp Hk Hk' Hne. apply cells_apart_spans.
  by destruct (rp_layout _ _ Hrp _ _ _ _ (owns_pointer s m k Hk) (owns_pointer s m k' Hk')).
Qed.

(** *** Moving on *)
Definition same_transaction tx tx' : Prop :=
  tx_reader tx' = tx_reader tx ∧ tx_version tx' = tx_version tx ∧
  tx_writeset tx' = tx_writeset tx ∧ tx_readset tx' = tx_readset tx.

Lemma transaction_at_kept las las' m i tx refs r tx' refs' : las_shape las' = las_shape las →
  (∀ c, inner m c → cell_kept las las' c) → mv_running m !! i = Some r →
  same_transaction tx tx' → refs' ⊆ refs →
  transaction_at las (mv_objects m) tx refs r → transaction_at las' (mv_objects m) tx' refs' r.
Proof.
  intros Hs Hk Hi (E1 & E2 & E3 & E4) Hsub [A1 A2 A3 A4 A5 A6]. split; rewrite ?E1, ?E2, ?E3, ?E4; try done.
  - unfold version_matches in *. rewrite E2. destruct (tx_version tx) as [v|], (ru_home r) as [home|] eqn:Hh; try done.
    + apply (version_of_kept las); [done| |done]. apply Hk. right. by exists i, r.
    + subst refs. by apply list_nil_subseteq in Hsub.
  - apply (Forall_impl _ _ _ A4). intros u Hu. apply (write_at_kept las); [done| |done].
    intros k e (es & He & Hin). apply Forall_forall. intros c Hc. apply Hk. left. exists k, e. split; [by exists es|done].
  - apply Forall_forall. intros d Hd. rewrite Forall_forall in A6. apply (ref_at_shape las); [done|]. by apply A6, Hsub.
Qed.

Definition fillings_from s s' : Prop := ∀ i tx' refs', sy_txs s' !! i = Some (tx', refs') →
  ∃ tx refs, sy_txs s !! i = Some (tx, refs) ∧ refs' ⊆ refs.
Definition refs_from s s' : Prop := ∀ i tx' refs', sy_txs s' !! i = Some (tx', refs') →
  ∃ tx refs, sy_txs s !! i = Some (tx, refs) ∧ same_transaction tx tx' ∧ refs' ⊆ refs.

Lemma refs_fillings s s' : refs_from s s' → fillings_from s s'.
Proof. intros Hf i tx' refs' Hi. destruct (Hf i tx' refs' Hi) as (tx & refs & ? & _ & ?). by exists tx, refs. Qed.

Lemma owns_from s s' m p x : fillings_from s s' → owns s' m p x → owns s m p x.
Proof.
  intros Hf. destruct 1 as [| | | | | |i tx' refs' r home d Hi].
  - by constructor.
  - by apply owns_version with k.
  - by apply owns_other with k.
  - by apply owns_number with k.
  - by apply owns_running with i r.
  - by apply owns_data.
  - destruct (Hf i tx' refs' Hi) as (tx & refs & Hi' & Hsub). apply owns_filling with i tx refs r; try done. by apply Hsub.
Qed.

(** Memory that moved on without touching a cell the store stands on. *)
Lemma represents_frame s s' m : represents s m → arena s' →
  (∀ b off n, taken s b off n → taken s' b off n) →
  las_shape (sy_las s') = las_shape (sy_las s) → w_version (sy_world s') = w_version (sy_world s) →
  refs_from s s' → (∀ i, is_Some (sy_txs s !! i) → is_Some (sy_txs s' !! i)) →
  (∀ c, guarded m c → cell_kept (sy_las s) (sy_las s') c) → represents s' m.
Proof.
  intros [R1 R2 R3 R4 R5 R6 R7 R8 R9 R10] Har Ht Hs Hw Hf Hd Hk. split; try done.
  - congruence.
  - intros k es Ho. apply (object_at_kept (sy_las s)); [done|apply Hk; left; apply R5; eauto| |by apply R6].
    apply (entry_inner m k); [done|]. intros c Hc. apply Hk. by right.
  - intros i. rewrite R7. split; [apply Hd|]. intros [[tx' refs'] Hi]. destruct (Hf i tx' refs' Hi) as (? & ? & ? & _). eauto.
  - intros i tx' refs' r Hi Hr. destruct (Hf i tx' refs' Hi) as (tx & refs & Hi' & Hsame & Hsub).
    apply (transaction_at_kept (sy_las s) _ _ i tx refs); try done; [|by apply R8 with i].
    intros c Hc. apply Hk. by right.
  - intros p q x y Hx Hy. apply R9; (apply (owns_from s s'); [by apply refs_fillings|done]).
  - intros p x Hx. apply Ht, (R10 p). apply (owns_from s s'); [by apply refs_fillings|done].
Qed.

(** *** The calls of one transaction *)
Lemma represents_running s m i tx refs : represents s m → sy_txs s !! i = Some (tx, refs) →
  ∃ r, mv_running m !! i = Some r ∧ transaction_at (sy_las s) (mv_objects m) tx refs r.
Proof.
  intros Hrp Hi. destruct (proj2 (rp_running _ _ Hrp i)) as [r Hr]; [eauto|]. exists r. split; [done|].
  by apply (rp_transactions _ _ Hrp i).
Qed.

Lemma version_of_own s m i tx refs r v home : represents s m → sy_txs s !! i = Some (tx, refs) →
  mv_running m !! i = Some r → ru_home r = Some home → version_of (sy_las s) v home →
  own_version tx (sy_world s) v home.
Proof.
  intros Hrp Hi Hr Hh [V1 V2 V3 V4]. split; try done. apply (cell_taken_in_use s i tx refs); [done|].
  apply (guarded_taken s m); [done|]. right. right. by exists i, r.
Qed.

Lemma version_home s m i tx refs r v : represents s m → sy_txs s !! i = Some (tx, refs) →
  mv_running m !! i = Some r → tx_version tx = Some v →
  ∃ home, ru_home r = Some home ∧ version_of (sy_las s) v home ∧ own_version tx (sy_world s) v home.
Proof.
  intros Hrp Hi Hr Hv. pose proof (ta_version _ _ _ _ _ (rp_transactions _ _ Hrp i _ _ _ Hi Hr)) as Hm.
  unfold version_matches in Hm. rewrite Hv in Hm. destruct (ru_home r) as [home|] eqn:Hh; [|done].
  exists home. split_and!; [done|done|]. by apply (version_of_own s m i tx refs r).
Qed.

Lemma represents_tx_inv s m i tx refs : represents s m → sy_txs s !! i = Some (tx, refs) → tx_inv tx (sy_world s).
Proof.
  intros Hrp Hi. split; [by apply (ar_alloc _ (rp_arena _ _ Hrp) i tx refs)|]. intros v Hv.
  destruct (represents_running s m i tx refs Hrp Hi) as (r & Hr & _).
  destruct (version_home s m i tx refs r v) as (home & _ & _ & Ho); [done..|]. by exists home.
Qed.

(** A call that changes nothing in use. *)
Lemma represents_step s m i tx refs tx' w' : represents s m → sy_txs s !! i = Some (tx, refs) →
  tx_inv tx' w' → tx_step tx (sy_world s) tx' w' → tx_version tx' = tx_version tx →
  represents (step_to s i tx' refs w') m ∧
  ∀ b off n, taken s b off n → taken (step_to s i tx' refs w') b off n.
Proof.
  intros Hrp Hi Hinv Hst Hv.
  destruct (arena_step s i tx refs tx' refs w') as [Har Ht]; [apply Hrp|done|apply Hinv|apply Hst| |].
  { intros b off n Hn Hr. by apply (ts_range _ _ _ _ Hst). }
  split; [|done]. apply (represents_frame s); try done; [apply Hst|apply Hst| | |].
  - intros j txj refsj Hj. apply step_to_lookup in Hj as [(<- & <- & <-)|[_ Hj]].
    + exists tx, refs. split_and!; [done|split_and!; [apply Hst|done|apply Hst|apply Hst]|done].
    + by exists txj, refsj.
  - intros j Hj. simpl. destruct (decide (i = j)) as [->|]; [rewrite lookup_insert_eq; eauto|by rewrite lookup_insert_ne].
  - intros c Hc. apply (ts_kept _ _ _ _ Hst). apply (cell_taken_in_use s i tx refs); [done|]. by apply (guarded_taken s m).
Qed.

(** Places that are new. *)
Lemma layout_add (O O' N : purpose → span → Prop) : layout O → (∀ p x, O' p x → O p x ∨ N p x) →
  (∀ p x q y, N p x → O q y → separate p q x y) → layout N → layout O'.
Proof.
  intros HO Hsub HNO HN p q x y [Hx|Hx]%Hsub [Hy|Hy]%Hsub.
  - by apply HO.
  - apply separate_sym. by apply HNO.
  - by apply HNO.
  - by apply HN.
Qed.

Lemma spans_apart_self c : (∃ b off, c = InMemory b off) → ¬ spans_apart (cell_span c) (cell_span c).
Proof. intros (b & off & ->). unfold spans_apart, apart. cbn. unfold size_of_usize. lia. Qed.

Lemma represents_version s m i tx refs r v home : represents s m → sy_txs s !! i = Some (tx, refs) →
  mv_running m !! i = Some r → tx_version tx = None →
  version_of (sy_las s) v home → cell_taken s home →
  (∀ p x, owns s m p x → spans_apart (cell_span home) x) →
  let m' := mk_mvstore (mv_counter m) (mv_objects m)
              (<[i := mk_running (ru_snapshot r) (Some home) (ru_writes r)]> (mv_running m)) in
  mv_step m m' ∧ represents (step_to s i (set_version (Some v) tx) refs (sy_world s)) m'.
Proof.
  intros Hrp Hi Hr Hv Hvo Htk Hfresh m'. pose proof Hrp as [R1 R2 R3 R4 R5 R6 R7 R8 R9 R10].
  pose proof (R8 i tx refs r Hi Hr) as Hta. pose proof (ta_version _ _ _ _ _ Hta) as Hm.
  unfold version_matches in Hm. rewrite Hv in Hm. destruct (ru_home r) as [|] eqn:Hh; [done|]. subst refs.
  pose proof (vo_memory _ _ _ Hvo) as [Hcell _].
  assert (∀ c, c = home → (∃ p, owns s m p (cell_span c)) → False) as Hne.
  { intros c -> (p & Hp). by apply (spans_apart_self home Hcell), (Hfresh p). }
  assert (mv_step m m') as Hst.
  { apply mv_version; [done|done| |].
    - intros k es e Hk He Heq. apply (Hne (en_home e) Heq). eexists. apply owns_number with k. by exists es.
    - intros j r' Hj Heq. apply (Hne home eq_refl). eexists. by apply owns_running with j r'. }
  split; [done|]. set (s' := step_to s i (set_version (Some v) tx) [] (sy_world s)).
  destruct (arena_step s i tx [] (set_version (Some v) tx) [] (sy_world s)) as [Har Ht]; [done|done|by apply (ar_alloc _ R2 i tx [])|done|done|].
  assert (∀ p x, owns s' m' p x → owns s m p x ∨ p = ForRunning home ∧ x = cell_span home) as Hown.
  { intros p x Hp. destruct Hp as [| | | |j r' h Hj Hhj| |j txj refsj r' h d Hj Hrj Hhj Hd]; [left; by constructor|left..| |left|].
    - by apply owns_version with k.
    - by apply owns_other with k.
    - by apply owns_number with k.
    - simpl in Hj. apply lookup_insert_Some in Hj as [[<- <-]|[_ Hj]]; [right; by injection Hhj as <-|left; by apply owns_running with j r'].
    - by apply owns_data.
    - apply step_to_lookup in Hj as [(<- & <- & <-)|[Hne' Hj]]; [by apply elem_of_nil in Hd|].
      simpl in Hrj. rewrite lookup_insert_ne in Hrj by done. left. by apply owns_filling with j txj refsj r'. }
  split; try done.
  - by apply (mv_step_inv m).
  - intros j. simpl. destruct (decide (i = j)) as [->|]; [rewrite !lookup_insert_eq; split; by eexists|rewrite !lookup_insert_ne by done; apply R7].
  - intros j txj refsj rj Hj Hrj. apply step_to_lookup in Hj as [(<- & <- & <-)|[Hne' Hj]].
    + simpl in Hrj. rewrite lookup_insert_eq in Hrj. injection Hrj as <-. destruct Hta. by split.
    + simpl in Hrj. rewrite lookup_insert_ne in Hrj by done. destruct (R8 j txj refsj rj Hj Hrj). by split.
  - apply layout_add with (owns s m) (λ p x, p = ForRunning home ∧ x = cell_span home); [done|done| |].
    + intros p x q y [-> ->] Hy. by apply separate_apart, (Hfresh q).
    + intros p x q y [-> ->] [-> ->]. by left.
  - intros p x Hx. apply Ht. destruct (Hown p x Hx) as [Hx'|[-> ->]]; [by apply (R10 p)|by apply span_taken_cell].
Qed.

(** A further place to fill in. *)
Lemma represents_fill s m i tx refs r home d : represents s m → sy_txs s !! i = Some (tx, refs) →
  mv_running m !! i = Some r → ru_home r = Some home → ref_at (sy_las s) d → span_taken s (ref_span d) →
  (∀ p x, owns s m p x → separate (ForFilling home) p (ref_span d) x) →
  represents (step_to s i tx (d :: refs) (sy_world s)) m.
Proof.
  intros Hrp Hi Hr Hh Hd Htk Hsep. pose proof Hrp as [R1 R2 R3 R4 R5 R6 R7 R8 R9 R10].
  set (s' := step_to s i tx (d :: refs) (sy_world s)).
  assert (∀ p x, owns s' m p x → owns s m p x ∨ p = ForFilling home ∧ x = ref_span d) as Hown.
  { intros p x Hp. destruct Hp as [| | | | | |j txj refsj r' h d' Hj Hrj Hhj Hd']; [left; by constructor|left..|].
    - by apply owns_version with k.
    - by apply owns_other with k.
    - by apply owns_number with k.
    - by apply owns_running with i0 r0.
    - by apply owns_data.
    - apply step_to_lookup in Hj as [(<- & <- & <-)|[_ Hj]]; [|left; by apply owns_filling with j txj refsj r'].
      assert (r' = r) as -> by congruence. assert (h = home) as -> by congruence.
      apply elem_of_cons in Hd' as [->|Hd']; [by right|left; by apply owns_filling with i tx refs r]. }
  split; try done.
  - by apply (arena_refs s i tx refs).
  - intros j. rewrite R7. simpl. destruct (decide (i = j)) as [->|]; [rewrite lookup_insert_eq, Hi|by rewrite lookup_insert_ne].
    split; by eexists.
  - intros j txj refsj rj Hj Hrj. apply step_to_lookup in Hj as [(<- & <- & <-)|[_ Hj]]; [|by apply (R8 j)].
    destruct (R8 i tx refs rj Hi Hrj) as [A1 A2 A3 A4 A5 A6]. split; try done; [|by constructor].
    unfold version_matches in *. rewrite Hr in Hrj. injection Hrj as <-. by rewrite Hh in *; destruct (tx_version tx).
  - apply layout_add with (owns s m) (λ p x, p = ForFilling home ∧ x = ref_span d); [done|done| |].
    + intros p x q y [-> ->] Hy. by apply Hsep.
    + by intros p x q y [-> ->] [-> ->].
  - intros p x Hx. assert (span_taken s x) as Hx' by (by destruct (Hown p x Hx) as [Hx'|[-> ->]]; [apply (R10 p)|]).
    by apply (step_refs_taken s i tx refs).
Qed.

(** The places of one more version. *)
Definition version_places (k : cell) (total : Z) e p x : Prop :=
  p = ForHeader ∧ (x = cell_span (en_version_cell e) ∨ x = cell_span (en_other_cell e)) ∨
  p = ForData (en_home e) k ∧ x = ref_span (en_data total e).

Lemma owns_push s s' m i r e' k es p x : fillings_from s s' → mv_running m !! i = Some r →
  ru_home r = Some (en_home e') → mv_objects m !! k = Some es →
  let m' := mk_mvstore (mv_counter m) (<[k := e' :: es]> (mv_objects m))
              (<[i := mk_running (ru_snapshot r) (ru_home r) (ru_writes r ++ [k])]> (mv_running m)) in
  owns s' m' p x →
  owns s m p x ∨ p = ForNumber (en_home e') ∧ x = cell_span (en_home e') ∨ version_places k (total_at k) e' p x.
Proof.
  intros Hf Hr Hh Hk m' Hp.
  assert (∀ j r', mv_running m' !! j = Some r' → ∃ r0, mv_running m !! j = Some r0 ∧ ru_home r' = ru_home r0) as Hrun.
  { intros j r' Hj. simpl in Hj. apply lookup_insert_Some in Hj as [[<- <-]|[_ Hj]]; [by exists r|by exists r']. }
  assert (∀ k' e, has_entry m' k' e → has_entry m k' e ∨ k' = k ∧ e = e') as Hent.
  { intros k' e (es' & Hk' & He). simpl in Hk'. apply lookup_insert_Some in Hk' as [[<- <-]|[_ Hk']]; [|left; by exists es'].
    apply elem_of_cons in He as [->|He]; [by right|left; by exists es]. }
  destruct Hp as [k' Hk'|k' e He|k' e He|k' e He|j r' h Hj Hhj|k' e He|j tx' refs' r' h d Hj Hrj Hhj Hd].
  - left. by constructor.
  - apply Hent in He as [He|[-> ->]]; [left; by apply owns_version with k'|right; right; left; auto].
  - apply Hent in He as [He|[-> ->]]; [left; by apply owns_other with k'|right; right; left; auto].
  - apply Hent in He as [He|[-> ->]]; [left; by apply owns_number with k'|by right; left].
  - destruct (Hrun j r' Hj) as (r0 & Hj0 & E). left. apply owns_running with j r0; congruence.
  - apply Hent in He as [He|[-> ->]]; [left; by apply owns_data|by right; right; right].
  - destruct (Hf j tx' refs' Hj) as (tx & refs & Hj' & Hsub). destruct (Hrun j r' Hrj) as (r0 & Hj0 & E).
    left. apply owns_filling with j tx refs r0; [done|done|congruence|by apply Hsub].
Qed.

Lemma write_at_push las objects k es u : tw_dst u ≠ k → write_at las objects u → write_at las (<[k := es]> objects) u.
Proof. intros Hne [W1 W2 (e & es' & Ho & ?)]. split; [done|done|]. exists e, es'. by rewrite lookup_insert_ne. Qed.

(** The heap after a store to the pointer [k]. *)
Lemma pointer_store s m k raw new : represents s m → is_Some (sizes !! k) → cell_holds (sy_las s) k raw →
  is_usize new → let las' := cell_put k new (sy_las s) in
  memory_cell (sy_las s) k ∧ poked (sy_las s) las' ∧ cell_holds las' k new ∧
  (∀ c, cells_apart c k → cell_kept (sy_las s) las' c) ∧
  (∀ c, inner m c → cell_kept (sy_las s) las' c) ∧
  (∀ k', is_Some (sizes !! k') → k' ≠ k → cell_kept (sy_las s) las' k').
Proof.
  intros Hrp Hk Hp Hn las'. destruct (proj1 (rp_pointers _ _ Hrp k) Hk) as [es Ho].
  destruct (ob_memory _ _ _ _ (rp_objects _ _ Hrp k es Ho)) as [Hc Hw]. split_and!.
  - done.
  - by apply poked_cell_put with raw.
  - rewrite <- (memory_cell_after (sy_las s) k new) at 1 by done. by apply cell_put_holds with raw.
  - intros c Ha v. by apply cell_put_apart with raw.
  - intros c Hi v. apply cell_put_apart with raw; [done..|]. by apply (inner_pointer_apart s m).
  - intros k' Hk' Hne v. apply cell_put_apart with raw; [done..|]. by apply (pointers_apart s m).
Qed.

(** The layout with the places of one more version of a running transaction. *)
Lemma swing_layout s m k e' (own : purpose → span → Prop) : represents s m →
  owns s m (ForRunning (en_home e')) (cell_span (en_home e')) →
  (∀ p x, own p x → owns s m p x ∨ p = ForNumber (en_home e') ∧ x = cell_span (en_home e') ∨
    version_places k (total_at k) e' p x) →
  (∀ p x q y, version_places k (total_at k) e' p x → owns s m q y → spans_apart x y) →
  layout (version_places k (total_at k) e') → layout own.
Proof.
  intros Hrp Hrun Hown Hap Hlay.
  apply layout_add with (λ p x, owns s m p x ∨ p = ForNumber (en_home e') ∧ x = cell_span (en_home e'))
    (version_places k (total_at k) e'); [| | |done].
  - apply layout_add with (owns s m) (λ p x, p = ForNumber (en_home e') ∧ x = cell_span (en_home e')); [apply Hrp|done| |].
    + intros p x q y [-> ->] Hy. by apply separate_number, (rp_layout _ _ Hrp).
    + by intros p x q y [-> ->] [-> ->].
  - intros p x Hx. destruct (Hown p x Hx) as [|[|]]; tauto.
  - intros p x q y Hx [Hy|[-> ->]]; apply separate_apart; [by apply (Hap p x q y)|by apply (Hap p x _ _ Hx Hrun)].
Qed.

Lemma represents_swing s m i tx refs r k e es raw e' : represents s m → sy_txs s !! i = Some (tx, refs) →
  mv_running m !! i = Some r → ru_home r = Some (en_home e') → en_version e' = 0 →
  mv_objects m !! k = Some (e :: es) → visible (ru_snapshot r) e = true →
  cell_holds (sy_las s) k raw → UntypedPointer_address raw = raw → 0 ≤ en_address e' < 2 ^ 54 →
  version_chain (sy_las s) (total_at k) (en_address e') (e' :: e :: es) →
  (∀ p x q y, version_places k (total_at k) e' p x → owns s m q y → spans_apart x y) →
  layout (version_places k (total_at k) e') →
  (∀ p x, version_places k (total_at k) e' p x → span_taken s x) →
  let m' := mk_mvstore (mv_counter m) (<[k := e' :: e :: es]> (mv_objects m))
              (<[i := mk_running (ru_snapshot r) (ru_home r) (ru_writes r ++ [k])]> (mv_running m)) in
  let w' := with_las (cell_put k (en_address e') (sy_las s)) (sy_world s) in
  let s' := step_to s i (swing tx (TransactionWrite_new k raw (en_address e'))) refs w' in
  mv_step m m' ∧ represents s' m' ∧
  ∀ p x, owns s' m' p x → owns s m p x ∨ p = ForNumber (en_home e') ∧ x = cell_span (en_home e') ∨
    version_places k (total_at k) e' p x.
Proof.
  intros Hrp Hi Hr Hh Hv0 Ho Hvis Hp Hraw Haddr Hch Hap Hlay Htk m' w' s'.
  pose proof Hrp as [R1 R2 R3 R4 R5 R6 R7 R8 R9 R10]. pose proof (R8 i tx refs r Hi Hr) as Hta.
  assert (is_Some (sizes !! k)) as Hk by (apply R5; eauto).
  destruct (pointer_store s m k raw (en_address e')) as (Hkm & Hpk & Hkn & Hka & Hki & Hkp); [done..|usize|].
  assert (mv_step m m') as Hst by by apply mv_write.
  assert (fillings_from s s') as Hf.
  { intros j tx' refs' Hj. apply step_to_lookup in Hj as [(<- & <- & <-)|[_ Hj]]; [by exists tx, refs|by exists tx', refs']. }
  pose proof (λ p x, owns_push s s' m i r e' k (e :: es) p x Hf Hr Hh Ho) as Hown.
  pose proof (owns_running s m i r _ Hr Hh) as Hrun.
  split; [done|]. split; [|done].
  destruct (arena_step s i tx refs (swing tx (TransactionWrite_new k raw (en_address e'))) refs w') as [Har Ht];
    [done|done|by apply (pk_alloc _ _ Hpk), (ar_alloc _ R2 i tx refs)|apply Hpk| |].
  { intros b off n _ [H1 H2]. split; intros o Hr'; [specialize (H1 o Hr')|specialize (H2 o Hr')];
      unfold owned in *; simpl; rewrite (pk_free _ _ Hpk); tauto. }
  assert (∀ j r' u, mv_running m !! j = Some r' → tw_dst u ∈ ru_writes r' → tw_dst u ≠ k) as Hne.
  { intros j r' u Hj Hu Heq. rewrite Heq in Hu. by apply (visible_unwritten m j r' k e es (ru_snapshot r)). }
  assert (∀ j txj refsj rj, sy_txs s !! j = Some (txj, refsj) → mv_running m !! j = Some rj →
    transaction_at (w_las w') (mv_objects m') txj refsj rj) as Htx.
  { intros j txj refsj rj Hj Hrj. pose proof (R8 j txj refsj rj Hj Hrj) as Hta'.
    apply (transaction_at_kept _ (w_las w') _ j _ _ _ txj refsj) in Hta' as [A1 A2 A3 A4 A5 A6]; try done; [|apply Hpk].
    split; try done. rewrite Forall_forall in A4 |- *. intros u Hu. apply write_at_push; [|auto].
    apply (Hne j rj u Hrj). rewrite A3. apply list_elem_of_fmap. by exists u. }
  split; try done.
  - by apply (mv_step_inv m).
  - intros k'. simpl. destruct (decide (k = k')) as [->|]; [rewrite lookup_insert_eq|by rewrite lookup_insert_ne].
    split; [by eexists|done].
  - intros k' es' Hk'. simpl in Hk'. apply lookup_insert_Some in Hk' as [[<- <-]|[Hne' Hk']].
    + destruct (R6 k _ Ho) as [O1 O2 O3 _]. split; [by apply (memory_cell_shape (sy_las s)); [apply Hpk|]|done|done|].
      exists (en_address e'). rewrite UntypedPointer_address_mod, Z.mod_small by done. split_and!; [done|done|].
      apply (version_chain_kept (sy_las s)); [apply Hpk| |done].
      pose proof (owns_pointer s m k Hk) as Hok. apply Forall_chain_cells. split_and!; [..|by apply (entry_inner m k)].
      * apply Hka, cells_apart_spans, (Hap ForHeader _ _ _) with (2 := Hok). by left; auto.
      * apply Hka, cells_apart_spans, (Hap ForHeader _ _ _) with (2 := Hok). by left; auto.
      * apply Hki. right. by exists i, r.
    + apply (object_at_kept (sy_las s)); [apply Hpk|apply Hkp; [apply R5; eauto|done]|by apply (entry_inner m k')|by apply R6].
  - intros j. simpl. destruct (decide (i = j)) as [->|]; [rewrite !lookup_insert_eq; split; by eexists|rewrite !lookup_insert_ne by done; apply R7].
  - intros j txj refsj rj Hj Hrj. simpl in Hrj. apply step_to_lookup in Hj as [(<- & <- & <-)|[Hne' Hj]].
    + rewrite lookup_insert_eq in Hrj. injection Hrj as <-. destruct (Htx i tx refs r Hi Hr) as [A1 A2 A3 A4 A5 A6].
      split; try done; cbn [swing set_writeset tx_writeset ru_writes].
      * by rewrite A3, fmap_app.
      * apply Forall_app. split; [done|]. constructor; [|done]. split; cbn [tw_dst tw_current tw_new]; [done| |].
        { split; [|done]. pose proof (UntypedPointer_address_range raw). rewrite Hraw in *. usize. }
        exists e', (e :: es). unfold m'. cbn [mv_objects]. rewrite lookup_insert_eq. split_and!; [done..|].
        destruct (ob_chain _ _ _ _ (R6 k _ Ho)) as (raw' & Hp' & _ & Hch').
        rewrite (version_word_unique (sy_las s) k raw raw') by done.
        apply (version_chain_kept (sy_las s)); [apply Hpk|by apply (entry_inner m k)|done].
    + rewrite lookup_insert_ne in Hrj by done. by apply Htx with j.
  - by apply (swing_layout s m k e').
  - intros p x Hx. apply Ht. destruct (Hown p x Hx) as [Hx'|[[-> ->]|Hx']]; [by apply (R10 p)| |by apply (Htk p)].
    by apply (R10 _ _ Hrun).
Qed.

(** *** A transaction begins *)
Lemma represents_begin s m i root : represents s m → sy_txs s !! i = None →
  let m' := mk_mvstore (mv_counter m) (mv_objects m) (<[i := mk_running (mv_counter m) None []]> (mv_running m)) in
  mv_step m m' ∧ represents (step_to s i (fresh_transaction root (sy_world s)) [] (sy_world s)) m'.
Proof.
  intros Hrp Hi m'. pose proof Hrp as [R1 R2 R3 R4 R5 R6 R7 R8 R9 R10].
  assert (mv_running m !! i = None) as Hr.
  { apply eq_None_not_Some. rewrite R7, Hi. by intros [? ?]. }
  assert (mv_step m m') as Hst by by apply mv_begin. split; [done|].
  destruct (arena_begin s i (fresh_transaction root (sy_world s)) []) as [Har Ht]; [done..|].
  set (s' := step_to s i (fresh_transaction root (sy_world s)) [] (sy_world s)) in *.
  assert (∀ p x, owns s' m' p x → owns s m p x) as Hown.
  { intros p x Hp. destruct Hp as [| | | |j r' h Hj Hhj| |j txj refsj r' h d Hj Hrj Hhj Hd]; [by constructor|..].
    - by apply owns_version with k.
    - by apply owns_other with k.
    - by apply owns_number with k.
    - simpl in Hj. apply lookup_insert_Some in Hj as [[<- <-]|[_ Hj]]; [done|by apply owns_running with j r'].
    - by apply owns_data.
    - apply step_to_lookup in Hj as [(<- & <- & <-)|[Hne Hj]]; [by apply elem_of_nil in Hd|].
      simpl in Hrj. rewrite lookup_insert_ne in Hrj by done. by apply owns_filling with j txj refsj r'. }
  split; try done.
  - by apply (mv_step_inv m).
  - intros j. simpl. destruct (decide (i = j)) as [->|]; [rewrite !lookup_insert_eq; split; by eexists|rewrite !lookup_insert_ne by done; apply R7].
  - intros j txj refsj rj Hj Hrj. simpl in Hrj. apply step_to_lookup in Hj as [(<- & <- & <-)|[Hne Hj]].
    + rewrite lookup_insert_eq in Hrj. injection Hrj as <-. by split.
    + rewrite lookup_insert_ne in Hrj by done. by apply (R8 j).
  - intros p q x y Hx Hy. apply R9; by apply Hown.
  - intros p x Hx. apply Ht, (R10 p). by apply Hown.
Qed.

(** *** Bytes filled in *)
Lemma mem_within las b off n k len : is_Some (mem las b off n) → 0 ≤ k → 0 ≤ len → k + len ≤ n →
  is_Some (mem las b (off + k) len).
Proof.
  intros [bs Hbs] Hk Hl Hle. apply mem_Some in Hbs as (sa & Hg & Hr & _). eexists. apply mem_Some. exists sa.
  split_and!; [done| |done]. unfold in_range in *. lia.
Qed.

(** The bytes a running transaction has been handed to fill. *)
Definition filling s (i : nat) (d : memref) : Prop := ∃ tx refs, sy_txs s !! i = Some (tx, refs) ∧ d ∈ refs.

Lemma filling_owned s m i d : represents s m → filling s i d → ∃ r home, mv_running m !! i = Some r ∧
  ru_home r = Some home ∧ owns s m (ForFilling home) (ref_span d) ∧ ref_at (sy_las s) d.
Proof.
  intros Hrp (tx & refs & Hi & Hd). destruct (represents_running s m i tx refs Hrp Hi) as (r & Hr & Hta).
  pose proof (ta_version _ _ _ _ _ Hta) as Hv. unfold version_matches in Hv.
  pose proof (ta_refs _ _ _ _ _ Hta) as Hrefs. rewrite Forall_forall in Hrefs.
  destruct (ru_home r) as [home|] eqn:Hh.
  - exists r, home. split_and!; [done..| |auto]. by apply owns_filling with i tx refs r.
  - destruct (tx_version tx); [done|]. subst refs. by apply elem_of_nil in Hd.
Qed.

Lemma spans_apart_within c d off n : spans_apart (cell_span c) (ref_span d) → 0 < mr_len d →
  0 ≤ off → off + n ≤ mr_len d →
  match c with InMemory b' o => b' ≠ mr_source d ∨ apart (o, size_of_usize) (mr_off d + off, n) | OnStack _ => True end.
Proof.
  destruct c as [b o|]; [|done]. unfold spans_apart, apart. cbn. unfold size_of_usize. intros; lia.
Qed.

Lemma represents_store s m i d off bytes : represents s m → filling s i d → 0 ≤ off → off + blen bytes ≤ mr_len d →
  let las' := put (mr_source d) (mr_off d + off) bytes (sy_las s) in
  las_store (mr_source d) (mr_off d + off) bytes (sy_las s) = (Ok tt, las') ∧
  represents (poke_to s (with_las las' (sy_world s))) m.
Proof.
  intros Hrp Hd Hoff Hle las'. destruct (filling_owned s m i d Hrp Hd) as (r & home & Hr & Hh & Ho & [Hl Hsrc Hm]).
  pose proof (blen_nonneg bytes) as Hb.
  assert (is_Some (mem (sy_las s) (mr_source d) (mr_off d + off) (blen bytes))) as Hm' by by apply mem_within with (mr_len d).
  split; [by apply las_store_ok|].
  destruct (arena_poke s (with_las las' (sy_world s))) as [Har Ht]; [apply Hrp|by apply poked_put|].
  apply (represents_frame s); try done.
  - by apply las_shape_put.
  - intros j txj refsj Hj. by exists txj, refsj.
  - intros c Hc. apply put_kept; [done|done|]. apply spans_apart_within; [|done|lia|lia].
    destruct (guarded_owned s m c Hc) as (p & Hp & Hcell).
    pose proof (rp_layout _ _ Hrp _ _ _ _ Hp Ho) as Hs. by destruct p.
Qed.

(** *** A transaction ends *)
Lemma commit_entry_spans home n e : en_version_cell (commit_entry home n e) = en_version_cell e ∧
  en_other_cell (commit_entry home n e) = en_other_cell e ∧ en_home (commit_entry home n e) = en_home e ∧
  (∀ total, en_data total (commit_entry home n e) = en_data total e) ∧
  en_address (commit_entry home n e) = en_address e.
Proof. unfold commit_entry. by case_decide. Qed.

(** The places after a transaction has ended: no new ones. *)
Lemma owns_ended s m i n objects w' p x :
  (∀ k es e, objects !! k = Some es → e ∈ es → ∃ e0, has_entry m k e0 ∧
     en_version_cell e = en_version_cell e0 ∧ en_other_cell e = en_other_cell e0 ∧ en_home e = en_home e0 ∧
     ∀ total, en_data total e = en_data total e0) →
  owns (ended (poke_to s w') i) (mk_mvstore n objects (delete i (mv_running m))) p x → owns s m p x.
Proof.
  intros Hent Hp. destruct Hp as [|k e (es & Hk & He)|k e (es & Hk & He)|k e (es & Hk & He)|j r' h Hj Hhj|
    k e (es & Hk & He)|j txj refsj r' h d Hj Hrj Hhj Hd]; [by constructor|..];
    try (destruct (Hent k es e Hk He) as (e0 & He0 & E1 & E2 & E3 & E4); rewrite ?E1, ?E2, ?E3, ?E4).
  - by apply owns_version with k.
  - by apply owns_other with k.
  - by apply owns_number with k.
  - simpl in Hj. apply lookup_delete_Some in Hj as [_ Hj]. by apply owns_running with j r'.
  - by apply owns_data.
  - apply ended_lookup in Hj as [_ Hj]. simpl in Hrj. apply lookup_delete_Some in Hrj as [_ Hrj]. by apply owns_filling with j txj refsj r'.
Qed.

(** A running transaction's version cell is written: it stays apart from all else. *)
Lemma home_apart s m i r home : represents s m → mv_running m !! i = Some r → ru_home r = Some home →
  (∀ k, is_Some (sizes !! k) → cells_apart k home) ∧
  (∀ k e, has_entry m k e → entry_apart home e) ∧
  (∀ j r' home', j ≠ i → mv_running m !! j = Some r' → ru_home r' = Some home' → cells_apart home' home).
Proof.
  intros Hrp Hr Hh. pose proof (rp_layout _ _ Hrp) as Hl. pose proof (owns_running s m i r home Hr Hh) as Ho.
  split_and!.
  - intros k Hk. apply cells_apart_spans, (Hl _ _ _ _ (owns_pointer s m k Hk) Ho).
  - intros k e He. split_and!; rewrite ?cells_apart_spans.
    + right. apply (Hl _ _ _ _ (owns_version s m k e He) Ho).
    + apply (Hl _ _ _ _ (owns_other s m k e He) Ho).
    + apply (Hl _ _ _ _ (owns_number s m k e He) Ho).
  - intros j r' home' Hne Hj Hhj. apply cells_apart_spans.
    destruct (Hl _ _ _ _ (owns_running s m j r' home' Hj Hhj) Ho) as [->|]; [|done].
    destruct Hne. by apply (mi_homes _ (rp_inv _ _ Hrp) j i r' r home).
Qed.

Lemma represents_commit s m i tx refs r v home : represents s m → sy_txs s !! i = Some (tx, refs) →
  mv_running m !! i = Some r → ru_home r = Some home → version_of (sy_las s) v home →
  w_version (sy_world s) + 1 < 2 ^ 63 →
  let n := mv_counter m + 1 in
  let m' := mk_mvstore n (commit_objects home n (mv_objects m)) (delete i (mv_running m)) in
  mv_step m m' ∧ represents (ended (poke_to s (committed (sy_world s) home)) i) m'.
Proof.
  intros Hrp Hi Hr Hh Hvo Hlt n m'. pose proof Hrp as [R1 R2 R3 R4 R5 R6 R7 R8 R9 R10].
  assert (mv_step m m') as Hst by (by apply mv_commit with r). split; [done|].
  destruct (home_apart s m i r home Hrp Hr Hh) as (Hpk & Hent & Hoth).
  pose proof (version_at_holds _ _ _ _ (vo_at _ _ _ Hvo)) as Hhold. destruct (vo_memory _ _ _ Hvo) as [Hcell Hwr].
  pose proof (mi_counter _ R1) as Hpos.
  set (las' := cell_put home n (sy_las s)). set (w' := committed (sy_world s) home).
  assert (w_las w' = las') as Hw by (unfold w', committed, las', n; by rewrite R3).
  assert (poked (sy_las s) las') as Hpo by by apply poked_cell_put with 0.
  destruct (arena_poke s w') as [Har1 Ht1]; [done|by rewrite Hw|].
  destruct (arena_end (poke_to s w') i Har1) as [Har Ht].
  assert (∀ c, cells_apart c home → cell_kept (sy_las s) las' c) as Hkept.
  { intros c Hc x. by apply cell_put_apart with 0. }
  assert (∀ k es total raw, mv_objects m !! k = Some es → ∀ es1 es0, es = es1 ++ es0 → version_chain (sy_las s) total raw es0 →
    version_chain las' total raw (commit_entry home n <$> es0)) as Hchain.
  { intros k es total raw Hk es1 es0 -> Hch. apply version_chain_commit with 0; try done; [lia|].
    apply Forall_forall. intros e He. apply (Hent k). eexists. split; [done|]. apply elem_of_app. by right. }
  assert (∀ p x, owns (ended (poke_to s w') i) m' p x → owns s m p x) as Hown.
  { intros p x. apply owns_ended. intros k es e Hk He. rewrite commit_lookup in Hk. apply fmap_Some in Hk as (es0 & Hk & ->).
    apply list_elem_of_fmap in He as (e0 & -> & He). exists e0.
    destruct (commit_entry_spans home n e0) as (E1 & E2 & E3 & E4 & _). split_and!; try done. by exists es0. }
  split; try done.
  - by apply (mv_step_inv m).
  - simpl. unfold n. by rewrite R3.
  - intros k. rewrite R5. simpl. rewrite commit_lookup. by rewrite fmap_is_Some.
  - intros k es Hk. simpl in Hk. rewrite commit_lookup in Hk. apply fmap_Some in Hk as (es0 & Hk & ->).
    destruct (R6 k es0 Hk) as [O1 O2 O3 (raw & Hp & Ha & Hch)]. change (sy_las (ended (poke_to s w') i)) with (w_las w'). rewrite Hw. split.
    + apply (memory_cell_shape (sy_las s)); [apply Hpo|done].
    + done.
    + by destruct es0.
    + exists raw. split_and!; [|done|by apply (Hchain k es0 _ _ Hk [])]. apply Hkept; [|done]. apply Hpk, R5. eauto.
  - intros j. simpl. destruct (decide (i = j)) as [->|]; [rewrite !lookup_delete_eq; split; by intros []|rewrite !lookup_delete_ne by done; apply R7].
  - intros j txj refsj rj Hj Hrj. apply ended_lookup in Hj as [Hne Hj]. simpl in Hrj. rewrite lookup_delete_ne in Hrj by done.
    change (sy_las (ended (poke_to s w') i)) with (w_las w'). rewrite Hw. destruct (R8 j txj refsj rj Hj Hrj) as [A1 A2 A3 A4 A5 A6]. split; try done.
    + unfold version_matches in *. destruct (tx_version txj), (ru_home rj) as [homej|] eqn:Hhj; try done.
      apply (version_of_kept (sy_las s)); [apply Hpo| |done]. apply Hkept. by apply (Hoth j rj).
    + apply (Forall_impl _ _ _ A4). intros u [W1 W2 (e & es & Ho & Hn & Hch)]. split; [done|done|].
      exists (commit_entry home n e), (commit_entry home n <$> es). unfold m'. cbn [mv_objects]. rewrite commit_lookup, Ho.
      split_and!; [done|by rewrite (proj2 (proj2 (proj2 (proj2 (commit_entry_spans home n e)))))|].
      by apply (Hchain _ (e :: es) _ _ Ho [e]).
    + apply (Forall_impl _ _ _ A6). intros d. apply ref_at_shape, Hpo.
  - intros p q x y Hx Hy. apply R9; by apply Hown.
  - intros p x Hx. apply Ht, Ht1, (R10 p). by apply Hown.
Qed.

(** What a transaction has swung can be put back. *)
Lemma write_swung s m u : represents s m → write_at (sy_las s) (mv_objects m) u → swung (sy_las s) u.
Proof.
  intros Hrp [W1 [W2 _] (e & es & Ho & Hn & _)]. destruct (rp_objects _ _ Hrp _ _ Ho) as [O1 _ _ (raw & Hp & Ha & Hch)].
  split; [done| |done]. rewrite Hn. inversion Hch as [|? ? ? ? _ _ E]; subst. by rewrite E, Ha.
Qed.

Lemma writes_apart_distinct s m us : represents s m → NoDup (tw_dst <$> us) →
  Forall (λ u, is_Some (sizes !! tw_dst u)) us → writes_apart us.
Proof.
  intros Hrp. induction us as [|u us IH]; intros Hnd Hus; [constructor|]. rewrite fmap_cons, NoDup_cons in Hnd.
  destruct Hnd as [Hnin Hnd]. apply Forall_cons in Hus as [Hu Hus]. constructor; [|by apply IH].
  rewrite Forall_forall in Hus |- *. intros u' Hu'.
  assert (tw_dst u ≠ tw_dst u') as Hne. { intros E. apply Hnin. rewrite E. apply list_elem_of_fmap. by exists u'. }
  split; apply (pointers_apart s m); auto.
Qed.

Lemma transaction_writes s m i tx refs r : represents s m → sy_txs s !! i = Some (tx, refs) → mv_running m !! i = Some r →
  Forall (swung (sy_las s)) (tx_writeset tx) ∧ writes_apart (tx_writeset tx).
Proof.
  intros Hrp Hi Hr. pose proof (rp_transactions _ _ Hrp i _ _ _ Hi Hr) as [_ _ A3 A4 _ _]. split.
  - apply (Forall_impl _ _ _ A4). intros u. by apply write_swung.
  - apply (writes_apart_distinct s m); [done| |apply (Forall_impl _ _ _ A4); by intros u []].
    rewrite <- A3. by apply (mi_distinct _ (rp_inv _ _ Hrp) i).
Qed.

Lemma represents_undo s m i tx refs r n : represents s m → sy_txs s !! i = Some (tx, refs) →
  mv_running m !! i = Some r → mv_counter m ≤ n →
  let w' := mk_World (undo (tx_writeset tx) (sy_las s)) n in
  represents (ended (poke_to s w') i)
    (mk_mvstore n (undo_objects (ru_writes r) (mv_objects m)) (delete i (mv_running m))).
Proof.
  intros Hrp Hi Hr Hn w'. pose proof Hrp as [R1 R2 R3 R4 R5 R6 R7 R8 R9 R10].
  destruct (transaction_writes s m i tx refs r Hrp Hi Hr) as [Hsw Hord].
  destruct (R8 i tx refs r Hi Hr) as [_ _ A3 A4 _ _].
  destruct (undo_kept _ _ Hsw Hord) as [Hs Hk]. pose proof (undo_restores _ _ Hsw Hord) as Hback.
  set (las' := undo (tx_writeset tx) (sy_las s)) in *. set (ks := ru_writes r) in *.
  pose proof (undo_inv m i r n R1 Hr Hn) as Hinv.
  set (m' := mk_mvstore n (undo_objects ks (mv_objects m)) (delete i (mv_running m))) in *.
  assert (Forall (λ u, is_Some (sizes !! tw_dst u)) (tx_writeset tx)) as Hdst.
  { apply (Forall_impl _ _ _ A4). by intros u []. }
  assert (∀ c, inner m c → cell_kept (sy_las s) las' c) as Hin.
  { intros c Hc. apply Hk. apply (Forall_impl _ _ _ Hdst). intros u Hu. by apply (inner_pointer_apart s m). }
  assert (∀ k, is_Some (sizes !! k) → k ∉ ks → cell_kept (sy_las s) las' k) as Hpk.
  { intros k Hk' Hnin. apply Hk. rewrite Forall_forall in Hdst |- *. intros u Hu. apply (pointers_apart s m); auto.
    intros ->. apply Hnin. rewrite A3. apply list_elem_of_fmap. by exists u. }
  assert (poked (sy_las s) las') as Hpo by by apply poked_undo.
  destruct (arena_poke s w') as [Har1 Ht1]; [done|done|]. destruct (arena_end (poke_to s w') i Har1) as [Har Ht].
  assert (∀ p x, owns (ended (poke_to s w') i) m' p x → owns s m p x) as Hown.
  { intros p x. apply owns_ended. intros k es e Hk' He. rewrite undo_lookup in Hk'. apply fmap_Some in Hk' as (es0 & Hk' & ->).
    exists e. split_and!; try done. exists es0. split; [done|]. destruct (decide (k ∈ ks)); [|done].
    destruct es0; [done|by right]. }
  split; try done.
  - intros k. rewrite R5. simpl. rewrite undo_lookup. by rewrite fmap_is_Some.
  - intros k es Hk'. simpl in Hk'. rewrite undo_lookup in Hk'. apply fmap_Some in Hk' as (es0 & Hk' & ->).
    change (sy_las (ended (poke_to s w') i)) with las'. pose proof (R6 k es0 Hk') as Hob.
    destruct (decide (k ∈ ks)) as [Hks|Hks].
    + destruct (mi_writes _ R1 i r k Hr Hks) as (e & e0 & es & Ho & _). rewrite Hk' in Ho. injection Ho as ->.
      rewrite A3 in Hks. apply list_elem_of_fmap in Hks as (u & -> & Hu).
      rewrite Forall_forall in A4, Hback. destruct (A4 u Hu) as [_ [_ W3] (e' & es' & Ho & _ & Hch)].
      rewrite Hk' in Ho. injection Ho as <- <-. destruct Hob as [O1 O2 _ _].
      split; [by apply (memory_cell_shape (sy_las s))|done|done|]. exists (tw_current u). split_and!; [by apply Hback|done|].
      apply (version_chain_kept (sy_las s)); [done| |done].
      pose proof (entry_inner m _ _ Hk' _ Hin) as Hall. apply Forall_chain_cells in Hall. apply Hall.
    + apply (object_at_kept (sy_las s)); [done|apply Hpk; [apply R5; eauto|done]|by apply (entry_inner m k)|done].
  - intros j. simpl. destruct (decide (i = j)) as [->|]; [rewrite !lookup_delete_eq; split; by intros []|rewrite !lookup_delete_ne by done; apply R7].
  - intros j txj refsj rj Hj Hrj. apply ended_lookup in Hj as [Hne Hj]. simpl in Hrj. rewrite lookup_delete_ne in Hrj by done.
    change (sy_las (ended (poke_to s w') i)) with las'. pose proof (R8 j txj refsj rj Hj Hrj) as Hta.
    apply (transaction_at_kept _ las' _ j _ _ _ txj refsj) in Hta as [B1 B2 B3 B4 B5 B6]; try done. split; try done.
    rewrite Forall_forall in B4 |- *. intros u Hu. destruct (B4 u Hu) as [W1 W2 (e & es & Ho & ?)]. split; [done|done|].
    exists e, es. unfold m'. cbn [mv_objects]. rewrite undo_lookup, Ho. split; [|done]. cbn. rewrite decide_False; [done|].
    intros Hks. destruct (mi_writes _ R1 i r _ Hr Hks) as (e1 & e2 & es1 & Ho1 & Hh1 & _).
    assert (tw_dst u ∈ ru_writes rj) as Hkj by (rewrite B3; apply list_elem_of_fmap; by exists u).
    destruct (mi_writes _ R1 j rj _ Hrj Hkj) as (e3 & e4 & es3 & Ho3 & Hh3 & _).
    apply Hne. apply (mi_homes _ R1 i j r rj (en_home e1)); congruence.
  - intros p q x y Hx Hy. apply R9; by apply Hown.
  - intros p x Hx. apply Ht, Ht1, (R10 p). by apply Hown.
Qed.
End Represents.
