(* ===== verification/Calls.v ===== *)
(** * The calls of transactions side by side

    Each call of a transaction, over a heap that stands for a multi-version
    store: what it returns, the steps of the store it takes, and that the bytes
    of committed versions stay as they are. *)
From S2P Require Import Prelude Utils Source SourceAllocator Slices Las Memory Pointer Vos.
From S2P Require Import Allocators Versions Objects Tx Transactions Heap Runs Snapshot Arena Simulation.

Section Calls.
Context `{T : Target} `{TOk : !TargetOk T} `{C : Crc} {D : Type} `{Src : !Source D} `{Laws : !SourceLaws D}.
Context (sizes : gmap cell ObjectSize).
Abbreviation LAS := (LogicalAddressSpace D).
Abbreviation represents := (represents sizes).
Abbreviation owns := (owns sizes).
Abbreviation total_at := (total_at sizes).
Implicit Types (las : LAS) (w : World D) (tx : Transaction) (s : system D) (refs : list memref).
Implicit Types (m : mvstore cell) (r : running cell) (e : entry) (es : list entry) (p : purpose) (x y : span).

Lemma step_to_same s i tx refs : sy_txs s !! i = Some (tx, refs) → step_to s i tx refs (sy_world s) = s.
Proof. intros Hi. unfold step_to. rewrite insert_id by done. by destruct s. Qed.

Lemma step_to_twice s i tx refs w tx' refs' w' :
  step_to (step_to s i tx refs w) i tx' refs' w' = step_to s i tx' refs' w'.
Proof. unfold step_to. simpl. by rewrite insert_insert_eq. Qed.

Lemma step_to_this s i tx refs w : sy_txs (step_to s i tx refs w) !! i = Some (tx, refs).
Proof. apply lookup_insert_eq. Qed.

(** *** Bytes that are settled: of a version, and no pointer *)
Definition settled (P : entry → Prop) (objects : gmap cell (list entry)) (b o : Z) : Prop :=
  (∃ k es e, objects !! k = Some es ∧ e ∈ es ∧ P e ∧ en_base e = b ∧
     mr_off (en_data (total_at k) e) ≤ o < mr_off (en_data (total_at k) e) + total_at k) ∧
  ∀ off, is_Some (sizes !! InMemory b off) → ¬ off ≤ o < off + size_of_usize.

(** Settled bytes stay as they are: those of the versions with [P]. *)
Definition keeps (P : entry → Prop) m las las' : Prop := las_shape las' = las_shape las ∧
  ∀ b o, settled P (mv_objects m) b o → mem las' b o 1 = mem las b o 1.

Definition any_version e : Prop := True.
Definition committed_version e : Prop := en_version e ≠ 0.

Lemma keeps_refl P m las : keeps P m las las.
Proof. done. Qed.

Lemma keeps_trans P m m' las las' las'' : mv_objects m' = mv_objects m →
  keeps P m las las' → keeps P m' las' las'' → keeps P m las las''.
Proof. intros E [S1 H1] [S2 H2]. split; [congruence|]. intros b o Hs. rewrite H2; [by apply H1|by rewrite E]. Qed.

Lemma keeps_fewer (P Q : entry → Prop) m las las' : (∀ e, P e → Q e) → keeps Q m las las' → keeps P m las las'.
Proof.
  intros HPQ [Hs Hk]. split; [done|]. intros b o [(k & es & e & ? & ? & ? & ?) ?]. apply Hk. split; [|done].
  exists k, es, e. auto.
Qed.

Lemma keeps_committed m las las' : keeps any_version m las las' → keeps committed_version m las las'.
Proof. by apply keeps_fewer. Qed.

Lemma settled_taken P s m b o : represents s m → settled P (mv_objects m) b o → taken s b o 1.
Proof.
  intros Hrp [(k & es & e & Hk & He & _ & <- & Ho) _].
  assert (span_taken s (ref_span (en_data (total_at k) e))) as Ht.
  { apply (rp_taken _ _ _ Hrp (ForData (en_home e) k)). apply owns_data. by exists es. }
  intros o' Ho'. apply Ht. simpl in *. lia.
Qed.

Lemma keeps_step s m i tx refs tx' w' : represents s m → sy_txs s !! i = Some (tx, refs) →
  tx_step tx (sy_world s) tx' w' → keeps any_version m (sy_las s) (w_las w').
Proof.
  intros Hrp Hi Hst. split; [apply Hst|]. intros b o Hs. apply (ts_range _ _ _ _ Hst); [done|].
  apply (taken_in_use s i tx refs); [done|]. by apply (settled_taken any_version s m).
Qed.

Lemma keeps_put P m las b off data : byte_source las b → is_Some (mem las b off (blen data)) →
  (∀ o, settled P (mv_objects m) b o → ¬ off ≤ o < off + blen data) → keeps P m las (put b off data las).
Proof.
  intros Hb Hm Hap. split; [by apply las_shape_put|]. intros b' o Hs. apply mem_put_apart; [done|done|]. destruct (decide (b' = b)) as [->|]; [right|by left].
  specialize (Hap o Hs). unfold apart. simpl. pose proof (blen_nonneg data). lia.
Qed.

Lemma keeps_pointer P m las k raw v : cell_holds las k raw → memory_cell las k → is_Some (sizes !! k) →
  keeps P m las (cell_put k v las).
Proof.
  intros Hp [(b & off & ->) Hw] Hk. apply keeps_put; [done| |].
  - rewrite blen_u64. destruct Hp as [Hm _]. by eexists.
  - intros o [_ Hs]. rewrite blen_u64. by apply Hs.
Qed.

(** The bytes of versions are apart from the version cell of a running
    transaction, and from the places it may fill, but for its own versions. *)
Lemma settled_running P s m i r home x b o : represents s m → mv_running m !! i = Some r → ru_home r = Some home →
  settled P (mv_objects m) b o → sp_base x = b → 0 < sp_len x →
  owns s m (ForRunning home) x ∨ owns s m (ForFilling home) x ∧ (∀ k e, has_entry m k e → P e → en_home e ≠ home) →
  ¬ sp_off x ≤ o < sp_off x + sp_len x.
Proof.
  intros Hrp Hr Hh [(k & es & e & Hk & He & HP & <- & Ho) _] Hb Hl Hx.
  assert (has_entry m k e) as Hent by by exists es.
  assert (owns s m (ForData (en_home e) k) (ref_span (en_data (total_at k) e))) as Hd by by apply owns_data.
  assert (spans_apart (ref_span (en_data (total_at k) e)) x) as Hap.
  { destruct Hx as [Hx|[Hx Hne]]; pose proof (rp_layout _ _ _ Hrp _ _ _ _ Hd Hx) as Hs; [done|].
    destruct Hs as [[? _]|]; [by destruct (Hne k e)|done]. }
  unfold spans_apart, apart in Hap. simpl in *. lia.
Qed.

Lemma committed_not_running s m i r home k e : represents s m → mv_running m !! i = Some r → ru_home r = Some home →
  has_entry m k e → committed_version e → en_home e ≠ home.
Proof. intros Hrp Hr Hh (es & Hk & He) Hv Heq. by apply Hv, (mi_own _ (rp_inv _ _ _ Hrp) i r home k es). Qed.

(** *** Fresh memory *)
Definition fresh_block tx w (b lo len : Z) : Prop := ∀ b' off n, 0 < n → tx_range_in_use tx w b' off n →
  b' ≠ b ∨ apart (off, n) (lo, len).

(** What an allocator hands out is no other's either. *)
Lemma fresh_taken s i tx refs tx' refs' w' b lo len off n : arena s → sy_txs s !! i = Some (tx, refs) →
  fresh_block tx (sy_world s) b lo len → lo ≤ off → off + n ≤ lo + len →
  tx_range_in_use tx' w' b off n → taken (step_to s i tx' refs' w') b off n.
Proof.
  intros Har Hi Hfresh Hlo Hhi [H1 H2] o Ho. split; [intros Hf; apply (H1 o Ho); by right|].
  intros j txj refsj Hj. apply step_to_lookup in Hj as [(<- & <- & <-)|[Hne Hj]].
  - intros [Ha|Ha]; [apply (H1 o Ho); by left|apply (H2 o Ho); by left].
  - intros Ha. assert (tx_range_in_use tx (sy_world s) b o 1) as Hu.
    { apply not_owned_unclaimed. split.
      - intros Hf. destruct (ar_alloc _ Har j txj refsj Hj) as [_ [_ A1] [_ A2] _ _].
        destruct Ha as [Ha|Ha]; [by apply (A1 b o)|by apply (A2 b o)].
      - intros Ha'. by apply (ar_disjoint _ Har i j tx txj refs refsj b o). }
    destruct (Hfresh b o 1) as [|Hap]; [done..|]. unfold apart in Hap. simpl in Hap. lia.
Qed.

Lemma fresh_apart s i tx refs b lo len x y : sy_txs s !! i = Some (tx, refs) →
  fresh_block tx (sy_world s) b lo len → sp_base x = b → lo ≤ sp_off x → sp_off x + sp_len x ≤ lo + len →
  span_taken s y → spans_apart x y.
Proof.
  intros Hi Hfresh Hb Hlo Hhi Hy. unfold spans_apart.
  destruct (decide (sp_len x ≤ 0)); [by left|]. destruct (decide (sp_len y ≤ 0)); [by right; left|right; right].
  destruct (Hfresh (sp_base y) (sp_off y) (sp_len y)) as [|Hap]; [lia|by apply (taken_in_use s i tx refs)|left; congruence|].
  right. unfold apart in *. simpl in *. lia.
Qed.

(** *** What a call of a transaction does to the store *)

(** The transaction [i] goes on, with [ks] among what it has written. *)
Definition goes_on m m' (i : nat) r (ks : list cell) : Prop := rtc mv_call m m' ∧ ∃ home,
  mv_running m' = <[i := mk_running (ru_snapshot r) home (ru_writes r ++ ks)]> (mv_running m).

Lemma goes_on_refl m i r : mv_running m !! i = Some r → goes_on m m i r [].
Proof. intros Hr. split; [done|]. exists (ru_home r). rewrite app_nil_r, insert_id; [done|]. rewrite Hr. by destruct r. Qed.

Lemma goes_on_trans m m1 m2 i r home ks : goes_on m m1 i r [] →
  mv_running m1 !! i = Some (mk_running (ru_snapshot r) home (ru_writes r)) →
  goes_on m1 m2 i (mk_running (ru_snapshot r) home (ru_writes r)) ks → goes_on m m2 i r ks.
Proof.
  intros [A1 [h1 A2]] Hr [B1 [h2 B2]]. split; [by etrans|]. exists h2. rewrite B2, A2. by rewrite insert_insert_eq.
Qed.

Lemma goes_on_insert m m' i r home ks : mv_step m m' →
  mv_running m' = <[i := mk_running (ru_snapshot r) home (ru_writes r ++ ks)]> (mv_running m) → goes_on m m' i r ks.
Proof. intros Hs Hr. split; [|by exists home]. by eapply rtc_once, mv_call_insert. Qed.

(** The transaction [i] is over. *)
Definition ends m m' (i : nat) : Prop := mv_step m m' ∧ mv_running m' = delete i (mv_running m).

(** *** The version of the transaction *)

(** The transaction [i] has a version; otherwise the store is as it was. *)
Definition versioned m m' (i : nat) r : Prop := ∃ home,
  mv_objects m' = mv_objects m ∧ mv_counter m' = mv_counter m ∧
  mv_running m' !! i = Some (mk_running (ru_snapshot r) (Some home) (ru_writes r)).

Lemma fresh_version s m i tx refs r v tx0 w' home : represents s m → sy_txs s !! i = Some (tx, refs) →
  mv_running m !! i = Some r → tx_version tx = None → tx_inv tx0 w' → tx_step tx (sy_world s) tx0 w' →
  tx_version tx0 = None → own_version (set_version (Some v) tx0) w' v home →
  (∀ b off n, 0 < n → tx_range_in_use tx (sy_world s) b off n → range_apart b off n home) →
  ∃ m', goes_on m m' i r [] ∧ represents (step_to s i (set_version (Some v) tx0) refs w') m' ∧ versioned m m' i r.
Proof.
  intros Hrp Hi Hr Hv Hinv0 Hst Hv0 Hown Hfresh.
  destruct (represents_step sizes s m i tx refs tx0 w') as [Hrp0 Ht0]; [done..|congruence|].
  set (s0 := step_to s i tx0 refs w') in *. destruct Hown as [O1 O2 O3 O4 O5].
  pose proof O3 as (b & a & Hhome & _). unfold cell_at in Hhome.
  assert (fresh_block tx (sy_world s) b (a - b) size_of_usize) as Hfb.
  { intros b' off n Hn Hu. specialize (Hfresh b' off n Hn Hu). by rewrite Hhome in Hfresh. }
  assert (cell_taken s0 home) as Htk.
  { rewrite Hhome. apply (fresh_taken s i tx refs _ refs w' b (a - b) size_of_usize); [apply Hrp|done|done|lia|lia|].
    by rewrite Hhome in O5. }
  destruct (represents_version sizes s0 m i tx0 refs r v home) as [Hms Hrp1]; try done.
  - apply step_to_this.
  - intros p x Hx. rewrite Hhome. apply (fresh_apart s i tx refs b (a - b) size_of_usize); [done|done|done|simpl; lia..|].
    apply (rp_taken _ _ _ Hrp p). apply (owns_from sizes s s0); [|done].
    intros j txj refsj Hj. apply step_to_lookup in Hj as [(<- & <- & <-)|[_ Hj]]; [by exists tx, refs|by exists txj, refsj].
  - eexists. split; [by apply (goes_on_insert _ _ _ _ (Some home)); [|rewrite app_nil_r]|]. unfold s0 in Hrp1. rewrite step_to_twice in Hrp1. split; [done|].
    exists home. split_and!; [done..|]. apply lookup_insert_eq.
Qed.

Lemma system_version s m i tx refs r : represents s m → sy_txs s !! i = Some (tx, refs) → mv_running m !! i = Some r →
  ∃ result tx' w' m', Transaction_write_version (tx, sy_world s) = (result, (tx', w')) ∧
    goes_on m m' i r [] ∧ represents (step_to s i tx' refs w') m' ∧ tx_step tx (sy_world s) tx' w' ∧
    mv_objects m' = mv_objects m ∧
    match result with
    | Ok v => tx_version tx' = Some v ∧ versioned m m' i r
    | Fail f => f = Throw AllocationTooLarge ∨ f = Throw NoAvailableMemory
    end.
Proof.
  intros Hrp Hi Hr. pose proof (represents_tx_inv sizes s m i tx refs Hrp Hi) as Hinv.
  destruct (tx_version tx) as [v|] eqn:Hv.
  - exists (Ok v), tx, (sy_world s), m. rewrite (step_to_same s i tx refs Hi). split_and!; try done; [|by apply goes_on_refl|apply tx_step_refl|].
    + unfold Transaction_write_version. by rewrite (bind_ok _ _ _ tx (tx, sy_world s)), Hv by done.
    + destruct (version_home sizes s m i tx refs r v) as (home & Hh & _); [done..|]. exists home. split_and!; [done..|].
      rewrite Hr, <- Hh. by destruct r.
  - destruct (write_version_fresh tx (sy_world s) Hinv Hv) as (res & tx0 & w' & Hinv0 & Hst & Hv0 & Heq & Hres).
    destruct res as [v|f].
    + destruct Hres as (home & Hown & Hfresh).
      destruct (fresh_version s m i tx refs r v tx0 w' home) as (m' & Hm & Hrp' & Hver); [done..|].
      exists (Ok v), (set_version (Some v) tx0), w', m'. split_and!; try done; [by destruct Hst|by destruct Hver as (? & ? & _)].
    + exists (Fail f), tx0, w', m. split_and!; try done; [by apply goes_on_refl| |by destruct Hres as [[-> _]|[-> _]]; [left|right]].
      apply (represents_step sizes s m i tx refs); [done..|congruence].
Qed.

(** *** A new version of an object *)

Lemma version_places_layout k total e : layout (version_places k total e).
Proof.
  intros p q x y Hx Hy. pose proof header_packed as P. packed_facts P. set (lo := en_address e - size_of_ObjectHeader - en_base e) in *.
  assert (en_version_cell e = InMemory (en_base e) (lo + off_version)) as Ev by done.
  assert (en_other_cell e = InMemory (en_base e) (lo + off_other)) as Eo by done.
  destruct Hx as [[-> Hx]|[-> Hx]], Hy as [[-> Hy]|[-> Hy]]; simpl; try done.
  - rewrite Ev, Eo in Hx. subst y. unfold spans_apart, apart. destruct Hx as [->| ->]; simpl; fold lo; right; right; right; usize.
  - rewrite Ev, Eo in Hy. subst x. unfold spans_apart, apart. destruct Hy as [->| ->]; simpl; fold lo; right; right; right; usize.
  - left. split; [done|congruence].
Qed.

(** The places of a new object are new. *)
Lemma new_places s i tx refs tx1 w1 k total raw home es d bytes e : arena s → sy_txs s !! i = Some (tx, refs) →
  0 < total → new_object tx (sy_world s) tx1 w1 total raw home es d bytes e →
  (∀ p x y, version_places k total e p x ∨ x = ref_span d → span_taken s y → spans_apart x y) ∧
  (∀ p x, version_places k total e p x ∨ x = ref_span d → span_taken (step_to s i tx1 refs w1) x) ∧
  layout (version_places k total e) ∧ ref_at (w_las w1) d.
Proof.
  intros Har Hi Ht [N1 N2 N3 N4 N5 N6 N7 N8 (U1 & U2 & U3) _ N11]. set (lo := en_address e - size_of_ObjectHeader - en_base e) in *.
  pose proof header_packed as P. packed_facts P.
  assert (en_version_cell e = InMemory (en_base e) (lo + off_version)) as Ev by done.
  assert (en_other_cell e = InMemory (en_base e) (lo + off_other)) as Eo by done.
  assert (fresh_block tx (sy_world s) (en_base e) lo (total + size_of_ObjectHeader)) as Hfb by exact N11.
  assert (∀ p x, version_places k total e p x ∨ x = ref_span d →
    sp_base x = en_base e ∧ lo ≤ sp_off x ∧ sp_off x + sp_len x ≤ lo + (total + size_of_ObjectHeader) ∧
    tx_range_in_use tx1 w1 (en_base e) (sp_off x) (sp_len x)) as Hin.
  { intros p x Hx. assert (x = cell_span (en_version_cell e) ∨ x = cell_span (en_other_cell e) ∨ x = ref_span (en_data total e)) as Hx'.
    { subst d. destruct Hx as [[[_ [?|?]]|[_ ?]]|?]; auto. }
    rewrite Ev, Eo in *. subst d. destruct Hx' as [->|[->| ->]]; simpl in *; fold lo in U3 |- *; split_and!; try done; usize. }
  split_and!.
  - intros p x y Hx Hy. destruct (Hin p x Hx) as (Hb & Hlo & Hhi & _). by apply (fresh_apart s i tx refs (en_base e) lo (total + size_of_ObjectHeader)).
  - intros p x Hx. destruct (Hin p x Hx) as (Hb & Hlo & Hhi & Hu). unfold span_taken. rewrite Hb.
    by apply (fresh_taken s i tx refs tx1 refs w1 (en_base e) lo (total + size_of_ObjectHeader)).
  - apply version_places_layout.
  - subst d. split; [done| |by eexists]. inversion N7; subst.
    by apply (byte_range_mem (w_las w1) (en_address e - size_of_ObjectHeader) (total + size_of_ObjectHeader));
      [apply (ai_las _ _ _ (ti_allocators _ _ N1))|].
Qed.

Lemma total_at_eq s m k size : represents s m → sizes !! k = Some size → ObjectSize_total size = Ok (total_at k).
Proof.
  intros Hrp Hsize. destruct (rp_sizes _ _ _ Hrp k size Hsize) as (t & Ht & _). unfold Simulation.total_at.
  rewrite Hsize. simpl. by rewrite Ht.
Qed.

Lemma total_aligned s m k : represents s m → is_Some (sizes !! k) → aligned 8 (total_at k).
Proof.
  intros Hrp [size Hsize]. destruct (rp_sizes _ _ _ Hrp k size Hsize) as (t & Ht & Ha). unfold Simulation.total_at.
  rewrite Hsize. simpl. by rewrite Ht.
Qed.

(** The references to an object's versions are aligned. *)
Lemma data_aligned s m k es e : represents s m → mv_objects m !! k = Some es → e ∈ es →
  aligned 8 (mr_off (en_data (total_at k) e)).
Proof.
  intros Hrp Ho He. destruct (rp_objects _ _ _ Hrp k es Ho) as [_ _ _ (raw & _ & _ & Hch)].
  apply chain_data_aligned in Hch. rewrite Forall_forall in Hch. by apply Hch.
Qed.

(** [write] in front of a version that the transaction may see. *)
Lemma system_tail s m i tx refs r v home k size e es raw : represents s m → sy_txs s !! i = Some (tx, refs) →
  mv_running m !! i = Some r → tx_version tx = Some v → ru_home r = Some home → sizes !! k = Some size →
  mv_objects m !! k = Some (e :: es) → visible (ru_snapshot r) e = true → cell_holds (sy_las s) k raw →
  ∃ result tx' w' m', write_tail k size v raw (en_data (total_at k) e) (tx, sy_world s) = (result, (tx', w')) ∧
    goes_on m m' i r (match result with Ok _ => [k] | Fail _ => [] end) ∧ keeps any_version m (sy_las s) (w_las w') ∧
    represents (step_to s i tx' (match result with Ok d => d :: refs | Fail _ => refs end) w') m' ∧
    match result with
    | Ok d => ∃ e', mv_objects m' = <[k := e' :: e :: es]> (mv_objects m) ∧ en_home e' = home ∧ en_version e' = 0 ∧
        d = en_data (total_at k) e' ∧ ∃ bytes, mem (sy_las s) (en_base e) (mr_off (en_data (total_at k) e)) (total_at k) = Some bytes ∧
          mem (w_las w') (mr_source d) (mr_off d) (total_at k) = Some bytes
    | Fail f => mv_objects m' = mv_objects m ∧ (f = Throw AllocationTooLarge ∨ f = Throw NoAvailableMemory)
    end.
Proof.
  intros Hrp Hi Hr Hv Hh Hsize Ho Hvis Hp.
  destruct (rp_objects _ _ _ Hrp k _ Ho) as [Hmem Hpos _ (raw' & Hp' & Hraw & Hch)].
  rewrite <- (version_word_unique _ _ _ _ Hp Hp') in *. clear Hp' raw'.
  pose proof (represents_tx_inv sizes s m i tx refs Hrp Hi) as Hinv.
  destruct (version_home sizes s m i tx refs r v) as (home' & Hh' & Hvo & Hown); [done..|].
  assert (home' = home) as -> by congruence. clear Hh'.
  assert (ObjectSize_total size = Ok (total_at k)) as Htot.
  { by apply (total_at_eq s m). }
  assert (∀ c, guarded sizes m c → tx_in_use tx (sy_world s) c) as Huse.
  { intros c Hc. apply (cell_taken_in_use s i tx refs); [done|]. by apply (guarded_taken sizes s m). }
  assert (has_entry m k e) as He by (exists (e :: es); split; [done|by left]).
  assert (tx_range_in_use tx (sy_world s) (en_base e) (mr_off (en_data (total_at k) e)) (total_at k)) as Hdata.
  { apply (taken_in_use s i tx refs); [done|]. by apply (rp_taken _ _ _ Hrp _ _ (owns_data sizes s m k e He)). }
  assert (aligned 8 (total_at k)) as Halt by (apply (total_aligned s m); eauto).
  destruct (write_tail_cases tx (sy_world s) v home k raw size (total_at k) e es) as
    [(f & tx1 & w1 & Hr1 & Hi1 & Hst & Hv1 & Hf)|(d & bytes & e' & tx1 & w1 & Hb & Hnew & Hv1 & Hr1)]; try done.
  { apply Huse. left. by eexists. }
  { apply (entry_inner m k); [done|]. intros c Hc. apply Huse. by right. }
  - exists (Fail f), tx1, w1, m. split_and!; try done; [by apply goes_on_refl|by apply (keeps_step s m i tx refs tx1)|apply (represents_step sizes s m i tx refs); [done..|congruence]|].
    by destruct Hf as [[-> _]|[-> _]]; [left|right].
  - destruct (represents_step sizes s m i tx refs tx1 w1) as [Hrp1 Ht1]; [done|done|apply Hnew|apply Hnew|congruence|].
    set (s1 := step_to s i tx1 refs w1) in *.
    destruct (new_places s i tx refs tx1 w1 k (total_at k) raw home (e :: es) d bytes e') as (Hap & Htk & Hlay & Href);
      [apply Hrp|done..|].
    pose proof Hnew as [N1 N2 N3 N4 N5 N6 N7 N8 N9 N10 N11]. subst home.
    assert (cell_holds (w_las w1) k raw) as Hk1 by (apply (ts_kept _ _ _ _ N2); [apply Huse; left; by eexists|done]).
    assert (memory_cell (w_las w1) k) as Hk2 by (apply (memory_cell_shape (sy_las s)); [apply N2|done]).
    assert (∀ q y, owns s1 m q y → span_taken s y) as Hold.
    { intros q y Hy. apply (rp_taken _ _ _ Hrp q). apply (owns_from sizes s s1); [|done].
      intros j txj refsj Hj. apply step_to_lookup in Hj as [(<- & <- & <-)|[_ Hj]]; [by exists tx, refs|by exists txj, refsj]. }
    destruct (represents_swing sizes s1 m i tx1 refs r k e es raw e') as (Hms & Hrp2 & Hown2); try done;
      [apply step_to_this|usize|..].
    { intros q x q' y Hx Hy. apply (Hap q); [by left|by apply (Hold q')]. }
    { intros q x Hx. apply (Htk q). by left. }
    set (s2 := step_to s1 i (swing tx1 _) refs _) in *. set (m2 := mk_mvstore (mv_counter m) _ _) in *.
    assert (represents (step_to s2 i (swing tx1 (TransactionWrite_new k raw (en_address e'))) (d :: refs) (sy_world s2)) m2) as Hrp3.
    { apply (represents_fill sizes s2 m2 i _ refs (mk_running (ru_snapshot r) (ru_home r) (ru_writes r ++ [k])) (en_home e')); try done.
      - apply step_to_this.
      - apply lookup_insert_eq.
      - apply (ref_at_shape (w_las w1)); [|done]. apply las_shape_cell_put with raw; [done|apply Hk2].
      - apply (rp_taken _ _ _ Hrp2 (ForData (en_home e') k)). rewrite N6. apply owns_data. eexists. split; [apply lookup_insert_eq|by left].
      - intros q y Hy. destruct (Hown2 q y Hy) as [Hy'|[[-> ->]|[[-> Hy']|[-> ->]]]].
        + apply separate_apart, (Hap q); [by right|by apply (Hold q)].
        + apply (Hap ForHeader); [by right|]. by apply (rp_taken _ _ _ Hrp _ _ (owns_running sizes s m i r _ Hr Hh)).
        + rewrite N6. apply (Hlay (ForData (en_home e') k) ForHeader); [by right|by left].
        + left. by rewrite N6. }
    unfold s2, s1 in Hrp3. rewrite !step_to_twice in Hrp3.
    eexists (Ok d), _, _, m2. split_and!; [exact Hr1|by apply (goes_on_insert _ _ _ _ (ru_home r))| |exact Hrp3|].
    + apply keeps_trans with m (w_las w1); [done|by apply (keeps_step s m i tx refs tx1)|].
      apply (keeps_pointer any_version m (w_las w1) k raw); [done|done|by eexists].
    + exists e'. split_and!; try done. exists bytes. split; [done|]. destruct Hk2 as [(kb & ko & ->) Hkw].
      cbn [with_las w_las cell_put]. rewrite mem_put_apart; [done|done| |].
      * rewrite blen_u64. destruct Hk1 as [Hm _]. by eexists.
      * rewrite blen_u64. apply (N10 kb ko). apply Huse. left. by eexists.
Qed.

Definition out_of_memory (f : failure) : Prop := f = Throw AllocationTooLarge ∨ f = Throw NoAvailableMemory.

(** The references of a transaction after a call that may hand out one more. *)
Definition handed (result : outcome memref) refs : list memref :=
  match result with Ok d => d :: refs | Fail _ => refs end.

(** What [write] does, by the versions of the object. *)
Lemma system_write s m i tx refs r k size es : represents s m → sy_txs s !! i = Some (tx, refs) →
  mv_running m !! i = Some r → sizes !! k = Some size → mv_objects m !! k = Some es →
  ∃ result tx' w' m',
    (∀ fuel, (length es < fuel)%nat → Transaction_write fuel k size (tx, sy_world s) = (result, (tx', w'))) ∧
    goes_on m m' i r (match result with Ok _ => [k] | Fail _ => [] end) ∧
    keeps any_version m (sy_las s) (w_las w') ∧ represents (step_to s i tx' (handed result refs) w') m' ∧
    match result with
    | Ok d => ∃ e es' e', es = e :: es' ∧ visible (ru_snapshot r) e = true ∧
        mv_objects m' = <[k := e' :: es]> (mv_objects m) ∧ en_version e' = 0 ∧ d = en_data (total_at k) e' ∧
        ∃ bytes, mem (sy_las s) (en_base e) (mr_off (en_data (total_at k) e)) (total_at k) = Some bytes ∧
          mem (w_las w') (mr_source d) (mr_off d) (total_at k) = Some bytes
    | Fail f => mv_objects m' = mv_objects m ∧
        (out_of_memory f ∨ f = Throw TxAborted ∧ ∃ e es', es = e :: es' ∧ visible (ru_snapshot r) e = false)
    end.
Proof.
  intros Hrp Hi Hr Hsize Ho.
  destruct (rp_objects _ _ _ Hrp k _ Ho) as [Hmem Hpos Hsome (raw & Hp & Hraw & Hch)].
  destruct (system_version s m i tx refs r Hrp Hi Hr) as (res & tx1 & w1 & m1 & Hv & Hms & Hrp1 & Hst & Hobj & Hres).
  pose proof (keeps_step s m i tx refs tx1 w1 Hrp Hi Hst) as Hkeep.
  destruct res as [v|f].
  2:{ exists (Fail f), tx1, w1, m1. split_and!; try done; [|by left].
      intros fuel _. unfold Transaction_write, UntypedPointer_clone. rewrite (bind_ok _ _ _ raw (tx, sy_world s)); [by step Hv|].
      by apply on_tx_las_same, cell_load_ok. }
  destruct Hres as (Hv1 & home & _ & _ & Hr1). set (s1 := step_to s i tx1 refs w1) in *.
  set (r1 := mk_running (ru_snapshot r) (Some home) (ru_writes r)) in *.
  assert (cell_holds (w_las w1) k raw) as Hp1.
  { apply (ts_kept _ _ _ _ Hst); [|done]. apply (cell_taken_in_use s i tx refs); [done|].
    apply (guarded_taken sizes s m); [done|]. left. by eexists. }
  assert (mv_objects m1 !! k = Some es) as Ho1 by by rewrite Hobj.
  destruct (rp_objects _ _ _ Hrp1 k _ Ho1) as [_ _ _ (raw' & Hp' & _ & Hch1)].
  rewrite <- (version_word_unique _ _ _ _ Hp1 Hp') in Hch1. clear Hp' raw'.
  assert (vr_version (tx_reader tx1) = ru_snapshot r) as Hsnap.
  { symmetry. apply (ta_snapshot _ _ _ _ _ _ (rp_transactions _ _ _ Hrp1 i tx1 refs r1 (step_to_this _ _ _ _ _) Hr1)). }
  assert (∀ fuel, (length es < fuel)%nat → Transaction_write fuel k size (tx, sy_world s) =
    match snapshot_read (ru_snapshot r) true es with
    | Ok e => write_tail k size v raw (en_data (total_at k) e) (tx1, w1)
    | Fail f => (Fail f, (tx1, w1))
    end) as Heq.
  { intros fuel Hfuel. rewrite <- Hsnap. apply Transaction_write_eq; try done.
    - apply (ar_las _ (rp_arena _ _ _ Hrp1)).
    - by apply (total_at_eq s m). }
  destruct es as [|e es]; [done|]. cbn [snapshot_read] in Heq. destruct (visible (ru_snapshot r) e) eqn:Hvis.
  - destruct (system_tail s1 m1 i tx1 refs r1 v home k size e es raw) as (res & tx2 & w2 & m2 & Ht & Hms2 & Hkeep2 & Hrp2 & Hres);
      try done; [apply step_to_this|]. unfold s1 in Hrp2. rewrite step_to_twice in Hrp2.
    exists res, tx2, w2, m2. split_and!; [|by apply goes_on_trans with m1 (Some home)|by apply keeps_trans with m1 (w_las w1)|done|].
    + intros fuel Hfuel. by rewrite Heq.
    + destruct res as [d|f]; [|rewrite <- Hobj; split; [by destruct Hres|left; by destruct Hres]].
      destruct Hres as (e' & Ho2 & Hh' & Hv' & Hd & bytes & Hb & Hb').
      exists e, es, e'. rewrite <- Hobj. split_and!; try done. exists bytes. split; [|done].
      rewrite <- Hb. symmetry. apply (ts_range _ _ _ _ Hst); [done|]. apply (taken_in_use s i tx refs); [done|].
      apply (rp_taken _ _ _ Hrp _ _ (owns_data sizes s m k e (ex_intro _ _ (conj Ho (list_elem_of_here _ _))))).
  - exists (Err TxAborted), tx1, w1, m1. split_and!; try done. right. split; [done|]. by exists e, es.
Qed.

(** *** Reads *)
Lemma represented_read s m tx k size es : represents s m → sizes !! k = Some size → mv_objects m !! k = Some es →
  ∀ fuel, (length es < fuel)%nat → Transaction_read fuel k size (tx, sy_world s) =
    (e ← snapshot_read (vr_version (tx_reader tx)) false es; mret (en_data (total_at k) e), (tx, sy_world s)).
Proof.
  intros Hrp Hsize Ho fuel Hfuel. destruct (rp_objects _ _ _ Hrp k _ Ho) as [_ _ _ (raw & Hp & _ & Hch)].
  unfold Transaction_read. rewrite (bind_ok _ _ _ tx (tx, sy_world s)) by done. destruct (tx_reader tx) as [snapshot].
  pose proof (VersionedReader_read_chain (sy_las s) size (total_at k) snapshot false es
    (inv_wf _ (ar_las _ (rp_arena _ _ _ Hrp))) (total_at_eq s m k size Hrp Hsize) raw k fuel Hch Hp Hfuel) as Hread.
  apply on_tx_las_same with (tx := tx) in Hread. cbn [vr_version].
  by destruct (snapshot_read snapshot false es) as [e|f]; step Hread.
Qed.

Lemma system_read s m i tx refs r k size es : represents s m → sy_txs s !! i = Some (tx, refs) →
  mv_running m !! i = Some r → sizes !! k = Some size → mv_objects m !! k = Some es → ∀ fuel, (length es < fuel)%nat →
  Transaction_read fuel k size (tx, sy_world s) =
    (e ← snapshot_read (ru_snapshot r) false es; mret (en_data (total_at k) e), (tx, sy_world s)).
Proof.
  intros Hrp Hi Hr Hsize Ho fuel Hfuel. rewrite (represented_read s m tx k size es) by done.
  by rewrite (ta_snapshot _ _ _ _ _ _ (rp_transactions _ _ _ Hrp i tx refs r Hi Hr)).
Qed.

(** An object read for writing is remembered, and the newest version read or none. *)
Definition reading tx (k : cell) : Transaction := set_readset (tx_readset tx ++ [TransactionRead_new k]) tx.

Lemma system_read_for_write s m i tx refs r k size es : represents s m → sy_txs s !! i = Some (tx, refs) →
  mv_running m !! i = Some r → sizes !! k = Some size → mv_objects m !! k = Some es →
  (∀ fuel, (length es < fuel)%nat → Transaction_read_for_write fuel k size (tx, sy_world s) =
    (e ← snapshot_read (ru_snapshot r) true es; mret (en_data (total_at k) e), (reading tx k, sy_world s))) ∧
  represents (step_to s i (reading tx k) refs (sy_world s)) m.
Proof.
  intros Hrp Hi Hr Hsize Ho. destruct (rp_objects _ _ _ Hrp k _ Ho) as [_ _ _ (raw & Hp & _ & Hch)]. split.
  - intros fuel Hfuel. rewrite (ta_snapshot _ _ _ _ _ _ (rp_transactions _ _ _ Hrp i tx refs r Hi Hr)).
    unfold Transaction_read_for_write. rewrite (bind_ok _ _ _ tt (reading tx k, sy_world s)) by done.
    rewrite (bind_ok _ _ _ (reading tx k) (reading tx k, sy_world s)) by done.
    change (tx_reader (reading tx k)) with (tx_reader tx). destruct (tx_reader tx) as [snapshot].
    pose proof (VersionedReader_read_chain (sy_las s) size (total_at k) snapshot true es
      (inv_wf _ (ar_las _ (rp_arena _ _ _ Hrp))) (total_at_eq s m k size Hrp Hsize) raw k fuel Hch Hp Hfuel) as Hread.
    apply on_tx_las_same with (tx := reading tx k) in Hread. cbn [vr_version].
    by destruct (snapshot_read snapshot true es) as [e|f]; step Hread.
  - destruct (arena_step s i tx refs (reading tx k) refs (sy_world s)) as [Har Ht]; [apply Hrp|done| |done|done|].
    { by apply (ar_alloc _ (rp_arena _ _ _ Hrp) i tx refs). }
    pose proof Hrp as [R1 R2 R3 R4 R5 R6 R7 R8 R9 R10].
    assert (∀ p x, owns (step_to s i (reading tx k) refs (sy_world s)) m p x → owns s m p x) as Hown.
    { intros p x. apply owns_from. intros j txj refsj Hj.
      apply step_to_lookup in Hj as [(<- & <- & <-)|[_ Hj]]; [by exists tx, refs|by exists txj, refsj]. }
    split; try done.
    + intros j. rewrite R7. simpl. destruct (decide (i = j)) as [->|]; [rewrite lookup_insert_eq, Hi|by rewrite lookup_insert_ne].
      split; by eexists.
    + intros j txj refsj rj Hj Hrj. apply step_to_lookup in Hj as [(<- & <- & <-)|[_ Hj]]; [|by apply (R8 j)].
      destruct (R8 i tx refs rj Hi Hrj) as [A1 A2 A3 A4 A5 A6]. split; try done. cbn [reading set_readset tx_readset].
      apply Forall_app. split; [done|]. constructor; [by eexists|done].
    + intros p q x y Hx Hy. apply R9; by apply Hown.
    + intros p x Hx. apply Ht, (R10 p). by apply Hown.
Qed.

(** *** New objects *)
Lemma system_alloc s m i tx refs r size total : represents s m → sy_txs s !! i = Some (tx, refs) →
  mv_running m !! i = Some r → ObjectSize_total size = Ok total → 0 < total → aligned 8 total →
  ∃ result tx' w' m', Transaction_alloc size (tx, sy_world s) = (result, (tx', w')) ∧
    goes_on m m' i r [] ∧ keeps any_version m (sy_las s) (w_las w') ∧ mv_objects m' = mv_objects m ∧
    represents (step_to s i tx' (handed ('(_, d) ← result; mret d) refs) w') m' ∧
    match result with Ok (_, d) => mr_len d = total ∧ aligned 8 (mr_off d) | Fail f => out_of_memory f end.
Proof.
  intros Hrp Hi Hr Hsize Ht Hal8. unfold Transaction_alloc.
  destruct (system_version s m i tx refs r Hrp Hi Hr) as (res & tx1 & w1 & m1 & Hv & Hms & Hrp1 & Hst & Hobj & Hres).
  pose proof (keeps_step s m i tx refs tx1 w1 Hrp Hi Hst) as Hkeep.
  destruct res as [v|f]; step Hv; [|by exists (Fail f), tx1, w1, m1].
  destruct Hres as (Hv1 & home & _ & _ & Hr1). set (s1 := step_to s i tx1 refs w1) in *.
  set (r1 := mk_running (ru_snapshot r) (Some home) (ru_writes r)) in *.
  pose proof (step_to_this s i tx1 refs w1) as Hi1.
  destruct (version_home sizes s1 m1 i tx1 refs r1 v) as (home' & [= <-] & _ & Hown); [done..|].
  pose proof (represents_tx_inv sizes s1 m1 i tx1 refs Hrp1 Hi1) as Hinv1.
  destruct (new_object_ok tx1 w1 v home size total 0 [] (zeros total)) as (res & tx2 & w2 & Hr2 & Hres); try done;
    [by apply chain_none|apply blen_zeros; lia|].
  unfold TransactionalObjectAllocator_alloc_new, UntypedPointer_new_none. rewrite Hr2.
  assert (tx_version tx2 = tx_version tx1) as Hv2.
  { unfold on_object_allocator, zoom in Hr2. destruct (TransactionalObjectAllocator_alloc _ _ _ _) as [? []].
    by injection Hr2 as _ <- _. }
  destruct res as [[ptr d]|f].
  - destruct Hres as (e & -> & Hst2 & Hinv2 & Hch & _ & Hnew).
    pose proof (chain_data_aligned _ _ _ _ Hch) as Hdal. apply Forall_cons in Hdal as [Hdal _].
    set (las2 := put (mr_source d) (mr_off d) (zeros total) (w_las w2)) in *.
    destruct (new_places s1 i tx1 refs tx2 (with_las las2 w2) (OnStack 0) total 0 home [] d (zeros total) e) as (Hap & Htk & _ & Href);
      [apply Hrp1|done..|].
    pose proof Hnew as [_ N2 _ _ _ N6 _ _ _ _ _].
    destruct (represents_step sizes s1 m1 i tx1 refs tx2 w2) as [Hrp2 _]; [done..|].
    unfold s1 in Hrp2. rewrite step_to_twice in Hrp2. set (s2 := step_to s i tx2 refs w2) in *.
    exists (Ok (en_address e, d)), tx2, w2, m1. split_and!; try done; [| |by rewrite N6|by rewrite N6].
    { apply keeps_trans with m1 (w_las w1); [done|done|]. by apply (keeps_step s1 m1 i tx1 refs tx2). }
    change (represents (step_to s i tx2 (d :: refs) w2) m1). rewrite <- (step_to_twice s i tx2 refs w2).
    change w2 with (sy_world s2) at 2. apply (represents_fill sizes s2 m1 i tx2 refs r1 home); try done.
    + apply step_to_this.
    + apply (ref_at_shape las2); [|done].
      change (las_shape (w_las w2) = las_shape (w_las (with_las las2 w2))). by rewrite (ts_shape _ _ _ _ N2), (ts_shape _ _ _ _ Hst2).
    + intros o Ho. destruct (Htk ForHeader (ref_span d) (or_intror eq_refl) o Ho) as [Hf Ha]. split.
      * intros Hf'. apply Hf. by apply put_free_mem.
      * intros j txj refsj Hj. apply (Ha j txj refsj). unfold s2 in Hj. simpl in Hj |- *.
        destruct (decide (i = j)) as [->|]; [by rewrite lookup_insert_eq in *|by rewrite !lookup_insert_ne in * by done].
    + intros p x Hx. apply separate_apart, (Hap ForHeader); [by right|].
      apply (rp_taken _ _ _ Hrp1 p). apply (owns_from sizes s1 s2); [|done].
      intros j txj refsj Hj. apply step_to_lookup in Hj as [(<- & <- & <-)|[Hne Hj]]; [by exists tx1, refs|].
      exists txj, refsj. split; [|done]. unfold s1. simpl. by rewrite lookup_insert_ne.
  - destruct Hres as (Hinv2 & Hst2 & Hf). exists (Fail f), tx2, w2, m1. split_and!; try done.
    + apply keeps_trans with m1 (w_las w1); [done|done|]. by apply (keeps_step s1 m1 i tx1 refs tx2).
    + destruct (represents_step sizes s1 m1 i tx1 refs tx2 w2) as [Hrp2 _]; try done.
      unfold s1 in Hrp2. by rewrite step_to_twice in Hrp2.
    + by destruct Hf as [[-> _]|[-> _]]; [left|right].
Qed.

(** *** The end of a transaction *)
Lemma keeps_undo s m i tx refs r : represents s m → sy_txs s !! i = Some (tx, refs) → mv_running m !! i = Some r →
  keeps any_version m (sy_las s) (undo (tx_writeset tx) (sy_las s)).
Proof.
  intros Hrp Hi Hr. destruct (transaction_writes sizes s m i tx refs r Hrp Hi Hr) as [Hsw Hord].
  pose proof (ta_write _ _ _ _ _ _ (rp_transactions _ _ _ Hrp i _ _ _ Hi Hr)) as Hat. clear Hi Hr.
  assert (Forall (λ u, is_Some (sizes !! tw_dst u)) (tx_writeset tx)) as Hdst by (apply (Forall_impl _ _ _ Hat); by intros u []).
  clear Hat Hrp. generalize dependent (sy_las s). induction (tx_writeset tx) as [|u us IH]; intros las Hsw; [apply keeps_refl|].
  simpl. apply Forall_cons in Hsw as [Hu Hsw]. apply writes_apart_cons in Hord as (Hyx & Hxy & Hord).
  apply Forall_cons in Hdst as [Hk Hdst].
  apply keeps_trans with m (cell_put (tw_dst u) (tw_current u) las); [done| |apply IH; [done|done|by apply swung_put]].
  destruct Hu as [Hc Hn _]. by apply keeps_pointer with (tw_new u).
Qed.

Lemma system_abort s m i tx refs r : represents s m → sy_txs s !! i = Some (tx, refs) → mv_running m !! i = Some r →
  let w' := with_las (undo (tx_writeset tx) (sy_las s)) (sy_world s) in
  let m' := mk_mvstore (mv_counter m) (undo_objects (ru_writes r) (mv_objects m)) (delete i (mv_running m)) in
  Transaction_abort (tx, sy_world s) = (Ok tt, (tx, w')) ∧ ends m m' i ∧
  keeps any_version m (sy_las s) (w_las w') ∧ represents (ended (poke_to s w') i) m'.
Proof.
  intros Hrp Hi Hr w' m'. destruct (transaction_writes sizes s m i tx refs r Hrp Hi Hr) as [Hsw Hord]. split_and!.
  - by apply Transaction_abort_eq.
  - split; [by apply mv_abort|done].
  - by apply (keeps_undo s m i tx refs r).
  - unfold w', with_las. rewrite <- (rp_counter _ _ _ Hrp). by apply (represents_undo sizes s m i tx refs r).
Qed.

(** The newest versions of what was read for writing. *)
Lemma reads_newest s m i tx refs r : represents s m → sy_txs s !! i = Some (tx, refs) → mv_running m !! i = Some r →
  ∃ ns, Forall2 (newest (sy_las s)) (tx_readset tx) ns.
Proof.
  intros Hrp Hi Hr. pose proof (ta_reads _ _ _ _ _ _ (rp_transactions _ _ _ Hrp i _ _ _ Hi Hr)) as Hrs.
  induction Hrs as [|t ts Ht Hts [ns Hns]]; [by exists []|].
  destruct (proj1 (rp_pointers _ _ _ Hrp _) Ht) as [es Ho].
  destruct (rp_objects _ _ _ Hrp _ _ Ho) as [_ Hpos Hsome (raw & Hp & _ & Hch)]. destruct es as [|e es]; [done|].
  exists (en_version e :: ns). constructor; [|done]. exists raw, (total_at (tr_pointer t)), e, es. split_and!; [done|lia|done|done].
Qed.

(** What a commit does: it is refused and takes the versions back, or gives
    them the next number, or there are none. *)
Lemma commit_cases s m i tx refs r : represents s m → sy_txs s !! i = Some (tx, refs) → mv_running m !! i = Some r →
  w_version (sy_world s) + 1 < 2 ^ 63 →
  ∃ result w', Transaction_commit (tx, sy_world s) = (result, (tx, w')) ∧
    (result = Err TxAborted ∧ tx_readset tx ≠ [] ∧ w' = with_las (undo (tx_writeset tx) (sy_las s)) (advanced (sy_world s)) ∨
     result = Ok tt ∧ (∃ v home, ru_home r = Some home ∧ version_of (sy_las s) v home ∧ w' = committed (sy_world s) home) ∨
     result = Ok tt ∧ ru_home r = None ∧ tx_writeset tx = [] ∧ w' = sy_world s).
Proof.
  intros Hrp Hi Hr Hlt. pose proof (rp_transactions _ _ _ Hrp i _ _ _ Hi Hr) as Hta.
  destruct (transaction_writes sizes s m i tx refs r Hrp Hi Hr) as [Hsw Hord].
  pose proof (mi_counter _ (rp_inv _ _ _ Hrp)) as Hpos. pose proof (rp_counter _ _ _ Hrp) as Hcount.
  destruct (tx_version tx) as [v|] eqn:Hv.
  - destruct (version_home sizes s m i tx refs r v) as (home & Hh & Hvo & Hown); [done..|].
    destruct (reads_newest s m i tx refs r Hrp Hi Hr) as [ns Hns].
    pose proof (ar_las _ (rp_arena _ _ _ Hrp)) as Hinv.
    assert (is_usize (w_version (sy_world s) + 1)) as Hu by usize.
    pose proof (commit_validate_eq (advanced (sy_world s)) v home (tx_readset tx) ns Hinv (ov_at _ _ _ _ Hown) Hns) as Hval.
    destruct (decide (Exists (λ n, 0 < n) ns)) as [Hex|Hex].
    + eexists (Err TxAborted), _. split; [by apply (Transaction_commit_invalid tx (sy_world s) v TxAborted)|].
      left. split_and!; [done| |done]. intros E. rewrite E in Hns. apply Forall2_nil_inv_l in Hns as ->. by inversion Hex.
    + eexists (Ok tt), _. split; [apply (Transaction_commit_valid tx (sy_world s) v home); [done|done|apply Hinv|done|done]|].
      right. left. split; [done|]. by exists v, home.
  - assert (ru_home r = None) as Hh.
    { pose proof (ta_version _ _ _ _ _ _ Hta) as Hm. unfold version_matches in Hm. rewrite Hv in Hm. by destruct (ru_home r). }
    exists (Ok tt), (sy_world s). split; [unfold Transaction_commit; by rewrite (bind_ok _ _ _ tx (tx, sy_world s)), Hv by done|].
    right. right. split_and!; try done. destruct (tx_writeset tx) as [|u us] eqn:Hus; [done|].
    pose proof (ta_writes _ _ _ _ _ _ Hta) as Hw. rewrite Hus in Hw.
    destruct (mi_writes _ (rp_inv _ _ _ Hrp) i r (tw_dst u) Hr) as (? & ? & ? & _ & Hc & _); [rewrite Hw; by left|congruence].
Qed.

(** A commit gives the transaction's versions the next number, all at once,
    or takes them back; either way the transaction is over. *)
Lemma system_commit s m i tx refs r : represents s m → sy_txs s !! i = Some (tx, refs) → mv_running m !! i = Some r →
  w_version (sy_world s) + 1 < 2 ^ 63 →
  ∃ result w' m', Transaction_commit (tx, sy_world s) = (result, (tx, w')) ∧ ends m m' i ∧
    keeps any_version m (sy_las s) (w_las w') ∧ represents (ended (poke_to s w') i) m' ∧
    match result with
    | Ok _ => ru_home r = None ∧ mv_objects m' = mv_objects m ∧ mv_counter m' = mv_counter m ∨
        ∃ home, ru_home r = Some home ∧ mv_counter m' = mv_counter m + 1 ∧
          mv_objects m' = commit_objects home (mv_counter m + 1) (mv_objects m)
    | Fail f => f = Throw TxAborted ∧ tx_readset tx ≠ [] ∧
        mv_objects m' = undo_objects (ru_writes r) (mv_objects m)
    end.
Proof.
  intros Hrp Hi Hr Hlt. pose proof (mi_counter _ (rp_inv _ _ _ Hrp)) as Hpos. pose proof (rp_counter _ _ _ Hrp) as Hcount.
  destruct (commit_cases s m i tx refs r Hrp Hi Hr Hlt) as (res & w' & Hres & Hcases). exists res, w'.
  destruct Hcases as [(-> & Hrs & ->)|[(-> & v & home & Hh & Hvo & ->)|(-> & Hh & Hws & ->)]].
  - eexists. split_and!; [done|split; [by apply mv_refuse|done]|by apply (keeps_undo s m i tx refs r)| |done|done|done].
    unfold with_las. simpl. rewrite <- Hcount. apply (represents_undo sizes s m i tx refs r); [done..|lia].
  - destruct (represents_commit sizes s m i tx refs r v home) as [Hms Hrp']; [done..|].
    eexists. split_and!; [done|done| |done|right; by exists home].
    destruct Hvo as [V1 V2 _ [(b & off & ->) Hw]]. pose proof (version_at_holds _ _ _ _ V1) as Hhold.
    apply keeps_put; [done|rewrite blen_u64; destruct Hhold as [Hm _]; by eexists|].
    intros o Hs. rewrite blen_u64.
    apply (settled_running any_version s m i r (InMemory b off) (cell_span (InMemory b off)) b o); try done.
    left. by apply (owns_running sizes s m i r).
  - destruct (system_abort s m i tx refs r Hrp Hi Hr) as (_ & Hms & _ & Hrp').
    eexists. split_and!; [done|exact Hms|apply keeps_refl| |].
    + rewrite Hws in Hrp'. simpl in Hrp'. unfold sy_las in Hrp'. by rewrite with_las_id in Hrp'.
    + left. split_and!; [done| |done]. simpl. pose proof (ta_writes _ _ _ _ _ _ (rp_transactions _ _ _ Hrp i _ _ _ Hi Hr)) as Hw.
      rewrite Hws in Hw. rewrite Hw. apply map_eq. intros k. rewrite undo_lookup. destruct (mv_objects m !! k) as [es|]; [|done].
      cbn. by rewrite decide_False by apply not_elem_of_nil.
Qed.
End Calls.
