(* ===== verification/Isolation.v ===== *)
(** * Snapshot isolation

    Transactions that run side by side over one heap, their calls interleaved in
    any order, refine the multi-version store of [Snapshot]; what follows from
    it for readers and for writers. *)
From S2P Require Import Prelude Utils Source SourceAllocator Slices Las Memory Pointer Vos.
From S2P Require Import Allocators Versions Objects Tx Transactions Heap Runs Snapshot Arena Simulation Calls.

(** The result of a call with any bound on the chains from some bound on. *)
Definition eventually {A} (f : nat → A) (a : A) : Prop := ∃ n, ∀ fuel, (n ≤ fuel)%nat → f fuel = a.

Lemma eventually_unique {A} (f : nat → A) a a' : eventually f a → eventually f a' → a = a'.
Proof. intros [n Hn] [n' Hn']. rewrite <- (Hn (max n n')), <- (Hn' (max n n')) by lia. done. Qed.

Lemma eventually_above {A} (f : nat → A) a n : (∀ fuel, (n < fuel)%nat → f fuel = a) → eventually f a.
Proof. intros H. exists (S n). intros fuel Hf. apply H. lia. Qed.

Lemma eventually_map {A B} (g : A → B) (f : nat → A) a : eventually f a → eventually (λ n, g (f n)) (g a).
Proof. intros [n Hn]. exists n. intros fuel Hf. by rewrite Hn. Qed.

Section Isolation.
Context `{T : Target} `{TOk : !TargetOk T} `{C : Crc} {D : Type} `{Src : !Source D} `{Laws : !SourceLaws D}.
Context (sizes : gmap cell ObjectSize).
Abbreviation represents := (represents sizes).
Abbreviation total_at := (total_at sizes).
Abbreviation settled := (settled sizes committed_version).
Implicit Types (w : World D) (tx : Transaction) (s : system D) (refs : list memref).
Implicit Types (m : mvstore cell) (r : running cell) (e : entry) (es : list entry) (k : cell).

(** One call of one of the transactions; the references it returns are the
    transaction's to fill in, until it ends. *)
Inductive sys_step : system D → system D → Prop :=
| sys_begin s i root tx w' :
    sy_txs s !! i = None → Transaction_new root (sy_world s) = (Ok tx, w') →
    sys_step s (step_to s i tx [] w')
| sys_read s i tx refs k size result tx' w' :
    sy_txs s !! i = Some (tx, refs) → sizes !! k = Some size →
    eventually (λ fuel, Transaction_read fuel k size (tx, sy_world s)) (result, (tx', w')) →
    sys_step s (step_to s i tx' refs w')
| sys_read_for_write s i tx refs k size result tx' w' :
    sy_txs s !! i = Some (tx, refs) → sizes !! k = Some size →
    eventually (λ fuel, Transaction_read_for_write fuel k size (tx, sy_world s)) (result, (tx', w')) →
    sys_step s (step_to s i tx' refs w')
| sys_write s i tx refs k size result tx' w' :
    sy_txs s !! i = Some (tx, refs) → sizes !! k = Some size →
    eventually (λ fuel, Transaction_write fuel k size (tx, sy_world s)) (result, (tx', w')) →
    sys_step s (step_to s i tx' (handed result refs) w')
| sys_alloc s i tx refs size total result tx' w' :
    sy_txs s !! i = Some (tx, refs) → ObjectSize_total size = Ok total → 0 < total → aligned 8 total →
    Transaction_alloc size (tx, sy_world s) = (result, (tx', w')) →
    sys_step s (step_to s i tx' (handed ('(_, d) ← result; mret d) refs) w')
| sys_store s i tx refs d off bytes las' :
    sy_txs s !! i = Some (tx, refs) → d ∈ refs → 0 ≤ off → off + blen bytes ≤ mr_len d →
    las_store (mr_source d) (mr_off d + off) bytes (sy_las s) = (Ok tt, las') →
    sys_step s (poke_to s (with_las las' (sy_world s)))
| sys_commit s i tx refs result tx' w' :
    sy_txs s !! i = Some (tx, refs) → w_version (sy_world s) + 1 < 2 ^ 63 →
    Transaction_commit (tx, sy_world s) = (result, (tx', w')) →
    sys_step s (ended (poke_to s w') i)
| sys_abort s i tx refs result tx' w' :
    sy_txs s !! i = Some (tx, refs) →
    Transaction_abort (tx, sy_world s) = (result, (tx', w')) →
    sys_step s (ended (poke_to s w') i).

(** A call is steps of the store, and none but an ending call ends a transaction. *)
Definition simulated s s' m : Prop := ∃ m', (rtc mv_call m m' ∨ mv_step m m') ∧ represents s' m' ∧
  keeps sizes committed_version m (sy_las s) (sy_las s').

Lemma object_of s m k size : represents s m → sizes !! k = Some size → ∃ es, mv_objects m !! k = Some es.
Proof. intros Hrp Hk. apply (rp_pointers _ _ _ Hrp). by eexists. Qed.

Lemma settled_store s m i d off bytes : represents s m → filling s i d → 0 ≤ off → off + blen bytes ≤ mr_len d →
  keeps sizes committed_version m (sy_las s) (put (mr_source d) (mr_off d + off) bytes (sy_las s)).
Proof.
  intros Hrp Hd Hoff Hle. destruct (filling_owned sizes s m i d Hrp Hd) as (r & home & Hr & Hh & Ho & [Hl Hsrc Hm]).
  pose proof (blen_nonneg bytes) as Hb.
  apply keeps_put; [done|by apply mem_within with (mr_len d)|].
  intros o Hs Hin. apply (settled_running sizes committed_version s m i r home (ref_span d) (mr_source d) o); try done; [|simpl; lia].
  right. split; [done|]. intros k e. by apply (committed_not_running sizes s m i r).
Qed.

Lemma sys_step_simulated s s' m : represents s m → sys_step s s' → simulated s s' m.
Proof.
  intros Hrp Hst. destruct Hst as [s i root tx w' Hi Hnew|s i tx refs k size result tx' w' Hi Hk Hev|
    s i tx refs k size result tx' w' Hi Hk Hev|s i tx refs k size result tx' w' Hi Hk Hev|
    s i tx refs size total result tx' w' Hi Hs Ht Hal Heq|s i tx refs d off bytes las' Hi Hd Hoff Hle Heq|
    s i tx refs result tx' w' Hi Hlt Heq|s i tx refs result tx' w' Hi Heq].
  - injection Hnew as <- <-. destruct (represents_begin sizes s m i root Hrp Hi) as [Hms Hrp'].
    eexists. split_and!; [by right|exact Hrp'|apply keeps_refl].
  - destruct (represents_running sizes s m i tx refs Hrp Hi) as (r & Hr & _).
    destruct (object_of s m k size Hrp Hk) as [es Ho].
    pose proof (eventually_unique _ _ _ Hev (eventually_above _ _ _ (system_read sizes s m i tx refs r k size es Hrp Hi Hr Hk Ho))) as E.
    injection E as -> -> ->. rewrite step_to_same by done. exists m. split_and!; [by left|done|apply keeps_refl].
  - destruct (represents_running sizes s m i tx refs Hrp Hi) as (r & Hr & _).
    destruct (object_of s m k size Hrp Hk) as [es Ho].
    destruct (system_read_for_write sizes s m i tx refs r k size es Hrp Hi Hr Hk Ho) as [Heq Hrp'].
    pose proof (eventually_unique _ _ _ Hev (eventually_above _ _ _ Heq)) as E.
    injection E as -> -> ->. exists m. split_and!; [by left|done|apply keeps_refl].
  - destruct (represents_running sizes s m i tx refs Hrp Hi) as (r & Hr & _).
    destruct (object_of s m k size Hrp Hk) as [es Ho].
    destruct (system_write sizes s m i tx refs r k size es Hrp Hi Hr Hk Ho) as (res & tx1 & w1 & m1 & Heq & Hms & Hkeep & Hrp' & _).
    pose proof (eventually_unique _ _ _ Hev (eventually_above _ _ _ Heq)) as E.
    injection E as -> -> ->. exists m1. split_and!; [left; apply Hms|done|by apply keeps_committed].
  - destruct (represents_running sizes s m i tx refs Hrp Hi) as (r & Hr & _).
    destruct (system_alloc sizes s m i tx refs r size total Hrp Hi Hr Hs Ht Hal) as (res & tx1 & w1 & m1 & Heq' & Hms & Hkeep & _ & Hrp' & _).
    rewrite Heq in Heq'. injection Heq' as -> -> ->. exists m1. split_and!; [left; apply Hms|done|by apply keeps_committed].
  - assert (filling s i d) as Hf by (by exists tx, refs).
    destruct (represents_store sizes s m i d off bytes Hrp Hf Hoff Hle) as [Heq' Hrp'].
    rewrite Heq in Heq'. injection Heq' as ->. exists m. split_and!; [by left|done|by apply (settled_store s m i d)].
  - destruct (represents_running sizes s m i tx refs Hrp Hi) as (r & Hr & _).
    destruct (system_commit sizes s m i tx refs r Hrp Hi Hr Hlt) as (res & w1 & m1 & Heq' & Hms & Hkeep & Hrp' & _).
    rewrite Heq in Heq'. injection Heq' as -> -> ->. exists m1. split_and!; [right; apply Hms|done|by apply keeps_committed].
  - destruct (represents_running sizes s m i tx refs Hrp Hi) as (r & Hr & _).
    destruct (system_abort sizes s m i tx refs r Hrp Hi Hr) as (Heq' & Hms & Hkeep & Hrp').
    rewrite Heq in Heq'. injection Heq' as -> -> ->. eexists. split_and!; [right; apply Hms|exact Hrp'|by apply keeps_committed].
Qed.

(** *** Whole executions *)
Lemma sys_steps_simulated s s' : rtc sys_step s s' → ∀ m, represents s m → ∃ m', rtc mv_step m m' ∧ represents s' m'.
Proof.
  induction 1 as [s|s s1 s2 Hst _ IH]; intros m Hrp; [by exists m|].
  destruct (sys_step_simulated s s1 m Hrp Hst) as (m1 & Hms & Hrp1 & _). destruct (IH m1 Hrp1) as (m2 & Hms2 & Hrp2).
  exists m2. split; [|done]. etrans; [|done]. destruct Hms as [Hms|Hms]; [|by apply rtc_once].
  apply (rtc_subrel _ _ _ _ (λ _ _ H, proj1 H) Hms).
Qed.

(** Steps of any transactions, with [i] running all along. *)
Definition running_step (i : nat) s s' : Prop := sys_step s s' ∧ is_Some (sy_txs s' !! i).

Lemma settled_mono i m m' b o : undisturbed i m m' → settled (mv_objects m) b o → settled (mv_objects m') b o.
Proof.
  intros Hu [(k & es & e & Hk & He & Hv & ?) Hp]. split; [|done].
  destruct (ud_committed _ _ _ Hu k es e Hk He Hv) as (es' & Hk' & He'). by exists k, es', e.
Qed.

Lemma running_steps i s s' : rtc (running_step i) s s' → ∀ m, represents s m → is_Some (sy_txs s !! i) →
  ∃ m', represents s' m' ∧ is_Some (sy_txs s' !! i) ∧ undisturbed i m m' ∧ keeps sizes committed_version m (sy_las s) (sy_las s').
Proof.
  induction 1 as [s|s s1 s2 [Hst Hi1] _ IH]; intros m Hrp Hi.
  { exists m. split_and!; [done|done|apply undisturbed_refl, Hrp|apply keeps_refl]. }
  destruct (sys_step_simulated s s1 m Hrp Hst) as (m1 & Hms & Hrp1 & Hk1).
  assert (undisturbed i m m1) as Hu1.
  { apply steps_undisturbed; [apply Hrp|done|]. by apply (rp_running _ _ _ Hrp1). }
  destruct (IH m1 Hrp1 Hi1) as (m2 & Hrp2 & Hi2 & Hu2 & Hk2).
  exists m2. split_and!; [done|done|by apply undisturbed_trans with m1|].
  destruct Hk1 as [S1 Hk1], Hk2 as [S2 Hk2]. split; [congruence|].
  intros b o Hs. rewrite Hk2; [by apply Hk1|by apply (settled_mono i m)].
Qed.

(** What a transaction that begins now reads. *)
Definition new_read (root : cell) w k size (fuel : nat) : outcome memref :=
  (Transaction_read fuel k size (fresh_transaction root w, w)).1.

Lemma new_read_eventually s m root k size es : represents s m → sizes !! k = Some size → mv_objects m !! k = Some es →
  eventually (new_read root (sy_world s) k size)
    (e ← snapshot_read (mv_counter m) false es; mret (en_data (total_at k) e)).
Proof.
  intros Hrp Hk Ho. apply eventually_above with (length es). intros fuel Hfuel. unfold new_read.
  rewrite (represented_read sizes s m (fresh_transaction root (sy_world s)) k size es) by done.
  by rewrite (rp_counter _ _ _ Hrp).
Qed.

(** No panic, no undefined behaviour, no endless loop: a result or an error. *)
Definition returns {A} (o : outcome A) : Prop := match o with Ok _ => True | Fail f => ∃ error, f = Throw error end.

Lemma snapshot_read_returns snapshot b es : returns (snapshot_read snapshot b es).
Proof.
  induction es as [|e es IH]; cbn [snapshot_read]; [by eexists|]. destruct (visible snapshot e); [done|].
  by destruct b; [eexists|].
Qed.

Lemma out_of_memory_returns {A} f : out_of_memory f → returns (Fail f : outcome A).
Proof. intros [-> | ->]; by eexists. Qed.

(** C1: refinement: whatever the transactions of a heap do through the pointers
    in [sizes], in whatever order their calls come, the heap goes on standing
    for a multi-version store, and the calls are steps of that store:
    snapshots, uncommitted versions in front of visible ones, commits that
    number all versions of a transaction at once.  The set of pointers is
    fixed, with one pointer for each object and the size it is accessed with;
    an object that is reached through a second copy of its pointer, or a
    pointer that is created on the way, is outside of it. *)
Theorem executions_refine_store s s' m : represents s m → rtc sys_step s s' →
  ∃ m', rtc mv_step m m' ∧ represents s' m' ∧ mv_inv m'.
Proof.
  intros Hrp Hst. destruct (sys_steps_simulated s s' Hst m Hrp) as (m' & Hms & Hrp'). exists m'.
  split_and!; [done|done|apply Hrp'].
Qed.

(** C4: repeatable reads: as long as a transaction runs, a read of an object
    returns what it returned before, whatever the others have written,
    committed or rolled back meanwhile, and the bytes it returns are
    unchanged, apart from the pointers among them. *)
Theorem repeatable_reads s m i tx refs s' k size result : represents s m → sy_txs s !! i = Some (tx, refs) →
  rtc (running_step i) s s' → sizes !! k = Some size →
  eventually (λ fuel, (Transaction_read fuel k size (tx, sy_world s)).1) result →
  ∃ tx' refs', sy_txs s' !! i = Some (tx', refs') ∧
    eventually (λ fuel, Transaction_read fuel k size (tx', sy_world s')) (result, (tx', sy_world s')) ∧
    ∀ d, result = Ok d → ∀ o, mr_off d ≤ o < mr_off d + mr_len d →
      (∀ off, is_Some (sizes !! InMemory (mr_source d) off) → ¬ off ≤ o < off + size_of_usize) →
      mem (sy_las s') (mr_source d) o 1 = mem (sy_las s) (mr_source d) o 1.
Proof.
  intros Hrp Hi Hst Hk Hev. destruct (represents_running sizes s m i tx refs Hrp Hi) as (r & Hr & _).
  destruct (object_of s m k size Hrp Hk) as [es Ho].
  pose proof (eventually_map fst _ _ (eventually_above _ _ _ (system_read sizes s m i tx refs r k size es Hrp Hi Hr Hk Ho))) as Hev'.
  apply (eventually_unique _ _ _ Hev) in Hev' as ->. cbn [fst].
  destruct (running_steps i s s' Hst m Hrp) as (m' & Hrp' & [[tx' refs'] Hi'] & Hu & Hkeep); [by eexists|].
  destruct (ud_read _ _ _ Hu r k es Hr Ho) as (r' & es' & Hr' & E1 & Ho' & E2).
  exists tx', refs'. split; [done|]. split.
  - rewrite <- E2, <- E1. apply eventually_above with (length es').
    by apply (system_read sizes s' m' i tx' refs' r' k size es').
  - intros d Hd o Ho1 Hp. apply Hkeep. split; [|done].
    destruct (snapshot_read (ru_snapshot r) false es) as [e|f] eqn:He; [|done]. injection Hd as <-.
    apply snapshot_read_elem in He as [He Hv]. apply visible_true in Hv as [Hv _]. by exists k, es, e.
Qed.

(** C5: commits are atomic: once a transaction has committed, a new transaction
    finds through each pointer of the fixed set [sizes], one for each object,
    the version the transaction wrote if it wrote one through it, and
    otherwise what a new transaction found before.  (A new version of an
    object brings its own copies of the pointers in it along: those are other
    pointers.) *)
Theorem commit_atomic s m i tx refs tx' w' k size root : represents s m → sy_txs s !! i = Some (tx, refs) →
  sizes !! k = Some size → w_version (sy_world s) + 1 < 2 ^ 63 →
  Transaction_commit (tx, sy_world s) = (Ok tt, (tx', w')) →
  ∃ after, eventually (new_read root w' k size) after ∧
    (∀ u, u ∈ tx_writeset tx → tw_dst u = k →
       ∃ d, after = Ok d ∧ mr_source d + mr_off d = tw_new u ∧ ObjectSize_total size = Ok (mr_len d)) ∧
    (k ∉ (tw_dst <$> tx_writeset tx) → eventually (new_read root (sy_world s) k size) after).
Proof.
  intros Hrp Hi Hk Hlt Hcommit. destruct (represents_running sizes s m i tx refs Hrp Hi) as (r & Hr & Hta).
  destruct (object_of s m k size Hrp Hk) as [es Ho]. pose proof (rp_inv _ _ _ Hrp) as Hinv.
  destruct (system_commit sizes s m i tx refs r Hrp Hi Hr Hlt) as (res & w1 & m1 & Heq & _ & _ & Hrp1 & Hres).
  rewrite Hcommit in Heq. injection Heq as <- <- <-. pose proof (new_read_eventually s m root k size es Hrp Hk Ho) as Hbefore.
  destruct Hres as [(Hh & Eo & Ec)|(home & Hh & Ec & Eo)].
  - rewrite <- Eo in Ho. pose proof (new_read_eventually _ m1 root k size es Hrp1 Hk Ho) as Hafter. rewrite Ec in Hafter.
    eexists. split_and!; [exact Hafter| |done]. intros u Hu <-.
    assert (tw_dst u ∈ ru_writes r) as Hin by (rewrite (ta_writes _ _ _ _ _ _ Hta); apply list_elem_of_fmap; by exists u).
    destruct (mi_writes _ Hinv i r _ Hr Hin) as (? & ? & ? & _ & ? & _). congruence.
  - assert (mv_objects m1 !! k = Some (commit_entry home (mv_counter m + 1) <$> es)) as Ho1
      by by rewrite Eo, commit_lookup, Ho.
    pose proof (new_read_eventually _ m1 root k size _ Hrp1 Hk Ho1) as Hafter. rewrite Ec in Hafter.
    eexists. split_and!; [exact Hafter|..].
    + intros u Hu <-.
      assert (tw_dst u ∈ ru_writes r) as Hin by (rewrite (ta_writes _ _ _ _ _ _ Hta); apply list_elem_of_fmap; by exists u).
      destruct (commit_read_written m i r home _ Hinv Hr Hh Hin) as (e & es' & Ho' & Hread).
      rewrite Ho in Ho'. injection Ho' as ->. cbn zeta in Hread. rewrite Hread.
      pose proof (ta_write _ _ _ _ _ _ Hta) as Hat. rewrite Forall_forall in Hat.
      destruct (Hat u Hu) as [_ _ (e' & es'' & Ho' & Hn & _)]. rewrite Ho in Ho'. injection Ho' as <- <-.
      destruct (commit_entry_spans home (mv_counter m + 1) e) as (_ & _ & _ & Hdata & _).
      exists (en_data (total_at (tw_dst u)) e). split_and!; [by rewrite <- Hdata| |by apply (total_at_eq sizes s m)].
      rewrite Hn. simpl. lia.
    + intros Hnin. rewrite <- (ta_writes _ _ _ _ _ _ Hta) in Hnin.
      by rewrite (commit_read_other m i r home k es Hinv Hr Hh Hnin Ho).
Qed.

Lemma undone_read s m s' m' i r root k size n : represents s m → mv_running m !! i = Some r → represents s' m' →
  mv_counter m' = n → mv_counter m ≤ n → mv_objects m' = undo_objects (ru_writes r) (mv_objects m) →
  sizes !! k = Some size → ∃ result, eventually (new_read root (sy_world s) k size) result ∧
    eventually (new_read root (sy_world s') k size) result.
Proof.
  intros Hrp Hr Hrp' Hn Hle Eo Hk. destruct (object_of s m k size Hrp Hk) as [es Ho].
  eexists. split; [by apply (new_read_eventually s m root k size es)|].
  assert (mv_objects m' !! k = Some (if decide (k ∈ ru_writes r) then tail es else es)) as Ho'
    by by rewrite Eo, undo_lookup, Ho.
  pose proof (new_read_eventually s' m' root k size _ Hrp' Hk Ho') as Hafter.
  rewrite (undo_read m i r k es (rp_inv _ _ _ Hrp) Hr Ho), Hn in Hafter.
  by rewrite (snapshot_read_newer (mv_counter m)) in Hafter by (done || apply (mi_versions _ (rp_inv _ _ _ Hrp) k es Ho)).
Qed.

(** C6: all or nothing: a transaction that is aborted, or refused when it would
    commit, leaves no trace: a new transaction reads of each object what a new
    one would have read before, also if others have begun, written and
    committed meanwhile. *)
Theorem giving_up_leaves_no_trace s m i tx refs k size root : represents s m → sy_txs s !! i = Some (tx, refs) →
  sizes !! k = Some size → w_version (sy_world s) + 1 < 2 ^ 63 →
  ∃ result, eventually (new_read root (sy_world s) k size) result ∧
    (∃ w', Transaction_abort (tx, sy_world s) = (Ok tt, (tx, w')) ∧ eventually (new_read root w' k size) result) ∧
    (∀ error tx' w', Transaction_commit (tx, sy_world s) = (Err error, (tx', w')) →
       error = TxAborted ∧ eventually (new_read root w' k size) result).
Proof.
  intros Hrp Hi Hk Hlt. destruct (represents_running sizes s m i tx refs Hrp Hi) as (r & Hr & _).
  destruct (system_abort sizes s m i tx refs r Hrp Hi Hr) as (Habort & _ & _ & Hrpa).
  destruct (undone_read s m _ _ i r root k size (mv_counter m) Hrp Hr Hrpa) as (result & Hbefore & Hafter); [done..|].
  exists result. split_and!; [done|by eexists|]. intros error tx' w' Hcommit.
  destruct (system_commit sizes s m i tx refs r Hrp Hi Hr Hlt) as (res & w1 & m1 & Heq & Hms & _ & Hrp1 & Hres).
  rewrite Hcommit in Heq. injection Heq as <- <- <-. destruct Hres as ([= ->] & _ & Eo). split; [done|].
  assert (mv_counter m ≤ mv_counter m1) as Hle.
  { destruct Hms as [Hms _]. destruct Hms; simpl; lia. }
  destruct (undone_read s m _ m1 i r root k size (mv_counter m1) Hrp Hr Hrp1) as (result' & Hbefore' & Hafter'); [done..|].
  by rewrite (eventually_unique _ _ _ Hbefore Hbefore').
Qed.

(** C7: through the pointers in [sizes], a fixed set with one pointer for each
    object, the first to write an object has it to itself: until it ends, no
    running transaction, itself included, can write it again through the same
    pointer; and a [write] that succeeds continues the version its transaction
    reads: no committed update is lost.  Through two copies of a pointer two
    running transactions can write one object. *)
Theorem first_writer_wins s m i tx refs k size : represents s m → sy_txs s !! i = Some (tx, refs) →
  sizes !! k = Some size → ∃ result tx' w',
    eventually (λ fuel, Transaction_write fuel k size (tx, sy_world s)) (result, (tx', w')) ∧
    (∀ j txj refsj u, sy_txs s !! j = Some (txj, refsj) → u ∈ tx_writeset txj → tw_dst u = k →
       result = Err TxAborted ∨ result = Err AllocationTooLarge ∨ result = Err NoAvailableMemory) ∧
    (∀ d, result = Ok d → ∃ old bytes,
       eventually (λ fuel, (Transaction_read fuel k size (tx, sy_world s)).1) (Ok old) ∧
       eventually (new_read (tx_root tx) (sy_world s) k size) (Ok old) ∧
       load_memref old (sy_las s) = (Ok bytes, sy_las s) ∧ load_memref d (w_las w') = (Ok bytes, w_las w')).
Proof.
  intros Hrp Hi Hk. destruct (represents_running sizes s m i tx refs Hrp Hi) as (r & Hr & Hta).
  destruct (object_of s m k size Hrp Hk) as [es Ho]. pose proof (rp_inv _ _ _ Hrp) as Hinv.
  destruct (system_write sizes s m i tx refs r k size es Hrp Hi Hr Hk Ho) as (res & tx1 & w1 & m1 & Heq & _ & _ & _ & Hres).
  exists res, tx1, w1. split_and!; [by apply eventually_above with (length es)|..].
  - intros j txj refsj u Hj Hu <-. destruct (represents_running sizes s m j txj refsj Hrp Hj) as (rj & Hrj & Htaj).
    assert (tw_dst u ∈ ru_writes rj) as Hin by (rewrite (ta_writes _ _ _ _ _ _ Htaj); apply list_elem_of_fmap; by exists u).
    destruct res as [d|f].
    + destruct Hres as (e & es' & e' & -> & Hv & _).
      destruct (visible_unwritten m j rj (tw_dst u) e es' (ru_snapshot r)); done.
    + destruct Hres as [_ [[-> | ->]|[-> _]]]; tauto.
  - intros d ->. destruct Hres as (e & es' & e' & -> & Hv & _ & _ & -> & bytes & Hb & Hb').
    exists (en_data (total_at k) e), bytes.
    pose proof (eventually_map fst _ _ (eventually_above _ _ _ (system_read sizes s m i tx refs r k size _ Hrp Hi Hr Hk Ho))) as Hread.
    pose proof (new_read_eventually s m (tx_root tx) k size _ Hrp Hk Ho) as Hnew.
    assert (visible (mv_counter m) e = true) as Hv'.
    { apply visible_true in Hv. apply visible_true. pose proof (mi_snapshot _ Hinv i r Hr). lia. }
    cbn [fst snapshot_read] in Hread, Hnew. rewrite Hv in Hread. rewrite Hv' in Hnew. split_and!; [done|done|..].
    + by apply las_load_ok.
    + by apply las_load_ok.
Qed.

(** C10: the calls of a transaction through tracked pointers come back, with a
    result or an error: read, read_for_write and write of any object of the
    store, alloc of any block whose size keeps the next header aligned, abort
    and commit do not panic, do not access memory out of bounds or misaligned,
    and do not loop.  An abort always succeeds, a commit is refused only with
    [TxAborted], and only if an object was read for writing.  ([set] is a
    [todo!()] in the code and not among them.) *)
Theorem calls_return s m i tx refs : represents s m → sy_txs s !! i = Some (tx, refs) →
  w_version (sy_world s) + 1 < 2 ^ 63 →
  (∀ k size, sizes !! k = Some size →
     (∃ o, eventually (λ fuel, (Transaction_read fuel k size (tx, sy_world s)).1) o ∧ returns o) ∧
     (∃ o, eventually (λ fuel, (Transaction_read_for_write fuel k size (tx, sy_world s)).1) o ∧ returns o) ∧
     (∃ o, eventually (λ fuel, (Transaction_write fuel k size (tx, sy_world s)).1) o ∧ returns o)) ∧
  (∀ size total, ObjectSize_total size = Ok total → 0 < total → aligned 8 total →
     returns (Transaction_alloc size (tx, sy_world s)).1) ∧
  (Transaction_abort (tx, sy_world s)).1 = Ok tt ∧
  ((Transaction_commit (tx, sy_world s)).1 = Ok tt ∨
     (Transaction_commit (tx, sy_world s)).1 = Err TxAborted ∧ tx_readset tx ≠ []).
Proof.
  intros Hrp Hi Hlt. destruct (represents_running sizes s m i tx refs Hrp Hi) as (r & Hr & Hta).
  split_and!.
  - intros k size Hk. destruct (object_of s m k size Hrp Hk) as [es Ho]. split_and!.
    + eexists. split; [apply (eventually_map fst), eventually_above with (length es); by apply (system_read sizes s m i tx refs r k size es)|].
      cbn [fst]. pose proof (snapshot_read_returns (ru_snapshot r) false es) as H. by destruct (snapshot_read _ _ _).
    + eexists. split; [apply (eventually_map fst), eventually_above with (length es);
        by apply (system_read_for_write sizes s m i tx refs r k size es)|].
      cbn [fst]. pose proof (snapshot_read_returns (ru_snapshot r) true es) as H. by destruct (snapshot_read _ _ _).
    + destruct (system_write sizes s m i tx refs r k size es Hrp Hi Hr Hk Ho) as (res & tx1 & w1 & m1 & Heq & _ & _ & _ & Hres).
      exists res. split; [by apply (eventually_map fst _ (res, (tx1, w1))), eventually_above with (length es)|].
      destruct res as [d|f]; [done|]. destruct Hres as [_ [Hf|[-> _]]]; [by apply out_of_memory_returns|by eexists].
  - intros size total Ht Hpos Hal.
    destruct (system_alloc sizes s m i tx refs r size total Hrp Hi Hr Ht Hpos Hal) as (res & tx1 & w1 & m1 & -> & _ & _ & _ & _ & Hres).
    cbn [fst]. destruct res as [[ptr d]|f]; [done|]. by apply out_of_memory_returns.
  - by destruct (system_abort sizes s m i tx refs r Hrp Hi Hr) as (-> & _).
  - destruct (system_commit sizes s m i tx refs r Hrp Hi Hr Hlt) as (res & w1 & m1 & -> & _ & _ & _ & Hres).
    cbn [fst]. destruct res as [[]|f]; [by left|right]. by destruct Hres as (-> & ? & _).
Qed.
End Isolation.
