(* ===== verification/Skew.v ===== *)
(** * What snapshot isolation does not exclude

    Two transactions that each read what the other writes both commit: a
    commit checks what was read for writing, and nothing else that was read. *)
From S2P Require Import Prelude Utils Source SourceAllocator Slices Las Memory Pointer Vos.
From S2P Require Import Allocators Versions Objects Tx Transactions Heap Runs Snapshot Arena Simulation Calls Isolation.

Section Skew.
Context `{T : Target} `{TOk : !TargetOk T} `{C : Crc} {D : Type} `{Src : !Source D} `{Laws : !SourceLaws D}.
Context (sizes : gmap cell ObjectSize).
Abbreviation represents := (represents sizes).
Abbreviation total_at := (total_at sizes).
Implicit Types (w : World D) (tx : Transaction) (s : system D) (refs : list memref).
Implicit Types (m : mvstore cell) (r : running cell) (e : entry) (es : list entry) (k : cell).

(** A transaction that has read nothing for writing commits: its versions are
    read from now on, and everything else as before. *)
Lemma commit_unvalidated s m i tx refs r k e es root : represents s m → sy_txs s !! i = Some (tx, refs) →
  mv_running m !! i = Some r → tx_readset tx = [] → k ∈ ru_writes r → mv_objects m !! k = Some (e :: es) →
  w_version (sy_world s) + 1 < 2 ^ 63 → ∃ w' m' home,
  Transaction_commit (tx, sy_world s) = (Ok tt, (tx, w')) ∧ represents (ended (poke_to s w') i) m' ∧
  mv_running m' = delete i (mv_running m) ∧ w_version w' = w_version (sy_world s) + 1 ∧
  mv_objects m' = commit_objects home w' .(w_version) (mv_objects m) ∧
  (∀ size, sizes !! k = Some size → eventually (new_read root w' k size) (Ok (en_data (total_at k) e))) ∧
  (∀ l size result, sizes !! l = Some size → l ∉ ru_writes r → eventually (new_read root (sy_world s) l size) result →
     eventually (new_read root w' l size) result).
Proof.
  intros Hrp Hi Hr Hrs Hk Ho Hlt. pose proof (rp_inv _ _ _ Hrp) as Hinv.
  destruct (system_commit sizes s m i tx refs r Hrp Hi Hr Hlt) as (res & w' & m' & Heq & [_ Hrun] & _ & Hrp' & Hres).
  destruct res as [[]|f]; [|by destruct Hres as (_ & Hne & _)].
  destruct (mi_writes _ Hinv i r k Hr Hk) as (e1 & e0 & es1 & Ho1 & Hh & _).
  destruct Hres as [[Hnone _]|(home & Hh' & Ec & Eo)]; [congruence|].
  pose proof (rp_counter _ _ _ Hrp') as Hc'. pose proof (rp_counter _ _ _ Hrp) as Hc. cbn [ended poke_to sy_world] in Hc'.
  exists w', m', home. split_and!; try done.
  - lia.
  - by rewrite <- Hc', Ec.
  - intros size Hsize. assert (mv_objects m' !! k = Some (commit_entry home (mv_counter m + 1) <$> e :: es)) as Ho'
      by by rewrite Eo, commit_lookup, Ho.
    pose proof (new_read_eventually sizes _ m' root k size _ Hrp' Hsize Ho') as Hread.
    destruct (commit_read_written m i r home k Hinv Hr Hh' Hk) as (e2 & es2 & Ho2 & Hv). rewrite Ho in Ho2. injection Ho2 as <- <-.
    rewrite Ec in Hread. cbn zeta in Hv. rewrite Hv in Hread.
    destruct (commit_entry_spans home (mv_counter m + 1) e) as (_ & _ & _ & Hdata & _). cbn in Hread. by rewrite Hdata in Hread.
  - intros l size result Hsize Hnin Hbefore. destruct (object_of sizes s m l size Hrp Hsize) as [esl Hl].
    pose proof (new_read_eventually sizes s m root l size esl Hrp Hsize Hl) as Hb.
    rewrite (eventually_unique _ _ _ Hbefore Hb).
    assert (mv_objects m' !! l = Some (commit_entry home (mv_counter m + 1) <$> esl)) as Hl' by by rewrite Eo, commit_lookup, Hl.
    pose proof (new_read_eventually sizes _ m' root l size _ Hrp' Hsize Hl') as Hread.
    by rewrite Ec, (commit_read_other m i r home l esl Hinv Hr Hh' Hnin Hl) in Hread.
Qed.

(** What a transaction reads while another goes on. *)
Lemma reads_on s m s' i tx refs k size : represents s m → sy_txs s !! i = Some (tx, refs) → rtc (running_step sizes i) s s' →
  sizes !! k = Some size → ∃ result tx' refs', sy_txs s' !! i = Some (tx', refs') ∧
    eventually (λ fuel, (Transaction_read fuel k size (tx, sy_world s)).1) result ∧
    eventually (λ fuel, (Transaction_read fuel k size (tx', sy_world s')).1) result.
Proof.
  intros Hrp Hi Hst Hk. destruct (represents_running sizes s m i tx refs Hrp Hi) as (r & Hr & _).
  destruct (object_of sizes s m k size Hrp Hk) as [es Ho].
  destruct (running_steps sizes i s s' Hst m Hrp) as (m' & Hrp' & [[tx' refs'] Hi'] & Hu & _); [by eexists|].
  destruct (ud_read _ _ _ Hu r k es Hr Ho) as (r' & es' & Hr' & E1 & Ho' & E2).
  pose proof (eventually_map fst _ _ (eventually_above _ _ _ (system_read sizes s m i tx refs r k size es Hrp Hi Hr Hk Ho))) as H.
  pose proof (eventually_map fst _ _ (eventually_above _ _ _ (system_read sizes s' m' i tx' refs' r' k size es' Hrp' Hi' Hr' Hk Ho'))) as H'.
  rewrite E1, E2 in H'. eexists _, tx', refs'. split; [done|]. split; [exact H|exact H'].
Qed.

(** A write, as a step and in the store. *)
Lemma write_step s m i tx refs k size d tx' w' : represents s m → sy_txs s !! i = Some (tx, refs) → sizes !! k = Some size →
  eventually (λ fuel, Transaction_write fuel k size (tx, sy_world s)) (Ok d, (tx', w')) →
  let s' := step_to s i tx' (d :: refs) w' in
  (∀ j, is_Some (sy_txs s !! j) → running_step sizes j s s') ∧
  ∃ r m' e es, mv_running m !! i = Some r ∧ represents s' m' ∧
    (∃ home, mv_running m' = <[i := mk_running (ru_snapshot r) home (ru_writes r ++ [k])]> (mv_running m)) ∧
    mv_objects m' = <[k := e :: es]> (mv_objects m) ∧ d = en_data (total_at k) e.
Proof.
  intros Hrp Hi Hk Hev. split.
  { intros j Hj. split; [by apply (sys_write sizes s i tx refs k size (Ok d))|]. cbn [step_to sy_txs].
    destruct (decide (i = j)) as [->|]; [rewrite lookup_insert_eq; by eexists|by rewrite lookup_insert_ne]. }
  destruct (represents_running sizes s m i tx refs Hrp Hi) as (r & Hr & _).
  destruct (object_of sizes s m k size Hrp Hk) as [es Ho].
  destruct (system_write sizes s m i tx refs r k size es Hrp Hi Hr Hk Ho) as (res & tx1 & w1 & m1 & Heq & [_ Hrun] & _ & Hrp1 & Hres).
  pose proof (eventually_unique _ _ _ Hev (eventually_above _ _ _ Heq)) as E. injection E as <- <- <-.
  destruct Hres as (e & es' & e' & -> & _ & Hobj & _ & -> & _). exists r, m1, e', (e :: es'). by split_and!.
Qed.

(** Two that have each written an object: one commits after the other. *)
Lemma both_commit s m i j txi txj refsi refsj k l sizek sizel ei esi ej esj ri rj root : represents s m → i ≠ j →
  sy_txs s !! i = Some (txi, refsi) → sy_txs s !! j = Some (txj, refsj) → sizes !! k = Some sizek → sizes !! l = Some sizel →
  mv_running m !! i = Some ri → mv_running m !! j = Some rj → k ∈ ru_writes ri → l ∈ ru_writes rj →
  mv_objects m !! k = Some (ei :: esi) → mv_objects m !! l = Some (ej :: esj) →
  tx_readset txi = [] → tx_readset txj = [] → w_version (sy_world s) + 2 < 2 ^ 63 →
  ∃ w3 w4, Transaction_commit (txi, sy_world s) = (Ok tt, (txi, w3)) ∧ Transaction_commit (txj, w3) = (Ok tt, (txj, w4)) ∧
    eventually (new_read root w4 k sizek) (Ok (en_data (total_at k) ei)) ∧
    eventually (new_read root w4 l sizel) (Ok (en_data (total_at l) ej)).
Proof.
  intros Hrp Hij Hi Hj Hk Hl Hri Hrj Hki Hlj Hok Hol Hrsi Hrsj Hlt. pose proof (rp_inv _ _ _ Hrp) as Hinv.
  assert (k ∉ ru_writes rj) as Hkj.
  { intros Hkj. destruct (mi_writes _ Hinv i ri k Hri Hki) as (e & e0 & es & Ho & Hh & _).
    destruct (mi_writes _ Hinv j rj k Hrj Hkj) as (e' & e0' & es' & Ho' & Hh' & _). rewrite Ho in Ho'. injection Ho' as <- _ _.
    by apply Hij, (mi_homes _ Hinv i j ri rj (en_home e)). }
  destruct (commit_unvalidated s m i txi refsi ri k ei esi root Hrp Hi Hri Hrsi Hki Hok) as
    (w3 & m3 & home & Hc3 & Hrp3 & Hrun3 & Hv3 & Ho3 & Hread3 & _); [lia|].
  set (s3 := ended (poke_to s w3) i) in *.
  assert (sy_txs s3 !! j = Some (txj, refsj)) as Hj3 by (unfold s3; cbn; by rewrite lookup_delete_ne).
  assert (mv_running m3 !! j = Some rj) as Hrj3 by by rewrite Hrun3, lookup_delete_ne.
  assert (mv_objects m3 !! l = Some (commit_entry home (w_version w3) ej :: (commit_entry home (w_version w3) <$> esj))) as Hol3
    by by rewrite Ho3, commit_lookup, Hol.
  destruct (commit_unvalidated s3 m3 j txj refsj rj l _ _ root Hrp3 Hj3 Hrj3 Hrsj Hlj Hol3) as
    (w4 & m4 & home' & Hc4 & _ & _ & _ & _ & Hread4 & Hother4); [unfold s3; cbn; lia|].
  exists w3, w4. split_and!; [done|done|by apply Hother4; [..|apply Hread3]|].
  destruct (commit_entry_spans home (w_version w3) ej) as (_ & _ & _ & Hdata & _). rewrite <- Hdata. by apply Hread4.
Qed.

(** C37: isolation is snapshot isolation and not serializability (write skew): when
    one transaction writes an object and another writes another, each may have
    read the object the other writes, and goes on reading it as it was before
    both; if neither has read for writing, both commit, whatever others have
    done, and a new transaction finds both writes. *)
Theorem write_skew_commits s m i j txi refsi txj refsj k l sizek sizel di txi' w1 dj txj' w2 root :
  represents s m → i ≠ j → k ≠ l → sy_txs s !! i = Some (txi, refsi) → sy_txs s !! j = Some (txj, refsj) →
  sizes !! k = Some sizek → sizes !! l = Some sizel →
  eventually (λ fuel, Transaction_write fuel k sizek (txi, sy_world s)) (Ok di, (txi', w1)) →
  eventually (λ fuel, Transaction_write fuel l sizel (txj, w1)) (Ok dj, (txj', w2)) →
  tx_readset txi' = [] → tx_readset txj' = [] → w_version w2 + 2 < 2 ^ 63 →
  (∃ old, eventually (λ fuel, (Transaction_read fuel l sizel (txi, sy_world s)).1) old ∧
     eventually (λ fuel, (Transaction_read fuel l sizel (txi', w2)).1) old) ∧
  (∃ old, eventually (λ fuel, (Transaction_read fuel k sizek (txj, sy_world s)).1) old ∧
     eventually (λ fuel, (Transaction_read fuel k sizek (txj', w2)).1) old) ∧
  ∃ w3 w4, Transaction_commit (txi', w2) = (Ok tt, (txi', w3)) ∧ Transaction_commit (txj', w3) = (Ok tt, (txj', w4)) ∧
    eventually (new_read root w4 k sizek) (Ok di) ∧ eventually (new_read root w4 l sizel) (Ok dj).
Proof.
  intros Hrp Hij Hkl Hi Hj Hk Hl Hwi Hwj Hri Hrj Hlt.
  destruct (write_step s m i txi refsi k sizek di txi' w1 Hrp Hi Hk Hwi) as (Hst1 & ri & m1 & ei & esi & Hr & Hrp1 & [hi Hrun1] & Ho1 & ->).
  set (s1 := step_to s i txi' _ w1) in *. assert (sy_txs s1 !! j = Some (txj, refsj)) as Hj1 by (unfold s1; cbn; by rewrite lookup_insert_ne).
  destruct (write_step s1 m1 j txj refsj l sizel dj txj' w2 Hrp1 Hj1 Hl Hwj) as (Hst2 & rj & m2 & ej & esj & Hr2 & Hrp2 & [hj Hrun2] & Ho2 & ->).
  set (s2 := step_to s1 j txj' _ w2) in *.
  assert (∀ x, is_Some (sy_txs s !! x) → rtc (running_step sizes x) s s2) as Hst.
  { intros x Hx. eapply rtc_l; [by apply Hst1|]. apply rtc_once, Hst2. by apply Hst1. }
  split; [|split].
  - destruct (reads_on s m s2 i txi refsi l sizel Hrp Hi) as (old & tx & refs & Hi2 & H1 & H2); [apply Hst; by eexists|done|].
    unfold s2, s1 in Hi2. cbn in Hi2. rewrite lookup_insert_ne, lookup_insert_eq in Hi2 by done. injection Hi2 as <- <-. by exists old.
  - destruct (reads_on s m s2 j txj refsj k sizek Hrp Hj) as (old & tx & refs & Hj2 & H1 & H2); [apply Hst; by eexists|done|].
    unfold s2 in Hj2. cbn in Hj2. rewrite lookup_insert_eq in Hj2. injection Hj2 as <- <-. by exists old.
  - set (ri' := mk_running (ru_snapshot ri) hi (ru_writes ri ++ [k])) in *.
    set (rj' := mk_running (ru_snapshot rj) hj (ru_writes rj ++ [l])) in *.
    apply (both_commit s2 m2 i j txi' txj' (en_data (total_at k) ei :: refsi) (en_data (total_at l) ej :: refsj) k l sizek sizel
      ei esi ej esj ri' rj'); try done.
    + unfold s2, s1. cbn. by rewrite lookup_insert_ne, lookup_insert_eq.
    + apply step_to_this.
    + by rewrite Hrun2, lookup_insert_ne, Hrun1, lookup_insert_eq.
    + by rewrite Hrun2, lookup_insert_eq.
    + cbn. apply elem_of_app. right. by left.
    + cbn. apply elem_of_app. right. by left.
    + by rewrite Ho2, lookup_insert_ne, Ho1, lookup_insert_eq.
    + by rewrite Ho2, lookup_insert_eq.
Qed.
End Skew.
