(* ===== verification/Clients.v ===== *)
(** * Closures

    The closures that clients run as transactions, as far as they use the heap
    through the transaction's calls and the bytes these hand out: running one
    is an execution of [Isolation], which never panics. *)
From S2P Require Import Prelude Utils Source SourceAllocator Slices Las Memory Pointer Vos.
From S2P Require Import Allocators Versions Objects Tx Transactions Heap Runs Snapshot Arena Simulation Calls Isolation.

(** A closure: what it calls next, by what the calls before have returned;
    [Crashing] is a panic, or a value that its type does not have. *)
Inductive client (R : Type) : Type :=
| Done (result : R + Error)
| Crashing (f : failure)
| Reading (k : cell) (size : ObjectSize) (next : memref + Error → client R)
| ReadingForWrite (k : cell) (size : ObjectSize) (next : memref + Error → client R)
| Writing (k : cell) (size : ObjectSize) (next : memref + Error → client R)
| Allocating (size : ObjectSize) (next : (UntypedPointer * memref) + Error → client R)
| Loading (d : memref) (off len : Z) (next : list byte → client R)
| Storing (d : memref) (off : Z) (bytes : list byte) (next : client R).
Arguments Done {R}.
Arguments Crashing {R}.
Arguments Reading {R}.
Arguments ReadingForWrite {R}.
Arguments Writing {R}.
Arguments Allocating {R}.
Arguments Loading {R}.
Arguments Storing {R}.

(** The cast of the bytes at [data] to a type of [size] bytes. *)
Definition cast `{T : Target} {R} (size align : Z) (data : memref) (next : memref → client R) : client R :=
  match any_from_slice_mut size align data with Ok typed => next typed | Fail f => Crashing f end.

Lemma cast_ok `{T : Target} {R} size align data (next : memref → client R) : size ≤ mr_len data →
  aligned align (mr_off data) → cast size align data next = next data.
Proof. intros. unfold cast. by rewrite any_from_slice_mut_ok. Qed.

Section Clients.
Context `{T : Target} `{TOk : !TargetOk T} `{C : Crc} {D : Type} `{Src : !Source D} `{Laws : !SourceLaws D}.
Context (sizes : gmap cell ObjectSize).
Abbreviation TX := (M (Transaction * World D)).
Abbreviation represents := (represents sizes).
Abbreviation sys_step := (sys_step sizes).
Implicit Types (w : World D) (tx : Transaction) (s : system D) (refs reads : list memref) (k : cell).
Implicit Types (m : mvstore cell) (r : running cell) (e : entry) (es : list entry).

(** The closure as the computation [run] is given. *)
Fixpoint closure {R} (fuel : nat) (c : client R) : TX R :=
  match c with
  | Done (inl r) => mret r
  | Done (inr e) => throw e
  | Crashing f => fail f
  | Reading k size next => o ← attempt (Transaction_read fuel k size); closure fuel (next o)
  | ReadingForWrite k size next => o ← attempt (Transaction_read_for_write fuel k size); closure fuel (next o)
  | Writing k size next => o ← attempt (Transaction_write fuel k size); closure fuel (next o)
  | Allocating size next => o ← attempt (Transaction_alloc size); closure fuel (next o)
  | Loading d off len next => bytes ← on_tx_las (las_load (mr_source d) (mr_off d + off) len); closure fuel (next bytes)
  | Storing d off bytes next => on_tx_las (las_store (mr_source d) (mr_off d + off) bytes) ;; closure fuel next
  end.

(** It uses the pointers there are, reads what it was handed, stores only to
    what [write] and [alloc] handed it, and does not crash. *)
Fixpoint client_ok {R} refs reads (c : client R) : Prop :=
  match c with
  | Done _ => True
  | Crashing _ => False
  | Reading k size next | ReadingForWrite k size next =>
      sizes !! k = Some size ∧ (∀ d, ObjectSize_total size = Ok (mr_len d) → aligned 8 (mr_off d) → client_ok refs (d :: reads) (next (inl d))) ∧
      ∀ error, client_ok refs reads (next (inr error))
  | Writing k size next =>
      sizes !! k = Some size ∧
      (∀ d, ObjectSize_total size = Ok (mr_len d) → aligned 8 (mr_off d) → client_ok (d :: refs) (d :: reads) (next (inl d))) ∧
      ∀ error, client_ok refs reads (next (inr error))
  | Allocating size next =>
      (∃ total, ObjectSize_total size = Ok total ∧ 0 < total ∧ aligned 8 total) ∧
      (∀ ptr d, ObjectSize_total size = Ok (mr_len d) → aligned 8 (mr_off d) → client_ok (d :: refs) (d :: reads) (next (inl (ptr, d)))) ∧
      ∀ error, client_ok refs reads (next (inr error))
  | Loading d off len next =>
      d ∈ reads ∧ 0 ≤ off ∧ 0 ≤ len ∧ off + len ≤ mr_len d ∧ ∀ bytes, client_ok refs reads (next bytes)
  | Storing d off bytes next =>
      d ∈ refs ∧ 0 ≤ off ∧ off + blen bytes ≤ mr_len d ∧ client_ok refs reads next
  end.

Definition readable s d : Prop := is_Some (mem (sy_las s) (mr_source d) (mr_off d) (mr_len d)).

Lemma readable_shape s s' d : las_shape (sy_las s') = las_shape (sy_las s) → readable s d → readable s' d.
Proof.
  intros Hs [bs Hbs]. apply mem_Some in Hbs as (sa & Hg & Hr & _).
  destruct (las_shape_get (sy_las s) (sy_las s') _ sa Hs Hg) as (sa' & Hg' & _ & Hl & _).
  eexists. apply mem_Some. exists sa'. rewrite Hl. by split_and!.
Qed.

(** The bytes of an object's versions can be read. *)
Lemma version_chain_bytes las total raw es e : las_wf las → 0 ≤ total → version_chain las total raw es → e ∈ es →
  is_Some (mem las (en_base e) (mr_off (en_data total e)) total).
Proof.
  intros Hwf Ht. induction 1 as [|raw e0 other es _ _ _ Hle Hr _ _ _ IH]; [by intros ?%elem_of_nil|].
  intros [->|He]%elem_of_cons; [|by apply IH].
  destruct (byte_range_mem las _ _ _ Hwf Hr) as [_ Hmem]. by apply Hmem; [usize|lia|usize].
Qed.

Lemma entry_readable s m k es e : represents s m → mv_objects m !! k = Some es → e ∈ es →
  readable s (en_data (total_at sizes k) e).
Proof.
  intros Hrp Ho He. destruct (rp_objects _ _ _ Hrp k es Ho) as [_ Hpos _ (raw & _ & _ & Hch)].
  apply (version_chain_bytes _ _ raw es); [apply (ar_las _ (rp_arena _ _ _ Hrp))|lia|done|done].
Qed.

(** What a call of the transaction [i] has come to. *)
Record called {A} s (i : nat) tx (f : nat → TX A) (result : outcome A) tx' refs' w' : Prop := {
  cl_result : eventually (λ fuel, f fuel (tx, sy_world s)) (result, (tx', w'));
  cl_returns : returns result;
  cl_counter : w_version w' = w_version (sy_world s);
  cl_shape : las_shape (w_las w') = las_shape (sy_las s);
  cl_step : rtc sys_step s (step_to s i tx' refs' w');
  cl_represents : ∃ m', represents (step_to s i tx' refs' w') m'
}.

Lemma call_read s m i tx refs k size : represents s m → sy_txs s !! i = Some (tx, refs) → sizes !! k = Some size →
  ∃ result, called s i tx (λ fuel, Transaction_read fuel k size) result tx refs (sy_world s) ∧
    ∀ d, result = Ok d → readable s d ∧ ObjectSize_total size = Ok (mr_len d) ∧ aligned 8 (mr_off d).
Proof.
  intros Hrp Hi Hk. destruct (represents_running sizes s m i tx refs Hrp Hi) as (r & Hr & _).
  destruct (object_of sizes s m k size Hrp Hk) as [es Ho].
  pose proof (eventually_above _ _ _ (system_read sizes s m i tx refs r k size es Hrp Hi Hr Hk Ho)) as Hev.
  eexists. split; [split|].
  - exact Hev.
  - pose proof (snapshot_read_returns (ru_snapshot r) false es) as H. by destruct (snapshot_read _ _ _).
  - done.
  - done.
  - eapply rtc_once, sys_read; [done|done|exact Hev].
  - exists m. by rewrite step_to_same.
  - intros d Hd. destruct (snapshot_read _ _ es) as [e|f] eqn:He; [|done]. injection Hd as <-.
    apply snapshot_read_elem in He as [He _].
    split_and!; [by apply (entry_readable s m k es)|by apply (total_at_eq sizes s m)|by apply (data_aligned sizes s m k es)].
Qed.

Lemma call_read_for_write s m i tx refs k size : represents s m → sy_txs s !! i = Some (tx, refs) → sizes !! k = Some size →
  ∃ result tx', called s i tx (λ fuel, Transaction_read_for_write fuel k size) result tx' refs (sy_world s) ∧
    ∀ d, result = Ok d → readable s d ∧ ObjectSize_total size = Ok (mr_len d) ∧ aligned 8 (mr_off d).
Proof.
  intros Hrp Hi Hk. destruct (represents_running sizes s m i tx refs Hrp Hi) as (r & Hr & _).
  destruct (object_of sizes s m k size Hrp Hk) as [es Ho].
  destruct (system_read_for_write sizes s m i tx refs r k size es Hrp Hi Hr Hk Ho) as [Heq Hrp'].
  pose proof (eventually_above _ _ _ Heq) as Hev. eexists _, _. split; [split|].
  - exact Hev.
  - pose proof (snapshot_read_returns (ru_snapshot r) true es) as H. by destruct (snapshot_read _ _ _).
  - done.
  - done.
  - eapply rtc_once, sys_read_for_write; [done|done|exact Hev].
  - by exists m.
  - intros d Hd. destruct (snapshot_read _ _ es) as [e|f] eqn:He; [|done]. injection Hd as <-.
    apply snapshot_read_elem in He as [He _].
    split_and!; [by apply (entry_readable s m k es)|by apply (total_at_eq sizes s m)|by apply (data_aligned sizes s m k es)].
Qed.

Lemma counter_kept s s' m m' : represents s m → represents s' m' → rtc mv_call m m' →
  w_version (sy_world s') = w_version (sy_world s).
Proof. intros H H' Hms. rewrite <- (rp_counter _ _ _ H), <- (rp_counter _ _ _ H'). by apply mv_calls_counter. Qed.

(** A reference that was just handed out can be read. *)
Lemma handed_readable s m i tx refs d : represents s m → sy_txs s !! i = Some (tx, refs) → d ∈ refs → readable s d.
Proof.
  intros Hrp Hi Hd. destruct (filling_owned sizes s m i d Hrp) as (r & home & _ & _ & _ & Hra); [by exists tx, refs|].
  apply Hra.
Qed.

Lemma call_write s m i tx refs k size : represents s m → sy_txs s !! i = Some (tx, refs) → sizes !! k = Some size →
  ∃ result tx' w', called s i tx (λ fuel, Transaction_write fuel k size) result tx' (handed result refs) w' ∧
    ∀ d, result = Ok d → ObjectSize_total size = Ok (mr_len d) ∧ aligned 8 (mr_off d).
Proof.
  intros Hrp Hi Hk. destruct (represents_running sizes s m i tx refs Hrp Hi) as (r & Hr & _).
  destruct (object_of sizes s m k size Hrp Hk) as [es Ho].
  destruct (system_write sizes s m i tx refs r k size es Hrp Hi Hr Hk Ho) as (res & tx' & w' & m' & Heq & Hms & [Hs _] & Hrp' & Hres).
  pose proof (eventually_above _ _ _ Heq) as Hev. exists res, tx', w'. split; [split|].
  - exact Hev.
  - destruct res as [d|f]; [done|]. destruct Hres as [_ [Hf|[-> _]]]; [by apply out_of_memory_returns|by eexists].
  - by apply (counter_kept s (step_to s i tx' (handed res refs) w') m m'); [..|apply Hms].
  - done.
  - eapply rtc_once, sys_write; [done|done|exact Hev].
  - by exists m'.
  - intros d ->. destruct Hres as (e & es' & e' & -> & _ & Ho' & _ & -> & _). split; [by apply (total_at_eq sizes s m)|].
    apply (data_aligned sizes _ m' k (e' :: e :: es') e' Hrp'); [by rewrite Ho', lookup_insert_eq|by left].
Qed.

Lemma call_alloc s m i tx refs size total : represents s m → sy_txs s !! i = Some (tx, refs) →
  ObjectSize_total size = Ok total → 0 < total → aligned 8 total → ∃ result tx' w',
  called s i tx (λ _, Transaction_alloc size) result tx' (handed ('(_, d) ← result; mret d) refs) w' ∧
  ∀ ptr d, result = Ok (ptr, d) → ObjectSize_total size = Ok (mr_len d) ∧ aligned 8 (mr_off d).
Proof.
  intros Hrp Hi Hs Ht Hal. destruct (represents_running sizes s m i tx refs Hrp Hi) as (r & Hr & _).
  destruct (system_alloc sizes s m i tx refs r size total Hrp Hi Hr Hs Ht Hal) as (res & tx' & w' & m' & Heq & Hms & [Hsh _] & _ & Hrp' & Hres).
  exists res, tx', w'. split; [split|].
  - by exists 0%nat.
  - destruct res as [[ptr d]|f]; [done|]. by apply out_of_memory_returns.
  - by apply (counter_kept s (step_to s i tx' (handed ('(_, d) ← res; mret d) refs) w') m m'); [..|apply Hms].
  - done.
  - by eapply rtc_once, sys_alloc.
  - by exists m'.
  - intros ptr d ->. destruct Hres as [-> ?]. done.
Qed.

Lemma call_store s m i tx refs d off bytes : represents s m → sy_txs s !! i = Some (tx, refs) → d ∈ refs →
  0 ≤ off → off + blen bytes ≤ mr_len d → ∃ w',
  called s i tx (λ _, on_tx_las (las_store (mr_source d) (mr_off d + off) bytes)) (Ok tt) tx refs w'.
Proof.
  intros Hrp Hi Hd Hoff Hle. assert (filling s i d) as Hf by by exists tx, refs.
  destruct (represents_store sizes s m i d off bytes Hrp Hf Hoff Hle) as [Heq Hrp'].
  destruct (settled_store sizes s m i d off bytes Hrp Hf Hoff Hle) as [Hsh _].
  set (las' := put _ _ _ _) in *.
  assert (poke_to s (with_las las' (sy_world s)) = step_to s i tx refs (with_las las' (sy_world s))) as E.
  { unfold poke_to, step_to. by rewrite insert_id. }
  exists (with_las las' (sy_world s)). split.
  - exists 0%nat. intros fuel _. by apply on_tx_las_eq.
  - done.
  - done.
  - done.
  - rewrite <- E. by apply rtc_once, (sys_store _ s i tx refs d off bytes las').
  - exists m. by rewrite <- E.
Qed.

(** *** One call after the other *)
Definition seen {A} (o : outcome A) (x : A + Error) : Prop :=
  match o with Ok a => x = inl a | Fail (Throw error) => x = inr error | Fail _ => False end.

Lemma returns_seen {A} (o : outcome A) : returns o → ∃ x, seen o x.
Proof. destruct o as [a|f]; [by exists (inl a)|]. intros [error ->]. by exists (inr error). Qed.

Lemma called_then {A B} s i tx (f : nat → TX A) o tx1 refs1 w1 (g : nat → A + Error → TX B) x res tx2 refs2 w2 :
  called s i tx f o tx1 refs1 w1 → seen o x →
  called (step_to s i tx1 refs1 w1) i tx1 (λ n, g n x) res tx2 refs2 w2 →
  called s i tx (λ n, y ← attempt (f n); g n y) res tx2 refs2 w2.
Proof.
  intros [[n Hn] _ A3 A4 A5 _] Hx [[n' Hn'] B2 B3 B4 B5 B6]. rewrite step_to_twice in B5, B6. split.
  - exists (max n n'). intros fuel Hf. rewrite (bind_ok _ _ _ x (tx1, w1)); [apply Hn'; lia|].
    specialize (Hn fuel ltac:(lia)). destruct o as [a|[error| | |]]; try done; simpl in Hx; subst x;
      [by apply attempt_ok|by apply attempt_err].
  - done.
  - cbn [step_to sy_world] in B3. congruence.
  - unfold sy_las in B4. cbn [step_to sy_world] in B4. unfold sy_las in *. congruence.
  - by etrans.
  - done.
Qed.

(** A call that cannot fail with an error that the closure sees. *)
Lemma called_bind {A B} s i tx (f : nat → TX A) a tx1 refs1 w1 (g : nat → A → TX B) res tx2 refs2 w2 :
  called s i tx f (Ok a) tx1 refs1 w1 → called (step_to s i tx1 refs1 w1) i tx1 (λ n, g n a) res tx2 refs2 w2 →
  called s i tx (λ n, y ← f n; g n y) res tx2 refs2 w2.
Proof.
  intros [[n Hn] _ A3 A4 A5 _] [[n' Hn'] B2 B3 B4 B5 B6]. rewrite step_to_twice in B5, B6. split.
  - exists (max n n'). intros fuel Hf. rewrite (bind_ok _ _ _ a (tx1, w1)); [apply Hn'; lia|]. apply Hn. lia.
  - done.
  - cbn [step_to sy_world] in B3. congruence.
  - unfold sy_las in *. cbn [step_to sy_world] in B4. congruence.
  - by etrans.
  - done.
Qed.

Lemma called_readable {A} s i tx (f : nat → TX A) o tx1 refs1 w1 reads : called s i tx f o tx1 refs1 w1 →
  Forall (readable s) reads → Forall (readable (step_to s i tx1 refs1 w1)) reads.
Proof. intros Hc Hr. apply (Forall_impl _ _ _ Hr). intros d. apply readable_shape, (cl_shape _ _ _ _ _ _ _ _ Hc). Qed.

(** Nothing at all is called. *)
Lemma called_nothing {A} s i tx refs (o : outcome A) : (∃ m, represents s m) → sy_txs s !! i = Some (tx, refs) → returns o →
  called s i tx (λ _ st, (o, st)) o tx refs (sy_world s).
Proof. intros Hrp Hi Ho. split; rewrite ?step_to_same by done; try done. by exists 0%nat. Qed.

(** The closure comes to an end from every heap. *)
Definition finishes {R} (c : client R) : Prop := ∀ s i tx refs reads, (∃ m, represents s m) →
  sy_txs s !! i = Some (tx, refs) → client_ok refs reads c → Forall (readable s) reads →
  ∃ result tx' refs' w', called s i tx (λ fuel, closure fuel c) result tx' refs' w'.

(** The references a call returns, with those that can be read already. *)
Definition with_read {A} (ref : A → memref) (y : A + Error) reads : list memref :=
  match y with inl a => ref a :: reads | inr _ => reads end.

(** The closure is ready for what the call comes to; [ref] is the reference in it. *)
Definition awaits {A R} (next : A + Error → client R) (ref : A → memref) (o : outcome A) s' refs' reads : Prop :=
  (∀ a, o = Ok a → readable s' (ref a) ∧ client_ok refs' (ref a :: reads) (next (inl a))) ∧
  ∀ error, o = Err error → client_ok refs' reads (next (inr error)).

Lemma awaits_seen {A R} (next : A + Error → client R) ref s i tx (f : nat → TX A) o tx1 refs1 w1 reads y :
  called s i tx f o tx1 refs1 w1 → awaits next ref o (step_to s i tx1 refs1 w1) refs1 reads →
  Forall (readable s) reads → seen o y →
  client_ok refs1 (with_read ref y reads) (next y) ∧ Forall (readable (step_to s i tx1 refs1 w1)) (with_read ref y reads).
Proof.
  intros Hc [Hok Herr] Hrd Hy. pose proof (called_readable _ _ _ _ _ _ _ _ _ Hc Hrd) as Hrd'.
  destruct o as [a|[]]; try done; simpl in Hy; subst y; [|split; [by apply Herr|done]].
  split; [by apply Hok|]. constructor; [by apply Hok|done].
Qed.

(** A reference that the call has handed out. *)
Lemma called_handed {A} s i tx (f : nat → TX A) o tx1 refs w1 d :
  called s i tx f o tx1 (d :: refs) w1 → readable (step_to s i tx1 (d :: refs) w1) d.
Proof.
  intros Hc. destruct (cl_represents _ _ _ _ _ _ _ _ Hc) as [m Hm].
  apply (handed_readable _ m i tx1 (d :: refs)); [done|apply step_to_this|by left].
Qed.

(** The calls of a closure come to what it is ready for. *)
Lemma awaits_read {R} s m i tx refs reads k size (next : _ → client R) : represents s m → sy_txs s !! i = Some (tx, refs) →
  client_ok refs reads (Reading k size next) → ∃ o, called s i tx (λ fuel, Transaction_read fuel k size) o tx refs (sy_world s) ∧
    awaits next id o (step_to s i tx refs (sy_world s)) refs reads.
Proof.
  intros Hrp Hi (Hk & Hok & Herr). destruct (call_read s m i tx refs k size Hrp Hi Hk) as (o & Hc & Hd).
  exists o. split; [done|]. split; [|by intros]. intros d Ho. rewrite step_to_same by done. split; [by apply Hd|by apply Hok; apply Hd].
Qed.

Lemma awaits_read_for_write {R} s m i tx refs reads k size (next : _ → client R) : represents s m →
  sy_txs s !! i = Some (tx, refs) → client_ok refs reads (ReadingForWrite k size next) →
  ∃ o tx1, called s i tx (λ fuel, Transaction_read_for_write fuel k size) o tx1 refs (sy_world s) ∧
    awaits next id o (step_to s i tx1 refs (sy_world s)) refs reads.
Proof.
  intros Hrp Hi (Hk & Hok & Herr). destruct (call_read_for_write s m i tx refs k size Hrp Hi Hk) as (o & tx1 & Hc & Hd).
  exists o, tx1. split; [done|]. split; [|by intros]. intros d Ho. split; [by apply (readable_shape s), Hd|by apply Hok; apply Hd].
Qed.

Lemma awaits_write {R} s m i tx refs reads k size (next : _ → client R) : represents s m →
  sy_txs s !! i = Some (tx, refs) → client_ok refs reads (Writing k size next) →
  ∃ o tx1 w1, called s i tx (λ fuel, Transaction_write fuel k size) o tx1 (handed o refs) w1 ∧
    awaits next id o (step_to s i tx1 (handed o refs) w1) (handed o refs) reads.
Proof.
  intros Hrp Hi (Hk & Hok & Herr). destruct (call_write s m i tx refs k size Hrp Hi Hk) as (o & tx1 & w1 & Hc & Hd).
  exists o, tx1, w1. split; [done|]. split; [|by intros ? ->].
  intros d ->. split; [by apply (called_handed _ _ _ _ _ _ _ _ _ Hc)|by apply Hok; apply Hd].
Qed.

Lemma awaits_alloc {R} s m i tx refs reads size (next : _ → client R) : represents s m →
  sy_txs s !! i = Some (tx, refs) → client_ok refs reads (Allocating size next) →
  ∃ o tx1 refs1 w1, refs1 = handed ('(_, d) ← o; mret d) refs ∧
    called s i tx (λ _, Transaction_alloc size) o tx1 refs1 w1 ∧ awaits next snd o (step_to s i tx1 refs1 w1) refs1 reads.
Proof.
  intros Hrp Hi ((total & Hs & Ht & Hal) & Hok & Herr).
  destruct (call_alloc s m i tx refs size total Hrp Hi Hs Ht Hal) as (o & tx1 & w1 & Hc & Hd).
  exists o, tx1. eexists _, w1. split; [done|]. split; [done|]. split; [|by intros ? ->].
  intros [ptr d] ->. split; [by apply (called_handed _ _ _ _ _ _ _ _ _ Hc)|by apply Hok; apply (Hd ptr)].
Qed.

Lemma attempt_finishes {A R} (next : A + Error → client R) ref s i tx (f : nat → TX A) o tx1 refs1 w1 reads :
  (∀ x, finishes (next x)) → called s i tx f o tx1 refs1 w1 → Forall (readable s) reads →
  awaits next ref o (step_to s i tx1 refs1 w1) refs1 reads →
  ∃ result tx' refs' w', called s i tx (λ fuel, y ← attempt (f fuel); closure fuel (next y)) result tx' refs' w'.
Proof.
  intros IH Hc Hrd Haw. destruct (returns_seen o (cl_returns _ _ _ _ _ _ _ _ Hc)) as [x Hx].
  destruct (awaits_seen _ _ _ _ _ _ _ _ _ _ _ _ Hc Haw Hrd Hx) as [Hok Hrd'].
  destruct (IH x (step_to s i tx1 refs1 w1) i tx1 refs1 (with_read ref x reads)) as (res & tx' & refs' & w' & Hrest);
    [apply Hc|apply step_to_this|done|done|].
  eexists _, _, _, _. by apply (called_then s i tx f o tx1 refs1 w1 (λ fuel y, closure fuel (next y)) x).
Qed.

Lemma closure_runs {R} (c : client R) : finishes c.
Proof.
  induction c as [[r|error]|f|k size next IH|k size next IH|k size next IH|size next IH|d off len next IH|d off bytes next IH];
    intros s i tx refs reads [m Hrp] Hi Hok Hrd.
  - eexists (Ok r), _, _, _. apply (called_nothing s i tx refs); [by exists m|done|done].
  - eexists (Err error), _, _, _. apply (called_nothing s i tx refs); [by exists m|done|by eexists].
  - done.
  - destruct (awaits_read s m i tx refs reads k size next) as (o & Hc & Haw); [done..|]. by eapply attempt_finishes.
  - destruct (awaits_read_for_write s m i tx refs reads k size next) as (o & tx1 & Hc & Haw); [done..|]. by eapply attempt_finishes.
  - destruct (awaits_write s m i tx refs reads k size next) as (o & tx1 & w1 & Hc & Haw); [done..|]. by eapply attempt_finishes.
  - destruct (awaits_alloc s m i tx refs reads size next) as (o & tx1 & refs1 & w1 & _ & Hc & Haw); [done..|].
    by apply (attempt_finishes next snd s i tx (λ _, Transaction_alloc size) o tx1 refs1 w1 reads).
  - destruct Hok as (Hd & Hoff & Hlen & Hle & Hok). pose proof (proj1 (Forall_forall _ _) Hrd d Hd) as Hdr.
    destruct (mem_within (sy_las s) (mr_source d) (mr_off d) (mr_len d) off len Hdr Hoff Hlen Hle) as [bytes Hb].
    destruct (IH bytes s i tx refs reads) as (res & tx' & refs' & w' & Hrest); [by exists m|done|done|done|].
    eexists _, _, _, _. apply (called_bind s i tx _ bytes tx refs (sy_world s)); [|by rewrite step_to_same].
    split; rewrite ?step_to_same by done; try done; [|by exists m].
    exists 0%nat. intros fuel _. by apply on_tx_las_same, las_load_ok.
  - destruct Hok as (Hd & Hoff & Hle & Hok). destruct (call_store s m i tx refs d off bytes Hrp Hi Hd Hoff Hle) as (w1 & Hc).
    destruct (IH (step_to s i tx refs w1) i tx refs reads) as (res & tx' & refs' & w' & Hrest);
      [apply Hc|apply step_to_this|done|by apply (called_readable _ _ _ _ _ _ _ _ _ Hc)|].
    eexists _, _, _, _. by apply (called_bind s i tx (λ _, on_tx_las _) tt tx refs w1 (λ fuel _, closure fuel next)).
Qed.

(** *** Whole closures *)
Lemma mv_step_counter m m' : mv_step m m' → mv_counter m ≤ mv_counter m' ≤ mv_counter m + 1.
Proof. destruct 1; simpl; lia. Qed.

Lemma ended_again s i tx refs w w' : sy_txs s !! i = None →
  ended (poke_to (step_to s i tx refs w) w') i = mk_system w' (sy_txs s).
Proof. intros Hi. unfold ended, poke_to, step_to. simpl. by rewrite delete_insert_id. Qed.

(** One attempt to run a closure. *)
Definition attempted {R} (c : client R) s root (result : outcome R) w' : Prop :=
  eventually (λ fuel, Librarius_run_once root (closure fuel c) (sy_world s)) (result, w') ∧ returns result ∧
  w_version w' ≤ w_version (sy_world s) + 1 ∧ rtc sys_step s (mk_system w' (sy_txs s)) ∧
  ∃ m', represents (mk_system w' (sy_txs s)) m'.

Lemma run_once_runs {R} (c : client R) s m root : represents s m → client_ok [] [] c →
  w_version (sy_world s) + 1 < 2 ^ 63 → ∃ result w', attempted c s root result w'.
Proof.
  intros Hrp Hok Hlt. set (i := fresh (dom (sy_txs s))).
  assert (sy_txs s !! i = None) as Hi by apply not_elem_of_dom, is_fresh.
  set (tx := fresh_transaction root (sy_world s)).
  destruct (represents_begin sizes s m i root Hrp Hi) as [_ Hrp0].
  destruct (closure_runs c (step_to s i tx [] (sy_world s)) i tx [] []) as (o & tx1 & refs1 & w1 & [[n Hn] A2 A3 A4 A5 [m1 Hm1]]);
    [by eexists|apply step_to_this|done|done|]. rewrite step_to_twice in A5, Hm1. cbn [step_to sy_world] in A3, Hn.
  set (s1 := step_to s i tx1 refs1 w1) in *.
  assert (rtc sys_step s s1) as Hsteps.
  { eapply rtc_l; [|exact A5]. by apply (sys_begin _ s i root tx (sy_world s)). }
  pose proof (step_to_this s i tx1 refs1 w1) as Hi1. fold s1 in Hi1.
  destruct (represents_running sizes s1 m1 i tx1 refs1 Hm1 Hi1) as (r1 & Hr1 & _).
  destruct o as [r|f].
  - destruct (system_commit sizes s1 m1 i tx1 refs1 r1 Hm1 Hi1 Hr1) as (res & w2 & m2 & Heq & Hms & _ & Hrp2 & Hres);
      [cbn [s1 step_to sy_world]; lia|].
    pose proof (ended_again s i tx1 refs1 w1 w2 Hi) as E. fold s1 in E. rewrite E in Hrp2.
    exists (match res with Ok _ => Ok r | Fail f => Fail f end), w2. split_and!.
    + exists n. intros fuel Hf. unfold Librarius_run_once. rewrite in_transaction_eq.
      rewrite (bind_ok _ _ _ (inl r) (tx1, w1)) by (apply attempt_ok, Hn; done).
      destruct res as [[]|f]; by step Heq.
    + destruct res as [?|f]; [done|]. destruct Hres as (-> & _). by eexists.
    + destruct Hms as [Hms _]. apply mv_step_counter in Hms. rewrite (rp_counter _ _ _ Hm1), (rp_counter _ _ _ Hrp2) in Hms. simpl in Hms. lia.
    + etrans; [exact Hsteps|]. rewrite <- E. apply rtc_once, (sys_commit _ s1 i tx1 refs1 res tx1 w2); [done| |done].
      cbn [s1 step_to sy_world]. lia.
    + by exists m2.
  - destruct A2 as [error ->].
    destruct (system_abort sizes s1 m1 i tx1 refs1 r1 Hm1 Hi1 Hr1) as (Heq & Hms & _ & Hrp2). set (w2 := with_las _ _) in *.
    pose proof (ended_again s i tx1 refs1 w1 w2 Hi) as E. fold s1 in E. rewrite E in Hrp2.
    exists (Err error), w2. split_and!.
    + exists n. intros fuel Hf. unfold Librarius_run_once. rewrite in_transaction_eq.
      rewrite (bind_ok _ _ _ (inr error) (tx1, w1)) by (apply attempt_err, Hn; done). by step Heq.
    + by eexists.
    + cbn [w2 with_las w_version s1 step_to sy_world]. lia.
    + etrans; [exact Hsteps|]. rewrite <- E. by apply rtc_once, (sys_abort _ s1 i tx1 refs1 (Ok tt) tx1 w2).
    + by eexists.
Qed.

Lemma run_runs {R} (c : client R) (retries : nat) : ∀ s m root, represents s m → client_ok [] [] c →
  w_version (sy_world s) + Z.of_nat retries < 2 ^ 63 →
  ∃ result w', eventually (λ fuel, Librarius_run retries root (closure fuel c) (sy_world s)) (result, w') ∧
    (returns result ∨
     result = Fail Diverge ∧ ∃ n, ∀ fuel, (n ≤ fuel)%nat → aborted root (closure fuel c) retries (sy_world s) w') ∧
    rtc sys_step s (mk_system w' (sy_txs s)) ∧ ∃ m', represents (mk_system w' (sy_txs s)) m'.
Proof.
  induction retries as [|retries IH]; intros s m root Hrp Hok Hlt.
  { exists (Fail Diverge), (sy_world s). destruct s as [w txs]. split_and!; [by exists 0%nat| |done|by exists m].
    right. split; [done|]. exists 0%nat. intros fuel _. constructor. }
  destruct (run_once_runs c s m root Hrp Hok) as (o & w1 & [n Hn] & Ho & Hcount & Hsteps & m1 & Hrp1); [lia|].
  destruct (is_aborted o) as [->|Hne].
  - destruct (IH (mk_system w1 (sy_txs s)) m1 root Hrp1 Hok) as (o2 & w2 & [n2 Hn2] & Hres & Hsteps2 & Hrp2);
      [cbn [sy_world]; lia|]. exists o2, w2. split_and!; [| |by etrans|done].
    + exists (max n n2). intros fuel Hf. rewrite (run_aborted root (closure fuel c) retries (sy_world s) w1) by (apply Hn; lia).
      apply Hn2. lia.
    + destruct Hres as [Hres|(-> & n3 & Hn3)]; [by left|right]. split; [done|]. exists (max n n3). intros fuel Hf.
      apply (aborted_more _ _ _ _ w1); [apply Hn; lia|apply Hn3; lia].
  - exists o, w1. split_and!; [|by left|done|by exists m1]. exists n. intros fuel Hf. apply run_step; [by apply Hn|done].
Qed.

End Clients.
