(* ===== verification/Quiet.v ===== *)
(** * Quiet heaps

    The multi-version store behind a heap on which no transaction runs, read
    back from its memory, and the check that the heap stands for it: for the
    heaps one has at hand. *)
From Stdlib Require Import Sorting.Sorted.
From S2P Require Import Prelude Utils Source SourceAllocator Slices Las Memory Pointer Vos.
From S2P Require Import Allocators Versions Objects Tx Transactions Heap Runs Checks Snapshot Arena Simulation.

Section Quiet.
Context `{T : Target} `{TOk : !TargetOk T} `{C : Crc} {D : Type} `{Src : !Source D} `{Laws : !SourceLaws D}.
Implicit Types (las : LogicalAddressSpace D) (w : World D) (k : cell) (e : entry) (es : list entry).

(** ** What the memory holds *)
Definition word_at las (c : cell) : option Z :=
  match c with
  | InMemory b off => if decide (aligned 8 off) then le_combine <$> mem las b off size_of_usize else None
  | OnStack _ => None
  end.

Lemma word_at_holds las c v : word_at las c = Some v → cell_holds las c v.
Proof.
  destruct c as [b off|]; [|done]. simpl. case_decide as Hal; [|done]. intros (bs & Hm & ->)%fmap_Some.
  pose proof (mem_length _ _ _ _ _ Hm) as Hl. split_and!; [by rewrite u64_bytes_combine| |done].
  pose proof (le_combine_bound bs) as Hb. unfold blen in Hl. by rewrite Hl in Hb.
Qed.

(** The cell with the number of a version, and the number. *)
Definition number_at las (c : cell) : option (cell * Z) :=
  v ← word_at las c;
  if decide (v < 2 ^ 63) then Some (c, v) else
  let p := v - 2 ^ 63 in
  b ← las_home las p;
  n ← word_at las (cell_at b p);
  if decide (p < 2 ^ 54 ∧ n < 2 ^ 63 ∧ byte_rangeb las p size_of_Version b = true) then Some (cell_at b p, n) else None.

Lemma word_at_range las c v : word_at las c = Some v → 0 ≤ v < 2 ^ 64.
Proof. destruct c; [|done]. intros Hw. by apply word_at_holds in Hw as (_ & Hv & _). Qed.

Lemma number_at_version las c home n : number_at las c = Some (home, n) → version_at las c home n.
Proof.
  unfold number_at. intros (v & Hv & Hn)%bind_Some. pose proof (word_at_range las c v Hv).
  case_decide as Hlt; [injection Hn as <- <-; apply version_direct; [by apply word_at_holds|lia]|].
  apply bind_Some in Hn as (b & Hb & Hn). apply bind_Some in Hn as (n' & Hn' & Hn).
  case_decide as Hc; [|done]. injection Hn as <- <-. destruct Hc as (Hp & Hlt' & Hr).
  pose proof (word_at_range _ _ _ Hn'). apply version_indirect.
  - destruct (Version_indirect (v - 2 ^ 63)) as (He & _); [lia|]. rewrite He. apply word_at_holds. rewrite Hv. f_equal. lia.
  - lia.
  - by apply byte_rangeb_ok.
  - by apply word_at_holds.
  - lia.
Qed.

(** The versions of an object, newest first, if they are all in order. *)
Fixpoint chain_at (fuel : nat) las (total raw : Z) : option (list entry) :=
  match fuel with
  | O => None
  | S fuel =>
      if UntypedPointer_is_some raw then
        let a := UntypedPointer_address raw in
        b ← las_home las (a - size_of_ObjectHeader);
        let e := mk_entry b a (OnStack 0) 0 in
        '(home, n) ← number_at las (en_version_cell e);
        other ← word_at las (en_other_cell e);
        if decide (UntypedPointer_is_byte_addressable raw = true ∧ size_of_ObjectHeader ≤ a ∧
          byte_rangeb las (a - size_of_ObjectHeader) (total + size_of_ObjectHeader) b = true)
        then es ← chain_at fuel las total other; Some (mk_entry b a home n :: es)
        else None
      else Some []
  end.

Lemma chain_at_versions fuel las total raw es : chain_at fuel las total raw = Some es → version_chain las total raw es.
Proof.
  revert raw es. induction fuel as [|fuel IH]; intros raw es; [done|]. cbn [chain_at].
  destruct (UntypedPointer_is_some raw) eqn:Hs; [|by intros [= <-]; apply chain_none].
  intros (b & Hb & He)%bind_Some. apply bind_Some in He as ([home n] & Hn & He). apply bind_Some in He as (other & Ho & He).
  case_decide as Hc; [|done]. destruct Hc as (Hbyte & Hle & Hr). apply bind_Some in He as (es' & Hes & [= <-]).
  apply (chain_object _ _ _ (mk_entry b (UntypedPointer_address raw) home n) other); try done.
  - by apply byte_rangeb_ok.
  - by apply number_at_version.
  - by apply word_at_holds.
  - by apply IH.
Qed.

(** ** The objects *)
Record object_found : Type := mk_object_found { of_pointer : cell; of_size : ObjectSize; of_versions : list entry }.

Definition object_found_at (fuel : nat) las (k : cell * ObjectSize) : option object_found :=
  match ObjectSize_total k.2 with
  | Ok total =>
      raw ← word_at las k.1;
      if decide (UntypedPointer_address raw = raw) then mk_object_found k.1 k.2 <$> chain_at fuel las total raw else None
  | Fail _ => None
  end.

Definition found_sizes (l : list object_found) : gmap cell ObjectSize := list_to_map ((λ o, (of_pointer o, of_size o)) <$> l).
Definition found_objects (l : list object_found) : gmap cell (list entry) := list_to_map ((λ o, (of_pointer o, of_versions o)) <$> l).
Definition found_store w l : mvstore cell := mk_mvstore (w_version w) (found_objects l) ∅.

Definition found_total (o : object_found) : Z := match ObjectSize_total (of_size o) with Ok total => total | Fail _ => 0 end.

(** The places an object takes. *)
Definition found_places (k : cell) (total : Z) e : list (purpose * span) :=
  [(ForHeader, cell_span (en_version_cell e)); (ForHeader, cell_span (en_other_cell e));
   (ForNumber (en_home e), cell_span (en_home e)); (ForData (en_home e) k, ref_span (en_data total e))].
Definition object_places (o : object_found) : list (purpose * span) :=
  (ForPointer (of_pointer o), cell_span (of_pointer o)) :: (of_versions o ≫= found_places (of_pointer o) (found_total o)).

#[local] Instance span_eq_dec : EqDecision span.
Proof. solve_decision. Defined.
#[local] Instance spans_apart_dec x y : Decision (spans_apart x y).
Proof. unfold spans_apart, apart. apply _. Defined.
#[local] Instance separate_dec p q x y : Decision (separate p q x y).
Proof. destruct p, q; unfold separate; apply _. Defined.

Fixpoint decreasing (n : Z) es : bool :=
  match es with [] => true | e :: es => bool_decide (0 < en_version e ≤ n) && decreasing (en_version e - 1) es end.

Definition byte_sourceb las (b : Z) : bool :=
  match las_get las b with Some sa => SourceAllocator_is_byte_addressable sa | None => false end.

(** The heap is as it should be, object by object and place by place. *)
Definition object_quiet w (o : object_found) : bool :=
  bool_decide (of_versions o ≠ [] ∧ 0 < found_total o ∧ aligned 8 (found_total o)) && decreasing (w_version w) (of_versions o) &&
  match of_pointer o with InMemory b _ => byte_sourceb (w_las w) b | OnStack _ => false end.

Definition quiet (pages : Z) w (l : list object_found) : bool :=
  las_invb pages (w_las w) && bool_decide (0 ≤ w_version w ∧ NoDup (of_pointer <$> l)) && forallb (object_quiet w) l &&
  let places := l ≫= object_places in
  forallb (λ x, range_usedb (w_las w) (sp_base x.2) (sp_off x.2) (sp_len x.2)) places &&
  forallb (λ x, forallb (λ y, bool_decide (separate x.1 y.1 x.2 y.2)) places) places.

Definition objects_at (fuel : nat) w (ks : list (cell * ObjectSize)) : option (list object_found) :=
  mapM (object_found_at fuel (w_las w)) ks.

(** *** What is checked is true *)
Lemma decreasing_committed n es : decreasing n es = true → committed_versions n es.
Proof.
  revert n. induction es as [|e es IH]; intros n; cbn [decreasing]; [split; constructor|].
  rewrite andb_true_iff, bool_decide_eq_true. intros [Hv Hes]. destruct (IH _ Hes) as [Hc Hs]. split.
  - constructor; [done|]. apply (Forall_impl _ _ _ Hc). lia.
  - constructor; [done|]. apply (Forall_impl _ _ _ Hc). lia.
Qed.

Lemma byte_sourceb_ok las b : byte_sourceb las b = true → byte_source las b.
Proof. unfold byte_sourceb. destruct (las_get las b) as [sa|] eqn:Hg; [|done]. intros Hb. by exists sa. Qed.

Section Found.
Context (pages : Z) (fuel : nat) w (ks : list (cell * ObjectSize)) (l : list object_found).
Context (Hfound : objects_at fuel w ks = Some l) (Hquiet : quiet pages w l = true).

Lemma found_at o : o ∈ l → ∃ raw, ObjectSize_total (of_size o) = Ok (found_total o) ∧
  word_at (w_las w) (of_pointer o) = Some raw ∧ UntypedPointer_address raw = raw ∧
  version_chain (w_las w) (found_total o) raw (of_versions o).
Proof.
  intros Ho. pose proof Hfound as Hf. apply mapM_Some_1 in Hf. apply list_elem_of_lookup in Ho as [i Ho]. destruct (Forall2_lookup_r _ _ _ i o Hf Ho) as ([k size] & _ & Hk).
  unfold object_found_at in Hk. cbn [fst snd] in Hk. destruct (ObjectSize_total size) as [total|] eqn:Ht; [|done].
  apply bind_Some in Hk as (raw & Hraw & Hk). case_decide as Ha; [|done]. apply fmap_Some in Hk as (es & Hes & ->). exists raw.
  unfold found_total. cbn [of_size of_pointer of_versions]. rewrite Ht. split_and!; [done|done|done|by apply (chain_at_versions fuel)].
Qed.

Lemma quiet_all : las_inv (w_las w) ∧ (0 ≤ w_version w ∧ NoDup (of_pointer <$> l)) ∧ (∀ o, o ∈ l → object_quiet w o = true) ∧
  (∀ x, x ∈ l ≫= object_places → range_usedb (w_las w) (sp_base x.2) (sp_off x.2) (sp_len x.2) = true) ∧
  (∀ x y, x ∈ l ≫= object_places → y ∈ l ≫= object_places → separate x.1 y.1 x.2 y.2).
Proof.
  pose proof Hquiet as Hq. unfold quiet in Hq. rewrite !andb_true_iff, !forallb_forall in Hq. destruct Hq as [[[Hl Hv] Ho] [Hu Hs]].
  apply bool_decide_eq_true in Hv. split_and!; [by apply (las_invb_ok pages)|apply Hv|apply Hv|..].
  - intros o Hin. by apply Ho, list_elem_of_In.
  - intros x Hx. by apply Hu, list_elem_of_In.
  - intros x y Hx%list_elem_of_In Hy%list_elem_of_In. specialize (Hs x Hx). rewrite forallb_forall in Hs.
    by apply (bool_decide_eq_true_1 _ (Hs y Hy)).
Qed.

Lemma found_map {A} (f : object_found → A) k x :
  (list_to_map ((λ o, (of_pointer o, f o)) <$> l) : gmap cell A) !! k = Some x ↔ ∃ o, o ∈ l ∧ k = of_pointer o ∧ x = f o.
Proof.
  destruct quiet_all as (_ & [_ Hnd] & _). rewrite <- elem_of_list_to_map.
  - rewrite list_elem_of_fmap. split; [intros (o & [= -> ->] & ?)|intros (o & ? & -> & ->)]; by exists o.
  - rewrite <- list_fmap_compose. exact Hnd.
Qed.

Lemma found_total_at o : o ∈ l → total_at (found_sizes l) (of_pointer o) = found_total o.
Proof.
  intros Ho. unfold total_at, found_total, found_sizes.
  by rewrite (proj2 (found_map of_size (of_pointer o) (of_size o))) by by exists o.
Qed.

Lemma found_owns p x : owns (found_sizes l) (mk_system w ∅) (found_store w l) p x → (p, x) ∈ l ≫= object_places.
Proof.
  assert (∀ k e, has_entry (found_store w l) k e → ∀ y, y ∈ found_places k (total_at (found_sizes l) k) e → y ∈ l ≫= object_places) as Hin.
  { intros k e (es & Ho & He) y Hy. apply found_map in Ho as (o & Ho & -> & ->). rewrite (found_total_at o Ho) in Hy.
    apply list_elem_of_bind. exists o. split; [|done]. right. apply list_elem_of_bind. by exists e. }
  intros Ho. destruct Ho as [k [size Hk]|k e He|k e He|k e He|i r home Hi|k e He|i tx refs r home d Hi]; try done.
  - apply found_map in Hk as (o & Ho & -> & _). apply list_elem_of_bind. exists o. split; [by left|done].
  - apply (Hin k e He). by left.
  - apply (Hin k e He). right; by left.
  - apply (Hin k e He). do 2 right; by left.
  - apply (Hin k e He). do 3 right; by left.
Qed.

Lemma found_inv : mv_inv (found_store w l).
Proof.
  destruct quiet_all as (_ & [Hv _] & Ho & _). split; try done.
  - intros k es Hk. left. apply found_map in Hk as (o & Hin & _ & ->). specialize (Ho o Hin). unfold object_quiet in Ho.
    rewrite !andb_true_iff in Ho. apply decreasing_committed, Ho.
  - intros k e es Hk He. apply found_map in Hk as (o & Hin & _ & Hes). specialize (Ho o Hin). unfold object_quiet in Ho.
    rewrite !andb_true_iff, <- Hes in Ho. destruct Ho as [[_ Ho] _]. cbn [decreasing] in Ho. apply andb_true_iff in Ho as [Ho _].
    apply bool_decide_eq_true in Ho. lia.
Qed.

Lemma quiet_represents : represents (found_sizes l) (mk_system w ∅) (found_store w l).
Proof.
  destruct quiet_all as (Hlas & [Hv Hnd] & Ho & Hu & Hs). split; try done.
  - exact found_inv.
  - intros k size Hk. apply found_map in Hk as (o & Hin & _ & ->). destruct (found_at o Hin) as (_ & Ht & _).
    exists (found_total o). split; [done|]. specialize (Ho o Hin). unfold object_quiet in Ho.
    rewrite !andb_true_iff, bool_decide_eq_true in Ho. apply Ho.
  - intros k. split; intros [x Hk]; apply found_map in Hk as (o & Hin & -> & _); [exists (of_versions o)|exists (of_size o)];
      apply found_map; by exists o.
  - intros k es Hk. apply found_map in Hk as (o & Hin & -> & ->). rewrite (found_total_at o Hin).
    destruct (found_at o Hin) as (raw & _ & Hraw & Ha & Hc). specialize (Ho o Hin). unfold object_quiet in Ho.
    rewrite !andb_true_iff, bool_decide_eq_true in Ho. destruct Ho as [[(Hne & Ht & _) _] Hb].
    destruct (of_pointer o) as [b off|]; [|done]. split; [split; [by exists b, off|by apply byte_sourceb_ok]|done|done|].
    exists raw. split_and!; [by apply word_at_holds|done|done].
  - intros i. split; intros [x Hx]; discriminate.
  - intros p q x y Hx%found_owns Hy%found_owns. apply (Hs _ _ Hx Hy).
  - intros p x Hx%found_owns o Hr. destruct (range_usedb_ok _ _ _ _ (Hu _ Hx)) as [H1 _]. split; [|done].
    intros Hf. apply (H1 o Hr). by right.
Qed.
End Found.

(** ** All at once *)
Definition quiet_at (pages : Z) (fuel : nat) w (ks : list (cell * ObjectSize)) : bool :=
  match objects_at fuel w ks with Some l => quiet pages w l | None => false end.

Lemma found_sizes_at fuel w ks l : objects_at fuel w ks = Some l → found_sizes l = list_to_map ks.
Proof.
  intros Hl. unfold found_sizes. f_equal. apply mapM_Some_1 in Hl. induction Hl as [|[k size] o ks l Ho _ IH]; [done|].
  csimpl. f_equal; [|done]. unfold object_found_at in Ho. cbn [fst snd] in Ho. destruct (ObjectSize_total size); [|done].
  apply bind_Some in Ho as (raw & _ & Ho). case_decide; [|done]. by apply fmap_Some in Ho as (es & _ & ->).
Qed.

Lemma quiet_at_represents pages fuel w ks : quiet_at pages fuel w ks = true →
  ∃ m, represents (list_to_map ks) (mk_system w ∅) m.
Proof.
  unfold quiet_at. destruct (objects_at fuel w ks) as [l|] eqn:Hl; [|done]. intros Hq.
  exists (found_store w l). rewrite <- (found_sizes_at fuel w ks l Hl). by apply (quiet_represents pages fuel w ks l).
Qed.
End Quiet.
