(* ===== verification/Values.v ===== *)
(** * Snapshot isolation, by values

    What clients may rely on without knowing about versions and their numbers:
    the objects have values, a transaction sees the values of the moment it
    began, it works on drafts of its own, and a commit puts all of its drafts
    in place at once.  [Views] shows that the heap does this. *)
From S2P Require Import Prelude.

(** A running transaction: the values it sees, and its drafts. *)
Record worker (K V : Type) `{Countable K} : Type := mk_worker { wk_seen : gmap K V; wk_drafts : gmap K V }.
Arguments mk_worker {K V _ _}.
Arguments wk_seen {K V _ _}.
Arguments wk_drafts {K V _ _}.

(** The committed values of the objects, and the running transactions. *)
Record values (K V : Type) `{Countable K} : Type := mk_values { va_now : gmap K V; va_workers : gmap nat (worker K V) }.
Arguments mk_values {K V _ _}.
Arguments va_now {K V _ _}.
Arguments va_workers {K V _ _}.

Section Values.
Context {K V : Type} `{Countable K}.
(** What a draft has in common with the value it starts from. *)
Context (copy : V → V → Prop).
Implicit Types (a : values K V) (t : worker K V) (k : K) (v : V).

Definition set_draft k v t : worker K V := mk_worker (wk_seen t) (<[k := v]> (wk_drafts t)).
Definition with_worker (i : nat) t a : values K V := mk_values (va_now a) (<[i := t]> (va_workers a)).

Inductive action : Type :=
| Begins (i : nat)
| Drafts (i : nat) (k : K)
| Fills (i : nat) (k : K)
| Commits (i : nat)
| Leaves (i : nat).

(** A draft is a copy of the value a transaction sees, which must be the
    value of now, and nobody else may have a draft of the object. *)
Inductive val_step : action → values K V → values K V → Prop :=
| val_begins a i : va_workers a !! i = None →
    val_step (Begins i) a (with_worker i (mk_worker (va_now a) ∅) a)
| val_drafts a i t k v v' : va_workers a !! i = Some t →
    wk_seen t !! k = Some v → va_now a !! k = Some v →
    (∀ j u, va_workers a !! j = Some u → wk_drafts u !! k = None) → copy v v' →
    val_step (Drafts i k) a (with_worker i (set_draft k v' t) a)
| val_fills a i t k v v' : va_workers a !! i = Some t → wk_drafts t !! k = Some v →
    val_step (Fills i k) a (with_worker i (set_draft k v' t) a)
| val_commits a i t : va_workers a !! i = Some t →
    val_step (Commits i) a (mk_values (wk_drafts t ∪ va_now a) (delete i (va_workers a)))
| val_leaves a i t : va_workers a !! i = Some t →
    val_step (Leaves i) a (mk_values (va_now a) (delete i (va_workers a))).

Record val_inv a : Prop := {
  (** what a transaction has drafts of is still as it has seen it *)
  vi_current i t k : va_workers a !! i = Some t → is_Some (wk_drafts t !! k) → wk_seen t !! k = va_now a !! k;
  vi_apart i j t u k : va_workers a !! i = Some t → va_workers a !! j = Some u →
    is_Some (wk_drafts t !! k) → is_Some (wk_drafts u !! k) → i = j
}.

Lemma with_worker_Some i t a j u : va_workers (with_worker i t a) !! j = Some u ↔
  i = j ∧ t = u ∨ i ≠ j ∧ va_workers a !! j = Some u.
Proof. apply lookup_insert_Some. Qed.

Lemma set_draft_Some k v t k' : is_Some (wk_drafts (set_draft k v t) !! k') ↔ k' = k ∨ is_Some (wk_drafts t !! k').
Proof.
  unfold set_draft. cbn [wk_drafts]. rewrite lookup_insert_is_Some. destruct (decide (k = k')) as [->|]; intuition congruence.
Qed.

(** A draft of an object that was free, or a new value for one's own. *)
Lemma set_draft_inv a i t k v : val_inv a → va_workers a !! i = Some t → wk_seen t !! k = va_now a !! k →
  (∀ j u, j ≠ i → va_workers a !! j = Some u → wk_drafts u !! k = None) → val_inv (with_worker i (set_draft k v t) a).
Proof.
  intros [I1 I2] Hi Hs Hfree.
  assert (∀ j u k', va_workers (with_worker i (set_draft k v t) a) !! j = Some u → is_Some (wk_drafts u !! k') →
    ∃ u0, va_workers a !! j = Some u0 ∧ wk_seen u = wk_seen u0 ∧ (is_Some (wk_drafts u0 !! k') ∨ j = i ∧ k' = k)) as Hold.
  { intros j u k' Hj Hk. apply with_worker_Some in Hj as [[<- <-]|[_ Hj]]; [|exists u; auto].
    exists t. apply set_draft_Some in Hk as [->|]; auto. }
  split; cbn [with_worker va_now].
  - intros j u k' Hj Hk. destruct (Hold j u k' Hj Hk) as (u0 & Hj0 & -> & [|[-> ->]]); [by apply (I1 j)|congruence].
  - intros j j' u u' k' Hj Hj' Hk Hk'.
    destruct (Hold j u k' Hj Hk) as (u0 & Hj0 & _ & Hd), (Hold j' u' k' Hj' Hk') as (u0' & Hj0' & _ & Hd').
    destruct (decide (j = i)) as [->|Hne], (decide (j' = i)) as [->|Hne']; [done|..].
    + destruct Hd' as [Hd'|[-> _]]; [|done]. destruct Hd as [Hd|[_ ->]]; [by apply (I2 i j' u0 u0' k')|].
      rewrite (Hfree j' u0') in Hd' by done. by destruct Hd'.
    + destruct Hd as [Hd|[-> _]]; [|done]. destruct Hd' as [Hd'|[_ ->]]; [by apply (I2 j i u0 u0' k')|].
      rewrite (Hfree j u0) in Hd by done. by destruct Hd.
    + destruct Hd as [Hd|[-> _]], Hd' as [Hd'|[-> _]]; try done. by apply (I2 j j' u0 u0' k').
Qed.

Lemma val_step_inv x a a' : val_inv a → val_step x a a' → val_inv a'.
Proof.
  intros Hinv Hst. pose proof Hinv as [I1 I2].
  destruct Hst as [a i Hi|a i t k v v' Hi Hs Hn Hfree _|a i t k v v' Hi Hk|a i t Hi|a i t Hi].
  - split; cbn [with_worker va_now va_workers].
    + intros j u k Hj Hk. apply with_worker_Some in Hj as [[_ <-]|[_ Hj]]; [done|by apply (I1 j)].
    + intros j j' u u' k Hj Hj' [x Hk] [x' Hk'].
      apply with_worker_Some in Hj as [[_ <-]|[_ Hj]]; [done|].
      apply with_worker_Some in Hj' as [[_ <-]|[_ Hj']]; [done|by apply (I2 j j' u u' k)].
  - apply set_draft_inv; [done|done|congruence|]. intros j u _. apply Hfree.
  - apply set_draft_inv; [done|done|by apply (I1 i); [|eexists]|]. intros j u Hne Hj.
    apply eq_None_not_Some. intros Hd. by apply Hne, (I2 j i u t k); [| |done|eexists].
  - split; cbn [va_now va_workers].
    + intros j u k [Hne Hj]%lookup_delete_Some Hk. rewrite (I1 j u k Hj Hk). symmetry. apply lookup_union_r.
      apply eq_None_not_Some. intros Hd. by apply Hne, (I2 i j t u k).
    + intros j j' u u' k [_ Hj]%lookup_delete_Some [_ Hj']%lookup_delete_Some. by apply (I2 j j').
  - split; cbn [va_now va_workers].
    + intros j u k [_ Hj]%lookup_delete_Some. by apply (I1 j).
    + intros j j' u u' k [_ Hj]%lookup_delete_Some [_ Hj']%lookup_delete_Some. by apply (I2 j j').
Qed.
End Values.
Arguments val_inv {K V _ _}.
