(* ===== verification/Views.v ===== *)
(** * What the heap shows

    The values of [Values] that a heap with its running transactions stands
    for: where the versions are and the bytes they have, without the bytes
    that are pointers to other objects, which change on their own.  Each call
    of a transaction is a step of [val_step]. *)
From S2P Require Import Prelude Utils Source SourceAllocator Slices Las Memory Pointer Vos.
From S2P Require Import Allocators Versions Objects Tx Transactions Heap Runs Snapshot Arena Simulation Calls Isolation Clients Values.

(** A version of an object: where it is, and its bytes. *)
Abbreviation stored := (memref * list (option byte))%type.

(** A copy elsewhere, with the same bytes; of a pointer it has the bytes. *)
Definition copied (v v' : stored) : Prop :=
  mr_len v'.1 = mr_len v.1 ∧ Forall2 (λ x y, x = None ∨ x = y) v.2 v'.2.

Section Views.
Context `{T : Target} `{TOk : !TargetOk T} `{C : Crc} {D : Type} `{Src : !Source D} `{Laws : !SourceLaws D}.
Context (sizes : gmap cell ObjectSize).
Abbreviation LAS := (LogicalAddressSpace D).
Abbreviation represents := (represents sizes).
Abbreviation total_at := (total_at sizes).
Abbreviation keeps := (keeps sizes).
Implicit Types (las : LAS) (w : World D) (tx : Transaction) (s : system D) (refs : list memref) (k : cell).
Implicit Types (m : mvstore cell) (r : running cell) (e : entry) (es : list entry) (a : values cell stored) (v : stored).

(** ** The bytes of a version *)
Definition pointer_byte (b o : Z) : Prop := Exists (λ j, is_Some (sizes !! InMemory b (o - j))) (seqZ 0 size_of_usize).

#[global] Instance pointer_byte_dec b o : Decision (pointer_byte b o).
Proof. unfold pointer_byte. apply _. Defined.

Lemma pointer_byte_spec b o :
  pointer_byte b o ↔ ∃ off, is_Some (sizes !! InMemory b off) ∧ off ≤ o < off + size_of_usize.
Proof.
  unfold pointer_byte. rewrite list.Exists_exists. split.
  - intros (j & Hj & Hs). apply elem_of_seqZ in Hj. exists (o - j). split; [done|lia].
  - intros (off & Hs & Ho). exists (o - off). split; [apply elem_of_seqZ; lia|]. by replace (o - (o - off)) with off by lia.
Qed.

Definition plain_byte las (b o : Z) : option byte :=
  if decide (pointer_byte b o) then None else bytes ← mem las b o 1; head bytes.
Definition plain_bytes las (d : memref) : list (option byte) :=
  plain_byte las (mr_source d) <$> seqZ (mr_off d) (mr_len d).

Definition stored_at las k e : stored := (en_data (total_at k) e, plain_bytes las (en_data (total_at k) e)).

Lemma plain_bytes_ext las las' d :
  (∀ o, mr_off d ≤ o < mr_off d + mr_len d → ¬ pointer_byte (mr_source d) o →
     mem las' (mr_source d) o 1 = mem las (mr_source d) o 1) → plain_bytes las' d = plain_bytes las d.
Proof.
  intros Hm. apply list_fmap_ext. intros i o Ho. apply list_elem_of_lookup_2, elem_of_seqZ in Ho. unfold plain_byte.
  case_decide; [done|]. by rewrite Hm.
Qed.

Lemma mem_byte las b off n bs (i : nat) x : mem las b off n = Some bs → bs !! i = Some x →
  mem las b (off + Z.of_nat i) 1 = Some [x].
Proof.
  intros Hm Hi. pose proof (mem_length _ _ _ _ _ Hm) as Hl. apply mem_Some in Hm as (sa & Hg & Hr & ->).
  apply lookup_lt_Some in Hi as Hlt. unfold blen in Hl. apply mem_Some. exists sa. split; [done|].
  unfold in_range in *. split; [lia|]. rewrite slice_lookup in Hi. case_decide; [|done]. apply list_eq. intros [|j].
  - rewrite slice_lookup, decide_True by lia. simpl. rewrite <- Hi. f_equal. lia.
  - rewrite slice_lookup, decide_False by lia. done.
Qed.

(** The bytes that were read are those of the version, where it has no pointer. *)
Lemma plain_bytes_lookup las d bs (i : nat) : mem las (mr_source d) (mr_off d) (mr_len d) = Some bs →
  plain_bytes las d !! i = x ← bs !! i; Some (if decide (pointer_byte (mr_source d) (mr_off d + Z.of_nat i)) then None else Some x).
Proof.
  intros Hm. pose proof (mem_length _ _ _ _ _ Hm) as Hl. unfold blen in Hl. unfold plain_bytes. rewrite list_lookup_fmap.
  destruct (bs !! i) as [x|] eqn:Hi.
  - pose proof (lookup_lt_Some _ _ _ Hi). rewrite (lookup_seqZ_lt (mr_off d)) by lia. simpl. unfold plain_byte.
    case_decide; [done|]. by rewrite (mem_byte las _ _ (mr_len d) bs i x).
  - apply lookup_ge_None in Hi. by rewrite lookup_seqZ_ge by lia.
Qed.

Lemma plain_bytes_full las d bs : is_Some (mem las (mr_source d) (mr_off d) (mr_len d)) →
  plain_bytes las d = Some <$> bs → mem las (mr_source d) (mr_off d) (mr_len d) = Some bs.
Proof.
  intros [bs' Hm] Hp. rewrite Hm. f_equal. apply list_eq. intros i.
  pose proof (plain_bytes_lookup las d bs' i Hm) as Hi. rewrite Hp, list_lookup_fmap in Hi.
  destruct (bs' !! i) as [x|], (bs !! i) as [y|]; simpl in Hi; try done. case_decide; congruence.
Qed.

Lemma stored_copied las las' d d' bs : mr_len d' = mr_len d → mem las (mr_source d) (mr_off d) (mr_len d) = Some bs →
  mem las' (mr_source d') (mr_off d') (mr_len d') = Some bs →
  (∀ o, mr_off d' ≤ o < mr_off d' + mr_len d' → ¬ pointer_byte (mr_source d') o) →
  copied (d, plain_bytes las d) (d', plain_bytes las' d') ∧ plain_bytes las' d' = Some <$> bs.
Proof.
  intros Hl Hm Hm' Hp.
  assert (plain_bytes las' d' = Some <$> bs) as E.
  { apply list_eq. intros i. rewrite (plain_bytes_lookup _ _ bs i Hm'), list_lookup_fmap.
    destruct (bs !! i) as [x|] eqn:Hi; [|done]. simpl. rewrite decide_False; [done|]. apply Hp.
    apply mem_length in Hm'. apply lookup_lt_Some in Hi. unfold blen in Hm'. lia. }
  split; [|done]. split; [done|]. simpl. rewrite E. apply Forall2_lookup. intros i.
  rewrite (plain_bytes_lookup _ _ bs i Hm), list_lookup_fmap. destruct (bs !! i); constructor.
  case_decide; [by left|by right].
Qed.

(** ** What a transaction sees, and what it is working on *)

(** The values of the versions that [pick] picks. *)
Definition values_by (pick : cell → list entry → option entry) las (objects : gmap cell (list entry)) : gmap cell stored :=
  map_imap (λ k es, stored_at las k <$> pick k es) objects.

Definition seen_entry (n : Z) k es : option entry :=
  match snapshot_read n false es with Ok e => Some e | Fail _ => None end.
Definition draft_entry r k es : option entry := if decide (k ∈ ru_writes r) then head es else None.

Definition view_of las (objects : gmap cell (list entry)) r : worker cell stored :=
  mk_worker (values_by (seen_entry (ru_snapshot r)) las objects) (values_by (draft_entry r) las objects).
Definition view s m : values cell stored :=
  mk_values (values_by (seen_entry (mv_counter m)) (sy_las s) (mv_objects m))
    (view_of (sy_las s) (mv_objects m) <$> mv_running m).

Lemma values_by_lookup pick las objects k :
  values_by pick las objects !! k = es ← objects !! k; stored_at las k <$> pick k es.
Proof. unfold values_by. rewrite map_lookup_imap. by destruct (objects !! k). Qed.

Lemma view_worker s m i : va_workers (view s m) !! i = view_of (sy_las s) (mv_objects m) <$> mv_running m !! i.
Proof. unfold view. cbn [va_workers]. apply lookup_fmap. Qed.

(** Versions whose bytes are kept have the values they had. *)
Lemma stored_at_kept P m las las' k e : keeps P m las las' → has_entry m k e → P e →
  stored_at las' k e = stored_at las k e.
Proof.
  intros [_ Hk] (es & Ho & He) HP. unfold stored_at. f_equal. apply plain_bytes_ext. intros o Hr Hp.
  apply Hk. split; [by exists k, es, e|]. intros off Hs Hoff. apply Hp, pointer_byte_spec. by exists off.
Qed.

Lemma values_by_step P pick pick' m m' las las' : keeps P m las las' →
  (∀ k es e, mv_objects m !! k = Some es → pick k es = Some e → e ∈ es ∧ P e) →
  (∀ k, (es ← mv_objects m' !! k; stored_at las' k <$> pick' k es) = (es ← mv_objects m !! k; stored_at las' k <$> pick k es)) →
  values_by pick' las' (mv_objects m') = values_by pick las (mv_objects m).
Proof.
  intros Hk Hp He. apply map_eq. intros k. rewrite !values_by_lookup, He. destruct (mv_objects m !! k) as [es|] eqn:Ho; [|done].
  simpl. destruct (pick k es) as [e|] eqn:Hpe; [|done]. simpl. destruct (Hp k es e Ho Hpe) as [Hin HP].
  f_equal. apply (stored_at_kept P m); [done|by exists es|done].
Qed.

Lemma seen_entry_Some n k es e : seen_entry n k es = Some e → e ∈ es ∧ committed_version e ∧ en_version e ≤ n.
Proof.
  unfold seen_entry. destruct (snapshot_read n false es) as [e'|] eqn:Hr; [|done]. intros [= ->].
  apply snapshot_read_elem in Hr as [? [? ?]%visible_true]. done.
Qed.

Lemma draft_entry_Some r k es e : draft_entry r k es = Some e → e ∈ es ∧ k ∈ ru_writes r.
Proof. unfold draft_entry. case_decide; [|done]. destruct es; [done|]. intros [= ->]. split; [by left|done]. Qed.

Lemma commit_stored las k home n e : stored_at las k (commit_entry home n e) = stored_at las k e.
Proof. unfold stored_at. by rewrite (proj1 (proj2 (proj2 (proj2 (commit_entry_spans home n e))))). Qed.

(** A transaction goes on seeing what it has seen, and keeps its drafts, when
    the versions it sees and those it has written are where they were. *)
Lemma view_of_step m m' las las' r r' : keeps any_version m las las' → ru_snapshot r' = ru_snapshot r →
  (∀ k, (es ← mv_objects m' !! k; stored_at las' k <$> seen_entry (ru_snapshot r) k es) =
        (es ← mv_objects m !! k; stored_at las' k <$> seen_entry (ru_snapshot r) k es)) →
  (∀ k, (es ← mv_objects m' !! k; stored_at las' k <$> draft_entry r' k es) =
        (es ← mv_objects m !! k; stored_at las' k <$> draft_entry r k es)) →
  view_of las' (mv_objects m') r' = view_of las (mv_objects m) r.
Proof.
  intros Hk Hs Hseen Hdraft. unfold view_of. rewrite Hs. f_equal; apply (values_by_step any_version); try done.
  - by intros k es e _ [? _]%seen_entry_Some.
  - by intros k es e _ [? _]%draft_entry_Some.
Qed.

(** A call that changes no object. *)
Lemma view_kept s s' m m' i r : keeps any_version m (sy_las s) (sy_las s') → mv_running m !! i = Some r →
  goes_on m m' i r [] → mv_objects m' = mv_objects m → view s' m' = view s m.
Proof.
  intros Hk Hr [Hms [home Hrun]] Ho. unfold view. rewrite Hrun, (mv_calls_counter m m') by done. f_equal.
  - apply (values_by_step any_version); [done|by intros k es e _ [? _]%seen_entry_Some|by rewrite Ho].
  - rewrite fmap_insert, insert_id.
    + apply map_fmap_ext. intros j rj _. apply view_of_step; try done; by rewrite Ho.
    + rewrite lookup_fmap, Hr. simpl. unfold view_of, draft_entry. cbn [ru_snapshot ru_writes]. by rewrite app_nil_r.
Qed.

Lemma view_begin s s' m i : sy_las s' = sy_las s →
  view s' (mk_mvstore (mv_counter m) (mv_objects m) (<[i := mk_running (mv_counter m) None []]> (mv_running m))) =
    with_worker i (mk_worker (va_now (view s m)) ∅) (view s m).
Proof.
  intros Hl. unfold view, with_worker. cbn [mv_counter mv_objects mv_running va_now va_workers]. rewrite Hl. f_equal.
  rewrite fmap_insert. f_equal. unfold view_of. cbn [ru_snapshot]. f_equal. apply map_eq. intros k.
  rewrite values_by_lookup, lookup_empty. destruct (mv_objects m !! k) as [es|]; [|done]. simpl.
  done.
Qed.

(** The bytes a transaction may fill in are no pointers. *)
Lemma filling_plain s m i d o : represents s m → filling s i d → mr_off d ≤ o < mr_off d + mr_len d →
  ¬ pointer_byte (mr_source d) o.
Proof.
  intros Hrp Hd Ho Hp. destruct (filling_owned sizes s m i d Hrp Hd) as (r & home & _ & _ & Hf & _).
  apply pointer_byte_spec in Hp as (off & Hs & Hoff).
  pose proof (rp_layout _ _ _ Hrp _ _ _ _ (owns_pointer sizes s m _ Hs) Hf) as Hap.
  unfold separate, spans_apart, apart in Hap. simpl in Hap. unfold size_of_usize in *. lia.
Qed.

Lemma plain_bytes_filling s m i d bs : represents s m → filling s i d →
  mem (sy_las s) (mr_source d) (mr_off d) (mr_len d) = Some bs → plain_bytes (sy_las s) d = Some <$> bs.
Proof.
  intros Hrp Hd Hm. apply list_eq. intros i'. rewrite (plain_bytes_lookup _ _ bs i' Hm), list_lookup_fmap.
  destruct (bs !! i') as [x|] eqn:Hi; [|done]. simpl. rewrite decide_False; [done|]. apply (filling_plain s m i d); [done|done|].
  apply mem_length in Hm. apply lookup_lt_Some in Hi. unfold blen in Hm. lia.
Qed.

Lemma seen_entry_front n k e es : visible n e = true → seen_entry n k (e :: es) = Some e.
Proof. intros Hv. unfold seen_entry. cbn [snapshot_read]. by rewrite Hv. Qed.

Lemma seen_entry_uncommitted n k e es : en_version e = 0 → seen_entry n k (e :: es) = seen_entry n k es.
Proof. intros He. unfold seen_entry. by rewrite snapshot_read_uncommitted. Qed.

Lemma view_seen s m i r k es : mv_running m !! i = Some r → mv_objects m !! k = Some es → ∃ t,
  va_workers (view s m) !! i = Some t ∧
  wk_seen t !! k = stored_at (sy_las s) k <$> seen_entry (ru_snapshot r) k es ∧
  va_now (view s m) !! k = stored_at (sy_las s) k <$> seen_entry (mv_counter m) k es ∧
  wk_drafts t !! k = stored_at (sy_las s) k <$> draft_entry r k es.
Proof.
  intros Hr Ho. exists (view_of (sy_las s) (mv_objects m) r). rewrite view_worker, Hr.
  unfold view, view_of. cbn [va_now wk_seen wk_drafts]. rewrite !values_by_lookup, Ho. done.
Qed.

(** An object whose newest version is visible has no drafts. *)
Lemma view_undrafted s m k e es n : represents s m → mv_objects m !! k = Some (e :: es) → visible n e = true →
  ∀ j u, va_workers (view s m) !! j = Some u → wk_drafts u !! k = None.
Proof.
  intros Hrp Ho Hv j u Hj. rewrite view_worker in Hj. apply fmap_Some in Hj as (r & Hr & ->).
  unfold view_of. cbn [wk_drafts]. rewrite values_by_lookup, Ho. simpl. unfold draft_entry. rewrite decide_False; [done|].
  intros Hk. by apply (visible_unwritten m j r k e es n (rp_inv _ _ _ Hrp)).
Qed.

(** A draft in front. *)
Lemma view_push s s' m m' i r k e e' es : represents s m → mv_running m !! i = Some r →
  keeps any_version m (sy_las s) (sy_las s') → goes_on m m' i r [k] →
  mv_objects m !! k = Some (e :: es) → visible (ru_snapshot r) e = true →
  mv_objects m' = <[k := e' :: e :: es]> (mv_objects m) → en_version e' = 0 →
  view s' m' = with_worker i (set_draft k (stored_at (sy_las s') k e') (view_of (sy_las s) (mv_objects m) r)) (view s m).
Proof.
  intros Hrp Hr Hk [Hms [home Hrun]] Ho Hv Ho' He'. set (las' := sy_las s') in *.
  assert (∀ n k', (es0 ← mv_objects m' !! k'; stored_at las' k' <$> seen_entry n k' es0) =
    (es0 ← mv_objects m !! k'; stored_at las' k' <$> seen_entry n k' es0)) as Hseen.
  { intros n k'. rewrite Ho'. destruct (decide (k = k')) as [<-|]; [|by rewrite lookup_insert_ne].
    rewrite lookup_insert_eq, Ho. simpl. by rewrite (seen_entry_uncommitted n k e'). }
  assert (∀ r', k ∉ ru_writes r' → ∀ k', (es0 ← mv_objects m' !! k'; stored_at las' k' <$> draft_entry r' k' es0) =
    (es0 ← mv_objects m !! k'; stored_at las' k' <$> draft_entry r' k' es0)) as Hdraft.
  { intros r' Hnin k'. rewrite Ho'. destruct (decide (k = k')) as [<-|]; [|by rewrite lookup_insert_ne].
    rewrite lookup_insert_eq, Ho. simpl. unfold draft_entry. by rewrite !decide_False. }
  assert (∀ j r', mv_running m !! j = Some r' → k ∉ ru_writes r') as Hun.
  { intros j r' Hj Hin. by apply (visible_unwritten m j r' k e es (ru_snapshot r) (rp_inv _ _ _ Hrp)). }
  unfold view at 1, with_worker. rewrite Hrun, (mv_calls_counter m m') by done. f_equal.
  { apply (values_by_step any_version); [done|by intros k' es' x _ [? _]%seen_entry_Some|apply Hseen]. }
  rewrite fmap_insert. apply map_eq. intros j. destruct (decide (i = j)) as [<-|Hne].
  - rewrite !lookup_insert_eq. f_equal. unfold view_of, set_draft. cbn [wk_seen wk_drafts ru_snapshot]. f_equal.
    { apply (values_by_step any_version); [done|by intros k' es' x _ [? _]%seen_entry_Some|apply Hseen]. }
    apply map_eq. intros k'. rewrite values_by_lookup, Ho'. destruct (decide (k = k')) as [<-|Hk'].
    + rewrite !lookup_insert_eq. simpl. unfold draft_entry. cbn [ru_writes]. rewrite decide_True; [done|]. apply elem_of_app. right. by left.
    + rewrite !lookup_insert_ne by done. rewrite values_by_lookup. destruct (mv_objects m !! k') as [es'|] eqn:Hk''; [|done]. simpl.
      assert (draft_entry (mk_running (ru_snapshot r) home (ru_writes r ++ [k])) k' es' = draft_entry r k' es') as ->.
      { unfold draft_entry. cbn [ru_writes]. apply decide_ext. rewrite elem_of_app, list_elem_of_singleton. intuition congruence. }
      destruct (draft_entry r k' es') as [x|] eqn:Hx; [|done]. simpl. f_equal.
      apply draft_entry_Some in Hx as [Hx _]. apply (stored_at_kept any_version m); [done|by exists es'|done].
  - rewrite !lookup_insert_ne by done. rewrite view_worker, lookup_fmap. destruct (mv_running m !! j) as [rj|] eqn:Hj; [|done].
    simpl. f_equal. apply view_of_step; [done|done|apply Hseen|]. apply Hdraft. by apply (Hun j).
Qed.

(** *** A transaction fills in its draft *)

(** A draft where the transaction may write. *)
Lemma draft_span s m i r home k e es d : represents s m → mv_running m !! i = Some r → ru_home r = Some home →
  filling s i d → mv_objects m !! k = Some (e :: es) → k ∈ ru_writes r →
  en_data (total_at k) e = d ∨ spans_apart (ref_span (en_data (total_at k) e)) (ref_span d).
Proof.
  intros Hrp Hr Hh Hd Ho Hk. destruct (filling_owned sizes s m i d Hrp Hd) as (r' & home' & Hr' & Hh' & Hf & _).
  assert (has_entry m k e) as He by (exists (e :: es); split; [done|by left]).
  destruct (rp_layout _ _ _ Hrp _ _ _ _ (owns_data sizes s m k e He) Hf) as [[_ Heq]|]; [left|by right].
  unfold ref_span in Heq. injection Heq as E1 E2 E3. destruct d. simpl in *. unfold en_data. by rewrite <- E1, <- E2, <- E3.
Qed.

Lemma data_twice s m k k' e e' : represents s m → has_entry m k e → has_entry m k' e' →
  en_data (total_at k) e = en_data (total_at k') e' → k = k'.
Proof.
  intros Hrp He He' Heq. pose proof (owns_data sizes s m k e He) as Hx. pose proof (owns_data sizes s m k' e' He') as Hy.
  destruct (rp_layout _ _ _ Hrp _ _ _ _ Hx Hy) as [[? _]|Hap]; [done|]. rewrite Heq in Hap. exfalso.
  destruct He' as (es & Ho & _). pose proof (ob_total _ _ _ _ (rp_objects _ _ _ Hrp k' es Ho)) as Hpos.
  unfold spans_apart, apart in Hap. simpl in Hap. lia.
Qed.

(** The versions of others keep their bytes, and so do committed ones. *)
Lemma fill_keeps s m i r home d off bytes : represents s m → filling s i d → mv_running m !! i = Some r →
  ru_home r = Some home → 0 ≤ off → off + blen bytes ≤ mr_len d →
  keeps (λ e, en_home e ≠ home) m (sy_las s) (put (mr_source d) (mr_off d + off) bytes (sy_las s)).
Proof.
  intros Hrp Hd Hr Hh Hoff Hle. destruct (filling_owned sizes s m i d Hrp Hd) as (r' & home' & Hr' & Hh' & Hf & [Hl Hsrc Hm]).
  assert (home' = home) as -> by congruence. pose proof (blen_nonneg bytes) as Hb.
  apply keeps_put; [done|by apply mem_within with (mr_len d)|]. intros o Hs Hin.
  apply (settled_running sizes (λ e, en_home e ≠ home) s m i r home (ref_span d) (mr_source d) o); try done; [|simpl; lia].
  right. split; [done|]. by intros.
Qed.

Lemma seen_elsewhere s m i r home n k es e : represents s m → mv_running m !! i = Some r → ru_home r = Some home →
  mv_objects m !! k = Some es → seen_entry n k es = Some e → e ∈ es ∧ en_home e ≠ home.
Proof.
  intros Hrp Hr Hh Ho (Hin & Hc & _)%seen_entry_Some. split; [done|].
  apply (committed_not_running sizes s m i r home k); try done. by exists es.
Qed.

Lemma drafts_elsewhere s m i j r rj home k es e : represents s m → mv_running m !! i = Some r → ru_home r = Some home →
  i ≠ j → mv_running m !! j = Some rj → mv_objects m !! k = Some es → draft_entry rj k es = Some e →
  e ∈ es ∧ en_home e ≠ home.
Proof.
  intros Hrp Hr Hh Hne Hj Ho He. destruct (draft_entry_Some rj k es e He) as [Hin Hw]. split; [done|].
  destruct (mi_writes _ (rp_inv _ _ _ Hrp) j rj k Hj Hw) as (e1 & e2 & es1 & Ho1 & Hh1 & _).
  unfold draft_entry in He. rewrite decide_True in He by done. rewrite Ho in Ho1. injection Ho1 as ->. injection He as ->.
  intros Heq. apply Hne. apply (mi_homes _ (rp_inv _ _ _ Hrp) i j r rj home); congruence.
Qed.

Lemma view_store s m i r d off bytes : represents s m → filling s i d → 0 ≤ off → off + blen bytes ≤ mr_len d →
  mv_running m !! i = Some r → let las' := put (mr_source d) (mr_off d + off) bytes (sy_las s) in
  view (poke_to s (with_las las' (sy_world s))) m =
    with_worker i (mk_worker (values_by (seen_entry (ru_snapshot r)) (sy_las s) (mv_objects m))
      (values_by (draft_entry r) las' (mv_objects m))) (view s m).
Proof.
  intros Hrp Hd Hoff Hle Hr las'. destruct (filling_owned sizes s m i d Hrp Hd) as (r' & home & Hr' & Hh & _).
  assert (r' = r) as -> by congruence. pose proof (fill_keeps s m i r home d off bytes Hrp Hd Hr Hh Hoff Hle) as Hkeep.
  pose proof (λ n k es e, seen_elsewhere s m i r home n k es e Hrp Hr Hh) as Hseen.
  unfold view at 1, with_worker. f_equal; [by apply (values_by_step (λ e, en_home e ≠ home)); [|apply Hseen|]|].
  apply map_eq. intros j. destruct (decide (i = j)) as [<-|Hne].
  - rewrite lookup_insert_eq, lookup_fmap, Hr. simpl. unfold view_of. do 2 f_equal.
    by apply (values_by_step (λ e, en_home e ≠ home)); [|apply Hseen|].
  - rewrite lookup_insert_ne by done. rewrite view_worker, lookup_fmap. destruct (mv_running m !! j) as [rj|] eqn:Hj; [|done].
    simpl. f_equal. unfold view_of. f_equal; apply (values_by_step (λ e, en_home e ≠ home)); try done; [apply Hseen|].
    intros k' es' e'. by apply (drafts_elsewhere s m i j r rj home).
Qed.

(** The other drafts of the transaction. *)
Lemma draft_kept s m i r d off bytes k : represents s m → filling s i d → 0 ≤ off → off + blen bytes ≤ mr_len d →
  mv_running m !! i = Some r → let las' := put (mr_source d) (mr_off d + off) bytes (sy_las s) in
  fst <$> values_by (draft_entry r) (sy_las s) (mv_objects m) !! k ≠ Some d →
  values_by (draft_entry r) las' (mv_objects m) !! k = values_by (draft_entry r) (sy_las s) (mv_objects m) !! k.
Proof.
  intros Hrp Hd Hoff Hle Hr las'. rewrite !values_by_lookup. destruct (mv_objects m !! k) as [es|] eqn:Ho; [|done]. simpl.
  destruct (draft_entry r k es) as [e|] eqn:He; [|done]. simpl. intros Hne. f_equal.
  destruct (filling_owned sizes s m i d Hrp Hd) as (r' & home & Hr' & Hh & _ & [Hl Hsrc Hm]).
  assert (r' = r) as -> by congruence. pose proof (blen_nonneg bytes) as Hb.
  destruct (draft_entry_Some r k es e He) as [_ Hw]. unfold draft_entry in He. rewrite decide_True in He by done.
  destruct es as [|e0 es]; [done|]. injection He as ->.
  destruct (draft_span s m i r home k e es d) as [|Hap]; [done..|congruence|].
  unfold stored_at. f_equal. apply plain_bytes_ext. intros o Hin _.
  apply mem_put_apart; [done|by apply mem_within with (mr_len d)|].
  pose proof (ob_total _ _ _ _ (rp_objects _ _ _ Hrp k _ Ho)) as Hpos.
  unfold spans_apart, apart in Hap. simpl in Hap, Hin. unfold apart. simpl. lia.
Qed.

Lemma draft_where s m i r k d x : represents s m → mv_running m !! i = Some r →
  wk_drafts (view_of (sy_las s) (mv_objects m) r) !! k = Some (d, x) →
  ∃ e, has_entry m k e ∧ en_data (total_at k) e = d ∧ ∀ las, values_by (draft_entry r) las (mv_objects m) !! k = Some (d, plain_bytes las d).
Proof.
  intros Hrp Hr Hk. unfold view_of in Hk. cbn [wk_drafts] in Hk. rewrite values_by_lookup in Hk.
  destruct (mv_objects m !! k) as [es|] eqn:Ho; [|done]. simpl in Hk.
  destruct (draft_entry r k es) as [e|] eqn:He; [|done]. injection Hk as Hk _. exists e. split_and!.
  - exists es. split; [done|]. by apply (draft_entry_Some r k).
  - done.
  - intros las. rewrite values_by_lookup, Ho. simpl. rewrite He. simpl. unfold stored_at. by rewrite Hk.
Qed.

Lemma view_fill s m i r d off bytes k x : represents s m → filling s i d → 0 ≤ off → off + blen bytes ≤ mr_len d →
  mv_running m !! i = Some r → wk_drafts (view_of (sy_las s) (mv_objects m) r) !! k = Some (d, x) →
  let las' := put (mr_source d) (mr_off d + off) bytes (sy_las s) in
  view (poke_to s (with_las las' (sy_world s))) m =
    with_worker i (set_draft k (d, plain_bytes las' d) (view_of (sy_las s) (mv_objects m) r)) (view s m).
Proof.
  intros Hrp Hd Hoff Hle Hr Hk las'. unfold las'. rewrite (view_store s m i r) by done. unfold set_draft. do 2 f_equal.
  destruct (draft_where s m i r k d x Hrp Hr Hk) as (e & He & Hed & Hval).
  apply map_eq. intros k'. destruct (decide (k = k')) as [<-|Hne]; [by rewrite lookup_insert_eq|].
  rewrite lookup_insert_ne by done. apply (draft_kept s m i r d off bytes k'); [done..|].
  destruct (values_by _ (sy_las s) _ !! k') as [[d' x']|] eqn:Hk'; [|done]. intros [= ->].
  destruct (draft_where s m i r k' d x' Hrp Hr Hk') as (e' & He' & Hed' & _).
  apply Hne, (data_twice s m k k' e e'); congruence.
Qed.

(** Filling in what is no draft, a new object. *)
Lemma view_fill_other s m i r d off bytes : represents s m → filling s i d → 0 ≤ off → off + blen bytes ≤ mr_len d →
  mv_running m !! i = Some r → (∀ k x, wk_drafts (view_of (sy_las s) (mv_objects m) r) !! k ≠ Some (d, x)) →
  view (poke_to s (with_las (put (mr_source d) (mr_off d + off) bytes (sy_las s)) (sy_world s))) m = view s m.
Proof.
  intros Hrp Hd Hoff Hle Hr Hno. rewrite (view_store s m i r) by done. unfold with_worker. destruct (view s m) as [now ws] eqn:Hview.
  cbn [va_now va_workers]. f_equal. apply insert_id. change ws with (va_workers (mk_values now ws)).
  rewrite <- Hview, view_worker, Hr. simpl. unfold view_of. do 2 f_equal. apply map_eq. intros k. symmetry.
  apply (draft_kept s m i r d off bytes k); [done..|]. specialize (Hno k). unfold view_of in Hno. cbn [wk_drafts] in Hno.
  destruct (values_by _ _ _ !! k) as [[d' x]|]; [|done]. intros [= ->]. by destruct (Hno x).
Qed.

(** *** A transaction ends *)
Lemma delete_workers s s' m m' i : mv_running m' = delete i (mv_running m) →
  (∀ j rj, i ≠ j → mv_running m !! j = Some rj →
     view_of (sy_las s') (mv_objects m') rj = view_of (sy_las s) (mv_objects m) rj) →
  view_of (sy_las s') (mv_objects m') <$> mv_running m' = delete i (va_workers (view s m)).
Proof.
  intros -> Ho. unfold view. cbn [va_workers]. rewrite <- fmap_delete. apply map_fmap_ext.
  intros j rj [Hne Hj]%lookup_delete_Some. by apply (Ho j).
Qed.

Lemma view_committed s s' m m' i r home : represents s m → mv_running m !! i = Some r → ru_home r = Some home →
  keeps any_version m (sy_las s) (sy_las s') → mv_counter m' = mv_counter m + 1 →
  mv_objects m' = commit_objects home (mv_counter m + 1) (mv_objects m) → mv_running m' = delete i (mv_running m) →
  view s' m' = mk_values (wk_drafts (view_of (sy_las s) (mv_objects m) r) ∪ va_now (view s m)) (delete i (va_workers (view s m))).
Proof.
  intros Hrp Hr Hh Hk Hn Ho Hrun. pose proof (rp_inv _ _ _ Hrp) as Hinv.
  unfold view at 1. f_equal.
  - apply map_eq. intros k. unfold view, view_of. cbn [wk_drafts va_now].
    rewrite lookup_union, !values_by_lookup, Hn, Ho, commit_lookup. destruct (mv_objects m !! k) as [es|] eqn:Hko; [|done]. simpl.
    destruct (decide (k ∈ ru_writes r)) as [Hw|Hw].
    + destruct (commit_read_written m i r home k Hinv Hr Hh Hw) as (e & es' & Hko' & Hread).
      rewrite Hko in Hko'. injection Hko' as ->. cbn zeta in Hread. unfold seen_entry at 1. rewrite Hread. cbn [fmap option_fmap option_map].
      rewrite commit_stored. unfold draft_entry. rewrite decide_True by done. cbn [head fmap option_fmap option_map].
      rewrite (stored_at_kept any_version m (sy_las s)); [|done|by exists (e :: es'); split; [|left]|done].
      by destruct (seen_entry (mv_counter m) k (e :: es')).
    + pose proof (commit_read_other m i r home k es Hinv Hr Hh Hw Hko) as Hread. cbn zeta in Hread.
      unfold seen_entry at 1. rewrite Hread. fold (seen_entry (mv_counter m) k es).
      unfold draft_entry. rewrite decide_False by done. rewrite (left_id_L None _).
      destruct (seen_entry _ k es) as [e|] eqn:He; [|done]. simpl. f_equal. apply seen_entry_Some in He as [He _].
      apply (stored_at_kept any_version m); [done|by exists es|done].
  - apply delete_workers; [done|]. intros j rj Hne Hj. apply view_of_step; [done|done|..]; intros k;
      rewrite Ho, commit_lookup; (destruct (mv_objects m !! k) as [es|] eqn:Hko; [|done]); simpl.
    + unfold seen_entry. rewrite snapshot_read_commit_entries; [done|pose proof (mi_snapshot _ Hinv j rj Hj); lia|].
      intros e He. by apply (mi_own _ Hinv i r home k es).
    + unfold draft_entry. case_decide; [|done]. destruct es; [done|]. simpl. by rewrite commit_stored.
Qed.

Lemma view_undone s s' m m' i r : represents s m → mv_running m !! i = Some r →
  keeps any_version m (sy_las s) (sy_las s') → mv_counter m ≤ mv_counter m' →
  mv_objects m' = undo_objects (ru_writes r) (mv_objects m) → mv_running m' = delete i (mv_running m) →
  view s' m' = mk_values (va_now (view s m)) (delete i (va_workers (view s m))).
Proof.
  intros Hrp Hr Hk Hn Ho Hrun. pose proof (rp_inv _ _ _ Hrp) as Hinv. unfold view at 1. f_equal.
  - apply (values_by_step any_version); [done|by intros k es e _ [? _]%seen_entry_Some|]. intros k.
    rewrite Ho, undo_lookup. destruct (mv_objects m !! k) as [es|] eqn:Hko; [|done]. simpl. unfold seen_entry.
    rewrite (undo_read m i r k es Hinv Hr Hko). by rewrite (snapshot_read_newer (mv_counter m)) by (done || by apply (mi_versions _ Hinv k)).
  - apply delete_workers; [done|]. intros j rj Hne Hj. apply view_of_step; [done|done|..]; intros k;
      rewrite Ho, undo_lookup; (destruct (mv_objects m !! k) as [es|] eqn:Hko; [|done]); simpl.
    + unfold seen_entry. by rewrite (undo_read m i r k es Hinv Hr Hko).
    + unfold draft_entry. case_decide as Hw; [|done]. rewrite decide_False; [done|]. intros Hw'. apply Hne.
      destruct (mi_writes _ Hinv i r k Hr Hw') as (e1 & e2 & es1 & Ho1 & Hh1 & _).
      destruct (mi_writes _ Hinv j rj k Hj Hw) as (e3 & e4 & es3 & Ho3 & Hh3 & _).
      apply (mi_homes _ Hinv i j r rj (en_home e1)); congruence.
Qed.
End Views.
