(* ===== verification/Showing.v ===== *)
(** * The calls, by values

    What each call of a transaction returns and does, over a heap that shows
    certain values: all that clients need. *)
From S2P Require Import Prelude Utils Source SourceAllocator Slices Las Memory Pointer Vos.
From S2P Require Import Allocators Versions Objects Tx Transactions Heap Runs Snapshot Arena Simulation Calls Isolation Clients.
From S2P Require Import Values Views.

Section Showing.
Context `{T : Target} `{TOk : !TargetOk T} `{C : Crc} {D : Type} `{Src : !Source D} `{Laws : !SourceLaws D}.
Context (sizes : gmap cell ObjectSize).
Abbreviation represents := (represents sizes).
Abbreviation total_at := (total_at sizes).
Abbreviation view := (view sizes).
Abbreviation view_of := (view_of sizes).
Abbreviation sys_step := (sys_step sizes).
Implicit Types (w : World D) (tx : Transaction) (s : system D) (refs : list memref) (k : cell) (d : memref).
Implicit Types (m : mvstore cell) (r : running cell) (e : entry) (es : list entry).
Implicit Types (a : values cell stored) (t : worker cell stored) (bs : list byte).

(** The heap, with its running transactions, has the values [a]. *)
Definition shows s a : Prop := ∃ m, represents s m ∧ view s m = a.

Lemma view_inv s m : represents s m → val_inv (view s m).
Proof.
  intros Hrp. pose proof (rp_inv _ _ _ Hrp) as Hinv.
  assert (∀ i t k, va_workers (view s m) !! i = Some t → is_Some (wk_drafts t !! k) →
    ∃ r e e0 es, mv_running m !! i = Some r ∧ t = view_of (sy_las s) (mv_objects m) r ∧ mv_objects m !! k = Some (e :: e0 :: es) ∧
      ru_home r = Some (en_home e) ∧ en_version e = 0 ∧ visible (ru_snapshot r) e0 = true) as Hdraft.
  { intros i t k Hi [v Hv]. rewrite view_worker in Hi. apply fmap_Some in Hi as (r & Hr & ->).
    unfold Views.view_of in Hv. cbn [wk_drafts] in Hv. rewrite values_by_lookup in Hv.
    destruct (mv_objects m !! k) as [es|] eqn:Ho; [|done]. simpl in Hv.
    destruct (draft_entry r k es) as [e|] eqn:He; [|done]. destruct (draft_entry_Some r k es e He) as [_ Hw].
    destruct (mi_writes _ Hinv i r k Hr Hw) as (e1 & e0 & es' & Ho' & Hh & Hvis). rewrite Ho in Ho'. injection Ho' as ->.
    exists r, e1, e0, es'. split_and!; try done. apply (mi_own _ Hinv i r (en_home e1) k (e1 :: e0 :: es')); try done. by left. }
  split.
  - intros i t k Hi Hk. destruct (Hdraft i t k Hi Hk) as (r & e & e0 & es & Hr & -> & Ho & _ & He & Hv).
    unfold Views.view_of, Views.view. cbn [wk_seen va_now]. rewrite !values_by_lookup, Ho. simpl.
    rewrite !(seen_entry_uncommitted _ k e) by done. rewrite !seen_entry_front; [done| |done].
    apply visible_true in Hv. apply visible_true. pose proof (mi_snapshot _ Hinv i r Hr). lia.
  - intros i j t u k Hi Hj Hk Hk'. destruct (Hdraft i t k Hi Hk) as (r & e & e0 & es & Hr & _ & Ho & Hh & _).
    destruct (Hdraft j u k Hj Hk') as (r' & e' & e0' & es' & Hr' & _ & Ho' & Hh' & _).
    apply (mi_homes _ Hinv i j r r' (en_home e)); congruence.
Qed.

Lemma shows_inv s a : shows s a → val_inv a.
Proof. intros (m & Hrp & <-). by apply view_inv. Qed.

Lemma shows_running s a i tx refs : shows s a → sy_txs s !! i = Some (tx, refs) → is_Some (va_workers a !! i).
Proof.
  intros (m & Hrp & <-) Hi. destruct (represents_running sizes s m i tx refs Hrp Hi) as (r & Hr & _).
  rewrite view_worker, Hr. by eexists.
Qed.

Lemma shows_begin s a i root : shows s a → sy_txs s !! i = None →
  shows (step_to s i (fresh_transaction root (sy_world s)) [] (sy_world s)) (with_worker i (mk_worker (va_now a) ∅) a).
Proof.
  intros (m & Hrp & <-) Hi. destruct (represents_begin sizes s m i root Hrp Hi) as [_ Hrp'].
  eexists. split; [exact Hrp'|]. by apply view_begin.
Qed.

(** The running transaction behind the values it sees. *)
Lemma shown_worker s m i tx refs t : represents s m → sy_txs s !! i = Some (tx, refs) →
  va_workers (view s m) !! i = Some t → ∃ r, mv_running m !! i = Some r ∧ t = view_of (sy_las s) (mv_objects m) r.
Proof.
  intros Hrp Hi Ht. rewrite view_worker in Ht. apply fmap_Some in Ht as (r & Hr & ->). by exists r.
Qed.

Lemma snapshot_read_seen n k es : snapshot_read n false es =
  match seen_entry n k es with Some e => Ok e | None => Err InvalidLogicalAddress end.
Proof.
  unfold seen_entry. induction es as [|e es IH]; cbn [snapshot_read]; [done|]. by destruct (visible n e).
Qed.

(** What a read returns. *)
Definition found (o : option stored) : outcome memref :=
  match o with Some v => Ok v.1 | None => Err InvalidLogicalAddress end.

Lemma shows_read s a i tx refs t k size : shows s a → sy_txs s !! i = Some (tx, refs) → va_workers a !! i = Some t →
  sizes !! k = Some size →
  eventually (λ fuel, Transaction_read fuel k size (tx, sy_world s)) (found (wk_seen t !! k), (tx, sy_world s)).
Proof.
  intros (m & Hrp & <-) Hi Ht Hk. destruct (shown_worker s m i tx refs t Hrp Hi Ht) as (r & Hr & ->).
  destruct (object_of sizes s m k size Hrp Hk) as [es Ho]. apply (eventually_above _ _ (length es)). intros fuel Hf.
  rewrite (system_read sizes s m i tx refs r k size es) by done. do 2 f_equal.
  unfold Views.view_of. cbn [wk_seen]. rewrite values_by_lookup, Ho. simpl.
  rewrite (snapshot_read_seen _ k). by destruct (seen_entry _ k es).
Qed.

(** A transaction that begins now reads the values of now. *)
Lemma shows_fresh_read s a root k size : shows s a → sizes !! k = Some size →
  eventually (λ fuel, Transaction_read fuel k size (fresh_transaction root (sy_world s), sy_world s))
    (found (va_now a !! k), (fresh_transaction root (sy_world s), sy_world s)).
Proof.
  intros (m & Hrp & <-) Hk. destruct (object_of sizes s m k size Hrp Hk) as [es Ho].
  apply (eventually_above _ _ (length es)). intros fuel Hf.
  rewrite (represented_read sizes s m (fresh_transaction root (sy_world s)) k size es) by done. do 2 f_equal.
  unfold Views.view. cbn [va_now]. rewrite values_by_lookup, Ho. simpl. rewrite <- (rp_counter _ _ _ Hrp).
  rewrite (snapshot_read_seen _ k). by destruct (seen_entry _ k es).
Qed.

Lemma shows_new_read s a root k size : shows s a → sizes !! k = Some size →
  eventually (new_read root (sy_world s) k size) (found (va_now a !! k)).
Proof. intros Hs Hk. apply (eventually_map fst _ _ (shows_fresh_read s a root k size Hs Hk)). Qed.

(** Where a value is that is shown: a version of the object. *)
Lemma shown_entry s m k v : represents s m → va_now (view s m) !! k = Some v ∨
  (∃ i t, va_workers (view s m) !! i = Some t ∧ (wk_seen t !! k = Some v ∨ wk_drafts t !! k = Some v)) →
  ∃ e, has_entry m k e ∧ v = stored_at sizes (sy_las s) k e.
Proof.
  intros Hrp Hv. assert (∃ pick, (∀ es e, pick k es = Some e → e ∈ es) ∧
    values_by sizes pick (sy_las s) (mv_objects m) !! k = Some v) as (pick & Hp & Hv').
  { destruct Hv as [Hv|(i & t & Ht & Hv)]; [exists (seen_entry (mv_counter m)); split; [by intros es e [? _]%seen_entry_Some|done]|].
    rewrite view_worker in Ht. apply fmap_Some in Ht as (r & Hr & ->). destruct Hv as [Hv|Hv].
    - exists (seen_entry (ru_snapshot r)). split; [by intros es e [? _]%seen_entry_Some|done].
    - exists (draft_entry r). split; [by intros es e [? _]%draft_entry_Some|done]. }
  rewrite values_by_lookup in Hv'. destruct (mv_objects m !! k) as [es|] eqn:Ho; [|done]. simpl in Hv'.
  destruct (pick k es) as [e|] eqn:He; [|done]. injection Hv' as <-. exists e. split; [|done]. exists es. split; [done|by apply Hp].
Qed.

Definition shown a (k : cell) (v : stored) : Prop := va_now a !! k = Some v ∨
  ∃ i t, va_workers a !! i = Some t ∧ (wk_seen t !! k = Some v ∨ wk_drafts t !! k = Some v).

(** Values without pointers are the bytes one finds there. *)
Lemma shown_bytes s a k d bs : shows s a → shown a k (d, Some <$> bs) →
  mem (sy_las s) (mr_source d) (mr_off d) (mr_len d) = Some bs.
Proof.
  intros (m & Hrp & <-) Hv. destruct (shown_entry s m k _ Hrp Hv) as (e & (es & Ho & He) & Heq).
  unfold stored_at in Heq. injection Heq as -> Hb. apply (plain_bytes_full sizes); [|done].
  by apply (entry_readable sizes s m k es e).
Qed.

(** They are where references to words may be. *)
Lemma shown_aligned s a k v : shows s a → shown a k v → aligned 8 (mr_off v.1).
Proof.
  intros (m & Hrp & <-) Hv. destruct (shown_entry s m k v Hrp Hv) as (e & (es & Ho & He) & ->).
  by apply (data_aligned sizes s m k es e).
Qed.

Lemma shown_length s a k v : shows s a → shown a k v → mr_len v.1 = total_at k.
Proof. intros (m & Hrp & <-) Hv. by destruct (shown_entry s m k v Hrp Hv) as (e & _ & ->). Qed.

(** What a transaction that begins now finds at [k]: the bytes [bs], none of
    them in a pointer to an object. *)
Record finds s (root k : cell) (size : ObjectSize) d bs : Prop := {
  fi_read : eventually (new_read root (sy_world s) k size) (Ok d);
  fi_bytes : mem (sy_las s) (mr_source d) (mr_off d) (mr_len d) = Some bs;
  fi_plain o : mr_off d ≤ o < mr_off d + mr_len d → ¬ pointer_byte sizes (mr_source d) o
}.

Lemma finds_shown s a root k size d bs : shows s a → sizes !! k = Some size → finds s root k size d bs →
  va_now a !! k = Some (d, Some <$> bs).
Proof.
  intros Hs Hk [Hev Hm Hplain]. pose proof (shows_new_read s a root k size Hs Hk) as Hev'.
  pose proof (eventually_unique _ _ _ Hev Hev') as Hd. destruct Hs as (m & Hrp & <-).
  destruct (va_now (view s m) !! k) as [v|] eqn:Hv; [|done]. injection Hd as Hd.
  destruct (shown_entry s m k v Hrp (or_introl Hv)) as (e & _ & ->). simpl in Hd. unfold stored_at. rewrite <- Hd.
  do 2 f_equal. apply list_eq. intros i. rewrite (plain_bytes_lookup sizes _ _ bs i Hm), list_lookup_fmap.
  destruct (bs !! i) as [x|] eqn:Hi; [|done]. simpl. rewrite decide_False; [done|]. apply Hplain.
  apply mem_length in Hm. apply lookup_lt_Some in Hi. unfold blen in Hm. lia.
Qed.

(** [write] makes a draft, a copy of what the transaction sees, if that is
    still the newest version and nobody else is at it. *)
Definition draft_of a (i : nat) t k d bs a' : Prop := ∃ v,
  wk_seen t !! k = Some v ∧ va_now a !! k = Some v ∧
  (∀ j u, va_workers a !! j = Some u → wk_drafts u !! k = None) ∧
  copied v (d, Some <$> bs) ∧ a' = with_worker i (set_draft k (d, Some <$> bs) t) a.

Lemma shows_write s a i tx refs t k size : shows s a → sy_txs s !! i = Some (tx, refs) → va_workers a !! i = Some t →
  sizes !! k = Some size → ∃ result tx' w',
    eventually (λ fuel, Transaction_write fuel k size (tx, sy_world s)) (result, (tx', w')) ∧
    match result with
    | Ok d => ∃ bs a', ObjectSize_total size = Ok (mr_len d) ∧ draft_of a i t k d bs a' ∧ shows (step_to s i tx' (d :: refs) w') a'
    | Fail f => shows (step_to s i tx' refs w') a ∧ (out_of_memory f ∨ f = Throw TxAborted)
    end.
Proof.
  intros (m & Hrp & <-) Hi Ht Hk. destruct (shown_worker s m i tx refs t Hrp Hi Ht) as (r & Hr & ->).
  destruct (object_of sizes s m k size Hrp Hk) as [es Ho].
  destruct (system_write sizes s m i tx refs r k size es Hrp Hi Hr Hk Ho) as (res & tx' & w' & m' & Heq & Hms & Hkeep & Hrp' & Hres).
  exists res, tx', w'. split; [by apply (eventually_above _ _ (length es))|]. destruct res as [d|f].
  - destruct Hres as (e & es' & e' & -> & Hv & Ho' & He' & -> & bytes & Hb & Hb'). set (d := en_data (total_at k) e') in *.
    change (handed (Ok d) refs) with (d :: refs) in Hrp'. set (s' := step_to s i tx' (d :: refs) w') in *.
    assert (filling s' i d) as Hf by (exists tx', (d :: refs); split; [apply step_to_this|by left]).
    destruct (stored_copied sizes (sy_las s) (w_las w') (en_data (total_at k) e) d bytes) as [Hcopy Hfull]; [done..| |].
    { intros o Hoff. by apply (filling_plain sizes s' m' i d). }
    exists bytes. eexists. split_and!; [by apply (total_at_eq sizes s m)| |exists m'; split; [done|]].
    2:{ by apply (view_push sizes s s' m m' i r k e e' es'). }
    destruct (view_seen sizes s m i r k _ Hr Ho) as (t & Ht' & Hseen & Hnow & _). rewrite Ht in Ht'. injection Ht' as <-.
    rewrite seen_entry_front in Hseen by done. rewrite seen_entry_front in Hnow.
    2:{ apply visible_true in Hv. apply visible_true. pose proof (mi_snapshot _ (rp_inv _ _ _ Hrp) i r Hr). lia. }
    exists (stored_at sizes (sy_las s) k e). split_and!; [done|done|by apply (view_undrafted sizes s m k e es' (ru_snapshot r))|..].
    + rewrite <- Hfull. exact Hcopy.
    + unfold s', stored_at. fold d. change (sy_las (step_to s i tx' (d :: refs) w')) with (w_las w'). by rewrite Hfull.
  - destruct Hres as [Ho' Hf]. split; [|destruct Hf as [Hf|[Hf _]]; [by left|by right]].
    exists m'. split; [done|]. by apply (view_kept sizes s _ m m' i r).
Qed.

Lemma shows_alloc s a i tx refs size total : shows s a → sy_txs s !! i = Some (tx, refs) →
  ObjectSize_total size = Ok total → 0 < total → aligned 8 total → ∃ result tx' w', Transaction_alloc size (tx, sy_world s) = (result, (tx', w')) ∧
    shows (step_to s i tx' (handed ('(_, d) ← result; mret d) refs) w') a.
Proof.
  intros (m & Hrp & <-) Hi Hs Ht Hal. destruct (represents_running sizes s m i tx refs Hrp Hi) as (r & Hr & _).
  destruct (system_alloc sizes s m i tx refs r size total Hrp Hi Hr Hs Ht Hal) as (res & tx' & w' & m' & Heq & Hms & Hkeep & Ho & Hrp' & _).
  exists res, tx', w'. split; [done|]. exists m'. split; [done|]. by apply (view_kept sizes s _ m m' i r).
Qed.

Lemma shows_read_for_write s a i tx refs k size : shows s a → sy_txs s !! i = Some (tx, refs) → sizes !! k = Some size →
  ∃ result tx', eventually (λ fuel, Transaction_read_for_write fuel k size (tx, sy_world s)) (result, (tx', sy_world s)) ∧
    shows (step_to s i tx' refs (sy_world s)) a.
Proof.
  intros (m & Hrp & <-) Hi Hk. destruct (represents_running sizes s m i tx refs Hrp Hi) as (r & Hr & _).
  destruct (object_of sizes s m k size Hrp Hk) as [es Ho].
  destruct (system_read_for_write sizes s m i tx refs r k size es Hrp Hi Hr Hk Ho) as [Heq Hrp'].
  eexists _, _. split; [by apply (eventually_above _ _ (length es))|]. by exists m.
Qed.

(** The transaction stores to its draft. *)
Lemma shows_store s a i tx refs t k d off bytes bs : shows s a → sy_txs s !! i = Some (tx, refs) → va_workers a !! i = Some t →
  d ∈ refs → wk_drafts t !! k = Some (d, Some <$> bs) → 0 ≤ off → off + blen bytes ≤ mr_len d → ∃ las',
    las_store (mr_source d) (mr_off d + off) bytes (sy_las s) = (Ok tt, las') ∧
    shows (poke_to s (with_las las' (sy_world s))) (with_worker i (set_draft k (d, Some <$> splice off bytes bs) t) a).
Proof.
  intros (m & Hrp & <-) Hi Ht Hd Hk Hoff Hle. destruct (shown_worker s m i tx refs t Hrp Hi Ht) as (r & Hr & ->).
  assert (filling s i d) as Hf by by exists tx, refs.
  assert (mem (sy_las s) (mr_source d) (mr_off d) (mr_len d) = Some bs) as Hm.
  { apply (shown_bytes s (view s m) k d bs); [by exists m|]. right. exists i. eexists. split; [exact Ht|by right]. }
  destruct (represents_store sizes s m i d off bytes Hrp Hf Hoff Hle) as [Heq Hrp'].
  pose proof (view_fill sizes s m i r d off bytes k _ Hrp Hf Hoff Hle Hr Hk) as Hview.
  set (las' := put _ _ _ _) in *. exists las'. split; [done|]. exists m. split; [done|]. rewrite Hview. do 3 f_equal.
  apply (plain_bytes_filling sizes (poke_to s (with_las las' (sy_world s))) m i d); [done|by exists tx, refs|].
  change (sy_las (poke_to s (with_las las' (sy_world s)))) with las'. unfold las'.
  destruct (filling_owned sizes s m i d Hrp Hf) as (_ & _ & _ & _ & _ & [_ Hsrc _]).
  by apply mem_put_inside.
Qed.

Lemma shows_commit s a i tx refs t : shows s a → sy_txs s !! i = Some (tx, refs) → va_workers a !! i = Some t →
  w_version (sy_world s) + 1 < 2 ^ 63 → ∃ result w', Transaction_commit (tx, sy_world s) = (result, (tx, w')) ∧
    match result with
    | Ok _ => shows (ended (poke_to s w') i) (mk_values (wk_drafts t ∪ va_now a) (delete i (va_workers a)))
    | Fail f => f = Throw TxAborted ∧ shows (ended (poke_to s w') i) (mk_values (va_now a) (delete i (va_workers a)))
    end.
Proof.
  intros (m & Hrp & <-) Hi Ht Hlt. destruct (shown_worker s m i tx refs t Hrp Hi Ht) as (r & Hr & ->).
  destruct (system_commit sizes s m i tx refs r Hrp Hi Hr Hlt) as (res & w' & m' & Heq & [Hms Hrun] & Hkeep & Hrp' & Hres).
  exists res, w'. split; [done|]. destruct res as [[]|f].
  - exists m'. split; [done|]. destruct Hres as [(Hh & Ho & Hn)|(home & Hh & Hn & Ho)]; [|by apply (view_committed sizes s _ m m' i r home)].
    assert (ru_writes r = []) as Hw.
    { destruct (ru_writes r) as [|k ks] eqn:Hw; [done|].
      destruct (mi_writes _ (rp_inv _ _ _ Hrp) i r k Hr) as (? & ? & ? & _ & ? & _); [rewrite Hw; by left|congruence]. }
    rewrite (view_undone sizes s _ m m' i r); [|done..|lia| |done].
    + f_equal. symmetry. apply map_eq. intros k. unfold Views.view_of. cbn [wk_drafts]. rewrite lookup_union, values_by_lookup.
      destruct (mv_objects m !! k); simpl; [|by rewrite (left_id_L None _)].
      unfold draft_entry. rewrite Hw, decide_False by apply not_elem_of_nil. by rewrite (left_id_L None _).
    + rewrite Ho, Hw. apply map_eq. intros k. rewrite undo_lookup. destruct (mv_objects m !! k) as [es|]; [|done].
      cbn. by rewrite decide_False by apply not_elem_of_nil.
  - destruct Hres as (-> & _ & Ho). split; [done|]. exists m'. split; [done|]. apply (view_undone sizes s _ m m' i r); try done.
    destruct Hms; simpl; lia.
Qed.

Lemma shows_abort s a i tx refs : shows s a → sy_txs s !! i = Some (tx, refs) → ∃ w',
  Transaction_abort (tx, sy_world s) = (Ok tt, (tx, w')) ∧ w_version w' = w_version (sy_world s) ∧
  shows (ended (poke_to s w') i) (mk_values (va_now a) (delete i (va_workers a))).
Proof.
  intros (m & Hrp & <-) Hi. destruct (represents_running sizes s m i tx refs Hrp Hi) as (r & Hr & _).
  destruct (system_abort sizes s m i tx refs r Hrp Hi Hr) as (Heq & Hms & Hkeep & Hrp').
  eexists. split_and!; [exact Heq|done|]. eexists. split; [exact Hrp'|]. by apply (view_undone sizes s _ m _ i r).
Qed.

(** *** Whole executions *)
Lemma fill_step s m i tx refs d off bytes las' : represents s m → sy_txs s !! i = Some (tx, refs) → d ∈ refs →
  0 ≤ off → off + blen bytes ≤ mr_len d → las_store (mr_source d) (mr_off d + off) bytes (sy_las s) = (Ok tt, las') →
  shows (poke_to s (with_las las' (sy_world s))) (view s m) ∨
  ∃ k a', val_step copied (Fills i k) (view s m) a' ∧ shows (poke_to s (with_las las' (sy_world s))) a'.
Proof.
  intros Hrp Hi Hd Hoff Hle Heq. assert (filling s i d) as Hf by by exists tx, refs.
  destruct (represents_running sizes s m i tx refs Hrp Hi) as (r & Hr & _).
  destruct (represents_store sizes s m i d off bytes Hrp Hf Hoff Hle) as [Heq' Hrp'].
  rewrite Heq in Heq'. injection Heq' as ->. set (t := view_of (sy_las s) (mv_objects m) r).
  destruct (decide (map_Exists (λ _ v, v.1 = d) (wk_drafts t))) as [(k & [d' x] & Hk & Hd')|Hno].
  - simpl in Hd'. subst d'. right. eexists k, _. split; [|exists m; split; [exact Hrp'|by apply (view_fill sizes s m i r d off bytes k x)]].
    apply (val_fills _ _ _ _ _ (d, x)); [|done]. by rewrite view_worker, Hr.
  - left. exists m. split; [done|]. apply (view_fill_other sizes s m i r); try done.
    intros k x Hk. apply Hno. by exists k, (d, x).
Qed.

Lemma shows_step s s' a : shows s a → sys_step s s' → ∃ a', shows s' a' ∧ (a' = a ∨ ∃ x, val_step copied x a a').
Proof.
  intros Hs Hst. destruct Hst as [s i root tx w' Hi Hnew|s i tx refs k size result tx' w' Hi Hk Hev|
    s i tx refs k size result tx' w' Hi Hk Hev|s i tx refs k size result tx' w' Hi Hk Hev|
    s i tx refs size total result tx' w' Hi Hs' Ht Hal Heq|s i tx refs d off bytes las' Hi Hd Hoff Hle Heq|
    s i tx refs result tx' w' Hi Hlt Heq|s i tx refs result tx' w' Hi Heq].
  - injection Hnew as <- <-. eexists. split; [by apply shows_begin|]. right. exists (Begins i). apply val_begins.
    destruct Hs as (m & Hrp & <-). rewrite view_worker. apply fmap_None, eq_None_not_Some. rewrite (rp_running _ _ _ Hrp), Hi. by intros [].
  - destruct (shows_running s a i tx refs Hs Hi) as [t Ht].
    pose proof (eventually_unique _ _ _ Hev (shows_read s a i tx refs t k size Hs Hi Ht Hk)) as E. injection E as -> -> ->.
    exists a. rewrite step_to_same by done. auto.
  - destruct (shows_read_for_write s a i tx refs k size Hs Hi Hk) as (res & tx1 & Hev' & Hs').
    pose proof (eventually_unique _ _ _ Hev Hev') as E. injection E as -> -> ->. exists a. auto.
  - destruct (shows_running s a i tx refs Hs Hi) as [t Ht].
    destruct (shows_write s a i tx refs t k size Hs Hi Ht Hk) as (res & tx1 & w1 & Hev' & Hres).
    pose proof (eventually_unique _ _ _ Hev Hev') as E. injection E as -> -> ->. destruct res as [d|f].
    + destruct Hres as (bs & a' & _ & (v & Hseen & Hnow & Hfree & Hcopy & Ha') & Hs'). exists a'. split; [done|].
      right. exists (Drafts i k). subst a'. by apply val_drafts with v.
    + exists a. split; [apply Hres|by left].
  - destruct (shows_alloc s a i tx refs size total Hs Hi Hs' Ht Hal) as (res & tx1 & w1 & Heq' & Hs1).
    rewrite Heq in Heq'. injection Heq' as -> -> ->. exists a. auto.
  - destruct Hs as (m & Hrp & <-).
    destruct (fill_step s m i tx refs d off bytes las') as [Hs'|(k & a' & Hst & Hs')]; try done; [by exists (view s m); auto|].
    exists a'. split; [done|]. right. by eexists.
  - destruct (shows_running s a i tx refs Hs Hi) as [t Ht].
    destruct (shows_commit s a i tx refs t Hs Hi Ht Hlt) as (res & w1 & Heq' & Hres). rewrite Heq in Heq'. injection Heq' as -> -> ->.
    destruct res as [[]|f]; [|destruct Hres as [_ Hres]]; eexists; (split; [exact Hres|right]).
    + exists (Commits i). by apply val_commits.
    + exists (Leaves i). by apply (val_leaves _ _ _ t).
  - destruct (shows_running s a i tx refs Hs Hi) as [t Ht].
    destruct (shows_abort s a i tx refs Hs Hi) as (w1 & Heq' & _ & Hs'). rewrite Heq in Heq'. injection Heq' as -> -> ->.
    eexists. split; [exact Hs'|]. right. exists (Leaves i). by apply (val_leaves _ _ _ t).
Qed.

(** C3: refinement, by values: executions through the pointers in [sizes], a
    fixed set with one pointer for each object, are those of a store in which a
    transaction sees the values of the moment it began, works on copies of
    its own of objects that nobody else works on and that have not changed
    since it began, and puts all of its copies in place at once; what it has
    copies of is never changed by others before it ends.  With two copies of
    the pointer to one object this fails: each has its own versions, and the
    update through one of them is lost. *)
Theorem executions_refine_values s s' a : shows s a → rtc sys_step s s' →
  ∃ a', shows s' a' ∧ rtc (λ b b', ∃ x, val_step copied x b b') a a' ∧ val_inv a'.
Proof.
  intros Hs Hst. revert a Hs. induction Hst as [s|s s1 s2 Hst _ IH]; intros a Hs.
  - exists a. split_and!; [done|done|by apply (shows_inv s)].
  - destruct (shows_step s s1 a Hs Hst) as (a1 & Hs1 & Ha1). destruct (IH a1 Hs1) as (a2 & Hs2 & Hst2 & Hinv).
    exists a2. split_and!; [done| |done]. destruct Ha1 as [->|Hx]; [done|by eapply rtc_l].
Qed.
End Showing.
