(* ===== verification/Founding.v ===== *)
(** * Opening a heap for the first time

    [Librarius::new] on fresh memory: the heap it returns is a store with one
    object, the root, in the state the theorems about executions start from. *)
From S2P Require Import Prelude Utils Source SourceAllocator Slices Las Memory Pointer Vos.
From S2P Require Import Allocators Mapping Versions Objects Paging Tx Transactions Heap Runs Snapshot Arena Simulation.
From S2P Require Import Calls Isolation Clients Values Views Showing.

(** A store with one object of one version, nobody running. *)
Definition one_object (k : cell) (e : entry) (n : Z) : mvstore cell := mk_mvstore n {[ k := [e] ]} ∅.

Lemma one_object_lookup k e n k' es : mv_objects (one_object k e n) !! k' = Some es → k' = k ∧ es = [e].
Proof. unfold one_object. cbn [mv_objects]. by intros [<- <-]%lookup_singleton_Some. Qed.

Lemma one_object_entry k e n k' e' : has_entry (one_object k e n) k' e' → k' = k ∧ e' = e.
Proof. by intros (es & [-> ->]%one_object_lookup & ->%list_elem_of_singleton). Qed.

Lemma one_object_inv k e n : 0 < en_version e ≤ n → mv_inv (one_object k e n).
Proof.
  intros Hv. split; try done.
  - intros k' es [-> ->]%one_object_lookup. left. split; [by constructor|]. repeat constructor.
  - simpl. lia.
  - intros k' e' es [-> [= -> ->]]%one_object_lookup. lia.
Qed.

Section Founding.
Context `{T : Target} `{TOk : !TargetOk T} `{C : Crc} {D : Type} `{Src : !Source D} `{Laws : !SourceLaws D}.
Implicit Types (las : LogicalAddressSpace D) (w : World D).

(** ** Volatile memory has no backing *)
Record volatile las : Prop := {
  vl_inv : las_inv las;
  vl_sources b sa : las_get las b = Some sa → SourceAllocator_is_persistent sa = false;
  vl_backing : las_backing las = ∅
}.

Lemma volatile_put b off data las : byte_source las b → is_Some (mem las b off (blen data)) → volatile las → volatile (put b off data las).
Proof.
  intros Hb Hm [V1 V2 V3]. split; [by apply put_inv| |].
  - intros b' sa Hg. destruct (las_shape_get (put b off data las) las b' sa) as (sa' & Hg' & Hf & _); [by rewrite las_shape_put|done|].
    unfold SourceAllocator_is_persistent. specialize (V2 b' sa' Hg'). unfold SourceAllocator_is_persistent in V2.
    unfold source_flags in Hf. congruence.
  - unfold put. by destruct (las_get las b).
Qed.

Lemma volatile_flush las a len b : volatile las → byte_range las a len b →
  LogicalAddressSpace_flush (mk_ByteLogicalSlice (LogicalSlice_new a len)) las = (Err NoAvailableMemory, las).
Proof.
  intros [V1 V2 V3] Hr. destruct (br_source _ _ _ _ Hr) as (sa & Hg & _). unfold LogicalAddressSpace_flush.
  rewrite (flush_unfold las a len b sa), (V2 b sa Hg), V3, lookup_empty by done.
  assert (LogicalAddressSpace_allocate_backing (page_key las a) las = (Err NoAvailableMemory, las)) as Hb; [|by step Hb].
  rewrite allocate_backing_eq by (done || by rewrite V3).
  destruct (backing_page las) as [[[[d sd] page] rest]|] eqn:E; [|done].
  destruct (backing_page_get las d sd page rest V1 E) as (Hgd & Hp & _). by rewrite (V2 d sd Hgd) in Hp.
Qed.

Lemma volatile_get_backing las a len b : volatile las → byte_range las a len b →
  LogicalAddressSpace_get_backing (mk_ByteLogicalSlice (LogicalSlice_new a len)) las = (Ok None, las).
Proof.
  intros [V1 V2 V3] Hr. destruct (br_source _ _ _ _ Hr) as (sa & Hg & _).
  by rewrite (get_backing_unfold las a len b sa), (V2 b sa Hg), V3, lookup_empty by done.
Qed.

(** The pointer to an object on volatile memory cannot be flushed. *)
Lemma flush_pointer_volatile las p ptr len b : volatile las → cell_holds las p ptr → 0 < ptr < 2 ^ 54 → 0 < len →
  byte_range las ptr len b → VersionedReader_flush_pointer p las = (Err NoAvailableMemory, las).
Proof.
  intros Hv Hp Hptr Hlen Hr. unfold VersionedReader_flush_pointer, UntypedPointer_internal_clone. step (cell_load_ok las p ptr Hp).
  destruct (byte_pointer ptr ltac:(lia)) as [Ha Hb].
  assert (UntypedPointer_is_some ptr = true) as ->.
  { unfold UntypedPointer_is_some. rewrite Ha. apply bool_decide_eq_true. lia. }
  rewrite Hb. cbn [andb]. unfold UntypedPointer_into_stored_slice. rewrite Ha, Hb.
  rewrite (bind_ok _ _ _ (mk_ByteLogicalSlice (LogicalSlice_new ptr 1)) las) by done.
  assert (byte_range las ptr 1 b) as Hr1.
  { rewrite <- (Z.add_0_r ptr). apply (byte_range_sub las ptr len); [apply Hv|done|lia..]. }
  step (volatile_get_backing las ptr 1 b Hv Hr1).
  pose proof (volatile_flush las ptr 1 b Hv Hr1) as Hf. unfold get_or_insert_with_result.
  rewrite (bind_fail _ _ _ (Throw NoAvailableMemory) las); [done|].
  rewrite (bind_fail _ _ _ (Throw NoAvailableMemory) las); [done|]. by step Hf.
Qed.

(** An object whose first pointer is to volatile memory cannot be flushed. *)
Lemma flush_volatile las a b ptr size version other len b' : volatile las → 0 ≤ a → a + size_of_ObjectHeader < 2 ^ 54 →
  byte_range las a (size_of_ObjectHeader + size_of_usize) b → size = ObjectSize_new 8 0 →
  mem las b (a - b) size_of_ObjectHeader = Some (ObjectHeader_bytes (ObjectHeader_new size version other)) →
  cell_holds las (InMemory b (a - b + size_of_ObjectHeader)) ptr → 0 < ptr < 2 ^ 54 → 0 < len → byte_range las ptr len b' →
  VersionedReader_flush (OnStack (a + size_of_ObjectHeader)) las = (Err NoAvailableMemory, las).
Proof.
  intros Hv Ha Hlt Hr -> Hhdr Hcell Hptr Hlen Hr'. pose proof (vl_inv _ Hv) as Hinv. pose proof (inv_wf _ Hinv) as Hwf.
  unfold VersionedReader_flush. rewrite (bind_ok _ _ _ (a + size_of_ObjectHeader) las) by done.
  destruct (byte_pointer (a + size_of_ObjectHeader) ltac:(usize)) as [Had Hby].
  unfold UntypedPointer_into_stored_slice_offset. rewrite Had, Hby, usize_sub_ok by usize. cbn [mbind outcome_bind].
  rewrite usize_add_ok by usize. cbn [mbind outcome_bind]. replace (a + size_of_ObjectHeader - size_of_ObjectHeader) with a by lia.
  rewrite (bind_ok _ _ _ (Byte (mk_ByteLogicalSlice (LogicalSlice_new a size_of_ObjectHeader))) las) by done. cbv beta iota.
  assert (byte_range las a size_of_ObjectHeader b) as Hr0.
  { rewrite <- (Z.add_0_r a). apply (byte_range_sub las a (size_of_ObjectHeader + size_of_usize)); [done|done|usize..]. }
  step (LogicalAddressSpace_read_ok las a size_of_ObjectHeader b Hwf Hr0).
  pose proof (cell_holds_aligned _ _ _ _ Hcell) as Hal.
  assert (aligned 8 (a - b)) as Hal0.
  { replace (a - b) with (a - b + size_of_ObjectHeader - size_of_ObjectHeader) by lia. apply aligned_sub; [done|done|apply aligned_header]. }
  rewrite any_from_slice_mut_ok by done. rewrite (bind_ok _ _ _ (mk_memref b (a - b) size_of_ObjectHeader) las) by done.
  rewrite (bind_ok _ _ _ (oh_size (ObjectHeader_decode (ObjectHeader_bytes (ObjectHeader_new (ObjectSize_new 8 0) version other)))) las).
  2:{ unfold header_size. cbn [mr_source mr_off]. by step (las_load_ok las b (a - b) size_of_ObjectHeader _ Hhdr). }
  rewrite (ObjectHeader_pointers_decode (ObjectHeader_new (ObjectSize_new 8 0) version other)) by (unfold is_u32; simpl; done).
  cbn [ObjectHeader_new oh_size os_pointers]. unfold UntypedPointer_into_stored_slice. rewrite Had, Hby.
  rewrite (bind_ok _ _ _ (mk_ByteLogicalSlice (LogicalSlice_new (a + size_of_ObjectHeader) 8)) las) by done.
  assert (byte_range las (a + size_of_ObjectHeader) 8 b) as Hr1.
  { apply (byte_range_sub las a (size_of_ObjectHeader + size_of_usize)); [done|done|usize..]. }
  step (LogicalAddressSpace_read_ok las _ 8 b Hwf Hr1).
  rewrite any_from_slice_mut_ok by (by cbn [mr_off]; replace (a + size_of_ObjectHeader - b) with (a - b + size_of_ObjectHeader) by lia).
  rewrite (bind_ok _ _ _ (mk_memref b (a + size_of_ObjectHeader - b) 8) las) by done.
  change (seqZ 0 (8 / size_of_usize)) with [0]. cbn [for_each]. unfold memref_cell. cbn [mr_source mr_off].
  replace (a + size_of_ObjectHeader - b + (size_of_usize * 0)) with (a - b + size_of_ObjectHeader) by lia.
  rewrite (bind_fail _ _ _ (Throw NoAvailableMemory) las); [done|].
  by step (flush_pointer_volatile las _ ptr len b' Hv Hcell Hptr Hlen Hr').
Qed.

(** ** A heap with one object *)
Record root_object las (root : cell) (size : ObjectSize) (total : Z) e : Prop := {
  ro_inv : las_inv las;
  ro_root : ∃ b off, root = InMemory b off ∧ byte_source las b ∧ (∀ o, off ≤ o < off + size_of_usize → ¬ free_mem las b o) ∧
    (b ≠ en_base e ∨ apart (off, size_of_usize) (mr_off (en_header e), total + size_of_ObjectHeader));
  ro_total : ObjectSize_total size = Ok total ∧ 0 < total ∧ aligned 8 total;
  ro_home : en_home e = en_version_cell e;
  ro_version : en_version e = 1;
  ro_address : size_of_ObjectHeader ≤ en_address e < 2 ^ 54;
  ro_range : byte_range las (en_address e - size_of_ObjectHeader) (total + size_of_ObjectHeader) (en_base e);
  ro_taken o : mr_off (en_header e) ≤ o < mr_off (en_header e) + (total + size_of_ObjectHeader) → ¬ free_mem las (en_base e) o;
  ro_pointer : cell_holds las root (en_address e);
  ro_number : cell_holds las (en_version_cell e) 1;
  ro_other : cell_holds las (en_other_cell e) 0
}.

Section One.
Context las (root : cell) (size : ObjectSize) (total : Z) e (Hro : root_object las root size total e).
Abbreviation sizes := ({[ root := size ]} : gmap cell ObjectSize).
Abbreviation heap := (mk_system (mk_World las 1) ∅).
Abbreviation store := (one_object root e 1).

Lemma one_total : total_at sizes root = total.
Proof. unfold total_at. rewrite lookup_singleton_eq. simpl. by rewrite (proj1 (ro_total _ _ _ _ _ Hro)). Qed.

Lemma one_owns p x : owns sizes heap store p x →
  p = ForPointer root ∧ x = cell_span root ∨ p = ForHeader ∧ (x = cell_span (en_version_cell e) ∨ x = cell_span (en_other_cell e)) ∨
  p = ForNumber (en_version_cell e) ∧ x = cell_span (en_version_cell e) ∨
  p = ForData (en_home e) root ∧ x = ref_span (en_data total e).
Proof.
  intros Ho. destruct Ho as [k [sz Hk]|k e' He|k e' He|k e' He|i r home Hi|k e' He|i tx refs r home d Hi]; [| | | |discriminate| |discriminate].
  - apply lookup_singleton_Some in Hk as [<- _]. by left.
  - apply one_object_entry in He as [-> ->]. right; left; split; [done|by left].
  - apply one_object_entry in He as [-> ->]. right; left; split; [done|by right].
  - apply one_object_entry in He as [-> ->]. rewrite (ro_home _ _ _ _ _ Hro). by right; right; left.
  - apply one_object_entry in He as [-> ->]. right; right; right. by rewrite one_total.
Qed.

(** The words and the bytes of the object. *)
Lemma one_places : ∃ b off, root = InMemory b off ∧
  let lo := mr_off (en_header e) in
  (b ≠ en_base e ∨ apart (off, size_of_usize) (lo, total + size_of_ObjectHeader)) ∧
  cell_span (en_version_cell e) = mk_span (en_base e) (lo + off_version) size_of_usize ∧
  cell_span (en_other_cell e) = mk_span (en_base e) (lo + off_other) size_of_usize ∧
  ref_span (en_data total e) = mk_span (en_base e) (lo + size_of_ObjectHeader) total ∧
  0 ≤ off_version ∧ off_version + 8 ≤ size_of_ObjectHeader ∧ 0 ≤ off_other ∧ off_other + 8 ≤ size_of_ObjectHeader ∧ 0 < total.
Proof.
  destruct (ro_root _ _ _ _ _ Hro) as (b & off & Hr & _ & _ & Hap). exists b, off. pose proof header_packed as P. packed_facts P.
  destruct (ro_total _ _ _ _ _ Hro) as (_ & Ht & _). cbv zeta. split_and!; try done; usize.
Qed.

Lemma one_layout : layout (owns sizes heap store).
Proof.
  destruct one_places as (b & off & Hroot & Hap & Hv & Ho & Hd & ? & ? & ? & ? & ?).
  assert (cell_span root = mk_span b off size_of_usize) as Hrs by by rewrite Hroot.
  intros p q x y Hx%one_owns Hy%one_owns. rewrite Hv, Ho, Hd, Hrs in *. unfold size_of_usize, size_of_ObjectHeader in *.
  destruct Hx as [[-> ->]|[[-> [->| ->]]|[[-> ->]|[-> ->]]]], Hy as [[-> ->]|[[-> [->| ->]]|[[-> ->]|[-> ->]]]];
    first [exact I|left; reflexivity|left; split; reflexivity
      |unfold separate, spans_apart, apart in *; cbn [fst snd sp_len sp_off sp_base] in *; lia].
Qed.

Lemma one_taken p x : owns sizes heap store p x → span_taken heap x.
Proof.
  destruct one_places as (b & off & Hroot & Hap & Hv & Ho & Hd & ? & ? & ? & ? & ?).
  destruct (ro_root _ _ _ _ _ Hro) as (b' & off' & Hroot' & _ & Hfree & _). rewrite Hroot in Hroot'. injection Hroot' as <- <-.
  assert (∀ o n, 0 ≤ o → o + n ≤ total + size_of_ObjectHeader → taken heap (en_base e) (mr_off (en_header e) + o) n) as Hin.
  { intros o n Hlo Hhi o' Ho'. split; [|done]. apply (ro_taken _ _ _ _ _ Hro). lia. }
  assert (cell_span root = mk_span b off size_of_usize) as Hrs by by rewrite Hroot.
  intros Hx%one_owns. rewrite Hv, Ho, Hd, Hrs in Hx. unfold size_of_usize, size_of_ObjectHeader in *.
  destruct Hx as [[_ ->]|[[_ [->| ->]]|[[_ ->]|[_ ->]]]]; unfold span_taken; cbn [sp_base sp_off sp_len]; [|apply Hin; lia..].
  intros o Hr. split; [|done]. by apply Hfree.
Qed.

Lemma one_represents : represents sizes heap store.
Proof.
  pose proof (ro_address _ _ _ _ _ Hro) as Haddr. pose proof (ro_inv _ _ _ _ _ Hro) as Hinv.
  destruct (byte_pointer (en_address e) ltac:(usize)) as [Ha Hb].
  assert (UntypedPointer_is_some (en_address e) = true) as Hsome.
  { unfold UntypedPointer_is_some. rewrite Ha. apply bool_decide_eq_true. usize. }
  split; try done.
  - apply one_object_inv. rewrite (ro_version _ _ _ _ _ Hro). lia.
  - intros k sz Hk. apply lookup_singleton_Some in Hk as [_ <-]. exists total. split; apply (ro_total _ _ _ _ _ Hro).
  - intros k. unfold one_object. cbn [mv_objects]. rewrite !lookup_singleton_is_Some. done.
  - intros k es Hk. apply one_object_lookup in Hk as [-> ->]. rewrite one_total. split.
    + destruct (ro_root _ _ _ _ _ Hro) as (b & off & -> & Hs & _). split; [by exists b, off|done].
    + apply (ro_total _ _ _ _ _ Hro).
    + done.
    + exists (en_address e). split; [apply (ro_pointer _ _ _ _ _ Hro)|]. split; [done|].
      apply (chain_object _ _ _ e 0); try done; [apply Haddr|apply (ro_range _ _ _ _ _ Hro)| |apply (ro_other _ _ _ _ _ Hro)|by apply chain_none].
      rewrite (ro_home _ _ _ _ _ Hro), (ro_version _ _ _ _ _ Hro). apply version_direct; [apply (ro_number _ _ _ _ _ Hro)|done].
  - intros i. split; intros [x Hx]; discriminate.
  - exact one_layout.
  - exact one_taken.
Qed.

(** What a transaction finds in the object. *)
Lemma one_finds init : mem las (en_base e) (mr_off (en_data total e)) total = Some init →
  finds sizes heap root root size (en_data total e) init.
Proof.
  intros Hm. split; [|exact Hm|].
  - pose proof (new_read_eventually sizes heap store root root size [e] one_represents) as Hev.
    rewrite lookup_singleton_eq in Hev. specialize (Hev eq_refl (lookup_singleton_eq _ _)). rewrite one_total in Hev.
    cbn [snapshot_read] in Hev. assert (visible (mv_counter store) e = true) as Hvis.
    { apply visible_true. rewrite (ro_version _ _ _ _ _ Hro). by split. }
    cbn [one_object mv_counter] in *. by rewrite Hvis in Hev.
  - intros o Hr. rewrite pointer_byte_spec. intros (p & [sz Hk] & Hp).
    destruct one_places as (b & off & Hroot & Hap & _ & _ & Hd & ? & ? & ? & ? & ?).
    apply lookup_singleton_Some in Hk as [Hk _]. rewrite Hroot in Hk. injection Hk as -> ->.
    destruct Hap as [?|Hap]; [done|]. unfold apart, size_of_usize, size_of_ObjectHeader in *. cbn [fst snd mr_len en_data en_header mr_source mr_off] in *. usize.
Qed.
End One.

(** ** Making the root object *)

(** What page allocation leaves alone. *)
Definition same_tables las las' : Prop := las_root_bytes las' = las_root_bytes las ∧ las_backing las' = las_backing las.

#[local] Instance same_tables_preorder : PreOrder same_tables.
Proof. split; [done|]. intros x y z [H1 H2] [H3 H4]. split; congruence. Qed.

Lemma same_tables_on_allocator {A} b (m : M (SourceAllocator D) A) : evolves same_tables (on_allocator b m).
Proof. intros las. unfold on_allocator. destruct (btree_get b (las_sources las)) as [sa|]; [|done]. by destruct (m sa). Qed.
#[local] Hint Resolve same_tables_on_allocator : evolves.

Lemma same_tables_alloc : evolves same_tables (LogicalAddressSpace_alloc (D := D)).
Proof. unfold LogicalAddressSpace_alloc. evolves_solve. Qed.

Definition same_tables_2 (s s' : GenericAllocator * LogicalAddressSpace D) : Prop := same_tables s.2 s'.2.
#[local] Instance same_tables_2_preorder : PreOrder same_tables_2.
Proof. split; [by intros [? ?]|]. intros x y z Hx Hy. unfold same_tables_2 in *. by etrans. Qed.

Lemma same_tables_on_las {A} (m : M (LogicalAddressSpace D) A) : evolves same_tables m → evolves same_tables_2 (on_las m).
Proof. intros Hm [ga las]. specialize (Hm las). unfold same_tables_2, on_las, zoom. cbn [snd]. by destruct (m las). Qed.

Lemma same_tables_object_alloc size version other : evolves same_tables_2 (TransactionalObjectAllocator_alloc (D := D) size version other).
Proof.
  assert (∀ active, evolves same_tables_2 (set_active (D := D) active)) as Hset by done.
  assert (∀ fuel full len, evolves same_tables_2 (GenericAllocator_alloc_loop (D := D) fuel full len)) as Hloop.
  { intros fuel. induction fuel as [|fuel IH]; intros full len; cbn [GenericAllocator_alloc_loop]; [apply evolves_fail; apply _|].
    pose proof (same_tables_on_las _ same_tables_alloc). evolves_solve. }
  assert (∀ data, evolves same_tables (TransactionalObjectAllocator_init_object (D := D) data size version other)) as Hinit.
  { intros data. unfold TransactionalObjectAllocator_init_object, store_memref, las_store. evolves_solve. }
  pose proof (λ data, same_tables_on_las _ (Hinit data)). unfold TransactionalObjectAllocator_alloc, GenericAllocator_alloc. evolves_solve.
Qed.

Lemma mem_zeros_part las b off n o k : mem las b off n = Some (zeros n) → in_range o k n → mem las b (off + o) k = Some (zeros k).
Proof.
  intros (sa & Hg & Hr & Hz)%mem_Some Hk. apply mem_Some. exists sa. split; [done|]. split; [usize|].
  rewrite <- (slice_slice o k off n) by (done || usize). rewrite <- Hz. unfold zeros, slice. rewrite drop_replicate, take_replicate.
  f_equal. usize.
Qed.

Lemma apart_by_points lo n lo' n' : 0 < n → 0 < n' → (∀ o, lo ≤ o < lo + n → ¬ lo' ≤ o < lo' + n') → apart (lo, n) (lo', n').
Proof. intros Hn Hn' Ho. unfold apart. cbn [fst snd]. specialize (Ho (Z.max lo lo')). lia. Qed.

(** A heap whose root place, at [a] of the source at [b], is unused. *)
Record root_unused las (a b : Z) : Prop := {
  ru_volatile : volatile las;
  ru_location : las_root_bytes las = mk_ByteLogicalSlice (LogicalSlice_new a ROOT_SIZE);
  ru_range : byte_range las a ROOT_SIZE b;
  ru_zeros : mem las b (a - b) ROOT_SIZE = Some (zeros ROOT_SIZE);
  ru_aligned : aligned 8 (a - b);
  ru_taken o : a - b ≤ o < a - b + ROOT_SIZE → ¬ free_mem las b o
}.

(** The cell of the pointer to the root object. *)
Definition root_cell (a b : Z) : cell := InMemory b (a - b + size_of_ObjectHeader).

Lemma root_cell_aligned a b : aligned 8 (a - b) → aligned 8 (a - b + size_of_ObjectHeader).
Proof. intros Ha. apply aligned_add; [done|done|apply aligned_header]. Qed.

Lemma root_read_ok las v a b : las_inv las → aligned 8 (a - b) → las_root_bytes las = mk_ByteLogicalSlice (LogicalSlice_new a ROOT_SIZE) →
  byte_range las a ROOT_SIZE b → Librarius_root_read (mk_World las v) = (Ok (root_cell a b), mk_World las v).
Proof.
  intros Hinv Hal Hl Hr. unfold Librarius_root_read. rewrite (bind_ok _ _ _ (las_root_bytes las) (mk_World las v)) by done.
  rewrite Hl. rewrite (bind_ok _ _ _ (mk_memref b (a - b) ROOT_SIZE) (mk_World las v)).
  2:{ unfold on_world_las, zoom. cbn [w_las]. by rewrite (LogicalAddressSpace_read_ok las a ROOT_SIZE b (inv_wf _ Hinv) Hr). }
  unfold memref_split_at. cbn [mr_len mr_source mr_off]. rewrite decide_True by (unfold ROOT_SIZE; usize).
  rewrite (bind_ok _ _ _ (mk_memref b (a - b) size_of_ObjectHeader, mk_memref b (a - b + size_of_ObjectHeader) (ROOT_SIZE - size_of_ObjectHeader)) (mk_World las v)) by done.
  cbv beta iota. rewrite any_from_slice_mut_ok by (apply root_cell_aligned || (cbn; unfold ROOT_SIZE; usize); done).
  unfold memref_cell, root_cell. cbn [mr_source mr_off]. rewrite (bind_ok _ _ _ (mk_memref b (a - b + size_of_ObjectHeader) (ROOT_SIZE - size_of_ObjectHeader)) (mk_World las v)) by done.
  cbn [mr_source mr_off]. by rewrite Z.add_0_r.
Qed.

Lemma on_las_heap {A} (m : M (LogicalAddressSpace D) A) las v o las' : m las = (o, las') →
  on_world_las m (mk_World las v) = (o, mk_World las' v).
Proof. intros E. unfold on_world_las, zoom. cbn [w_las]. by rewrite E. Qed.

(** The header at the root place, and the pointer behind it. *)
Definition root_header : list byte := ObjectHeader_bytes (ObjectHeader_new (ObjectSize_new 8 0) Version_new_base UntypedPointer_new_none).

Lemma root_initialized las a b : root_unused las a b →
  let las1 := put b (a - b) root_header las in
  TransactionalObjectAllocator_init_object (mk_memref b (a - b) ROOT_SIZE) (ObjectSize_new 8 0) Version_new_base UntypedPointer_new_none las =
    (Ok (mk_memref b (a - b + size_of_ObjectHeader) (ROOT_SIZE - size_of_ObjectHeader)), las1) ∧
  volatile las1 ∧ las_shape las1 = las_shape las ∧ same_tables las las1 ∧ cell_holds las1 (root_cell a b) 0 ∧
  mem las1 b (a - b) size_of_ObjectHeader = Some root_header ∧ byte_source las1 b.
Proof.
  intros [Hvol Hl Hr Hz Hal Ht] las1. pose proof (inv_wf _ (vl_inv _ Hvol)) as Hwf.
  destruct (init_object_ok las a (ROOT_SIZE - size_of_ObjectHeader) b (ObjectSize_new 8 0) Version_new_base UntypedPointer_new_none Hwf)
    as (Hi & Hb & Hm & _); [by replace (ROOT_SIZE - size_of_ObjectHeader + size_of_ObjectHeader) with ROOT_SIZE by lia|unfold ROOT_SIZE; usize|done|done|done|].
  assert (blen root_header = size_of_ObjectHeader) as Hlen by apply blen_ObjectHeader. fold root_header in Hi, Hm.
  assert (las_shape las1 = las_shape las) as Hs by by apply las_shape_put.
  split_and!; try done.
  - by apply volatile_put.
  - split; unfold las1, put; by destruct (las_get las b).
  - unfold root_cell, las1. split_and!; [|done|by apply root_cell_aligned]. rewrite mem_put_apart; [|done|done|right; unfold apart; cbn [fst snd]; usize].
    rewrite (mem_zeros_part las b (a - b) ROOT_SIZE size_of_ObjectHeader size_of_usize Hz) by (unfold ROOT_SIZE; usize). reflexivity.
  - rewrite <- Hlen. exact (mem_put_same las b (a - b) root_header Hb Hm).
  - by apply (byte_source_shape las).
Qed.

(** The root object, made and filled. *)
Lemma root_allocated las las' a b size total ptr userdata ga : root_unused las a b →
  ObjectSize_total size = Ok total → 0 < total → aligned 8 total →
  object_alloc (put b (a - b) root_header las) GenericAllocator_new las' ga total Version_new_base UntypedPointer_new_none ptr userdata →
  ∀ init, blen init = total →
  let las2 := put (mr_source userdata) (mr_off userdata) init las' in
  let e := mk_entry (mr_source userdata) ptr (InMemory (mr_source userdata) (ptr - size_of_ObjectHeader - mr_source userdata + off_version)) 1 in
  store_memref userdata init las' = (Ok tt, las2) ∧ cell_holds las2 (root_cell a b) 0 ∧ byte_source las2 b ∧
  mem las2 b (a - b) size_of_ObjectHeader = Some root_header ∧
  las_shape las2 = las_shape las ∧ las_inv las2 ∧
  root_object (cell_put (root_cell a b) ptr las2) (root_cell a b) size total e ∧
  mem (cell_put (root_cell a b) ptr las2) (mr_source userdata) (mr_off userdata) total = Some init.
Proof.
  intros Hru Hsize Ht Halt Hoa init Hlen las2 e. pose proof (root_initialized las a b Hru) as (_ & Hv1 & Hs1 & _ & Hc1 & Hh1 & Hb1).
  set (las1 := put b (a - b) root_header las) in *. destruct Hru as [Hvol Hl Hr Hz Hal Htk].
  destruct Hoa as [[T1 T2 T3 T4 T5 T6 T7] [Hlo Hhi] Hrange Hdata Hver Hoth]. destruct userdata as [bd lo' n'].
  cbn [mr_source mr_off mr_len] in *. injection Hdata as -> ->. set (lo := ptr - size_of_ObjectHeader - bd) in *.
  pose proof header_packed as P. packed_facts P.
  assert (∀ b' o, free_mem las' b' o → free_mem las b' o) as Hfree by (intros b' o Hf; by apply T4, put_free_mem in Hf).
  assert (b ≠ bd ∨ apart (a - b, ROOT_SIZE) (lo, total + size_of_ObjectHeader)) as Hap.
  { destruct (decide (b = bd)) as [Hb|]; [right|by left]. apply apart_by_points; [done|usize|]. intros o Ho Ho'.
    destruct (T7 o Ho') as [[(m & ? & _)|Hf] _]; [done|]. apply (Htk o Ho). rewrite Hb. by apply put_free_mem in Hf. }
  assert (∀ o n, a - b ≤ o → o + n ≤ a - b + ROOT_SIZE → b ≠ bd ∨ apart (o, n) (lo, total + size_of_ObjectHeader)) as Hroot.
  { intros o n Ho Hn. destruct Hap as [|Hap]; [by left|right]. unfold apart in *. cbn [fst snd] in *. lia. }
  destruct (byte_range_mem las' _ _ bd (inv_wf _ T1) Hrange) as [Hbd Hmem]. fold lo in Hmem.
  assert (is_Some (mem las' bd (lo + size_of_ObjectHeader) (blen init))) as Hm by (apply Hmem; usize).
  assert (∀ o n, a - b ≤ o → o + n ≤ a - b + ROOT_SIZE → 0 ≤ n → mem las2 b o n = mem las1 b o n) as Hkeep.
  { intros o n Ho Hn Hn0. unfold las2. rewrite mem_put_apart; [by apply T6, Hroot|done|done|].
    destruct (Hroot o n Ho Hn) as [|Hx]; [by left|right]. unfold apart in *. cbn [fst snd] in *. usize. }
  assert (las_shape las2 = las_shape las') as Hs2 by by apply las_shape_put.
  assert (cell_holds las2 (root_cell a b) 0) as Hc2.
  { destruct Hc1 as (Hc1 & Hu1 & Ha1). split_and!; [|done..]. rewrite Hkeep; [done|usize|unfold ROOT_SIZE; usize|usize]. }
  assert (byte_source las2 b) as Hb2 by (apply (byte_source_shape las1); [by rewrite Hs2, T3|done]).
  assert (las_inv las2) as Hi2 by by apply put_inv.
  pose proof Hc2 as [Hc2m _].
  assert (is_Some (mem las2 b (a - b + size_of_ObjectHeader) (blen (u64_bytes ptr)))) as Hm3 by (rewrite blen_u64; eauto).
  assert (∀ o n, lo ≤ o → o + n ≤ lo + (total + size_of_ObjectHeader) → mem (cell_put (root_cell a b) ptr las2) bd o n = mem las2 bd o n) as Hkeep3.
  { intros o n Ho Hn. cbn [cell_put root_cell]. rewrite mem_put_apart; [done|done|done|]. rewrite blen_u64.
    destruct (Hroot (a - b + size_of_ObjectHeader) 8) as [Hx|Hx]; [usize|unfold ROOT_SIZE; usize|left; congruence|right].
    unfold apart in *. cbn [fst snd] in *. lia. }
  assert (∀ o v, 0 ≤ o → o + 8 ≤ size_of_ObjectHeader → cell_holds las' (InMemory bd (lo + o)) v → cell_holds (cell_put (root_cell a b) ptr las2) (InMemory bd (lo + o)) v) as Hword.
  { intros o v Ho Hn (Hv & Hu & Hva). split_and!; [|done..]. rewrite Hkeep3 by usize. unfold las2. rewrite mem_put_apart; [done|done|done|].
    right. unfold apart. cbn [fst snd]. usize. }
  split_and!; try done.
  - unfold store_memref. cbn [mr_source mr_off mr_len]. rewrite bool_decide_true, (bind_ok _ _ _ tt las') by done.
    by apply las_store_ok.
  - rewrite Hkeep; [done|lia|unfold ROOT_SIZE; usize|usize].
  - by rewrite Hs2, T3.
  - assert (las_shape (cell_put (root_cell a b) ptr las2) = las_shape las2) as Hs3 by (by apply las_shape_put).
    split; try done.
    + by apply put_inv.
    + exists b, (a - b + size_of_ObjectHeader). split_and!; [done|by apply (byte_source_shape las2)| |].
      * intros o Ho Hf. apply put_free_mem, put_free_mem, Hfree in Hf. apply (Htk o); [unfold ROOT_SIZE; usize|done].
      * apply Hroot; [usize|unfold ROOT_SIZE; usize].
    + apply (byte_range_shape las2); [done|]. by apply (byte_range_shape las').
    + intros o Ho Hf. apply put_free_mem, put_free_mem in Hf. destruct (T7 o Ho) as [_ Hno]. apply Hno. by right.
    + apply cell_put_holds with 0; [done|done|change (is_usize ptr); usize].
    + apply (Hword off_version); [usize|usize|done].
    + apply (Hword off_other); [usize|usize|done].
  - rewrite Hkeep3 by usize. unfold las2. rewrite <- Hlen. by apply mem_put_same.
Qed.

Lemma volatile_shape las las' : las_shape las' = las_shape las → las_backing las' = las_backing las → las_inv las' → volatile las → volatile las'.
Proof.
  intros Hs Hb Hi [V1 V2 V3]. split; [done| |congruence]. intros b sa Hg.
  destruct (las_shape_get las' las b sa) as (sa' & Hg' & Hf & _); [done..|]. specialize (V2 b sa' Hg').
  unfold SourceAllocator_is_persistent, source_flags in *. congruence.
Qed.

(** The pointer to it, and the flush that has nowhere to go. *)
Lemma root_linked las a b ptr len bd : volatile las → las_root_bytes las = mk_ByteLogicalSlice (LogicalSlice_new a ROOT_SIZE) →
  aligned 8 (a - b) →
  0 ≤ a → a + size_of_ObjectHeader < 2 ^ 54 → byte_range las a ROOT_SIZE b → cell_holds las (root_cell a b) 0 → byte_source las b →
  mem las b (a - b) size_of_ObjectHeader = Some root_header → 0 < ptr < 2 ^ 54 → 0 < len → byte_range las ptr len bd →
  ('(result, _) ← on_world_las (UntypedPointer_compare_and_swap (root_cell a b) UntypedPointer_new_none ptr);
   assert result ;; attempt (on_world_las (VersionedReader_flush (OnStack (a + size_of_ObjectHeader)))) ;; Librarius_root_read)
    (mk_World las 1) = (Ok (root_cell a b), mk_World (cell_put (root_cell a b) ptr las) 1).
Proof.
  intros Hv Hl Hal Ha0 Ha Hr Hc Hb Hh Hptr Hlen Hrp. set (las3 := cell_put (root_cell a b) ptr las).
  assert (is_Some (mem las b (a - b + size_of_ObjectHeader) (blen (u64_bytes ptr)))) as Hm by (destruct Hc as [Hc _]; rewrite blen_u64; eauto).
  assert (las_shape las3 = las_shape las) as Hs by by apply las_shape_put.
  assert (volatile las3) as Hv3 by by apply volatile_put.
  assert (UntypedPointer_compare_and_swap (root_cell a b) UntypedPointer_new_none ptr las = (Ok (true, root_cell a b), las3)) as Hcas.
  { rewrite (compare_and_swap_ok las (root_cell a b) 0 UntypedPointer_new_none ptr Hc). by rewrite decide_True. }
  rewrite (bind_ok _ _ _ _ _ (on_las_heap _ _ 1 _ _ Hcas)). cbv beta iota.
  rewrite (bind_ok _ _ _ tt (mk_World las3 1)) by done.
  assert (VersionedReader_flush (OnStack (a + size_of_ObjectHeader)) las3 = (Err NoAvailableMemory, las3)) as Hflush.
  { apply (flush_volatile las3 a b ptr (ObjectSize_new 8 0) Version_new_base UntypedPointer_new_none len bd); try done.
    - apply (byte_range_shape las); [done|]. rewrite <- (Z.add_0_r a).
      apply (byte_range_sub las a ROOT_SIZE); [apply Hv|done|unfold ROOT_SIZE; usize..].
    - fold root_header. rewrite <- Hh. unfold las3. cbn [cell_put root_cell]. rewrite mem_put_apart; [done|done|done|].
      right. rewrite blen_u64. unfold apart. cbn [fst snd]. usize.
    - apply cell_put_holds with 0; [done|done|usize].
    - by apply (byte_range_shape las). }
  rewrite (bind_ok _ _ _ (inr NoAvailableMemory) (mk_World las3 1)).
  2:{ apply attempt_err. exact (on_las_heap _ _ 1 _ _ Hflush). }
  apply root_read_ok; [apply Hv3|done| |by apply (byte_range_shape las)].
  unfold las3. cbn [cell_put root_cell]. unfold put. by destruct (las_get las b).
Qed.

(** What a constructor of the root object does: it fills the object's bytes,
    which are where a struct of words can be. *)
Definition fills (f : root_constructor D) (total : Z) (init : list byte) : Prop :=
  ∀ data w, mr_len data = total → aligned 8 (mr_off data) → f data w = on_world_las (store_memref data init) w.

Lemma fills_typed `{P : !Persistent A} (v : A) total : blen (persistent_bytes v) = total →
  persistent_size_of ≤ total → (persistent_align_of | 8) →
  fills (λ data, on_world_las (store_typed data v)) total (persistent_bytes v).
Proof.
  intros Hl Hs Ha data w Hd Hal. unfold on_world_las, zoom, store_memref, store_typed.
  rewrite bool_decide_true by congruence. rewrite any_from_slice_mut_ok; [done|lia|].
  destruct Ha as [k E]. intros Hon. specialize (Hal Hon). apply Z.mod_divide in Hal; [|done].
  destruct (decide (persistent_align_of = 0)) as [Hz|Hz]; [rewrite Hz in E; lia|].
  apply Z.mod_divide; [done|]. transitivity 8; [by exists k|done].
Qed.

(** [root_alloc] up to its constructor, which gets the root object to fill, and
    after it: the object is linked and flushed. *)
Definition root_link (a b : Z) (ptr : UntypedPointer) : M (World D) cell :=
  '(result, _) ← on_world_las (UntypedPointer_compare_and_swap (root_cell a b) UntypedPointer_new_none ptr);
  assert result ;; attempt (on_world_las (VersionedReader_flush (OnStack (a + size_of_ObjectHeader)))) ;; Librarius_root_read.

Lemma root_reached las a b size total f : root_unused las a b → 0 ≤ a → a + size_of_ObjectHeader < 2 ^ 54 →
  ObjectSize_total size = Ok total → 0 < total →
  let las1 := put b (a - b) root_header las in
  match TransactionalObjectAllocator_alloc size Version_new_base UntypedPointer_new_none (GenericAllocator_new, las1) with
  | (Ok (ptr, userdata), (ga, las2)) => same_tables las las2 ∧
      object_alloc las1 GenericAllocator_new las2 ga total Version_new_base UntypedPointer_new_none ptr userdata ∧
      Librarius_root_alloc size f (mk_World las 1) = (f userdata ;; root_link a b ptr) (mk_World las2 1)
  | (Fail x, _) => (Librarius_root_alloc size f (mk_World las 1)).1 = Fail x
  end.
Proof.
  intros Hru Ha0 Ha Hsize Ht. pose proof (ru_aligned _ _ _ Hru) as Hal8. pose proof (root_initialized las a b Hru) as (Hinit & Hv1 & Hs1 & Htab1 & Hc1 & Hh1 & Hb1).
  pose proof (vl_inv _ (ru_volatile _ _ _ Hru)) as Hinv.
  pose proof (ru_range _ _ _ Hru) as Hr. pose proof (ru_location _ _ _ Hru) as Hl.
  unfold Librarius_root_alloc. rewrite (bind_ok _ _ _ (las_root_bytes las) (mk_World las 1)), Hl by done.
  rewrite (bind_ok _ _ _ _ _ (root_read_ok las 1 a b Hinv Hal8 Hl Hr)).
  assert (cell_holds las (root_cell a b) 0) as Hc.
  { unfold root_cell. split_and!; [|done|by apply root_cell_aligned].
    rewrite (mem_zeros_part las b (a - b) ROOT_SIZE size_of_ObjectHeader size_of_usize (ru_zeros _ _ _ Hru)) by (unfold ROOT_SIZE; usize). reflexivity. }
  rewrite (bind_ok _ _ _ 0 (mk_World las 1)) by (apply on_las_heap, cell_load_ok, Hc).
  change (UntypedPointer_is_some 0) with false. cbv iota. cbn [byte_slice LogicalSlice_address ls_offset].
  rewrite usize_add_ok, (bind_ok _ _ _ (a + size_of_ObjectHeader) (mk_World las 1)) by (done || usize).
  rewrite UntypedPointer_new_byte_eq. cbv zeta.
  rewrite (bind_ok _ _ _ _ _ (on_las_heap _ _ 1 _ _ (LogicalAddressSpace_write_ok las a ROOT_SIZE b (inv_wf _ Hinv) Hr))).
  rewrite (bind_ok _ _ _ _ _ (on_las_heap _ _ 1 _ _ Hinit)).
  rewrite any_from_slice_mut_ok by (apply root_cell_aligned || (cbn; unfold ROOT_SIZE; usize); done).
  rewrite (bind_ok _ _ _ (mk_memref b (a - b + size_of_ObjectHeader) (ROOT_SIZE - size_of_ObjectHeader)) (mk_World (put b (a - b) root_header las) 1)) by done.
  set (las1 := put b (a - b) root_header las) in *.
  change (memref_cell (mk_memref b (a - b + size_of_ObjectHeader) (ROOT_SIZE - size_of_ObjectHeader)) 0)
    with (InMemory b (a - b + size_of_ObjectHeader + 0)). rewrite Z.add_0_r. fold (root_cell a b).
  destruct (object_alloc_ok las1 GenericAllocator_new size total Version_new_base UntypedPointer_new_none) as (o & ga & las2 & Hal & _ & Ho);
    [apply Hv1|apply ga_wf_new|apply ga_aligned_new|done..|].
  assert (on_world_las (λ las, let '(o, (_, las)) := TransactionalObjectAllocator_alloc_new size Version_new_base (VersionedObjectStore_new_object_allocator, las) in (o, las))
      (mk_World las1 1) = (o, mk_World las2 1)) as Hworld.
  { unfold on_world_las, zoom. cbn [w_las]. unfold TransactionalObjectAllocator_alloc_new, VersionedObjectStore_new_object_allocator, TransactionalObjectAllocator_new.
    by rewrite Hal. }
  rewrite Hal. destruct o as [[ptr userdata]|x]; [|by rewrite (bind_fail _ _ _ _ _ Hworld)].
  rewrite (bind_ok _ _ _ _ _ Hworld). split_and!; [|done|done].
  etrans; [exact Htab1|]. pose proof (same_tables_object_alloc size Version_new_base UntypedPointer_new_none (GenericAllocator_new, las1)) as Ht2.
  by rewrite Hal in Ht2.
Qed.

(** The root object is made unless its memory is refused. *)
Lemma root_founded las a b size total f init : root_unused las a b → 0 ≤ a → a + size_of_ObjectHeader < 2 ^ 54 →
  ObjectSize_total size = Ok total → 0 < total → aligned 8 total → blen init = total → fills f total init →
  match (TransactionalObjectAllocator_alloc size Version_new_base UntypedPointer_new_none
    (GenericAllocator_new, put b (a - b) root_header las)).1 with
  | Ok _ => ∃ las' e, Librarius_root_alloc size f (mk_World las 1) = (Ok (root_cell a b), mk_World las' 1) ∧
      root_object las' (root_cell a b) size total e ∧ mem las' (en_base e) (mr_off (en_data total e)) total = Some init
  | Fail x => (Librarius_root_alloc size f (mk_World las 1)).1 = Fail x
  end.
Proof.
  intros Hru Ha0 Ha Hsize Ht Halt Hlen Hfill. pose proof (root_reached las a b size total f Hru Ha0 Ha Hsize Ht) as Hreach.
  cbv zeta in Hreach. pose proof (ru_location _ _ _ Hru) as Hl.
  destruct (TransactionalObjectAllocator_alloc _ _ _ _) as [[[ptr userdata]|x] [ga las2]]; cbn [fst]; [|exact Hreach].
  destruct Hreach as (Htab2 & Ho & ->).
  destruct (root_allocated las las2 a b size total ptr userdata ga Hru Hsize Ht Halt Ho init Hlen) as (Hst & Hc2 & Hb2 & Hh2 & Hs2 & Hi2 & Hro & Hm2).
  set (las3 := put (mr_source userdata) (mr_off userdata) init las2) in *. pose proof (oa_data _ _ _ _ _ _ _ _ _ Ho) as Hd.
  rewrite (bind_ok _ _ _ tt (mk_World las3 1)) by (rewrite Hfill by (exact (object_alloc_aligned _ _ _ _ _ _ _ _ _ Ho) || by rewrite Hd); exact (on_las_heap _ _ 1 _ _ Hst)).
  assert (same_tables las las3) as [Ht3 Ht3'].
  { etrans; [exact Htab2|]. split; unfold las3, put; by destruct (las_get las2 (mr_source userdata)). }
  assert (volatile las3) as Hv3 by (apply (volatile_shape las); [done..|apply (ru_volatile _ _ _ Hru)]).
  pose proof (oa_ptr _ _ _ _ _ _ _ _ _ Ho) as Hptr.
  assert (byte_range las3 ptr total (mr_source userdata)) as Hrp.
  { replace ptr with (ptr - size_of_ObjectHeader + size_of_ObjectHeader) by lia.
    apply (byte_range_sub las3 _ (total + size_of_ObjectHeader)); [done| |usize..].
    apply (byte_range_shape (cell_put (root_cell a b) ptr las3)); [|apply (ro_range _ _ _ _ _ Hro)].
    symmetry. by apply las_shape_cell_put with 0. }
  unfold root_link. rewrite (root_linked las3 a b ptr total (mr_source userdata)); try done; [|by rewrite Ht3|apply Hru| |usize].
  - eexists _, _. split; [done|]. split; [exact Hro|]. rewrite Hd in Hm2 |- *. exact Hm2.
  - apply (byte_range_shape las); [done|apply Hru].
Qed.

(** A constructor that fails with an error. *)
Definition declines (f : root_constructor D) (total : Z) (error : Error) : Prop :=
  ∀ data w, mr_len data = total → aligned 8 (mr_off data) → (f data w).1 = Err error.

(** What comes of the constructor's error. *)
Lemma root_declined las a b size total f error : root_unused las a b → 0 ≤ a → a + size_of_ObjectHeader < 2 ^ 54 →
  ObjectSize_total size = Ok total → 0 < total → declines f total error →
  (Librarius_root_alloc size f (mk_World las 1)).1 =
    match (TransactionalObjectAllocator_alloc size Version_new_base UntypedPointer_new_none
      (GenericAllocator_new, put b (a - b) root_header las)).1 with
    | Ok _ => Err error
    | Fail x => Fail x
    end.
Proof.
  intros Hru Ha0 Ha Hsize Ht Hf. pose proof (root_reached las a b size total f Hru Ha0 Ha Hsize Ht) as Hreach. cbv zeta in Hreach.
  destruct (TransactionalObjectAllocator_alloc _ _ _ _) as [[[ptr userdata]|x] [ga las2]]; cbn [fst]; [|exact Hreach].
  destruct Hreach as (_ & Ho & ->). pose proof (oa_data _ _ _ _ _ _ _ _ _ Ho) as Hd.
  specialize (Hf userdata (mk_World las2 1) ltac:(by rewrite Hd) (object_alloc_aligned _ _ _ _ _ _ _ _ _ Ho)).
  destruct (f userdata (mk_World las2 1)) as [o w] eqn:E. cbn [fst] in Hf. subst o. by rewrite (bind_fail _ _ _ _ _ E).
Qed.

(** ** Opening *)

(** What [new] asks of its sources: memory that no heap was on. *)
Record fresh_memory (ps : Z) (sources : list D) : Prop := {
  fm_pagesize : is_pow2 ps ∧ size_of_SourceHeader ≤ ps ∧ size_of_Meta ≤ ps;
  fm_fresh : Forall (fresh ps) sources;
  fm_size : total_size sources < 2 ^ 54;
  fm_volatile : Forall (λ s, source_is_byte_addressable s = true ∧ source_is_persistent s = false) sources
}.

Lemma flags_kind (las : LogicalAddressSpace D) sources b sa : flags_of (las_sources las) = source_flags <$> sources →
  Forall (λ s, source_is_byte_addressable s = true ∧ source_is_persistent s = false) sources → las_get las b = Some sa →
  SourceAllocator_is_byte_addressable sa = true ∧ SourceAllocator_is_persistent sa = false.
Proof.
  intros Hf Hall Hg. pose proof (flags_volatile _ _ Hf Hall) as Hk. rewrite Forall_forall in Hk.
  apply (Hk (b, sa)), btree_get_elem_2, Hg.
Qed.

Lemma new_root_unused ps sources valid las : fresh_memory ps sources → LogicalAddressSpace_new ps sources valid true = Ok las →
  root_unused las (ps + off_meta_root) 0.
Proof.
  intros [(Hp2 & Hhd & Hmt) Hfr Hsz Hvol] Hnew. pose proof (is_pow2_range _ Hp2) as Hps.
  pose proof meta_packed as P. packed_facts P. assert (ROOT_SIZE = 64) as HRS by done.
  destruct (new_las_ok ps Hp2 Hhd Hmt sources valid las Hfr Hsz Hvol Hnew) as (Hinv & Hlp & Hbk & [b Hm] & Hf & Hrt).
  assert (∃ sa, las_get las 0 = Some sa ∧ mapped_source ps sa) as (sa & Hg & [M1 M2 M3 M4]).
  { destruct (mapped_head ps _ _ _ Hm) as [Hnil|(sa & l & Hl)].
    - exfalso. unfold LogicalAddressSpace_new in Hnew. revert Hnew.
      rewrite Hnil in Hf. destruct sources; [|done]. done.
    - exists sa. split; [unfold las_get; by rewrite Hl|]. apply (mapped_each ps Hp2 _ _ _ (0, sa) Hm). rewrite Hl. by left. }
  destruct (flags_kind las sources 0 sa Hf Hvol Hg) as [Hb _].
  destruct (whole_size_bounds ps Hp2 sa M3) as (_ & _ & Hw). unfold size_of in *.
  assert (2 * ps ≤ blen (source_bytes (sa_source sa)) / ps * ps) as Hw2.
  { apply Z.mul_le_mono_nonneg_r; [lia|]. apply Z.div_le_lower_bound; lia. }
  assert ((ps + off_meta_root - 0) mod ps = off_meta_root) as Hmod.
  { rewrite Z.sub_0_r, Z.add_comm. replace (off_meta_root + ps) with (off_meta_root + 1 * ps) by lia.
    rewrite Z_mod_plus_full. apply Z.mod_small. usize. }
  split.
  - split; [done| |done]. intros b' sa' Hg'. by destruct (flags_kind las sources b' sa' Hf Hvol Hg').
  - done.
  - split; rewrite ?Hlp, ?Hmod.
    + apply (las_home_inv las 0 sa); [done|done|]. rewrite Hlp. usize.
    + by rewrite HRS.
    + usize.
    + exists sa. split_and!; [done|done|]. usize.
  - apply mem_Some. exists sa. rewrite Z.sub_0_r. split; [done|]. split; [usize|]. by rewrite M4.
  - rewrite Z.sub_0_r. apply aligned_add; [done| |apply root_aligned].
    apply (aligned_page ps); [done|usize|done].
  - intros o Ho (sa' & p & Hg' & Hp & Hop). rewrite Hg in Hg'. injection Hg' as <-. pose proof (wf_pages _ M1) as Hpages.
    rewrite Forall_forall in Hpages. destruct (Hpages p Hp) as (_ & _ & Hlo & _). rewrite M2 in Hlo. usize.
Qed.

Lemma new_founded ps sources size total f init h : fresh_memory ps sources →
  ObjectSize_total size = Ok total → 0 < total → aligned 8 total → blen init = total → fills f total init →
  Librarius_new ps sources (Some (size, f)) = Ok h →
  let s := mk_system (lr_world h) ∅ in
  (∃ m, represents {[ lr_root h := size ]} s m) ∧ ∃ d, finds {[ lr_root h := size ]} s (lr_root h) (lr_root h) size d init.
Proof.
  intros Hfm Hsize Ht Halt Hlen Hfill Hnew s. unfold Librarius_new in Hnew. cbn [is_Some] in Hnew.
  rewrite bool_decide_true in Hnew by by eexists.
  destruct (LogicalAddressSpace_new ps sources VersionedObjectStore_valid_page true) as [las|] eqn:E; [|done].
  cbn [mbind outcome_bind] in Hnew. pose proof (new_root_unused ps sources _ las Hfm E) as Hru.
  pose proof meta_packed as P. packed_facts P. destruct Hfm as [(Hp2 & _ & Hmt) _ _ _]. pose proof (is_pow2_range _ Hp2) as Hps.
  unfold VersionedObjectStore_new in Hnew.
  pose proof (byte_range_base las _ _ _ (vl_inv _ (ru_volatile _ _ _ Hru)) (ru_range _ _ _ Hru)) as [_ Hhi]. unfold ROOT_SIZE in Hhi.
  pose proof (root_founded las _ 0 size total f init Hru ltac:(usize) ltac:(usize) Hsize Ht Halt Hlen Hfill) as Hra.
  destruct (TransactionalObjectAllocator_alloc _ _ _ _).1 as [x|x].
  2:{ destruct (Librarius_root_alloc size f (mk_World las 1)) as [o w']. cbn [fst] in Hra. by subst o. }
  destruct Hra as (las' & e & E' & Hro & Hm). rewrite E' in Hnew.
  cbn [mbind outcome_bind] in Hnew. injection Hnew as <-. unfold s. cbn [lr_world lr_root].
  split; [eexists; by apply (one_represents las' _ size total e)|]. exists (en_data total e). by apply (one_finds las' _ size total e).
Qed.

(** C18: opening fresh memory for a new heap, whatever its page size and the
    number and sizes of the sources: the heap that [new] returns stands for a
    store with one committed object, the root object, which a transaction finds
    with the bytes its constructor has given it. *)
Theorem Librarius_new_founds ps sources size total f init h : fresh_memory ps sources →
  ObjectSize_total size = Ok total → 0 < total → aligned 8 total → blen init = total → fills f total init →
  Librarius_new ps sources (Some (size, f)) = Ok h →
  let s := mk_system (lr_world h) ∅ in
  (∃ m, represents {[ lr_root h := size ]} s m) ∧ ∃ d, finds {[ lr_root h := size ]} s (lr_root h) (lr_root h) size d init.
Proof. exact (new_founded ps sources size total f init h). Qed.
End Founding.
