(* ===== verification/Blank.v ===== *)
(** * Opening blank memory

    On memory of zeros, as [mmap] hands it out, opening a heap cannot fail but
    for lack of room: what [Librarius::new] returns in each case. *)
From S2P Require Import Prelude Utils Source SourceAllocator Slices Las Memory Pointer Vos.
From S2P Require Import Allocators Mapping Versions Objects Paging Tx Transactions Heap Runs Snapshot Arena Simulation.
From S2P Require Import Calls Isolation Clients Values Views Showing Founding.

Definition is_ok {A} (o : outcome A) : Prop := match o with Ok _ => True | Fail _ => False end.

(** ** Zeros *)
Lemma slice_zeros off n m : in_range off n m → slice off n (zeros m) = zeros n.
Proof. intros Hr. unfold slice, zeros. rewrite drop_replicate, take_replicate. f_equal. usize. Qed.

Lemma int_at_zeros off n m : in_range off n m → n = 4 ∨ n = 8 → int_at off n (zeros m) = 0.
Proof. intros Hr Hn. unfold int_at. rewrite slice_zeros by done. by destruct Hn as [-> | ->]. Qed.

Lemma valid_page_zeros `{T : Target} `{TOk : !TargetOk T} n : size_of_ObjectHeader ≤ n → VersionedObjectStore_valid_page (zeros n) = Ok false.
Proof.
  intros Hn. pose proof header_packed as P. packed_facts P.
  unfold VersionedObjectStore_valid_page. rewrite any_from_vec_ok by (rewrite blen_zeros; usize).
  cbn [mbind outcome_bind]. unfold ObjectHeader_decode. cbn [oh_size].
  rewrite !int_at_zeros by (usize || (unfold in_range; usize)). done.
Qed.

Section Blank.
Context `{T : Target} `{TOk : !TargetOk T} `{C : Crc} {D : Type} `{Src : !Source D} `{Laws : !SourceLaws D}.
Context (ps : Z) (ps_pow2 : is_pow2 ps) (ps_header : size_of_SourceHeader ≤ ps) (ps_meta : size_of_Meta ≤ ps).
Implicit Types (sa : SourceAllocator D) (source : D) (l : list (LogicalAddress * SourceAllocator D)) (us : list (SourceAllocator D)).
(** Whatever tells the pages in use does not take a page of zeros for one. *)
Context (valid : list byte → outcome bool) (valid_zeros : valid (zeros ps) = Ok false).

(** Memory of zeros, with room for the header and the meta page. *)
Record blank source : Prop := {
  bk_memory : source_is_byte_addressable source = true;
  bk_zeros : source_bytes source = zeros (blen (source_bytes source));
  bk_fresh : fresh ps source
}.

Lemma header_zeros : SourceHeader_is_valid (SourceHeader_decode (zeros ps)) = false.
Proof.
  pose proof (is_pow2_range _ ps_pow2) as Hps. pose proof source_header_packed as P. packed_facts P.
  pose proof source_header_data_packed as Q. packed_facts Q.
  unfold SourceHeader_is_valid, SourceHeader_decode, SourceHeaderData_decode. cbn [sh_data sh_magic].
  rewrite slice_zeros by (unfold in_range; usize). rewrite (int_at_zeros off_magic) by (usize || (unfold in_range; usize)). done.
Qed.

(** ** The allocator of a blank source *)
Definition blank_page (n : Z) : Page := Page_new (ps + ps + n * ps) ps.
Definition blank_pages source : list Page := blank_page <$> seqZ 0 (blen (source_bytes source) / ps - 2).

Lemma on_memory {A} (m : M D A) sa a : m (sa_source sa) = (Ok a, sa_source sa) → on_source m sa = (Ok a, sa).
Proof. intros E. rewrite (on_source_eq _ _ _ _ E). by destruct sa. Qed.

(** A page of zeros is free. *)
Definition zero_page (bytes : list byte) (n : Z) : Prop :=
  0 ≤ n ∧ ps + ps + n * ps + ps ≤ blen bytes ∧ slice (ps + ps + n * ps) ps bytes = zeros ps.

Lemma scan_blank ns sa : sa_pagesize sa = ps → source_is_byte_addressable (sa_source sa) = true →
  is_usize (blen (source_bytes (sa_source sa))) → Forall (zero_page (source_bytes (sa_source sa))) ns →
  for_each ns (SourceAllocator_scan_page valid (ps + ps)) sa =
    (Ok tt, with_freelist (sa_freelist sa ++ (blank_page <$> ns)) sa).
Proof.
  intros Hps Hb Hu Hns. pose proof (is_pow2_range _ ps_pow2) as Hpr. revert sa Hps Hb Hu Hns.
  induction ns as [|n ns IH]; intros sa Hps Hb Hu Hns; cbn [for_each fmap list_fmap].
  - rewrite app_nil_r. by destruct sa.
  - apply Forall_cons in Hns as [(Hn & Hle & Hz) Hns]. assert (0 ≤ n * ps) by (apply Z.mul_nonneg_nonneg; lia).
    rewrite (bind_ok _ _ _ tt (with_freelist (sa_freelist sa ++ [blank_page n]) sa)).
    + rewrite IH by done. cbn [with_freelist sa_freelist sa_source sa_pagesize]. by rewrite <- app_assoc.
    + unfold SourceAllocator_scan_page. rewrite (bind_ok _ _ _ sa sa) by done. rewrite Hps.
      rewrite usize_mul_ok, (bind_ok _ _ _ (n * ps) sa) by (done || usize).
      rewrite usize_add_ok, (bind_ok _ _ _ (ps + ps + n * ps) sa) by (done || usize).
      rewrite (bind_ok _ _ _ (zeros ps) sa); [|apply on_memory; rewrite source_read_memory, Hz by (done || usize); done].
      by rewrite valid_zeros, (bind_ok _ _ _ false sa).
Qed.

Lemma seqZ_pages n : Forall (λ k, 0 ≤ k ∧ ps + ps + k * ps + ps ≤ n) (seqZ 0 (n / ps - 2)).
Proof.
  pose proof (is_pow2_range _ ps_pow2). apply Forall_forall. intros k Hk%elem_of_seqZ.
  pose proof (Z.div_mod n ps ltac:(lia)). pose proof (Z.mod_pos_bound n ps ltac:(lia)).
  assert (k * ps ≤ (n / ps - 3) * ps) by (apply Z.mul_le_mono_nonneg_r; lia). lia.
Qed.

(** The header of the new heap, and nothing else. *)
Definition opened_source source : SourceAllocator D :=
  mk_SourceAllocator (source_store 0 (SourceHeader_bytes (SourceHeader_new ps)) source) (blank_pages source) ps.

Lemma new_blank source : blank source → SourceAllocator_new source ps valid = Ok (opened_source source).
Proof.
  intros [Hb Hz [Hsize Hu _]]. pose proof (is_pow2_range _ ps_pow2) as Hps. set (n := blen (source_bytes source)) in *.
  set (hdr := SourceHeader_bytes (SourceHeader_new ps)). assert (blen hdr = size_of_SourceHeader) as Hlen by apply blen_SourceHeader.
  set (source1 := source_store 0 hdr source).
  assert (in_range 0 (blen hdr) n) as Hr by (rewrite Hlen; unfold in_range; usize).
  assert (source_is_byte_addressable source1 = true) as Hb1.
  { pose proof (source_store_flags 0 hdr source) as [= Hf _]. by rewrite <- Hb. }
  assert (source_bytes source1 = splice 0 hdr (zeros n)) as Hy1 by (unfold source1; rewrite source_store_bytes, Hz by done; done).
  assert (blen (source_bytes source1) = n) as Hn1 by (rewrite Hy1, blen_splice; rewrite blen_zeros by usize; done).
  unfold SourceAllocator_new. set (sa := mk_SourceAllocator source [] ps). set (sa1 := mk_SourceAllocator source1 [] ps).
  assert (SourceAllocator_initialize valid sa = (Ok tt, opened_source source)) as ->; [|done].
  unfold SourceAllocator_initialize. rewrite (bind_ok _ _ _ sa sa) by done. cbv zeta. cbn [sa sa_pagesize].
  rewrite (bind_ok _ _ _ (zeros ps) sa).
  2:{ apply on_memory. cbn [sa sa_source]. rewrite source_read_memory by (done || (unfold in_range; fold n; lia)).
      rewrite Hz, slice_zeros by (unfold in_range; fold n; lia). done. }
  rewrite (bind_ok _ _ _ (SourceHeader_decode (zeros ps)) sa).
  2:{ by rewrite any_from_vec_ok by (rewrite blen_zeros by lia; lia). }
  rewrite header_zeros. rewrite (bind_ok _ _ _ tt sa1).
  2:{ unfold SourceAllocator_create. rewrite (bind_ok _ _ _ sa sa) by done. cbn [sa sa_pagesize]. fold hdr.
      rewrite (bind_ok _ _ _ tt sa1); [by apply on_memory, source_flush_memory|].
      by rewrite (on_source_eq _ sa (Ok tt) source1) by (by apply source_write_memory). }
  rewrite align_up_page, (bind_ok _ _ _ ps sa1) by (done || usize).
  rewrite usize_add_ok, (bind_ok _ _ _ (ps + ps) sa1) by (done || usize).
  destruct (whole_size_bounds ps ps_pow2 sa1) as (_ & _ & Hw); [unfold size_of; cbn [sa1 sa_source]; lia|].
  unfold whole_size, size_of in Hw. cbn [sa1 sa_source] in Hw. rewrite Hn1 in Hw.
  assert (ps + ps ≤ n / ps * ps) as Hpages.
  { replace (ps + ps) with (2 * ps) by lia. apply Z.mul_le_mono_nonneg_r; [lia|]. apply Z.div_le_lower_bound; lia. }
  pose proof (Z.mod_pos_bound n ps ltac:(lia)) as Hmod.
  rewrite (bind_ok _ _ _ (n / ps * ps) sa1).
  2:{ unfold SourceAllocator_length. rewrite (bind_ok _ _ _ sa1 sa1) by done. rewrite (bind_ok _ _ _ n sa1).
      - unfold lift. cbn [sa1 sa_pagesize]. by rewrite align_down_eq, <- Hw.
      - apply on_memory. cbn [sa1 sa_source]. by rewrite source_length_memory, Hn1. }
  rewrite usize_sub_ok, (bind_ok _ _ _ (n / ps * ps - (ps + ps)) sa1) by (done || usize).
  rewrite usize_div_ok by lia. replace ((n / ps * ps - (ps + ps)) / ps) with (n / ps - 2) by (apply Z.div_unique_exact; lia).
  rewrite (bind_ok _ _ _ (n / ps - 2) sa1) by done. rewrite scan_blank; [done|done|done|cbn [sa1 sa_source]; by rewrite Hn1|].
  pose proof (seqZ_pages n) as Hs. cbn [sa1 sa_source]. rewrite Hy1.
  apply (Forall_impl _ _ _ Hs). intros k [Hk Hle]. assert (0 ≤ k * ps) by (apply Z.mul_nonneg_nonneg; lia).
  unfold zero_page. rewrite blen_splice by (rewrite blen_zeros by usize; done). rewrite blen_zeros by usize.
  split_and!; [done|done|]. rewrite slice_splice_apart; [apply slice_zeros; unfold in_range; lia|..].
  all: rewrite ?blen_zeros by usize; try done; try (unfold in_range; lia).
  all: try (right; unfold apart; cbn [fst snd]; usize); unfold apart; cbn [fst snd]; usize.
Qed.

Lemma opened_ready source : blank source → ready_source ps source (opened_source source).
Proof. intros Hb. apply (new_ready ps ps_pow2 ps_header valid); [apply Hb|by apply new_blank]. Qed.

Lemma opened_memory source : blank source → source_is_byte_addressable (sa_source (opened_source source)) = true.
Proof. intros Hb. pose proof (rs_flags _ _ _ (opened_ready source Hb)) as [= Hf _]. exact (eq_trans Hf (bk_memory _ Hb)). Qed.

(** ** Both loops of [new] *)
Lemma open_blank source acc : blank source →
  new_open_source ps valid true acc source = Ok (mk_opening (op_sources acc) (op_unallocated acc ++ [opened_source source]) (op_root acc)).
Proof.
  intros Hb. pose proof (is_pow2_range _ ps_pow2) as Hps. pose proof (opened_ready source Hb) as [R1 R2 R3 R4 R5].
  pose proof (fr_size _ _ (bk_fresh _ Hb)) as Hsize. pose proof (opened_memory source Hb) as Hmem.
  unfold new_open_source. rewrite new_blank by done. cbn [mbind outcome_bind].
  unfold SourceAllocator_read_into. cbn [SourceAllocator_get_meta page_len page_offset]. unfold size_of in R4.
  assert (in_range ps ps (blen (source_bytes (sa_source (opened_source source))))) as Hr by (unfold in_range; lia).
  rewrite R2, bool_decide_true, (bind_ok _ _ _ tt (opened_source source)) by (done || lia).
  rewrite (on_memory _ _ (slice ps ps (source_bytes (sa_source (opened_source source))))).
  2:{ apply source_read_memory; [done|done|apply (wf_size _ R1)]. }
  cbn [mbind outcome_bind]. rewrite any_from_vec_ok by (rewrite blen_slice by done; done).
  cbn [mbind outcome_bind]. by rewrite R5, (fr_meta _ _ (bk_fresh _ Hb)).
Qed.

Lemma open_all_blank sources acc : Forall blank sources →
  fold_outcome (new_open_source ps valid true) acc sources =
    Ok (mk_opening (op_sources acc) (op_unallocated acc ++ (opened_source <$> sources)) (op_root acc)).
Proof.
  intros Hb. revert acc. induction Hb as [|source sources Hs _ IH]; intros acc; cbn [fold_outcome fmap list_fmap].
  - rewrite app_nil_r. by destruct acc.
  - rewrite open_blank by done. cbn [mbind outcome_bind]. rewrite IH. cbn [op_sources op_unallocated op_root].
    by rewrite <- app_assoc.
Qed.

Definition memories l : Prop := Forall (λ e, source_is_byte_addressable (sa_source e.2) = true) l.
Definition free_lists l : list (list Page) := (λ e, sa_freelist e.2) <$> l.

Lemma length_memory sa : is_usize (size_of sa) → is_pow2 (sa_pagesize sa) → source_is_byte_addressable (sa_source sa) = true →
  ∃ n, SourceAllocator_length sa = (Ok n, sa).
Proof.
  intros Hu Hp Hb. eexists. unfold SourceAllocator_length. rewrite (bind_ok _ _ _ sa sa) by done.
  rewrite (bind_ok _ _ _ (size_of sa) sa); [by rewrite align_down_eq by done|].
  apply on_memory. by rewrite source_length_memory.
Qed.

Lemma write_memory off data sa : source_is_byte_addressable (sa_source sa) = true → is_usize (size_of sa) → blen data ≤ sa_pagesize sa →
  in_range (sa_pagesize sa) (blen data) (size_of sa) →
  ∃ sa', SourceAllocator_write_from (SourceAllocator_get_meta sa) off data sa = (Ok tt, sa') ∧ sa_freelist sa' = sa_freelist sa.
Proof.
  intros Hb Hu Hle Hr. unfold SourceAllocator_write_from. cbn [SourceAllocator_get_meta page_len page_offset].
  rewrite bool_decide_true, (bind_ok _ _ _ tt sa) by done. set (s1 := source_store (sa_pagesize sa) data (sa_source sa)).
  exists (with_device s1 sa). split; [|done]. rewrite (bind_ok _ _ _ tt (with_device s1 sa)).
  - apply on_memory, source_flush_memory. cbn [with_device sa_source].
    pose proof (source_store_flags (sa_pagesize sa) data (sa_source sa)) as [= Hf _]. by rewrite <- Hb.
  - by rewrite (on_source_eq _ sa (Ok tt) s1) by (by apply source_write_memory).
Qed.

Lemma place_blank l b fin source : mapped ps l b fin → fin < 2 ^ 54 → memories l → blank source →
  ∃ l', new_place_source l (opened_source source) = Ok l' ∧ free_lists l' = free_lists l ++ [blank_pages source].
Proof.
  intros Hm Hfin Hl Hb. pose proof (is_pow2_range _ ps_pow2) as Hps. set (sa := opened_source source).
  pose proof (opened_ready source Hb) as [R1 R2 R3 R4 R5]. pose proof (opened_memory source Hb) as Hmem. fold sa in R1, R2, R3, R4, Hmem.
  pose proof (fr_size _ _ (bk_fresh _ Hb)) as Hsize.
  assert (∃ offset, match last l with
    | None => Ok (0, l)
    | Some (offset, allocator) =>
        let '(length, allocator) := SourceAllocator_length allocator in
        length ← length; offset' ← offset +! length; mret (offset', btree_set offset allocator l)
    end = Ok (offset, l) ∧ Forall (λ k, k < offset) l.*1) as (offset & Hlast & Hk).
  { pose proof Hm as Hm'. inversion Hm' as [|l1 b1 fin1 sa1 Hm1 Hs1]; subst; [exists 0; split; [done|constructor]|].
    rewrite last_snoc. apply Forall_app in Hl as [_ [Hb1 _]%Forall_cons]. cbn [snd] in Hb1. destruct Hs1 as [W1 W2 W3 W4].
    destruct (length_memory sa1) as [n Hlen]; [apply (wf_size _ W1)|by rewrite W2|done|].
    destruct (length_ready ps ps_pow2 sa1 n sa1) as (-> & _); [done..|]. rewrite Hlen. cbn [mbind outcome_bind].
    destruct (mapped_next ps ps_pow2 l1 b1 fin1 Hm1) as [Hb0 _]. destruct (whole_size_bounds ps ps_pow2 sa1 W3) as (? & _).
    exists (b1 + whole_size ps sa1). rewrite usize_add_ok by usize. cbn [mbind outcome_bind].
    pose proof (mapped_keys ps ps_pow2 _ _ _ Hm1) as Hk1. rewrite btree_set_last.
    - split; [done|]. by apply (mapped_keys ps ps_pow2 _ _ (fin1 + size_of sa1)).
    - intros Hin. rewrite Forall_forall in Hk1. specialize (Hk1 b1 Hin). lia. }
  unfold new_place_source. rewrite Hlast. cbn [mbind outcome_bind].
  destruct (length_memory sa) as [n Hlen]; [apply (wf_size _ R1)|by rewrite R2|done|]. rewrite Hlen. cbn [mbind outcome_bind].
  assert (blen (Meta_bytes (Meta_new (LogicalSlice_new offset n))) = size_of_Meta) as Hbm by by apply Meta_layout.
  destruct (write_memory 0 (Meta_bytes (Meta_new (LogicalSlice_new offset n))) sa) as (sa' & -> & Hf);
    [done|apply (wf_size _ R1)|by rewrite Hbm, R2|rewrite Hbm, R2, R4; unfold in_range; usize|].
  cbn [mbind outcome_bind]. eexists. split; [done|]. unfold Meta_slice, Meta_new. cbn [meta_data md_slice ls_offset].
  rewrite btree_insert_last by done. unfold free_lists. rewrite fmap_app. csimpl. by rewrite Hf.
Qed.

Lemma memories_flags l : memories l ↔ Forall (λ f, f.1 = true) (flags_of l).
Proof. unfold memories, flags_of. by rewrite Forall_fmap. Qed.

Lemma place_all_blank sources l b fin : Forall blank sources → mapped ps l b fin → fin + total_size sources < 2 ^ 54 → memories l →
  ∃ l', fold_outcome new_place_source l (opened_source <$> sources) = Ok l' ∧ free_lists l' = free_lists l ++ (blank_pages <$> sources).
Proof.
  intros Hb. revert l b fin. induction Hb as [|source sources Hs _ IH]; intros l b fin Hm Hfin Hl; cbn [fold_outcome fmap list_fmap].
  { exists l. by rewrite app_nil_r. }
  cbn [total_size foldr] in Hfin. fold (total_size sources) in Hfin. pose proof (total_size_nonneg sources).
  pose proof (blen_nonneg (source_bytes source)). pose proof (opened_ready source Hs) as [R1 R2 R3 R4 R5].
  destruct (place_blank l b fin source Hm ltac:(lia) Hl Hs) as (l1 & Hp & Hf1). rewrite Hp. cbn [mbind outcome_bind].
  destruct (place_one ps ps_pow2 ps_header ps_meta l b fin (opened_source source) l1) as [Hm1 Hfl]; [done|lia|done|done| |done|].
  { rewrite R4. apply (fr_size _ _ (bk_fresh _ Hs)). }
  destruct (IH l1 _ _ Hm1) as (l' & Hp' & Hf'); [rewrite R4; lia| |].
  { apply memories_flags. rewrite Hfl. apply Forall_app. split; [by apply memories_flags|]. repeat constructor. by apply opened_memory. }
  exists l'. split; [done|]. by rewrite Hf', Hf1, <- app_assoc.
Qed.

(** The address space of blank volatile memory. *)
Lemma new_blank_las source sources : Forall blank (source :: sources) → total_size (source :: sources) < 2 ^ 54 →
  Forall (λ s, source_is_byte_addressable s = true ∧ source_is_persistent s = false) (source :: sources) →
  ∃ las, LogicalAddressSpace_new ps (source :: sources) valid true = Ok las ∧
    free_lists (las_sources las) = blank_pages <$> source :: sources.
Proof.
  intros Hb Hsz Hvol. unfold LogicalAddressSpace_new. rewrite open_all_blank by done. cbn [mbind outcome_bind op_sources op_unallocated op_root app].
  destruct (place_all_blank (source :: sources) [] 0 0 Hb (mapped_none ps)) as (l & Hp & Hf); [by rewrite Z.add_0_l|constructor|].
  rewrite Hp. cbn [mbind outcome_bind]. assert (Forall (fresh ps) (source :: sources)) as Hfr.
  { apply (Forall_impl _ _ _ Hb). by intros s []. }
  assert (Forall2 (ready_source ps) (source :: sources) (opened_source <$> source :: sources)) as Hr.
  { apply Forall2_fmap_r, Forall_Forall2_diag. apply (Forall_impl _ _ _ Hb). apply opened_ready. }
  destruct (place_all ps ps_pow2 ps_header ps_meta (source :: sources) _ [] 0 0 l Hfr Hr (mapped_none ps)) as (b & Hm & Hfl); [by rewrite Z.add_0_l|done|].
  set (las0 := mk_LogicalAddressSpace l ps _ _ _).
  assert (new_choose_root las0 = Ok (StoredLogicalSlice_new_byte (LogicalSlice_new (ps + off_meta_root) ROOT_SIZE))) as ->.
  { apply (choose_root_volatile ps ps_pow2 ps_header ps_meta las0 b (0 + total_size (source :: sources))); [|done|by apply (flags_volatile l (source :: sources))].
    cbn [las0 las_sources]. intros ->. done. }
  eexists. split; [reflexivity|]. exact Hf.
Qed.
End Blank.

(** ** The first object *)
Section Outcome.
Context `{T : Target} `{TOk : !TargetOk T} `{C : Crc} {D : Type} `{Src : !Source D} `{Laws : !SourceLaws D}.
Implicit Types (las : LogicalAddressSpace D) (source : D).

Lemma free_lists_set b sa sa' (l : list (LogicalAddress * SourceAllocator D)) : btree_get b l = Some sa →
  sa_freelist sa' = sa_freelist sa → free_lists (btree_set b sa' l) = free_lists l.
Proof.
  intros Hg Hf. induction l as [|[k v] l IH]; [done|]. cbn [btree_get btree_set] in *. case_decide.
  - injection Hg as ->. unfold free_lists. csimpl. by rewrite Hf.
  - unfold free_lists in *. csimpl. by rewrite IH.
Qed.

Lemma free_lists_put b off data las : free_lists (las_sources (put b off data las)) = free_lists (las_sources las).
Proof.
  unfold put. destruct (las_get las b) as [sa|] eqn:Hg; [|done]. cbn [with_sources las_sources]. by apply (free_lists_set b sa).
Qed.

Lemma memories_shape las las' : las_shape las' = las_shape las → memories (las_sources las) → memories (las_sources las').
Proof.
  intros [= _ Hs] Hm. assert (Forall (λ x : Z * (bool * bool) * Z * Z, x.1.1.2.1 = true) (source_shape <$> las_sources las')) as H.
  { rewrite Hs. by apply Forall_fmap. }
  by apply Forall_fmap in H.
Qed.

(** Pages are taken from the first memory. *)
Lemma next_page_first las pages ls : free_lists (las_sources las) = pages :: ls → memories (las_sources las) →
  next_page las = None ↔ pages = [].
Proof.
  unfold next_page, LogicalAddressSpace_get_best_byte_addressable, LogicalAddressSpace_get_best_source.
  destruct (las_sources las) as [|[b sa] l]; [done|]. intros [= <- _] [Hb _]%Forall_cons. cbn [snd find] in *.
  unfold SourceAllocator_is_byte_addressable. rewrite Hb. simpl. by destruct (sa_freelist sa).
Qed.

Lemma object_alloc_new las size total : las_inv las → ObjectSize_total size = Ok total →
  let o := (TransactionalObjectAllocator_alloc size Version_new_base UntypedPointer_new_none (GenericAllocator_new, las)).1 in
  match next_page las with
  | None => o = Err NoAvailableMemory
  | Some _ => if decide (las_pagesize las < total + size_of_ObjectHeader) then o = Err AllocationTooLarge else is_ok o
  end.
Proof.
  intros Hinv Hsize. assert (is_u32 total) as Ht by (by apply (wrapping_range u32_modulus) in Hsize).
  destruct (object_alloc_ok las GenericAllocator_new size total Version_new_base UntypedPointer_new_none) as (o & ga & las' & Hal & Ho);
    [done|apply ga_wf_new|apply ga_aligned_new|done..|]. cbv zeta. rewrite Hal. cbn [fst].
  unfold TransactionalObjectAllocator_alloc in Hal. rewrite Hsize, (bind_ok _ _ _ total (GenericAllocator_new, las)) in Hal by done.
  rewrite usize_add_ok, (bind_ok _ _ _ (total + size_of_ObjectHeader) (GenericAllocator_new, las)) in Hal by (done || usize).
  pose proof (GenericAllocator_alloc_eq las GenericAllocator_new (total + size_of_ObjectHeader) Hinv (ga_wf_new las) ltac:(usize)) as Ha.
  unfold alloc_spec in Ha. cbn [GenericAllocator_new ga_active] in Ha.
  destruct (next_page las) as [[[b page] rest]|] eqn:Hn; [|rewrite (bind_fail _ _ _ _ _ Ha) in Hal; by injection Hal as <-].
  cbv zeta in Ha. destruct (decide (las_pagesize las < total + size_of_ObjectHeader)) as [Hlt|Hge].
  - rewrite decide_False in Ha by lia. rewrite (bind_fail _ _ _ _ _ Ha) in Hal. by injection Hal as <-.
  - destruct o as [x|x]; [done|]. destruct Ho as (_ & _ & [[_ ?]|[_ ?]]); [lia|congruence].
Qed.

(** Opening comes down to making the root object, whose memory may be refused. *)
Lemma new_root_made ps source sources size total f : fresh_memory ps (source :: sources) →
  Forall (blank ps) (source :: sources) → ObjectSize_total size = Ok total → 0 < total → ∃ las,
  root_unused las (ps + off_meta_root) 0 ∧ 0 ≤ ps + off_meta_root ∧ ps + off_meta_root + size_of_ObjectHeader < 2 ^ 54 ∧
  Librarius_new ps (source :: sources) (Some (size, f)) =
    (let '(root, w) := Librarius_root_alloc size f (mk_World las 1) in root ← root; mret (mk_Librarius w root)) ∧
  let o := (TransactionalObjectAllocator_alloc size Version_new_base UntypedPointer_new_none
    (GenericAllocator_new, put 0 (ps + off_meta_root - 0) root_header las)).1 in
  if decide (blen (source_bytes source) < 3 * ps) then o = Err NoAvailableMemory
  else if decide (ps < total + size_of_ObjectHeader) then o = Err AllocationTooLarge
  else is_ok o.
Proof.
  intros Hfm Hb Hsize Ht. pose proof Hfm as [(Hp2 & Hhd & Hmt) Hfr Hsz Hvol]. pose proof (is_pow2_range _ Hp2) as Hps.
  destruct (new_blank_las ps Hp2 Hhd Hmt _ (valid_page_zeros ps ltac:(usize)) source sources Hb Hsz Hvol) as (las & Hnew & Hfree).
  pose proof (new_root_unused ps _ _ las Hfm Hnew) as Hru. pose proof meta_packed as P. packed_facts P.
  destruct (new_las_ok ps Hp2 Hhd Hmt _ _ las Hfr Hsz Hvol Hnew) as (Hinv & Hlp & _ & _ & Hfl & _).
  pose proof (byte_range_base las _ _ _ Hinv (ru_range _ _ _ Hru)) as [_ Hhi]. unfold ROOT_SIZE in Hhi.
  destruct (root_initialized las _ 0 Hru) as (_ & Hv1 & Hs1 & _).
  exists las. split; [done|]. split; [usize|]. split; [usize|]. split.
  { unfold Librarius_new. rewrite bool_decide_true by by eexists. rewrite Hnew. done. }
  set (las1 := put 0 (ps + off_meta_root - 0) root_header las) in *.
  pose proof (object_alloc_new las1 size total (vl_inv _ Hv1) Hsize) as Ho. cbv zeta in Ho |- *.
  assert (las_pagesize las1 = ps) as Hlp1 by (injection Hs1 as Hx _; congruence). rewrite Hlp1 in Ho.
  assert (next_page las1 = None ↔ blank_pages ps source = []) as Hnext.
  { apply (next_page_first las1 _ (blank_pages ps <$> sources)); [by unfold las1; rewrite free_lists_put|].
    apply (memories_shape las); [done|]. pose proof (flags_volatile _ _ Hfl Hvol) as Hk. apply (Forall_impl _ _ _ Hk). by intros e []. }
  assert (blank_pages ps source = [] ↔ blen (source_bytes source) < 3 * ps) as Hroom.
  { unfold blank_pages. pose proof (Z.div_mod (blen (source_bytes source)) ps ltac:(lia)).
    pose proof (Z.mod_pos_bound (blen (source_bytes source)) ps ltac:(lia)).
    split; intros Hx.
    - apply (f_equal length) in Hx. rewrite length_fmap, length_seqZ in Hx. simpl in Hx. nia.
    - apply length_zero_iff_nil. rewrite length_fmap, length_seqZ. nia. }
  rewrite Hroom in Hnext. destruct (next_page las1) as [x|].
  - rewrite decide_False by by rewrite <- Hnext. by destruct (decide (ps < total + size_of_ObjectHeader)).
  - by rewrite decide_True by by apply Hnext.
Qed.

(** What a constructor makes of the root object's bytes: these bytes, or an
    error. *)
Definition constructs (f : root_constructor D) (total : Z) (made : list byte + Error) : Prop :=
  match made with
  | inl init => blen init = total ∧ fills f total init
  | inr error => declines f total error
  end.

Lemma new_outcome ps source sources size total f made : fresh_memory ps (source :: sources) →
  Forall (blank ps) (source :: sources) → ObjectSize_total size = Ok total → 0 < total → aligned 8 total →
  constructs f total made →
  let o := Librarius_new ps (source :: sources) (Some (size, f)) in
  if decide (blen (source_bytes source) < 3 * ps) then o = Err NoAvailableMemory
  else if decide (ps < total + size_of_ObjectHeader) then o = Err AllocationTooLarge
  else match made with inl _ => is_ok o | inr error => o = Err error end.
Proof.
  intros Hfm Hb Hsize Ht Halt Hmade. cbv zeta.
  destruct (new_root_made ps source sources size total f Hfm Hb Hsize Ht) as (las & Hru & H0 & Hhi & -> & Ho). cbv zeta in Ho.
  destruct made as [init|error]; cbn [constructs] in Hmade.
  - destruct Hmade as [Hlen Hfill]. pose proof (root_founded las _ 0 size total f init Hru H0 Hhi Hsize Ht Halt Hlen Hfill) as Hra.
    destruct (Librarius_root_alloc size f (mk_World las 1)) as [r w'].
    case_decide; [rewrite Ho in Hra; cbn [fst] in Hra; by subst r|].
    case_decide; [rewrite Ho in Hra; cbn [fst] in Hra; by subst r|].
    destruct (TransactionalObjectAllocator_alloc _ _ _ _).1 as [y|y]; [|done]. destruct Hra as (las' & e & [= -> ->] & _). done.
  - pose proof (root_declined las _ 0 size total f error Hru H0 Hhi Hsize Ht Hmade) as Hra.
    destruct (Librarius_root_alloc size f (mk_World las 1)) as [r w']. cbn [fst] in Hra. subst r.
    case_decide; [by rewrite Ho|]. case_decide; [by rewrite Ho|].
    destruct (TransactionalObjectAllocator_alloc _ _ _ _).1 as [y|y]; [|done]. done.
Qed.

End Outcome.
