(* ===== verification/Basics.v ===== *)
(** * The tests [basic_test] and [basic]

    A heap on one memory (tests [basic_test] of las.rs, [basic] of
    librarius.rs): the first page of volatile memory cannot be flushed, and the
    new root object is what its constructor made. *)
From S2P Require Import Prelude Utils Source SourceAllocator Slices Las Memory Pointer Vos.
From S2P Require Import Allocators Mapping Versions Objects Tx Transactions Heap Runs Snapshot Arena Simulation.
From S2P Require Import Calls Isolation Clients Values Views Showing Founding Blank.

(** [BasicRoot] *)
Record BasicRoot : Type := mk_BasicRoot { br_value : Z }.
#[export] Instance BasicRoot_Persistent : Persistent BasicRoot := {
  persistent_size := ObjectSize_new_with_usize 0 8;
  persistent_bytes self := u64_bytes (br_value self);
  persistent_decode bytes := mk_BasicRoot (le_combine bytes);
  persistent_size_of := 8;
  persistent_align_of := 8
}.

Section Tests.
Context `{T : Target} `{C : Crc} {D : Type} `{Src : !Source D}.

(** What the address space answers to the flush of its root. *)
Definition basic_test_flush (las : LogicalAddressSpace D) : outcome unit :=
  let root := LogicalAddressSpace_root_location las in
  let '(slice, las) := LogicalAddressSpace_read root las in
  slice ← slice;
  match (LogicalAddressSpace_flush root las).1 with
  | Err NoAvailableMemory => Ok tt
  | Err _ | Ok _ => Fail Panic
  | Fail f => Fail f
  end.

Definition basic_test (source : D) : outcome unit :=
  las ← LogicalAddressSpace_new 4096 [source] (λ data, Ok false) true;
  basic_test_flush las.

Definition basic_builder (source : D) : LibrariusBuilder D :=
  LibrariusBuilder_source source (create_with_typed (mk_BasicRoot 0) LibrariusBuilder_new).

Definition basic (source : D) : outcome unit :=
  librarius ← LibrariusBuilder_open (basic_builder source);
  Ok tt.
End Tests.

Section Basics.
Context `{T : Target} `{TOk : !TargetOk T} `{C : Crc} {D : Type} `{Src : !Source D} `{Laws : !SourceLaws D}.

(** [basic_test] passes on blank memory: opening succeeds, the root's place can
    be read, and its flush has no memory to go to. *)
Lemma basic_test_passes (source : D) : fresh_memory 4096 [source] → blank 4096 source → basic_test source = Ok tt.
Proof.
  intros Hfm Hb. pose proof Hfm as [(Hp & Hh & Hm) _ Hsz Hvol]. unfold basic_test.
  destruct (new_blank_las 4096 Hp Hh Hm (λ _, Ok false) eq_refl source []) as (las & E & _); [by constructor|done..|].
  rewrite E. pose proof (new_root_unused _ _ _ las Hfm E) as Hru. cbn [mbind outcome_bind].
  pose proof (ru_location _ _ _ Hru) as Hl. pose proof (ru_range _ _ _ Hru) as Hr.
  pose proof (ru_volatile _ _ _ Hru) as Hv. unfold basic_test_flush, LogicalAddressSpace_root_location. rewrite Hl.
  rewrite (LogicalAddressSpace_read_ok las _ _ _ (inv_wf _ (vl_inv _ Hv)) Hr). cbn [mbind outcome_bind].
  by rewrite (volatile_flush las _ _ _ Hv Hr).
Qed.

Lemma basic_fills : fills (D := D) (λ data, on_world_las (store_typed data (mk_BasicRoot 0))) 8 (persistent_bytes (mk_BasicRoot 0)).
Proof. apply fills_typed; [apply blen_u64|done|by exists 1]. Qed.

(** The test [basic] passes on blank memory of three pages or more. *)
Lemma basic_passes (source : D) : fresh_memory 4096 [source] → blank 4096 source → 3 * 4096 ≤ blen (source_bytes source) →
  basic source = Ok tt.
Proof.
  intros Hfm Hb Hsize.
  pose proof (new_outcome 4096 source [] persistent_size 8 _ (inl _) Hfm (Forall_cons_2 _ _ _ Hb (Forall_nil_2 _))
    ltac:(done) ltac:(done) (aligned_mul 8 1) (conj (blen_u64 0) basic_fills)) as Ho.
  cbv zeta in Ho. rewrite decide_False in Ho by lia. rewrite decide_False in Ho by usize. unfold basic.
  change (LibrariusBuilder_open (basic_builder source)) with
    (Librarius_new 4096 [source] (Some (persistent_size, λ data, on_world_las (store_typed data (mk_BasicRoot 0))))).
  by destruct (Librarius_new _ _ _).
Qed.

(** The root object of [basic] is [BasicRoot { value: 0 }]. *)
Lemma basic_root ps (source : D) h : fresh_memory ps [source] →
  LibrariusBuilder_open (LibrariusBuilder_pagesize ps (basic_builder source)) = Ok h →
  ∃ d bytes, finds {[ lr_root h := persistent_size (A := BasicRoot) ]} (mk_system (lr_world h) ∅) (lr_root h) (lr_root h)
    (persistent_size (A := BasicRoot)) d bytes ∧ persistent_decode bytes = mk_BasicRoot 0.
Proof.
  intros Hfm Hopen.
  destruct (new_founded ps [source] persistent_size 8 _ _ h Hfm ltac:(done) ltac:(done) (aligned_mul 8 1) (blen_u64 0) basic_fills Hopen) as [_ [d Hd]].
  by exists d, (persistent_bytes (mk_BasicRoot 0)).
Qed.
End Basics.
