(* ===== verification/Example.v ===== *)
(** * The example (src/examples/basic.rs)

    A heap over a memory and a file, created with a root object or found in the
    file, and a transaction that reads the root object. *)
From S2P Require Import Prelude Utils Source SourceAllocator Slices Las Pointer Vos Tx Heap.

(** The layout of [Root], which Rust is free to choose. *)
Class RootLayout : Type := {
  off_root_data : Z;
  off_root_value : Z;
  root_packed : packed 16 [(off_root_data, 8); (off_root_value, 8)]
}.

Record Data : Type := mk_Data { data_value : Z }.
#[export] Instance Data_Persistent : Persistent Data := {
  persistent_size := ObjectSize_new_with_usize 0 size_of_usize;
  persistent_bytes self := u64_bytes (data_value self);
  persistent_decode bytes := mk_Data (le_combine bytes);
  persistent_size_of := size_of_usize;
  persistent_align_of := 8
}.

Record Root : Type := mk_Root { root_data : PersistentPointer Data; root_value : Z }.
Definition size_of_Root : Z := 16.

Section Main.
Context `{T : Target} `{C : Crc} `{L : RootLayout}.

#[export] Instance Root_Persistent : Persistent Root := {
  persistent_size := ObjectSize_new_with_usize 8 8;
  persistent_bytes self := splice off_root_value (u64_bytes (root_value self))
    (splice off_root_data (u64_bytes (pp_raw (root_data self))) (padding (Z.to_nat size_of_Root)));
  persistent_decode bytes := mk_Root
    (PersistentPointer_from_raw (le_combine (slice off_root_data size_of_usize bytes)))
    (le_combine (slice off_root_value size_of_usize bytes));
  persistent_size_of := size_of_Root;
  persistent_align_of := 8
}.

Definition Root_new : Root := mk_Root PersistentPointer_new_none 5.

(** What [main] opens; [mmap] and [file] are the answers of the system. *)
Definition main_builder (memory file : DynSource) : LibrariusBuilder DynSource :=
  LibrariusBuilder_source file (LibrariusBuilder_source memory (create_with_typed Root_new LibrariusBuilder_new)).

Definition main_open (mmap : Z → Z + Z) (file : File + Z) : outcome (Librarius DynSource) :=
  memory ← MemorySource_new mmap (Z.shiftl 1 20);
  file ← FileSource_new file (Z.shiftl 1 20);
  LibrariusBuilder_open (main_builder (Memory memory) (OnFile file)).

(** The closure. *)
Definition main_read (fuel : nat) : M (Transaction * World DynSource) Z :=
  root ← root_typed;
  rootp ← read_typed (A := Root) fuel root;
  root ← on_tx_las (load_typed rootp);
  mret (root_value root).

Definition main_run (fuel : nat) (librarius : Librarius DynSource) : outcome Z :=
  (Librarius_run fuel (lr_root librarius) (main_read fuel) (lr_world librarius)).1.

(** The number that is printed, from the arguments of the program. *)
Definition main (mmap : Z → Z + Z) (open_file : string → File + Z) (args : list string) (fuel : nat) : outcome Z :=
  match args !! 1%nat with
  | None => Fail Panic
  | Some file =>
      librarius ← main_open mmap (open_file file);
      main_run fuel librarius
  end.

Context `{TOk : !TargetOk T}.

Lemma Root_roundtrip r : is_usize (pp_raw (root_data r)) → is_usize (root_value r) →
  persistent_decode (persistent_bytes r) = r.
Proof.
  destruct r as [[raw] v]. cbn [root_data root_value pp_raw]. intros Hr Hv. pose proof root_packed as P. packed_facts P.
  pose proof (blen_padding size_of_Root ltac:(done)) as Hp. cbn [persistent_decode persistent_bytes Root_Persistent root_data root_value pp_raw].
  unfold size_of_Root in *. f_equal; [f_equal|].
  - rewrite slice_splice_apart by (rewrite ?blen_u64; unfold apart; cbn [fst snd]; blens || usize).
    rewrite slice_splice_len by (rewrite ?blen_u64; blens || usize). by apply u64_roundtrip.
  - rewrite slice_splice_len by (rewrite ?blen_u64; blens || usize). by apply u64_roundtrip.
Qed.
End Main.
