(* ===== verification/Threads.v ===== *)
(** * Threads

    Threads that each [run] a closure on the same heap ([Librarius::run] in
    librarius.rs), one call of one of them at a time: the retry loop, the
    transaction of an attempt, its commit or abort.  A thread that has the heap
    to itself computes what [Librarius_run] does. *)
From S2P Require Import Prelude Utils Source SourceAllocator Slices Las Memory Pointer Vos.
From S2P Require Import Allocators Versions Objects Tx Transactions Heap Runs Snapshot Arena Simulation Calls Isolation Clients.

(** A thread: about to make an attempt, in the middle of one, or done. *)
Inductive thread (R : Type) : Type :=
| Ready
| Busy (c : client R)
| Returned (result : R + Error).
Arguments Ready {R}.
Arguments Busy {R}.
Arguments Returned {R}.

(** An attempt that is over: [run] tries again if it was aborted. *)
Definition attempt_over {R} (result : R + Error) : thread R :=
  match result with inr TxAborted => Ready | _ => Returned result end.

Record machine (D R : Type) : Type := mk_machine { mc_system : system D; mc_threads : list (thread R) }.
Arguments mk_machine {D R}.
Arguments mc_system {D R}.
Arguments mc_threads {D R}.

Section Threads.
Context `{T : Target} `{TOk : !TargetOk T} `{C : Crc} {D : Type} `{Src : !Source D} `{Laws : !SourceLaws D}.
Context {R : Type} (root : cell) (body : nat → client R).
Implicit Types (w : World D) (tx : Transaction) (s : system D) (refs reads : list memref) (k : cell).
Implicit Types (ts : list (thread R)) (c : client R) (x : R + Error).

(** The next step of the thread [i], whose transaction has its number. *)
Inductive thread_step (i : nat) : machine D R → machine D R → Prop :=
| th_begin s ts tx w' :
    ts !! i = Some Ready → sy_txs s !! i = None → Transaction_new root (sy_world s) = (Ok tx, w') →
    thread_step i (mk_machine s ts) (mk_machine (step_to s i tx [] w') (<[i := Busy (body i)]> ts))
| th_read s ts k size next tx refs result tx' w' y :
    ts !! i = Some (Busy (Reading k size next)) → sy_txs s !! i = Some (tx, refs) →
    eventually (λ fuel, Transaction_read fuel k size (tx, sy_world s)) (result, (tx', w')) → seen result y →
    thread_step i (mk_machine s ts) (mk_machine (step_to s i tx' refs w') (<[i := Busy (next y)]> ts))
| th_read_for_write s ts k size next tx refs result tx' w' y :
    ts !! i = Some (Busy (ReadingForWrite k size next)) → sy_txs s !! i = Some (tx, refs) →
    eventually (λ fuel, Transaction_read_for_write fuel k size (tx, sy_world s)) (result, (tx', w')) → seen result y →
    thread_step i (mk_machine s ts) (mk_machine (step_to s i tx' refs w') (<[i := Busy (next y)]> ts))
| th_write s ts k size next tx refs result tx' w' y :
    ts !! i = Some (Busy (Writing k size next)) → sy_txs s !! i = Some (tx, refs) →
    eventually (λ fuel, Transaction_write fuel k size (tx, sy_world s)) (result, (tx', w')) → seen result y →
    thread_step i (mk_machine s ts) (mk_machine (step_to s i tx' (handed result refs) w') (<[i := Busy (next y)]> ts))
| th_alloc s ts size next tx refs result tx' w' y :
    ts !! i = Some (Busy (Allocating size next)) → sy_txs s !! i = Some (tx, refs) →
    Transaction_alloc size (tx, sy_world s) = (result, (tx', w')) → seen result y →
    thread_step i (mk_machine s ts)
      (mk_machine (step_to s i tx' (handed ('(_, d) ← result; mret d) refs) w') (<[i := Busy (next y)]> ts))
| th_load s ts d off len next tx refs bytes las' :
    ts !! i = Some (Busy (Loading d off len next)) → sy_txs s !! i = Some (tx, refs) →
    las_load (mr_source d) (mr_off d + off) len (sy_las s) = (Ok bytes, las') →
    thread_step i (mk_machine s ts) (mk_machine (poke_to s (with_las las' (sy_world s))) (<[i := Busy (next bytes)]> ts))
| th_store s ts d off bytes next tx refs las' :
    ts !! i = Some (Busy (Storing d off bytes next)) → sy_txs s !! i = Some (tx, refs) →
    las_store (mr_source d) (mr_off d + off) bytes (sy_las s) = (Ok tt, las') →
    thread_step i (mk_machine s ts) (mk_machine (poke_to s (with_las las' (sy_world s))) (<[i := Busy next]> ts))
| th_commit s ts (v : R) tx refs result tx' w' y :
    ts !! i = Some (Busy (Done (inl v))) → sy_txs s !! i = Some (tx, refs) →
    Transaction_commit (tx, sy_world s) = (result, (tx', w')) → seen result y →
    thread_step i (mk_machine s ts) (mk_machine (ended (poke_to s w') i)
      (<[i := attempt_over (match y with inl _ => inl v | inr error => inr error end : R + Error)]> ts))
| th_abort s ts error tx refs tx' w' :
    ts !! i = Some (Busy (Done (inr error))) → sy_txs s !! i = Some (tx, refs) →
    Transaction_abort (tx, sy_world s) = (Ok tt, (tx', w')) →
    thread_step i (mk_machine s ts) (mk_machine (ended (poke_to s w') i) (<[i := attempt_over (inr error)]> ts)).

(** ** A thread that has the heap to itself *)

(** A transaction that has written nothing can always commit. *)
Lemma commit_unwritten tx w : tx_version tx = None → Transaction_commit (tx, w) = (Ok tt, (tx, w)).
Proof. intros Hv. unfold Transaction_commit. by rewrite (bind_ok _ _ _ tx (tx, w)), Hv by done. Qed.

(** What remains of [run] while its closure runs. *)
Definition rest_of_run (retries fuel : nat) (c0 c : client R) (st : Transaction * World D) : outcome R * World D :=
  let '(o, (_, w)) := (result ← attempt (closure fuel c);
    match result with
    | inl r => Transaction_commit ;; mret r
    | inr e => Transaction_abort ;; throw e
    end) st in
  match o with Err TxAborted => Librarius_run retries root (closure fuel c0) w | _ => (o, w) end.

Lemma run_rest retries fuel c0 w :
  Librarius_run (S retries) root (closure fuel c0) w = rest_of_run retries fuel c0 c0 (fresh_transaction root w, w).
Proof.
  unfold rest_of_run. destruct (Librarius_run_once root (closure fuel c0) w) as [o w'] eqn:Ho.
  pose proof Ho as Ho'. unfold Librarius_run_once in Ho'. rewrite in_transaction_eq in Ho'.
  match type of Ho' with (let '(_, _) := ?p in _) = _ => destruct p as [o1 [tx1 w1]] end. injection Ho' as -> ->.
  destruct (is_aborted o) as [->|Hne]; [by apply run_aborted|].
  rewrite (run_step root _ retries w o w' Ho Hne). destruct o as [|[[]| | |]]; done.
Qed.

(** A call whose result the closure goes on with. *)
Lemma rest_of_run_bind {A} retries fuel c0 c (next : A + Error → client R) (call : M (Transaction * World D) A) st st' (o : outcome A) (y : A + Error) :
  closure fuel c st = (z ← attempt call; closure fuel (next z)) st →
  call st = (o, st') → seen o y → rest_of_run retries fuel c0 c st = rest_of_run retries fuel c0 (next y) st'.
Proof.
  intros Hc Hcall Hy. unfold rest_of_run.
  assert (closure fuel c st = closure fuel (next y) st') as E.
  { rewrite Hc. destruct o as [a|[e| | |]]; try done; simpl in Hy; subst y.
    - by rewrite (bind_ok _ _ _ (inl a) st') by (by apply attempt_ok).
    - by rewrite (bind_ok _ _ _ (inr e) st') by (by apply attempt_err). }
  unfold mbind, M_bind, attempt. by rewrite E.
Qed.

Lemma rest_of_run_next retries fuel c0 c c' st st' : closure fuel c st = closure fuel c' st' →
  rest_of_run retries fuel c0 c st = rest_of_run retries fuel c0 c' st'.
Proof. intros E. unfold rest_of_run, mbind, M_bind, attempt. by rewrite E. Qed.

(** The thread [i] on its way to its result. *)
Definition returns_alone (i : nat) x w' s ts : Prop := ∃ result, seen result x ∧
  match ts !! i with
  | Some Ready => ∃ retries, eventually (λ fuel, Librarius_run retries root (closure fuel (body i)) (sy_world s)) (result, w')
  | Some (Busy c) => ∀ tx refs, sy_txs s !! i = Some (tx, refs) → ∃ retries,
      eventually (λ fuel, rest_of_run retries fuel (body i) c (tx, sy_world s)) (result, w')
  | Some (Returned x') => x' = x ∧ sy_world s = w'
  | None => True
  end.

Lemma alone_call i x w' s ts c c' s1 tx refs tx1 refs1 : ts !! i = Some (Busy c) →
  sy_txs s !! i = Some (tx, refs) → sy_txs s1 !! i = Some (tx1, refs1) →
  (∃ n, ∀ fuel retries, (n ≤ fuel)%nat → rest_of_run retries fuel (body i) c (tx, sy_world s) =
    rest_of_run retries fuel (body i) c' (tx1, sy_world s1)) →
  returns_alone i x w' s1 (<[i := Busy c']> ts) → returns_alone i x w' s ts.
Proof.
  intros Hi Htx Htx1 [n Hn] (result & Hr & Hres). exists result. split; [done|]. rewrite Hi. intros tx0 refs0 Htx0.
  rewrite Htx in Htx0. injection Htx0 as <- <-. rewrite list_lookup_insert_eq in Hres by by apply lookup_lt_Some in Hi.
  destruct (Hres tx1 refs1 Htx1) as (retries & n' & Hn'). exists retries, (max n n'). intros fuel Hf.
  rewrite Hn by lia. apply Hn'. lia.
Qed.

(** An attempt ends. *)
Lemma alone_over i x w' s ts c s1 tx refs y : ts !! i = Some (Busy c) → sy_txs s !! i = Some (tx, refs) →
  (∃ o, seen o y ∧ ∀ retries fuel, rest_of_run retries fuel (body i) c (tx, sy_world s) =
     match o with Err TxAborted => Librarius_run retries root (closure fuel (body i)) (sy_world s1) | _ => (o, sy_world s1) end) →
  returns_alone i x w' s1 (<[i := attempt_over y]> ts) → returns_alone i x w' s ts.
Proof.
  intros Hi Htx (o & Hy & Ho) (result & Hr & Hres). exists result. split; [done|]. rewrite Hi. intros tx0 refs0 Htx0.
  rewrite Htx in Htx0. injection Htx0 as <- <-. rewrite list_lookup_insert_eq in Hres by by apply lookup_lt_Some in Hi.
  assert (attempt_over y = Returned y ∧ o ≠ Err TxAborted ∨ y = inr TxAborted ∧ o = Err TxAborted) as [[E Hne]|[-> ->]].
  { destruct o as [v|[error| | |]]; simpl in Hy; try done; subst y; [by left|by destruct error; auto]. }
  - rewrite E in Hres. destruct Hres as [-> <-].
    assert (result = o) as -> by (destruct o as [|[| | |]], result as [|[| | |]]; simpl in Hy, Hr; congruence || done).
    exists 0%nat, 0%nat. intros fuel _. rewrite Ho. by destruct o as [|[[]| | |]].
  - destruct Hres as (retries & n & Hn). exists retries, n. intros fuel Hf. rewrite Ho. by apply Hn.
Qed.

Lemma step_alone i x w' s ts s1 ts1 : thread_step i (mk_machine s ts) (mk_machine s1 ts1) →
  returns_alone i x w' s1 ts1 → returns_alone i x w' s ts.
Proof.
  intros Hst. inversion Hst as [? ? tx w1 Hi Htx Hnew|? ? k size next tx refs o tx1 w1 y Hi Htx [n Hn] Hy|
    ? ? k size next tx refs o tx1 w1 y Hi Htx [n Hn] Hy|? ? k size next tx refs o tx1 w1 y Hi Htx [n Hn] Hy|
    ? ? size next tx refs o tx1 w1 y Hi Htx Ho Hy|? ? d off len next tx refs bytes las1 Hi Htx Ho|
    ? ? d off bytes next tx refs las1 Hi Htx Ho|? ? v tx refs o tx1 w1 y Hi Htx Ho Hy|? ? error tx refs tx1 w1 Hi Htx Ho]; subst.
  - injection Hnew as <- <-. intros (result & Hr & Hres). exists result. split; [done|]. rewrite Hi.
    rewrite list_lookup_insert_eq in Hres by by apply lookup_lt_Some in Hi.
    destruct (Hres _ _ (step_to_this _ _ _ _ _)) as (retries & n & Hn). exists (S retries), n. intros fuel Hf.
    rewrite run_rest. by apply Hn.
  - apply (alone_call i x w' s ts _ _ _ tx refs tx1 refs Hi Htx (step_to_this _ _ _ _ _)). exists n. intros fuel retries Hf.
    by apply (rest_of_run_bind retries fuel _ _ next (Transaction_read fuel k size) _ _ o y); [|apply Hn|].
  - apply (alone_call i x w' s ts _ _ _ tx refs tx1 refs Hi Htx (step_to_this _ _ _ _ _)). exists n. intros fuel retries Hf.
    by apply (rest_of_run_bind retries fuel _ _ next (Transaction_read_for_write fuel k size) _ _ o y); [|apply Hn|].
  - apply (alone_call i x w' s ts _ _ _ tx refs tx1 _ Hi Htx (step_to_this _ _ _ _ _)). exists n. intros fuel retries Hf.
    by apply (rest_of_run_bind retries fuel _ _ next (Transaction_write fuel k size) _ _ o y); [|apply Hn|].
  - apply (alone_call i x w' s ts _ _ _ tx refs tx1 _ Hi Htx (step_to_this _ _ _ _ _)). exists 0%nat. intros fuel retries _.
    by apply (rest_of_run_bind retries fuel _ _ next (Transaction_alloc size) _ _ o y).
  - apply (alone_call i x w' s ts _ (next bytes) (poke_to s (with_las las1 (sy_world s))) tx refs tx refs Hi Htx Htx). exists 0%nat. intros fuel retries _.
    apply rest_of_run_next. cbn [closure]. by rewrite (bind_ok _ _ _ bytes (tx, with_las las1 (sy_world s))) by by apply on_tx_las_eq.
  - apply (alone_call i x w' s ts _ next (poke_to s (with_las las1 (sy_world s))) tx refs tx refs Hi Htx Htx). exists 0%nat. intros fuel retries _.
    apply rest_of_run_next. cbn [closure]. by rewrite (bind_ok _ _ _ tt (tx, with_las las1 (sy_world s))) by by apply on_tx_las_eq.
  - apply (alone_over i x w' s ts _ (ended (poke_to s w1) i) tx refs _ Hi Htx).
    exists (match o with Ok _ => Ok v | Fail f => Fail f end). split; [by destruct o as [[]|[error| | |]]; simpl in Hy; try done; subst y|].
    intros retries fuel. unfold rest_of_run. cbn [closure]. rewrite (bind_ok _ _ _ (inl v) (tx, sy_world s)) by done.
    destruct o as [[]|f]; by step Ho.
  - apply (alone_over i x w' s ts _ (ended (poke_to s w1) i) tx refs (inr error) Hi Htx). exists (Err error). split; [done|].
    intros retries fuel. unfold rest_of_run. cbn [closure]. rewrite (bind_ok _ _ _ (inr error) (tx, sy_world s)) by done. by step Ho.
Qed.

(** C16: equivalence: a thread that runs alone from its first attempt to its
    result returns what [run] returns, with as many retries as it takes, and
    leaves the heap as [run] does. *)
Theorem thread_alone i x s ts s' ts' : ts !! i = Some Ready →
  rtc (thread_step i) (mk_machine s ts) (mk_machine s' ts') → ts' !! i = Some (Returned x) →
  ∃ retries result, seen result x ∧
    eventually (λ fuel, Librarius_run retries root (closure fuel (body i)) (sy_world s)) (result, sy_world s').
Proof.
  intros Hi Hst Hx. assert (returns_alone i x (sy_world s') s ts) as (result & Hr & Hres).
  { remember (mk_machine s ts) as mc eqn:Hm. remember (mk_machine s' ts') as mc' eqn:Hm'.
    clear Hi. revert s ts Hm. induction Hst as [mc|mc [s1 ts1] mc2 Hst _ IH]; intros s ts ->.
    - injection Hm' as <- <-. destruct x as [v|error]; [exists (Ok v)|exists (Err error)]; by rewrite Hx.
    - by apply (step_alone i x (sy_world s') s ts s1 ts1), IH. }
  rewrite Hi in Hres. destruct Hres as [retries Hev]. by exists retries, result.
Qed.

(** ** Threads side by side *)
Lemma seen_unique {A} (o : outcome A) y y' : seen o y → seen o y' → y = y'.
Proof. destruct o as [v|[error| | |]]; simpl; congruence || done. Qed.

(** What a thread does next is determined: the schedule is the only choice. *)
Lemma thread_step_unique i mc mc1 mc2 : thread_step i mc mc1 → thread_step i mc mc2 → mc1 = mc2.
Proof.
  intros H1 H2. destruct H1 as [s ts tx w' Hi Htx Hnew|s ts k size next tx refs o tx1 w1 y Hi Htx Hev Hy|
    s ts k size next tx refs o tx1 w1 y Hi Htx Hev Hy|s ts k size next tx refs o tx1 w1 y Hi Htx Hev Hy|
    s ts size next tx refs o tx1 w1 y Hi Htx Ho Hy|s ts d off len next tx refs bytes las1 Hi Htx Ho|
    s ts d off bytes next tx refs las1 Hi Htx Ho|s ts v tx refs o tx1 w1 y Hi Htx Ho Hy|s ts error tx refs tx1 w1 Hi Htx Ho];
    inversion H2; subst; repeat match goal with
    | A : ?f = Some _, B : ?f = Some _ |- _ => rewrite A in B; simplify_eq
    | A : ?f = (_, _), B : ?f = (_, _) |- _ => rewrite A in B; simplify_eq
    | A : eventually ?f ?x, B : eventually ?f ?x' |- _ =>
        let E := fresh in pose proof (eventually_unique f x x' A B) as E; clear B; simplify_eq
    end;
    repeat match goal with
    | A : seen ?o ?z, B : seen ?o ?z' |- _ => pose proof (seen_unique o z z' A B); clear B; subst
    end; done.
Qed.

(** The schedule picks any thread, while the numbers of commits last. *)
Definition any_step (mc mc' : machine D R) : Prop :=
  w_version (sy_world (mc_system mc)) + 1 < 2 ^ 63 ∧ ∃ i, thread_step i mc mc'.

Definition unfinished (st : thread R) : Prop := match st with Returned _ => False | _ => True end.

(** No thread is ever stuck. *)
Definition goes_on_all (mc : machine D R) : Prop := ∀ i st, mc_threads mc !! i = Some st → unfinished st →
  w_version (sy_world (mc_system mc)) + 1 < 2 ^ 63 → ∃ mc', thread_step i mc mc'.

Definition sound (I : machine D R → Prop) : Prop := ∀ mc i st, I mc → mc_threads mc !! i = Some st → unfinished st →
  w_version (sy_world (mc_system mc)) + 1 < 2 ^ 63 → ∃ mc', thread_step i mc mc' ∧ I mc'.

Lemma thread_step_unfinished i mc mc' : thread_step i mc mc' → ∃ st, mc_threads mc !! i = Some st ∧ unfinished st.
Proof. destruct 1; cbn [mc_threads]; eexists; (split; [eassumption|exact Logic.I]). Qed.

Lemma threads_kept mc mc' : rtc any_step mc mc' → length (mc_threads mc') = length (mc_threads mc).
Proof. induction 1 as [|mc mc1 mc2 [_ [i Hi]] _ IH]; [done|]. rewrite IH. destruct Hi; cbn [mc_threads]; by rewrite length_insert. Qed.

(** What holds after a step of each thread, holds whatever the schedule. *)
Lemma sound_reachable (I : machine D R → Prop) mc mc' : sound I → I mc → rtc any_step mc mc' → I mc' ∧ goes_on_all mc'.
Proof.
  intros HI H0 Hst. assert (I mc') as H'.
  { induction Hst as [|mc mc1 mc2 [Hlt [i Hi]] _ IH]; [done|]. apply IH.
    destruct (thread_step_unfinished i mc mc1 Hi) as (st & Hst & Hu).
    destruct (HI mc i st H0 Hst Hu Hlt) as (mc1' & Hi' & H1). by rewrite (thread_step_unique i mc mc1 mc1'). }
  split; [done|]. intros i st Hi Hu Hlt. destruct (HI mc' i st H' Hi Hu Hlt) as (mc2 & ? & _). by exists mc2.
Qed.

(** ** Closures that keep to the rules *)
Context (sizes : gmap cell ObjectSize).

Definition thread_ok s (i : nat) (st : thread R) : Prop :=
  match st with
  | Ready => sy_txs s !! i = None
  | Busy c => ∃ tx refs reads, sy_txs s !! i = Some (tx, refs) ∧ client_ok sizes refs reads c ∧ Forall (readable s) reads
  | Returned _ => True
  end.

Definition threads_ok (mc : machine D R) : Prop := (∃ m, represents sizes (mc_system mc) m) ∧
  ∀ i st, mc_threads mc !! i = Some st → thread_ok (mc_system mc) i st.

Lemma thread_ok_other s s' j st : las_shape (sy_las s') = las_shape (sy_las s) → sy_txs s' !! j = sy_txs s !! j →
  thread_ok s j st → thread_ok s' j st.
Proof.
  intros Hsh Htx. destruct st as [|c|x]; simpl; [congruence| |done]. intros (tx & refs & reads & Hi & Hc & Hr).
  exists tx, refs, reads. split_and!; [congruence|done|]. apply (Forall_impl _ _ _ Hr). intros d. by apply readable_shape.
Qed.

(** One thread moves, the others stay as they are. *)
Lemma threads_ok_step s ts i st st' s' : threads_ok (mk_machine s ts) → ts !! i = Some st →
  las_shape (sy_las s') = las_shape (sy_las s) → (∀ j, j ≠ i → sy_txs s' !! j = sy_txs s !! j) →
  (∃ m, represents sizes s' m) → thread_ok s' i st' → threads_ok (mk_machine s' (<[i := st']> ts)).
Proof.
  intros [_ Hall] Hi Hsh Htx Hrp Hok. split; [done|]. intros j stj Hj.
  apply list_lookup_insert_Some in Hj as [(<- & <- & _)|[Hne Hj]]; [done|].
  apply (thread_ok_other s); [done|by apply Htx|by apply Hall].
Qed.

(** After a call of a transaction. *)
Lemma threads_ok_call {A} s ts i st c' tx (f : nat → M (Transaction * World D) A) o tx1 refs1 reads1 w1 :
  threads_ok (mk_machine s ts) → ts !! i = Some st → called sizes s i tx f o tx1 refs1 w1 →
  client_ok sizes refs1 reads1 c' → Forall (readable (step_to s i tx1 refs1 w1)) reads1 →
  threads_ok (mk_machine (step_to s i tx1 refs1 w1) (<[i := Busy c']> ts)).
Proof.
  intros Hall Hi Hc Hok Hr. apply threads_ok_step with s st; [done|done|apply (cl_shape _ _ _ _ _ _ _ _ _ Hc)| | |].
  - intros j Hne. simpl. by rewrite lookup_insert_ne.
  - apply (cl_represents _ _ _ _ _ _ _ _ _ Hc).
  - exists tx1, refs1, reads1. split_and!; [apply step_to_this|done|done].
Qed.

Lemma threads_ok_end s ts i st st' m' w' : threads_ok (mk_machine s ts) → ts !! i = Some st →
  las_shape (w_las w') = las_shape (sy_las s) → represents sizes (ended (poke_to s w') i) m' →
  match st' with Busy _ => False | _ => True end →
  threads_ok (mk_machine (ended (poke_to s w') i) (<[i := st']> ts)).
Proof.
  intros Hall Hi Hsh Hrp Hst. apply threads_ok_step with s st; [done|done|done| |by exists m'|].
  - intros j Hne. simpl. by rewrite lookup_delete_ne.
  - destruct st'; [apply lookup_delete_eq|done|done].
Qed.

(** The thread [i] can move, and all is well after it. *)
Definition moves (i : nat) s ts : Prop := ∃ mc', thread_step i (mk_machine s ts) mc' ∧ threads_ok mc' ∧
  rtc (sys_step sizes) s (mc_system mc').

Lemma end_sound s ts i x : threads_ok (mk_machine s ts) → ts !! i = Some (Busy (Done x)) →
  w_version (sy_world s) + 1 < 2 ^ 63 → moves i s ts.
Proof.
  intros Hall Hi Hlt. pose proof Hall as [[m Hrp] Hths]. destruct (Hths i _ Hi) as (tx & refs & reads & Htx & Hok & Hrd).
  cbn [mc_system] in *. destruct x as [r|error].
  - destruct (represents_running sizes s m i tx refs Hrp Htx) as (rr & Hrr & _).
    destruct (system_commit sizes s m i tx refs rr Hrp Htx Hrr Hlt) as (o & w' & m' & Heq & _ & [Hsh _] & Hrp' & Hres).
    assert (returns o) as Hret by (destruct o as [[]|f]; [done|destruct Hres as [-> _]; by eexists]).
    destruct (returns_seen o Hret) as [y Hy]. eexists. split_and!; [by apply (th_commit i s ts r tx refs o tx w' y)| |by eapply rtc_once, sys_commit].
    apply (threads_ok_end s ts i (Busy (Done (inl r))) _ m' w'); try done. by destruct y as [|[]].
  - destruct (represents_running sizes s m i tx refs Hrp Htx) as (rr & Hrr & _).
    destruct (system_abort sizes s m i tx refs rr Hrp Htx Hrr) as (Heq & _ & [Hsh _] & Hrp').
    eexists. split_and!; [by apply (th_abort i s ts error tx refs tx _ Hi Htx Heq)| |by eapply rtc_once, sys_abort].
    eapply (threads_ok_end s ts i (Busy (Done (inr error)))); [done|done|exact Hsh|exact Hrp'|by destruct error].
Qed.

Lemma poke_to_same s : poke_to s (with_las (sy_las s) (sy_world s)) = s.
Proof. unfold poke_to, sy_las. rewrite with_las_id. by destruct s. Qed.

Lemma memory_sound s ts i c : threads_ok (mk_machine s ts) → ts !! i = Some (Busy c) →
  match c with Loading _ _ _ _ | Storing _ _ _ _ => True | _ => False end → moves i s ts.
Proof.
  intros Hall Hi Hc. pose proof Hall as [[m Hrp] Hths]. destruct (Hths i _ Hi) as (tx & refs & reads & Htx & Hok & Hrd).
  cbn [mc_system] in *. destruct c as [| | | | | |d off len next|d off bytes next]; try done; simpl in Hok.
  - destruct Hok as (Hd & Hoff & Hlen & Hle & Hok). pose proof Hrd as Hrd'. rewrite Forall_forall in Hrd'.
    destruct (mem_within (sy_las s) (mr_source d) (mr_off d) (mr_len d) off len (Hrd' d Hd) Hoff Hlen Hle) as [bytes Hb].
    eexists. split_and!; [apply (th_load i s ts d off len next tx refs bytes (sy_las s) Hi Htx); by apply las_load_ok| |].
    { apply threads_ok_step with s (Busy (Loading d off len next)); try done; [by rewrite poke_to_same; exists m|].
      exists tx, refs, reads. split_and!; [done|apply Hok|]. apply (Forall_impl _ _ _ Hrd). intros d'. by apply readable_shape. }
    cbn [mc_system]. by rewrite poke_to_same.
  - destruct Hok as (Hd & Hoff & Hle & Hok). assert (filling s i d) as Hf by by exists tx, refs.
    destruct (represents_store sizes s m i d off bytes Hrp Hf Hoff Hle) as [Heq Hrp'].
    destruct (settled_store sizes s m i d off bytes Hrp Hf Hoff Hle) as [Hsh _].
    eexists. split_and!; [by apply (th_store i s ts d off bytes next tx refs _ Hi Htx Heq)| |by eapply rtc_once, sys_store].
    apply threads_ok_step with s (Busy (Storing d off bytes next)); try done; [by exists m|].
    exists tx, refs, reads. split_and!; [done|done|]. apply (Forall_impl _ _ _ Hrd). intros d'. by apply readable_shape.
Qed.

(** A call whose result the closure of the thread [i] looks at. *)
Lemma attempt_sound {A} s ts i st (next : A + Error → client R) ref tx (f : nat → M (Transaction * World D) A) o tx1 refs1 reads w1 :
  threads_ok (mk_machine s ts) → ts !! i = Some st → called sizes s i tx f o tx1 refs1 w1 → Forall (readable s) reads →
  awaits sizes next ref o (step_to s i tx1 refs1 w1) refs1 reads →
  (∀ y, seen o y → thread_step i (mk_machine s ts) (mk_machine (step_to s i tx1 refs1 w1) (<[i := Busy (next y)]> ts))) →
  moves i s ts.
Proof.
  intros Hall Hi Hc Hrd Haw Hst. destruct (returns_seen o (cl_returns _ _ _ _ _ _ _ _ _ Hc)) as [y Hy].
  destruct (awaits_seen _ _ _ _ _ _ _ _ _ _ _ _ _ Hc Haw Hrd Hy) as [Hok Hrd'].
  eexists. split_and!; [by apply Hst| |apply Hc]. by eapply threads_ok_call.
Qed.

Lemma client_sound s ts i c : threads_ok (mk_machine s ts) → ts !! i = Some (Busy c) →
  w_version (sy_world s) + 1 < 2 ^ 63 → moves i s ts.
Proof.
  intros Hall Hi Hlt. pose proof Hall as [[m Hrp] Hths]. destruct (Hths i _ Hi) as (tx & refs & reads & Htx & Hok & Hrd).
  cbn [mc_system] in *. destruct c as [x|f|k size next|k size next|k size next|size next|d off len next|d off bytes next];
    [by apply (end_sound s ts i x)|done| | | | |by eapply memory_sound..].
  - destruct (awaits_read sizes s m i tx refs reads k size next) as (o & Hc & Haw); [done..|].
    eapply attempt_sound; [done..|]. intros y Hy. apply (th_read i s ts k size next tx refs o tx (sy_world s) y); [done..|apply Hc|done].
  - destruct (awaits_read_for_write sizes s m i tx refs reads k size next) as (o & tx1 & Hc & Haw); [done..|].
    eapply attempt_sound; [done..|]. intros y Hy. apply (th_read_for_write i s ts k size next tx refs o tx1 (sy_world s) y); [done..|apply Hc|done].
  - destruct (awaits_write sizes s m i tx refs reads k size next) as (o & tx1 & w1 & Hc & Haw); [done..|].
    eapply attempt_sound; [done..|]. intros y Hy. apply (th_write i s ts k size next tx refs o tx1 w1 y); [done..|apply Hc|done].
  - destruct (awaits_alloc sizes s m i tx refs reads size next) as (o & tx1 & refs1 & w1 & -> & Hc & Haw); [done..|].
    destruct (cl_result _ _ _ _ _ _ _ _ _ Hc) as [n Hn].
    eapply attempt_sound; [done..|]. intros y Hy. apply (th_alloc i s ts size next tx refs o tx1 w1 y); [done..|by apply (Hn n)|done].
Qed.

Lemma begin_sound s ts i : threads_ok (mk_machine s ts) → client_ok sizes [] [] (body i) → ts !! i = Some Ready → moves i s ts.
Proof.
  intros Hall Hok Hi. pose proof Hall as [[m Hrp] Hths]. pose proof (Hths i _ Hi) as Htx. cbn [mc_system thread_ok] in *.
  destruct (represents_begin sizes s m i root Hrp Htx) as [_ Hrp'].
  eexists. split_and!; [by apply (th_begin i s ts (fresh_transaction root (sy_world s)) (sy_world s))| |by eapply rtc_once, sys_begin].
  apply threads_ok_step with s Ready; try done; [|by eexists|].
  - intros j Hne. simpl. by rewrite lookup_insert_ne.
  - exists (fresh_transaction root (sy_world s)), [], []. split_and!; [apply step_to_this|done|done].
Qed.

End Threads.
