(* ===== verification/Schedules.v ===== *)
(** * Schedules

    Threads that take their steps in a given order, as a function: the steps of
    [Threads] can be evaluated.  For that, a bound on the length of version
    chains that was enough for a result is followed by bounds that all give
    this result. *)
From S2P Require Import Prelude Utils Source SourceAllocator Slices Las Memory Pointer Vos.
From S2P Require Import Allocators Versions Objects Tx Transactions Heap Runs Snapshot Arena Simulation Calls Isolation Clients Threads.

(** ** Bounds that are enough *)

(** [m'] does what [m] does, where [m] has not run out of its bound. *)
Definition extends {S A} (m m' : M S A) : Prop := ∀ st, (m st).1 ≠ Fail Diverge → m' st = m st.

#[export] Instance extends_preorder S A : PreOrder (@extends S A).
Proof.
  split; [by intros m st _|]. intros m1 m2 m3 H1 H2 st Hst. rewrite (H2 st); [by apply H1|]. by rewrite H1.
Qed.

Lemma extends_eq {S A} (m m' : M S A) st o st' : extends m m' → m st = (o, st') → o ≠ Fail Diverge → m' st = (o, st').
Proof. intros Hm E Ho. by rewrite (Hm st), E by by rewrite E. Qed.

Section Extends.
Context {S A B : Type}.

Lemma extends_bind (m m' : M S A) (f f' : A → M S B) : extends m m' → (∀ a, extends (f a) (f' a)) → extends (m ≫= f) (m' ≫= f').
Proof.
  intros Hm Hf st Hst. destruct (m st) as [[a|e] st1] eqn:E.
  - pose proof (extends_eq m m' st _ _ Hm E ltac:(done)) as E'.
    rewrite (bind_ok _ _ _ _ _ E) in *. rewrite (bind_ok _ _ _ _ _ E'). by apply Hf.
  - rewrite (bind_fail _ _ _ _ _ E) in *. by rewrite (bind_fail _ _ _ _ _ (extends_eq m m' st _ _ Hm E ltac:(simpl in Hst; congruence))).
Qed.

Lemma extends_zoom {T} (getter : S → T) setter (m m' : M T A) : extends m m' → extends (zoom getter setter m) (zoom getter setter m').
Proof.
  intros Hm st Hst. unfold zoom in *. destruct (m (getter st)) as [o t] eqn:E. by rewrite (extends_eq m m' _ _ _ Hm E Hst).
Qed.

Lemma extends_attempt (m m' : M S A) : extends m m' → extends (attempt m) (attempt m').
Proof.
  intros Hm st Hst. unfold attempt in *. destruct (m st) as [o t] eqn:E. rewrite (extends_eq m m' st o t Hm E); [done|].
  intros ->. by apply Hst.
Qed.
End Extends.

Section Schedules.
Context `{T : Target} `{C : Crc} {D : Type} `{Src : !Source D}.
Implicit Types (w : World D) (tx : Transaction) (s : system D).

(** One more version is followed. *)
Lemma read_step fuel fuel' reader size abort :
  (∀ ptr, extends (VersionedReader_read (D := D) fuel reader ptr size abort) (VersionedReader_read fuel' reader ptr size abort)) →
  ∀ ptr, extends (VersionedReader_read (D := D) (S fuel) reader ptr size abort) (VersionedReader_read (S fuel') reader ptr size abort).
Proof.
  intros IH ptr. cbn [VersionedReader_read].
  repeat first [reflexivity | apply IH | case_match | apply extends_bind; [first [apply IH|reflexivity]|intros] ].
Qed.

Lemma VersionedReader_read_more fuel fuel' reader ptr size abort : (fuel ≤ fuel')%nat →
  extends (VersionedReader_read (D := D) fuel reader ptr size abort) (VersionedReader_read fuel' reader ptr size abort).
Proof.
  revert fuel' ptr. induction fuel as [|fuel IH]; intros fuel' ptr Hle; [by intros st|].
  destruct fuel' as [|fuel']; [lia|]. apply read_step. intros ptr'. apply IH. lia.
Qed.

Lemma extends_on_tx_las {A} (m m' : M (LogicalAddressSpace D) A) : extends m m' → extends (on_tx_las m) (on_tx_las m').
Proof. intros Hm. by apply extends_zoom, extends_zoom. Qed.

Ltac extend := repeat first [reflexivity | apply extends_on_tx_las; by apply VersionedReader_read_more
  | apply extends_bind; [first [reflexivity|apply extends_on_tx_las; by apply VersionedReader_read_more]|intros] | case_match].

Lemma Transaction_read_more fuel fuel' pointer size : (fuel ≤ fuel')%nat →
  extends (Transaction_read (D := D) fuel pointer size) (Transaction_read fuel' pointer size).
Proof. intros Hle. unfold Transaction_read. extend. Qed.

Lemma Transaction_read_for_write_more fuel fuel' pointer size : (fuel ≤ fuel')%nat →
  extends (Transaction_read_for_write (D := D) fuel pointer size) (Transaction_read_for_write fuel' pointer size).
Proof. intros Hle. unfold Transaction_read_for_write. extend. Qed.

Lemma Transaction_write_more fuel fuel' pointer size : (fuel ≤ fuel')%nat →
  extends (Transaction_write (D := D) fuel pointer size) (Transaction_write fuel' pointer size).
Proof. intros Hle. unfold Transaction_write, UntypedPointer_clone. extend. Qed.

(** What a call returns with one bound, it does with all that are larger. *)
Lemma extends_eventually {S A} (m : nat → M S A) fuel st o st' : (∀ fuel', (fuel ≤ fuel')%nat → extends (m fuel) (m fuel')) →
  m fuel st = (o, st') → o ≠ Fail Diverge → eventually (λ fuel, m fuel st) (o, st').
Proof. intros Hm E Ho. exists fuel. intros fuel' Hle. by apply (extends_eq _ _ _ _ _ (Hm fuel' Hle)). Qed.

Lemma new_read_computed root w pointer size fuel o : new_read root w pointer size fuel = o → o ≠ Fail Diverge →
  eventually (new_read root w pointer size) o.
Proof.
  unfold new_read. intros E Ho. destruct (Transaction_read fuel pointer size (fresh_transaction root w, w)) as [o' st'] eqn:E'.
  simpl in E. subst o'. refine (eventually_map fst _ (o, st') _).
  apply (extends_eventually (λ n, Transaction_read n pointer size) fuel); [intros; by apply Transaction_read_more|done|done].
Qed.

(** ** Threads that take turns *)
Context {R : Type} (root : cell) (body : nat → client R) (fuel : nat).
Implicit Types (ts : list (thread R)) (c : client R).

Definition returned {A} (o : outcome A) : option (A + Error) :=
  match o with Ok a => Some (inl a) | Fail (Throw error) => Some (inr error) | Fail _ => None end.

Lemma returned_seen {A} (o : outcome A) y : returned o = Some y → seen o y ∧ o ≠ Fail Diverge.
Proof. destruct o as [a|[error| | |]]; simpl; intros [= <-]; done. Qed.

(** The thread [i] after a call, or at its end. *)
Definition after_call {A} s ts (i : nat) (refs : list memref) (call : outcome A * (Transaction * World D))
    (hand : outcome A → list memref) (next : A + Error → client R) : option (machine D R) :=
  let '(o, (tx, w)) := call in
  y ← returned o; Some (mk_machine (step_to s i tx (hand o) w) (<[i := Busy (next y)]> ts)).
Definition after_access {A} s ts (i : nat) (access : outcome A * LogicalAddressSpace D) (next : A → client R) : option (machine D R) :=
  let '(o, las) := access in
  match o with Ok a => Some (mk_machine (poke_to s (with_las las (sy_world s))) (<[i := Busy (next a)]> ts)) | Fail _ => None end.
Definition after_end {A} s ts (i : nat) (call : outcome A * (Transaction * World D)) (result : A + Error → R + Error) : option (machine D R) :=
  let '(o, (_, w)) := call in
  y ← returned o; Some (mk_machine (ended (poke_to s w) i) (<[i := attempt_over (result y)]> ts)).

Definition take_step (i : nat) (mc : machine D R) : option (machine D R) :=
  let s := mc_system mc in let ts := mc_threads mc in let w := sy_world s in
  st ← ts !! i;
  match st, sy_txs s !! i with
  | Ready, None =>
      match Transaction_new root w with
      | (Ok tx, w') => Some (mk_machine (step_to s i tx [] w') (<[i := Busy (body i)]> ts))
      | _ => None
      end
  | Busy c, Some (tx, refs) =>
      match c with
      | Reading k size next => after_call s ts i refs (Transaction_read fuel k size (tx, w)) (λ _, refs) next
      | ReadingForWrite k size next => after_call s ts i refs (Transaction_read_for_write fuel k size (tx, w)) (λ _, refs) next
      | Writing k size next => after_call s ts i refs (Transaction_write fuel k size (tx, w)) (λ o, handed o refs) next
      | Allocating size next =>
          after_call s ts i refs (Transaction_alloc size (tx, w)) (λ o, handed ('(_, d) ← o; mret d) refs) next
      | Loading d off len next => after_access s ts i (las_load (mr_source d) (mr_off d + off) len (w_las w)) next
      | Storing d off bytes next => after_access s ts i (las_store (mr_source d) (mr_off d + off) bytes (w_las w)) (λ _, next)
      | Done (inl v) => after_end s ts i (Transaction_commit (tx, w)) (λ y, match y with inl _ => inl v | inr error => inr error end)
      | Done (inr error) =>
          match Transaction_abort (tx, w) with
          | (Ok tt, (_, w)) => Some (mk_machine (ended (poke_to s w) i) (<[i := attempt_over (inr error)]> ts))
          | _ => None
          end
      | Crashing _ => None
      end
  | _, _ => None
  end.

(** The threads in the order [turns], each turn a step. *)
Definition take_turns (turns : list nat) (mc : machine D R) : option (machine D R) :=
  foldl (λ mc i, mc ← mc; if decide (w_version (sy_world (mc_system mc)) + 1 < 2 ^ 63) then take_step i mc else None) (Some mc) turns.

Lemma take_step_sound i mc mc' : take_step i mc = Some mc' → thread_step root body i mc mc'.
Proof.
  destruct mc as [s ts]. unfold take_step. cbn [mc_system mc_threads]. intros (st & Hi & Hm)%bind_Some.
  destruct st as [|c|]; [|destruct (sy_txs s !! i) as [[tx refs]|] eqn:Htx; [|done]|done].
  - destruct (sy_txs s !! i) eqn:Htx; [done|]. destruct (Transaction_new root (sy_world s)) as [[tx|] w'] eqn:Hnew; [|done].
    injection Hm as <-. by apply th_begin.
  - destruct c as [[v|error]|f|k size next|k size next|k size next|size next|d off len next|d off bytes next]; [..|done| | | | | |].
    + unfold after_end in Hm. destruct (Transaction_commit (tx, sy_world s)) as [o [tx' w']] eqn:Ho.
      apply bind_Some in Hm as (y & [Hy _]%returned_seen & [= <-]). by apply (th_commit root body i s ts v tx refs o tx' w' y).
    + destruct (Transaction_abort (tx, sy_world s)) as [[[]|] [tx' w']] eqn:Ho; [|done]. injection Hm as <-.
      by apply (th_abort root body i s ts error tx refs tx' w').
    + unfold after_call in Hm. destruct (Transaction_read fuel k size (tx, sy_world s)) as [o [tx' w']] eqn:Ho.
      apply bind_Some in Hm as (y & [Hy Hne]%returned_seen & [= <-]). apply (th_read root body i s ts k size next tx refs o tx' w' y); try done.
      apply (extends_eventually (λ n, Transaction_read n k size) fuel); [intros; by apply Transaction_read_more|done|done].
    + unfold after_call in Hm. destruct (Transaction_read_for_write fuel k size (tx, sy_world s)) as [o [tx' w']] eqn:Ho.
      apply bind_Some in Hm as (y & [Hy Hne]%returned_seen & [= <-]). apply (th_read_for_write root body i s ts k size next tx refs o tx' w' y); try done.
      apply (extends_eventually (λ n, Transaction_read_for_write n k size) fuel); [intros; by apply Transaction_read_for_write_more|done|done].
    + unfold after_call in Hm. destruct (Transaction_write fuel k size (tx, sy_world s)) as [o [tx' w']] eqn:Ho.
      apply bind_Some in Hm as (y & [Hy Hne]%returned_seen & [= <-]). apply (th_write root body i s ts k size next tx refs o tx' w' y); try done.
      apply (extends_eventually (λ n, Transaction_write n k size) fuel); [intros; by apply Transaction_write_more|done|done].
    + unfold after_call in Hm. destruct (Transaction_alloc size (tx, sy_world s)) as [o [tx' w']] eqn:Ho.
      apply bind_Some in Hm as (y & [Hy _]%returned_seen & [= <-]). by apply (th_alloc root body i s ts size next tx refs o tx' w' y).
    + unfold after_access in Hm. destruct (las_load _ _ _ _) as [[bytes|] las'] eqn:Ho; [|done]. injection Hm as <-.
      by apply (th_load root body i s ts d off len next tx refs bytes las').
    + unfold after_access in Hm. destruct (las_store _ _ _ _) as [[[]|] las'] eqn:Ho; [|done]. injection Hm as <-.
      by apply (th_store root body i s ts d off bytes next tx refs las').
Qed.

Lemma take_turns_cons i turns mc : take_turns (i :: turns) mc =
  mc' ← (if decide (w_version (sy_world (mc_system mc)) + 1 < 2 ^ 63) then take_step i mc else None); take_turns turns mc'.
Proof.
  unfold take_turns. cbn [foldl mbind option_bind]. destruct (if decide _ then _ else _) as [mc1|]; [done|]. simpl. by induction turns.
Qed.

Lemma take_turns_sound turns mc mc' : take_turns turns mc = Some mc' → rtc (any_step root body) mc mc'.
Proof.
  revert mc. induction turns as [|i turns IH]; intros mc; [by intros [= <-]|]. rewrite take_turns_cons.
  intros (mc1 & Hm & Hr)%bind_Some. case_decide as Hlt; [|done].
  eapply rtc_l; [|by apply IH]. split; [done|]. exists i. by apply take_step_sound.
Qed.

(** One thread's turns. *)
Lemma take_turns_alone i n mc mc' : take_turns (replicate n i) mc = Some mc' → rtc (thread_step root body i) mc mc'.
Proof.
  revert mc. induction n as [|n IH]; intros mc; [by intros [= <-]|]. cbn [replicate]. rewrite take_turns_cons.
  intros (mc1 & Hm & Hr)%bind_Some. case_decide as Hlt; [|done].
  eapply rtc_l; [|by apply IH]. by apply take_step_sound.
Qed.
End Schedules.
