(* ===== verification/Counter.v ===== *)
(** * The test [counter]

    Ten threads each increment a counter in the root object (test [counter] of
    librarius.rs).  For any number of threads and any schedule: no increment is
    lost, each thread that succeeds returns its own value, and the assertion of
    the test holds. *)
From S2P Require Import Prelude Utils Source SourceAllocator Slices Las Memory Pointer Vos.
From S2P Require Import Allocators Versions Objects Tx Transactions Heap Runs Snapshot Arena Simulation Calls Isolation Clients.
From S2P Require Import Values Views Showing Mapping Founding Blank Threads.
#[local] Arguments u64_bytes : simpl never.

Definition counter_size : ObjectSize := ObjectSize_new_with_usize 0 size_of_usize.

(** [any_from_slice_mut(data)] and [ *counter = 0]. *)
Definition counter_init `{T : Target} {D : Type} `{Src : !Source D} : root_constructor D := λ data, on_world_las (
  counter ← lift (any_from_slice_mut size_of_usize 8 data);
  las_store (mr_source counter) (mr_off counter) (u64_bytes 0)).

(** The test's heap: a counter at 0, on one source. *)
Definition counter_builder `{T : Target} {D : Type} `{Src : !Source D} (source : D) : LibrariusBuilder D :=
  LibrariusBuilder_source source
    (LibrariusBuilder_create_with counter_size counter_init LibrariusBuilder_new).

(** [*counter += 1; Ok( *counter)]. *)
Definition counter_bump `{T : Target} (counter : memref) : client Z :=
  Loading counter 0 size_of_usize (λ bytes,
    match usize_add (le_combine bytes) 1 with
    | Ok v => Storing counter 0 (u64_bytes v) (Done (inl v))
    | Fail f => Crashing f
    end).

(** The same of the bytes [rootp] that are cast to the counter. *)
Definition counter_add `{T : Target} (rootp : memref) : client Z := cast size_of_usize 8 rootp counter_bump.

(** The closure of each thread. *)
Definition counter_increment `{T : Target} (root : cell) : client Z :=
  Writing root counter_size (λ o, match o with inl d => counter_add d | inr error => Done (inr error) end).

(** The closure at the end: [assert_eq!( *counter, nthreads)]. *)
Definition counter_assert `{T : Target} (nthreads : Z) (rootp : memref) : client unit :=
  cast size_of_usize 8 rootp (λ counter, Loading counter 0 size_of_usize (λ bytes,
    if decide (le_combine bytes = nthreads) then Done (inl tt) else Crashing Panic)).

Definition counter_check `{T : Target} (root : cell) (nthreads : Z) : client unit :=
  Reading root counter_size (λ o,
    match o with inl d => counter_assert nthreads d | inr error => Done (inr error) end).

(** [thread::spawn] of all threads, and their [join], each with its result. *)
Definition counter_spawn {D} (librarius : Librarius D) (nthreads : nat) : machine D Z :=
  mk_machine (mk_system (lr_world librarius) ∅) (replicate nthreads Ready).
Definition counter_joined {D} (mc : machine D Z) : Prop := Forall (λ st, ∃ v, st = Returned (inl v)) (mc_threads mc).

(** The values of the threads that have succeeded. *)
Definition succeeded {R} (st : thread R) : option R := match st with Returned (inl v) => Some v | _ => None end.
Definition results {R} (ts : list (thread R)) : list R := omap succeeded ts.

Lemma results_insert {R} (ts : list (thread R)) i st st' : ts !! i = Some st → succeeded st = None →
  results (<[i := st']> ts) ≡ₚ (match succeeded st' with Some v => [v] | None => [] end) ++ results ts.
Proof.
  intros Hi Hst. apply list_elem_of_split_length in Hi as (l1 & l2 & -> & ->). unfold results.
  rewrite insert_app_r_alt, Nat.sub_diag by done. cbn [insert list_insert]. rewrite !omap_app. cbn [omap list_omap]. rewrite Hst.
  destruct (succeeded st') as [v|]; simpl; [|done]. by rewrite Permutation_middle.
Qed.

Lemma results_all {R} (ts : list (thread R)) : Forall (λ st, ∃ v, st = Returned (inl v)) ts → length (results ts) = length ts.
Proof. induction 1 as [|st ts [v ->] _ IH]; [done|]. cbn. by f_equal. Qed.

Lemma results_replicate {R} n : results (replicate n (Ready : thread R)) = [].
Proof. induction n; [done|]. by cbn. Qed.

Section Counter.
Context `{T : Target} `{TOk : !TargetOk T} `{C : Crc} {D : Type} `{Src : !Source D} `{Laws : !SourceLaws D}.
Context (sizes : gmap cell ObjectSize) (root : cell) (root_size : sizes !! root = Some counter_size).
Abbreviation shows := (shows sizes).
Implicit Types (w : World D) (tx : Transaction) (s : system D) (refs : list memref) (k : cell) (d : memref).
Implicit Types (a : values cell stored) (t : worker cell stored) (ts : list (thread Z)) (n : Z).

Lemma counter_add_eq d : mr_len d = size_of_usize → aligned 8 (mr_off d) → counter_add d = counter_bump d.
Proof. intros Hl Ha. unfold counter_add. by rewrite cast_ok by (done || lia). Qed.

(** A value that is the number [n]. *)
Definition holds_number (o : option stored) n : Prop := ∃ d, o = Some (d, Some <$> u64_bytes n).

(** What an increment that is not merely aborted can fail with. *)
Definition wants_memory (error : Error) : Prop := error = NoAvailableMemory ∨ error = AllocationTooLarge.

(** How far an attempt has come, when the counter is at [n]. *)
Inductive counting n : client Z → list memref → gmap cell stored → Prop :=
| counting_start refs : counting n (counter_increment root) refs ∅
| counting_add refs d : d ∈ refs → mr_len d = size_of_usize →
    counting n (counter_bump d) refs {[ root := (d, Some <$> u64_bytes n) ]}
| counting_store refs d : d ∈ refs → mr_len d = size_of_usize →
    counting n (Storing d 0 (u64_bytes (n + 1)) (Done (inl (n + 1)))) refs {[ root := (d, Some <$> u64_bytes n) ]}
| counting_done refs d : counting n (Done (inl (n + 1))) refs {[ root := (d, Some <$> u64_bytes (n + 1)) ]}
| counting_failed refs error : error = TxAborted ∨ wants_memory error → counting n (Done (inr error)) refs ∅.

Definition thread_counts s a n (i : nat) (st : thread Z) : Prop :=
  match st with
  | Ready => sy_txs s !! i = None
  | Busy c => ∃ tx refs t, sy_txs s !! i = Some (tx, refs) ∧ va_workers a !! i = Some t ∧ counting n c refs (wk_drafts t)
  | Returned (inl _) => True
  | Returned (inr error) => wants_memory error
  end.

Lemma results_length ts : (length (results ts) ≤ length ts)%nat.
Proof. unfold results. induction ts as [|st ts IH]; [done|]. cbn. destruct (succeeded st); simpl; lia. Qed.

(** The counter is at its first value plus the increments that succeeded. *)
Definition counted (start : Z) ts : Z := start + Z.of_nat (length (results ts)).

Record counts_at (start : Z) s ts a : Prop := {
  co_range : 0 ≤ start ∧ start + Z.of_nat (length ts) < usize_modulus;
  co_results : results ts ≡ₚ seqZ (start + 1) (Z.of_nat (length (results ts)));
  co_shows : shows s a;
  co_value : holds_number (va_now a !! root) (counted start ts);
  co_threads i st : ts !! i = Some st → thread_counts s a (counted start ts) i st
}.

Definition counts (start : Z) (mc : machine D Z) : Prop := ∃ a, counts_at start (mc_system mc) (mc_threads mc) a.

Lemma counted_insert start ts i st st' : ts !! i = Some st → succeeded st = None → succeeded st' = None →
  counted start (<[i := st']> ts) = counted start ts ∧ results (<[i := st']> ts) ≡ₚ results ts.
Proof.
  intros Hi Hst Hst'. pose proof (results_insert ts i st st' Hi Hst) as Hp. rewrite Hst' in Hp. split; [|done].
  unfold counted. by rewrite Hp.
Qed.

(** A step that does not change the counter. *)
Lemma counts_move start s ts a i st st' s' a' : counts_at start s ts a → ts !! i = Some st →
  succeeded st = None → succeeded st' = None → shows s' a' → va_now a' = va_now a →
  (∀ j, j ≠ i → sy_txs s' !! j = sy_txs s !! j ∧ va_workers a' !! j = va_workers a !! j) →
  thread_counts s' a' (counted start ts) i st' → counts start (mk_machine s' (<[i := st']> ts)).
Proof.
  intros [C1 C2 C3 C4 C5] Hi Hst Hst' Hs' Hnow Hother Hi'. destruct (counted_insert start ts i st st' Hi Hst Hst') as [Hn Hp].
  exists a'. split; cbn [mc_system mc_threads].
  - by rewrite length_insert.
  - by rewrite Hp.
  - done.
  - by rewrite Hn, Hnow.
  - intros j stj Hj. rewrite Hn. apply list_lookup_insert_Some in Hj as [(<- & <- & _)|[Hne Hj]]; [done|].
    destruct (Hother j) as [Htx Hw]; [done|]. specialize (C5 j stj Hj). unfold thread_counts in *. by rewrite Htx, Hw.
Qed.

(** Nobody else is at the counter while a thread is. *)
Lemma counting_alone a n i j (c : client Z) t refs t' : val_inv a → i ≠ j → va_workers a !! i = Some t → va_workers a !! j = Some t' →
  is_Some (wk_drafts t !! root) → counting n c refs (wk_drafts t') →
  wk_drafts t' = ∅ ∧ ∀ n', counting n' c refs (wk_drafts t').
Proof.
  intros Hinv Hne Hi Hj Hd Hc. assert (wk_drafts t' !! root = None) as Hnone.
  { apply eq_None_not_Some. intros Hd'. by apply Hne, (vi_apart _ Hinv i j t t' root). }
  destruct Hc; rewrite ?lookup_singleton_eq in Hnone; try done; (split; [done|intros; by constructor]).
Qed.

Lemma results_lt ts i st : ts !! i = Some st → succeeded st = None → (length (results ts) < length ts)%nat.
Proof.
  intros Hi Hst. apply list_elem_of_split_length in Hi as (l1 & l2 & -> & _).
  pose proof (results_length l1). pose proof (results_length l2).
  unfold results in *. rewrite omap_app. cbn [omap list_omap]. rewrite Hst, !length_app. simpl. lia.
Qed.

(** A thread that is not done leaves room for its own increment. *)
Lemma counted_range start s ts a i st : counts_at start s ts a → ts !! i = Some st → succeeded st = None →
  0 ≤ counted start ts ∧ counted start ts + 1 < usize_modulus.
Proof.
  intros [[? ?] _ _ _ _] Hi Hst. pose proof (results_lt ts i st Hi Hst). unfold counted. lia.
Qed.

Abbreviation body := (λ _ : nat, counter_increment root).
Abbreviation thread_step := (thread_step root body).

(** The thread [i] can move, and the counter is still right after it. *)
Definition counts_on (start : Z) (i : nat) s ts : Prop := ∃ mc', thread_step i (mk_machine s ts) mc' ∧ counts start mc'.

Lemma other_step s a i tx refs w t ts j : j ≠ i →
  sy_txs (step_to s i tx refs w) !! j = sy_txs s !! j ∧ va_workers (with_worker i t a) !! j = va_workers a !! j.
Proof. intros Hne. simpl. by rewrite !lookup_insert_ne. Qed.

Lemma count_begin start s ts a i : counts_at start s ts a → ts !! i = Some Ready → counts_on start i s ts.
Proof.
  intros Hco Hi. pose proof (co_threads _ _ _ _ Hco i _ Hi) as Htx. simpl in Htx.
  pose proof (shows_begin sizes s a i root (co_shows _ _ _ _ Hco) Htx) as Hs'.
  eexists. split; [by apply (th_begin root body i s ts (fresh_transaction root (sy_world s)) (sy_world s))|].
  eapply (counts_move start s ts a i Ready); [done|done|done|done|exact Hs'|done| |].
  - intros j Hne. by apply other_step.
  - eexists _, _, _. split_and!; [apply step_to_this|apply lookup_insert_eq|constructor].
Qed.

Lemma number_copied n v d bs : v.2 = Some <$> u64_bytes n → copied v (d, Some <$> bs) → bs = u64_bytes n.
Proof.
  intros Hv [_ Hc]. rewrite Hv in Hc. cbn [snd] in Hc. apply Forall2_fmap in Hc. symmetry. apply list_eq_Forall2.
  apply (Forall2_impl _ _ _ _ Hc). intros x y [?|?]; congruence.
Qed.

Lemma count_write start s ts a i tx refs t : counts_at start s ts a → ts !! i = Some (Busy (counter_increment root)) →
  sy_txs s !! i = Some (tx, refs) → va_workers a !! i = Some t → wk_drafts t = ∅ → counts_on start i s ts.
Proof.
  intros Hco Hi Htx Ht Hd. destruct (co_value _ _ _ _ Hco) as [d0 Hnow].
  destruct (shows_write sizes s a i tx refs t root counter_size (co_shows _ _ _ _ Hco) Htx Ht root_size)
    as (o & tx1 & w1 & [n Hn] & Hres). destruct o as [d|f].
  - destruct Hres as (bs & a' & Hlen & (v & _ & Hv & _ & Hcopy & ->) & Hs'). rewrite Hnow in Hv. injection Hv as <-.
    apply (number_copied (counted start ts)) in Hcopy as ->; [|done].
    eexists. split; [by eapply (th_write root body i s ts root counter_size _ tx refs (Ok d) tx1 w1 (inl d)); [| |exists n|]|].
    eapply (counts_move start s ts a i _ _ _ _ Hco Hi); [done|done|exact Hs'|done| |].
    + intros j Hne. by apply other_step.
    + rewrite counter_add_eq; [|by injection Hlen|].
      * eexists _, _, _. split_and!; [apply step_to_this|apply lookup_insert_eq|]. cbn [set_draft wk_drafts]. rewrite Hd, insert_empty.
        constructor; [by left|]. by injection Hlen.
      * apply (shown_aligned sizes _ _ root (d, Some <$> u64_bytes (counted start ts)) Hs'). right. exists i. eexists.
        split; [apply lookup_insert_eq|right; apply lookup_insert_eq].
  - destruct Hres as [Hs' Hf]. assert (∃ error, f = Throw error) as [error ->].
    { destruct Hf as [[-> | ->]| ->]; by eexists. }
    assert (error = TxAborted ∨ wants_memory error) as Hwant by (unfold wants_memory; destruct Hf as [[[= ->]|[= ->]]|[= ->]]; tauto).
    eexists. split; [by eapply (th_write root body i s ts root counter_size _ tx refs (Err error) tx1 w1 (inr error)); [| |exists n|]|].
    eapply (counts_move start s ts a i _ _ _ _ Hco Hi); [done|done|exact Hs'|done| |].
    + intros j Hne. simpl. by rewrite lookup_insert_ne.
    + exists tx1, refs, t. split_and!; [apply step_to_this|done|]. rewrite Hd. by constructor.
Qed.

(** The bytes of a draft that is a number. *)
Lemma draft_bytes s a i t d n : shows s a → va_workers a !! i = Some t → wk_drafts t = {[ root := (d, Some <$> u64_bytes n) ]} →
  mr_len d = size_of_usize → mem (sy_las s) (mr_source d) (mr_off d + 0) size_of_usize = Some (u64_bytes n).
Proof.
  intros Hs Ht Hd Hl. rewrite Z.add_0_r, <- Hl. apply (shown_bytes sizes s a root); [done|].
  right. exists i, t. split; [done|right]. rewrite Hd. apply lookup_singleton_eq.
Qed.

Lemma count_add start s ts a i tx refs t d : counts_at start s ts a → ts !! i = Some (Busy (counter_bump d)) →
  sy_txs s !! i = Some (tx, refs) → va_workers a !! i = Some t → d ∈ refs → mr_len d = size_of_usize →
  wk_drafts t = {[ root := (d, Some <$> u64_bytes (counted start ts)) ]} → counts_on start i s ts.
Proof.
  intros Hco Hi Htx Ht Hin Hl Hd. pose proof (draft_bytes s a i t d _ (co_shows _ _ _ _ Hco) Ht Hd Hl) as Hm.
  destruct (counted_range start s ts a i _ Hco Hi) as [Hr1 Hr2]; [done|].
  eexists. split; [eapply (th_load root body i s ts d 0 size_of_usize); [done|done|by apply las_load_ok]|].
  cbn beta. rewrite u64_roundtrip by (unfold is_usize; lia).
  assert (usize_add (counted start ts) 1 = Ok (counted start ts + 1)) as ->.
  { unfold usize_add, wrapping. rewrite decide_True by lia. done. }
  rewrite poke_to_same.
  eapply (counts_move start s ts a i _ _ _ a Hco Hi); [done|done|apply Hco|done|done|].
  exists tx, refs, t. split_and!; [done|done|]. rewrite Hd. by constructor.
Qed.

Lemma splice_all src l : length src = length l → splice 0 src l = src.
Proof. intros Hl. unfold splice. rewrite drop_ge by lia. by rewrite app_nil_r. Qed.

Lemma count_store start s ts a i tx refs t d : counts_at start s ts a →
  ts !! i = Some (Busy (Storing d 0 (u64_bytes (counted start ts + 1)) (Done (inl (counted start ts + 1))))) →
  sy_txs s !! i = Some (tx, refs) → va_workers a !! i = Some t → d ∈ refs → mr_len d = size_of_usize →
  wk_drafts t = {[ root := (d, Some <$> u64_bytes (counted start ts)) ]} → counts_on start i s ts.
Proof.
  intros Hco Hi Htx Ht Hin Hl Hd.
  destruct (shows_store sizes s a i tx refs t root d 0 (u64_bytes (counted start ts + 1)) (u64_bytes (counted start ts)))
    as (las' & Hst & Hs'); [apply Hco|done|done|done|rewrite Hd; apply lookup_singleton_eq|done|by rewrite blen_u64, Hl|].
  eexists. split; [by eapply (th_store root body i s ts d 0)|].
  eapply (counts_move start s ts a i _ _ _ _ Hco Hi); [done|done|exact Hs'|done| |].
  - intros j Hne. simpl. by rewrite lookup_insert_ne.
  - eexists tx, refs, _. split_and!; [done|apply lookup_insert_eq|]. cbn [set_draft wk_drafts].
    rewrite Hd, insert_singleton_eq, splice_all by (unfold u64_bytes; by rewrite !length_le_split). constructor.
Qed.

(** An attempt that leaves no trace. *)
Lemma count_gone start s ts a i st w' (y : Z + Error) : counts_at start s ts a → ts !! i = Some st → succeeded st = None →
  shows (ended (poke_to s w') i) (mk_values (va_now a) (delete i (va_workers a))) → (∃ error, y = inr error ∧ (error = TxAborted ∨ wants_memory error)) →
  counts start (mk_machine (ended (poke_to s w') i) (<[i := attempt_over y]> ts)).
Proof.
  intros Hco Hi Hst Hs' (error & -> & Herr).
  eapply (counts_move start s ts a i st _ _ _ Hco Hi Hst); [by destruct error|exact Hs'|done| |].
  - intros j Hne. simpl. by rewrite !lookup_delete_ne.
  - destruct Herr as [->|[-> | ->]]; simpl; [apply lookup_delete_eq|by left|by right].
Qed.

Lemma count_done start s ts a i tx refs t d w' : counts_at start s ts a →
  ts !! i = Some (Busy (Done (inl (counted start ts + 1)))) → sy_txs s !! i = Some (tx, refs) → va_workers a !! i = Some t →
  wk_drafts t = {[ root := (d, Some <$> u64_bytes (counted start ts + 1)) ]} →
  shows (ended (poke_to s w') i) (mk_values (wk_drafts t ∪ va_now a) (delete i (va_workers a))) →
  counts start (mk_machine (ended (poke_to s w') i) (<[i := Returned (inl (counted start ts + 1))]> ts)).
Proof.
  intros [C1 C2 C3 C4 C5] Hi Htx Ht Hd Hs'. eexists. cbn [mc_system mc_threads]. set (n := counted start ts) in *.
  pose proof (results_insert ts i _ (Returned (inl (n + 1))) Hi eq_refl) as Hp. simpl in Hp.
  assert (counted start (<[i := Returned (inl (n + 1))]> ts) = n + 1) as Hn.
  { unfold n, counted in *. rewrite Hp. simpl. lia. }
  split; [by rewrite length_insert| |exact Hs'|..]; rewrite ?Hn.
  - rewrite Hp at 1. rewrite Hp, C2 at 1. cbn [length].
    rewrite seqZ_S, <- Permutation_cons_append. by replace (start + 1 + Z.of_nat (length (results ts))) with (n + 1) by (unfold n, counted; lia).
  - exists d. cbn [va_now]. rewrite Hd. apply lookup_union_Some_l, lookup_singleton_eq.
  - intros j stj Hj. apply list_lookup_insert_Some in Hj as [(<- & <- & _)|[Hne Hj]]; [done|].
    specialize (C5 j stj Hj). destruct stj as [|c|x]; simpl in *; [by rewrite lookup_delete_ne| |done].
    destruct C5 as (txj & refsj & tj & Htxj & Htj & Hc). exists txj, refsj, tj. rewrite !lookup_delete_ne by done. split_and!; [done|done|].
    apply (counting_alone a n i j c t refsj tj (shows_inv sizes s a C3)); try done. rewrite Hd, lookup_singleton_eq. by eexists.
Qed.

Lemma counts_sound start : sound root body (counts start).
Proof.
  intros [s ts] i st [a Hco] Hi Hu Hlt. cbn [mc_system mc_threads] in *. destruct st as [|c|]; [by apply (count_begin start s ts a)| |done].
  destruct (co_threads _ _ _ _ Hco i _ Hi) as (tx & refs & t & Htx & Ht & Hc). remember (wk_drafts t) as ds eqn:Hd. symmetry in Hd.
  destruct Hc as [refs|refs d Hin Hl|refs d Hin Hl|refs d|refs error Herr].
  - by apply (count_write start s ts a i tx refs t).
  - by apply (count_add start s ts a i tx refs t d).
  - by apply (count_store start s ts a i tx refs t d).
  - destruct (shows_commit sizes s a i tx refs t (co_shows _ _ _ _ Hco) Htx Ht Hlt) as (o & w' & Heq & Hres). destruct o as [[]|f].
    + eexists. split; [by eapply (th_commit root body i s ts _ tx refs (Ok tt) tx w' (inl tt))|]. by apply (count_done start s ts a i tx refs t d).
    + destruct Hres as [-> Hs']. eexists. split; [by eapply (th_commit root body i s ts _ tx refs (Err TxAborted) tx w' (inr TxAborted))|].
      apply (count_gone start s ts a i _ w' (inr TxAborted) Hco Hi); [done|done|]. exists TxAborted. by split; [|left].
  - destruct (shows_abort sizes s a i tx refs (co_shows _ _ _ _ Hco) Htx) as (w' & Heq & _ & Hs').
    eexists. split; [by eapply (th_abort root body i s ts error tx refs tx w')|].
    apply (count_gone start s ts a i _ w' (inr error) Hco Hi); [done|done|]. by exists error.
Qed.

(** *** Whole runs of the test *)

(** What a new transaction finds in the root object. *)
Definition reads_number s n : Prop := ∃ d, eventually (new_read root (sy_world s) root counter_size) (Ok d) ∧
  mr_len d = size_of_usize ∧ mem (sy_las s) (mr_source d) (mr_off d) size_of_usize = Some (u64_bytes n).

Lemma shows_reads_number s a n : shows s a → holds_number (va_now a !! root) n → reads_number s n.
Proof.
  intros Hs [d Hd]. pose proof (shows_new_read sizes s a root root counter_size Hs root_size) as Hev. rewrite Hd in Hev.
  exists d. split; [exact Hev|]. pose proof (shown_bytes sizes s a root d (u64_bytes n) Hs (or_introl Hd)) as Hm.
  assert (mr_len d = size_of_usize) as Hl. { apply mem_length in Hm. by rewrite blen_u64 in Hm. }
  split; [done|]. by rewrite <- Hl.
Qed.

(** The heap after the test's setup: nobody running, the counter at [start]. *)
Record counter_ready (start : Z) s : Prop := {
  cr_represents : ∃ m, represents sizes s m;
  cr_idle : sy_txs s = ∅;
  cr_finds : ∃ d, finds sizes s root root counter_size d (u64_bytes start)
}.

Lemma ready_holds start s : counter_ready start s → ∃ a, shows s a ∧ holds_number (va_now a !! root) start.
Proof.
  intros [[m Hrp] _ [d Hd]]. exists (view sizes s m). assert (shows s (view sizes s m)) as Hs by by exists m.
  split; [done|]. exists d. by apply (finds_shown sizes s _ root root counter_size).
Qed.

Lemma ready_counts start s (nthreads : nat) : counter_ready start s → 0 ≤ start → start + Z.of_nat nthreads < usize_modulus →
  counts start (mk_machine s (replicate nthreads Ready)).
Proof.
  intros Hr Hs Hn. destruct (ready_holds start s Hr) as (a & Hsh & Hv). exists a. cbn [mc_system mc_threads].
  split; unfold counted; rewrite ?results_replicate, ?length_replicate; simpl; rewrite ?Z.add_0_r; try done.
  intros i st Hi. apply lookup_replicate in Hi as [-> _]. simpl. by rewrite (cr_idle _ _ Hr).
Qed.

(** C15: no increment is lost: however the threads are scheduled, the counter is
    at its first value plus the number of threads that have succeeded, these
    have returned all the values up to it, each once, and whoever is not done
    can go on. *)
Theorem counter_counts start s (nthreads : nat) mc : counter_ready start s → 0 ≤ start → start + Z.of_nat nthreads < usize_modulus →
  rtc (any_step root body) (mk_machine s (replicate nthreads Ready)) mc →
  reads_number (mc_system mc) (start + Z.of_nat (length (results (mc_threads mc)))) ∧
  results (mc_threads mc) ≡ₚ seqZ (start + 1) (Z.of_nat (length (results (mc_threads mc)))) ∧
  goes_on_all root body mc.
Proof.
  intros Hr Hs Hn Hst.
  destruct (sound_reachable root body (counts start) _ mc (counts_sound start) (ready_counts start s nthreads Hr Hs Hn) Hst) as [[a [_ C2 C3 C4 _]] Hgo].
  split_and!; [by apply (shows_reads_number _ a)|done|done].
Qed.

Lemma check_runs s a n : shows s a → holds_number (va_now a !! root) n → is_usize n →
  eventually (λ fuel, Librarius_run 1 root (closure fuel (counter_check root n)) (sy_world s)) (Ok tt, sy_world s).
Proof.
  intros Hs Hv Hn. destruct (shows_reads_number s a n Hs Hv) as (d & _ & Hl & Hm). destruct Hv as [d' Hd'].
  destruct (shows_fresh_read sizes s a root root counter_size Hs root_size) as [k Hk]. rewrite Hd' in Hk.
  pose proof (shown_bytes sizes s a root d' (u64_bytes n) Hs (or_introl Hd')) as Hm'.
  assert (mr_len d' = size_of_usize) as Hl'. { apply mem_length in Hm'. by rewrite blen_u64 in Hm'. }
  pose proof (shown_aligned sizes s a root (d', Some <$> u64_bytes n) Hs (or_introl Hd')) as Ha'.
  exists k. intros fuel Hf. rewrite run_rest. set (tx := fresh_transaction root (sy_world s)) in *.
  rewrite (rest_of_run_bind root 0 fuel _ _ (λ o, match o with inl d => counter_assert n d | inr error => Done (inr error) end) (Transaction_read fuel root counter_size)
    (tx, sy_world s) (tx, sy_world s) (found (Some (d', Some <$> u64_bytes n))) (inl d')); [|done|by apply Hk|done].
  unfold rest_of_run, counter_assert. rewrite cast_ok by (done || lia). cbn [closure].
  rewrite (bind_ok _ _ _ (inl tt) (tx, sy_world s)).
  - by step (commit_unwritten tx (sy_world s) eq_refl).
  - apply attempt_ok. rewrite (bind_ok _ _ _ (u64_bytes n) (tx, sy_world s)).
    + rewrite u64_roundtrip, decide_True by done. done.
    + apply on_tx_las_same, las_load_ok. by rewrite Z.add_0_r, <- Hl'.
Qed.

(** A thread that fails wants memory. *)
Lemma ready_failures start s (nthreads : nat) mc i error : counter_ready start s → 0 ≤ start → start + Z.of_nat nthreads < usize_modulus →
  rtc (any_step root body) (mk_machine s (replicate nthreads Ready)) mc → mc_threads mc !! i = Some (Returned (inr error)) → wants_memory error.
Proof.
  intros Hr Hs Hn Hst Hi.
  destruct (sound_reachable root body (counts start) _ mc (counts_sound start) (ready_counts start s nthreads Hr Hs Hn) Hst) as [[a Hco] _].
  exact (co_threads _ _ _ _ Hco i _ Hi).
Qed.

Lemma ready_goes_on start s (nthreads : nat) mc : counter_ready start s → 0 ≤ start → start + Z.of_nat nthreads < usize_modulus →
  rtc (any_step root body) (mk_machine s (replicate nthreads Ready)) mc → goes_on_all root body mc.
Proof.
  intros Hr Hs Hn Hst.
  by destruct (sound_reachable root body (counts start) _ mc (counts_sound start) (ready_counts start s nthreads Hr Hs Hn) Hst).
Qed.

Lemma ready_passes s (nthreads : nat) mc : counter_ready 0 s → Z.of_nat nthreads < usize_modulus →
  rtc (any_step root body) (mk_machine s (replicate nthreads Ready)) mc →
  Forall (λ st, ∃ v, st = Returned (inl v)) (mc_threads mc) →
  eventually (λ fuel, Librarius_run 1 root (closure fuel (counter_check root (Z.of_nat nthreads))) (sy_world (mc_system mc)))
    (Ok tt, sy_world (mc_system mc)).
Proof.
  intros Hr Hn Hst Hall.
  destruct (sound_reachable root body (counts 0) _ mc (counts_sound 0) (ready_counts 0 s nthreads Hr (Z.le_refl 0) Hn) Hst)
    as [[a [_ _ C3 C4 _]] _].
  assert (length (results (mc_threads mc)) = nthreads) as Hlen.
  { rewrite results_all by done. rewrite (threads_kept root body _ _ Hst). apply length_replicate. }
  unfold counted in C4. rewrite Hlen in C4. apply (check_runs _ a); [done|done|unfold is_usize; lia].
Qed.
End Counter.

Section CounterTest.
Context `{T : Target} `{TOk : !TargetOk T} `{C : Crc} {D : Type} `{Src : !Source D} `{Laws : !SourceLaws D}.

Lemma counter_size_total : ObjectSize_total counter_size = Ok size_of_usize.
Proof. done. Qed.

Lemma counter_fills : fills (D := D) counter_init size_of_usize (u64_bytes 0).
Proof.
  intros data w Hl Ha. unfold counter_init, on_world_las, zoom, store_memref.
  rewrite bool_decide_true by by rewrite Hl. by rewrite any_from_slice_mut_ok by (done || lia).
Qed.

Lemma counter_opens ps (source : D) : fresh_memory ps [source] → blank ps source → 3 * ps ≤ blen (source_bytes source) →
  ∃ h, LibrariusBuilder_open (LibrariusBuilder_pagesize ps (counter_builder source)) = Ok h.
Proof.
  intros Hfm Hb Hroom. pose proof (fm_pagesize _ _ Hfm) as (_ & _ & Hm).
  pose proof (new_outcome ps source [] counter_size size_of_usize counter_init
    (inl (u64_bytes 0)) Hfm (Forall_cons_2 _ _ _ Hb (Forall_nil_2 _)) counter_size_total ltac:(done) aligned_usize
    (conj (blen_u64 0) counter_fills)) as Ho.
  cbv zeta in Ho. rewrite decide_False in Ho by lia. rewrite decide_False in Ho by usize.
  change (LibrariusBuilder_open (LibrariusBuilder_pagesize ps (counter_builder source))) with
    (Librarius_new ps [source] (Some (counter_size, counter_init))).
  destruct (Librarius_new _ _ _) as [h|]; [by exists h|done].
Qed.

(** The heap the test opens is ready for its threads. *)
Lemma counter_opened ps (source : D) h : fresh_memory ps [source] →
  LibrariusBuilder_open (LibrariusBuilder_pagesize ps (counter_builder source)) = Ok h →
  counter_ready {[ lr_root h := counter_size ]} (lr_root h) 0 (mk_system (lr_world h) ∅).
Proof.
  intros Hfm Hopen. destruct (new_founded ps [source] counter_size size_of_usize counter_init (u64_bytes 0) h) as [Hrp Hf];
    [done|apply counter_size_total|done|apply aligned_usize|apply blen_u64|apply counter_fills|exact Hopen|]. by split.
Qed.

End CounterTest.
