(* ===== verification/Stages.v ===== *)
(** * [write] and [alloc], one stage at a time (src/src/tx.rs)

    The places in [Transaction::write] and [Transaction::alloc] where another
    thread can come between: after the pointer is cloned, the version made, the
    object read, the new version allocated and filled, and before the
    compare-and-swap.  The stages in a row are the calls of [Tx]; a heap whose
    transactions may all be in the middle of such a call, and its steps. *)
From S2P Require Import Prelude Utils Source SourceAllocator Slices Las Memory Pointer Vos.
From S2P Require Import Allocators Versions Objects Tx Transactions Heap Runs Snapshot Arena Simulation Calls Isolation.

(** What a call that is under way holds in its variables. *)
Inductive stage : Type :=
| Cloned (pointer : cell) (size : ObjectSize) (read_pointer : UntypedPointer)
| Versioned (pointer : cell) (size : ObjectSize) (read_pointer : UntypedPointer) (version : Version)
| Viewed (pointer : cell) (size : ObjectSize) (address : LogicalAddress) (version : Version)
    (read_pointer : UntypedPointer) (src : memref)
| Allocated (pointer : cell) (address : LogicalAddress) (src : memref) (dstptr : UntypedPointer) (dst : memref)
| Copied (pointer : cell) (address : LogicalAddress) (dstptr : UntypedPointer) (dst : memref)
| Making (size : ObjectSize)
| Made (size : ObjectSize) (version : Version).

(** What it returns: the bytes of [write], or the pointer and the bytes of [alloc]. *)
Inductive ending : Type :=
| Wrote (dst : memref)
| Gave (ptr : UntypedPointer) (dst : memref).

Definition ending_ref (x : ending) : memref := match x with Wrote d => d | Gave _ d => d end.

Section Stages.
Context `{T : Target} `{C : Crc} {D : Type} `{Src : !Source D}.
Context (fuel : nat).
Abbreviation TX := (M (Transaction * World D)).

(** The first stage of [write]. *)
Definition begin_write (pointer : cell) (size : ObjectSize) : TX stage :=
  read_pointer ← on_tx_las (UntypedPointer_clone pointer);
  mret (Cloned pointer size read_pointer).

(** The next stage, or the end of the call. *)
Definition advance (g : stage) : TX (stage + ending) :=
  match g with
  | Cloned pointer size read_pointer =>
      version ← Transaction_write_version;
      mret (inl (Versioned pointer size read_pointer version))
  | Versioned pointer size read_pointer version =>
      let address := UntypedPointer_address read_pointer in
      self ← gets fst;
      '(src, _, read_pointer) ← on_tx_las (VersionedReader_read fuel (tx_reader self)
                                  (OnStack read_pointer) size true);
      read_pointer ← on_tx_las (cell_load read_pointer);
      mret (inl (Viewed pointer size address version read_pointer src))
  | Viewed pointer size address version read_pointer src =>
      '(dstptr, dst) ← on_object_allocator
                         (TransactionalObjectAllocator_alloc size version read_pointer);
      mret (inl (Allocated pointer address src dstptr dst))
  | Allocated pointer address src dstptr dst =>
      bytes ← on_tx_las (load_memref src);
      on_tx_las (store_memref dst bytes) ;;
      mret (inl (Copied pointer address dstptr dst))
  | Copied pointer address dstptr dst =>
      let write := TransactionWrite_new pointer address dstptr in
      performed ← on_world (TransactionWrite_perform write);
      if negb performed then throw TxAborted
      else
        modify_tx (λ tx, set_writeset (tx_writeset tx ++ [write]) tx) ;;
        mret (inr (Wrote dst))
  | Making size =>
      version ← Transaction_write_version;
      mret (inl (Made size version))
  | Made size version =>
      '(ptr, dst) ← on_object_allocator (TransactionalObjectAllocator_alloc_new size version);
      mret (inr (Gave ptr dst))
  end.

(** The stages in a row, without others in between; a call has at most five. *)
Fixpoint advance_all (n : nat) (g : stage) : TX ending :=
  match n with
  | O => fail Diverge
  | S n => x ← advance g; match x with inl g' => advance_all n g' | inr y => mret y end
  end.
End Stages.

(** Two computations with the same first call. *)
Lemma bind_same {S A B} (m : M S A) (f g : A → M S B) s : (∀ a s', f a s' = g a s') → (m ≫= f) s = (m ≫= g) s.
Proof. intros Hfg. unfold mbind, M_bind. by destruct (m s) as [[a|] s']. Qed.

Lemma bind_bind {S A B E} (m : M S A) (f : A → M S B) (g : B → M S E) s :
  ((m ≫= f) ≫= g) s = (m ≫= λ a, f a ≫= g) s.
Proof. unfold mbind, M_bind. by destruct (m s) as [[a|] s']. Qed.

Lemma ret_bind {S A B} a (f : A → M S B) s : (mret a ≫= f) s = f a s.
Proof. done. Qed.

Ltac same_calls :=
  repeat first
    [ progress rewrite ?bind_bind, ?ret_bind; cbn [advance]
    | apply bind_same; intros
    | progress (repeat match goal with x : (_ * _)%type |- _ => destruct x end; cbn beta iota)
    | done ].

Section Whole.
Context `{T : Target} `{C : Crc} {D : Type} `{Src : !Source D}.
Abbreviation TX := (M (Transaction * World D)).

(** The stages of [write] and [alloc] in a row, nobody coming between, are the
    calls: equal results and equal heaps, on every path. *)
Theorem stages_are_calls fuel pointer size (st : Transaction * World D) :
  (g ← begin_write pointer size; y ← advance_all fuel 5 g; mret (ending_ref y)) st = Transaction_write fuel pointer size st ∧
  (y ← advance_all fuel 2 (Making size); match y with Gave ptr d => mret (ptr, d) | Wrote _ => fail Diverge end) st =
    Transaction_alloc size st.
Proof.
  split.
  - unfold begin_write, Transaction_write. cbn [advance_all]. same_calls. by match goal with b : bool |- _ => destruct b end.
  - unfold Transaction_alloc. cbn [advance_all]. same_calls. unfold mbind, M_bind.
    by destruct (on_object_allocator _ _) as [[[]|] ?].
Qed.
End Whole.

(** ** Transactions in the middle of calls *)
Record race (D : Type) : Type := mk_race { rc_system : system D; rc_stages : gmap nat stage }.
Arguments mk_race {D}.
Arguments rc_system {D}.
Arguments rc_stages {D}.

Section Race.
Context `{T : Target} `{TOk : !TargetOk T} `{C : Crc} {D : Type} `{Src : !Source D} `{Laws : !SourceLaws D}.
Context (sizes : gmap cell ObjectSize).
Implicit Types (w : World D) (tx : Transaction) (s : system D) (refs : list memref).
Implicit Types (gs : gmap nat stage) (g : stage) (k : cell).

(** A call of the transaction [i] that is one step, or a store of its thread. *)
Inductive whole_step (i : nat) : system D → system D → Prop :=
| wh_begin s root tx w' :
    sy_txs s !! i = None → Transaction_new root (sy_world s) = (Ok tx, w') →
    whole_step i s (step_to s i tx [] w')
| wh_read s tx refs k size result tx' w' :
    sy_txs s !! i = Some (tx, refs) → sizes !! k = Some size →
    eventually (λ fuel, Transaction_read fuel k size (tx, sy_world s)) (result, (tx', w')) →
    whole_step i s (step_to s i tx' refs w')
| wh_read_for_write s tx refs k size result tx' w' :
    sy_txs s !! i = Some (tx, refs) → sizes !! k = Some size →
    eventually (λ fuel, Transaction_read_for_write fuel k size (tx, sy_world s)) (result, (tx', w')) →
    whole_step i s (step_to s i tx' refs w')
| wh_store s tx refs d off bytes las' :
    sy_txs s !! i = Some (tx, refs) → d ∈ refs → 0 ≤ off → off + blen bytes ≤ mr_len d →
    las_store (mr_source d) (mr_off d + off) bytes (sy_las s) = (Ok tt, las') →
    whole_step i s (poke_to s (with_las las' (sy_world s)))
| wh_commit s tx refs result tx' w' :
    sy_txs s !! i = Some (tx, refs) → w_version (sy_world s) + 1 < 2 ^ 63 →
    Transaction_commit (tx, sy_world s) = (result, (tx', w')) →
    whole_step i s (ended (poke_to s w') i)
| wh_abort s tx refs result tx' w' :
    sy_txs s !! i = Some (tx, refs) →
    Transaction_abort (tx, sy_world s) = (result, (tx', w')) →
    whole_step i s (ended (poke_to s w') i).

(** The stages after one of the transaction [i] has come to [o]. *)
Definition staged (i : nat) (o : outcome (stage + ending)) gs : gmap nat stage :=
  match o with Ok (inl g) => <[i := g]> gs | _ => delete i gs end.
Definition given (o : outcome (stage + ending)) refs : list memref :=
  match o with Ok (inr y) => ending_ref y :: refs | _ => refs end.

(** A step of a heap whose transactions may be in the middle of a [write] or
    an [alloc]: a whole call of one that is not, the begin of such a call, or
    its next stage. *)
Inductive race_step : race D → race D → Prop :=
| rs_whole i s s' gs :
    gs !! i = None → whole_step i s s' → race_step (mk_race s gs) (mk_race s' gs)
| rs_write i s gs tx refs k size g tx' w' :
    gs !! i = None → sy_txs s !! i = Some (tx, refs) → sizes !! k = Some size →
    begin_write k size (tx, sy_world s) = (Ok g, (tx', w')) →
    race_step (mk_race s gs) (mk_race (step_to s i tx' refs w') (<[i := g]> gs))
| rs_alloc i s gs tx refs size total :
    gs !! i = None → sy_txs s !! i = Some (tx, refs) → ObjectSize_total size = Ok total → 0 < total → aligned 8 total →
    race_step (mk_race s gs) (mk_race s (<[i := Making size]> gs))
| rs_advance i s gs tx refs g o tx' w' :
    gs !! i = Some g → sy_txs s !! i = Some (tx, refs) →
    eventually (λ fuel, advance fuel g (tx, sy_world s)) (o, (tx', w')) →
    race_step (mk_race s gs) (mk_race (step_to s i tx' (given o refs) w') (staged i o gs)).
End Race.
