(* ===== verification/Moves.v ===== *)
(** * What a step leaves alone

    A transaction in the middle of a call holds memory that no other may change:
    its new version, not yet swung in, and the version it is going to read.
    What each kind of step may change of the memory that is taken. *)
From S2P Require Import Prelude Utils Source SourceAllocator Slices Las Memory Pointer Vos.
From S2P Require Import Allocators Versions Objects Tx Transactions Heap Runs Snapshot Arena Simulation Calls Isolation.

Section Moves.
Context `{T : Target} `{TOk : !TargetOk T} `{C : Crc} {D : Type} `{Src : !Source D} `{Laws : !SourceLaws D}.
Context (sizes : gmap cell ObjectSize).
Abbreviation represents := (represents sizes).
Abbreviation owns := (owns sizes).
Abbreviation total_at := (total_at sizes).
Implicit Types (w : World D) (tx : Transaction) (s : system D) (refs : list memref).
Implicit Types (m : mvstore cell) (r : running cell) (e : entry) (es : list entry) (k : cell) (p : purpose) (x y : span).

(** Places that calls write to. *)
Definition writable p : Prop := match p with ForPointer _ | ForRunning _ | ForFilling _ => True | _ => False end.

(** Memory that is taken, and is no place that calls write to; and memory
    that is taken and none of the store's at all. *)
Definition inert s m x : Prop := span_taken s x ∧ ∀ p y, writable p → owns s m p y → spans_apart x y.
Definition unused s m x : Prop := span_taken s x ∧ ∀ p y, owns s m p y → spans_apart x y.

(** Memory that was nobody's. *)
Definition fresh s y : Prop := ∀ x, span_taken s x → spans_apart x y.

Definition span_mem (las : LogicalAddressSpace D) x : option (list byte) := mem las (sp_base x) (sp_off x) (sp_len x).

(** A step of the transaction [i], which may change [own]: the memory it keeps,
    and the versions of the store it keeps. *)
Record moved (i : nat) (own : list span) s m s' m' : Prop := {
  mo_shape : las_shape (sy_las s') = las_shape (sy_las s);
  mo_taken x : span_taken s x → span_taken s' x;
  mo_grown p y : owns s' m' p y → owns s m p y ∨ fresh s y ∨
    (∃ home, p = ForNumber home ∧ owns s m (ForRunning home) y) ∨ y ∈ own;
  mo_bytes x : 0 < sp_len x → inert s m x → Forall (spans_apart x) own → span_mem (sy_las s') x = span_mem (sy_las s) x;
  mo_entry k e : has_entry m k e →
    (∃ e', has_entry m' k e' ∧ en_address e' = en_address e ∧ (en_version e ≠ 0 → e' = e)) ∨
    en_version e = 0 ∧ cell_kept (sy_las s) (sy_las s') (en_home e) ∧
      ∀ j r, mv_running m' !! j = Some r → ru_home r ≠ Some (en_home e);
  mo_others j : j ≠ i → sy_txs s' !! j = sy_txs s !! j ∧ mv_running m' !! j = mv_running m !! j
}.

Lemma unused_inert s m x : unused s m x → inert s m x.
Proof. intros [Ht Ho]. split; [done|]. intros p y _. apply Ho. Qed.

Lemma inert_moved i own s m s' m' x : moved i own s m s' m' → Forall (spans_apart x) own → inert s m x → inert s' m' x.
Proof.
  intros Hm Hown [Ht Ho]. split; [by apply (mo_taken _ _ _ _ _ _ Hm)|]. intros p y Hp Hy.
  destruct (mo_grown _ _ _ _ _ _ Hm p y Hy) as [Hy'|[Hf|[(home & -> & _)|Hin]]]; [by apply (Ho p)|by apply Hf|done|].
  rewrite Forall_forall in Hown. by apply Hown.
Qed.

Lemma unused_moved i own s m s' m' x : moved i own s m s' m' → Forall (spans_apart x) own → unused s m x → unused s' m' x.
Proof.
  intros Hm Hown [Ht Ho]. split; [by apply (mo_taken _ _ _ _ _ _ Hm)|]. intros p y Hy.
  destruct (mo_grown _ _ _ _ _ _ Hm p y Hy) as [Hy'|[Hf|[(home & -> & Hr)|Hin]]]; [by apply (Ho p)|by apply Hf|by apply (Ho _ _ Hr)|].
  rewrite Forall_forall in Hown. by apply Hown.
Qed.

Lemma span_mem_kept las las' c : span_mem las' (cell_span c) = span_mem las (cell_span c) → cell_kept las las' c.
Proof. destruct c as [b off|]; [|by intros _ v]. intros E v [Hv ?]. split; [|done]. rewrite <- Hv. exact E. Qed.

Lemma inert_kept i own s m s' m' c : moved i own s m s' m' → inert s m (cell_span c) → Forall (spans_apart (cell_span c)) own →
  cell_kept (sy_las s) (sy_las s') c.
Proof.
  intros Hm Hc Hown. destruct c as [b off|]; [|by intros v]. apply span_mem_kept. by apply (mo_bytes _ _ _ _ _ _ Hm).
Qed.

(** The words of a version in the store are not written to. *)
Lemma entry_inert s m k e : represents s m → has_entry m k e →
  inert s m (cell_span (en_version_cell e)) ∧ inert s m (cell_span (en_other_cell e)) ∧
  ∀ p y, writable p → owns s m p y → (∀ c, p = ForRunning c → c ≠ en_home e) → spans_apart (cell_span (en_home e)) y.
Proof.
  intros Hrp He. pose proof (rp_layout _ _ _ Hrp) as Hl.
  pose proof (owns_version sizes s m k e He) as O1. pose proof (owns_other sizes s m k e He) as O2.
  pose proof (owns_number sizes s m k e He) as O3. split_and!.
  - split; [by apply (rp_taken _ _ _ Hrp _ _ O1)|]. intros p y Hp Hy. specialize (Hl _ _ _ _ O1 Hy). by destruct p.
  - split; [by apply (rp_taken _ _ _ Hrp _ _ O2)|]. intros p y Hp Hy. specialize (Hl _ _ _ _ O2 Hy). by destruct p.
  - intros p y Hp Hy Hne. specialize (Hl _ _ _ _ O3 Hy). destruct p; try done. destruct Hl as [<-|]; [|done]. by destruct (Hne _ eq_refl).
Qed.

(** A version that was taken back keeps its words, and they are written to no more. *)
Lemma entry_gone i own s m s' m' k e : represents s m → moved i own s m s' m' → has_entry m k e →
  (∀ x, x ∈ own → unused s m x) →
  (∀ j r, mv_running m' !! j = Some r → ru_home r ≠ Some (en_home e)) → represents s' m' →
  inert s' m' (cell_span (en_version_cell e)) ∧ inert s' m' (cell_span (en_home e)) ∧
  cell_kept (sy_las s) (sy_las s') (en_version_cell e).
Proof.
  intros Hrp Hm He Hown Hgone Hrp'. destruct (entry_inert s m k e Hrp He) as (I1 & _ & I3).
  pose proof (owns_version sizes s m k e He) as O1. pose proof (owns_number sizes s m k e He) as O3.
  assert (∀ c, owns s m ForHeader c ∨ owns s m (ForNumber (en_home e)) c → Forall (spans_apart c) own) as Hap.
  { intros c Hc. apply Forall_forall. intros x Hx. apply spans_apart_sym.
    destruct (Hown x Hx) as [_ Hu]. by destruct Hc as [Hc|Hc]; apply (Hu _ _ Hc). }
  split_and!.
  - apply (inert_moved i own s m); [done|by apply Hap; left|done].
  - split; [by apply (mo_taken _ _ _ _ _ _ Hm), (rp_taken _ _ _ Hrp _ _ O3)|]. intros p y Hp Hy.
    destruct (mo_grown _ _ _ _ _ _ Hm p y Hy) as [Hy'|[Hf|[(home & -> & _)|Hin]]]; [|by apply Hf, (rp_taken _ _ _ Hrp _ _ O3)|done|].
    + apply (I3 p); [done|done|]. intros c -> ->. inversion Hy as [| | | |j r ? Hj Hh| |]; subst. by destruct (Hgone j r Hj).
    + pose proof (Hap _ (or_intror O3)) as Hall. rewrite Forall_forall in Hall. by apply Hall.
  - apply (inert_kept i own s m s' m'); [done|done|by apply Hap; left].
Qed.

(** *** Steps that change no memory *)
Lemma entry_stays m m' k e (las las' : LogicalAddressSpace D) : (∀ k es, mv_objects m !! k = Some es → ∃ es0, mv_objects m' !! k = Some (es0 ++ es)) →
  has_entry m k e →
  (∃ e', has_entry m' k e' ∧ en_address e' = en_address e ∧ (en_version e ≠ 0 → e' = e)) ∨
  en_version e = 0 ∧ cell_kept las las' (en_home e) ∧ ∀ j r, mv_running m' !! j = Some r → ru_home r ≠ Some (en_home e).
Proof.
  intros Ho (es & Hk & He). left. exists e. split; [|done]. destruct (Ho k es Hk) as [es0 Hk'].
  exists (es0 ++ es). split; [done|]. apply elem_of_app. by right.
Qed.

Lemma same_objects m m' : mv_objects m' = mv_objects m → ∀ k es, mv_objects m !! k = Some es → ∃ es0, mv_objects m' !! k = Some (es0 ++ es).
Proof. intros -> k es Hk. by exists []. Qed.

Lemma step_to_others s i tx refs w' j : j ≠ i → sy_txs (step_to s i tx refs w') !! j = sy_txs s !! j.
Proof. intros Hne. simpl. by rewrite lookup_insert_ne. Qed.

Lemma fillings_step s i tx refs tx' refs' w' : sy_txs s !! i = Some (tx, refs) → refs' ⊆ refs →
  fillings_from s (step_to s i tx' refs' w').
Proof.
  intros Hi Hsub j txj refsj Hj. apply step_to_lookup in Hj as [(<- & <- & <-)|[_ Hj]]; [by exists tx, refs|by exists txj, refsj].
Qed.

Lemma moved_refl i s m : moved i [] s m s m.
Proof.
  split; try done; [intros p y Hy; by left|]. intros k e. by apply entry_stays, same_objects.
Qed.

Lemma moved_begin i s m root : sy_txs s !! i = None → mv_running m !! i = None → arena s →
  moved i [] s m (step_to s i (fresh_transaction root (sy_world s)) [] (sy_world s))
    (mk_mvstore (mv_counter m) (mv_objects m) (<[i := mk_running (mv_counter m) None []]> (mv_running m))).
Proof.
  intros Hi Hr Har. split; try done.
  - intros x. apply (arena_begin s i (fresh_transaction root (sy_world s)) []); done.
  - intros p y Hp. left. destruct Hp as [| | | |j r' h Hj Hhj| |j txj refsj r' h d Hj Hrj Hhj Hd]; [by constructor|..].
    + by apply owns_version with k.
    + by apply owns_other with k.
    + by apply owns_number with k.
    + simpl in Hj. apply lookup_insert_Some in Hj as [[<- <-]|[_ Hj]]; [done|by apply owns_running with j r'].
    + by apply owns_data.
    + apply step_to_lookup in Hj as [(<- & <- & <-)|[Hne Hj]]; [by apply elem_of_nil in Hd|].
      simpl in Hrj. rewrite lookup_insert_ne in Hrj by done. by apply owns_filling with j txj refsj r'.
  - intros k e. by apply entry_stays, same_objects.
  - intros j Hne. split; [by apply step_to_others|]. simpl. by rewrite lookup_insert_ne.
Qed.

(** A call of the transaction's own: no memory in use is touched. *)
Lemma moved_tx_step s m i tx refs tx' w' : represents s m → sy_txs s !! i = Some (tx, refs) →
  tx_inv tx' w' → tx_step tx (sy_world s) tx' w' → tx_version tx' = tx_version tx →
  moved i [] s m (step_to s i tx' refs w') m.
Proof.
  intros Hrp Hi Hinv Hst Hv. destruct (represents_step sizes s m i tx refs tx' w') as [_ Ht]; [done..|]. split.
  - apply Hst.
  - intros x. apply Ht.
  - intros p y Hp. left. apply (owns_from sizes s (step_to s i tx' refs w')); [|done]. by apply (fillings_step s i tx refs).
  - intros x Hl [Hx _] _. apply (ts_range _ _ _ _ Hst); [done|]. by apply (taken_in_use s i tx refs).
  - intros k e. by apply entry_stays, same_objects.
  - intros j Hne. split; [by apply step_to_others|done].
Qed.

(** *** Bytes put *)
Lemma span_mem_put las b off data x : byte_source las b → is_Some (mem las b off (blen data)) →
  0 < sp_len x → 0 < blen data → spans_apart x (mk_span b off (blen data)) → span_mem (put b off data las) x = span_mem las x.
Proof.
  intros Hb Hm Hl Hd Hap. apply mem_put_apart; [done|done|]. unfold spans_apart in Hap. cbn [sp_base sp_off sp_len] in Hap.
  destruct Hap as [?|[?|[?|?]]]; [lia|lia|by left|by right].
Qed.

Lemma span_mem_cell_put las k raw v x : memory_cell las k → cell_holds las k raw → 0 < sp_len x →
  spans_apart x (cell_span k) → span_mem (cell_put k v las) x = span_mem las x.
Proof.
  intros [(b & off & ->) Hw] [Hm _] Hl Hap. apply span_mem_put; rewrite ?blen_u64; try done.
Qed.

(** A store of the thread to what it may fill in. *)
Lemma moved_store s m i d off bytes : represents s m → filling s i d → 0 ≤ off → off + blen bytes ≤ mr_len d →
  moved i [] s m (poke_to s (with_las (put (mr_source d) (mr_off d + off) bytes (sy_las s)) (sy_world s))) m.
Proof.
  intros Hrp Hd Hoff Hle. destruct (filling_owned sizes s m i d Hrp Hd) as (r & home & Hr & Hh & Ho & [Hl Hsrc Hm]).
  pose proof (blen_nonneg bytes) as Hb.
  assert (is_Some (mem (sy_las s) (mr_source d) (mr_off d + off) (blen bytes))) as Hm' by by apply mem_within with (mr_len d).
  set (las' := put _ _ _ _).
  destruct (arena_poke s (with_las las' (sy_world s))) as [_ Ht]; [apply Hrp|by apply poked_put|]. split; try done.
  - by apply las_shape_put.
  - intros x. apply Ht.
  - intros p y Hp. left. apply (owns_from sizes s (poke_to s (with_las las' (sy_world s)))); [|done].
    intros j txj refsj Hj. by exists txj, refsj.
  - intros x Hx [_ Hap] _. specialize (Hap (ForFilling home) _ I Ho). apply mem_put_apart; [done|done|].
    unfold spans_apart, apart in *. simpl in *. lia.
  - intros k e. by apply entry_stays, same_objects.
Qed.

(** *** The end of a transaction *)
Lemma span_mem_undo s m us x : represents s m → 0 < sp_len x → Forall (λ u, spans_apart x (cell_span (tw_dst u))) us →
  ∀ las, Forall (swung las) us → writes_apart us → span_mem (undo us las) x = span_mem las x.
Proof.
  intros Hrp Hl Hap. induction Hap as [|u us Hu _ IH]; intros las Hsw Hord; [done|]. simpl.
  apply Forall_cons in Hsw as [Hs Hsw]. apply writes_apart_cons in Hord as (Hyx & Hxy & Hord).
  rewrite IH; [|by apply swung_put|done]. destruct Hs as [Hc Hn _]. by apply span_mem_cell_put with (tw_new u).
Qed.

Lemma ended_others s m n objects w' i j : j ≠ i → sy_txs (ended (poke_to s w') i) !! j = sy_txs s !! j ∧
  mv_running (mk_mvstore n objects (delete i (mv_running m))) !! j = mv_running m !! j.
Proof. intros Hne. simpl. by rewrite !lookup_delete_ne. Qed.

Lemma moved_undo s m i tx refs r n : represents s m → sy_txs s !! i = Some (tx, refs) →
  mv_running m !! i = Some r → moved i [] s m (ended (poke_to s (mk_World (undo (tx_writeset tx) (sy_las s)) n)) i)
    (mk_mvstore n (undo_objects (ru_writes r) (mv_objects m)) (delete i (mv_running m))).
Proof.
  intros Hrp Hi Hr. destruct (transaction_writes sizes s m i tx refs r Hrp Hi Hr) as [Hsw Hord].
  pose proof (rp_inv _ _ _ Hrp) as Hinv. destruct (undo_kept _ _ Hsw Hord) as [Hs Hk].
  destruct (rp_transactions _ _ _ Hrp i tx refs r Hi Hr) as [_ _ A3 A4 _ _].
  assert (Forall (λ u, is_Some (sizes !! tw_dst u)) (tx_writeset tx)) as Hdst by (apply (Forall_impl _ _ _ A4); by intros u []).
  set (w' := mk_World _ n). destruct (arena_poke s w') as [Har Ht]; [apply Hrp|by apply poked_undo|]. split.
  - done.
  - intros x Hx. by apply (arena_end (poke_to s w') i), Ht.
  - intros p y Hp. left. apply (owns_ended sizes s m i n) in Hp; [done|]. intros k es e Hk' He.
    rewrite undo_lookup in Hk'. apply fmap_Some in Hk' as (es0 & Hk' & ->). exists e. split_and!; try done. exists es0.
    split; [done|]. destruct (decide (k ∈ ru_writes r)); [|done]. destruct es0; [done|by right].
  - intros x Hl [_ Hx] _. apply (span_mem_undo s m); try done. apply (Forall_impl _ _ _ Hdst). intros u Hu.
    apply (Hx (ForPointer (tw_dst u))); [done|by apply owns_pointer].
  - intros k e (es & Ho & He).
    assert (e ∈ (if decide (k ∈ ru_writes r) then tail es else es) ∨ k ∈ ru_writes r ∧ head es = Some e) as [Hin|[Hin Hhd]].
    { destruct (decide (k ∈ ru_writes r)); [|by left]. destruct es as [|e1 es]; [by apply elem_of_nil in He|]. simpl.
      apply elem_of_cons in He as [->|He]; [by right|by left]. }
    + left. exists e. split; [|done]. eexists. split; [|exact Hin]. simpl. by rewrite undo_lookup, Ho.
    + right. destruct (mi_writes _ Hinv i r k Hr Hin) as (e1 & e0 & es1 & Ho1 & Hh & _). rewrite Ho in Ho1.
      injection Ho1 as ->. injection Hhd as ->. split_and!.
      * by apply (mi_own _ Hinv i r (en_home e) k (e :: e0 :: es1)).
      * apply Hk. apply (Forall_impl _ _ _ Hdst). intros u Hu. apply (inner_pointer_apart sizes s m); [done|done|]. right. by exists i, r.
      * intros j rj Hj Hhj. simpl in Hj. apply lookup_delete_Some in Hj as [Hne Hj]. by apply Hne, (mi_homes _ Hinv i j r rj (en_home e)).
  - intros j. by apply ended_others.
Qed.

Lemma moved_committed s m i tx refs r v home : represents s m → sy_txs s !! i = Some (tx, refs) →
  mv_running m !! i = Some r → ru_home r = Some home → version_of (sy_las s) v home →
  moved i [] s m (ended (poke_to s (committed (sy_world s) home)) i)
    (mk_mvstore (mv_counter m + 1) (commit_objects home (mv_counter m + 1) (mv_objects m)) (delete i (mv_running m))).
Proof.
  intros Hrp Hi Hr Hh Hvo. pose proof (rp_inv _ _ _ Hrp) as Hinv.
  pose proof (version_at_holds _ _ _ _ (vo_at _ _ _ Hvo)) as Hhold. pose proof (vo_memory _ _ _ Hvo) as Hcell.
  set (w' := committed _ home).
  destruct (arena_poke s w') as [Har Ht]; [apply Hrp|apply poked_cell_put with 0; [done|apply Hcell]|]. split.
  - apply las_shape_cell_put with 0; [done|apply Hcell].
  - intros x Hx. by apply (arena_end (poke_to s w') i), Ht.
  - intros p y Hp. left. apply (owns_ended sizes s m i (mv_counter m + 1)) in Hp; [done|]. intros k es e Hk He.
    rewrite commit_lookup in Hk. apply fmap_Some in Hk as (es0 & Hk & ->). apply list_elem_of_fmap in He as (e0 & -> & He).
    exists e0. destruct (commit_entry_spans home (mv_counter m + 1) e0) as (E1 & E2 & E3 & E4 & _). split_and!; try done. by exists es0.
  - intros x Hl [_ Hx] _. apply span_mem_cell_put with 0; try done. apply (Hx (ForRunning home)); [done|].
    by apply (owns_running sizes s m i r).
  - intros k e (es & Ho & He). left. exists (commit_entry home (mv_counter m + 1) e). split_and!.
    + eexists. simpl. rewrite commit_lookup, Ho. split; [done|]. apply list_elem_of_fmap. by exists e.
    + apply commit_entry_spans.
    + intros Hv. unfold commit_entry. rewrite decide_False; [done|]. intros Heq. by apply Hv, (mi_own _ Hinv i r home k es).
  - intros j. by apply ended_others.
Qed.

Lemma moved_abort s m i tx refs r : represents s m → sy_txs s !! i = Some (tx, refs) → mv_running m !! i = Some r →
  ∃ w' m', Transaction_abort (tx, sy_world s) = (Ok tt, (tx, w')) ∧ mv_step m m' ∧
    represents (ended (poke_to s w') i) m' ∧ moved i [] s m (ended (poke_to s w') i) m'.
Proof.
  intros Hrp Hi Hr. destruct (system_abort sizes s m i tx refs r Hrp Hi Hr) as (Heq & [Hms _] & _ & Hrp').
  eexists _, _. split_and!; [exact Heq|exact Hms|exact Hrp'|]. unfold with_las. rewrite <- (rp_counter _ _ _ Hrp).
  by apply (moved_undo s m i tx refs r).
Qed.

Lemma moved_commit s m i tx refs r : represents s m → sy_txs s !! i = Some (tx, refs) → mv_running m !! i = Some r →
  w_version (sy_world s) + 1 < 2 ^ 63 →
  ∃ result w' m', Transaction_commit (tx, sy_world s) = (result, (tx, w')) ∧ mv_step m m' ∧
    represents (ended (poke_to s w') i) m' ∧ moved i [] s m (ended (poke_to s w') i) m'.
Proof.
  intros Hrp Hi Hr Hlt. destruct (commit_cases sizes s m i tx refs r Hrp Hi Hr Hlt) as (res & w' & Heq & Hcases). exists res, w'.
  destruct Hcases as [(-> & _ & ->)|[(-> & v & home & Hh & Hvo & ->)|(-> & Hh & Hws & ->)]].
  - eexists. split_and!; [done|by apply mv_refuse| |].
    + unfold with_las. simpl. rewrite <- (rp_counter _ _ _ Hrp). apply (represents_undo sizes s m i tx refs r); [done..|lia].
    + unfold with_las. simpl. rewrite <- (rp_counter _ _ _ Hrp). by apply (moved_undo s m i tx refs r).
  - destruct (represents_commit sizes s m i tx refs r v home) as [Hms Hrp']; [done..|].
    eexists. split_and!; [done|exact Hms|exact Hrp'|by apply (moved_committed s m i tx refs r v)].
  - destruct (moved_abort s m i tx refs r Hrp Hi Hr) as (w' & m' & Habort & Hms & Hrp' & Hmv).
    assert (w' = sy_world s) as ->.
    { destruct (system_abort sizes s m i tx refs r Hrp Hi Hr) as (Heq' & _). rewrite Heq' in Habort. injection Habort as <-.
      rewrite Hws. simpl. unfold sy_las. by rewrite with_las_id. }
    by exists m'.
Qed.
End Moves.
