(* ===== verification/Races.v ===== *)
(** * Races between writers

    [write] and [alloc] interrupted between any two of their stages by the other
    transactions, which may be in the middle of such calls themselves.  What a
    call that is under way can rely on ([race_inv]): its new version, which
    nobody else has, and the version it has read; and that the steps of the
    others keep this. *)
From S2P Require Import Prelude Utils Source SourceAllocator Slices Las Memory Pointer Vos.
From S2P Require Import Allocators Versions Objects Tx Transactions Heap Runs Snapshot Arena Simulation Calls Isolation Clients Stages Moves.

(** The new version of a [write] that is not swung in yet: the words of its
    header and its data, by the reference to the data. *)
Definition made_places `{T : Target} (dst : memref) : list span :=
  let header := mr_off dst - size_of_ObjectHeader in
  [mk_span (mr_source dst) (header + off_version) size_of_usize;
   mk_span (mr_source dst) (header + off_other) size_of_usize; ref_span dst].

Definition stage_places `{T : Target} (g : stage) : list span :=
  match g with Allocated _ _ _ _ dst | Copied _ _ _ dst => made_places dst | _ => [] end.

Definition places_at `{T : Target} (gs : gmap nat stage) (i : nat) : list span :=
  match gs !! i with Some g => stage_places g | None => [] end.

Section Races.
Context `{T : Target} `{TOk : !TargetOk T} `{C : Crc} {D : Type} `{Src : !Source D} `{Laws : !SourceLaws D}.
Context (sizes : gmap cell ObjectSize).
Abbreviation represents := (represents sizes).
Abbreviation owns := (owns sizes).
Abbreviation total_at := (total_at sizes).
Abbreviation moved := (moved sizes).
Abbreviation inert := (inert sizes).
Abbreviation unused := (unused sizes).
Implicit Types (las : LogicalAddressSpace D) (w : World D) (tx : Transaction) (s : system D) (refs : list memref).
Implicit Types (m : mvstore cell) (r : running cell) (e : entry) (es : list entry) (k : cell) (p : purpose) (x y : span).
Implicit Types (gs : gmap nat stage) (g : stage) (v : Version) (raw : UntypedPointer).

(** ** What a call under way knows *)

(** Apart from what the transactions in the middle of a call have made. *)
Definition clear gs x : Prop := ∀ j, Forall (spans_apart x) (places_at gs j).

(** A version that was swung in and taken back: nobody writes to its words. *)
Definition stale s m gs k e : Prop := en_version e = 0 ∧ head_at (sy_las s) (total_at k) (en_address e) e ∧
  ∀ c, c = en_version_cell e ∨ c = en_home e → inert s m (cell_span c) ∧ clear gs (cell_span c).

(** The version a cloned pointer refers to. *)
Definition seen_at s m gs k raw : Prop := UntypedPointer_address raw = raw ∧
  ∃ e, en_address e = raw ∧ (has_entry m k e ∨ stale s m gs k e).

(** The version that is continued. *)
Record sourced m r k raw (src : memref) e : Prop := {
  so_entry : has_entry m k e;
  so_visible : visible (ru_snapshot r) e = true;
  so_address : en_address e = raw;
  so_data : src = en_data (total_at k) e
}.

(** The new version. *)
Record prepared las r k raw (dstptr : UntypedPointer) (dst : memref) e' : Prop := {
  pr_version : en_version e' = 0;
  pr_home : ru_home r = Some (en_home e');
  pr_address : en_address e' = dstptr;
  pr_data : dst = en_data (total_at k) e';
  pr_header : size_of_ObjectHeader ≤ dstptr < 2 ^ 54;
  pr_range : byte_range las (dstptr - size_of_ObjectHeader) (total_at k + size_of_ObjectHeader) (en_base e');
  pr_at : version_at las (en_version_cell e') (en_home e') 0;
  pr_other : ∃ other, cell_holds las (en_other_cell e') other ∧ UntypedPointer_is_some other = true ∧
    UntypedPointer_is_byte_addressable other = true ∧ UntypedPointer_address other = raw
}.

(** A byte of [src] that is not a pointer's. *)
Definition plain (b o : Z) : Prop := ∀ off, is_Some (sizes !! InMemory b off) → ¬ off ≤ o < off + size_of_usize.

Definition copied las (total : Z) (src dst : memref) : Prop := ∀ o, 0 ≤ o < total → plain (mr_source src) (mr_off src + o) →
  mem las (mr_source dst) (mr_off dst + o) 1 = mem las (mr_source src) (mr_off src + o) 1.

Definition stage_ok s m gs tx r g : Prop :=
  match g with
  | Cloned k size raw => sizes !! k = Some size ∧ seen_at s m gs k raw
  | Versioned k size raw v => sizes !! k = Some size ∧ tx_version tx = Some v ∧ seen_at s m gs k raw
  | Viewed k size address v raw src => sizes !! k = Some size ∧ tx_version tx = Some v ∧
      UntypedPointer_address raw = raw ∧ address = raw ∧ ∃ e, sourced m r k raw src e
  | Allocated k address src dstptr dst => is_Some (sizes !! k) ∧ UntypedPointer_address address = address ∧
      ∃ e e', sourced m r k address src e ∧ prepared (sy_las s) r k address dstptr dst e'
  | Copied k address dstptr dst => is_Some (sizes !! k) ∧ UntypedPointer_address address = address ∧
      ∃ src e e', sourced m r k address src e ∧ prepared (sy_las s) r k address dstptr dst e' ∧
        copied (sy_las s) (total_at k) src dst
  | Making size => ∃ total, ObjectSize_total size = Ok total ∧ 0 < total ∧ aligned 8 total
  | Made size v => (∃ total, ObjectSize_total size = Ok total ∧ 0 < total ∧ aligned 8 total) ∧ tx_version tx = Some v
  end.

(** The invariant of a heap with transactions in the middle of calls. *)
Record race_inv s m gs : Prop := {
  ri_represents : represents s m;
  ri_stage i g : gs !! i = Some g → ∃ tx refs r, sy_txs s !! i = Some (tx, refs) ∧ mv_running m !! i = Some r ∧
    stage_ok s m gs tx r g;
  ri_unused i x : x ∈ places_at gs i → unused s m x;
  ri_apart i j x y : i ≠ j → x ∈ places_at gs i → y ∈ places_at gs j → spans_apart x y
}.

(** *** Versions by their address *)
Lemma head_at_own las total raw e : head_at las total raw e → head_at las total (en_address e) e.
Proof.
  intros [A1 A2 A3 A4 A5 A6]. pose proof (UntypedPointer_address_range raw) as Hr. rewrite <- A3 in Hr.
  destruct (byte_pointer (en_address e) Hr) as [E Hb].
  split; try done. unfold UntypedPointer_is_some. rewrite E. apply bool_decide_true. usize.
Qed.

Lemma entry_head s m k e : represents s m → has_entry m k e → head_at (sy_las s) (total_at k) (en_address e) e.
Proof.
  intros Hrp (es & Ho & He). destruct (rp_objects _ _ _ Hrp k es Ho) as [_ _ _ (raw & _ & _ & Hch)]. clear Ho.
  induction Hch as [|raw e0 other es A1 A2 A3 A4 A5 A6 A7 Hch IH]; [by apply elem_of_nil in He|].
  apply elem_of_cons in He as [->|He]; [|by apply IH]. by apply head_at_own with raw.
Qed.

Lemma head_at_kept las las' total raw e : las_shape las' = las_shape las → cell_kept las las' (en_version_cell e) →
  cell_kept las las' (en_home e) → head_at las total raw e → head_at las' total raw e.
Proof. intros Hs Hv Hh []. split; try done; [by apply (byte_range_shape las)|by apply (version_at_kept las)]. Qed.

Lemma version_at_unique las c home v home' v' : version_at las c home v → version_at las c home' v' → home' = home ∧ v' = v.
Proof.
  intros H H'. assert (home' = home) as ->.
  { destruct H as [v Hc Hr|p b v Hc Hp Hr Hh Hv]; destruct H' as [v' Hc' Hr'|p' b' v' Hc' Hp' Hr' Hh' Hv']; [done|..];
      pose proof (version_word_unique _ _ _ _ Hc Hc') as E.
    - destruct (Version_indirect p') as (E' & _); lia.
    - destruct (Version_indirect p) as (E' & _); lia.
    - destruct (Version_indirect p) as (E1 & _); [lia|]. destruct (Version_indirect p') as (E2 & _); [lia|].
      assert (p' = p) as -> by lia. pose proof (br_home _ _ _ _ Hr) as Hb. rewrite (br_home _ _ _ _ Hr') in Hb. by injection Hb as ->. }
  split; [done|]. apply version_at_holds in H, H'. by apply (version_word_unique las home).
Qed.

Lemma head_at_unique las total raw e e' : head_at las total raw e → head_at las total raw e' → e' = e.
Proof.
  intros [_ _ A3 _ A5 A6] [_ _ B3 _ B5 B6]. destruct e as [b a h n], e' as [b' a' h' n']. simpl in *. subst a a'.
  pose proof (br_home _ _ _ _ A5) as Hb. rewrite (br_home _ _ _ _ B5) in Hb. injection Hb as ->.
  by destruct (version_at_unique _ _ _ _ _ _ A6 B6) as [-> ->].
Qed.

(** *** The invariant is kept *)
Lemma made_places_entry total e : made_places (en_data total e) =
  [cell_span (en_version_cell e); cell_span (en_other_cell e); ref_span (en_data total e)].
Proof.
  unfold made_places. cbn [en_data mr_off mr_source]. replace (_ + size_of_ObjectHeader - size_of_ObjectHeader)
    with (en_address e - size_of_ObjectHeader - en_base e) by lia. done.
Qed.

Lemma spans_apart_part x y z : sp_base y = sp_base x → sp_off x ≤ sp_off y → sp_off y + sp_len y ≤ sp_off x + sp_len x →
  spans_apart x z → spans_apart y z.
Proof. unfold spans_apart, apart. simpl. intros -> ? ? Hap. lia. Qed.

Lemma inert_within s m x y : sp_base y = sp_base x → sp_off x ≤ sp_off y → sp_off y + sp_len y ≤ sp_off x + sp_len x →
  inert s m x → inert s m y.
Proof.
  intros Hb Ho Hl [Ht Hap]. split; [|by intros p z Hp Hz; apply (spans_apart_part x); auto; apply (Hap p)].
  intros o Hr. rewrite Hb. apply Ht. lia.
Qed.

(** The bytes of a committed version that are no pointers. *)
Lemma entry_byte_inert s m k e o : represents s m → has_entry m k e → en_version e ≠ 0 → 0 ≤ o < total_at k →
  plain (mr_source (en_data (total_at k) e)) (mr_off (en_data (total_at k) e) + o) →
  inert s m (mk_span (mr_source (en_data (total_at k) e)) (mr_off (en_data (total_at k) e) + o) 1).
Proof.
  intros Hrp He Hv Ho Hpl. pose proof (owns_data sizes s m k e He) as Hd. set (d := en_data (total_at k) e) in *.
  assert (mr_len d = total_at k) as Hlen by done. split.
  - intros o' Ho'. apply (rp_taken _ _ _ Hrp _ _ Hd). simpl in *. lia.
  - intros p y Hp Hy. pose proof (rp_layout _ _ _ Hrp _ _ _ _ Hd Hy) as Hl.
    assert (spans_apart (ref_span d) y → spans_apart (mk_span (mr_source d) (mr_off d + o) 1) y) as Hpart.
    { apply spans_apart_part; simpl; [done|lia|lia]. }
    inversion Hy as [c Hc| | | |j r c Hr Hh| |j tx refs r c d' Hj Hr Hh Hd']; subst; try done.
    + destruct c as [b off|]; [|by right; left]. specialize (Hpl off). unfold spans_apart, apart. simpl in *.
      destruct (decide (b = mr_source d)) as [E|Hne]; [|right; right; left; intros E; apply Hne; symmetry; exact E]. right; right; right.
      rewrite E in Hc. specialize (Hpl Hc). unfold size_of_usize in *. lia.
    + by apply Hpart.
    + destruct Hl as [[E _]|]; [|by apply Hpart]. destruct Hv. destruct He as (es & Ho' & He).
      by apply (mi_own _ (rp_inv _ _ _ Hrp) j r c k es).
Qed.

(** Where the calls under way have their places after a step of [i]. *)
Definition placed (i : nat) s gs gs' : Prop := (∀ j, j ≠ i → gs' !! j = gs !! j) ∧
  ∀ x, x ∈ places_at gs' i → x ∈ places_at gs i ∨ fresh s x.

Lemma clear_placed i s gs gs' x : placed i s gs gs' → span_taken s x → clear gs x → clear gs' x.
Proof.
  intros [Hne Hi] Ht Hc j. destruct (decide (j = i)) as [->|Hji].
  - apply Forall_forall. intros y [Hy|Hy]%Hi; [|by apply Hy]. specialize (Hc i). rewrite Forall_forall in Hc. by apply Hc.
  - specialize (Hc j). unfold places_at in *. by rewrite Hne.
Qed.

Lemma owned_clear s m gs p x : race_inv s m gs → owns s m p x → clear gs x.
Proof.
  intros [_ _ Hu _] Hx j. apply Forall_forall. intros y Hy. destruct (Hu j y Hy) as [_ Hap]. by apply spans_apart_sym, (Hap p).
Qed.

Lemma stale_moved i s m gs s' m' gs' k e : moved i (places_at gs i) s m s' m' → placed i s gs gs' →
  stale s m gs k e → stale s' m' gs' k e.
Proof.
  intros Hm Hp (Hv & Hh & Hc). split; [done|]. split.
  - apply (head_at_kept (sy_las s)); [apply Hm| | |done]; (apply (inert_kept sizes i (places_at gs i) s m s' m'); [done|apply Hc; auto..]).
  - intros c Hc'. destruct (Hc c Hc') as [Hi Hcl]. split; [by apply (inert_moved sizes i (places_at gs i) s m)|].
    apply (clear_placed i s gs); [done|apply Hi|done].
Qed.

Lemma seen_moved i s m gs s' m' gs' k raw : race_inv s m gs → represents s' m' → moved i (places_at gs i) s m s' m' →
  placed i s gs gs' → seen_at s m gs k raw → seen_at s' m' gs' k raw.
Proof.
  intros Hri Hrp' Hm Hp (Ha & e & He & Hcase). split; [done|]. pose proof (ri_represents _ _ _ Hri) as Hrp.
  destruct Hcase as [Hent|Hst]; [|exists e; split; [done|right; by apply (stale_moved i s m gs)]].
  destruct (mo_entry _ _ _ _ _ _ _ Hm k e Hent) as [(e' & He' & Ea & _)|(Hv & Hk & Hgone)].
  { exists e'. split; [congruence|by left]. }
  exists e. split; [done|]. right. destruct (entry_gone sizes i (places_at gs i) s m s' m' k e) as (I1 & I2 & K1); try done.
  { intros x Hx. by apply (ri_unused _ _ _ Hri i). }
  pose proof (owns_version sizes s m k e Hent) as O1. pose proof (owns_number sizes s m k e Hent) as O2.
  split; [done|]. split; [apply (head_at_kept (sy_las s)); [apply Hm|done|done|by apply (entry_head s m)]|].
  intros c [->| ->]; (split; [done|]).
  - apply (clear_placed i s gs); [done|by apply (rp_taken _ _ _ Hrp _ _ O1)|by apply (owned_clear s m gs ForHeader)].
  - apply (clear_placed i s gs); [done|by apply (rp_taken _ _ _ Hrp _ _ O2)|by apply (owned_clear s m gs (ForNumber (en_home e)))].
Qed.

Lemma sourced_moved i own s m s' m' r k raw src e : moved i own s m s' m' → sourced m r k raw src e → sourced m' r k raw src e.
Proof.
  intros Hm [S1 S2 S3 S4]. pose proof S2 as Hv. apply visible_true in Hv as [Hv _]. split; try done.
  by destruct (mo_entry _ _ _ _ _ _ _ Hm k e S1) as [(e' & He' & _ & E)|[? _]]; [rewrite <- (E Hv)|].
Qed.

Lemma running_home s m i tx refs r home : represents s m → sy_txs s !! i = Some (tx, refs) → mv_running m !! i = Some r →
  ru_home r = Some home → cell_holds (sy_las s) home 0.
Proof.
  intros Hrp Hi Hr Hh. pose proof (ta_version _ _ _ _ _ _ (rp_transactions _ _ _ Hrp i tx refs r Hi Hr)) as Hm.
  unfold version_matches in Hm. rewrite Hh in Hm. destruct (tx_version tx); [|done]. by apply version_at_holds with (c := OnStack z), Hm.
Qed.

Lemma prepared_kept las las' r k raw dstptr dst e' : las_shape las' = las_shape las →
  cell_kept las las' (en_version_cell e') → cell_kept las las' (en_other_cell e') → cell_holds las' (en_home e') 0 →
  prepared las r k raw dstptr dst e' → prepared las' r k raw dstptr dst e'.
Proof.
  intros Hs Hv Ho Hh [P1 P2 P3 P4 P5 P6 P7 P8]. split; try done; [by apply (byte_range_shape las)| |].
  2:{ destruct P8 as (other & Hc & ?). exists other. split; [by apply Ho|done]. }
  inversion P7 as [v Hc Hr E|p b v Hc Hp Hr Hz Hlt E].
  - rewrite E. apply version_direct; [done|lia].
  - apply version_indirect; [by apply Hv|done|by apply (byte_range_shape las)|by rewrite ?E|done].
Qed.

Lemma copied_moved i s m gs s' m' r k raw src dst e : race_inv s m gs → moved i (places_at gs i) s m s' m' →
  sourced m r k raw src e → mr_len dst = total_at k → unused s m (ref_span dst) →
  Forall (spans_apart (ref_span dst)) (places_at gs i) →
  copied (sy_las s) (total_at k) src dst → copied (sy_las s') (total_at k) src dst.
Proof.
  intros Hri Hm [S1 S2 S3 ->] Hlen Hu Hap Hc o Ho Hpl. apply visible_true in S2 as [Hv _].
  pose proof (ri_represents _ _ _ Hri) as Hrp. set (src := en_data (total_at k) e) in *.
  assert (mem (sy_las s') (mr_source dst) (mr_off dst + o) 1 = mem (sy_las s) (mr_source dst) (mr_off dst + o) 1) as ->.
  { apply (mo_bytes _ _ _ _ _ _ _ Hm (mk_span (mr_source dst) (mr_off dst + o) 1)); simpl; [lia| |].
    - apply (inert_within s m (ref_span dst)); simpl; [done|lia|lia|by apply unused_inert].
    - apply (Forall_impl _ _ _ Hap). intros x. apply spans_apart_part; simpl; [done|lia|lia]. }
  assert (mem (sy_las s') (mr_source src) (mr_off src + o) 1 = mem (sy_las s) (mr_source src) (mr_off src + o) 1) as ->.
  { apply (mo_bytes _ _ _ _ _ _ _ Hm (mk_span (mr_source src) (mr_off src + o) 1)); simpl; [lia|by apply (entry_byte_inert s m k)|].
    pose proof (owned_clear s m gs _ _ Hri (owns_data sizes s m k e S1) i) as Hcl.
    apply (Forall_impl _ _ _ Hcl). intros x. apply spans_apart_part; simpl; [done|lia|lia]. }
  by apply Hc.
Qed.

Lemma made_kept i j s m gs s' m' x : race_inv s m gs → moved i (places_at gs i) s m s' m' → j ≠ i → x ∈ places_at gs j →
  unused s m x ∧ Forall (spans_apart x) (places_at gs i).
Proof.
  intros Hri Hm Hne Hx. split; [by apply (ri_unused _ _ _ Hri j)|]. apply Forall_forall. intros y Hy.
  by apply (ri_apart _ _ _ Hri j i).
Qed.

Lemma prepared_moved i j s m gs s' m' tx refs r k raw dstptr dst e' : race_inv s m gs → represents s' m' →
  moved i (places_at gs i) s m s' m' → j ≠ i → sy_txs s !! j = Some (tx, refs) → mv_running m !! j = Some r →
  places_at gs j = made_places dst → prepared (sy_las s) r k raw dstptr dst e' →
  prepared (sy_las s') r k raw dstptr dst e' ∧ unused s m (ref_span dst) ∧ Forall (spans_apart (ref_span dst)) (places_at gs i).
Proof.
  intros Hri Hrp' Hm Hne Hj Hr Hpl Hp. pose proof (pr_data _ _ _ _ _ _ _ Hp) as ->. rewrite made_places_entry in Hpl.
  assert (∀ x, x ∈ places_at gs j → unused s m x ∧ Forall (spans_apart x) (places_at gs i)) as Hx by (intros x; by apply (made_kept i j s m gs s' m')).
  rewrite Hpl in Hx. split; [|apply Hx; right; right; by left].
  destruct (mo_others _ _ _ _ _ _ _ Hm j Hne) as [Ej Er]. rewrite <- Ej in Hj. rewrite <- Er in Hr.
  apply (prepared_kept (sy_las s)); [apply Hm| | | |done].
  3: by apply (running_home s' m' j tx refs r); [..|apply Hp].
  all: apply (inert_kept sizes i (places_at gs i) s m s' m'); try done; try apply unused_inert; apply Hx; rewrite !elem_of_cons; auto.
Qed.

Lemma stage_ok_moved i j s m gs s' m' gs' tx refs r g : race_inv s m gs → represents s' m' → moved i (places_at gs i) s m s' m' →
  placed i s gs gs' → j ≠ i → gs !! j = Some g → sy_txs s !! j = Some (tx, refs) → mv_running m !! j = Some r → stage_ok s m gs tx r g → stage_ok s' m' gs' tx r g.
Proof.
  intros Hri Hrp' Hm Hp Hne Hj Htx Hr. assert (places_at gs j = stage_places g) as Hpl by (unfold places_at; by rewrite Hj).
  destruct g as [k size raw|k size raw v|k size address v raw src|k address src dstptr dst|k address dstptr dst|size|size v];
    cbn [stage_ok stage_places] in *.
  - intros [? ?]. split; [done|]. by apply (seen_moved i s m gs).
  - intros (? & ? & ?). split_and!; [done|done|]. by apply (seen_moved i s m gs).
  - intros (? & ? & ? & ? & e & He). split_and!; [done..|]. exists e. by apply (sourced_moved i (places_at gs i) s m s').
  - intros (? & ? & e & e' & He & He'). split_and!; [done..|]. exists e, e'.
    split; [by apply (sourced_moved i (places_at gs i) s m s')|by destruct (prepared_moved i j s m gs s' m' tx refs r k address dstptr dst e')].
  - intros (? & ? & src & e & e' & He & He' & Hc). split_and!; [done..|]. exists src, e, e'.
    destruct (prepared_moved i j s m gs s' m' tx refs r k address dstptr dst e') as (Hp' & Hu & Hap); [done..|].
    split_and!; [by apply (sourced_moved i (places_at gs i) s m s')|done|].
    apply (copied_moved i s m gs s' m' r k address src dst e); try done. by rewrite (pr_data _ _ _ _ _ _ _ He').
  - done.
  - done.
Qed.

(** After a step of [i]: it is enough to look at its own stage. *)
Lemma race_inv_step i s m gs s' m' gs' : race_inv s m gs → represents s' m' → moved i (places_at gs i) s m s' m' →
  placed i s gs gs' →
  (∀ g, gs' !! i = Some g → ∃ tx refs r, sy_txs s' !! i = Some (tx, refs) ∧ mv_running m' !! i = Some r ∧ stage_ok s' m' gs' tx r g) →
  (∀ x, x ∈ places_at gs' i → unused s' m' x) → race_inv s' m' gs'.
Proof.
  intros Hri Hrp' Hm Hp Hst Hu. pose proof Hp as [Hne Hpi].
  assert (∀ j, j ≠ i → places_at gs' j = places_at gs j) as Hpl by (intros j Hji; unfold places_at; by rewrite Hne).
  assert (∀ j x y, j ≠ i → x ∈ places_at gs' i → y ∈ places_at gs' j → spans_apart x y) as Hap.
  { intros j x y Hji Hx Hy. rewrite Hpl in Hy by done. apply Hpi in Hx as [Hx|Hf]; [by apply (ri_apart _ _ _ Hri i j)|].
    apply spans_apart_sym, Hf. by apply (ri_unused _ _ _ Hri j). }
  split.
  - done.
  - intros j g Hj. destruct (decide (j = i)) as [->|Hji]; [by apply Hst|]. rewrite Hne in Hj by done.
    destruct (ri_stage _ _ _ Hri j g Hj) as (tx & refs & r & Htx & Hr & Hok). exists tx, refs, r.
    destruct (mo_others _ _ _ _ _ _ _ Hm j Hji) as [-> ->]. split_and!; [done|done|]. by apply (stage_ok_moved i j s m gs s' m' gs' tx refs).
  - intros j x Hx. destruct (decide (j = i)) as [->|Hji]; [by apply Hu|]. rewrite Hpl in Hx by done.
    destruct (made_kept i j s m gs s' m' x) as [Hu' Hap']; [done..|]. by apply (unused_moved sizes i (places_at gs i) s m).
  - intros j j' x y Hjj' Hx Hy. destruct (decide (j = i)) as [->|Hji]; [by apply (Hap j')|].
    destruct (decide (j' = i)) as [->|Hji']; [by apply spans_apart_sym, (Hap j)|].
    rewrite Hpl in Hx, Hy by done. by apply (ri_apart _ _ _ Hri j j').
Qed.

(** A step after which [i] is in no call. *)
Lemma race_inv_idle i s m gs s' m' gs' : race_inv s m gs → represents s' m' → moved i (places_at gs i) s m s' m' →
  gs' = delete i gs → race_inv s' m' gs'.
Proof.
  intros Hri Hrp' Hm ->. assert (places_at (delete i gs) i = []) as Hpl by (unfold places_at; by rewrite lookup_delete_eq).
  apply (race_inv_step i s m gs); try done.
  - split; [intros j Hne; by rewrite lookup_delete_ne|]. rewrite Hpl. by intros x ?%elem_of_nil.
  - intros g Hg. by rewrite lookup_delete_eq in Hg.
  - rewrite Hpl. by intros x ?%elem_of_nil.
Qed.

(** A step after which [i] is in a call, without places of its own. *)
Lemma race_inv_stage i s m gs s' m' g tx refs r : race_inv s m gs → represents s' m' → moved i (places_at gs i) s m s' m' →
  stage_places g = [] → sy_txs s' !! i = Some (tx, refs) → mv_running m' !! i = Some r →
  stage_ok s' m' (<[i := g]> gs) tx r g → race_inv s' m' (<[i := g]> gs).
Proof.
  intros Hri Hrp' Hm Hg Htx Hr Hok.
  assert (places_at (<[i := g]> gs) i = []) as Hpl by (unfold places_at; by rewrite lookup_insert_eq).
  apply (race_inv_step i s m gs); try done.
  - split; [intros j Hne; by rewrite lookup_insert_ne|]. rewrite Hpl. by intros x ?%elem_of_nil.
  - intros g' Hg'. rewrite lookup_insert_eq in Hg'. injection Hg' as <-. by exists tx, refs, r.
  - rewrite Hpl. by intros x ?%elem_of_nil.
Qed.
End Races.
