(* ===== verification/Stepwise.v ===== *)
(** * A call, stage by stage

    What each stage of [write] and [alloc] comes to when the others may have
    done anything in between, and that the heap goes on standing for a
    multi-version store. *)
From S2P Require Import Prelude Utils Source SourceAllocator Slices Las Memory Pointer Vos.
From S2P Require Import Allocators Versions Objects Paging Tx Transactions Heap Runs Snapshot Arena Simulation Calls Isolation Clients Stages Moves Races.

Section Stepwise.
Context `{T : Target} `{TOk : !TargetOk T} `{C : Crc} {D : Type} `{Src : !Source D} `{Laws : !SourceLaws D}.
Context (sizes : gmap cell ObjectSize).
Abbreviation represents := (represents sizes).
Abbreviation owns := (owns sizes).
Abbreviation total_at := (total_at sizes).
Abbreviation moved := (moved sizes).
Abbreviation race_inv := (race_inv sizes).
Implicit Types (las : LogicalAddressSpace D) (w : World D) (tx : Transaction) (s : system D) (refs : list memref).
Implicit Types (m : mvstore cell) (r : running cell) (e : entry) (es : list entry) (k : cell) (p : purpose) (x y : span).
Implicit Types (gs : gmap nat stage) (g : stage) (v : Version) (raw : UntypedPointer).

(** What a stage does to the objects of the store: nothing, unless it is the
    compare-and-swap of a [write] and succeeds; that puts the new version in
    front. *)
Definition stage_effect g (o : outcome (stage + ending)) m m' : Prop :=
  match g, o with
  | Copied k _ dstptr dst, Ok _ => ∃ e' es, mv_objects m !! k = Some es ∧
      mv_objects m' = <[k := e' :: es]> (mv_objects m) ∧ en_version e' = 0 ∧ en_address e' = dstptr ∧ dst = en_data (total_at k) e'
  | _, _ => mv_objects m' = mv_objects m
  end.

(** What a stage has come to: a result or an error, at most one step of the
    store, and the invariant again. *)
Record staged_ok s m gs (i : nat) g tx refs (o : outcome (stage + ending)) tx' w' m' : Prop := {
  st_result fuel : (0 < fuel)%nat → advance fuel g (tx, sy_world s) = (o, (tx', w'));
  st_returns : returns o;
  st_step : mv_step m m' ∨ m' = m;
  st_effect : stage_effect g o m m';
  st_inv : race_inv (step_to s i tx' (given o refs) w') m' (staged i o gs)
}.

(** *** The version of the transaction *)
Lemma moved_version s m i tx refs r v tx0 w' home : represents s m → sy_txs s !! i = Some (tx, refs) →
  mv_running m !! i = Some r → tx_version tx = None → tx_inv tx0 w' → tx_step tx (sy_world s) tx0 w' →
  tx_version tx0 = None → own_version (set_version (Some v) tx0) w' v home →
  (∀ b off n, 0 < n → tx_range_in_use tx (sy_world s) b off n → range_apart b off n home) →
  let s' := step_to s i (set_version (Some v) tx0) refs w' in
  let m' := mk_mvstore (mv_counter m) (mv_objects m) (<[i := mk_running (ru_snapshot r) (Some home) (ru_writes r)]> (mv_running m)) in
  mv_step m m' ∧ represents s' m' ∧ moved i [] s m s' m'.
Proof.
  intros Hrp Hi Hr Hv Hinv0 Hst Hv0 Hown Hfresh s' m'.
  destruct (represents_step sizes s m i tx refs tx0 w') as [Hrp0 Ht0]; [done..|congruence|].
  set (s0 := step_to s i tx0 refs w') in *. destruct Hown as [O1 O2 O3 O4 O5].
  pose proof O3 as (b & a & Hhome & _). unfold cell_at in Hhome.
  assert (fresh_block tx (sy_world s) b (a - b) size_of_usize) as Hfb.
  { intros b' off n Hn Hu. specialize (Hfresh b' off n Hn Hu). by rewrite Hhome in Hfresh. }
  assert (cell_taken s0 home) as Htk.
  { rewrite Hhome. apply (fresh_taken s i tx refs _ refs w' b (a - b) size_of_usize); [apply Hrp|done|done|lia|lia|].
    by rewrite Hhome in O5. }
  assert (fresh s (cell_span home)) as Hfr.
  { intros x Hx. rewrite Hhome. apply spans_apart_sym, (fresh_apart s i tx refs b (a - b) size_of_usize); [done|done|done|simpl; lia..|done]. }
  assert (fillings_from s s0) as Hff by by apply (fillings_step s i tx refs).
  destruct (represents_version sizes s0 m i tx0 refs r v home) as [Hms Hrp1]; try done.
  { apply step_to_this. }
  { intros p x Hx. apply spans_apart_sym, Hfr, (rp_taken _ _ _ Hrp p). by apply (owns_from sizes s s0). }
  unfold s0 in Hrp1. rewrite step_to_twice in Hrp1. split; [done|]. split; [done|]. split.
  - apply Hst.
  - intros x. apply (arena_step s i tx refs (set_version (Some v) tx0) refs w'); [apply Hrp|done|apply Hinv0|apply Hst|].
    intros b' off n Hn Hu. by apply (ts_range _ _ _ _ Hst).
  - intros p y Hp. assert (owns s m p y ∨ p = ForRunning home ∧ y = cell_span home) as [Hy|[-> ->]]; [|by left|by right; left].
    destruct Hp as [| | | |j r' h Hj Hhj| |j txj refsj r' h d Hj Hrj Hhj Hd]; [left; by constructor|left..| |left|].
    + by apply owns_version with k.
    + by apply owns_other with k.
    + by apply owns_number with k.
    + simpl in Hj. apply lookup_insert_Some in Hj as [[<- <-]|[_ Hj]]; [right; by injection Hhj as <-|left; by apply owns_running with j r'].
    + by apply owns_data.
    + pose proof (ta_version _ _ _ _ _ _ (rp_transactions _ _ _ Hrp i tx refs r Hi Hr)) as Hmt. unfold version_matches in Hmt.
      rewrite Hv in Hmt. apply step_to_lookup in Hj as [(<- & <- & <-)|[Hne Hj]].
      * destruct (ru_home r); [done|]. subst refs. by apply elem_of_nil in Hd.
      * simpl in Hrj. rewrite lookup_insert_ne in Hrj by done. left. by apply owns_filling with j txj refsj r'.
  - intros x Hl [Hx _] _. apply (ts_range _ _ _ _ Hst); [done|]. by apply (taken_in_use s i tx refs).
  - intros k e. by apply entry_stays, same_objects.
  - intros j Hne. split; [by apply step_to_others|]. simpl. by rewrite lookup_insert_ne.
Qed.

Lemma version_stage s m i tx refs r : represents s m → sy_txs s !! i = Some (tx, refs) → mv_running m !! i = Some r →
  ∃ result tx' w' m' r', Transaction_write_version (tx, sy_world s) = (result, (tx', w')) ∧ (mv_step m m' ∨ m' = m) ∧
    represents (step_to s i tx' refs w') m' ∧ moved i [] s m (step_to s i tx' refs w') m' ∧
    mv_running m' !! i = Some r' ∧ mv_objects m' = mv_objects m ∧
    match result with Ok v => tx_version tx' = Some v | Fail f => out_of_memory f end.
Proof.
  intros Hrp Hi Hr. pose proof (represents_tx_inv sizes s m i tx refs Hrp Hi) as Hinv.
  destruct (tx_version tx) as [v|] eqn:Hv.
  - exists (Ok v), tx, (sy_world s), m, r. rewrite (step_to_same s i tx refs Hi). split_and!; try done; [|by right|apply moved_refl].
    unfold Transaction_write_version. by rewrite (bind_ok _ _ _ tx (tx, sy_world s)), Hv by done.
  - destruct (write_version_fresh tx (sy_world s) Hinv Hv) as (res & tx0 & w' & Hinv0 & Hst & Hv0 & Heq & Hres).
    destruct res as [v|f].
    + destruct Hres as (home & Hown & Hfresh).
      destruct (moved_version s m i tx refs r v tx0 w' home) as (Hms & Hrp' & Hmv); [done..|].
      eexists (Ok v), _, w', _, _. split_and!; [done|by left|exact Hrp'|exact Hmv|apply lookup_insert_eq|done|done].
    + destruct (represents_step sizes s m i tx refs tx0 w') as [Hrp' _]; [done..|congruence|].
      exists (Fail f), tx0, w', m, r. split_and!; try done; [by right|apply (moved_tx_step sizes s m i tx refs); [done..|congruence]|].
      by destruct Hres as [[-> _]|[-> _]]; [left|right].
Qed.

Lemma stage_running s m gs i g tx refs : race_inv s m gs → gs !! i = Some g → sy_txs s !! i = Some (tx, refs) →
  ∃ r, mv_running m !! i = Some r ∧ stage_ok sizes s m gs tx r g ∧ represents s m ∧ places_at gs i = stage_places g.
Proof.
  intros Hri Hg Hi. destruct (ri_stage _ _ _ _ Hri i g Hg) as (tx' & refs' & r & Hi' & Hr & Hok). rewrite Hi in Hi'.
  injection Hi' as <- <-. exists r. split_and!; [done|done|apply Hri|]. unfold places_at. by rewrite Hg.
Qed.

(** A stage that fails without a trace. *)
Lemma race_inv_failed s m gs i g tx refs : race_inv s m gs → gs !! i = Some g → sy_txs s !! i = Some (tx, refs) →
  race_inv (step_to s i tx refs (sy_world s)) m (delete i gs).
Proof.
  intros Hri Hg Hi. rewrite step_to_same by done. apply (race_inv_idle sizes i s m gs); [done|apply Hri| |done].
  destruct (moved_refl sizes i s m) as [A1 A2 A3 A4 A5 A6]. split; try done. intros p y Hy. by left.
Qed.

(** *** The stages of [write] *)
Lemma cloned_ok s m gs i k size raw tx refs : race_inv s m gs → gs !! i = Some (Cloned k size raw) →
  sy_txs s !! i = Some (tx, refs) → ∃ o tx' w' m', staged_ok s m gs i (Cloned k size raw) tx refs o tx' w' m'.
Proof.
  intros Hri Hg Hi. destruct (stage_running s m gs i _ tx refs Hri Hg Hi) as (r & Hr & [Hk Hseen] & Hrp & Hpl).
  destruct (version_stage s m i tx refs r Hrp Hi Hr) as (res & tx' & w' & m' & r' & Heq & Hms & Hrp' & Hmv & Hr' & Hobj & Hres).
  set (s' := step_to s i tx' refs w') in *.
  destruct res as [v|f].
  - exists (Ok (inl (Versioned k size raw v))), tx', w', m'. split; [|done|done|done|].
    + intros fuel _. cbn [advance]. by step Heq.
    + apply (race_inv_stage sizes i s m gs s' m' _ tx' refs r'); try done; [by rewrite Hpl|apply step_to_this|].
      split_and!; [done|done|]. apply (seen_moved sizes i s m gs); try done; [by rewrite Hpl|].
      split; [intros j Hne; by rewrite lookup_insert_ne|]. unfold places_at. rewrite lookup_insert_eq. by intros x ?%elem_of_nil.
  - exists (Fail f), tx', w', m'. split; [|by apply out_of_memory_returns|done|done|].
    + intros fuel _. cbn [advance]. by step Heq.
    + apply (race_inv_idle sizes i s m gs); try done. by rewrite Hpl.
Qed.

Lemma seen_head s m gs k raw : represents s m → seen_at sizes s m gs k raw → ∃ e, en_address e = raw ∧
  head_at (sy_las s) (total_at k) raw e ∧ (visible (en_version e) e = true → has_entry m k e).
Proof.
  intros Hrp (_ & e & <- & He). exists e. split; [done|]. destruct He as [He|(Hv & Hh & _)].
  - split; [by apply (entry_head sizes s m)|done].
  - split; [done|]. intros Hvis. by apply visible_true in Hvis as [? _].
Qed.

Lemma versioned_ok s m gs i k size raw v tx refs : race_inv s m gs → gs !! i = Some (Versioned k size raw v) →
  sy_txs s !! i = Some (tx, refs) → ∃ o tx' w' m', staged_ok s m gs i (Versioned k size raw v) tx refs o tx' w' m'.
Proof.
  intros Hri Hg Hi. destruct (stage_running s m gs i _ tx refs Hri Hg Hi) as (r & Hr & (Hk & Hv & Hseen) & Hrp & Hpl).
  destruct (seen_head s m gs k raw Hrp Hseen) as (e & Ha & Hhd & Hent). pose proof (proj1 Hseen) as Hraw.
  pose proof (ta_snapshot _ _ _ _ _ _ (rp_transactions _ _ _ Hrp i tx refs r Hi Hr)) as Hsn.
  assert (∀ fuel, (0 < fuel)%nat → on_tx_las (VersionedReader_read fuel (tx_reader tx) (OnStack raw) size true) (tx, sy_world s) =
    (if visible (ru_snapshot r) e then Ok (en_data (total_at k) e, en_header e, OnStack raw) else Err TxAborted, (tx, sy_world s))) as Hread.
  { intros [|fuel] Hf; [lia|]. apply on_tx_las_same. rewrite Hsn. destruct (tx_reader tx) as [n].
    rewrite (VersionedReader_read_head (sy_las s) size (total_at k) n true raw e); try done.
    - cbn [vr_version]. by destruct (visible n e).
    - apply (ar_las _ (rp_arena _ _ _ Hrp)).
    - by apply (total_at_eq sizes s m). }
  destruct (visible (ru_snapshot r) e) eqn:Hvis.
  - exists (Ok (inl (Viewed k size (UntypedPointer_address raw) v raw (en_data (total_at k) e)))), tx, (sy_world s), m.
    split; [|done|by right|done|].
    + intros fuel Hf. cbn [advance]. rewrite (bind_ok _ _ _ tx (tx, sy_world s)) by done. step (Hread fuel Hf).
      by rewrite (bind_ok _ _ _ raw (tx, sy_world s)) by (by apply on_tx_las_same).
    + rewrite step_to_same by done. apply (race_inv_stage sizes i s m gs s m _ tx refs r); try done.
      * rewrite Hpl. apply moved_refl.
      * split_and!; [done..|]. exists e. split; try done. apply Hent. apply visible_true in Hvis. apply visible_true. lia.
  - exists (Err TxAborted), tx, (sy_world s), m. split; [|by eexists|by right|done|by apply (race_inv_failed s m gs i (Versioned k size raw v))].
    intros fuel Hf. cbn [advance]. rewrite (bind_ok _ _ _ tx (tx, sy_world s)) by done. by step (Hread fuel Hf).
Qed.

(** The versions from one of an object's on. *)
Lemma version_chain_from las total raw e es : version_chain las total raw (e :: es) → ∀ raw',
  UntypedPointer_is_some raw' = true → UntypedPointer_is_byte_addressable raw' = true →
  UntypedPointer_address raw' = en_address e → version_chain las total raw' (e :: es).
Proof. intros Hch raw' Hs Hb Ha. inversion Hch as [|? ? other]; subst. by apply (chain_object _ _ _ _ other). Qed.

Lemma entry_chain s m k e : represents s m → has_entry m k e → ∃ es,
  version_chain (sy_las s) (total_at k) (en_address e) (e :: es) ∧ Forall (inner m) (chain_cells (e :: es)).
Proof.
  intros Hrp He. pose proof (entry_head sizes s m k e Hrp He) as [A1 A2 A3 _ _ _]. destruct He as (es0 & Ho & He).
  pose proof (entry_inner m k es0 Ho (inner m) (λ c H, H)) as Hin.
  destruct (rp_objects _ _ _ Hrp k es0 Ho) as [_ _ _ (raw & _ & _ & Hch)]. clear Ho.
  induction Hch as [|raw e0 other es B1 B2 B3 B4 B5 B6 B7 Hch IH]; [by apply elem_of_nil in He|].
  apply elem_of_cons in He as [->|He].
  - exists es. split; [|done]. apply (chain_object _ _ _ _ other); done.
  - apply IH; [done|]. apply Forall_chain_cells in Hin. by apply Hin.
Qed.

(** A new object of the transaction: in memory that was nobody's. *)
Lemma object_made s m i tx refs r v size total raw es : represents s m → sy_txs s !! i = Some (tx, refs) →
  mv_running m !! i = Some r → tx_version tx = Some v → ObjectSize_total size = Ok total → 0 < total → aligned 8 total → is_usize raw →
  version_chain (sy_las s) total raw es → Forall (inner m) (chain_cells es) →
  ∃ result tx' w', on_object_allocator (TransactionalObjectAllocator_alloc size v raw) (tx, sy_world s) = (result, (tx', w')) ∧
    represents (step_to s i tx' refs w') m ∧ moved i [] s m (step_to s i tx' refs w') m ∧ tx_version tx' = tx_version tx ∧
    match result with
    | Ok (ptr, dst) => ∃ e', ptr = en_address e' ∧ dst = en_data total e' ∧ en_version e' = 0 ∧ ru_home r = Some (en_home e') ∧
        size_of_ObjectHeader ≤ ptr < 2 ^ 54 ∧ version_chain (w_las w') total ptr (e' :: es) ∧ ref_at (w_las w') dst ∧
        ∀ x, x ∈ made_places dst → fresh s x ∧ span_taken (step_to s i tx' refs w') x
    | Fail f => out_of_memory f
    end.
Proof.
  intros Hrp Hi Hr Hv Hsize Ht Halt Hraw Hch Hcells.
  destruct (version_home sizes s m i tx refs r v) as (home & Hh & _ & Hown); [done..|].
  pose proof (represents_tx_inv sizes s m i tx refs Hrp Hi) as Hinv.
  destruct (new_object_ok tx (sy_world s) v home size total raw es (zeros total)) as (res & tx' & w' & Heq & Hres); try done;
    [|apply blen_zeros; lia|].
  { apply (Forall_impl _ _ _ Hcells). intros c Hc. apply (cell_taken_in_use s i tx refs); [done|].
    apply (guarded_taken sizes s m); [done|by right]. }
  assert (tx_version tx' = tx_version tx) as Hv'.
  { unfold on_object_allocator, zoom in Heq. destruct (TransactionalObjectAllocator_alloc _ _ _ _) as [? []].
    by injection Heq as _ <- _. }
  assert (tx_inv tx' w' ∧ tx_step tx (sy_world s) tx' w') as [Hinv' Hst].
  { destruct res as [[ptr dst]|f]; [by destruct Hres as (e' & _ & ? & ? & _)|by destruct Hres as (? & ? & _)]. }
  destruct (represents_step sizes s m i tx refs tx' w') as [Hrp' _]; [done..|].
  exists res, tx', w'. split_and!; [done|done|by apply (moved_tx_step sizes s m i tx refs)|done|].
  destruct res as [[ptr dst]|f]; [|by destruct Hres as (_ & _ & [[-> _]|[-> _]]); [left|right]].
  destruct Hres as (e' & -> & _ & _ & Hch' & _ & Hnew). set (las2 := put _ _ _ _) in *.
  destruct (new_places s i tx refs tx' (with_las las2 w') (OnStack 0) total raw home es dst (zeros total) e')
    as (Hap & Htk & _ & Href); [apply Hrp|done..|].
  pose proof Hnew as [_ N2 N3 N4 N5 N6 _ _ _ _ _]. exists e'. split_and!; try done; [congruence|apply N3..| |].
  - apply (ref_at_shape las2); [|done]. change (las_shape (w_las w') = las_shape (w_las (with_las las2 w'))).
    by rewrite (ts_shape _ _ _ _ N2), (ts_shape _ _ _ _ Hst).
  - intros x Hx. rewrite N6, made_places_entry, !elem_of_cons, elem_of_nil in Hx.
    assert (version_places (OnStack 0) total e' ForHeader x ∨ x = ref_span dst) as Hx'.
    { rewrite N6. destruct Hx as [->|[->|[->|[]]]]; [left; left; auto..|by right]. }
    split; [intros y Hy; apply spans_apart_sym; by apply (Hap ForHeader)|].
    intros o Ho. destruct (Htk ForHeader x Hx' o Ho) as [Hf Hn]. split; [|done].
    intros Hf'. apply Hf. by apply put_free_mem.
Qed.

Lemma viewed_ok s m gs i k size address v raw src tx refs : race_inv s m gs → gs !! i = Some (Viewed k size address v raw src) →
  sy_txs s !! i = Some (tx, refs) → ∃ o tx' w' m', staged_ok s m gs i (Viewed k size address v raw src) tx refs o tx' w' m'.
Proof.
  intros Hri Hg Hi. destruct (stage_running s m gs i _ tx refs Hri Hg Hi) as (r & Hr & (Hk & Hv & Hraw & -> & e & Hso) & Hrp & Hpl).
  pose proof Hso as [He Hvis Ha ->]. destruct (entry_chain s m k e Hrp He) as (es & Hch & Hcells). rewrite Ha in Hch.
  assert (0 < total_at k) as Ht by (destruct He as (es0 & Ho & _); apply (rp_objects _ _ _ Hrp k es0 Ho)).
  pose proof (UntypedPointer_address_range raw) as Hrange. rewrite Hraw in Hrange.
  destruct (object_made s m i tx refs r v size (total_at k) raw (e :: es)) as (res & tx' & w' & Heq & Hrp' & Hmv & Hv' & Hres); try done.
  { by apply (total_at_eq sizes s m). }
  { apply (total_aligned sizes s m k Hrp). eauto. }
  { usize. }
  set (s' := step_to s i tx' refs w') in *. assert (moved i (places_at gs i) s m s' m) as Hmv' by by rewrite Hpl. clear Hmv.
  destruct res as [[ptr dst]|f].
  - destruct Hres as (e' & -> & Hdst & N5 & Hh & Hhdr & Hch' & _ & Hx). set (src := en_data (total_at k) e) in *.
    set (gs' := <[i := Allocated k raw src (en_address e') dst]> gs).
    assert (places_at gs' i = made_places dst) as Hpl' by (unfold places_at, gs'; by rewrite lookup_insert_eq).
    exists (Ok (inl (Allocated k raw src (en_address e') dst))), tx', w', m. split; [|done|by right|done|].
    { intros fuel _. cbn [advance]. by step Heq. }
    apply (race_inv_step sizes i s m gs s' m gs'); try done; rewrite ?Hpl'.
    + split; [intros j Hne; unfold gs'; by rewrite lookup_insert_ne|]. rewrite Hpl'. intros x Hin. right. by apply Hx.
    + intros g Hg'. unfold gs' in Hg'. rewrite lookup_insert_eq in Hg'. injection Hg' as <-. exists tx', refs, r.
      split_and!; [apply step_to_this|done|]. split_and!; [by eexists|done|]. exists e, e'. split; [done|].
      inversion Hch' as [|? ? other ? C1 C2 C3 C4 C5 C6 C7 C8]; subst. inversion C8; subst.
      split; try done; [by rewrite <- N5|]. exists other. split_and!; [done..|congruence].
    + intros x Hin. destruct (Hx x Hin) as [Hf Htk']. split; [done|]. intros p y Hy.
      apply spans_apart_sym, Hf, (rp_taken _ _ _ Hrp p). apply (owns_from sizes s s'); [|done]. by apply (fillings_step s i tx refs).
  - exists (Fail f), tx', w', m. split; [|by apply out_of_memory_returns|by right|done|by apply (race_inv_idle sizes i s m gs)].
    intros fuel _. cbn [advance]. by step Heq.
Qed.

Lemma step_to_poke s i tx refs w' : sy_txs s !! i = Some (tx, refs) → step_to s i tx refs w' = poke_to s w'.
Proof. intros Hi. unfold step_to, poke_to. by rewrite insert_id. Qed.

(** The transaction fills its new version: nobody has it yet. *)
Lemma represents_filled s m i tx refs d bytes : represents s m → sy_txs s !! i = Some (tx, refs) →
  unused sizes s m (ref_span d) → ref_at (sy_las s) d → blen bytes = mr_len d →
  let s' := step_to s i tx refs (with_las (put (mr_source d) (mr_off d) bytes (sy_las s)) (sy_world s)) in
  represents s' m ∧ (∀ x, unused sizes s m x → unused sizes s' m x) ∧
  ∀ own, ref_span d ∈ own → moved i own s m s' m.
Proof.
  intros Hrp Hi [Htk Hu] [Hl Hsrc Hm] Hlen. rewrite step_to_poke by done. rewrite <- Hlen in Hm, Hl. cbv zeta.
  set (las' := put _ _ _ _). destruct (arena_poke s (with_las las' (sy_world s))) as [Har Ht]; [apply Hrp|by apply poked_put|].
  assert (∀ p x, owns (poke_to s (with_las las' (sy_world s))) m p x → owns s m p x) as Hown.
  { intros p x. apply owns_from. intros j txj refsj Hj. by exists txj, refsj. }
  assert (las_shape las' = las_shape (sy_las s)) as Hs by by apply las_shape_put.
  split; [|split].
  - apply (represents_frame sizes s); try done.
    + intros j txj refsj Hj. by exists txj, refsj.
    + intros c Hc. destruct (guarded_owned sizes s m c Hc) as (p & Hp & _). specialize (Hu p _ Hp).
      apply put_kept; [done|done|]. destruct c as [b off|]; [|done]. unfold spans_apart, apart in *. simpl in *.
      rewrite Hlen in *. unfold size_of_usize in *. lia.
  - intros x [Hx1 Hx2]. split; [by apply Ht|]. intros p y Hy. by apply (Hx2 p), Hown.
  - intros own Hin. split; try done.
    + intros x. apply Ht.
    + intros p y Hy. left. by apply Hown.
    + intros x Hx _ Hap. rewrite Forall_forall in Hap. apply span_mem_put; [done|done|done|done|]. rewrite Hlen. by apply Hap.
    + intros k e. by apply entry_stays, same_objects.
Qed.

Lemma prepared_data s m r k raw dstptr dst e' : las_inv (sy_las s) → 0 < total_at k →
  prepared sizes (sy_las s) r k raw dstptr dst e' → ref_at (sy_las s) dst.
Proof.
  intros Hinv Ht [P1 P2 P3 -> P5 P6 _ _]. rewrite <- P3 in P6.
  destruct (byte_range_mem (sy_las s) _ _ _ (inv_wf _ Hinv) P6) as [Hb Hm]. split; [done|done|].
  apply Hm; cbn [mr_len en_data]; usize.
Qed.

(** The bytes of the source are copied, and the header stays. *)
Lemma copied_filled las src dst bytes total : 0 < total → mr_len src = total → mr_len dst = total →
  mem las (mr_source src) (mr_off src) (mr_len src) = Some bytes → ref_at las dst →
  spans_apart (ref_span src) (ref_span dst) → copied sizes (put (mr_source dst) (mr_off dst) bytes las) total src dst.
Proof.
  intros Ht Hl1 Hl2 Hbytes [_ Hb Hm] Hap o Ho _. set (las' := put _ _ _ _).
  pose proof (mem_length _ _ _ _ _ Hbytes) as Hlen. rewrite Hl1, <- Hl2 in Hlen. rewrite <- Hlen in Hm.
  assert (mem las' (mr_source src) (mr_off src) (mr_len src) = mem las (mr_source src) (mr_off src) (mr_len src)) as Hkept.
  { apply (span_mem_put las (mr_source dst) (mr_off dst) bytes (ref_span src)); try done; [simpl; lia|lia|]. by rewrite Hlen. }
  assert (mem las' (mr_source dst) (mr_off dst) (mr_len dst) = Some bytes) as Hput by (rewrite <- Hlen; by apply mem_put_same).
  apply mem_part with (n := mr_len dst); [rewrite Hput, Hl2, <- Hl1, Hkept; done|by rewrite Hput|..].
  - apply mem_Some in Hput as (? & _ & Hir & _). apply Hir.
  - apply mem_Some in Hbytes as (? & _ & Hir & _). apply Hir.
  - unfold in_range. lia.
Qed.

Lemma prepared_filled las r k raw dstptr dst bytes e' : ref_at las dst → blen bytes = mr_len dst →
  cell_holds (put (mr_source dst) (mr_off dst) bytes las) (en_home e') 0 →
  prepared sizes las r k raw dstptr dst e' → prepared sizes (put (mr_source dst) (mr_off dst) bytes las) r k raw dstptr dst e'.
Proof.
  intros [_ Hb Hm] Hlen Hh Hpr. rewrite <- Hlen in Hm. apply (prepared_kept sizes las); try done; [by apply las_shape_put|..];
    apply put_kept; try done; right; rewrite (pr_data _ _ _ _ _ _ _ _ Hpr) in *; unfold apart; cbn [fst snd mr_off mr_len en_data] in *;
    rewrite Hlen; pose proof header_packed as P; packed_facts P; unfold en_header; cbn [mr_off]; usize.
Qed.

Lemma allocated_ok s m gs i k address src dstptr dst tx refs : race_inv s m gs → gs !! i = Some (Allocated k address src dstptr dst) →
  sy_txs s !! i = Some (tx, refs) → ∃ o tx' w' m', staged_ok s m gs i (Allocated k address src dstptr dst) tx refs o tx' w' m'.
Proof.
  intros Hri Hg Hi. destruct (stage_running s m gs i _ tx refs Hri Hg Hi) as (r & Hr & (Hk & Haddr & e & e' & Hso & Hpr) & Hrp & Hpl).
  pose proof Hso as [He _ _ Hsrc]. pose proof He as (es & Ho & Hin). pose proof (pr_data _ _ _ _ _ _ _ _ Hpr) as Hdst.
  assert (0 < total_at k) as Ht by apply (rp_objects _ _ _ Hrp k es Ho).
  destruct (entry_readable sizes s m k es e Hrp Ho Hin) as [bytes Hbytes]. rewrite <- Hsrc in Hbytes.
  pose proof (prepared_data s m r k address dstptr dst e' (ar_las _ (rp_arena _ _ _ Hrp)) Ht Hpr) as Href.
  assert (mr_len src = total_at k ∧ mr_len dst = total_at k) as [Hl1 Hl2] by by rewrite Hsrc, Hdst.
  pose proof (mem_length _ _ _ _ _ Hbytes) as Hlen. rewrite Hl1, <- Hl2 in Hlen.
  assert (∀ x, x ∈ made_places dst → unused sizes s m x) as Hmade by (intros x Hx; apply (ri_unused _ _ _ _ Hri i); by rewrite Hpl).
  assert (ref_span dst ∈ made_places dst) as Hd by (right; right; by left).
  destruct (represents_filled s m i tx refs dst bytes Hrp Hi (Hmade _ Hd) Href Hlen) as (Hrp' & Hun & Hmv).
  set (las' := put _ _ _ _) in *. set (s' := step_to s i tx refs (with_las las' (sy_world s))) in *.
  set (gs' := <[i := Copied k address dstptr dst]> gs).
  assert (places_at gs' i = made_places dst) as Hpl' by (unfold places_at, gs'; by rewrite lookup_insert_eq).
  exists (Ok (inl (Copied k address dstptr dst))), tx, (with_las las' (sy_world s)), m. split; [|done|by right|done|].
  { intros fuel _. cbn [advance]. rewrite (bind_ok _ _ _ bytes (tx, sy_world s)) by (by apply on_tx_las_same, las_load_ok).
    rewrite (bind_ok _ _ _ tt (tx, with_las las' (sy_world s))); [done|]. apply on_tx_las_eq. unfold store_memref.
    rewrite Hlen, bool_decide_true by done. rewrite (bind_ok _ _ _ tt (sy_las s)) by done. apply las_store_ok. rewrite Hlen. apply Href. }
  apply (race_inv_step sizes i s m gs s' m gs'); rewrite ?Hpl, ?Hpl'; try done.
  - by apply Hmv.
  - split; [intros j Hne; unfold gs'; by rewrite lookup_insert_ne|]. rewrite Hpl', Hpl. intros x Hx. by left.
  - intros g Hg'. unfold gs' in Hg'. rewrite lookup_insert_eq in Hg'. injection Hg' as <-. exists tx, refs, r.
    split_and!; [apply step_to_this|done|]. split_and!; [done|done|]. exists src, e, e'. split_and!; [done| |].
    + apply prepared_filled; try done. apply (running_home sizes s' m i tx refs r); [done|apply step_to_this|done|apply Hpr].
    + apply copied_filled; try done. destruct (Hmade _ Hd) as [_ Hap]. rewrite Hsrc.
      by apply spans_apart_sym, (Hap _ _ (owns_data sizes s m k e He)).
  - intros x Hx. by apply Hun, Hmade.
Qed.

(** *** The compare-and-swap *)
Lemma owns_handed s m i tx refs d w' p x : owns (step_to s i tx (d :: refs) w') m p x →
  owns (step_to s i tx refs w') m p x ∨ x = ref_span d.
Proof.
  intros Hp. destruct Hp as [| | | | | |j txj refsj r' h d' Hj Hrj Hhj Hd']; [left; by constructor|left..|].
  - by apply owns_version with k.
  - by apply owns_other with k.
  - by apply owns_number with k.
  - by apply owns_running with i0 r.
  - by apply owns_data.
  - apply step_to_lookup in Hj as [(<- & <- & <-)|[Hne Hj]].
    + apply elem_of_cons in Hd' as [->|Hd']; [by right|left]. apply owns_filling with i tx refs r'; try done. apply step_to_this.
    + left. apply owns_filling with j txj refsj r'; try done. simpl. by rewrite lookup_insert_ne.
Qed.

Lemma prepared_chain las r k raw dstptr dst e' e es : prepared sizes las r k raw dstptr dst e' → en_address e = raw →
  version_chain las (total_at k) raw (e :: es) → version_chain las (total_at k) (en_address e') (e' :: e :: es).
Proof.
  intros [P1 _ P3 _ P5 P6 P7 (other & P8 & P9 & P10 & P11)] Ha Hch. rewrite <- P3 in *.
  destruct (byte_pointer (en_address e')) as [E1 E2]; [usize|]. apply (chain_object _ _ _ _ other); try done.
  - unfold UntypedPointer_is_some. rewrite E1. apply bool_decide_true. usize.
  - usize.
  - by rewrite P1.
  - apply (version_chain_from _ _ raw); [done..|congruence].
Qed.

Lemma swung_taken s i tx refs k raw new u y : arena s → sy_txs s !! i = Some (tx, refs) → memory_cell (sy_las s) k →
  cell_holds (sy_las s) k raw → span_taken s y →
  span_taken (step_to s i (swing tx u) refs (with_las (cell_put k new (sy_las s)) (sy_world s))) y.
Proof.
  intros Har Hi Hk Hp. pose proof (poked_cell_put (sy_las s) k raw new Hp (proj2 Hk)) as Hpk.
  apply (arena_step s i tx refs (swing tx u) refs); [done|done|by apply (pk_alloc _ _ Hpk), (ar_alloc _ Har i tx refs)|apply Hpk|].
  intros b off n _ [H1 H2]. split; intros o Hr'; [specialize (H1 o Hr')|specialize (H2 o Hr')];
    unfold owned in *; simpl; rewrite (pk_free _ _ Hpk); tauto.
Qed.

(** The new version is swung in, in front of the one it continues. *)
Lemma swung_in s m i tx refs r k e es raw e' d : represents s m → sy_txs s !! i = Some (tx, refs) →
  mv_running m !! i = Some r → mv_objects m !! k = Some (e :: es) → visible (ru_snapshot r) e = true →
  cell_holds (sy_las s) k raw → prepared sizes (sy_las s) r k raw (en_address e') d e' →
  version_chain (sy_las s) (total_at k) raw (e :: es) → (∀ x, x ∈ made_places d → unused sizes s m x) →
  let s' := step_to s i (swing tx (TransactionWrite_new k raw (en_address e'))) (d :: refs)
              (with_las (cell_put k (en_address e') (sy_las s)) (sy_world s)) in
  let m' := mk_mvstore (mv_counter m) (<[k := e' :: e :: es]> (mv_objects m))
              (<[i := mk_running (ru_snapshot r) (ru_home r) (ru_writes r ++ [k])]> (mv_running m)) in
  mv_step m m' ∧ represents s' m' ∧ moved i (made_places d) s m s' m'.
Proof.
  intros Hrp Hi Hr Ho Hvis Hp Hpr Hch Hmade s' m'. pose proof Hpr as [P1 P2 _ P4 P5 _ _ _].
  assert (is_Some (sizes !! k)) as Hk by (apply (rp_pointers _ _ _ Hrp); eauto).
  assert (en_address e = raw ∧ UntypedPointer_address raw = raw) as [Ha Hraw].
  { destruct (rp_objects _ _ _ Hrp k _ Ho) as [_ _ _ (raw' & Hp' & E & _)]. rewrite <- (version_word_unique _ _ _ _ Hp Hp') in E.
    split; [|done]. inversion Hch; congruence. }
  assert (∀ p x, version_places k (total_at k) e' p x → x ∈ made_places d) as Hin.
  { intros p x Hx. rewrite P4, made_places_entry, !elem_of_cons. destruct Hx as [[_ [->| ->]]|[_ ->]]; auto. }
  destruct (pointer_store sizes s m k raw (en_address e')) as (Hkm & Hpk & _); [done..|usize|].
  destruct (represents_swing sizes s m i tx refs r k e es raw e') as (Hms & Hrp2 & Hown2); try done; [usize|..].
  { by apply (prepared_chain _ r k raw (en_address e') d). }
  { intros p x q y Hx Hy. by apply (Hmade x (Hin p x Hx)) with (p := q). }
  { apply version_places_layout. }
  { intros p x Hx. by apply (Hmade x), (Hin p). }
  pose proof (λ y, swung_taken s i tx refs k raw (en_address e') (TransactionWrite_new k raw (en_address e')) y
    (rp_arena _ _ _ Hrp) Hi Hkm Hp) as Htk.
  set (w' := with_las _ _) in *. set (s2 := step_to s i (swing tx _) refs w') in *. split; [done|].
  assert (ref_span d ∈ made_places d) as Hd by (right; right; by left).
  assert (ref_at (sy_las s) d) as Href.
  { apply (prepared_data s m r k raw (en_address e') d e'); [apply (ar_las _ (rp_arena _ _ _ Hrp))| |done].
    apply (rp_objects _ _ _ Hrp k _ Ho). }
  assert (represents s' m') as Hrp3.
  { unfold s'. rewrite <- (step_to_twice s i (swing tx (TransactionWrite_new k raw (en_address e'))) refs w').
    apply (represents_fill sizes s2 m' i _ refs (mk_running (ru_snapshot r) (ru_home r) (ru_writes r ++ [k])) (en_home e')); try done.
    - apply step_to_this.
    - apply lookup_insert_eq.
    - by apply (ref_at_shape (sy_las s)); [apply Hpk|].
    - apply Htk, (Hmade _ Hd).
    - intros q y Hy. destruct (Hown2 q y Hy) as [Hy'|[[-> ->]|[[-> Hy']|[-> ->]]]].
      + apply separate_apart. by apply (Hmade _ Hd) with (p := q).
      + apply (Hmade _ Hd) with (p := ForRunning (en_home e')). by apply (owns_running sizes s m i r).
      + rewrite P4. apply (version_places_layout k (total_at k) e' (ForData (en_home e') k) ForHeader); [by right|by left].
      + left. by rewrite P4. }
  split; [done|]. split.
  - apply Hpk.
  - intros x Hx o Ho'. unfold s'. rewrite <- (step_to_twice s i (swing tx (TransactionWrite_new k raw (en_address e'))) refs w'). apply (step_refs_taken s2 i (swing tx (TransactionWrite_new k raw (en_address e'))) refs (d :: refs) (sp_base x) (sp_off x) (sp_len x)); [|by apply Htk|done].
    apply step_to_this.
  - intros p y Hy. apply owns_handed in Hy as [Hy| ->]; [|by right; right; right].
    destruct (Hown2 p y Hy) as [Hy'|[[-> ->]|Hy']]; [by left| |right; right; right; by apply (Hin p)].
    right. right. left. exists (en_home e'). split; [done|]. by apply (owns_running sizes s m i r).
  - intros x Hx [_ Hap] _. apply span_mem_cell_put with raw; try done. apply (Hap (ForPointer k)); [done|]. by apply owns_pointer.
  - intros k' e0. apply entry_stays. intros k'' es' Hk'. simpl. destruct (decide (k = k'')) as [->|]; [|exists []; by rewrite lookup_insert_ne].
    exists [e']. rewrite lookup_insert_eq. rewrite Ho in Hk'. by injection Hk' as <-.
  - intros j Hne. split; [by apply step_to_others|]. simpl. by rewrite lookup_insert_ne.
Qed.

(** What the compare-and-swap of a [write] finds: the version that was
    continued is still the newest, or the pointer has changed. *)
Lemma copied_cases s m gs i k address dstptr dst tx refs : race_inv s m gs → gs !! i = Some (Copied k address dstptr dst) →
  sy_txs s !! i = Some (tx, refs) → ∃ r raw e es src e', mv_running m !! i = Some r ∧ mv_objects m !! k = Some (e :: es) ∧
    cell_holds (sy_las s) k raw ∧ version_chain (sy_las s) (total_at k) raw (e :: es) ∧
    prepared sizes (sy_las s) r k address dstptr dst e' ∧
    (∀ x, x ∈ made_places dst → unused sizes s m x) ∧
    (raw = address → sourced sizes m r k raw src e ∧ copied sizes (sy_las s) (total_at k) src dst).
Proof.
  intros Hri Hg Hi. destruct (stage_running s m gs i _ tx refs Hri Hg Hi)
    as (r & Hr & (Hk & Haddr & src & e & e' & Hso & Hpr & Hcp) & Hrp & Hpl).
  pose proof Hso as [He _ Ha _]. pose proof He as (es0 & Ho & _).
  destruct (rp_objects _ _ _ Hrp k es0 Ho) as [_ _ Hne (raw & Hp & Hraw & Hch)]. destruct es0 as [|e2 es]; [done|].
  exists r, raw, e2, es, src, e'. split_and!; try done.
  - intros x Hx. apply (ri_unused _ _ _ _ Hri i). by rewrite Hpl.
  - intros ->. assert (e2 = e) as ->; [|done].
    apply (head_at_unique (sy_las s) (total_at k) address); [|by apply (chain_head _ _ _ _ es)].
    rewrite <- Ha. by apply (entry_head sizes s m).
Qed.

Lemma copied_ok s m gs i k address dstptr dst tx refs : race_inv s m gs → gs !! i = Some (Copied k address dstptr dst) →
  sy_txs s !! i = Some (tx, refs) → ∃ o tx' w' m', staged_ok s m gs i (Copied k address dstptr dst) tx refs o tx' w' m'.
Proof.
  intros Hri Hg Hi. pose proof (ri_represents _ _ _ _ Hri) as Hrp.
  destruct (copied_cases s m gs i k address dstptr dst tx refs Hri Hg Hi) as (r & raw & e & es & src & e' & Hr & Ho & Hp & Hch & Hpr & Hmade & Hsame).
  pose proof (on_perform_eq tx (sy_world s) k address dstptr raw Hp) as Hcas. destruct (decide (raw = address)) as [->|Hne].
  - destruct (Hsame eq_refl) as [[_ Hvis _ _] _]. pose proof (pr_address _ _ _ _ _ _ _ _ Hpr) as <-.
    destruct (swung_in s m i tx refs r k e es address e' dst) as (Hms & Hrp' & Hmv); try done.
    eexists (Ok (inr (Wrote dst))), _, _, _. split; [|done|by left|by exists e', (e :: es); split_and!; [..|apply Hpr|done|apply Hpr]|].
    + intros fuel _. cbn [advance]. step Hcas. reflexivity.
    + apply (race_inv_idle sizes i s m gs); try done. unfold places_at. by rewrite Hg.
  - exists (Err TxAborted), tx, (sy_world s), m. split; [|by eexists|by right|done|by apply (race_inv_failed s m gs i (Copied k address dstptr dst))].
    intros fuel _. cbn [advance]. by step Hcas.
Qed.

(** *** The stages of [alloc] *)
Lemma making_ok s m gs i size tx refs : race_inv s m gs → gs !! i = Some (Making size) →
  sy_txs s !! i = Some (tx, refs) → ∃ o tx' w' m', staged_ok s m gs i (Making size) tx refs o tx' w' m'.
Proof.
  intros Hri Hg Hi. destruct (stage_running s m gs i _ tx refs Hri Hg Hi) as (r & Hr & Hsize & Hrp & Hpl).
  destruct (version_stage s m i tx refs r Hrp Hi Hr) as (res & tx' & w' & m' & r' & Heq & Hms & Hrp' & Hmv & Hr' & Hobj & Hres).
  destruct res as [v|f].
  - exists (Ok (inl (Made size v))), tx', w', m'. split; [intros fuel _; cbn [advance]; by step Heq|done|done|done|].
    apply (race_inv_stage sizes i s m gs _ m' _ tx' refs r'); try done; [by rewrite Hpl|apply step_to_this].
  - exists (Fail f), tx', w', m'. split; [intros fuel _; cbn [advance]; by step Heq|by apply out_of_memory_returns|done|done|].
    apply (race_inv_idle sizes i s m gs); try done. by rewrite Hpl.
Qed.

Lemma made_ok s m gs i size v tx refs : race_inv s m gs → gs !! i = Some (Made size v) →
  sy_txs s !! i = Some (tx, refs) → ∃ o tx' w' m', staged_ok s m gs i (Made size v) tx refs o tx' w' m'.
Proof.
  intros Hri Hg Hi. destruct (stage_running s m gs i _ tx refs Hri Hg Hi) as (r & Hr & ((total & Hsize & Ht & Halt) & Hv) & Hrp & Hpl).
  destruct (object_made s m i tx refs r v size total 0 []) as (res & tx' & w' & Heq & Hrp' & Hmv & Hv' & Hres); try done;
    [by apply chain_none|].
  destruct res as [[ptr d]|f].
  2:{ exists (Fail f), tx', w', m. split; [|by apply out_of_memory_returns|by right|done|].
      - intros fuel _. cbn [advance]. unfold TransactionalObjectAllocator_alloc_new, UntypedPointer_new_none. by step Heq.
      - apply (race_inv_idle sizes i s m gs); try done. by rewrite Hpl. }
  destruct Hres as (e' & -> & Hdst & _ & Hh & _ & _ & Href & Hx).
  destruct (Hx (ref_span d)) as [Hfr Htk]; [right; right; by left|]. set (s1 := step_to s i tx' refs w') in *.
  assert (∀ p x, owns s1 m p x → spans_apart (ref_span d) x) as Hap.
  { intros p x Hp. apply spans_apart_sym, Hfr, (rp_taken _ _ _ Hrp p). apply (owns_from sizes s s1); [|done]. by apply (fillings_step s i tx refs). }
  exists (Ok (inr (Gave (en_address e') d))), tx', w', m. split; [|done|by right|done|].
  { intros fuel _. cbn [advance]. unfold TransactionalObjectAllocator_alloc_new, UntypedPointer_new_none. by step Heq. }
  cbn [given ending_ref staged]. rewrite <- (step_to_twice s i tx' refs w').
  apply (race_inv_idle sizes i s m gs); [done| | |done].
  - apply (represents_fill sizes s1 m i tx' refs r (en_home e')); try done; [apply step_to_this|].
    intros p x Hp. by apply separate_apart, (Hap p).
  - rewrite Hpl. destruct Hmv as [M1 M2 M3 M4 M5 M6]. split; try done.
    + intros x Hx' o Ho. apply (step_refs_taken s1 i tx' refs (d :: refs) (sp_base x) (sp_off x) (sp_len x)); [apply step_to_this|by apply M2|done].
    + intros p y Hp. rewrite step_to_twice in Hp. apply owns_handed in Hp as [Hp| ->]; [by apply M3|by right; left].
    + intros j Hne. rewrite step_to_twice. split; [by apply step_to_others|done].
Qed.
End Stepwise.
