(* ===== verification/Linear.v ===== *)
(** * Writers side by side

    Any interleaving of the stages of [write] and [alloc] with each other and
    with the other calls: the heap goes on standing for a multi-version store,
    every call is over after a bounded number of its own stages, and a [write]
    succeeds only in front of the version it has read. *)
From S2P Require Import Prelude Utils Source SourceAllocator Slices Las Memory Pointer Vos.
From S2P Require Import Allocators Versions Objects Tx Transactions Heap Runs Snapshot Arena Simulation Calls Isolation Clients.
From S2P Require Import Stages Moves Races Stepwise.

(** The stages a call has left, at most. *)
Definition stages_left (g : stage) : nat :=
  match g with
  | Cloned _ _ _ => 5
  | Versioned _ _ _ _ => 4
  | Viewed _ _ _ _ _ _ => 3
  | Allocated _ _ _ _ _ => 2
  | Copied _ _ _ _ => 1
  | Making _ => 2
  | Made _ _ => 1
  end.

Section Linear.
Context `{T : Target} `{TOk : !TargetOk T} `{C : Crc} {D : Type} `{Src : !Source D} `{Laws : !SourceLaws D}.
Context (sizes : gmap cell ObjectSize).
Abbreviation represents := (represents sizes).
Abbreviation owns := (owns sizes).
Abbreviation total_at := (total_at sizes).
Abbreviation race_inv := (race_inv sizes).
Abbreviation race_step := (race_step sizes).
Implicit Types (w : World D) (tx : Transaction) (s : system D) (refs : list memref).
Implicit Types (m : mvstore cell) (r : running cell) (e : entry) (es : list entry) (k : cell).
Implicit Types (gs : gmap nat stage) (g : stage) (x : race D).

Lemma advance_ok s m gs i g tx refs : race_inv s m gs → gs !! i = Some g → sy_txs s !! i = Some (tx, refs) →
  ∃ o tx' w' m', staged_ok sizes s m gs i g tx refs o tx' w' m'.
Proof.
  intros Hri Hg Hi. destruct g.
  - by apply cloned_ok.
  - by apply versioned_ok.
  - by apply viewed_ok.
  - by apply allocated_ok.
  - by apply copied_ok.
  - by apply making_ok.
  - by apply made_ok.
Qed.

(** *** Whole calls *)
Lemma race_inv_whole s m gs i s' m' : race_inv s m gs → gs !! i = None → represents s' m' →
  moved sizes i [] s m s' m' → race_inv s' m' gs.
Proof.
  intros Hri Hg Hrp' Hmv. apply (race_inv_idle sizes i s m gs); [done|done| |by rewrite delete_id].
  unfold places_at. by rewrite Hg.
Qed.

Lemma moved_reading s m i tx refs k : represents s m → sy_txs s !! i = Some (tx, refs) →
  moved sizes i [] s m (step_to s i (reading tx k) refs (sy_world s)) m.
Proof.
  intros Hrp Hi. split; try done.
  - intros y Hy. apply (arena_step s i tx refs (reading tx k) refs (sy_world s)); [apply Hrp|done|..|done|done|done].
    by apply (ar_alloc _ (rp_arena _ _ _ Hrp) i tx refs).
  - intros p y Hp. left. apply (owns_from sizes s (step_to s i (reading tx k) refs (sy_world s))); [|done]. by apply (fillings_step s i tx refs).
  - intros k' e. by apply entry_stays, same_objects.
  - intros j Hne. split; [by apply step_to_others|done].
Qed.

Lemma whole_step_inv s m gs i s' : race_inv s m gs → gs !! i = None → whole_step sizes i s s' →
  ∃ m', (mv_step m m' ∨ m' = m) ∧ race_inv s' m' gs.
Proof.
  intros Hri Hg Hst. pose proof (ri_represents _ _ _ _ Hri) as Hrp.
  destruct Hst as [s root tx w' Hi Hnew|s tx refs k size result tx' w' Hi Hk Hev|s tx refs k size result tx' w' Hi Hk Hev|
    s tx refs d off bytes las' Hi Hd Hoff Hle Heq|s tx refs result tx' w' Hi Hlt Heq|s tx refs result tx' w' Hi Heq];
    try (destruct (represents_running sizes s m i tx refs Hrp Hi) as (r & Hr & _)).
  - injection Hnew as <- <-. destruct (represents_begin sizes s m i root Hrp Hi) as [Hms Hrp'].
    eexists. split; [left; exact Hms|]. apply (race_inv_whole s m gs i); try done. apply moved_begin; [done| |apply Hrp].
    apply eq_None_not_Some. rewrite (rp_running _ _ _ Hrp), Hi. by intros [].
  - destruct (object_of sizes s m k size Hrp Hk) as [es Ho].
    pose proof (eventually_unique _ _ _ Hev (eventually_above _ _ _ (system_read sizes s m i tx refs r k size es Hrp Hi Hr Hk Ho))) as E.
    injection E as -> -> ->. rewrite step_to_same by done. exists m. split; [by right|done].
  - destruct (object_of sizes s m k size Hrp Hk) as [es Ho].
    destruct (system_read_for_write sizes s m i tx refs r k size es Hrp Hi Hr Hk Ho) as [Heq Hrp'].
    pose proof (eventually_unique _ _ _ Hev (eventually_above _ _ _ Heq)) as E. injection E as -> -> ->.
    exists m. split; [by right|]. apply (race_inv_whole s m gs i); try done. by apply moved_reading.
  - assert (filling s i d) as Hf by (by exists tx, refs).
    destruct (represents_store sizes s m i d off bytes Hrp Hf Hoff Hle) as [Heq' Hrp']. rewrite Heq in Heq'. injection Heq' as ->.
    exists m. split; [by right|]. apply (race_inv_whole s m gs i); try done. by apply moved_store.
  - destruct (moved_commit sizes s m i tx refs r Hrp Hi Hr Hlt) as (res & w1 & m1 & Heq' & Hms & Hrp' & Hmv).
    rewrite Heq in Heq'. injection Heq' as -> -> ->. exists m1. split; [by left|]. by apply (race_inv_whole s m gs i).
  - destruct (moved_abort sizes s m i tx refs r Hrp Hi Hr) as (w1 & m1 & Heq' & Hms & Hrp' & Hmv).
    rewrite Heq in Heq'. injection Heq' as -> -> ->. exists m1. split; [by left|]. by apply (race_inv_whole s m gs i).
Qed.

(** *** The begin of a call *)
Lemma begin_write_ok s m gs i tx refs k size : race_inv s m gs → gs !! i = None → sy_txs s !! i = Some (tx, refs) →
  sizes !! k = Some size → ∃ g, begin_write k size (tx, sy_world s) = (Ok g, (tx, sy_world s)) ∧
    race_inv (step_to s i tx refs (sy_world s)) m (<[i := g]> gs) ∧ stages_left g = 5%nat.
Proof.
  intros Hri Hg Hi Hk. pose proof (ri_represents _ _ _ _ Hri) as Hrp.
  destruct (represents_running sizes s m i tx refs Hrp Hi) as (r & Hr & _).
  destruct (object_of sizes s m k size Hrp Hk) as [es Ho].
  destruct (rp_objects _ _ _ Hrp k es Ho) as [_ _ Hne (raw & Hp & Hraw & Hch)]. destruct es as [|e es]; [done|].
  exists (Cloned k size raw). split_and!; [|rewrite step_to_same by done|done].
  - unfold begin_write, UntypedPointer_clone. by rewrite (bind_ok _ _ _ raw (tx, sy_world s)) by (by apply on_tx_las_same, cell_load_ok).
  - apply (race_inv_stage sizes i s m gs s m _ tx refs r); try done.
    + unfold places_at. rewrite Hg. apply moved_refl.
    + split; [done|]. split; [done|]. exists e. split; [|by left; exists (e :: es); split; [|left]].
      apply chain_head in Hch as [_ _ Ha _ _ _]. congruence.
Qed.

Lemma making_begun s m gs i tx refs size total : race_inv s m gs → gs !! i = None → sy_txs s !! i = Some (tx, refs) →
  ObjectSize_total size = Ok total → 0 < total → aligned 8 total → race_inv s m (<[i := Making size]> gs).
Proof.
  intros Hri Hg Hi Hs Ht Hal. pose proof (ri_represents _ _ _ _ Hri) as Hrp.
  destruct (represents_running sizes s m i tx refs Hrp Hi) as (r & Hr & _).
  apply (race_inv_stage sizes i s m gs s m _ tx refs r); try done; [|by exists total].
  unfold places_at. rewrite Hg. apply moved_refl.
Qed.

Lemma race_step_inv x x' m : race_inv (rc_system x) m (rc_stages x) → race_step x x' →
  ∃ m', (mv_step m m' ∨ m' = m) ∧ race_inv (rc_system x') m' (rc_stages x').
Proof.
  intros Hri Hst. destruct Hst as [i s s' gs Hg Hst|i s gs tx refs k size g tx' w' Hg Hi Hk Heq|i s gs tx refs size total Hg Hi Hs Ht Hal|
    i s gs tx refs g o tx' w' Hg Hi Hev]; cbn [rc_system rc_stages] in *.
  - by apply (whole_step_inv s m gs i).
  - destruct (begin_write_ok s m gs i tx refs k size) as (g' & Heq' & Hri' & _); [done..|].
    rewrite Heq in Heq'. injection Heq' as -> -> ->. exists m. split; [by right|done].
  - exists m. split; [by right|]. by apply (making_begun s m gs i tx refs size total).
  - destruct (advance_ok s m gs i g tx refs) as (o' & tx1 & w1 & m1 & [Heq _ Hms _ Hri']); [done..|].
    pose proof (eventually_unique _ _ _ Hev (eventually_above _ _ 0 Heq)) as E. injection E as -> -> ->. by exists m1.
Qed.

Lemma race_steps_inv x x' : rtc race_step x x' → ∀ m, race_inv (rc_system x) m (rc_stages x) →
  ∃ m', rtc mv_step m m' ∧ race_inv (rc_system x') m' (rc_stages x').
Proof.
  induction 1 as [x|x x1 x2 Hst _ IH]; intros m Hri; [by exists m|].
  destruct (race_step_inv x x1 m Hri Hst) as (m1 & Hms & Hri1). destruct (IH m1 Hri1) as (m2 & Hms2 & Hri2).
  exists m2. split; [|done]. destruct Hms as [Hms| ->]; [by eapply rtc_l|done].
Qed.

Lemma race_inv_start s m : represents s m → race_inv s m ∅.
Proof. intros Hrp. split; [done|done|by intros i x ?%elem_of_nil|by intros i j x y _ ?%elem_of_nil]. Qed.

(** A turn of the transaction [i] that writes the object at [k]. *)
Definition race_turn (k : cell) (size : ObjectSize) (i : nat) x : option (race D) :=
  match sy_txs (rc_system x) !! i with
  | None => None
  | Some (tx, refs) =>
      match rc_stages x !! i with
      | None =>
          match begin_write k size (tx, sy_world (rc_system x)) with
          | (Ok g, (tx', w')) => Some (mk_race (step_to (rc_system x) i tx' refs w') (<[i := g]> (rc_stages x)))
          | _ => None
          end
      | Some g =>
          let '(o, (tx', w')) := advance 1 g (tx, sy_world (rc_system x)) in
          Some (mk_race (step_to (rc_system x) i tx' (given o refs) w') (staged i o (rc_stages x)))
      end
  end.

Fixpoint race_turns (k : cell) (size : ObjectSize) (turns : list nat) x : option (race D) :=
  match turns with [] => Some x | i :: turns => x' ← race_turn k size i x; race_turns k size turns x' end.

Lemma race_turn_step k size i x x' m : race_inv (rc_system x) m (rc_stages x) → sizes !! k = Some size →
  race_turn k size i x = Some x' → race_step x x'.
Proof.
  intros Hri Hk. destruct x as [s gs]. unfold race_turn. cbn [rc_system rc_stages] in *.
  destruct (sy_txs s !! i) as [[tx refs]|] eqn:Hi; [|done]. destruct (gs !! i) as [g|] eqn:Hg.
  - destruct (advance_ok s m gs i g tx refs) as (o & tx' & w' & m' & [Heq _ _ _ _]); [done..|].
    pose proof (eventually_above _ _ 0 Heq) as Hev. rewrite (Heq 1%nat) by lia. intros [= <-]. by apply (rs_advance sizes i s gs tx refs g o).
  - destruct (begin_write k size (tx, sy_world s)) as [[g|] [tx' w']] eqn:Heq; [|done]. intros [= <-].
    by apply (rs_write sizes i s gs tx refs k size g).
Qed.

Lemma race_turns_steps k size turns x x' : sizes !! k = Some size → ∀ m, race_inv (rc_system x) m (rc_stages x) →
  race_turns k size turns x = Some x' → rtc race_step x x'.
Proof.
  intros Hk. revert x. induction turns as [|i turns IH]; intros x m Hri; simpl; [by intros [= ->]|].
  destruct (race_turn k size i x) as [x1|] eqn:Ht; [|done]. intros Hts. apply (race_turn_step k size i x x1 m Hri Hk) in Ht.
  destruct (race_step_inv x x1 m Hri Ht) as (m1 & _ & Hri1). by eapply rtc_l; [|by apply (IH x1 m1)].
Qed.

(** The bytes of the new version stay when it is swung in. *)
Lemma copied_swung s m k raw new total src dst : represents s m → is_Some (sizes !! k) → cell_holds (sy_las s) k raw →
  memory_cell (sy_las s) k → mr_len dst = total → unused sizes s m (ref_span dst) → copied sizes (sy_las s) total src dst → ∀ o,
  0 ≤ o < total → plain sizes (mr_source src) (mr_off src + o) →
  mem (cell_put k new (sy_las s)) (mr_source dst) (mr_off dst + o) 1 = mem (sy_las s) (mr_source src) (mr_off src + o) 1.
Proof.
  intros Hrp Hk Hp Hm Hl [_ Hu] Hc o Ho Hpl. rewrite <- (Hc o Ho Hpl).
  apply (span_mem_cell_put (sy_las s) k raw new (mk_span (mr_source dst) (mr_off dst + o) 1)); try done.
  apply (spans_apart_part (ref_span dst)); simpl; [done|lia|lia|]. apply (Hu (ForPointer k)). by apply owns_pointer.
Qed.

(** A stage that comes to [o]: what it is in the store. *)
Lemma race_advance_inv s m gs i g tx refs o tx' w' : race_inv s m gs → gs !! i = Some g → sy_txs s !! i = Some (tx, refs) →
  eventually (λ fuel, advance fuel g (tx, sy_world s)) (o, (tx', w')) →
  ∃ m', (mv_step m m' ∨ m' = m) ∧ stage_effect sizes g o m m' ∧ race_inv (step_to s i tx' (given o refs) w') m' (staged i o gs).
Proof.
  intros Hri Hg Hi Hev. destruct (advance_ok s m gs i g tx refs Hri Hg Hi) as (o' & tx1 & w1 & m1 & [Heq _ Hms Heff Hri']).
  pose proof (eventually_unique _ _ _ Hev (eventually_above _ _ 0 Heq)) as E. injection E as -> -> ->. by exists m1.
Qed.

(** C2: refinement under races: with [write] and [alloc] interrupted between any
    two of their stages, by calls of the other transactions and by stages of
    theirs, all through the pointers in [sizes], there is a relation between
    the states of the race and the multi-version stores that holds all along:
    the heap stands for the store, each step of the race is at most one step
    of it, and a stage changes the objects of the store only if it is the
    compare-and-swap of a [write] and succeeds, which puts the new version of
    the object in front of the others. *)
Theorem races_refine_store s m : represents s m → ∃ refines : race D → mvstore cell → Prop,
  refines (mk_race s ∅) m ∧
  (∀ x, rtc race_step (mk_race s ∅) x → ∃ m', rtc mv_step m m' ∧ refines x m') ∧
  ∀ x m1, refines x m1 → represents (rc_system x) m1 ∧ mv_inv m1 ∧
    (∀ x', race_step x x' → ∃ m2, (mv_step m1 m2 ∨ m2 = m1) ∧ refines x' m2) ∧
    ∀ i g tx refs o tx' w', rc_stages x !! i = Some g → sy_txs (rc_system x) !! i = Some (tx, refs) →
      eventually (λ fuel, advance fuel g (tx, sy_world (rc_system x))) (o, (tx', w')) →
      ∃ m2, (mv_step m1 m2 ∨ m2 = m1) ∧
        refines (mk_race (step_to (rc_system x) i tx' (given o refs) w') (staged i o (rc_stages x))) m2 ∧
        match g, o with
        | Copied k _ dstptr dst, Ok _ => ∃ e' es, mv_objects m1 !! k = Some es ∧
            mv_objects m2 = <[k := e' :: es]> (mv_objects m1) ∧ en_version e' = 0 ∧
            en_address e' = dstptr ∧ dst = en_data (total_at k) e'
        | _, _ => mv_objects m2 = mv_objects m1
        end.
Proof.
  intros Hrp. exists (λ x m1, race_inv (rc_system x) m1 (rc_stages x)). split_and!.
  - by apply race_inv_start.
  - intros x Hst. by apply (race_steps_inv _ _ Hst m (race_inv_start s m Hrp)).
  - intros x m1 Hri. split_and!; [apply Hri|apply Hri|by intros x'; apply race_step_inv|].
    intros i g tx refs o tx' w' Hg Hi Hev.
    destruct (race_advance_inv _ _ _ _ _ _ _ _ _ _ Hri Hg Hi Hev) as (m2 & Hms & Heff & Hri2). by exists m2.
Qed.


(** C8: no lost update under races, through the pointers in [sizes], a fixed set
    with one pointer for each object: when a [write] comes to its
    compare-and-swap, after any interleaving, it fails with [TxAborted] and
    changes nothing if the pointer has changed since it was cloned; otherwise
    it succeeds, nobody else is writing the object, and it continues with the
    bytes (but for the pointers among them) of the version that its own
    transaction reads and every new one would read; transactions with older
    snapshots go on reading older versions. *)
Theorem race_loses_no_update s m x i tx refs k size address dstptr dst root : represents s m → rtc race_step (mk_race s ∅) x →
  rc_stages x !! i = Some (Copied k address dstptr dst) → sy_txs (rc_system x) !! i = Some (tx, refs) → sizes !! k = Some size →
  let w := sy_world (rc_system x) in
  ∃ raw, cell_load k (w_las w) = (Ok raw, w_las w) ∧
    (raw ≠ address ∧ advance 0 (Copied k address dstptr dst) (tx, w) = (Err TxAborted, (tx, w)) ∨
     raw = address ∧ ∃ tx' w' old, advance 0 (Copied k address dstptr dst) (tx, w) = (Ok (inr (Wrote dst)), (tx', w')) ∧
       eventually (λ fuel, (Transaction_read fuel k size (tx, w)).1) (Ok old) ∧ eventually (new_read root w k size) (Ok old) ∧
       (∀ j txj refsj u, sy_txs (rc_system x) !! j = Some (txj, refsj) → u ∈ tx_writeset txj → tw_dst u ≠ k) ∧
       ∀ o, 0 ≤ o < mr_len old → plain sizes (mr_source old) (mr_off old + o) →
         mem (w_las w') (mr_source dst) (mr_off dst + o) 1 = mem (w_las w) (mr_source old) (mr_off old + o) 1).
Proof.
  intros Hrp0 Hst Hg Hi Hk w. destruct (race_steps_inv _ _ Hst m (race_inv_start s m Hrp0)) as (m' & _ & Hri).
  set (sx := rc_system x) in *. pose proof (ri_represents _ _ _ _ Hri) as Hrp. pose proof (rp_inv _ _ _ Hrp) as Hinv.
  destruct (copied_cases sizes sx m' _ i k address dstptr dst tx refs Hri Hg Hi)
    as (r & raw & e & es & src & e' & Hr & Ho & Hp & Hch & Hpr & Hmade & Hsame).
  exists raw. split; [by apply cell_load_ok|]. pose proof (on_perform_eq tx w k address dstptr raw Hp) as Hcas.
  destruct (decide (raw = address)) as [->|Hne]; [right|left; split; [done|]; cbn [advance]; by step Hcas].
  split; [done|]. destruct (Hsame eq_refl) as [[_ Hvis Ha Hsrc] Hcp].
  assert (src = en_data (total_at k) e) as -> by done. set (old := en_data (total_at k) e) in *.
  eexists _, _, old. split; [cbn [advance]; step Hcas; reflexivity|].
  pose proof (eventually_map fst _ _ (eventually_above _ _ _ (system_read sizes sx m' i tx refs r k size _ Hrp Hi Hr Hk Ho))) as Hread.
  pose proof (new_read_eventually sizes sx m' root k size _ Hrp Hk Ho) as Hnew.
  assert (visible (mv_counter m') e = true) as Hvis'.
  { apply visible_true in Hvis. apply visible_true. pose proof (mi_snapshot _ Hinv i r Hr). lia. }
  cbn [fst snapshot_read] in Hread, Hnew. rewrite Hvis in Hread. rewrite Hvis' in Hnew. split_and!; [done|done|..].
  - intros j txj refsj u Hj Hu <-. destruct (represents_running sizes sx m' j txj refsj Hrp Hj) as (rj & Hrj & Htaj).
    apply (visible_unwritten m' j rj (tw_dst u) e es (ru_snapshot r) Hinv Hrj); try done.
    rewrite (ta_writes _ _ _ _ _ _ Htaj). apply list_elem_of_fmap. by exists u.
  - intros o Hor Hpl. apply (copied_swung sx m' k address dstptr (total_at k) old dst); try done; [| |].
    + apply (ob_memory _ _ _ _ (rp_objects _ _ _ Hrp k _ Ho)).
    + by rewrite (pr_data _ _ _ _ _ _ _ _ Hpr).
    + apply Hmade. right. right. by left.
Qed.
End Linear.
