(* ===== verification/Switcharoo.v ===== *)
(** * The test [switcharoo]

    Ten objects that a root object points to, each with a boolean; threads that
    each set all of them to a value of their own (test [switcharoo] of
    librarius.rs).  For any number of threads and any schedule: once a thread
    has succeeded, whoever counts the objects that are set finds all or none,
    even while other threads are at work. *)
From S2P Require Import Prelude Utils Source SourceAllocator Slices Las Memory Pointer Vos.
From S2P Require Import Allocators Versions Objects Tx Transactions Heap Runs Snapshot Arena Simulation Calls Isolation Clients.
From S2P Require Import Values Views Showing Threads.

(** ** The test *)
Definition NTUPLES : nat := 10.

(** [Tuple], a [bool], and [Root], an array of pointers. *)
Definition tuple_size : ObjectSize := ObjectSize_new_with_usize 0 1.
Definition tuples_size : ObjectSize := ObjectSize_new_with_usize (Z.of_nat NTUPLES * size_of_usize) 0.

(** The casts of [write_typed] and [read_typed]. *)
Definition as_Tuple `{T : Target} {R} : memref → (memref → client R) → client R := cast 1 1.
Definition as_Root `{T : Target} {R} : memref → (memref → client R) → client R := cast (Z.of_nat NTUPLES * size_of_usize) 8.

Definition tuple_byte (value : bool) : byte := if value then Byte.x01 else Byte.x00.
(** The bytes as a [bool]; there are no others than these two. *)
Definition tuple_value (bytes : list byte) : option bool :=
  match bytes with
  | [b] => if decide (b = Byte.x01) then Some true else if decide (b = Byte.x00) then Some false else None
  | _ => None
  end.

Definition Root_new : list byte := replicate NTUPLES (u64_bytes UntypedPointer_new_none) ≫= id.

Definition switcharoo_builder `{T : Target} {D : Type} `{Src : !Source D} (source : D) : LibrariusBuilder D :=
  LibrariusBuilder_source source
    (LibrariusBuilder_create_with tuples_size (λ data, on_world_las (
      rootp ← lift (any_from_slice_mut (Z.of_nat NTUPLES * size_of_usize) 8 data);
      las_store (mr_source rootp) (mr_off rootp) Root_new)) LibrariusBuilder_new).

(** [&rootp.arr[n]] *)
Definition arr_offset (n : nat) : Z := Z.of_nat n * size_of_usize.
Definition arr (rootp : memref) (n : nat) : cell := memref_cell rootp (arr_offset n).

(** The first closure: ten new objects, every other of them set. *)
Fixpoint alloc_tuples `{T : Target} (rootp : memref) (ns : list nat) : client unit :=
  match ns with
  | [] => Done (inl tt)
  | n :: ns =>
      Allocating tuple_size (λ o, match o with
        | inl (raw, d) =>
            as_Tuple d (λ d, Storing d 0 [tuple_byte (Nat.even n)]
              (Storing rootp (arr_offset n) (u64_bytes raw) (alloc_tuples rootp ns)))
        | inr error => Done (inr error)
        end)
  end.
Definition switch_setup `{T : Target} (root : cell) : client unit :=
  Writing root tuples_size (λ o, match o with
    | inl rootp => as_Root rootp (λ rootp, alloc_tuples rootp (seq 0 NTUPLES))
    | inr error => Done (inr error)
    end).

(** The closure of the threads. *)
Definition switch_value (t : memref) (desired : bool) (next : client unit) : client unit :=
  Loading t 0 1 (λ bytes, match tuple_value bytes with
    | Some value => if decide (value = desired) then next else Storing t 0 [tuple_byte desired] next
    | None => Crashing Undef
    end).
Fixpoint switch_tuples `{T : Target} (rootp : memref) (desired : bool) (ns : list nat) : client unit :=
  match ns with
  | [] => Done (inl tt)
  | n :: ns =>
      Writing (arr rootp n) tuple_size (λ o, match o with
        | inl t => as_Tuple t (λ t, switch_value t desired (switch_tuples rootp desired ns))
        | inr error => Done (inr error)
        end)
  end.
Definition switch_all `{T : Target} (root : cell) (i : nat) : client unit :=
  Reading root tuples_size (λ o, match o with
    | inl rootp => as_Root rootp (λ rootp, switch_tuples rootp (Nat.even i) (seq 0 NTUPLES))
    | inr error => Done (inr error)
    end).

(** The closure at the end, which counts the objects that are set. *)
Fixpoint count_tuples `{T : Target} (rootp : memref) (true_count : Z) (ns : list nat) : client Z :=
  match ns with
  | [] => Done (inl true_count)
  | n :: ns =>
      Reading (arr rootp n) tuple_size (λ o, match o with
        | inl t => as_Tuple t (λ t, Loading t 0 1 (λ bytes, match tuple_value bytes with
            | Some value => count_tuples rootp (true_count + Z.b2z value) ns
            | None => Crashing Undef
            end))
        | inr error => Done (inr error)
        end)
  end.
Definition count_all `{T : Target} (root : cell) : client Z :=
  Reading root tuples_size (λ o, match o with
    | inl rootp => as_Root rootp (λ rootp, count_tuples rootp 0 (seq 0 NTUPLES))
    | inr error => Done (inr error)
    end).

Lemma tuple_value_byte v : tuple_value [tuple_byte v] = Some v.
Proof. by destruct v. Qed.

Lemma arr_inj rootp n n' : arr rootp n = arr rootp n' → n = n'.
Proof. unfold arr, memref_cell, arr_offset, size_of_usize. intros [= E]. lia. Qed.

Section Switcharoo.
Context `{T : Target} `{TOk : !TargetOk T} `{C : Crc} {D : Type} `{Src : !Source D} `{Laws : !SourceLaws D}.
Context (sizes : gmap cell ObjectSize) (root : cell) (rootp : memref).
(** The root object, where it is found, and the objects it points to. *)
Context (root_size : sizes !! root = Some tuples_size).
Context (tuple_sizes : ∀ n, (n < NTUPLES)%nat → sizes !! arr rootp n = Some tuple_size).
Abbreviation shows := (shows sizes).
Implicit Types (w : World D) (tx : Transaction) (s : system D) (refs : list memref) (k : cell) (d : memref).
Implicit Types (a : values cell stored) (t : worker cell stored) (ts : list (thread unit)) (ns pre : list nat) (v : bool).

Lemma as_Tuple_ok {R} d (next : memref → client R) : mr_len d = 1 → as_Tuple d next = next d.
Proof. intros Hl. apply cast_ok; [lia|apply aligned_1]. Qed.

(** The root object is one. *)
Lemma as_Root_ok {R} s a x (next : memref → client R) : shows s a → shown a root x → as_Root x.1 next = next x.1.
Proof.
  intros Hs Hv. apply cast_ok; [|by apply (shown_aligned sizes s a root)].
  rewrite (shown_length sizes s a root x Hs Hv). unfold Simulation.total_at. rewrite root_size. done.
Qed.

(** A value that is a [Tuple]. *)
Definition holds_tuple (o : option stored) v : Prop := ∃ d, o = Some (d, [Some (tuple_byte v)]).

Definition tuple_of (o : option stored) : bool :=
  match o with Some (_, [Some b]) => bool_decide (b = Byte.x01) | _ => false end.

(** The drafts of the objects [pre], all with the value [v]. *)
Record drafted (ds : gmap cell stored) pre v : Prop := {
  dr_all n : n ∈ pre → holds_tuple (ds !! arr rootp n) v;
  dr_only k x : ds !! k = Some x → ∃ n, n ∈ pre ∧ k = arr rootp n
}.

(** How far an attempt of the thread [i] has come. *)
Inductive switching (i : nat) : client unit → list memref → gmap cell stored → Prop :=
| switching_start refs : switching i (switch_all root i) refs ∅
| switching_next refs ds pre ns : pre ++ ns = seq 0 NTUPLES → drafted ds pre (Nat.even i) →
    switching i (switch_tuples rootp (Nat.even i) ns) refs ds
| switching_value refs ds pre n ns d v : pre ++ n :: ns = seq 0 NTUPLES → drafted ds pre (Nat.even i) → d ∈ refs → mr_len d = 1 →
    switching i (switch_value d (Nat.even i) (switch_tuples rootp (Nat.even i) ns)) refs (<[arr rootp n := (d, [Some (tuple_byte v)])]> ds)
| switching_store refs ds pre n ns d v : pre ++ n :: ns = seq 0 NTUPLES → drafted ds pre (Nat.even i) → d ∈ refs → mr_len d = 1 →
    switching i (Storing d 0 [tuple_byte (Nat.even i)] (switch_tuples rootp (Nat.even i) ns)) refs
      (<[arr rootp n := (d, [Some (tuple_byte v)])]> ds)
| switching_failed refs ds error : switching i (Done (inr error)) refs ds.

Definition sees_root (o : option stored) : Prop := fst <$> o = Some rootp.

Definition thread_switches s a (i : nat) (st : thread unit) : Prop :=
  match st with
  | Ready => sy_txs s !! i = None
  | Busy c => ∃ tx refs t, sy_txs s !! i = Some (tx, refs) ∧ va_workers a !! i = Some t ∧ sees_root (wk_seen t !! root) ∧
      switching i c refs (wk_drafts t)
  | Returned _ => True
  end.

Definition uniform (values : nat → bool) : Prop := ∃ v, ∀ n, (n < NTUPLES)%nat → values n = v.

Record switches_at s ts a : Prop := {
  sa_shows : shows s a;
  sa_root : sees_root (va_now a !! root);
  sa_values : ∃ values, (∀ n, (n < NTUPLES)%nat → holds_tuple (va_now a !! arr rootp n) (values n)) ∧
    (Returned (inl tt) ∈ ts → uniform values);
  sa_threads i st : ts !! i = Some st → thread_switches s a i st
}.

Definition switches (mc : machine D unit) : Prop := ∃ a, switches_at (mc_system mc) (mc_threads mc) a.

(** A step that changes no values. *)
Lemma switches_move s ts a i st st' s' a' : switches_at s ts a → ts !! i = Some st → st' ≠ Returned (inl tt) →
  (∀ x, st ≠ Returned x) → shows s' a' → va_now a' = va_now a →
  (∀ j, j ≠ i → sy_txs s' !! j = sy_txs s !! j ∧ va_workers a' !! j = va_workers a !! j) →
  thread_switches s' a' i st' → switches (mk_machine s' (<[i := st']> ts)).
Proof.
  intros [S1 S2 (values & Hv & Hu) S4] Hi Hst' Hst Hs' Hnow Hother Hi'. exists a'. split; cbn [mc_system mc_threads].
  - done.
  - by rewrite Hnow.
  - exists values. rewrite Hnow. split; [done|]. intros Hin. apply Hu. apply list_elem_of_lookup in Hin as [j Hj].
    apply list_lookup_insert_Some in Hj as [(_ & E & _)|[_ Hj]]; [done|]. by eapply list_elem_of_lookup_2.
  - intros j stj Hj. apply list_lookup_insert_Some in Hj as [(<- & <- & _)|[Hne Hj]]; [done|].
    destruct (Hother j) as [Htx Hw]; [done|]. specialize (S4 j stj Hj). unfold thread_switches in *. by rewrite Htx, Hw.
Qed.

Lemma drafted_insert ds pre n d v : drafted ds pre v → drafted (<[arr rootp n := (d, [Some (tuple_byte v)])]> ds) (pre ++ [n]) v.
Proof.
  intros [D1 D2]. split.
  - intros n' Hn. destruct (decide (n' = n)) as [->|Hne]; [exists d; by rewrite lookup_insert_eq|].
    rewrite lookup_insert_ne by (intros ?%arr_inj; done). apply D1.
    by apply elem_of_app in Hn as [?|?%list_elem_of_singleton].
  - intros k x [[<- _]|[_ Hk]]%lookup_insert_Some; [exists n; split; [|done]; apply elem_of_app; right; by left|].
    destruct (D2 k x Hk) as (n' & ? & ->). exists n'. split; [|done]. apply elem_of_app. by left.
Qed.

Lemma drafted_empty v : drafted ∅ [] v.
Proof. split; [intros n Hn; by apply elem_of_nil in Hn|]. intros k x. by rewrite lookup_empty. Qed.
Lemma in_seq pre ns n : pre ++ ns = seq 0 NTUPLES → n ∈ pre ∨ n ∈ ns ↔ (n < NTUPLES)%nat.
Proof. intros E. rewrite <- elem_of_app, E, elem_of_seq. lia. Qed.

Abbreviation body := (switch_all root).
Abbreviation thread_step := (thread_step root body).

(** The thread [i] can move, and the objects are still right after it. *)
Definition switches_on (i : nat) s ts : Prop := ∃ mc', thread_step i (mk_machine s ts) mc' ∧ switches mc'.

Lemma switch_begin s ts a i : switches_at s ts a → ts !! i = Some Ready → switches_on i s ts.
Proof.
  intros Hsw Hi. pose proof (sa_threads _ _ _ Hsw i _ Hi) as Htx. simpl in Htx.
  pose proof (shows_begin sizes s a i root (sa_shows _ _ _ Hsw) Htx) as Hs'.
  eexists. split; [by apply (th_begin root body i s ts (fresh_transaction root (sy_world s)) (sy_world s))|].
  eapply (switches_move s ts a i Ready); [done|done|done|done|exact Hs'|done| |].
  - intros j Hne. simpl. by rewrite !lookup_insert_ne.
  - eexists _, _, _. split_and!; [apply step_to_this|apply lookup_insert_eq|apply Hsw|by constructor].
Qed.

Lemma switch_read s ts a i tx refs t : switches_at s ts a → ts !! i = Some (Busy (switch_all root i)) →
  sy_txs s !! i = Some (tx, refs) → va_workers a !! i = Some t → sees_root (wk_seen t !! root) → wk_drafts t = ∅ → switches_on i s ts.
Proof.
  intros Hsw Hi Htx Ht Hr Hd. destruct (shows_read sizes s a i tx refs t root tuples_size (sa_shows _ _ _ Hsw) Htx Ht root_size) as [n Hn].
  assert (found (wk_seen t !! root) = Ok rootp) as Hf.
  { unfold sees_root in Hr. destruct (wk_seen t !! root) as [x|]; [|done]. simpl in Hr. injection Hr as <-. done. }
  assert (∀ R (next : memref → client R), as_Root rootp next = next rootp) as Has.
  { intros R next. unfold sees_root in Hr. destruct (wk_seen t !! root) as [x|] eqn:Hx; [|done]. simpl in Hr. injection Hr as <-.
    apply (as_Root_ok s a x next); [apply Hsw|]. right. exists i, t. auto. }
  rewrite Hf in Hn.
  eexists. split; [by eapply (th_read root body i s ts root tuples_size _ tx refs (Ok rootp) tx (sy_world s) (inl rootp)); [| |exists n|]|].
  rewrite step_to_same by done. rewrite Has.
  eapply (switches_move s ts a i _ _ _ a Hsw Hi); [done|done|apply Hsw|done|done|].
  exists tx, refs, t. split_and!; [done|done|done|]. rewrite Hd. eapply (switching_next _ _ _ []); [done|apply drafted_empty].
Qed.

Lemma tuple_copied o v d bs x : holds_tuple o v → o = Some x → copied x (d, Some <$> bs) → bs = [tuple_byte v].
Proof.
  intros [d' ->] [= <-] [_ Hc]. cbn [snd] in Hc. inversion Hc as [|? ? ? ? Hx Hnil E1 E2]; subst. apply Forall2_nil_inv_l in Hnil. subst.
  destruct bs as [|b [|]]; try done. injection E2 as ->. destruct Hx; congruence.
Qed.

Lemma switch_write s ts a i tx refs t pre n ns : switches_at s ts a →
  ts !! i = Some (Busy (switch_tuples rootp (Nat.even i) (n :: ns))) →
  sy_txs s !! i = Some (tx, refs) → va_workers a !! i = Some t → sees_root (wk_seen t !! root) →
  pre ++ n :: ns = seq 0 NTUPLES → drafted (wk_drafts t) pre (Nat.even i) → switches_on i s ts.
Proof.
  intros Hsw Hi Htx Ht Hr Hseq Hd. assert (n < NTUPLES)%nat as Hn by (apply (in_seq pre (n :: ns)); [done|right; by left]).
  destruct (sa_values _ _ _ Hsw) as (values & Hv & _). specialize (Hv n Hn).
  destruct (shows_write sizes s a i tx refs t (arr rootp n) tuple_size (sa_shows _ _ _ Hsw) Htx Ht (tuple_sizes n Hn))
    as (o & tx1 & w1 & [m Hm] & Hres). destruct o as [d|f].
  - destruct Hres as (bs & a' & Hlen & (x & _ & Hx & _ & Hcopy & ->) & Hs').
    apply (tuple_copied _ _ _ _ _ Hv Hx) in Hcopy as ->.
    eexists. split; [by eapply (th_write root body i s ts (arr rootp n) tuple_size _ tx refs (Ok d) tx1 w1 (inl d)); [| |exists m|]|].
    change (switches (mk_machine (step_to s i tx1 (d :: refs) w1)
      (<[i := Busy (as_Tuple d (λ d, switch_value d (Nat.even i) (switch_tuples rootp (Nat.even i) ns)))]> ts))).
    rewrite as_Tuple_ok by by injection Hlen.
    eapply (switches_move s ts a i _ _ _ _ Hsw Hi); [done|done|exact Hs'|done| |].
    + intros j Hne. simpl. by rewrite !lookup_insert_ne.
    + eexists _, _, _. split_and!; [apply step_to_this|apply lookup_insert_eq|done|]. cbn [set_draft wk_drafts].
      eapply switching_value; [done|done|by left|]. by injection Hlen.
  - destruct Hres as [Hs' Hf]. assert (∃ error, f = Throw error) as [error ->].
    { destruct Hf as [[-> | ->]| ->]; by eexists. }
    eexists. split; [by eapply (th_write root body i s ts (arr rootp n) tuple_size _ tx refs (Err error) tx1 w1 (inr error)); [| |exists m|]|].
    eapply (switches_move s ts a i _ _ _ _ Hsw Hi); [done|done|exact Hs'|done| |].
    + intros j Hne. simpl. by rewrite lookup_insert_ne.
    + exists tx1, refs, t. split_and!; [apply step_to_this|done|done|constructor].
Qed.

Lemma switch_load s ts a i tx refs t ds pre n ns d v' : switches_at s ts a →
  ts !! i = Some (Busy (switch_value d (Nat.even i) (switch_tuples rootp (Nat.even i) ns))) →
  sy_txs s !! i = Some (tx, refs) → va_workers a !! i = Some t → sees_root (wk_seen t !! root) →
  pre ++ n :: ns = seq 0 NTUPLES → drafted ds pre (Nat.even i) → d ∈ refs → mr_len d = 1 →
  wk_drafts t = <[arr rootp n := (d, [Some (tuple_byte v')])]> ds → switches_on i s ts.
Proof.
  intros Hsw Hi Htx Ht Hr Hseq Hds Hin Hl Hd.
  assert (mem (sy_las s) (mr_source d) (mr_off d + 0) 1 = Some [tuple_byte v']) as Hm.
  { rewrite Z.add_0_r, <- Hl. apply (shown_bytes sizes s a (arr rootp n)); [apply Hsw|].
    right. exists i, t. split; [done|right]. rewrite Hd. apply lookup_insert_eq. }
  eexists. split; [eapply (th_load root body i s ts d 0 1); [done|done|by apply las_load_ok]|].
  cbn beta. rewrite tuple_value_byte, poke_to_same.
  eapply (switches_move s ts a i _ _ _ a Hsw Hi); [done|done|apply Hsw|done|done|].
  exists tx, refs, t. split_and!; [done|done|done|]. case_decide as Hv.
  - subst v'. apply switching_next with (pre ++ [n]); [by rewrite <- app_assoc|]. rewrite Hd. by apply drafted_insert.
  - rewrite Hd. by apply switching_store with pre.
Qed.

Lemma switch_store s ts a i tx refs t ds pre n ns d v' : switches_at s ts a →
  ts !! i = Some (Busy (Storing d 0 [tuple_byte (Nat.even i)] (switch_tuples rootp (Nat.even i) ns))) →
  sy_txs s !! i = Some (tx, refs) → va_workers a !! i = Some t → sees_root (wk_seen t !! root) →
  pre ++ n :: ns = seq 0 NTUPLES → drafted ds pre (Nat.even i) → d ∈ refs → mr_len d = 1 →
  wk_drafts t = <[arr rootp n := (d, [Some (tuple_byte v')])]> ds → switches_on i s ts.
Proof.
  intros Hsw Hi Htx Ht Hr Hseq Hds Hin Hl Hd.
  destruct (shows_store sizes s a i tx refs t (arr rootp n) d 0 [tuple_byte (Nat.even i)] [tuple_byte v'])
    as (las' & Hst & Hs'); [apply Hsw|done|done|done|rewrite Hd; apply lookup_insert_eq|done|by rewrite Hl|].
  eexists. split; [by eapply (th_store root body i s ts d 0)|].
  eapply (switches_move s ts a i _ _ _ _ Hsw Hi); [done|done|exact Hs'|done| |].
  - intros j Hne. simpl. by rewrite lookup_insert_ne.
  - eexists tx, refs, _. split_and!; [done|apply lookup_insert_eq|done|]. cbn [set_draft wk_drafts].
    rewrite Hd, insert_insert_eq. apply switching_next with (pre ++ [n]); [by rewrite <- app_assoc|]. by apply drafted_insert.
Qed.

(** An attempt that leaves no trace. *)
Lemma switch_gone s ts a i st w' (y : unit + Error) : switches_at s ts a → ts !! i = Some st → (∀ x, st ≠ Returned x) →
  shows (ended (poke_to s w') i) (mk_values (va_now a) (delete i (va_workers a))) → (∃ error, y = inr error) →
  switches (mk_machine (ended (poke_to s w') i) (<[i := attempt_over y]> ts)).
Proof.
  intros Hsw Hi Hst Hs' [error ->].
  eapply (switches_move s ts a i st _ _ _ Hsw Hi); [by destruct error|done|exact Hs'|done| |].
  - intros j Hne. simpl. by rewrite !lookup_delete_ne.
  - destruct error; try done. apply lookup_delete_eq.
Qed.

(** All objects have a draft, and so all get the thread's value. *)
Lemma switch_done s ts a i t w' : switches_at s ts a → ts !! i = Some (Busy (Done (inl tt))) → va_workers a !! i = Some t →
  drafted (wk_drafts t) (seq 0 NTUPLES) (Nat.even i) →
  shows (ended (poke_to s w') i) (mk_values (wk_drafts t ∪ va_now a) (delete i (va_workers a))) →
  switches (mk_machine (ended (poke_to s w') i) (<[i := Returned (inl tt)]> ts)).
Proof.
  intros [S1 S2 (values & Hv & Hu) S4] Hi Ht [D1 D2] Hs'. eexists. cbn [mc_system mc_threads]. split; [exact Hs'|..]; cbn [va_now].
  - unfold sees_root. rewrite lookup_union_r; [done|]. apply eq_None_not_Some. intros [x Hx].
    destruct (D2 root x Hx) as (n & Hn & Hr). apply elem_of_seq in Hn. pose proof (tuple_sizes n ltac:(lia)) as Hs.
    rewrite <- Hr, root_size in Hs. discriminate.
  - exists (λ _, Nat.even i). split; [|by exists (Nat.even i)]. intros n Hn.
    destruct (D1 n) as [d Hd]; [apply elem_of_seq; lia|]. exists d. by apply lookup_union_Some_l.
  - intros j stj Hj. apply list_lookup_insert_Some in Hj as [(<- & <- & _)|[Hne Hj]]; [done|].
    specialize (S4 j stj Hj). destruct stj as [|c|x]; simpl in *; [by rewrite lookup_delete_ne| |done].
    by rewrite !lookup_delete_ne.
Qed.

Lemma switches_sound : sound root body switches.
Proof.
  intros [s ts] i st [a Hsw] Hi Hu Hlt. cbn [mc_system mc_threads] in *. destruct st as [|c|]; [by apply (switch_begin s ts a)| |done].
  destruct (sa_threads _ _ _ Hsw i _ Hi) as (tx & refs & t & Htx & Ht & Hr & Hc). remember (wk_drafts t) as ds eqn:Hd. symmetry in Hd.
  destruct Hc as [refs|refs ds pre [|n ns] Hseq Hds|refs ds pre n ns d v Hseq Hds Hin Hl|refs ds pre n ns d v Hseq Hds Hin Hl|refs ds error].
  - by apply (switch_read s ts a i tx refs t).
  - rewrite app_nil_r in Hseq. subst pre ds.
    destruct (shows_commit sizes s a i tx refs t (sa_shows _ _ _ Hsw) Htx Ht Hlt) as (o & w' & Heq & Hres). destruct o as [[]|f].
    + eexists. split; [by eapply (th_commit root body i s ts _ tx refs (Ok tt) tx w' (inl tt))|]. by apply (switch_done s ts a i t).
    + destruct Hres as [-> Hs']. eexists. split; [by eapply (th_commit root body i s ts _ tx refs (Err TxAborted) tx w' (inr TxAborted))|].
      apply (switch_gone s ts a i _ w' (inr TxAborted) Hsw Hi); [done|done|by eexists].
  - subst ds. by apply (switch_write s ts a i tx refs t pre n ns).
  - by apply (switch_load s ts a i tx refs t ds pre n ns d v).
  - by apply (switch_store s ts a i tx refs t ds pre n ns d v).
  - destruct (shows_abort sizes s a i tx refs (sa_shows _ _ _ Hsw) Htx) as (w' & Heq & _ & Hs').
    eexists. split; [by eapply (th_abort root body i s ts error tx refs tx w')|].
    apply (switch_gone s ts a i _ w' (inr error) Hsw Hi); [done|done|by eexists].
Qed.

(** *** Counting *)

(** The closure of a transaction that has the heap as it is now. *)
Definition now_tx s : Transaction := fresh_transaction root (sy_world s).

Lemma count_runs s a values ns count : shows s a → (∀ n, (n < NTUPLES)%nat → holds_tuple (va_now a !! arr rootp n) (values n)) →
  Forall (λ n, (n < NTUPLES)%nat) ns →
  eventually (λ fuel, closure fuel (count_tuples rootp count ns) (now_tx s, sy_world s))
    (Ok (count + foldr (λ n, Z.add (Z.b2z (values n))) 0 ns), (now_tx s, sy_world s)).
Proof.
  intros Hs Hv. revert count. induction ns as [|n ns IH]; intros count Hns.
  - exists 0%nat. intros fuel _. simpl. by rewrite Z.add_0_r.
  - apply Forall_cons in Hns as [Hn Hns]. destruct (IH (count + Z.b2z (values n)) Hns) as [k1 Hk1].
    destruct (Hv n Hn) as [d Hd]. destruct (shows_fresh_read sizes s a root (arr rootp n) tuple_size Hs (tuple_sizes n Hn)) as [k2 Hk2].
    rewrite Hd in Hk2. exists (max k1 k2). intros fuel Hf. cbn [count_tuples closure].
    rewrite (bind_ok _ _ _ (inl d) (now_tx s, sy_world s)) by (apply attempt_ok; apply Hk2; lia).
    pose proof (shown_bytes sizes s a (arr rootp n) d [tuple_byte (values n)] Hs (or_introl Hd)) as Hm.
    pose proof (mem_length _ _ _ _ _ Hm) as Hl. rewrite as_Tuple_ok by done. cbn [closure].
    rewrite (bind_ok _ _ _ [tuple_byte (values n)] (now_tx s, sy_world s)).
    + rewrite tuple_value_byte, Hk1 by lia. cbn [foldr]. by rewrite Z.add_assoc.
    + apply on_tx_las_same, las_load_ok. by rewrite Z.add_0_r, <- Hm, <- Hl.
Qed.

Lemma count_bounds values ns : 0 ≤ foldr (λ n, Z.add (Z.b2z (values n))) 0 ns ≤ Z.of_nat (length ns).
Proof. induction ns as [|n ns IH]; [done|]. cbn [foldr length]. destruct (values n); simpl; lia. Qed.

Lemma count_uniform values ns : (∃ v, Forall (λ n, values n = v) ns) →
  foldr (λ n, Z.add (Z.b2z (values n))) 0 ns = 0 ∨ foldr (λ n, Z.add (Z.b2z (values n))) 0 ns = Z.of_nat (length ns).
Proof.
  intros [v Hv]. assert (foldr (λ n, Z.add (Z.b2z (values n))) 0 ns = Z.b2z v * Z.of_nat (length ns)) as ->.
  { induction Hv as [|n ns Hn _ IH]; [simpl; lia|]. cbn [foldr length]. rewrite IH, Hn. lia. }
  destruct v; simpl; [right|left]; lia.
Qed.

Lemma counted_all s a values : shows s a → sees_root (va_now a !! root) →
  (∀ n, (n < NTUPLES)%nat → holds_tuple (va_now a !! arr rootp n) (values n)) →
  eventually (λ fuel, Librarius_run 1 root (closure fuel (count_all root)) (sy_world s))
    (Ok (foldr (λ n, Z.add (Z.b2z (values n))) 0 (seq 0 NTUPLES)), sy_world s).
Proof.
  intros Hs Hr Hv. destruct (count_runs s a values (seq 0 NTUPLES) 0 Hs Hv) as [k1 Hk1]; [by apply Forall_forall; intros n ?%elem_of_seq; lia|].
  destruct (shows_fresh_read sizes s a root root tuples_size Hs root_size) as [k2 Hk2].
  unfold sees_root in Hr. destruct (va_now a !! root) as [x|] eqn:Hx; [|done]. injection Hr as Hr. cbn [found] in Hk2. rewrite Hr in Hk2.
  exists (max k1 k2). intros fuel Hf. rewrite run_rest. fold (now_tx s) in *.
  rewrite (rest_of_run_bind root 0 fuel _ _ (λ o, match o with inl d => as_Root d (λ d, count_tuples d 0 (seq 0 NTUPLES)) | inr error => Done (inr error) end)
    (Transaction_read fuel root tuples_size) (now_tx s, sy_world s) (now_tx s, sy_world s) (Ok rootp) (inl rootp)); [|done|apply Hk2; lia|done].
  rewrite <- Hr, (as_Root_ok s a x _ Hs (or_introl Hx)), Hr.
  unfold rest_of_run. rewrite (bind_ok _ _ _ _ _ (attempt_ok _ _ _ _ (Hk1 fuel ltac:(lia)))).
  by step (commit_unwritten (now_tx s) (sy_world s) eq_refl).
Qed.

(** The heap after the first closure: nobody running, the pointers at [rootp],
    and behind each of them a [Tuple]. *)
Record switch_ready s : Prop := {
  sr_represents : ∃ m, represents sizes s m;
  sr_idle : sy_txs s = ∅;
  sr_root : eventually (new_read root (sy_world s) root tuples_size) (Ok rootp);
  sr_tuples n : (n < NTUPLES)%nat → ∃ d v, finds sizes s root (arr rootp n) tuple_size d [tuple_byte v]
}.

Lemma ready_switches s nthreads : switch_ready s → switches (mk_machine s (replicate nthreads Ready)).
Proof.
  intros [[m Hrp] Hidle Hr Ht]. assert (shows s (view sizes s m)) as Hs by by exists m.
  exists (view sizes s m). split; cbn [mc_system mc_threads].
  - done.
  - pose proof (eventually_unique _ _ _ Hr (shows_new_read sizes s _ root root tuples_size Hs root_size)) as Hx.
    unfold sees_root. destruct (va_now (view sizes s m) !! root); [|done]. by injection Hx as ->.
  - assert (∃ values, ∀ n, (n < NTUPLES)%nat → holds_tuple (va_now (view sizes s m) !! arr rootp n) (values n)) as [values Hv].
    { exists (λ n, tuple_of (va_now (view sizes s m) !! arr rootp n)). intros n Hn. destruct (Ht n Hn) as (d & v & Hf).
      rewrite (finds_shown sizes s _ root _ _ d [tuple_byte v] Hs (tuple_sizes n Hn) Hf). exists d. by destruct v. }
    exists values. split; [done|]. intros Hin. apply list_elem_of_lookup in Hin as [j Hj]. by apply lookup_replicate in Hj as [? _].
  - intros i st Hi. apply lookup_replicate in Hi as [-> _]. simpl. by rewrite Hidle.
Qed.

(** C14: however the threads are scheduled, no one is ever stuck, and as soon as
    one of them has succeeded the closure that counts finds all the objects set
    or none, whatever the others are doing: nobody sees the writes of one
    transaction in part, nor those of two mixed.  (Its objects are of one byte,
    so that the header of the second is misaligned: [switch_ready] can hold
    only where alignment is of no account, as in [relaxed_target].) *)
Theorem switcharoo_uniform s (nthreads : nat) mc : switch_ready s →
  rtc (any_step root body) (mk_machine s (replicate nthreads Ready)) mc →
  goes_on_all root body mc ∧
  ∃ true_count, eventually (λ fuel, Librarius_run 1 root (closure fuel (count_all root)) (sy_world (mc_system mc)))
      (Ok true_count, sy_world (mc_system mc)) ∧
    0 ≤ true_count ≤ Z.of_nat NTUPLES ∧
    (Returned (inl tt) ∈ mc_threads mc → true_count = Z.of_nat NTUPLES ∨ true_count = 0).
Proof.
  intros Hr Hst. destruct (sound_reachable root body switches _ mc switches_sound (ready_switches s nthreads Hr) Hst) as [[a Hsw] Hgo].
  split; [done|]. destruct Hsw as [S1 S2 (values & Hv & Hu) _]. eexists. split; [by apply (counted_all _ a values)|]. split.
  - apply count_bounds.
  - intros Hin. destruct (Hu Hin) as [v Hall].
    destruct (count_uniform values (seq 0 NTUPLES)) as [-> | ->]; [|by right|left; by rewrite length_seq].
    exists v. apply Forall_forall. intros n Hn%elem_of_seq. apply Hall. lia.
Qed.
End Switcharoo.
