(* ===== verification/Testing.v ===== *)
(** * The tests, run

    Concrete heaps for the tests, schedules of threads on them, and the
    theorems about threads at work there. *)
From S2P Require Import Prelude Utils Source SourceAllocator Slices Las Memory Pointer Vos.
From S2P Require Import Allocators Versions Objects Tx Transactions Heap Runs Checks Scenarios.
From S2P Require Import Snapshot Arena Simulation Calls Isolation Clients Quiet Values Views Showing Mapping Founding Blank Basics Example.
From S2P Require Import Threads Schedules Counter Switcharoo.

#[local] Instance Error_eq_dec : EqDecision Error.
Proof. solve_decision. Defined.
#[local] Instance failure_eq_dec : EqDecision failure.
Proof. solve_decision. Defined.
#[local] Instance outcome_eq_dec A `{!EqDecision A} : EqDecision (outcome A).
Proof. solve_decision. Defined.
#[local] Instance memref_eq_dec : EqDecision memref.
Proof. solve_decision. Defined.
#[local] Instance ObjectSize_eq_dec : EqDecision ObjectSize.
Proof. solve_decision. Defined.

(** ** The test [counter], with pages of 128 bytes *)
Definition counter_heap : Librarius DynSource :=
  opened (LibrariusBuilder_open (LibrariusBuilder_pagesize 128 (counter_builder (memory 2560)))).
Abbreviation counter_world := (lr_world counter_heap).
Abbreviation counter_root := (lr_root counter_heap).
Definition counter_sizes : gmap cell ObjectSize := {[ counter_root := counter_size ]}.
Definition counter_start : system DynSource := mk_system counter_world ∅.

Lemma opened_ok o : match o with Ok _ => true | Fail _ => false end = true → o = Ok (opened o).
Proof. by destruct o. Qed.

Lemma counter_heap_eq : LibrariusBuilder_open (LibrariusBuilder_pagesize 128 (counter_builder (memory 2560))) = Ok counter_heap.
Proof. apply opened_ok. computed. Qed.

Lemma Ok_eq {A} (x y : A) : Ok x = Ok y → x = y.
Proof. by intros [= ->]. Qed.

(** The two threads are in the way of each other: the second has to try again. *)
Definition counter_turns : list nat := [0;1;0;1;1;0;0;0;1;1;1;1;1]%nat.
Definition two_threads (s : system DynSource) : machine DynSource Z := mk_machine s (replicate 2 Ready).
Definition counter_run : option (machine DynSource Z) :=
  take_turns counter_root (λ _, counter_increment counter_root) 9 counter_turns (two_threads counter_start).
Definition counter_end : machine DynSource Z := default (two_threads counter_start) counter_run.

#[local] Opaque counter_heap.

Lemma counter_sizes_root : counter_sizes !! counter_root = Some counter_size.
Proof. unfold counter_sizes. apply lookup_singleton_eq. Qed.

Lemma counter_memory_fresh : fresh_memory 128 [memory 2560].
Proof.
  split.
  - split_and!; [by exists 7|done|done].
  - constructor; [|constructor]. split; [vm_compute; discriminate|split; vm_compute; [discriminate|reflexivity]|computed].
  - computed.
  - repeat constructor.
Qed.

Lemma counter_memory_blank : blank 128 (memory 2560).
Proof. split; [reflexivity|computed|]. pose proof (fm_fresh _ _ counter_memory_fresh) as Hf. by apply Forall_cons in Hf as [? _]. Qed.

Lemma counter_start_ready : counter_ready counter_sizes counter_root 0 counter_start.
Proof. exact (counter_opened 128 (memory 2560) counter_heap counter_memory_fresh counter_heap_eq). Qed.

Lemma counter_run_eq : counter_run = Some counter_end.
Proof.
  unfold counter_end. assert (match counter_run with Some _ => true | None => false end = true) as Hs by computed.
  by destruct counter_run.
Qed.

Lemma counter_runs : rtc (any_step counter_root (λ _, counter_increment counter_root)) (two_threads counter_start) counter_end.
Proof. exact (take_turns_sound _ _ _ _ _ _ counter_run_eq). Qed.

(** ** The theorems at work *)
Lemma counter_counts_witness :
  reads_number counter_root (mc_system counter_end) 2 ∧ results (mc_threads counter_end) ≡ₚ [1; 2].
Proof.
  destruct (counter_counts counter_sizes counter_root counter_sizes_root 0 counter_start 2 counter_end) as (Hr & Hp & _).
  - exact counter_start_ready.
  - done.
  - done.
  - exact counter_runs.
  - assert (length (results (mc_threads counter_end)) = 2%nat) as Hl by computed. rewrite Hl in Hr, Hp. split; [exact Hr|exact Hp].
Defined.


(** ** Opening fresh memory *)
(** Two fresh sources of different sizes, the second not of whole pages. *)
Definition two_sources : list DynSource := [memory 2560; memory 1300].

Lemma two_sources_fresh : fresh_memory 128 two_sources.
Proof.
  split.
  - split_and!; [by exists 7|done|done].
  - repeat constructor; first [vm_compute; discriminate|computed].
  - computed.
  - repeat constructor.
Qed.

Lemma LogicalAddressSpace_new_inv_witness : ∃ las,
  LogicalAddressSpace_new 128 two_sources VersionedObjectStore_valid_page true = Ok las ∧ las_inv las ∧
  (las_sources las).*1 = [0; 2560].
Proof.
  destruct two_sources_fresh as [(Hp & Hh & Hm) Hfr Hsz Hvol].
  assert (match LogicalAddressSpace_new 128 two_sources VersionedObjectStore_valid_page true with
    | Ok las => bool_decide ((las_sources las).*1 = [0; 2560]) | Fail _ => false end = true) as Hc by computed.
  destruct (LogicalAddressSpace_new 128 two_sources VersionedObjectStore_valid_page true) as [las|] eqn:E; [|discriminate].
  exists las. split; [reflexivity|]. split; [|by apply bool_decide_eq_true in Hc].
  by destruct (LogicalAddressSpace_new_inv 128 Hp Hh Hm two_sources _ las Hfr Hsz Hvol E).
Defined.

Lemma Librarius_new_founds_witness : ∃ h,
  Librarius_new 128 two_sources (Some (word_size, word_constructor 5)) = Ok h ∧
  let s := mk_system (lr_world h) ∅ in
  (∃ m, represents {[ lr_root h := word_size ]} s m) ∧
  ∃ d, finds {[ lr_root h := word_size ]} s (lr_root h) (lr_root h) word_size d (u64_bytes 5).
Proof.
  assert (match Librarius_new 128 two_sources (Some (word_size, word_constructor 5)) with Ok _ => true | Fail _ => false end = true) as Hc by computed.
  destruct (Librarius_new 128 two_sources (Some (word_size, word_constructor 5))) as [h|] eqn:E; [|discriminate].
  exists h. split; [reflexivity|].
  assert (fills (D := DynSource) (word_constructor 5) 8 (u64_bytes 5)) as Hfill by (intros data w _ _; reflexivity).
  exact (Librarius_new_founds 128 two_sources word_size 8 (word_constructor 5) (u64_bytes 5) h two_sources_fresh eq_refl eq_refl (aligned_mul 8 1) eq_refl Hfill E).
Defined.

(** An object of 128 bytes does not fit a page of 128 with its header. *)
Definition page_size : ObjectSize := ObjectSize_new 0 128.
Definition page_constructor : root_constructor DynSource := λ data, on_world_las (store_memref data (zeros 128)).

Lemma two_sources_blank : Forall (blank 128) two_sources.
Proof.
  pose proof (fm_fresh _ _ two_sources_fresh) as Hf. repeat (apply Forall_cons in Hf as [? Hf]).
  apply Forall_cons_2; [|apply Forall_cons_2; [|apply Forall_nil_2]]; (split; [reflexivity|computed|assumption]).
Qed.

Lemma word_constructs : constructs (D := DynSource) (word_constructor 5) 8 (inl (u64_bytes 5)).
Proof. split; [reflexivity|intros data w _ _; reflexivity]. Qed.
Lemma page_constructs : constructs (D := DynSource) page_constructor 128 (inl (zeros 128)).
Proof. split; [reflexivity|intros data w _ _; reflexivity]. Qed.

(** A constructor that gives up, and a first source without a page of its own. *)
Definition no_constructor : root_constructor DynSource := λ _, throw InvalidMemory.
Definition full_source : list DynSource := [memory 256; memory 2560].

Lemma full_source_fresh : fresh_memory 128 full_source ∧ Forall (blank 128) full_source.
Proof.
  assert (Forall (fresh 128) full_source) as Hf by (repeat constructor; first [vm_compute; discriminate|computed]).
  split; [split; [split_and!; [by exists 7|done|done]|exact Hf|computed|repeat constructor]|].
  repeat (apply Forall_cons in Hf as [? Hf]).
  apply Forall_cons_2; [|apply Forall_cons_2; [|apply Forall_nil_2]]; (split; [reflexivity|computed|assumption]).
Qed.


(** Memory of two pages of 4096 bytes, for [basic_test]. *)
Lemma basic_test_passes_witness : basic_test (memory 8192) = Ok tt.
Proof.
  assert (fresh 4096 (memory 8192)) as Hf by (split; [vm_compute; discriminate|split; vm_compute; [discriminate|reflexivity]|computed]).
  apply (basic_test_passes (memory 8192)).
  - split; [split_and!; [by exists 12|done|done]|by constructor|computed|repeat constructor].
  - split; [reflexivity|computed|exact Hf].
Defined.

(** ** The test [switcharoo], with pages of 128 bytes *)

(** Its first closure makes objects of one byte, one behind the other: the
    second one's header is no longer where a reference to it may be. *)
Example switch_setup_misaligned :
  match LibrariusBuilder_open (LibrariusBuilder_pagesize 128 (switcharoo_builder (memory 5120))) with
  | Ok h => (Librarius_run 1 (lr_root h) (closure 5 (switch_setup (lr_root h))) (lr_world h)).1
  | Fail f => Fail f
  end = Fail Undef.
Proof. computed. Qed.

(** Where this is of no account, it runs. *)
Section Relaxed.
#[local] Existing Instance relaxed_target | 0.
#[local] Existing Instance relaxed_target_ok | 0.

Definition switch_heap : Librarius DynSource :=
  opened (LibrariusBuilder_open (LibrariusBuilder_pagesize 128 (switcharoo_builder (memory 5120)))).
Definition switch_root : cell := lr_root switch_heap.
Definition switch_world : World DynSource :=
  (Librarius_run 1 switch_root (closure 5 (switch_setup switch_root)) (lr_world switch_heap)).2.
Definition switch_start : system DynSource := mk_system switch_world ∅.
Definition switch_rootp : memref :=
  match new_read switch_root switch_world switch_root tuples_size 5 with Ok d => d | _ => mk_memref 0 0 0 end.
Definition switch_pointers : list (cell * ObjectSize) :=
  (switch_root, tuples_size) :: ((λ n, (arr switch_rootp n, tuple_size)) <$> seq 0 NTUPLES).

Definition switch_sizes : gmap cell ObjectSize := list_to_map switch_pointers.

(** The first thread succeeds; the second, in its way once, is at work again. *)
Definition switch_turns : list nat := [0;1;0;1;0;1]%nat ++ replicate 25 0%nat ++ replicate 8 1%nat.
Definition switchers : machine DynSource unit := mk_machine switch_start (replicate 2 Ready).
Definition switch_run : option (machine DynSource unit) := take_turns switch_root (switch_all switch_root) 9 switch_turns switchers.
Definition switch_end : machine DynSource unit := default switchers switch_run.
#[local] Opaque switch_heap switch_root switch_world.

Lemma switch_pointers_eq : switch_pointers = (InMemory 0 184, tuples_size) :: ((λ n, (InMemory 0 (544 + 8 * Z.of_nat n), tuple_size)) <$> seq 0 NTUPLES).
Proof. computed. Qed.

(** No pointer is within the bytes of a [Tuple]. *)
Lemma switch_plain off : 672 ≤ off → ∀ o, off ≤ o < off + 1 → ¬ pointer_byte switch_sizes 0 o.
Proof.
  intros Hoff o Ho. rewrite pointer_byte_spec. intros (p & [size Hk] & Hp). unfold switch_sizes in Hk.
  apply elem_of_list_to_map_2 in Hk. rewrite switch_pointers_eq in Hk. unfold size_of_usize in Hp.
  apply elem_of_cons in Hk as [[= -> _]|Hk]; [lia|]. apply list_elem_of_fmap in Hk as (n & [= -> _] & Hn%elem_of_seq).
  unfold NTUPLES in Hn. lia.
Qed.

(** The objects, and where they are. *)
Definition tuple_offsets : list Z := [672; 705; 738; 800; 833; 866; 928; 961; 994; 1056].
Definition tuple_there (n : nat) : bool :=
  match tuple_offsets !! n with
  | Some off => bool_decide (new_read switch_root switch_world (arr switch_rootp n) tuple_size 5 = Ok (mk_memref 0 off 1) ∧
      mem (w_las switch_world) 0 off 1 = Some [tuple_byte (Nat.even n)] ∧ 672 ≤ off ∧
      switch_sizes !! arr switch_rootp n = Some tuple_size)
  | None => false
  end.

Lemma tuples_there n : (n < NTUPLES)%nat → tuple_there n = true.
Proof.
  intros Hn. assert (forallb tuple_there (seq 0 NTUPLES) = true) as Hall by computed. rewrite forallb_forall in Hall.
  apply Hall, list_elem_of_In, elem_of_seq. lia.
Qed.

Lemma switch_start_ready : switch_ready switch_sizes switch_root switch_rootp switch_start.
Proof.
  split.
  - apply (quiet_at_represents 7 5 switch_world switch_pointers). computed.
  - reflexivity.
  - apply (new_read_computed _ _ _ _ 5); [computed|done].
  - intros n Hn. pose proof (tuples_there n Hn) as Ht. unfold tuple_there in Ht.
    destruct (tuple_offsets !! n) as [off|]; [|done]. apply bool_decide_eq_true in Ht as (Hr & Hm & Hoff & _).
    exists (mk_memref 0 off 1), (Nat.even n). split; [by apply (new_read_computed _ _ _ _ 5)|exact Hm|].
    cbn [mr_source mr_off mr_len]. by apply switch_plain.
Qed.

Lemma switch_run_eq : switch_run = Some switch_end.
Proof.
  unfold switch_end. assert (match switch_run with Some _ => true | None => false end = true) as Hs by computed.
  by destruct switch_run.
Qed.

Lemma switcharoo_uniform_witness :
  goes_on_all switch_root (switch_all switch_root) switch_end ∧
  ∃ true_count, eventually (λ fuel, Librarius_run 1 switch_root (closure fuel (count_all switch_root)) (sy_world (mc_system switch_end)))
    (Ok true_count, sy_world (mc_system switch_end)) ∧ (true_count = 10 ∨ true_count = 0).
Proof.
  destruct (switcharoo_uniform (D := DynSource) switch_sizes switch_root switch_rootp) with (s := switch_start) (nthreads := 2%nat) (mc := switch_end)
    as [Hgo (count & Hc & _ & Hu)].
  - assert (bool_decide (switch_sizes !! switch_root = Some tuples_size) = true) as Hs by computed. by apply bool_decide_eq_true in Hs.
  - intros n Hn. pose proof (tuples_there n Hn) as Ht. unfold tuple_there in Ht.
    destruct (tuple_offsets !! n) as [off|]; [|done]. by apply bool_decide_eq_true in Ht as (_ & _ & _ & Hs).
  - exact switch_start_ready.
  - exact (take_turns_sound _ _ _ _ _ _ switch_run_eq).
  - split; [exact Hgo|]. exists count. split; [exact Hc|]. apply Hu.
    assert (head (mc_threads switch_end) = Some (Returned (inl tt))) as Hh by computed.
    destruct (mc_threads switch_end) as [|st ts]; [done|]. injection Hh as ->. by left.
Defined.

End Relaxed.

(** ** The example, with pages of 128 bytes, whatever the layout of its root *)
Definition value_last : RootLayout.
Proof. refine {| off_root_data := 0; off_root_value := 8 |}. cbn; unfold within, apart; cbn; repeat (split || constructor); cbn; lia. Defined.
Definition value_first : RootLayout.
Proof. refine {| off_root_data := 8; off_root_value := 0 |}. cbn; unfold within, apart; cbn; repeat (split || constructor); cbn; lia. Defined.

Definition example_heap (L : RootLayout) : outcome (Librarius DynSource) :=
  LibrariusBuilder_open (LibrariusBuilder_pagesize 128 (main_builder (memory 2560) (file 2560))).

Lemma example_prints : mbind (main_run (L := value_last) 5) (example_heap value_last) = Ok 5 ∧
  mbind (main_run (L := value_first) 5) (example_heap value_first) = Ok 5.
Proof. split; computed. Qed.
