(* ===== verification/Interleavings.v ===== *)
(** * Concrete interleavings

    The heap of [Scenarios] stands for a multi-version store with one object;
    two transactions that overlap on it, and the theorems of [Isolation] about
    them. *)
From S2P Require Import Prelude Utils Source SourceAllocator Slices Las Memory Opening Pointer.
From S2P Require Import Vos Allocators Versions Objects Paging Tx Transactions Heap Runs.
From S2P Require Import Checks Scenarios Executions Snapshot Arena Simulation Calls Isolation Skew Clients.
From S2P Require Import Quiet Values Views Showing Mapping Founding Threads Schedules.
#[local] Opaque memory_heap memory_world memory_root memory_tx written_state written_tx written_world committed_world.

Definition root_sizes : gmap cell ObjectSize := {[ memory_root := word_size ]}.

Lemma root_sizes_lookup k size : root_sizes !! k = Some size → k = memory_root ∧ size = word_size.
Proof. unfold root_sizes. by intros [<- <-]%lookup_singleton_Some. Qed.

(** The heap, nobody running, and what it stands for. *)
Definition idle : system DynSource := mk_system memory_world ∅.
Definition idle_store : mvstore cell := one_object memory_root root_entry 1.

Lemma idle_total : total_at root_sizes memory_root = 8.
Proof. unfold total_at, root_sizes. by rewrite lookup_singleton_eq. Qed.

Lemma idle_owns p x : owns root_sizes idle idle_store p x →
  p = ForPointer memory_root ∧ x = mk_span 0 184 8 ∨ p = ForHeader ∧ (x = mk_span 0 264 8 ∨ x = mk_span 0 280 8) ∨
  p = ForNumber (InMemory 0 264) ∧ x = mk_span 0 264 8 ∨ p = ForData (InMemory 0 264) memory_root ∧ x = mk_span 0 288 8.
Proof.
  intros Ho. destruct Ho as [k [size Hk]|k e He|k e He|k e He|i r home Hi|k e He|i tx refs r home d Hi]; [| | | |discriminate| |discriminate].
  - apply root_sizes_lookup in Hk as [-> _]. left. split; [reflexivity|]. rewrite memory_root_eq. reflexivity.
  - apply one_object_entry in He as [-> ->]. right; left; split; [done|by left].
  - apply one_object_entry in He as [-> ->]. right; left; split; [done|by right].
  - apply one_object_entry in He as [-> ->]. by right; right; left.
  - apply one_object_entry in He as [-> ->]. right; right; right. by rewrite idle_total.
Qed.

Lemma idle_taken b off n : range_usedb memory_las b off n = true → taken idle b off n.
Proof.
  intros Hu o Ho. destruct (range_usedb_ok memory_las b off n Hu) as [H1 _]. split; [|done].
  intros Hf. apply (H1 o Ho). by right.
Qed.

Lemma idle_represents : represents root_sizes idle idle_store.
Proof.
  split.
  - apply one_object_inv. cbn. lia.
  - split; [exact memory_las_inv|intros i tx refs Hi; discriminate|intros i j tx tx' refs refs' b o _ Hi; discriminate].
  - computed.
  - intros k size Hk. apply root_sizes_lookup in Hk as [-> ->]. exists 8. split; [computed|exact (aligned_mul 8 1)].
  - intros k. unfold root_sizes, idle_store, one_object. cbn [mv_objects]. rewrite !lookup_singleton_is_Some. reflexivity.
  - intros k es Hk. apply one_object_lookup in Hk as [-> ->]. rewrite idle_total. split.
    + exact memory_root_cell.
    + lia.
    + discriminate.
    + exists 288. split; [exact memory_root_holds|]. split; [computed|exact memory_chain].
  - intros i. split; intros [x Hx]; discriminate.
  - intros i tx refs r Hi. discriminate.
  - intros p q x y Hx Hy. apply idle_owns in Hx, Hy.
    destruct Hx as [[-> ->]|[[-> [->| ->]]|[[-> ->]|[-> ->]]]], Hy as [[-> ->]|[[-> [->| ->]]|[[-> ->]|[-> ->]]]];
      first [exact I|left; reflexivity|left; split; reflexivity|unfold separate, spans_apart, apart; cbn; lia].
  - intros p x Hx. apply idle_owns in Hx.
    destruct Hx as [[-> ->]|[[-> [->| ->]]|[[-> ->]|[-> ->]]]]; apply idle_taken; computed.
Qed.

(** *** Two transactions that overlap *)

(** Both begin; the second writes the root object and commits. *)
Definition first_begun : system DynSource := step_to idle 0 memory_tx [] memory_world.
Definition both_begun : system DynSource := step_to first_begun 1 memory_tx [] memory_world.
Definition second_written : system DynSource := step_to both_begun 1 written_tx [mk_memref 0 544 8] written_world.
Definition second_committed : system DynSource := ended (poke_to second_written committed_world) 1.

Definition begin_store (m : mvstore cell) (i : nat) : mvstore cell :=
  mk_mvstore (mv_counter m) (mv_objects m) (<[i := mk_running (mv_counter m) None []]> (mv_running m)).

Lemma first_begun_represents : represents root_sizes first_begun (begin_store idle_store 0).
Proof. apply (represents_begin root_sizes idle idle_store 0 memory_root idle_represents). reflexivity. Qed.

Lemma both_begun_represents : represents root_sizes both_begun (begin_store (begin_store idle_store 0) 1).
Proof.
  apply (represents_begin root_sizes first_begun (begin_store idle_store 0) 1 memory_root first_begun_represents). reflexivity.
Qed.

Lemma both_begun_running i : i = 0%nat ∨ i = 1%nat → sy_txs both_begun !! i = Some (memory_tx, []).
Proof. intros [-> | ->]; reflexivity. Qed.

(** The write of [Scenarios], whatever the bound on the chain. *)
Lemma second_write_eventually :
  eventually (λ fuel, Transaction_write fuel memory_root word_size (memory_tx, sy_world both_begun))
    (Ok (mk_memref 0 544 8), (written_tx, written_world)).
Proof.
  destruct (system_write root_sizes both_begun (begin_store (begin_store idle_store 0) 1) 1 memory_tx []
    (mk_running 1 None []) memory_root word_size [root_entry]) as (res & tx' & w' & m' & Heq & _).
  - exact both_begun_represents.
  - reflexivity.
  - reflexivity.
  - unfold root_sizes. apply lookup_singleton_eq.
  - unfold begin_store, idle_store, one_object. cbn [mv_objects]. apply lookup_singleton_eq.
  - apply (eventually_above _ _ 1). intros fuel Hfuel. rewrite (Heq fuel Hfuel). rewrite <- (Heq 5%nat); [exact written_eq|].
    cbn. lia.
Qed.

Lemma root_size : root_sizes !! memory_root = Some word_size.
Proof. unfold root_sizes. apply lookup_singleton_eq. Qed.

Lemma overlap : rtc (running_step root_sizes 0) first_begun second_committed.
Proof.
  eapply rtc_l; [split|eapply rtc_l; [split|eapply rtc_once; split]].
  - apply (sys_begin _ first_begun 1 memory_root memory_tx memory_world); [reflexivity|exact eq_refl].
  - exists (memory_tx, []). reflexivity.
  - apply (sys_write _ both_begun 1 memory_tx [] memory_root word_size (Ok (mk_memref 0 544 8)) written_tx written_world).
    + reflexivity.
    + exact root_size.
    + exact second_write_eventually.
  - exists (memory_tx, []). reflexivity.
  - apply (sys_commit _ second_written 1 written_tx [mk_memref 0 544 8] (Ok tt) written_tx committed_world).
    + reflexivity.
    + by vm_compute.
    + exact committed_eq.
  - exists (memory_tx, []). reflexivity.
Qed.

Lemma second_written_represents : ∃ m, represents root_sizes second_written m.
Proof.
  destruct (sys_steps_simulated root_sizes both_begun second_written) with (m := begin_store (begin_store idle_store 0) 1)
    as (m & _ & Hm).
  - apply rtc_once.
    apply (sys_write _ both_begun 1 memory_tx [] memory_root word_size (Ok (mk_memref 0 544 8)) written_tx written_world);
      [reflexivity|exact root_size|exact second_write_eventually].
  - exact both_begun_represents.
  - exists m. exact Hm.
Qed.

Lemma second_writer : sy_txs second_written !! 1%nat = Some (written_tx, [mk_memref 0 544 8]).
Proof. reflexivity. Qed.

Lemma first_reader : sy_txs second_written !! 0%nat = Some (memory_tx, []).
Proof. reflexivity. Qed.

(** ** The theorems at work *)
Lemma executions_refine_store_witness :
  ∃ m', rtc mv_step (begin_store idle_store 0) m' ∧ represents root_sizes second_committed m' ∧ mv_inv m'.
Proof.
  apply (executions_refine_store root_sizes first_begun second_committed (begin_store idle_store 0)).
  - exact first_begun_represents.
  - exact (rtc_subrel _ _ _ _ (λ _ _ H, proj1 H) overlap).
Defined.

Lemma first_read : eventually (λ fuel, (Transaction_read fuel memory_root word_size (memory_tx, sy_world first_begun)).1)
  (Ok (mk_memref 0 288 8)).
Proof.
  apply (eventually_map fst _ (Ok (mk_memref 0 288 8), (memory_tx, sy_world first_begun))).
  apply (eventually_above _ _ 1). intros fuel Hfuel.
  rewrite (system_read root_sizes first_begun (begin_store idle_store 0) 0 memory_tx [] (mk_running 1 None []) memory_root
    word_size [root_entry]) with (fuel := fuel).
  - rewrite idle_total. reflexivity.
  - exact first_begun_represents.
  - reflexivity.
  - reflexivity.
  - exact root_size.
  - unfold begin_store, idle_store, one_object. cbn [mv_objects]. apply lookup_singleton_eq.
  - exact Hfuel.
Qed.

Lemma repeatable_reads_witness :
  ∃ tx' refs', sy_txs second_committed !! 0%nat = Some (tx', refs') ∧
    eventually (λ fuel, Transaction_read fuel memory_root word_size (tx', sy_world second_committed))
      (Ok (mk_memref 0 288 8), (tx', sy_world second_committed)) ∧
    ∀ d, Ok (mk_memref 0 288 8) = Ok d → ∀ o, mr_off d ≤ o < mr_off d + mr_len d →
      (∀ off, is_Some (root_sizes !! InMemory (mr_source d) off) → ¬ off ≤ o < off + size_of_usize) →
      mem (sy_las second_committed) (mr_source d) o 1 = mem (sy_las first_begun) (mr_source d) o 1.
Proof.
  apply (repeatable_reads root_sizes first_begun (begin_store idle_store 0) 0 memory_tx [] second_committed memory_root
    word_size (Ok (mk_memref 0 288 8))).
  - exact first_begun_represents.
  - reflexivity.
  - exact overlap.
  - exact root_size.
  - exact first_read.
Defined.

Lemma commit_atomic_witness :
  ∃ after, eventually (new_read memory_root committed_world memory_root word_size) after ∧
    ∃ d, after = Ok d ∧ mr_source d + mr_off d = 544.
Proof.
  destruct second_written_represents as [m Hm].
  destruct (commit_atomic root_sizes second_written m 1 written_tx [mk_memref 0 544 8] written_tx committed_world memory_root
    word_size memory_root) as (after & Hev & Hall & _).
  - exact Hm.
  - exact second_writer.
  - exact root_size.
  - by vm_compute.
  - exact committed_eq.
  - exists after. split; [exact Hev|].
    destruct (Hall (TransactionWrite_new memory_root 288 544)) as (d & Hd & Ha & _).
    + rewrite written_writeset. by left.
    + reflexivity.
    + exists d. split; [exact Hd|exact Ha].
Defined.

Lemma giving_up_leaves_no_trace_witness :
  ∃ result, eventually (new_read memory_root written_world memory_root word_size) result ∧
    ∃ w', Transaction_abort (written_tx, written_world) = (Ok tt, (written_tx, w')) ∧
      eventually (new_read memory_root w' memory_root word_size) result.
Proof.
  destruct second_written_represents as [m Hm].
  destruct (giving_up_leaves_no_trace root_sizes second_written m 1 written_tx [mk_memref 0 544 8] memory_root word_size
    memory_root) as (result & Hbefore & Habort & _).
  - exact Hm.
  - exact second_writer.
  - exact root_size.
  - by vm_compute.
  - exists result. split; [exact Hbefore|exact Habort].
Defined.

Lemma first_writer_wins_witness :
  ∃ result tx' w',
    eventually (λ fuel, Transaction_write fuel memory_root word_size (memory_tx, written_world)) (result, (tx', w')) ∧
    (result = Err TxAborted ∨ result = Err AllocationTooLarge ∨ result = Err NoAvailableMemory).
Proof.
  destruct second_written_represents as [m Hm].
  destruct (first_writer_wins root_sizes second_written m 0 memory_tx [] memory_root word_size)
    as (result & tx' & w' & Hev & Hwins & _).
  - exact Hm.
  - exact first_reader.
  - exact root_size.
  - exists result, tx', w'. split; [exact Hev|].
    apply (Hwins 1%nat written_tx [mk_memref 0 544 8] (TransactionWrite_new memory_root 288 544) second_writer).
    + rewrite written_writeset. by left.
    + reflexivity.
Defined.

Lemma calls_return_witness :
  (∃ o, eventually (λ fuel, (Transaction_write fuel memory_root word_size (written_tx, written_world)).1) o ∧ returns o) ∧
  returns (Transaction_alloc (ObjectSize_new 24 0) (written_tx, written_world)).1 ∧
  (Transaction_abort (written_tx, written_world)).1 = Ok tt.
Proof.
  destruct second_written_represents as [m Hm].
  destruct (calls_return root_sizes second_written m 1 written_tx [mk_memref 0 544 8]) as (Hcalls & Halloc & Habort & _).
  - exact Hm.
  - exact second_writer.
  - by vm_compute.
  - split_and!; [apply (Hcalls memory_root word_size), root_size| |exact Habort].
    apply (Halloc (ObjectSize_new 24 0) 24); by vm_compute.
Defined.

(** A closure that overwrites the root object. *)
Definition overwrite_root (v : Z) : client unit :=
  Writing memory_root word_size (λ o,
    match o with
    | inl d => Storing d 0 (u64_bytes v) (Done (inl tt))
    | inr error => Done (inr error)
    end).

Lemma overwrite_root_ok v : client_ok root_sizes [] [] (overwrite_root v).
Proof.
  split; [exact root_size|]. split; [|done]. intros d Hd _. injection Hd as Hd. split; [by left|]. split; [lia|].
  split; [|done]. rewrite blen_u64, <- Hd. unfold word_size. cbn. lia.
Qed.


Lemma executions_refine_values_witness :
  ∃ a a', shows root_sizes first_begun a ∧ shows root_sizes second_committed a' ∧
    rtc (λ b b', ∃ x, val_step copied x b b') a a' ∧ val_inv a'.
Proof.
  exists (view root_sizes first_begun (begin_store idle_store 0)).
  assert (shows root_sizes first_begun (view root_sizes first_begun (begin_store idle_store 0))) as Hs
    by (exists (begin_store idle_store 0); split; [exact first_begun_represents|reflexivity]).
  destruct (executions_refine_values root_sizes first_begun second_committed _ Hs) as (a' & Hs' & Hst & Hinv).
  - exact (rtc_subrel _ _ _ _ (λ _ _ H, proj1 H) overlap).
  - exists a'. exact (conj Hs (conj Hs' (conj Hst Hinv))).
Defined.

(** Two threads that overwrite the root object; the second is aborted and has
    begun again when the first is done. *)
Definition overwriters : machine DynSource unit := mk_machine idle (replicate 2 Ready).
Definition overwriting (turns : list nat) : option (machine DynSource unit) :=
  take_turns memory_root (λ i, overwrite_root (Z.of_nat i)) 9 turns overwriters.
Definition overwritten (turns : list nat) : machine DynSource unit := default overwriters (overwriting turns).

Lemma overwriting_eq turns : match overwriting turns with Some _ => true | None => false end = true →
  overwriting turns = Some (overwritten turns).
Proof. unfold overwritten. by destruct (overwriting turns). Qed.


Lemma thread_alone_witness :
  ∃ retries result, seen result (inl tt) ∧
    eventually (λ fuel, Librarius_run retries memory_root (closure fuel (overwrite_root 0)) memory_world)
      (result, sy_world (mc_system (overwritten (replicate 4 0%nat)))).
Proof.
  apply (thread_alone memory_root (λ i, overwrite_root (Z.of_nat i)) 0 (inl tt) idle (replicate 2 Ready)
    (mc_system (overwritten (replicate 4 0%nat))) (mc_threads (overwritten (replicate 4 0%nat)))).
  - reflexivity.
  - assert (mk_machine (mc_system (overwritten (replicate 4 0%nat))) (mc_threads (overwritten (replicate 4 0%nat))) =
      overwritten (replicate 4 0%nat)) as -> by by destruct (overwritten (replicate 4 0%nat)).
    apply (take_turns_alone _ _ 9 0 4), overwriting_eq. computed.
  - computed.
Defined.

(** ** Write skew

    The root object and its child: one transaction writes the one and another
    the other. *)
Definition family_root : cell := InMemory 0 184.
Definition family_child : cell := InMemory 0 544.
Definition family_pointers : list (cell * ObjectSize) := [(family_root, node_size); (family_child, word_size)].
Definition family_sizes : gmap cell ObjectSize := list_to_map family_pointers.
Definition family_world : World DynSource := lr_world parent_heap.
Definition family_tx : Transaction := fresh_transaction family_root family_world.
Definition family_begun : system DynSource :=
  step_to (step_to (mk_system family_world ∅) 0 family_tx [] family_world) 1 family_tx [] family_world.
Definition root_written : Transaction * World DynSource := (Transaction_write 5 family_root node_size (family_tx, family_world)).2.
Definition child_written : Transaction * World DynSource := (Transaction_write 5 family_child word_size (family_tx, root_written.2)).2.
#[local] Opaque family_world root_written child_written.

Lemma family_begun_represents : ∃ m, represents family_sizes family_begun m.
Proof.
  destruct (quiet_at_represents 7 5 family_world family_pointers) as [m Hm]; [computed|].
  destruct (represents_begin family_sizes (mk_system family_world ∅) m 0 family_root Hm) as [_ H0]; [reflexivity|].
  eexists. exact (proj2 (represents_begin family_sizes _ _ 1 family_root H0 eq_refl)).
Qed.

Lemma write_eventually pointer size (st st' : Transaction * World DynSource) d : Transaction_write 5 pointer size st = (Ok d, st') →
  eventually (λ fuel, Transaction_write fuel pointer size st) (Ok d, st').
Proof.
  intros Hw. apply (extends_eventually (λ n, Transaction_write n pointer size) 5); [intros; by apply Transaction_write_more|exact Hw|done].
Qed.

Lemma root_written_eq : Transaction_write 5 family_root node_size (family_tx, family_world) =
  (Ok (mk_memref 0 800 8), (root_written.1, root_written.2)).
Proof. apply pair_eq; [computed|]. rewrite <- surjective_pairing. exact eq_refl. Qed.

Lemma child_written_eq : Transaction_write 5 family_child word_size (family_tx, root_written.2) =
  (Ok (mk_memref 0 1056 8), (child_written.1, child_written.2)).
Proof. apply pair_eq; [computed|]. rewrite <- surjective_pairing. exact eq_refl. Qed.

Lemma write_skew_commits_witness :
  (∃ old, eventually (λ fuel, (Transaction_read fuel family_child word_size (family_tx, family_world)).1) old ∧
     eventually (λ fuel, (Transaction_read fuel family_child word_size (root_written.1, child_written.2)).1) old) ∧
  ∃ w3 w4, Transaction_commit (root_written.1, child_written.2) = (Ok tt, (root_written.1, w3)) ∧
    Transaction_commit (child_written.1, w3) = (Ok tt, (child_written.1, w4)) ∧
    eventually (new_read family_root w4 family_root node_size) (Ok (mk_memref 0 800 8)) ∧
    eventually (new_read family_root w4 family_child word_size) (Ok (mk_memref 0 1056 8)).
Proof.
  destruct family_begun_represents as [m Hm].
  destruct (write_skew_commits family_sizes family_begun m 0 1 family_tx [] family_tx [] family_root family_child node_size word_size
    (mk_memref 0 800 8) root_written.1 root_written.2 (mk_memref 0 1056 8) child_written.1 child_written.2 family_root)
    as (Hreads & _ & Hcommits).
  - exact Hm.
  - done.
  - done.
  - reflexivity.
  - reflexivity.
  - reflexivity.
  - reflexivity.
  - exact (write_eventually _ _ _ _ _ root_written_eq).
  - exact (write_eventually _ _ _ _ _ child_written_eq).
  - computed.
  - computed.
  - by vm_compute.
  - exact (conj Hreads Hcommits).
Defined.
