(* ===== verification/Collisions.v ===== *)
(** * Concrete races

    Two transactions of [Interleavings] that write the root object at the same
    time, stage by stage, and the theorems of [Linear] about them. *)
From S2P Require Import Prelude Utils Source SourceAllocator Slices Las Memory Opening Pointer.
From S2P Require Import Vos Allocators Versions Objects Paging Tx Transactions Heap Runs.
From S2P Require Import Checks Scenarios Snapshot Arena Simulation Calls Isolation Clients.
From S2P Require Import Stages Moves Races Stepwise Linear Interleavings.
#[local] Opaque memory_heap memory_world memory_root memory_tx.

Definition racing : race DynSource := mk_race both_begun ∅.
Definition raced (turns : list nat) : race DynSource := default racing (race_turns memory_root word_size turns racing).

Lemma raced_steps turns : match race_turns memory_root word_size turns racing with Some _ => true | None => false end = true →
  rtc (race_step root_sizes) racing (raced turns).
Proof.
  intros Hts. unfold raced. destruct (race_turns memory_root word_size turns racing) as [x|] eqn:E; [|done].
  apply (race_turns_steps root_sizes memory_root word_size turns racing x root_size _ (race_inv_start _ _ _ both_begun_represents) E).
Qed.

Lemma raced_running turns i : match sy_txs (rc_system (raced turns)) !! i with Some _ => true | None => false end = true →
  ∃ tx refs, sy_txs (rc_system (raced turns)) !! i = Some (tx, refs).
Proof. destruct (sy_txs (rc_system (raced turns)) !! i) as [[tx refs]|]; [by exists tx, refs|done]. Qed.

(** Both have their new version filled; and the first has swung it in. *)
Definition both_copied : list nat := [0;1;1;0;0;1;0;1;1;0]%nat.
Definition first_swung : list nat := both_copied ++ [0%nat].

Lemma races_refine_store_witness : ∃ m', rtc mv_step (begin_store (begin_store idle_store 0) 1) m' ∧
  represents root_sizes (rc_system (raced (first_swung ++ [1%nat]))) m' ∧ mv_inv m'.
Proof.
  destruct (races_refine_store root_sizes both_begun (begin_store (begin_store idle_store 0) 1) both_begun_represents)
    as (refines & _ & Hreach & Hall).
  destruct (Hreach (raced (first_swung ++ [1%nat]))) as (m' & Hms & Hr); [apply raced_steps; computed|].
  destruct (Hall _ _ Hr) as (Hrp & Hinv & _). exists m'. exact (conj Hms (conj Hrp Hinv)).
Defined.


(** The first finds the pointer as it was, the second does not. *)
Lemma race_loses_no_update_witness :
  (∃ tx tx' w' old, let w := sy_world (rc_system (raced both_copied)) in
     advance 0 (Copied memory_root 288 672 (mk_memref 0 672 8)) (tx, w) = (Ok (inr (Wrote (mk_memref 0 672 8))), (tx', w')) ∧
     eventually (λ fuel, (Transaction_read fuel memory_root word_size (tx, w)).1) (Ok old)) ∧
  (∃ tx, let w := sy_world (rc_system (raced first_swung)) in
     advance 0 (Copied memory_root 288 800 (mk_memref 0 800 8)) (tx, w) = (Err TxAborted, (tx, w))).
Proof.
  split.
  - destruct (raced_running both_copied 0) as (tx & refs & Hi); [computed|].
    destruct (race_loses_no_update root_sizes both_begun _ (raced both_copied) 0 tx refs memory_root word_size 288 672
      (mk_memref 0 672 8) memory_root both_begun_represents) as (raw & Hraw & [[Hne _]|(_ & tx' & w' & old & Ha & Hr & _)]).
    + apply raced_steps. computed.
    + computed.
    + exact Hi.
    + exact root_size.
    + destruct Hne. apply (f_equal fst) in Hraw.
      assert ((cell_load memory_root (w_las (sy_world (rc_system (raced both_copied))))).1 = Ok 288) as E by computed.
      rewrite E in Hraw. by injection Hraw.
    + exact (ex_intro _ tx (ex_intro _ tx' (ex_intro _ w' (ex_intro _ old (conj Ha Hr))))).
  - destruct (raced_running first_swung 1) as (tx & refs & Hi); [computed|].
    destruct (race_loses_no_update root_sizes both_begun _ (raced first_swung) 1 tx refs memory_root word_size 288 800
      (mk_memref 0 800 8) memory_root both_begun_represents) as (raw & Hraw & [[_ Ha]|(Heq & _)]).
    + apply raced_steps. computed.
    + computed.
    + exact Hi.
    + exact root_size.
    + by exists tx.
    + exfalso. subst raw. apply (f_equal fst) in Hraw.
      assert ((cell_load memory_root (w_las (sy_world (rc_system (raced first_swung))))).1 = Ok 672) as E by computed.
      rewrite E in Hraw. cbn [fst] in Hraw. injection Hraw as Hraw. lia.
Defined.
